(* ===== verification/_CoqProject ===== *)
-Q . S2P
Prelude.v
KernisCore.v
ExecutionStream.v
WorkflowGraph.v
WorkflowFacts.v
Effects.v
Journal.v
JournalFacts.v
Recovery.v
Durable.v
DurableFacts.v
DurableStoreFacts.v
LedgerBinding.v
JournalView.v
Physical.v
PhysicalFacts.v
IdealBackend.v
CapabilityGraph.v
CapabilityGraphFacts.v
Scope.v
ScopeFacts.v
Ownership.v
ScopeSafety.v
Admission.v
Teardown.v
Plugin.v
Context.v
ContextSafety.v
EffectStack.v
Fiber.v
FiberFacts.v
FiberEffects.v
FiberCleanup.v
FiberTree.v
FiberSafety.v
FiberOwners.v
FiberLiveness.v
Reactive.v
ReactiveFacts.v
ReactivePlan.v
ReactiveSafety.v
RunDefinition.v
RunDefinitionFacts.v
IdentityEncoding.v
RunValidation.v
Composition.v
CompositionOrder.v
CompositionFacts.v
CompositionPlan.v
Loader.v
LoaderFacts.v
LoaderPlan.v
RuntimeErrors.v
RuntimeCore.v
RuntimeView.v
RuntimeLife.v
RuntimeOps.v
RuntimeRestart.v
RuntimeStores.v
RuntimeCalls.v
RuntimeSafety.v
Driver.v
DriverMailbox.v
DriverStream.v
DriverEffects.v
DriverLife.v
DriverShutdown.v
DriverSafety.v
Assembly.v
AssemblyFacts.v
AssemblyHandle.v
ActivationFacts.v
AssemblySafety.v
ErrorTexts.v
