(* ===== verification/Prelude.v ===== *)
(** * Kernis: a verification development of the runtime kernel

    Kernis is a Rust kernel for dynamic, durable runtimes.  It keeps three
    structures apart, capabilities, workflows and execution streams, each the
    authority for its own facts, beside a durable authority for the facts that
    survive a crash.  This library models those structures as executable
    definitions that follow the Rust code operation by operation, and proves
    what makes each of them correct.  Paths below are relative to [src/].

    ** Parts, and how they interact

    - Identifiers and revisions, [crates/core/src/lib.rs]: [KernisCore].
    - Execution streams, [crates/execution-stream/src/lib.rs]:
      [ExecutionStream].  The producer's sequencer stamps items, one of three
      bounded buffers carries them, the consumer's tracker classifies what
      arrives.
    - Workflows, [crates/workflow-graph/src/lib.rs]: [WorkflowGraph] (model)
      and [WorkflowFacts] (theorems).  Tasks, dependencies, versioned batches of
      mutations, completion, readiness, and the replay of both logs.
    - Durable execution, [crates/workflow-recovery/src/]: [Effects] (model.rs),
      [Journal] and [JournalFacts] (journal.rs), [Recovery] (recovery.rs),
      [Durable], [DurableFacts], [DurableStoreFacts] and [LedgerBinding]
      (durable.rs), [JournalView] ([DurableJournal::from_durable_state]),
      [Physical], [PhysicalFacts] and [IdealBackend] (physical.rs).  A client
      commits batches of facts to a store; the journal is a view of a run that
      is read back; recovery classifies an operation from that view; the file
      store keeps the encoded run in a redb table.
    - Capabilities, [crates/capability-graph/src/]: [CapabilityGraph] and
      [CapabilityGraphFacts] (definition.rs, resolver.rs), [Scope] (runtime.rs),
      [ScopeFacts], [ScopeSafety], [Admission] and [Teardown] (its theorems),
      [Ownership] (the counter of identities, and who keeps a value alive).
      The resolver is the admission check of the scope tree; every publication
      into a scope resolves the graph that the scope and its descendants see.
    - Plugin fibers, [crates/capability-graph/src/semantic.rs]: [Plugin]
      (definitions), [Context] and [ContextSafety] (contexts, bindings, epochs),
      [EffectStack] (owned effects), [Fiber] (the machine), [FiberFacts] (lock,
      shapes, finality), [FiberEffects] and [FiberCleanup] (where effects are),
      [FiberTree] (composition with the scope tree), [FiberSafety] (theorems).
      A fiber resolves its dependencies in a context, runs a factory, publishes
      the value into the scope tree and owns the effects of the load.
      [FiberOwners] (who publishes what) and [FiberLiveness] (calls return).
    - The reactive coordinator, [crates/capability-graph/src/reactive.rs]:
      [Reactive] (model), [ReactiveFacts] (closure, depths, order),
      [ReactivePlan] (the plan in terms of the world) and [ReactiveSafety]
      (theorems).  It watches fibers, drives those whose binding changed, and
      drains the dependents of a withdrawn provider, each by calls on fibers.
    - Run definitions, [crates/runtime-core/src/definition.rs]: [RunDefinition]
      (model), [RunDefinitionFacts], [IdentityEncoding] (the canonical text) and
      [RunValidation] (theorems).  A declaration is validated by building both a
      workflow and a capability graph from it; its canonical text is hashed.
    - Compositions, [crates/runtime-composition/src/]: [Composition]
      (definition.rs, registration.rs, config.rs, error.rs and the planning half
      of plan.rs), [CompositionOrder] (Kahn's order), [CompositionFacts] (each
      check) and [CompositionPlan] (theorems).  The planner merges registered
      modules into one run definition and a registry of factories.
    - The loader, [crates/runtime-loader/src/]: [Loader] (reference.rs,
      catalog.rs, resolve.rs, error.rs), [LoaderFacts] (closure and cycles) and
      [LoaderPlan] (theorems).  It resolves exact references against a catalog,
      calls the registration factories, and hands the modules to the planner.
    - The coordinator, [crates/runtime-core/src/lib.rs]: [RuntimeErrors] and
      [RuntimeCore] (model), [RuntimeView] (the journal as a view of the run),
      [RuntimeLife] (the contract of a store, the invariant of a live runtime),
      [RuntimeOps] (each operation keeps it), [RuntimeRestart] (start and
      restore), [RuntimeStores] (both stores meet the contract), [RuntimeCalls]
      (hosts, crashes, histories) and [RuntimeSafety] (theorems).  A runtime
      owns a workflow and a journal, schedules ready tasks, begins attempts with
      the capabilities of its scope pinned, commits every fact to a store before
      it changes its own state, and publishes observations to three buffers.
    - The asynchronous driver, [crates/runtime-core/src/async_driver.rs]:
      [Driver] (model), [DriverMailbox] (commands and answers), [DriverStream]
      (the lifecycle stream), [DriverEffects] (what a dispatch makes durable),
      [DriverLife] (hosts with drivers), [DriverShutdown] (the report) and
      [DriverSafety] (theorems).  One owner holds a runtime, serves the commands
      of any number of handles in order, and awaits external effects.
    - Activation and release, [crates/runtime-composition/src/assembly.rs] and
      the rest of plan.rs: [Assembly] (model), [AssemblyFacts] (what a sweep
      accounts for), [AssemblyHandle] (handles through their releases),
      [ActivationFacts] (what an activation acquired) and [AssemblySafety]
      (theorems).  An activation constructs a runtime, registers plugins, starts
      fibers and calls hooks; a ledger undoes it in reverse, either on rollback or
      shutdown, or from a handle once the driver has exited or was lost.
    - [ErrorTexts]: what the errors of the composition, the loader and the stream
      display.

    ** Conventions

    - Fallible code returns [result E A]: [Ok] and [Err] are Rust's [Result],
      [Panic site] is a failed [expect] or index, [NoFuel] an exhausted fuel.
      A theorem that says [returns] excludes the last two.
    - A mutable structure is a [Record] passed and returned; an operation on
      [&mut self] returns the new record with its result.  A mutation guarded by
      a lock is one step; the scope tree, whose publication releases the lock
      while a factory runs, is a transition system ([ScopeSafety.scope_step]).
    - An asynchronous call is a task with a program point ([Fiber.pc]); a step
      of a task ([Fiber.step_pc]) runs to the next access of something that
      other threads write, and [Fiber.fiber_step] interleaves any number of
      tasks with the other users of the tree, with plugin code that registers
      effects, and with callers that drop calls.  A dropped or panicking call
      gives its lock back.  One lookup of a context is one step of the machine;
      [ContextSafety.isolation_race] opens that step up.
    - The driver is a machine of the same kind: [Driver.act] runs the owner from
      one await to the next, or one access of a mailbox or response cell by
      somebody else.  A waker is a boolean: somebody waits to be woken.  The
      reply channel is factored out of the command enum ([Driver.Request],
      [Driver.reply] is the position of the response cell).
    - A composition is a driver, a world of fibers and a handle side by side
      ([Assembly.composition_act]); a cleanup step in progress is a task of that
      world, or the future of a hook whose answer the step takes.  Others use the
      world as they like, but register no plugin under an identity of the
      composition.
    - [u64] is [N] bounded by [u64_max], and every [checked_add] is an option;
      the hash and the checksum work modulo 2^64.  [usize] lengths are [nat].
    - [BTreeMap] and [BTreeSet] are [gmap] and [gset]; their iteration order is
      [map_keys], [map_iter], [map_values] and [set_iter], which sort by [Ord].
      Strings are byte strings compared as Rust compares them.
    - [Hash] and [Eq] derived in Rust are decidable equality instances here.

    ** Fuel

    Recursions over graphs take a fuel that the model computes from the state,
    and termination is proved, not assumed: [visit_fuel] is one more than the
    number of registered nodes, since every nested visit marks a new one;
    [tree_fuel] is the number of scopes, since a path is no longer than that;
    [snapshot_fuel] is one more than the number of published entries, since an
    entry pins only older ones; [bootstrap_fuel] is 502 rounds, since the wait
    for a new database file has a deadline of five seconds and polls every ten
    milliseconds; Kahn's loop and the walk that exhibits a cycle take a round per
    module; [close_fuel] is two more than the entries of the catalog, since every
    round but the last resolves a new entry, and [visit_reference_fuel] one more
    than the references of the closure; [closure_rounds] is one more than the
    watched fibers, since every round but the last finds one, and [depth_fuel]
    two more than the affected fibers, since every nested call but the last
    visits a new one.  The runs of a call or of a coordinator that is alone
    ([call_alone], [coordinate]) take a fuel whose existence is proved.
    [drop_fuel] counts, for every slot, its dependencies and two steps, and the
    drops under way; every step of a drop lowers it.
    [run_fuel] is one more than the number of tasks, since every round of
    [run_until_blocked] but the last completes one.  No theorem has a
    hypothesis about fuel.

    ** What the theorems show

    - Streams: the sequencer is a counter that stops at its maximum; the
      lossless buffer delivers in order; the lossy one loses the oldest items
      and the tracker reports exactly the gap; the coalescing one keeps one item
      per identity.
    - Workflows: the cycle search is exact, the well-formedness invariant holds
      in every reachable graph, batches are atomic and each branch is described,
      some task is always ready until all are complete, and the logs replay to
      the same graph.
    - Durable execution: commits are atomic, exclusive and idempotent; facts are
      append-only and form one lineage; ledger replay accepts exactly the
      ledgers commits produce; changed ledgers and rows are detected; the file
      store refines the in-memory store whatever the backend does within its
      laws; the journal view answers as the run; recovery after a restart
      decides as before it and never repeats an unsafe effect.
    - Capabilities: resolution is exact and orders dependencies first; a
      publication is atomic and never stale; as long as nothing is withdrawn
      every open scope sees a graph that resolves; teardown closes a subtree
      and releases dependents before dependencies.  [Teardown.teardown_can_panic]
      is a history of admitted publications after which a teardown panics.
      Identities are reserved exactly once by contending threads; a value is
      disposed of once, after its last reader and before its dependencies.
    - Fibers: the transition lock is exclusive and whoever finds it free finds a
      whole fiber, and every effect is disposed exactly once by the time its fiber
      is at rest outside [Active], both as long as no call is dropped;
      [Disposed] is final even when calls are dropped; fibers keep the invariant
      of the scope tree and their pins name recorded entries; a context finds the
      nearest provider.
      [FiberSafety.dispose_leaves_fiber] is a run after which a disposed fiber
      stays listed.  Every call on a fiber whose lock is free returns when it
      runs alone, whatever it is and whatever the host answers, if no call was
      dropped before and an entry identity is left.
    - The reactive coordinator: a withdrawal drains exactly the watched fibers it
      concerns, each once and before the fibers it is bound to, and returns.
    - Run definitions: validation accepts exactly the well-formed definitions,
      and two of them have one canonical text exactly when they declare the same
      things.
    - Compositions: planning succeeds exactly when the modules fit together; the
      activation order is the least topological one; the merged definition of
      every plan validates and finds its factories.
    - The loader: the text of references is bijective; resolution is exact; each
      factory is called once, in order, and none before the graph is accepted;
      what is handed over can be ordered by the planner.
    - The coordinator: over any store that meets [RuntimeLife.StoreContract],
      and through any number of crashes and restarts, the live state agrees with
      the durable run; a restored runtime is the live one; a non-idempotent
      effect is dispatched at most once; every call returns; a declarative run
      is restored only under its own identity.  A runtime whose backend failed
      during a commit no longer knows what the store holds, so the host of a
      history gives it up and restarts; every other error keeps it.
    - The driver: every command is answered once and in order and no wake-up is
      lost; lifecycle observations are handed out once and in order, full
      buffers and shutdown included; an effect is requested only after its
      dispatch is durable, and one that must not be repeated at most once over
      all drivers, direct calls, crashes and restarts of a run (here the hosts,
      [DriverLife.hosting], do go on with a runtime whose backend failed);
      a shutdown reports the durable run exactly.
    - Activation and release: an activation acquires every module of the plan, or
      gives back all it acquired; every owned step of the cleanup is begun once,
      in reverse, whatever is dropped, panics or is retried, and the report is
      exact; a release rests on the state of its own driver; a handle with work
      left can always be released once its driver is gone, and its sweep ends.

    ** Interfaces and parameters

    [Durable.DurableStore] is the store port as a class; the in-memory adapter
    is its instance, and the file store is related to it by refinement.
    [RuntimeLife.StoreContract] states what the coordinator relies on: which run
    a store holds, and what its calls do to it unless the backend fails.  Code
    outside the repository is a parameter with its documented behaviour as
    laws: the encoding of commit bindings ([StoreFormat], [StoreFormatLaws]) and
    of snapshots ([SnapshotFormat], [SnapshotFormatLaws]), which postcard
    provides, and the database with its file and clock ([Redb], [RedbLaws]).
    The closures a host registers (plugin and registration factories, lifecycle
    hooks) are names; what a call of a registration factory returns is an oracle
    over the calls before it ([Loader.load]); what a plugin factory, a validator
    or a disposer returns is an [answer] that a step of a task takes.
    [DurableStoreFacts] and [IdealBackend] instantiate all of them, so that no
    law is vacuous.

    ** Not modelled, and the plan

    Not modelled: the text of derived [Debug] output; lock poisoning; the memory
    order of the atomics other than the identity counters; what a cleanup
    callback does, a panic included; the depth of the call stack; a direct [EffectScope::dispose_all] by host code, since the scopes of a fiber are
    disposed of by the fiber.  The [Weak] reference of a fiber to its plugin
    runtime is its name, taken to be alive.  A coordinator has the plugin
    registry of the world as its own, [live] stands for the weak references that
    upgrade, and a withdrawal plan reads the cells of the fibers in one step.
    Of the driver, the accessors of an exit are left out, and so is a waker that
    panics; an owner token is a name ([Assembly.DriverOwner]); a host that
    loses an exit without presenting it is not modelled.
    [crates/graph-lab], the fixtures and the crate roots hold no logic of the
    kernel.

    This file: the outcome type, machine integers, sorted iteration, and the
    lemmas on folds, lists, paths and invariants that the components share. *)
From stdpp Require Export base tactics list gmap sets strings sorting fin_maps relations.
From stdpp Require Import options.
From Stdlib Require Export NArith ZArith Lia ZifyBool.

(** ** Outcomes of fallible code

    [Ok] and [Err] are Rust's [Result].  [Panic] is the outcome of an
    [expect] or of an indexing operation that fails; [NoFuel] is the outcome
    of a fuelled recursion that runs out of fuel.  Both are kept apart from
    [Err], so that a theorem can exclude them. *)
Inductive result (E A : Type) : Type :=
  | Ok (a : A)
  | Err (e : E)
  | Panic (site : string)
  | NoFuel.
Arguments Ok {E A} a.
Arguments Err {E A} e.
Arguments Panic {E A} site.
Arguments NoFuel {E A}.

#[export] Instance result_eq_dec `{EqDecision E, EqDecision A} : EqDecision (result E A).
Proof. solve_decision. Defined.

#[export] Instance result_ret {E} : MRet (result E) := fun A a => Ok a.
#[export] Instance result_bind {E} : MBind (result E) := fun A B f r =>
  match r with
  | Ok a => f a
  | Err e => Err e
  | Panic s => Panic s
  | NoFuel => NoFuel
  end.
#[export] Instance result_fmap {E} : FMap (result E) := fun A B f r =>
  match r with
  | Ok a => Ok (f a)
  | Err e => Err e
  | Panic s => Panic s
  | NoFuel => NoFuel
  end.

(** [Option::ok_or] and [Option::expect]. *)
Definition ok_or {E A} (o : option A) (e : E) : result E A :=
  match o with Some a => Ok a | None => Err e end.
Definition expect {E A} (o : option A) (site : string) : result E A :=
  match o with Some a => Ok a | None => Panic site end.
(** [Result::map_err]. *)
Definition map_err {E F A} (f : E -> F) (r : result E A) : result F A :=
  match r with
  | Ok a => Ok a
  | Err e => Err (f e)
  | Panic s => Panic s
  | NoFuel => NoFuel
  end.

(** The outcome is one Rust's type system knows: it returned. *)
Definition returns {E A} (r : result E A) : Prop :=
  match r with Ok _ | Err _ => True | _ => False end.

(** ** Machine integers *)

(** [u64::MAX]; a [u64] is an [N] at most this. *)
Definition u64_max : N := 18446744073709551615%N.
Definition u64_ok (n : N) : Prop := (n <= u64_max)%N.
(** [n.checked_add(1)] at width 64. *)
Definition checked_succ (n : N) : option N :=
  if (n <? u64_max)%N then Some (n + 1)%N else None.

(** ** Ordered keys

    Rust's [BTreeMap] and [BTreeSet] iterate in key order.  Maps and sets are
    stdpp's [gmap] and [gset]; iteration sorts the keys with the key type's
    total order. *)
Class Ord (K : Type) := {
  ord_le : relation K;
  ord_le_dec :: RelDecision ord_le;
  ord_le_po :: PartialOrder ord_le;
  ord_le_total :: Total ord_le
}.

#[export] Instance string_ord : Ord string :=
  {| ord_le := String.le |}.
#[export] Instance N_ord : Ord N := {| ord_le := N.le |}.

(** The derived order of a two-field struct: lexicographic. *)
Definition prod_le {A B} `{EqDecision A, Ord A, Ord B} (x y : A * B) : Prop :=
  if decide (x.1 = y.1) then ord_le x.2 y.2 else ord_le x.1 y.1.
#[export] Instance prod_le_dec {A B} `{EqDecision A, Ord A, Ord B} :
  RelDecision (prod_le (A:=A) (B:=B)).
Proof. intros x y. unfold prod_le. destruct (decide (x.1 = y.1)); apply _. Defined.
#[export] Instance prod_le_po {A B} `{EqDecision A, Ord A, Ord B} :
  PartialOrder (prod_le (A:=A) (B:=B)).
Proof.
  split; [split|].
  - intros [a b]. unfold prod_le. simpl. by rewrite decide_True.
  - intros [a1 b1] [a2 b2] [a3 b3]. unfold prod_le; simpl.
    repeat case_decide; subst; try done; intros ??.
    + by etransitivity.
    + exfalso. by apply H2, (anti_symm ord_le).
    + by etransitivity.
  - intros [a1 b1] [a2 b2]. unfold prod_le; simpl.
    repeat case_decide; subst; try done; intros ??.
    + by rewrite (anti_symm ord_le b1 b2).
    + by rewrite (anti_symm ord_le a1 a2) in H1.
Qed.
#[export] Instance prod_le_total {A B} `{EqDecision A, Ord A, Ord B} :
  Total (prod_le (A:=A) (B:=B)).
Proof.
  intros [a1 b1] [a2 b2]. unfold prod_le; simpl.
  repeat case_decide; subst; try done; apply (total ord_le).
Qed.
#[export] Instance prod_ord {A B} `{EqDecision A, Ord A, Ord B} : Ord (A * B) :=
  {| ord_le := prod_le |}.

(** [BTreeSet] iteration, [BTreeMap::keys], [::iter] and [::values]. *)
Definition set_iter {K} `{Countable K, Ord K} (X : gset K) : list K :=
  merge_sort ord_le (elements X).
Definition map_keys {K V} `{Countable K, Ord K} (m : gmap K V) : list K :=
  set_iter (dom m : gset K).
Definition map_iter {K V} `{Countable K, Ord K} (m : gmap K V) : list (K * V) :=
  omap (fun k => pair k <$> m !! k) (map_keys m).
Definition map_values {K V} `{Countable K, Ord K} (m : gmap K V) : list V :=
  (map_iter m).*2.

(** [iter().position(|c| c == x)]. *)
Definition position {A} `{EqDecision A} (x : A) (l : list A) : option nat :=
  fst <$> list_find (eq x) l.
(** [Vec::pop], keeping only the vector. *)
Definition vec_pop {A} (l : list A) : list A := take (pred (length l)) l.

(** ** Dependency graphs *)

(** [chain R l]: consecutive elements of [l] are related by [R]. *)
Fixpoint chain {A} (R : relation A) (l : list A) : Prop :=
  match l with
  | x :: ((y :: _) as t) => R x y /\ chain R t
  | _ => True
  end.
(** A closed walk with its start repeated at the end, as the error paths are. *)
Definition is_cycle {A} (R : relation A) (p : list A) : Prop :=
  exists x mid, p = x :: mid ++ [x] /\ chain R p.
Definition acyclic {A} (R : relation A) : Prop := forall x, ~ tc R x x.
(** All chains of prerequisites from [x] are finite. *)
Abbreviation grounded R := (Acc (flip R)).

Section ordered_iteration.
Context {K : Type} `{Countable K, Ord K}.
Implicit Types X : gset K.

Lemma set_iter_Permutation X : set_iter X ≡ₚ elements X.
Proof. apply merge_sort_Permutation. Qed.
Lemma elem_of_set_iter X k : k ∈ set_iter X <-> k ∈ X.
Proof. by rewrite set_iter_Permutation, elem_of_elements. Qed.
Lemma NoDup_set_iter X : NoDup (set_iter X).
Proof. rewrite set_iter_Permutation. apply NoDup_elements. Qed.
Lemma StronglySorted_set_iter X : StronglySorted ord_le (set_iter X).
Proof. apply StronglySorted_merge_sort; apply _. Qed.
Lemma set_iter_empty : set_iter (∅ : gset K) = [].
Proof. unfold set_iter. by rewrite elements_empty. Qed.
Lemma length_set_iter X : length (set_iter X) = size X.
Proof. by rewrite set_iter_Permutation. Qed.

(** The iteration order is the only sorted listing of the set. *)
Lemma set_iter_unique X l :
  NoDup l -> StronglySorted ord_le l -> (forall k, k ∈ l <-> k ∈ X) -> set_iter X = l.
Proof.
  intros Hnd Hs Hel.
  apply (StronglySorted_unique ord_le); [apply StronglySorted_set_iter | done |].
  apply NoDup_Permutation; [apply NoDup_set_iter | done |].
  intros k. by rewrite elem_of_set_iter, Hel.
Qed.

Context {V : Type}.
Implicit Types m : gmap K V.

Lemma elem_of_map_keys m k : k ∈ map_keys m <-> is_Some (m !! k).
Proof. unfold map_keys. by rewrite elem_of_set_iter, elem_of_dom. Qed.
Lemma NoDup_map_keys m : NoDup (map_keys m).
Proof. apply NoDup_set_iter. Qed.
Lemma elem_of_map_iter m k v : (k, v) ∈ map_iter m <-> m !! k = Some v.
Proof.
  unfold map_iter. rewrite list_elem_of_omap. split.
  - intros (k' & _ & Hk). destruct (m !! k') eqn:E; naive_solver.
  - intros Hk. exists k. rewrite Hk. split; [|done].
    apply elem_of_map_keys. eauto.
Qed.
Lemma map_iter_keys m : (map_iter m).*1 = map_keys m.
Proof.
  unfold map_iter.
  assert (Hall : forall k, k ∈ map_keys m -> is_Some (m !! k))
    by (intros k; apply elem_of_map_keys).
  induction (map_keys m) as [|k l IH]; [done|]. simpl.
  destruct (Hall k) as [v Hv]; [by left|]. rewrite Hv. simpl. f_equal.
  apply IH. intros k' Hk'. apply Hall. by right.
Qed.
Lemma elem_of_map_values m v : v ∈ map_values m <-> exists k, m !! k = Some v.
Proof.
  unfold map_values. rewrite list_elem_of_fmap. split.
  - intros ([k v'] & -> & Hk%elem_of_map_iter). eauto.
  - intros [k Hk%elem_of_map_iter]. by exists (k, v).
Qed.
Lemma map_keys_empty : map_keys (∅ : gmap K V) = [].
Proof. unfold map_keys. by rewrite dom_empty_L, set_iter_empty. Qed.
Lemma map_values_fmap {W} (f : V -> W) m : map_values (f <$> m) = f <$> map_values m.
Proof.
  unfold map_values, map_iter, map_keys. rewrite dom_fmap_L.
  induction (set_iter (dom m)) as [|k l IH]; [done|]. cbn. rewrite lookup_fmap.
  destruct (m !! k) as [v|]; cbn; [by f_equal|done].
Qed.
End ordered_iteration.

(** A [for] loop whose body may return early with [?]. *)
Fixpoint foldM {E S A} (f : S -> A -> result E S) (l : list A) (s : S) : result E S :=
  match l with
  | [] => Ok s
  | a :: l' => f s a ≫= foldM f l'
  end.

Section binds.
Context {E A B : Type}.

Lemma bind_Ok (r : result E A) (f : A -> result E B) b :
  r ≫= f = Ok b <-> exists a, r = Ok a /\ f a = Ok b.
Proof. destruct r; naive_solver. Qed.
Lemma bind_Err (r : result E A) (f : A -> result E B) e :
  r ≫= f = Err e <-> r = Err e \/ exists a, r = Ok a /\ f a = Err e.
Proof. destruct r; naive_solver. Qed.
Lemma fmap_Ok (f : A -> B) (r : result E A) b :
  f <$> r = Ok b <-> exists a, r = Ok a /\ b = f a.
Proof. destruct r; naive_solver. Qed.
Lemma ok_or_Ok (o : option A) (e : E) a : ok_or o e = Ok a <-> o = Some a.
Proof. destruct o; naive_solver. Qed.
Lemma returns_bind (r : result E A) (f : A -> result E B) :
  returns r -> (forall a, r = Ok a -> returns (f a)) -> returns (r ≫= f).
Proof. destruct r; naive_solver. Qed.
Lemma returns_ok_or (o : option A) (e : E) : returns (ok_or o e).
Proof. by destruct o. Qed.

End binds.

Section loops.
Context {E S A : Type}.

Lemma foldM_app (f : S -> A -> result E S) l1 l2 s :
  foldM f (l1 ++ l2) s = foldM f l1 s ≫= foldM f l2.
Proof.
  revert s. induction l1 as [|a l1 IH]; intros s; [done|]. simpl.
  destruct (f s a); simpl; auto.
Qed.
Lemma foldM_snoc (f : S -> A -> result E S) l a s :
  foldM f (l ++ [a]) s = foldM f l s ≫= fun s' => f s' a.
Proof.
  rewrite foldM_app. destruct (foldM f l s) as [s'| | |]; try done.
  simpl. by destruct (f s' a).
Qed.
(** A property each step preserves holds at the end of the loop. *)
Lemma foldM_invariant (P : S -> Prop) (f : S -> A -> result E S) l s s' :
  (forall s a s', a ∈ l -> P s -> f s a = Ok s' -> P s') ->
  P s -> foldM f l s = Ok s' -> P s'.
Proof.
  revert s. induction l as [|a l IH]; intros s Hstep HP; simpl.
  { by intros [= ->]. }
  intros (s1 & Hs1 & Hrest)%bind_Ok. apply (IH s1); [|by eapply Hstep; [left|..]|done].
  intros s2 b s3 Hb. apply Hstep. by right.
Qed.
(** A loop whose body always returns, returns. *)
Lemma foldM_returns (P : S -> Prop) (f : S -> A -> result E S) l s :
  (forall s a s', P s -> f s a = Ok s' -> P s') ->
  (forall s a, P s -> returns (f s a)) ->
  P s -> returns (foldM f l s).
Proof.
  intros Hstep Hret. revert s. induction l as [|a l IH]; intros s HP; [done|].
  simpl. apply returns_bind; eauto.
Qed.
End loops.

Lemma StronglySorted_filter {A} (R : relation A) (P : A -> Prop) `{!forall x, Decision (P x)} l :
  StronglySorted R l -> StronglySorted R (filter P l).
Proof.
  induction 1 as [|x l Hs IH Hall]; [constructor|]. rewrite filter_cons.
  case_decide; [|done]. constructor; [done|]. rewrite Forall_forall in *.
  intros y [_ Hy]%list_elem_of_filter. by apply Hall.
Qed.

Section positions.
Context {A : Type} `{EqDecision A}.

Lemma position_Some (x : A) l i : position x l = Some i -> l !! i = Some x.
Proof.
  unfold position. intros ([j y] & Hy & ->)%fmap_Some.
  apply list_find_Some in Hy as (Hl & -> & _). done.
Qed.
Lemma position_is_Some (x : A) l : x ∈ l -> exists i, position x l = Some i.
Proof.
  intros Hx. destruct (list_find_elem_of (eq x) l x Hx eq_refl) as [[i y] Hi].
  unfold position. rewrite Hi. by exists i.
Qed.
Lemma vec_pop_snoc (l : list A) x : vec_pop (l ++ [x]) = l.
Proof.
  unfold vec_pop. rewrite length_app, Nat.add_comm. simpl.
  by rewrite take_app_length.
Qed.
End positions.

Section graphs.
Context {A : Type} (R : relation A).

Lemma chain_app_snoc l x y :
  chain R (l ++ [x]) -> R x y -> chain R (l ++ [x; y]).
Proof.
  induction l as [|a l IH]; [done|]. intros Hc Hxy.
  destruct l as [|b l]; simpl in *; [naive_solver|].
  destruct Hc. split; [done|]. by apply IH.
Qed.
Lemma chain_snoc_last l x y :
  chain R l -> last l = Some x -> R x y -> chain R (l ++ [y]).
Proof.
  destruct l as [|z l' _] using rev_ind; [done|].
  rewrite last_snoc. intros Hc [= ->] HR. rewrite <- (assoc_L (++)). simpl.
  by apply chain_app_snoc.
Qed.
Lemma chain_drop n l : chain R l -> chain R (drop n l).
Proof.
  revert l. induction n as [|n IH]; intros l Hc; [done|].
  destruct l as [|a l]; [done|]. simpl. apply IH. by destruct l; [|destruct Hc].
Qed.
Lemma chain_tc x l y : chain R (x :: l ++ [y]) -> tc R x y.
Proof.
  revert x. induction l as [|z l IH]; intros x; simpl.
  { intros [??]. by apply tc_once. }
  intros [Hxz Hc]. eapply tc_l; [done|]. by apply IH.
Qed.
Lemma is_cycle_tc p : is_cycle R p -> exists x, tc R x x.
Proof. intros (x & mid & -> & Hc). exists x. by eapply chain_tc. Qed.
Lemma acyclic_no_cycle p : acyclic R -> ~ is_cycle R p.
Proof. intros Hac [x Hx]%is_cycle_tc. by apply (Hac x). Qed.

(** Closing the tail of a stack of nested visits gives a cycle. *)
Lemma chain_close l i x :
  chain R l -> l !! i = Some x -> (forall z, last l = Some z -> R z x) ->
  is_cycle R (drop i l ++ [x]).
Proof.
  intros Hc Hi Hlast. rewrite (drop_S _ _ _ Hi). exists x, (drop (S i) l).
  split; [done|]. rewrite <- (drop_S _ _ _ Hi).
  destruct (last l) as [z|] eqn:Hz.
  - apply (chain_snoc_last _ z); [by apply chain_drop| |by apply Hlast].
    apply lookup_lt_Some in Hi. rewrite last_lookup, lookup_drop, length_drop.
    rewrite last_lookup in Hz. rewrite <- Hz. f_equal. lia.
  - apply last_None in Hz. by subst.
Qed.

Lemma grounded_tc x : grounded R x -> ~ tc R x x.
Proof.
  induction 1 as [x _ IH]. intros Hx.
  assert (exists y, R x y /\ tc R y y) as (y & Hxy & Hyy).
  { inversion Hx as [|? y ? Hxy Hyx]; subst; [by exists x|].
    exists y. split; [done|]. by eapply tc_r. }
  by apply (IH y).
Qed.
Lemma grounded_acyclic : (forall x, grounded R x) -> acyclic R.
Proof. intros Hg x. by apply grounded_tc. Qed.
(** Only the sources of edges matter. *)
Lemma grounded_all_sources (P : A -> Prop) :
  (forall x, P x -> grounded R x) -> (forall x y, R x y -> P x) ->
  (forall x, P x \/ ~ P x) -> forall x, grounded R x.
Proof.
  intros Hg Hsrc Hdec x. destruct (Hdec x) as [Hx|Hx]; [by apply Hg|].
  constructor. intros y Hy. destruct Hx. by eapply Hsrc.
Qed.
End graphs.
Lemma acyclic_subrel {A} (R R' : relation A) :
  (forall x y, R x y -> R' x y) -> acyclic R' -> acyclic R.
Proof.
  intros Hs Hac x Hx. apply (Hac x).
  assert (Hm : forall a b, tc R a b -> tc R' a b).
  { intros a b. induction 1 as [a b Hab|a b c Hab _ IH]; [apply tc_once; auto|].
    eapply tc_l; eauto. }
  auto.
Qed.

(** ** Tactics

    [destruct_matches] splits the matches of the goal or of a hypothesis and
    closes impossible branches; [bind_inv] decomposes a successful bind. *)
Ltac bind_inv :=
  repeat match goal with
  | H : (_ ≫= _) = Ok _ |- _ => apply bind_Ok in H as (? & ? & ?)
  | H : ok_or _ _ = Ok _ |- _ => apply ok_or_Ok in H
  | H : (_ <$> _) = Ok _ |- _ => apply fmap_Ok in H as (? & ? & ->)
  end.
Ltac case_all :=
  repeat (case_match; simplify_eq/=; try done).

Create HintDb kernis discriminated.
#[export] Hint Resolve NoDup_set_iter NoDup_map_keys StronglySorted_set_iter : kernis.
#[export] Hint Resolve returns_ok_or : kernis.
#[export] Hint Extern 1 (returns _) => exact I : kernis.

(** ** Logs

    Maps that an operation extends once per appended fact. *)
Section logs.
Context {A : Type} (P : A -> Prop) `{!forall x, Decision (P x)}.

Lemma head_filter_snoc l x :
  head (filter P (l ++ [x])) =
  match head (filter P l) with
  | Some y => Some y
  | None => if decide (P x) then Some x else None
  end.
Proof.
  rewrite filter_app, filter_cons, filter_nil. destruct (filter P l); simpl; [|done].
  by case_decide.
Qed.
Lemma last_filter_snoc l x :
  last (filter P (l ++ [x])) = if decide (P x) then Some x else last (filter P l).
Proof.
  rewrite filter_app, filter_cons, filter_nil. case_decide; [apply last_snoc|].
  by rewrite app_nil_r.
Qed.
Lemma head_filter_None l : head (filter P l) = None <-> forall x, x ∈ l -> ~ P x.
Proof.
  split.
  - intros Hh x Hx HP. assert (x ∈ filter P l) as Hf by by apply list_elem_of_filter.
    destruct (filter P l); [by apply not_elem_of_nil in Hf|done].
  - intros Hn. destruct (filter P l) as [|y l'] eqn:E; [done|].
    assert (y ∈ filter P l) as [HP Hy]%list_elem_of_filter by (rewrite E; left).
    by destruct (Hn y).
Qed.
Lemma head_filter_Some l x : head (filter P l) = Some x -> x ∈ l /\ P x.
Proof.
  intros Hh. assert (x ∈ filter P l) as Hx by (by apply head_Some_elem_of).
  apply list_elem_of_filter in Hx. tauto.
Qed.
Lemma last_filter_Some l x : last (filter P l) = Some x -> x ∈ l /\ P x.
Proof.
  intros Hh. assert (x ∈ filter P l) as Hx by (by apply last_Some_elem_of).
  apply list_elem_of_filter in Hx. tauto.
Qed.
Lemma last_filter_None l : last (filter P l) = None <-> forall x, x ∈ l -> ~ P x.
Proof.
  rewrite last_None. rewrite <- head_filter_None. by destruct (filter P l).
Qed.
End logs.

(** Records listed under a key no two of them share are found by their key. *)
Lemma head_filter_key {A K} `{EqDecision K} (key : A -> K) (l : list A) (x : A) :
  NoDup (key <$> l) -> x ∈ l -> head (filter (fun y => key y = key x) l) = Some x.
Proof.
  induction l as [|y l IH]; intros Hnd Hx; [by apply not_elem_of_nil in Hx|].
  rewrite fmap_cons, NoDup_cons in Hnd. destruct Hnd as [Hy Hnd].
  rewrite filter_cons. apply elem_of_cons in Hx as [->|Hx].
  - by rewrite decide_True.
  - rewrite decide_False; [by apply IH|]. intros Heq. apply Hy. rewrite Heq.
    by apply list_elem_of_fmap_2.
Qed.

(** The computation succeeded. *)
Definition is_Ok {E A} (r : result E A) : Prop := exists a, r = Ok a.

(** An invariant of a transition system holds in every reachable state. *)
Lemma rtc_invariant {A} (R : relation A) (P : A -> Prop) x y :
  P x -> (forall a b, rtc R x a -> P a -> R a b -> P b) -> rtc R x y -> P y.
Proof.
  intros Hx Hstep Hy. revert y Hy. refine (rtc_ind_r P x Hx _). intros; by eapply Hstep.
Qed.

Lemma omap_fmap_Some {A B} (f : B -> option A) (g : A -> B) (l : list A) :
  (forall a, f (g a) = Some a) -> omap f (g <$> l) = l.
Proof. intros Hf. induction l as [|a l IH]; [done|]. cbn. rewrite Hf. by f_equal. Qed.
Lemma omap_fmap_None {A B C} (f : B -> option C) (g : A -> B) (l : list A) :
  (forall a, f (g a) = None) -> omap f (g <$> l) = [].
Proof. intros Hf. induction l as [|a l IH]; [done|]. cbn. by rewrite Hf. Qed.
Lemma NoDup_middle_fresh {A B} (key : A -> B) (l1 l2 : list A) x :
  NoDup (key <$> l1 ++ x :: l2) -> key x ∉ key <$> l1.
Proof.
  rewrite fmap_app, fmap_cons. intros (_ & Hd & _)%NoDup_app Hin.
  apply (Hd _ Hin). by left.
Qed.

(** The values of an indexed map, listed in key order. *)
Section values.
Context {K V B : Type} `{Countable K, Ord K} (m : gmap K V).

Lemma NoDup_map_values_by (key : V -> B) :
  (forall k k' v v', m !! k = Some v -> m !! k' = Some v' -> key v = key v' -> k = k') ->
  NoDup (key <$> map_values m).
Proof.
  intros Hinj. unfold map_values.
  assert (Hl : forall k v, (k, v) ∈ map_iter m -> m !! k = Some v)
    by (intros k v; apply elem_of_map_iter).
  assert (Hnd : NoDup (map_iter m).*1) by (rewrite map_iter_keys; apply NoDup_map_keys).
  induction (map_iter m) as [|[k v] l IH]; simpl; [by apply NoDup_nil_2|].
  simpl in Hnd. apply NoDup_cons in Hnd as [Hk Hnd]. apply NoDup_cons. split.
  - rewrite <- list_fmap_compose, list_elem_of_fmap. intros ([k' v'] & Heq & Hin). simpl in Heq.
    assert (k = k') as <-.
    { eapply Hinj; [apply Hl; left|apply Hl; right; exact Hin|done]. }
    apply Hk. apply list_elem_of_fmap. by exists (k, v').
  - apply IH; [|done]. intros k' v' Hin. apply Hl. by right.
Qed.
End values.

(** Where a cell of a concatenation lies. *)
Lemma app_cell {A} (a r l1 l2 : list A) x :
  a ++ r = l1 ++ x :: l2 ->
  (exists a2, a = l1 ++ x :: a2 /\ l2 = a2 ++ r) \/ (exists k, l1 = a ++ k /\ r = k ++ x :: l2).
Proof.
  intros [(k & -> & Hk)|(k & -> & ->)]%app_eq_inv; [|right; by exists k].
  destruct k as [|z k]; simpl in Hk.
  - right. exists []. by rewrite !app_nil_r.
  - injection Hk as <- ->. left. by exists k.
Qed.

(** ** Loops that collect keys *)
Section collecting.
Context {E A K V : Type} `{Countable K}.

(** A loop that checks each element and refuses a key it has seen. *)
Lemma foldM_seen (good : A -> Prop) (key : A -> option K) (f : gset K -> A -> result E (gset K)) l s :
  (forall s a s', f s a = Ok s' <-> good a /\ (forall k, key a = Some k -> k ∉ s) /\
     s' = match key a with Some k => {[k]} ∪ s | None => s end) ->
  is_Ok (foldM f l s) <->
  (forall a, a ∈ l -> good a) /\ NoDup (omap key l) /\ (forall k, k ∈ omap key l -> k ∉ s).
Proof.
  intros Hf. revert s. induction l as [|a l IH]; intros s; cbn [foldM].
  { split; [|by eexists]. intros _. split_and!; [by intros ? ?%elem_of_nil|constructor|].
    by intros ? ?%elem_of_nil. }
  assert (Hstep : is_Ok (f s a ≫= foldM f l) <->
    good a /\ (forall k, key a = Some k -> k ∉ s) /\
    is_Ok (foldM f l (match key a with Some k => {[k]} ∪ s | None => s end))).
  { split.
    - intros [s' (s1 & H1 & H2)%bind_Ok]. apply Hf in H1 as (? & ? & ->). split_and!; [done..|].
      by eexists.
    - intros (Hg & Hk & [s' Hs']). exists s'. apply bind_Ok. eexists. split; [|exact Hs'].
      by apply Hf. }
  rewrite Hstep, IH. cbn [omap list_omap]. destruct (key a) as [k|].
  - setoid_rewrite elem_of_cons. rewrite NoDup_cons. set_solver.
  - setoid_rewrite elem_of_cons. set_solver.
Qed.
End collecting.

Lemma foldM_each {E A} (f : A -> result E unit) l :
  is_Ok (foldM (fun _ a => f a) l tt) <-> forall a, a ∈ l -> is_Ok (f a).
Proof.
  induction l as [|a l IH]; cbn [foldM].
  { split; [by intros _ ? ?%elem_of_nil|by eexists]. }
  split.
  - intros [[] ([] & Ha & Hl)%bind_Ok] x [->|Hx]%elem_of_cons; [by eexists|].
    apply IH; [by eexists|done].
  - intros Hall. destruct (Hall a) as [[] Ha]; [left|].
    destruct (proj2 IH) as [[] Hl]; [intros x Hx; apply Hall; by right|].
    exists tt. apply bind_Ok. by exists tt.
Qed.
Lemma is_Ok_bind {E A B} (r : result E A) (f : A -> result E B) :
  is_Ok (r ≫= f) <-> exists a, r = Ok a /\ is_Ok (f a).
Proof.
  split.
  - intros [b (a & Ha & Hb)%bind_Ok]. exists a. split; [done|by eexists].
  - intros (a & Ha & b & Hb). exists b. apply bind_Ok. by exists a.
Qed.
Lemma is_Ok_then {E A B} (r : result E A) (r' : result E B) :
  is_Ok (_ ← r; r') <-> is_Ok r /\ is_Ok r'.
Proof. rewrite is_Ok_bind. split; [intros (a & ? & ?); split; [by exists a|done]|intros [[a ?] ?]; by exists a]. Qed.
Lemma is_Ok_ret {E A} (a : A) : is_Ok (Ok a : result E A).
Proof. by exists a. Qed.
Lemma is_Ok_unit {E} (r : result E unit) : is_Ok r <-> r = Ok tt.
Proof. split; [by intros [[] ?]|by exists tt]. Qed.
Lemma omap_Some_fmap {A B} (f : A -> B) (l : list A) : omap (fun x => Some (f x)) l = f <$> l.
Proof. induction l as [|x l IH]; [done|]. cbn. by rewrite IH. Qed.

(** *** Computations that return *)
Lemma foldM_Err {E A S} (f : S -> A -> result E S) l s e :
  foldM f l s = Err e -> exists s' a, f s' a = Err e.
Proof.
  revert s. induction l as [|a l IH]; intros s; [done|]. simpl.
  intros [Hf|(s' & _ & Hl)]%bind_Err; eauto.
Qed.
Lemma foldM_returns_all {E A S} (f : S -> A -> result E S) l s :
  (forall s a, returns (f s a)) -> returns (foldM f l s).
Proof. intros Hf. by apply (foldM_returns (fun _ => True)); [done|intros; apply Hf|]. Qed.
Lemma foldM_returns_in {E A S} (f : S -> A -> result E S) l s :
  (forall s a, a ∈ l -> returns (f s a)) -> returns (foldM f l s).
Proof.
  revert s. induction l as [|a l IH]; intros s Hf; [done|]. cbn [foldM].
  apply returns_bind; [apply Hf; left|]. intros s' _. apply IH. intros s2 b Hb. apply Hf. by right.
Qed.
Lemma returns_then {E A B} (r : result E A) (r' : result E B) :
  returns r -> returns r' -> returns (_ ← r; r').
Proof. intros Hr Hr'. by apply returns_bind. Qed.
Lemma returns_map_err {E F A} (h : E -> F) (r : result E A) : returns r -> returns (map_err h r).
Proof. by destruct r. Qed.

(** A listing in which whatever an element is related to comes before it. *)
Definition dependencies_first {A} (R : relation A) (l : list A) : Prop :=
  forall i x y, l !! i = Some x -> R x y -> exists j, j < i /\ l !! j = Some y.
Lemma dependencies_first_grounded {A} (R : relation A) l x :
  dependencies_first R l -> x ∈ l -> grounded R x.
Proof.
  intros Hf Hx. apply list_elem_of_lookup in Hx as [i Hi]. revert x Hi.
  induction (lt_wf i) as [i _ IH]. intros x Hi. constructor. intros y Hy.
  destruct (Hf i x y Hi Hy) as (j & Hj & Hjy). by apply (IH j).
Qed.

(** The first element of a set in its order is the least one. *)
Lemma head_set_iter {K} `{Countable K, Ord K} (X : gset K) x :
  head (set_iter X) = Some x -> x ∈ X /\ forall y, y ∈ X -> ord_le x y.
Proof.
  intros Hh. pose proof (StronglySorted_set_iter X) as Hs.
  assert (Hel : forall y, y ∈ set_iter X <-> y ∈ X) by apply elem_of_set_iter.
  destruct (set_iter X) as [|z l]; [done|]. injection Hh as ->.
  apply StronglySorted_inv in Hs as [_ Hall]. rewrite Forall_forall in Hall.
  split; [apply Hel; by left|]. intros y [->|Hy]%Hel%elem_of_cons; [done|by apply Hall].
Qed.
Lemma head_set_iter_None {K} `{Countable K, Ord K} (X : gset K) : head (set_iter X) = None <-> X = ∅.
Proof.
  rewrite head_None. split; [|intros ->; apply set_iter_empty].
  intros Hn. apply set_eq. intros x. rewrite <- elem_of_set_iter, Hn, elem_of_nil. set_solver.
Qed.

(** *** Loops that claim

    A loop that checks each element, refuses it when what was done for an
    earlier element stands against it, and records it. *)
Section claims.
Context {E A S : Type} (good : A -> Prop) (fresh : S -> A -> Prop) (distinct : relation A)
  (ins : S -> A -> S) (f : S -> A -> result E S).

Lemma foldM_claims l s s' :
  (forall s a s', f s a = Ok s' <-> good a /\ fresh s a /\ s' = ins s a) ->
  (forall s a b, fresh s a -> fresh (ins s a) b <-> fresh s b /\ distinct a b) ->
  foldM f l s = Ok s' <->
  (forall a, a ∈ l -> good a) /\ (forall a, a ∈ l -> fresh s a) /\ StronglySorted distinct l /\
  s' = foldl ins s l.
Proof.
  intros Hf Hfresh. revert s. induction l as [|a l IH]; intros s; cbn [foldM foldl].
  { split; [|by intros (_ & _ & _ & ->)]. intros [= ->].
    split_and!; [by intros ? ?%elem_of_nil..|constructor|done]. }
  rewrite bind_Ok. setoid_rewrite Hf. setoid_rewrite IH. split.
  - intros (s1 & (Hg & Hfr & ->) & Hgs & Hfs & Hss & ->). split_and!.
    + intros x [->|Hx]%elem_of_cons; auto.
    + intros x [->|Hx]%elem_of_cons; [done|]. by apply (Hfresh s a x), Hfs.
    + constructor; [done|]. apply Forall_forall. intros x Hx. by apply (Hfresh s a x), Hfs.
    + done.
  - intros (Hg & Hfr & Hss & ->). apply StronglySorted_inv in Hss as [Hss Hall].
    rewrite Forall_forall in Hall. assert (Ha : fresh s a) by (apply Hfr; left).
    exists (ins s a). split_and!; [apply Hg; left|done|done|intros x Hx; apply Hg; by right| |done|done].
    intros x Hx. apply Hfresh; [done|]. split; [apply Hfr; by right|by apply Hall].
Qed.
End claims.
Lemma StronglySorted_distinct {A K} (key : A -> K) (l : list A) :
  StronglySorted (fun a b => key a <> key b) l <-> NoDup (key <$> l).
Proof.
  induction l as [|a l IH]; cbn; [split; constructor|]. rewrite NoDup_cons, <- IH. split.
  - intros [Hs Hall]%StronglySorted_inv. split; [|done]. intros (b & Heq & Hb)%list_elem_of_fmap.
    rewrite Forall_forall in Hall. by apply (Hall b).
  - intros [Ha Hs]. constructor; [done|]. apply Forall_forall. intros b Hb Heq.
    apply Ha. rewrite Heq. by apply list_elem_of_fmap_2.
Qed.
Lemma StronglySorted_and {A} (R S : relation A) l :
  StronglySorted (fun a b => R a b /\ S a b) l <-> StronglySorted R l /\ StronglySorted S l.
Proof.
  induction l as [|a l IH]; [by repeat split; constructor|]. split.
  - intros [[H1 H2]%IH Hall]%StronglySorted_inv. rewrite Forall_and in Hall. destruct Hall.
    by split; constructor.
  - intros [[H1 Hr]%StronglySorted_inv [H2 Hs]%StronglySorted_inv]. constructor; [by apply IH|].
    by apply Forall_and.
Qed.
(** What a map holds after each element was recorded under its key. *)
Lemma foldl_insert_lookup {A K V} `{Countable K} (key : A -> K) (val : A -> V) l (m : gmap K V) k v :
  NoDup (key <$> l) -> (forall a, a ∈ l -> m !! key a = None) ->
  foldl (fun m a => <[key a := val a]> m) m l !! k = Some v <->
  m !! k = Some v \/ exists a, a ∈ l /\ key a = k /\ v = val a.
Proof.
  revert m. induction l as [|a l IH]; intros m Hnd Hnew; cbn [foldl].
  { split; [by left|]. intros [?|(a & Ha & _)]; [done|]. by apply elem_of_nil in Ha. }
  cbn in Hnd. apply NoDup_cons in Hnd as [Ha Hnd]. rewrite IH; [|done|].
  - setoid_rewrite elem_of_cons. rewrite lookup_insert_Some. specialize (Hnew a ltac:(left)).
    destruct (decide (key a = k)) as [<-|Hne]; [|naive_solver]. rewrite Hnew. split.
    + intros [[[_ <-]|[? _]]|(b & Hb & Heq & ->)]; [right; exists a; tauto|done|right; exists b; tauto].
    + intros [?|(b & [->|Hb] & Heq & ->)]; [done|by left; left|right; by exists b].
  - intros b Hb. rewrite lookup_insert_ne; [apply Hnew; by right|]. intros Heq. apply Ha.
    rewrite Heq. by apply list_elem_of_fmap_2.
Qed.
(** The loop of [foldM_claims] over a map. *)
Lemma foldM_unique {E A K V} `{Countable K} (key : A -> K) (val : A -> V)
  (f : gmap K V -> A -> result E (gmap K V)) l m' :
  (forall m a m', f m a = Ok m' <-> True /\ m !! key a = None /\ m' = <[key a := val a]> m) ->
  foldM f l ∅ = Ok m' -> NoDup (key <$> l) /\
    forall k v, m' !! k = Some v <-> exists a, a ∈ l /\ key a = k /\ v = val a.
Proof.
  intros Hf Hm. eapply (foldM_claims (fun _ => True) (fun m a => m !! key a = None)
    (fun a b => key a <> key b) (fun m a => <[key a := val a]> m)) in Hm; [|apply Hf|].
  - destruct Hm as (_ & Hnew & Hss & ->). apply StronglySorted_distinct in Hss. split; [done|].
    intros k v. rewrite (foldl_insert_lookup key val) by done. rewrite lookup_empty. naive_solver.
  - intros m a b Ha. by rewrite lookup_insert_None.
Qed.
Lemma foldM_unique_Ok {E A K V} `{Countable K} (key : A -> K) (val : A -> V)
  (f : gmap K V -> A -> result E (gmap K V)) l :
  (forall m a m', f m a = Ok m' <-> True /\ m !! key a = None /\ m' = <[key a := val a]> m) ->
  NoDup (key <$> l) -> is_Ok (foldM f l ∅).
Proof.
  intros Hf Hnd. eexists. eapply (foldM_claims (fun _ => True) (fun m a => m !! key a = None)
    (fun a b => key a <> key b) (fun m a => <[key a := val a]> m)); [apply Hf| |].
  - intros m a b Ha. by rewrite lookup_insert_None.
  - split_and!; [done|intros; apply lookup_empty|by apply StronglySorted_distinct|done].
Qed.
(** A nested loop is a loop over the pairs. *)
Lemma foldM_bind {E A B L S} (g : L -> S -> B -> result E S) (label : A -> L) (h : A -> list B) l s :
  foldM (fun s x => foldM (g (label x)) (h x) s) l s =
  foldM (fun s p => g p.1 s p.2) (l ≫= fun x => pair (label x) <$> h x) s.
Proof.
  revert s. induction l as [|x l IH]; intros s; [done|]. rewrite bind_cons, foldM_app. cbn [foldM].
  assert (Hin : foldM (fun s p => g p.1 s p.2) (pair (label x) <$> h x) s = foldM (g (label x)) (h x) s).
  { revert s. induction (h x) as [|b l' IH']; intros s; [done|]. cbn. destruct (g (label x) s b); cbn; auto. }
  rewrite Hin. destruct (foldM (g (label x)) (h x) s); cbn; auto.
Qed.
(** A computation that returns either succeeds and meets what its success is
    equivalent to, or fails and violates it. *)
Lemma returned_cases {E A} (x : result E A) (P : Prop) :
  returns x -> (is_Ok x <-> P) -> (exists a, x = Ok a /\ P) \/ (exists e, x = Err e /\ ~ P).
Proof.
  intros Hr HP. destruct x as [a|e| |]; try done.
  - left. exists a. split; [done|]. apply HP. by exists a.
  - right. exists e. split; [done|]. by intros [? ?]%HP.
Qed.
(** Turning a closed walk. *)
Lemma chain_split {A} (R : relation A) l1 x l2 :
  chain R (l1 ++ x :: l2) <-> chain R (l1 ++ [x]) /\ chain R (x :: l2).
Proof.
  induction l1 as [|a l1 IH]; [cbn; tauto|].
  destruct l1 as [|b l1]; cbn in *; tauto.
Qed.
Lemma is_cycle_rotate {A} (R : relation A) (l1 l2 : list A) x y :
  chain R (x :: l1 ++ y :: l2 ++ [x]) -> chain R (y :: l2 ++ x :: l1 ++ [y]).
Proof.
  intros Hc. apply (chain_split R (x :: l1) y (l2 ++ [x])) in Hc as [H1 H2].
  by apply (chain_split R (y :: l2) x (l1 ++ [y])).
Qed.
(** An element is told by its key when no key occurs twice. *)
Lemma NoDup_key {A K} (key : A -> K) (l : list A) x y :
  NoDup (key <$> l) -> x ∈ l -> y ∈ l -> key x = key y -> x = y.
Proof.
  intros Hnd [i Hi]%list_elem_of_lookup [j Hj]%list_elem_of_lookup Heq.
  assert (i = j) as ->; [|congruence].
  eapply (NoDup_lookup (key <$> l) i j (key x) Hnd); rewrite list_lookup_fmap; [by rewrite Hi|by rewrite Hj, Heq].
Qed.
