(* ===== verification/KernisCore.v ===== *)
(** * Neutral primitives: [crates/core/src/lib.rs]

    Identifiers and revisions.  An [Id] is represented by its text, the UTF-8
    bytes of the Rust [String]; the smart constructor [Id_new] and the
    deserializer [Id_deserialize] are the only ways the code makes one, and
    [valid_id] is what they guarantee.  The newtypes over [Id] in the other
    crates ([OperationId], [AttemptId], [RunId]) are represented by the same
    text, with the same derived order. *)
From S2P Require Export Prelude.
#[local] Open Scope string_scope.

(** ** [str::trim] and blank strings

    [char::is_whitespace] is the Unicode [White_Space] property; a string is
    blank when it is a sequence of the UTF-8 encodings of such characters. *)
Definition ws1 (a : N) : bool := ((9 <=? a) && (a <=? 13) || (a =? 32))%N.
Definition ws2 (a b : N) : bool := ((a =? 194) && ((b =? 133) || (b =? 160)))%N.
Definition ws3 (a b c : N) : bool :=
  ((a =? 225) && (b =? 154) && (c =? 128)
   || (a =? 226) && (b =? 128)
      && ((128 <=? c) && (c <=? 138) || (c =? 168) || (c =? 169) || (c =? 175))
   || (a =? 226) && (b =? 129) && (c =? 159)
   || (a =? 227) && (b =? 128) && (c =? 128))%N.

Fixpoint trim_is_empty (s : string) : bool :=
  match s with
  | EmptyString => true
  | String a s1 =>
      let a := Ascii.N_of_ascii a in
      if ws1 a then trim_is_empty s1 else
      match s1 with
      | EmptyString => false
      | String b s2 =>
          let b := Ascii.N_of_ascii b in
          if ws2 a b then trim_is_empty s2 else
          match s2 with
          | EmptyString => false
          | String c s3 =>
              if ws3 a b (Ascii.N_of_ascii c) then trim_is_empty s3 else false
          end
      end
  end.

(** ** Identifiers *)
Definition Id : Set := string.
Inductive InvalidId := InvalidId_.
#[export] Instance InvalidId_eq_dec : EqDecision InvalidId.
Proof. solve_decision. Defined.

Definition InvalidId_display (_ : InvalidId) : string := "identifier must not be empty".

Definition Id_new (value : string) : result InvalidId Id :=
  if trim_is_empty value then Err InvalidId_ else Ok value.
Definition Id_as_str (id : Id) : string := id.
Definition Id_display (id : Id) : string := id.

(** [Deserialize for Id]: [input] is the outcome of [String::deserialize] and
    [custom] is [serde::de::Error::custom] of the format's error type. *)
Definition Id_deserialize {DE} (custom : string -> DE) (input : result DE string) :
  result DE Id :=
  value ← input;
  map_err (fun e => custom (InvalidId_display e)) (Id_new value).

Definition valid_id (id : Id) : Prop := trim_is_empty id = false.

(** ** Revisions *)
Definition Revision : Set := N.
Definition Revision_ZERO : Revision := 0%N.
Definition Revision_MAX : Revision := u64_max.
Definition Revision_get (r : Revision) : N := r.
Definition Revision_checked_next (r : Revision) : option Revision := checked_succ r.
Definition Revision_next (r : Revision) : result Empty_set Revision :=
  expect (Revision_checked_next r) "revision overflow".

(** ** Lemmas *)

Lemma checked_succ_Some n m : checked_succ n = Some m <-> (n < u64_max)%N /\ m = (n + 1)%N.
Proof. unfold checked_succ. destruct (N.ltb_spec n u64_max); naive_solver lia. Qed.
Lemma checked_succ_None n : u64_ok n -> checked_succ n = None <-> n = u64_max.
Proof.
  unfold u64_ok, checked_succ. destruct (N.ltb_spec n u64_max); split; intros; try done; lia.
Qed.
Lemma checked_succ_u64 n m : checked_succ n = Some m -> u64_ok m.
Proof. intros [? ->]%checked_succ_Some. unfold u64_ok. lia. Qed.
Lemma Id_new_Ok value id : Id_new value = Ok id <-> id = value /\ valid_id value.
Proof. unfold Id_new, valid_id. destruct (trim_is_empty value); naive_solver. Qed.
#[export] Hint Resolve checked_succ_u64 : kernis.

(** An identifier that crosses the deserialization boundary is the text
    that was read and is not blank; a blank text is refused with the custom
    error, an error of the format is passed on unchanged, and every identifier
    made by [Id::new] reads back from its own text. *)
Theorem Id_deserialize_boundary {DE} (custom : string -> DE) (input : result DE string) :
  (forall id, Id_deserialize custom input = Ok id <->
     input = Ok (Id_as_str id) /\ valid_id id) /\
  (forall value, input = Ok value -> trim_is_empty value = true ->
     Id_deserialize custom input = Err (custom "identifier must not be empty")) /\
  (forall e, input = Err e -> Id_deserialize custom input = Err e) /\
  (forall value id, Id_new value = Ok id ->
     Id_deserialize custom (Ok (Id_display id)) = Ok id).
Proof.
  unfold Id_deserialize, Id_as_str, Id_display, valid_id. repeat split.
  - unfold mbind in *. destruct input as [v| | |]; simpl in *; try done.
    unfold Id_new in *. destruct (trim_is_empty v) eqn:E; simpl in *; naive_solver.
  - destruct input as [v| | |]; simpl in *; try done.
    unfold Id_new in *. destruct (trim_is_empty v) eqn:E; simpl in *; naive_solver.
  - intros [-> Hv]. simpl. unfold Id_new. by rewrite Hv.
  - intros value -> Hb. simpl. unfold Id_new. by rewrite Hb.
  - by intros e ->.
  - intros value id [-> Hv]%Id_new_Ok. simpl. unfold Id_new. by rewrite Hv.
Qed.

(** Revisions advance by exactly one and never wrap: at every
    representable revision below the largest, [checked_next] and [next] give
    the strictly larger successor, which is representable; at [Revision::MAX]
    the first is [None] and the second panics. *)
Theorem Revision_next_monotonic (r : Revision) (Hr : u64_ok r) :
  (r = Revision_MAX /\ Revision_checked_next r = None /\
     Revision_next r = Panic "revision overflow") \/
  exists n, Revision_checked_next r = Some n /\ Revision_next r = Ok n /\
     (r < n)%N /\ Revision_get n = (Revision_get r + 1)%N /\ u64_ok n.
Proof.
  unfold Revision_next, Revision_checked_next, Revision_get.
  destruct (checked_succ r) as [n|] eqn:E.
  - right. exists n. pose proof (checked_succ_u64 _ _ E).
    apply checked_succ_Some in E as [? ->]. simpl. repeat split; try done; lia.
  - left. apply checked_succ_None in E; [|done]. by subst.
Qed.

Lemma Revision_next_monotonic_witness :
  Revision_next Revision_ZERO = Ok 1%N /\
  ((Revision_MAX = Revision_MAX /\ Revision_checked_next Revision_MAX = None /\
     Revision_next Revision_MAX = Panic "revision overflow") \/
   exists n, Revision_checked_next Revision_MAX = Some n /\ Revision_next Revision_MAX = Ok n /\
     (Revision_MAX < n)%N /\ Revision_get n = (Revision_get Revision_MAX + 1)%N /\ u64_ok n).
Proof.
  split; [reflexivity|]. apply (Revision_next_monotonic Revision_MAX).
  unfold u64_ok, Revision_MAX. lia.
Defined.

Example trim_unicode :
  trim_is_empty (" " +:+ String (Ascii.ascii_of_N 194) (String (Ascii.ascii_of_N 160) "")) = true
  /\ trim_is_empty " a" = false.
Proof. split; reflexivity. Qed.
