(* ===== verification/ExecutionStream.v ===== *)
(** * Execution streams: [crates/execution-stream/src/lib.rs]

    Producer-side sequencer, consumer-side tracker and the three bounded
    buffers.  A [VecDeque] is a list whose head is its front; a [usize]
    capacity is a [nat].  [VecDeque::with_capacity] only reserves memory and
    has no counterpart here. *)
From S2P Require Export KernisCore.
#[local] Open Scope string_scope.
#[local] Open Scope nat_scope.
#[local] Open Scope list_scope.

(** ** Sequences *)
Definition Sequence : Set := N.
Definition Sequence_FIRST : Sequence := 1%N.
Definition Sequence_MAX : Sequence := u64_max.
Definition Sequence_get (s : Sequence) : N := s.
Definition Sequence_checked_next (s : Sequence) : option Sequence := checked_succ s.
Definition Sequence_next (s : Sequence) : result Empty_set Sequence :=
  expect (Sequence_checked_next s) "sequence overflow".

Record StreamItem (T : Type) := { stream_id : Id; sequence : Sequence; payload : T }.
Arguments stream_id {T} _.
Arguments sequence {T} _.
Arguments payload {T} _.
Arguments Build_StreamItem {T} _ _ _.

Definition StreamItem_map {T U} (f : T -> U) (item : StreamItem T) : StreamItem U :=
  {| stream_id := stream_id item; sequence := sequence item; payload := f (payload item) |}.

(** ** Sequencer *)
Inductive SequenceError := SE_Exhausted (sid : Id) (s : Sequence).

Record StreamSequencer := {
  sq_stream_id : Id;
  sq_next_sequence : Sequence;
  sq_exhausted : bool
}.

Definition StreamSequencer_new (sid : Id) : StreamSequencer :=
  {| sq_stream_id := sid; sq_next_sequence := Sequence_FIRST; sq_exhausted := false |}.

Definition emit {T} (q : StreamSequencer) (p : T) :
  StreamSequencer * result SequenceError (StreamItem T) :=
  if sq_exhausted q then (q, Err (SE_Exhausted (sq_stream_id q) Sequence_MAX))
  else
    let s := sq_next_sequence q in
    let q' :=
      match Sequence_checked_next s with
      | Some next =>
          {| sq_stream_id := sq_stream_id q; sq_next_sequence := next;
             sq_exhausted := sq_exhausted q |}
      | None =>
          {| sq_stream_id := sq_stream_id q; sq_next_sequence := sq_next_sequence q;
             sq_exhausted := true |}
      end in
    (q', Ok {| stream_id := sq_stream_id q; sequence := s; payload := p |}).

(** ** Tracker *)
Inductive SequenceObservation :=
  | First (actual : Sequence)
  | InOrder (actual : Sequence)
  | Gap (expected actual : Sequence)
  | DuplicateOrReordered (last actual : Sequence).

Inductive StreamError := StreamMismatch (expected actual : Id).

Record SequenceTracker := { tr_stream_id : Id; tr_last : option Sequence }.

Definition SequenceTracker_new (sid : Id) : SequenceTracker :=
  {| tr_stream_id := sid; tr_last := None |}.

Definition observe {T} (t : SequenceTracker) (item : StreamItem T) :
  SequenceTracker * result StreamError SequenceObservation :=
  if bool_decide (stream_id item ≠ tr_stream_id t)
  then (t, Err (StreamMismatch (tr_stream_id t) (stream_id item)))
  else
    let s := sequence item in
    let observation :=
      match tr_last t with
      | None => if (s =? Sequence_FIRST)%N then First s else Gap Sequence_FIRST s
      | Some l =>
          match Sequence_checked_next l with
          | Some expected =>
              if (s =? expected)%N then InOrder s
              else if (expected <? s)%N then Gap expected s
              else DuplicateOrReordered l s
          | None => DuplicateOrReordered l s
          end
      end in
    let newer := match tr_last t with None => true | Some l => (l <? s)%N end in
    let t' := if newer then {| tr_stream_id := tr_stream_id t; tr_last := Some s |} else t in
    (t', Ok observation).

(** ** Bounded buffers *)
Inductive BufferError := ZeroCapacity.
Inductive PushError (I : Type) := Backpressure (item : I).
Arguments Backpressure {I} item.

Record LosslessBuffer (T : Type) := { ll_capacity : nat; ll_items : list (StreamItem T) }.
Arguments ll_capacity {T} _.
Arguments ll_items {T} _.
Arguments Build_LosslessBuffer {T} _ _.

Definition LosslessBuffer_new {T} (capacity : nat) : result BufferError (LosslessBuffer T) :=
  if (capacity =? 0)%nat then Err ZeroCapacity
  else Ok {| ll_capacity := capacity; ll_items := [] |}.

Definition lossless_try_push {T} (b : LosslessBuffer T) (item : StreamItem T) :
  LosslessBuffer T * result (PushError (StreamItem T)) unit :=
  if (length (ll_items b) =? ll_capacity b)%nat then (b, Err (Backpressure item))
  else ({| ll_capacity := ll_capacity b; ll_items := ll_items b ++ [item] |}, Ok tt).

Definition lossless_pop {T} (b : LosslessBuffer T) :
  LosslessBuffer T * option (StreamItem T) :=
  match ll_items b with
  | [] => (b, None)
  | x :: rest => ({| ll_capacity := ll_capacity b; ll_items := rest |}, Some x)
  end.

Record KeyedStreamItem (K T : Type) := { ks_key : K; ks_item : StreamItem T }.
Arguments ks_key {K T} _.
Arguments ks_item {K T} _.
Arguments Build_KeyedStreamItem {K T} _ _.

Record CoalescingBuffer (K T : Type) := {
  cb_capacity : nat;
  cb_items : list (KeyedStreamItem K T)
}.
Arguments cb_capacity {K T} _.
Arguments cb_items {K T} _.
Arguments Build_CoalescingBuffer {K T} _ _.

Definition CoalescingBuffer_new {K T} (capacity : nat) :
  result BufferError (CoalescingBuffer K T) :=
  if (capacity =? 0)%nat then Err ZeroCapacity
  else Ok {| cb_capacity := capacity; cb_items := [] |}.

(** The semantic identity used to select a coalescing target. *)
Definition identity {K T} (x : KeyedStreamItem K T) : K * Id :=
  (ks_key x, stream_id (ks_item x)).

Definition coalescing_try_push {K T} `{EqDecision K} (b : CoalescingBuffer K T)
  (item : KeyedStreamItem K T) :
  CoalescingBuffer K T * result (PushError (KeyedStreamItem K T)) unit :=
  match list_find (fun existing => identity existing = identity item) (cb_items b) with
  | Some (index, _) =>
      ({| cb_capacity := cb_capacity b;
          cb_items := delete index (cb_items b) ++ [item] |}, Ok tt)
  | None =>
      if (length (cb_items b) =? cb_capacity b)%nat then (b, Err (Backpressure item))
      else ({| cb_capacity := cb_capacity b; cb_items := cb_items b ++ [item] |}, Ok tt)
  end.

Definition coalescing_pop {K T} (b : CoalescingBuffer K T) :
  CoalescingBuffer K T * option (KeyedStreamItem K T) :=
  match cb_items b with
  | [] => (b, None)
  | x :: rest => ({| cb_capacity := cb_capacity b; cb_items := rest |}, Some x)
  end.

Record LossyBuffer (T : Type) := { ly_capacity : nat; ly_items : list (StreamItem T) }.
Arguments ly_capacity {T} _.
Arguments ly_items {T} _.
Arguments Build_LossyBuffer {T} _ _.

Definition LossyBuffer_new {T} (capacity : nat) : result BufferError (LossyBuffer T) :=
  if (capacity =? 0)%nat then Err ZeroCapacity
  else Ok {| ly_capacity := capacity; ly_items := [] |}.

Definition lossy_push {T} (b : LossyBuffer T) (item : StreamItem T) :
  LossyBuffer T * option (StreamItem T) :=
  if (length (ly_items b) =? ly_capacity b)%nat then
    match ly_items b with
    | [] => ({| ly_capacity := ly_capacity b; ly_items := [item] |}, None)
    | x :: rest => ({| ly_capacity := ly_capacity b; ly_items := rest ++ [item] |}, Some x)
    end
  else ({| ly_capacity := ly_capacity b; ly_items := ly_items b ++ [item] |}, None).

Definition lossy_pop {T} (b : LossyBuffer T) : LossyBuffer T * option (StreamItem T) :=
  match ly_items b with
  | [] => (b, None)
  | x :: rest => ({| ly_capacity := ly_capacity b; ly_items := rest |}, Some x)
  end.

(** ** Traces

    A client's use of a buffer is a list of pushes and pops.  The trace
    collects what was accepted, what was dropped and what was popped. *)
Inductive buffer_op (I : Type) := Push (item : I) | Pop.
Arguments Push {I} item.
Arguments Pop {I}.

Record trace (B I : Type) := { t_buf : B; t_accepted : list I; t_dropped : list I;
                               t_popped : list I }.
Arguments t_buf {B I} _.
Arguments t_accepted {B I} _.
Arguments t_dropped {B I} _.
Arguments t_popped {B I} _.
Arguments Build_trace {B I} _ _ _ _.
Definition trace_start {B I} (b : B) : trace B I :=
  {| t_buf := b; t_accepted := []; t_dropped := []; t_popped := [] |}.

Definition lossless_step {T} (t : trace (LosslessBuffer T) (StreamItem T))
  (o : buffer_op (StreamItem T)) : trace (LosslessBuffer T) (StreamItem T) :=
  match o with
  | Push i =>
      let '(b, r) := lossless_try_push (t_buf t) i in
      {| t_buf := b;
         t_accepted := t_accepted t ++ (match r with Ok _ => [i] | _ => [] end);
         t_dropped := t_dropped t; t_popped := t_popped t |}
  | Pop =>
      let '(b, r) := lossless_pop (t_buf t) in
      {| t_buf := b; t_accepted := t_accepted t; t_dropped := t_dropped t;
         t_popped := t_popped t ++ option_list r |}
  end.

Definition lossy_step {T} (t : trace (LossyBuffer T) (StreamItem T))
  (o : buffer_op (StreamItem T)) : trace (LossyBuffer T) (StreamItem T) :=
  match o with
  | Push i =>
      let '(b, r) := lossy_push (t_buf t) i in
      {| t_buf := b; t_accepted := t_accepted t ++ [i];
         t_dropped := t_dropped t ++ option_list r; t_popped := t_popped t |}
  | Pop =>
      let '(b, r) := lossy_pop (t_buf t) in
      {| t_buf := b; t_accepted := t_accepted t; t_dropped := t_dropped t;
         t_popped := t_popped t ++ option_list r |}
  end.

(** Emitting payloads one after the other, and observing items one after the other. *)
Fixpoint emit_all {T} (q : StreamSequencer) (ps : list T) : list (StreamItem T) :=
  match ps with
  | [] => []
  | p :: ps =>
      let '(q', r) := emit q p in
      match r with Ok i => i :: emit_all q' ps | _ => [] end
  end.
Fixpoint observe_all {T} (t : SequenceTracker) (l : list (StreamItem T)) :
  list (result StreamError SequenceObservation) :=
  match l with
  | [] => []
  | i :: l => let '(t', r) := observe t i in r :: observe_all t' l
  end.

(** The sequencer after [k] emissions. *)
Definition sequencer_at (sid : Id) (k : N) : StreamSequencer :=
  {| sq_stream_id := sid;
     sq_next_sequence := (if k <? u64_max then k + 1 else u64_max)%N;
     sq_exhausted := negb (k <? u64_max)%N |}.
Definition item_at {T} (sid : Id) (k : N) (p : T) : StreamItem T :=
  {| stream_id := sid; sequence := (k + 1)%N; payload := p |}.

(** What a consumer that has seen everything up to [last] expects next. *)
Definition expected_next (last : option Sequence) : N :=
  match last with None => Sequence_FIRST | Some l => (l + 1)%N end.

(** Items [k+1], [k+2], ... of stream [sid], with the given payloads. *)
Fixpoint items_from {T} (sid : Id) (k : N) (ps : list T) : list (StreamItem T) :=
  match ps with
  | [] => []
  | p :: ps => item_at sid k p :: items_from sid (k + 1) ps
  end.

(** The sequencer refines a counter: it starts having emitted nothing;
    after [k] emissions it stamps the next payload with sequence [k+1] and its
    own stream id, for every [k] below [u64::MAX]; after the [u64::MAX]-th
    emission every further call is refused with [Exhausted] at
    [Sequence::MAX] and leaves the sequencer unchanged (no wrap-around). *)
Theorem sequencer_refines_counter {T} (sid : Id) (k : N) (p : T) :
  StreamSequencer_new sid = sequencer_at sid 0 /\
  ((k < u64_max)%N ->
     emit (sequencer_at sid k) p = (sequencer_at sid (k + 1), Ok (item_at sid k p)) /\
     u64_ok (sequence (item_at sid k p))) /\
  emit (sequencer_at sid u64_max) p =
    (sequencer_at sid u64_max, Err (SE_Exhausted sid Sequence_MAX)).
Proof.
  split; [reflexivity|]. split; [|reflexivity].
  intros Hk. split; [|unfold u64_ok; simpl; lia].
  unfold emit, sequencer_at. simpl. replace (k <? u64_max)%N with true by lia. simpl.
  unfold Sequence_checked_next, checked_succ, item_at.
  destruct (N.ltb_spec (k + 1) u64_max) as [Hlt|Hge]; simpl; [done|].
  by replace (k + 1)%N with u64_max by lia.
Qed.

Lemma sequencer_refines_counter_witness :
  (0 < u64_max)%N /\
  emit (sequencer_at "out" 0) true = (sequencer_at "out" (0 + 1), Ok (item_at "out" 0 true)).
Proof.
  split; [done|]. destruct (sequencer_refines_counter "out" 0 true) as (_ & H & _).
  by apply H.
Defined.

Lemma emit_all_items {T} sid k (ps : list T) :
  (k + N.of_nat (length ps) <= u64_max)%N ->
  emit_all (sequencer_at sid k) ps = items_from sid k ps.
Proof.
  revert k. induction ps as [|p ps IH]; intros k Hk; [done|].
  cbn [length] in Hk. rewrite Nat2N.inj_succ in Hk. cbn [emit_all items_from].
  assert (emit (sequencer_at sid k) p = (sequencer_at sid (k + 1), Ok (item_at sid k p))) as ->.
  { unfold emit, sequencer_at. simpl. replace (k <? u64_max)%N with true by lia. simpl.
    unfold Sequence_checked_next, checked_succ, item_at.
    destruct (N.ltb_spec (k + 1) u64_max) as [Hlt|Hge]; simpl; [done|].
    by replace (k + 1)%N with u64_max by lia. }
  f_equal. apply IH. lia.
Qed.

(** [observe] classifies an item of its stream exactly by comparing the
    sequence with the one expected next (in order, a gap that reports the
    expected and the actual sequence, or a duplicate that reports the newest
    one seen), moves to the newest sequence seen and never back; an item of
    another stream is an error that changes nothing. *)
Theorem observe_classifies {T} (t : SequenceTracker) (i : StreamItem T)
  (Hi : (1 <= sequence i)%N /\ u64_ok (sequence i)) :
  (stream_id i ≠ tr_stream_id t ->
     observe t i = (t, Err (StreamMismatch (tr_stream_id t) (stream_id i)))) /\
  (stream_id i = tr_stream_id t ->
     let e := expected_next (tr_last t) in
     let t' := {| tr_stream_id := tr_stream_id t;
                  tr_last := Some (N.max (default 0%N (tr_last t)) (sequence i)) |} in
     observe t i = (t', Ok
       (if (sequence i =? e)%N
        then match tr_last t with None => First (sequence i) | _ => InOrder (sequence i) end
        else if (e <? sequence i)%N then Gap e (sequence i)
        else DuplicateOrReordered (default 0%N (tr_last t)) (sequence i)))).
Proof.
  destruct Hi as [H1 Hmax]. unfold u64_ok in Hmax. unfold observe. split; intros Hid.
  { by rewrite bool_decide_true. }
  rewrite bool_decide_false by naive_solver. unfold expected_next.
  destruct (tr_last t) as [l|] eqn:Hl; simpl.
  - unfold Sequence_checked_next, checked_succ.
    destruct (N.ltb_spec l u64_max); destruct (N.ltb_spec l (sequence i)); try lia.
    + f_equal; f_equal. f_equal. lia.
    + f_equal. destruct t; simpl in *. subst. do 2 f_equal. lia.
    + replace (sequence i =? l + 1)%N with false by lia.
      replace (l + 1 <? sequence i)%N with false by lia.
      f_equal. destruct t; simpl in *. subst. do 2 f_equal. lia.
  - unfold Sequence_FIRST. destruct (N.eqb_spec (sequence i) 1) as [Heq|Hne].
    + do 3 f_equal. lia.
    + replace (1 <? sequence i)%N with true by lia. do 3 f_equal. lia.
Qed.

Lemma observe_classifies_witness :
  let i := item_at "out" 4 tt in
  observe {| tr_stream_id := "out"; tr_last := Some 2%N |} i =
    ({| tr_stream_id := "out"; tr_last := Some 5%N |}, Ok (Gap 3%N 5%N)).
Proof.
  intros i. subst i. destruct (observe_classifies {| tr_stream_id := "out"; tr_last := Some 2%N |} (item_at "out" 4 tt))
    as [_ H]; [split; unfold u64_ok, u64_max; simpl; lia|].
  by apply H.
Defined.

(** Runs of [items_from] are observed in order. *)
Lemma observe_items_from {T} sid k (ps : list T) t :
  tr_stream_id t = sid -> tr_last t = Some k ->
  (k + N.of_nat (length ps) <= u64_max)%N ->
  observe_all t (items_from sid k ps) =
    (fun i => Ok (InOrder (sequence i))) <$> items_from sid k ps.
Proof.
  revert k t. induction ps as [|p ps IH]; intros k t Hid Hl Hk; [done|].
  cbn [length] in Hk. rewrite Nat2N.inj_succ in Hk. cbn [observe_all items_from fmap list_fmap].
  unfold observe at 1. simpl. rewrite bool_decide_false by naive_solver. rewrite Hl.
  unfold Sequence_checked_next, checked_succ.
  replace (k <? u64_max)%N with true by lia. rewrite N.eqb_refl.
  replace (k <? k + 1)%N with true by lia. f_equal. apply IH; simpl; [done|done|lia].
Qed.

(** *** Lossless FIFO *)

Definition lossless_inv {T} (t : trace (LosslessBuffer T) (StreamItem T)) : Prop :=
  t_accepted t = t_popped t ++ ll_items (t_buf t) /\
  length (ll_items (t_buf t)) <= ll_capacity (t_buf t).

Lemma lossless_step_inv {T} (t : trace (LosslessBuffer T) (StreamItem T)) o :
  lossless_inv t ->
  lossless_inv (lossless_step t o) /\
  ll_capacity (t_buf (lossless_step t o)) = ll_capacity (t_buf t).
Proof.
  intros [Ha Hlen]. destruct o as [i|]; simpl.
  - unfold lossless_try_push. destruct (Nat.eqb_spec (length (ll_items (t_buf t))) (ll_capacity (t_buf t))).
    + split; [|done]. split; simpl; [by rewrite app_nil_r|lia].
    + split; [|done]. split; simpl; [by rewrite Ha, <- app_assoc|].
      rewrite length_app. simpl. lia.
  - unfold lossless_pop. destruct (ll_items (t_buf t)) as [|x l] eqn:E; simpl.
    + split; [|done]. split; simpl in *; rewrite ?E; simpl; [by rewrite Ha, !app_nil_r|lia].
    + split; [|done]. split; simpl in *; [|lia]. by rewrite Ha, <- app_assoc.
Qed.

Lemma lossless_run_inv {T} ops (t : trace (LosslessBuffer T) (StreamItem T)) :
  lossless_inv t ->
  lossless_inv (foldl lossless_step t ops) /\
  ll_capacity (t_buf (foldl lossless_step t ops)) = ll_capacity (t_buf t).
Proof.
  revert t. induction ops as [|o ops IH]; intros t Hinv; [done|]. simpl.
  destruct (lossless_step_inv t o Hinv) as [Hinv' Hcap].
  destruct (IH _ Hinv') as [? Hc]. split; [done|congruence].
Qed.

(** The lossless buffer never drops, reorders or invents an item: whatever
    the client pushes and pops, the items popped so far followed by the
    pending ones are exactly the accepted ones in acceptance order, and no
    more than [capacity] are pending. *)
Theorem lossless_buffer_fifo {T} (capacity : nat) (b : LosslessBuffer T)
  (Hnew : LosslessBuffer_new capacity = Ok b) (ops : list (buffer_op (StreamItem T))) :
  let t := foldl lossless_step (trace_start b) ops in
  t_accepted t = t_popped t ++ ll_items (t_buf t) /\
  length (ll_items (t_buf t)) <= capacity /\ t_dropped t = [].
Proof.
  unfold LosslessBuffer_new in Hnew. case_match; [done|]. injection Hnew as <-.
  set (b := {| ll_capacity := capacity; ll_items := [] |}) in *.
  destruct (lossless_run_inv ops (trace_start b)) as [[? ?] Hc]; [split; simpl; [done|lia]|].
  split; [done|]. split; [by rewrite Hc in *|].
  assert (Hd : forall t : trace (LosslessBuffer T) (StreamItem T),
    t_dropped t = [] -> t_dropped (foldl lossless_step t ops) = []); [|by apply Hd].
  clear. induction ops as [|o ops IH]; intros t Ht; [done|]. simpl. apply IH.
  destruct o; simpl; by case_match.
Qed.

Lemma lossless_buffer_fifo_witness :
  let b := {| ll_capacity := 2; ll_items := [] |} in
  let ops := [Push (item_at "s" 0 7); Push (item_at "s" 1 8); Push (item_at "s" 2 9); Pop] in
  let t := foldl lossless_step (trace_start b) ops in
  LosslessBuffer_new 2 = Ok b /\
  t_accepted t = [item_at "s" 0 7; item_at "s" 1 8] /\
  t_accepted t = t_popped t ++ ll_items (t_buf t) /\
  length (ll_items (t_buf t)) <= 2 /\ t_dropped t = [].
Proof.
  intros b ops t. split; [reflexivity|]. split; [reflexivity|].
  apply (lossless_buffer_fifo 2 b eq_refl ops).
Defined.

(** C30: end to end through the lossless buffer: the items a fresh sequencer
    emits (no more than [u64::MAX] of them), pushed through a lossless buffer
    that accepted them all, under any interleaving of pops, reach a fresh
    tracker as the first item followed by in-order items only, as long as no
    push met backpressure. *)
Theorem lossless_pipeline_in_order {T} (sid : Id) (ps : list T) (capacity : nat)
  (ops : list (buffer_op (StreamItem T)))
  (Hps : (N.of_nat (length ps) <= u64_max)%N)
  (Haccepted : let t := foldl lossless_step
     (trace_start {| ll_capacity := capacity; ll_items := [] |}) ops in
     t_accepted t = emit_all (StreamSequencer_new sid) ps) :
  let t := foldl lossless_step (trace_start {| ll_capacity := capacity; ll_items := [] |}) ops in
  observe_all (SequenceTracker_new sid) (t_popped t) =
    match t_popped t with
    | [] => []
    | i :: rest => Ok (First Sequence_FIRST) :: ((fun i => Ok (InOrder (sequence i))) <$> rest)
    end.
Proof.
  intros t. destruct (lossless_run_inv ops
    (trace_start {| ll_capacity := capacity; ll_items := [] |})) as [[Ha _] _];
    [split; simpl; [done|lia]|].
  fold t in Ha. simpl in Haccepted. fold t in Haccepted. rewrite Ha in Haccepted.
  change (StreamSequencer_new sid) with (sequencer_at sid 0) in Haccepted.
  rewrite emit_all_items in Haccepted by (simpl; lia).
  assert (Hpre : exists n, t_popped t = items_from sid 0 (take n ps) /\
    (N.of_nat (length (take n ps)) <= u64_max)%N).
  { exists (length (t_popped t)). split; [|rewrite length_take; lia].
    apply (f_equal (take (length (t_popped t)))) in Haccepted.
    rewrite take_app_length in Haccepted. rewrite Haccepted at 1.
    generalize (length (t_popped t)) as n. generalize 0%N as k. clear.
    induction ps as [|p ps IH]; intros k [|n]; simpl; try done. by rewrite IH. }
  destruct Hpre as (n & -> & Hn). destruct (take n ps) as [|p qs]; [done|].
  cbn [length] in Hn. rewrite Nat2N.inj_succ in Hn.
  simpl. unfold observe. simpl. rewrite bool_decide_false by naive_solver.
  f_equal. apply (observe_items_from sid 1%N); [done|done|lia].
Qed.

Lemma lossless_pipeline_in_order_witness :
  let ops := Pop :: (Push <$> emit_all (StreamSequencer_new "s") [4; 5; 6]) ++ [Pop; Pop] in
  let t := foldl lossless_step (trace_start {| ll_capacity := 3; ll_items := [] |}) ops in
  t_accepted t = emit_all (StreamSequencer_new "s") [4; 5; 6] /\
  observe_all (SequenceTracker_new "s") (t_popped t) =
    match t_popped t with
    | [] => []
    | i :: rest => Ok (First Sequence_FIRST) :: ((fun i => Ok (InOrder (sequence i))) <$> rest)
    end.
Proof.
  intros ops t. split; [reflexivity|].
  apply (lossless_pipeline_in_order "s" [4; 5; 6] 3 ops); [unfold u64_max; simpl; lia|reflexivity].
Defined.

(** *** Coalescing buffer *)

Section coalescing.
Context {K T : Type} `{EqDecision K}.
Implicit Types b : CoalescingBuffer K T.
Implicit Types x item : KeyedStreamItem K T.
Implicit Types l : list (KeyedStreamItem K T).

Definition coalescing_inv b : Prop :=
  NoDup (identity <$> cb_items b) /\ length (cb_items b) <= cb_capacity b.

(** The pending items of other identities, in order. *)
Definition others item (l : list (KeyedStreamItem K T)) : list (KeyedStreamItem K T) :=
  filter (fun x => identity x ≠ identity item) l.

Lemma others_all item l : identity item ∉ identity <$> l -> others item l = l.
Proof.
  unfold others. induction l as [|x l IH]; [done|]. intros Hn.
  rewrite fmap_cons, not_elem_of_cons in Hn. destruct Hn.
  rewrite filter_cons_True by congruence. by rewrite IH.
Qed.
Lemma others_delete item l i x :
  NoDup (identity <$> l) -> l !! i = Some x -> identity x = identity item ->
  others item l = delete i l.
Proof.
  revert i. induction l as [|y l IH]; intros i Hnd Hi Hx; [done|].
  rewrite fmap_cons, NoDup_cons in Hnd. destruct Hnd as [Hy Hnd].
  destruct i as [|i]; simpl in *.
  - injection Hi as ->. unfold others. rewrite filter_cons_False by (intros Hne; by apply Hne).
    apply others_all. by rewrite <- Hx.
  - unfold others. rewrite filter_cons_True; [by rewrite <- (IH i)|].
    intros He. apply Hy. rewrite He, <- Hx. apply list_elem_of_fmap.
    exists x. split; [done|]. by eapply list_elem_of_lookup_2.
Qed.

Lemma coalescing_find item l :
  match list_find (fun existing => identity existing = identity item) l with
  | Some (i, x) => l !! i = Some x /\ identity x = identity item
  | None => identity item ∉ identity <$> l
  end.
Proof.
  destruct (list_find _ l) as [[i x]|] eqn:E.
  - apply list_find_Some in E as (? & ? & _). done.
  - apply list_find_None in E. rewrite Forall_forall in E.
    intros (x & Hx & Hin)%list_elem_of_fmap. by apply (E x).
Qed.

Lemma coalescing_push_eq b item :
  coalescing_inv b ->
  coalescing_try_push b item =
    if bool_decide (identity item ∉ identity <$> cb_items b) &&
       (length (cb_items b) =? cb_capacity b)%nat
    then (b, Err (Backpressure item))
    else ({| cb_capacity := cb_capacity b;
             cb_items := others item (cb_items b) ++ [item] |}, Ok tt).
Proof.
  intros [Hnd Hlen]. unfold coalescing_try_push.
  pose proof (coalescing_find item (cb_items b)) as Hf.
  destruct (list_find _ _) as [[i x]|].
  - destruct Hf as [Hi Hx]. rewrite bool_decide_false; simpl.
    + by rewrite (others_delete item _ i x).
    + intros Hn. apply Hn. rewrite <- Hx. apply list_elem_of_fmap_2.
      by eapply list_elem_of_lookup_2.
  - rewrite bool_decide_true by done. rewrite others_all by done. by simpl; case_match.
Qed.

Lemma length_others item l :
  identity item ∈ identity <$> l -> length (others item l) < length l.
Proof.
  induction l as [|x l IH]; simpl; [by intros ?%elem_of_nil|].
  intros Hin. unfold others. destruct (decide (identity x = identity item)) as [He|He].
  - rewrite filter_cons_False by (intros Hne; by apply Hne).
    pose proof (length_filter (fun x => identity x ≠ identity item) l). lia.
  - rewrite filter_cons_True by done. simpl. apply elem_of_cons in Hin as [?|Hin]; [congruence|].
    specialize (IH Hin). unfold others in IH. lia.
Qed.
Lemma NoDup_others item l : NoDup (identity <$> l) -> NoDup (identity <$> others item l).
Proof.
  intros Hnd. eapply sublist_NoDup; [done|]. apply fmap_sublist, sublist_filter.
Qed.
Lemma others_not_in item l : identity item ∉ identity <$> others item l.
Proof.
  intros (x & Hx & Hin)%list_elem_of_fmap. apply list_elem_of_filter in Hin. naive_solver.
Qed.

Lemma coalescing_push_inv b item :
  coalescing_inv b -> coalescing_inv (coalescing_try_push b item).1.
Proof.
  intros Hinv. rewrite coalescing_push_eq by done. destruct Hinv as [Hnd Hlen].
  destruct (bool_decide _ && _) eqn:E; [done|]. split; simpl.
  - rewrite fmap_app. apply NoDup_app. repeat split.
    + by apply NoDup_others.
    + intros y Hy Hy2. simpl in Hy2. apply list_elem_of_singleton in Hy2 as ->.
      by apply others_not_in in Hy.
    + apply NoDup_singleton.
  - rewrite length_app. simpl.
    apply andb_false_iff in E as [E|E].
    + apply bool_decide_eq_false, dec_stable in E. apply length_others in E. lia.
    + apply Nat.eqb_neq in E. unfold others.
      pose proof (length_filter (fun x => identity x ≠ identity item) (cb_items b)). lia.
Qed.
End coalescing.

(** The states of a coalescing buffer a client can produce. *)
Inductive coalescing_reachable {K T} `{EqDecision K} (capacity : nat) :
  CoalescingBuffer K T -> Prop :=
  | cr_new b : CoalescingBuffer_new capacity = Ok b -> coalescing_reachable capacity b
  | cr_push b item :
      coalescing_reachable capacity b ->
      coalescing_reachable capacity (coalescing_try_push b item).1
  | cr_pop b :
      coalescing_reachable capacity b -> coalescing_reachable capacity (coalescing_pop b).1.

Lemma coalescing_reachable_inv {K T} `{EqDecision K} capacity (b : CoalescingBuffer K T) :
  coalescing_reachable capacity b -> coalescing_inv b /\ cb_capacity b = capacity.
Proof.
  induction 1 as [b Hb|b item _ [Hinv Hc]|b _ [[Hnd Hlen] Hc]].
  - unfold CoalescingBuffer_new in Hb. case_match; [done|]. injection Hb as <-.
    repeat split; simpl; [constructor|lia].
  - split; [by apply coalescing_push_inv|]. rewrite coalescing_push_eq by done. by case_match.
  - unfold coalescing_pop. destruct (cb_items b) as [|x l] eqn:E; simpl.
    + split; [|done]. split; rewrite ?E; done.
    + split; [|done]. rewrite fmap_cons in Hnd. apply NoDup_cons in Hnd as [_ Hnd].
      split; simpl in *; [done|lia].
Qed.

(** In every reachable state the coalescing buffer holds at most one
    pending item per [(stream, key)] identity and at most [capacity] items; a
    push is refused, giving the item back and changing nothing, exactly when
    its identity is not pending and the buffer is full; otherwise the pending
    item of its identity (and only that one) is replaced by the new item at
    the tail and every other pending item keeps its place in the order. *)
Theorem coalescing_buffer_correct {K T} `{EqDecision K} (capacity : nat)
  (b : CoalescingBuffer K T) (item : KeyedStreamItem K T)
  (Hb : coalescing_reachable capacity b) :
  NoDup (identity <$> cb_items b) /\ length (cb_items b) <= capacity /\
  (identity item ∉ identity <$> cb_items b -> length (cb_items b) = capacity ->
     coalescing_try_push b item = (b, Err (Backpressure item))) /\
  (identity item ∈ identity <$> cb_items b \/ length (cb_items b) <> capacity ->
     coalescing_try_push b item =
       ({| cb_capacity := cb_capacity b; cb_items := others item (cb_items b) ++ [item] |}, Ok tt)).
Proof.
  apply coalescing_reachable_inv in Hb as [Hinv Hc].
  split; [apply Hinv|]. split; [destruct Hinv; lia|].
  rewrite coalescing_push_eq by done. rewrite Hc. split.
  - intros Hn Hl. rewrite bool_decide_true by done. by rewrite Hl, Nat.eqb_refl.
  - intros [Hin|Hl].
    + by rewrite bool_decide_false by (intros Hn; by apply Hn).
    + apply Nat.eqb_neq in Hl. by rewrite Hl, andb_false_r.
Qed.

Lemma coalescing_buffer_correct_witness :
  let x k n : KeyedStreamItem string nat := {| ks_key := k; ks_item := item_at "s" n 0 |} in
  let b := {| cb_capacity := 2; cb_items := [x "a" 0%N; x "b" 1%N] |} in
  coalescing_reachable 2 b /\
  coalescing_try_push b (x "a" 2%N) =
    ({| cb_capacity := 2; cb_items := [x "b" 1%N; x "a" 2%N] |}, Ok tt).
Proof.
  intros x b.
  assert (Hb : coalescing_reachable 2 b).
  { replace b with (coalescing_try_push (coalescing_try_push
      {| cb_capacity := 2; cb_items := [] |} (x "a" 0%N)).1 (x "b" 1%N)).1 by reflexivity.
    do 2 apply cr_push. by apply cr_new. }
  split; [exact Hb|].
  destruct (coalescing_buffer_correct 2 b (x "a" 2%N) Hb) as (_ & _ & _ & H).
  rewrite H by (left; simpl; by left). reflexivity.
Defined.

(** *** Lossy buffer *)

(** Pushing [l] without popping: the pending items are the newest [capacity]
    of everything held so far, the others were dropped oldest first. *)
Lemma lossy_push_all {T} (l : list (StreamItem T)) (t : trace (LossyBuffer T) (StreamItem T)) :
  0 < ly_capacity (t_buf t) -> length (ly_items (t_buf t)) <= ly_capacity (t_buf t) ->
  let t' := foldl lossy_step t (Push <$> l) in
  let all := ly_items (t_buf t) ++ l in
  let n := length all - ly_capacity (t_buf t) in
  ly_items (t_buf t') = drop n all /\ t_dropped t' = t_dropped t ++ take n all /\
  t_popped t' = t_popped t /\ ly_capacity (t_buf t') = ly_capacity (t_buf t).
Proof.
  revert t. induction l as [|i l IH]; intros t Hcap Hlen; cbn zeta.
  { simpl. rewrite app_nil_r. replace (_ - _) with 0 by lia. by rewrite drop_0, app_nil_r. }
  rewrite fmap_cons. simpl foldl. unfold lossy_push.
  destruct (Nat.eqb_spec (length (ly_items (t_buf t))) (ly_capacity (t_buf t))) as [He|He].
  - destruct (ly_items (t_buf t)) as [|x rest] eqn:E; [simpl in *; lia|]. simpl in He, Hlen.
    match goal with |- context [foldl _ ?t1 _] => destruct (IH t1) as (H1 & H2 & H3 & H4) end;
      simpl in *; [lia|rewrite length_app; simpl; lia|].
    rewrite H1, H2, H3, H4. rewrite <- !app_assoc. simpl.
    assert (S (length (rest ++ i :: l)) - ly_capacity (t_buf t)
      = S (length (rest ++ i :: l) - ly_capacity (t_buf t))) as ->
      by (rewrite length_app; simpl; lia).
    done.
  - match goal with |- context [foldl _ ?t1 _] => destruct (IH t1) as (H1 & H2 & H3 & H4) end;
      simpl in *; [lia|rewrite length_app; simpl; lia|].
    rewrite H1, H2, H3, H4, app_nil_r, <- !app_assoc. done.
Qed.

Lemma items_from_drop {T} sid k (ps : list T) n :
  drop n (items_from sid k ps) = items_from sid (k + N.of_nat n) (drop n ps).
Proof.
  revert k ps. induction n as [|n IH]; intros k ps.
  { rewrite !drop_0. f_equal. lia. }
  destruct ps as [|p ps]; [done|]. simpl. rewrite IH. f_equal. lia.
Qed.
Lemma length_items_from {T} sid k (ps : list T) : length (items_from sid k ps) = length ps.
Proof. revert k. induction ps as [|p ps IH]; intros k; simpl; [done|]. by rewrite IH. Qed.

(** Loss is visible: pushing a fresh sequencer's items into a new lossy
    buffer of capacity [c] drops exactly the oldest [n - c] of them, keeps the
    newest [c] in order, and a fresh tracker that reads the survivors reports
    the missing prefix as one gap from the first sequence to the first
    survivor, then in-order items; nothing is reported missing when nothing
    was dropped. *)
Theorem lossy_gap_reports_loss {T} (sid : Id) (ps : list T) (c : nat) (b : LossyBuffer T)
  (Hb : LossyBuffer_new c = Ok b) (Hps : (N.of_nat (length ps) <= u64_max)%N) :
  let items := emit_all (StreamSequencer_new sid) ps in
  let t := foldl lossy_step (trace_start b) (Push <$> items) in
  let n := length ps - c in
  t_dropped t = take n items /\ ly_items (t_buf t) = drop n items /\
  match observe_all (SequenceTracker_new sid) (ly_items (t_buf t)) with
  | [] => ps = []
  | r :: rest =>
      r = Ok (if (n =? 0)%nat then First Sequence_FIRST
              else Gap Sequence_FIRST (N.of_nat n + 1)%N) /\
      rest = (fun i => Ok (InOrder (sequence i))) <$> drop (S n) items
  end.
Proof.
  cbn zeta. unfold LossyBuffer_new in Hb. destruct (Nat.eqb_spec c 0) as [|Hc]; [done|].
  injection Hb as <-.
  change (StreamSequencer_new sid) with (sequencer_at sid 0).
  rewrite emit_all_items by lia.
  destruct (lossy_push_all (items_from sid 0 ps)
    (trace_start {| ly_capacity := c; ly_items := [] |})) as (H1 & H2 & _ & _);
    [simpl; lia..|].
  simpl in H1, H2. rewrite length_items_from in H1, H2. rewrite H1, H2.
  split; [done|]. split; [done|]. rewrite !items_from_drop. set (n := length ps - c).
  destruct (drop n ps) as [|p rest] eqn:E.
  { simpl. apply (f_equal length) in E. rewrite length_drop in E. simpl in E.
    destruct ps; [done|]. simpl in E. subst n. simpl in *. lia. }
  assert (Hlen : n + S (length rest) = length ps).
  { apply (f_equal length) in E. rewrite length_drop in E. simpl in E. lia. }
  assert (Hrest : drop (S n) ps = rest).
  { replace (S n) with (n + 1) by lia. by rewrite <- drop_drop, E. }
  rewrite Hrest. cbn [items_from observe_all]. unfold observe at 1. simpl.
  rewrite bool_decide_false by (intros Hne; by apply Hne).
  replace (0 + N.of_nat n + 1)%N with (N.of_nat n + 1)%N by lia. split.
  - f_equal. unfold Sequence_FIRST. destruct (Nat.eqb_spec n 0) as [->|Hn]; [done|].
    by replace (N.of_nat n + 1 =? 1)%N with false by lia.
  - rewrite (observe_items_from sid (N.of_nat n + 1)%N); [|done|done|lia].
    f_equal. f_equal. lia.
Qed.

Lemma lossy_gap_reports_loss_witness :
  let b := {| ly_capacity := 2; ly_items := [] |} in
  let items := emit_all (StreamSequencer_new "s") [10; 11; 12; 13] in
  let t := foldl lossy_step (trace_start b) (Push <$> items) in
  LossyBuffer_new 2 = Ok b /\ t_dropped t = take 2 items /\
  observe_all (SequenceTracker_new "s") (ly_items (t_buf t)) =
    [Ok (Gap 1%N 3%N); Ok (InOrder 4%N)].
Proof.
  intros b items t. split; [reflexivity|].
  destruct (lossy_gap_reports_loss "s" [10; 11; 12; 13] 2 b eq_refl) as (H & _ & _);
    [unfold u64_max; simpl; lia|].
  split; [exact H|reflexivity].
Defined.
