(* ===== verification/WorkflowGraph.v ===== *)
(** * Versioned workflow graph: [crates/workflow-graph/src/lib.rs]

    The topology (tasks and incoming dependencies), the execution facts, the
    mutation log and the operations on them.  A method that takes [&mut self]
    is a function from the state to the new state and its outcome; the new
    state is given on every branch, errors included. *)
From S2P Require Export KernisCore.
#[local] Open Scope string_scope.
#[local] Open Scope nat_scope.
#[local] Open Scope list_scope.

(** ** Topology *)
Record Task := { task_id : Id; label : string }.
#[export] Instance Task_eq_dec : EqDecision Task.
Proof. solve_decision. Defined.

Record WorkflowTopology := {
  tasks : gmap Id Task;
  dependencies : gmap Id (gset Id)
}.
#[export] Instance WorkflowTopology_eq_dec : EqDecision WorkflowTopology.
Proof. solve_decision. Defined.
Definition WorkflowTopology_default : WorkflowTopology :=
  {| tasks := ∅; dependencies := ∅ |}.

Definition topology_task (t : WorkflowTopology) (id : Id) : option Task := tasks t !! id.
Definition topology_tasks (t : WorkflowTopology) : list Task := map_values (tasks t).
Definition topology_task_ids (t : WorkflowTopology) : list Id := map_keys (tasks t).
(** [dependencies.get(task).into_iter().flatten()] *)
Definition topology_dependencies (t : WorkflowTopology) (id : Id) : list Id :=
  match dependencies t !! id with Some ds => set_iter ds | None => [] end.
Definition topology_edges (t : WorkflowTopology) : list (Id * Id) :=
  '(task, ds) ← map_iter (dependencies t); pair task <$> set_iter ds.
Definition contains_task (t : WorkflowTopology) (id : Id) : bool :=
  bool_decide (is_Some (tasks t !! id)).

(** *** Cycle detection: a depth-first search with an explicit path *)
Inductive VisitState := Active | Complete.
#[export] Instance VisitState_eq_dec : EqDecision VisitState.
Proof. solve_decision. Defined.

(** The mutable state of one search: the marks and the path of active nodes. *)
Abbreviation search := (gmap Id VisitState * list Id)%type.
(** [Some path] is the early return of [visit]. *)
Abbreviation visit_result := (result Empty_set (option (list Id) * search)).

(** The [for dependency in ...] loop of [visit] and the code after it;
    [visit] is the recursive call. *)
Fixpoint visit_dependencies (visit : Id -> search -> visit_result) (id : Id)
  (ds : list Id) (s : search) : visit_result :=
  let '(marks, stack) := s in
  match ds with
  | [] => Ok (None, (<[id := Complete]> marks, vec_pop stack))
  | d :: ds =>
      match marks !! d with
      | None =>
          r ← visit d (marks, stack);
          match r with
          | (Some path, s') => Ok (Some path, s')
          | (None, s') => visit_dependencies visit id ds s'
          end
      | Some Active =>
          match position d stack with
          | Some start => Ok (Some (drop start stack ++ [d]), (marks, stack))
          | None => Panic "active dependency must be on the DFS stack"
          end
      | Some Complete => visit_dependencies visit id ds (marks, stack)
      end
  end.

Fixpoint visit (fuel : nat) (t : WorkflowTopology) (id : Id) (s : search) : visit_result :=
  match fuel with
  | O => NoFuel
  | S fuel =>
      let '(marks, stack) := s in
      visit_dependencies (visit fuel t) id (topology_dependencies t id)
        (<[id := Active]> marks, stack ++ [id])
  end.

(** One nested call per node that has dependencies, and one more. *)
Definition visit_fuel (t : WorkflowTopology) : nat := S (size (dom (dependencies t) : gset Id)).

Fixpoint cycle_path_from (t : WorkflowTopology) (ids : list Id) (s : search) :
  result Empty_set (option (list Id)) :=
  match ids with
  | [] => Ok None
  | id :: ids =>
      match s.1 !! id with
      | Some _ => cycle_path_from t ids s
      | None =>
          r ← visit (visit_fuel t) t id s;
          match r with
          | (Some path, _) => Ok (Some path)
          | (None, s') => cycle_path_from t ids s'
          end
      end
  end.
Definition cycle_path (t : WorkflowTopology) : result Empty_set (option (list Id)) :=
  cycle_path_from t (topology_task_ids t) (∅, []).

(** ** Execution facts *)
Record CompletionRecord := { cr_task_id : Id }.
#[export] Instance CompletionRecord_eq_dec : EqDecision CompletionRecord.
Proof. solve_decision. Defined.

Record ExecutionFacts := {
  completed : gset Id;
  facts_completion_log : list CompletionRecord
}.
#[export] Instance ExecutionFacts_eq_dec : EqDecision ExecutionFacts.
Proof. solve_decision. Defined.
Definition ExecutionFacts_default : ExecutionFacts :=
  {| completed := ∅; facts_completion_log := [] |}.
Definition facts_completed_tasks (f : ExecutionFacts) : list Id := set_iter (completed f).
Definition facts_is_completed (f : ExecutionFacts) (id : Id) : bool :=
  bool_decide (id ∈ completed f).

(** ** Mutations *)
Inductive WorkflowMutation :=
  | AddTask (task : Task)
  | AddDependency (task_id dependency_id : Id).
#[export] Instance WorkflowMutation_eq_dec : EqDecision WorkflowMutation.
Proof. solve_decision. Defined.
Definition MutationBatch : Set := list WorkflowMutation.

Record WorkflowMutationRecord := {
  base_revision : Revision;
  resulting_revision : Revision;
  mutations : list WorkflowMutation
}.
#[export] Instance WorkflowMutationRecord_eq_dec : EqDecision WorkflowMutationRecord.
Proof. unfold EqDecision, Revision. solve_decision. Defined.

Record WorkflowGraph := {
  topology : WorkflowTopology;
  facts : ExecutionFacts;
  topology_revision : Revision;
  mutation_log : list WorkflowMutationRecord
}.
#[export] Instance WorkflowGraph_eq_dec : EqDecision WorkflowGraph.
Proof. unfold EqDecision, Revision. solve_decision. Defined.
Definition WorkflowGraph_default : WorkflowGraph :=
  {| topology := WorkflowTopology_default; facts := ExecutionFacts_default;
     topology_revision := Revision_ZERO; mutation_log := [] |}.

Inductive WorkflowGraphError :=
  | UnknownTask (id : Id)
  | DuplicateTask (id : Id)
  | DuplicateDependency (task dependency : Id)
  | Cycle (path : list Id)
  | CompletedTaskMutation (id : Id)
  | TaskAlreadyCompleted (id : Id)
  | IncompletePrerequisite (task dependency : Id)
  | RevisionConflict (expected actual : Revision)
  | EmptyMutationBatch
  | RevisionExhausted (current : Revision)
  | ReplayRevisionMismatch (expected actual : Revision).
#[export] Instance WorkflowGraphError_eq_dec : EqDecision WorkflowGraphError.
Proof. unfold EqDecision, Revision. solve_decision. Defined.

Definition with_tasks (ts : gmap Id Task) (g : WorkflowGraph) : WorkflowGraph :=
  {| topology := {| tasks := ts; dependencies := dependencies (topology g) |};
     facts := facts g; topology_revision := topology_revision g;
     mutation_log := mutation_log g |}.
Definition with_dependencies (ds : gmap Id (gset Id)) (g : WorkflowGraph) : WorkflowGraph :=
  {| topology := {| tasks := tasks (topology g); dependencies := ds |};
     facts := facts g; topology_revision := topology_revision g;
     mutation_log := mutation_log g |}.
Definition with_facts (f : ExecutionFacts) (g : WorkflowGraph) : WorkflowGraph :=
  {| topology := topology g; facts := f; topology_revision := topology_revision g;
     mutation_log := mutation_log g |}.

(** ** Queries *)
Definition is_completed (g : WorkflowGraph) (id : Id) : bool := facts_is_completed (facts g) id.
Definition graph_task (g : WorkflowGraph) (id : Id) : option Task := topology_task (topology g) id.
Definition completion_log (g : WorkflowGraph) : list CompletionRecord :=
  facts_completion_log (facts g).

(** [ready_tasks]: the incomplete tasks whose prerequisites are all complete,
    in identifier order. *)
Definition ready_tasks (g : WorkflowGraph) : list Id :=
  filter (fun id =>
      (match dependencies (topology g) !! id with
       | Some ds => forallb (is_completed g) (set_iter ds)
       | None => true
       end) = true)
    (filter (fun id => is_completed g id = false) (map_keys (tasks (topology g)))).

(** ** Operations *)

(** [complete]; the loop over the prerequisites is [first_incomplete]. *)
Fixpoint first_incomplete (g : WorkflowGraph) (ds : list Id) : option Id :=
  match ds with
  | [] => None
  | d :: ds => if is_completed g d then first_incomplete g ds else Some d
  end.
Definition complete (g : WorkflowGraph) (id : Id) :
  WorkflowGraph * result WorkflowGraphError CompletionRecord :=
  if negb (contains_task (topology g) id) then (g, Err (UnknownTask id))
  else if is_completed g id then (g, Err (TaskAlreadyCompleted id))
  else
    match first_incomplete g (topology_dependencies (topology g) id) with
    | Some d => (g, Err (IncompletePrerequisite id d))
    | None =>
        let record := {| cr_task_id := id |} in
        (with_facts {| completed := {[id]} ∪ completed (facts g);
                       facts_completion_log := completion_log g ++ [record] |} g,
         Ok record)
    end.

(** [apply_mutation]: the candidate is changed in place; the cycle branch
    takes the inserted edge out again. *)
Definition apply_mutation (g : WorkflowGraph) (m : WorkflowMutation) :
  WorkflowGraph * result WorkflowGraphError unit :=
  match m with
  | AddTask task =>
      if contains_task (topology g) (task_id task) then (g, Err (DuplicateTask (task_id task)))
      else (with_tasks (<[task_id task := task]> (tasks (topology g))) g, Ok tt)
  | AddDependency tid did =>
      if negb (contains_task (topology g) tid) then (g, Err (UnknownTask tid))
      else if negb (contains_task (topology g) did) then (g, Err (UnknownTask did))
      else if is_completed g tid then (g, Err (CompletedTaskMutation tid))
      else
        let existing := default ∅ (dependencies (topology g) !! tid) in
        let g1 := with_dependencies (<[tid := existing]> (dependencies (topology g))) g in
        if bool_decide (did ∈ existing) then (g1, Err (DuplicateDependency tid did))
        else
          let g2 := with_dependencies
                      (<[tid := {[did]} ∪ existing]> (dependencies (topology g1))) g1 in
          match cycle_path (topology g2) with
          | Ok None => (g2, Ok tt)
          | Ok (Some path) =>
              match dependencies (topology g2) !! tid with
              | None => (g2, Panic "inserted dependency owner must exist")
              | Some ds =>
                  let ds := ds ∖ {[did]} in
                  let g3 := with_dependencies
                    (if bool_decide (ds = ∅) then delete tid (dependencies (topology g2))
                     else <[tid := ds]> (dependencies (topology g2))) g2 in
                  (g3, Err (Cycle path))
              end
          | Err e => match e with end
          | Panic s => (g2, Panic s)
          | NoFuel => (g2, NoFuel)
          end
  end.

(** [candidate.apply_mutation(mutation)?] in a loop. *)
Fixpoint apply_mutations (g : WorkflowGraph) (ms : list WorkflowMutation) :
  result WorkflowGraphError WorkflowGraph :=
  match ms with
  | [] => Ok g
  | m :: ms =>
      let '(g', r) := apply_mutation g m in
      _ ← r; apply_mutations g' ms
  end.

(** The body of [apply_batch] up to the commit: the candidate and its record. *)
Definition prepare_batch (g : WorkflowGraph) (expected_revision : Revision)
  (batch : MutationBatch) : result WorkflowGraphError (WorkflowGraph * WorkflowMutationRecord) :=
  if negb (expected_revision =? topology_revision g)%N
  then Err (RevisionConflict expected_revision (topology_revision g))
  else match batch with
  | [] => Err EmptyMutationBatch
  | _ =>
      resulting ← ok_or (Revision_checked_next (topology_revision g))
                        (RevisionExhausted (topology_revision g));
      candidate ← apply_mutations g batch;
      match cycle_path (topology candidate) with
      | Ok (Some path) => Err (Cycle path)
      | Ok None =>
          let record := {| base_revision := topology_revision g;
                           resulting_revision := resulting; mutations := batch |} in
          Ok ({| topology := topology candidate; facts := facts candidate;
                 topology_revision := resulting;
                 mutation_log := mutation_log candidate ++ [record] |}, record)
      | Err e => match e with end
      | Panic s => Panic s
      | NoFuel => NoFuel
      end
  end.
Definition apply_batch (g : WorkflowGraph) (expected_revision : Revision)
  (batch : MutationBatch) : WorkflowGraph * result WorkflowGraphError WorkflowMutationRecord :=
  match prepare_batch g expected_revision batch with
  | Ok (candidate, record) => (candidate, Ok record)
  | Err e => (g, Err e)
  | Panic s => (g, Panic s)
  | NoFuel => (g, NoFuel)
  end.

(** ** Replay *)
Definition replay_record (g : WorkflowGraph) (r : WorkflowMutationRecord) :
  result WorkflowGraphError WorkflowGraph :=
  if negb (base_revision r =? topology_revision g)%N
  then Err (RevisionConflict (base_revision r) (topology_revision g))
  else
    expected_result ← ok_or (Revision_checked_next (topology_revision g))
                            (RevisionExhausted (topology_revision g));
    if negb (resulting_revision r =? expected_result)%N
    then Err (ReplayRevisionMismatch expected_result (resulting_revision r))
    else let '(g', o) := apply_batch g (base_revision r) (mutations r) in
         _ ← o; Ok g'.
Definition replay_from (g : WorkflowGraph) (records : list WorkflowMutationRecord) :
  result WorkflowGraphError WorkflowGraph := foldM replay_record records g.
Definition replay (records : list WorkflowMutationRecord) :
  result WorkflowGraphError WorkflowGraph := replay_from WorkflowGraph_default records.
Definition replay_completion (g : WorkflowGraph) (c : CompletionRecord) :
  result WorkflowGraphError WorkflowGraph :=
  let '(g', o) := complete g (cr_task_id c) in _ ← o; Ok g'.
Definition replay_with_facts (records : list WorkflowMutationRecord)
  (completions : list CompletionRecord) : result WorkflowGraphError WorkflowGraph :=
  g ← replay records; foldM replay_completion completions g.

(** The graphs a client can produce from an empty workflow. *)
Inductive workflow_step (g : WorkflowGraph) : WorkflowGraph -> Prop :=
  | step_batch expected batch : workflow_step g (apply_batch g expected batch).1
  | step_complete id : workflow_step g (complete g id).1.
Definition workflow_reachable (g : WorkflowGraph) : Prop :=
  rtc workflow_step WorkflowGraph_default g.

Example plan_research :
  let t i := AddTask {| task_id := i; label := i |} in
  let g := (apply_batch WorkflowGraph_default 0%N
    [t "plan"; t "research"; AddDependency "research" "plan"]).1 in
  ready_tasks g = ["plan"] /\
  (apply_batch g 1%N [AddDependency "plan" "research"]).2 =
    Err (Cycle ["plan"; "research"; "plan"]) /\
  (complete g "research").2 = Err (IncompletePrerequisite "research" "plan").
Proof. vm_compute. repeat split. Qed.
