(* ===== verification/WorkflowFacts.v ===== *)
(** * Properties of the workflow graph

    Correctness of the cycle search, the well-formedness invariant of
    reachable graphs, scheduling, atomicity and replay, for the definitions of
    [WorkflowGraph]. *)
From S2P Require Export WorkflowGraph.
#[local] Open Scope string_scope.
#[local] Open Scope nat_scope.
#[local] Open Scope list_scope.

(** [x] waits for [y]. *)
Definition depends_on (t : WorkflowTopology) (x y : Id) : Prop :=
  exists ds, dependencies t !! x = Some ds /\ y ∈ ds.

Lemma elem_of_topology_dependencies t x y :
  y ∈ topology_dependencies t x <-> depends_on t x y.
Proof.
  unfold topology_dependencies, depends_on.
  destruct (dependencies t !! x) as [ds|].
  - rewrite elem_of_set_iter. split; [eauto|]. by intros (ds' & [= <-] & ?).
  - rewrite elem_of_nil. split; [done|]. by intros (? & ? & _).
Qed.
Lemma contains_task_spec t id : contains_task t id = true <-> is_Some (tasks t !! id).
Proof. unfold contains_task. apply bool_decide_eq_true. Qed.
Lemma is_completed_spec g id : is_completed g id = true <-> id ∈ completed (facts g).
Proof. unfold is_completed, facts_is_completed. apply bool_decide_eq_true. Qed.
Lemma is_completed_false g id : is_completed g id = false <-> id ∉ completed (facts g).
Proof. unfold is_completed, facts_is_completed. apply bool_decide_eq_false. Qed.

(** ** The cycle search *)
Section cycle_search.
Variable t : WorkflowTopology.
Abbreviation dep := (depends_on t).
Implicit Types marks : gmap Id VisitState.
Implicit Types stack : list Id.

(** What holds between two visits: the stack is a path, its nodes are the
    active ones, and nothing above a complete node can loop. *)
Record search_ok marks stack : Prop := {
  so_chain : chain dep stack;
  so_active : forall x, marks !! x = Some Active <-> x ∈ stack;
  so_complete : forall x, marks !! x = Some Complete -> grounded dep x
}.
Definition marks_le (m m' : gmap Id VisitState) : Prop :=
  (dom m : gset Id) ⊆ dom m' /\ forall x, m !! x = Some Complete -> m' !! x = Some Complete.
(** The nodes with dependencies that are still to be visited. *)
Definition unvisited marks : nat := size ((dom (dependencies t) : gset Id) ∖ dom marks).

Definition visit_post id marks stack (r : visit_result) : Prop :=
  match r with
  | Ok (Some p, _) => is_cycle dep p
  | Ok (None, (marks', stack')) =>
      stack' = stack /\ search_ok marks' stack /\ marks' !! id = Some Complete /\
      marks_le marks marks'
  | _ => False
  end.
Definition visit_spec (fuel : nat) (f : Id -> search -> visit_result) : Prop :=
  forall id marks stack, search_ok marks stack -> marks !! id = None ->
    (forall z, last stack = Some z -> dep z id) -> unvisited marks < fuel ->
    visit_post id marks stack (f id (marks, stack)).

Lemma marks_le_refl m : marks_le m m.
Proof. by split. Qed.
Lemma marks_le_trans m1 m2 m3 : marks_le m1 m2 -> marks_le m2 m3 -> marks_le m1 m3.
Proof. intros [H1 H2] [H3 H4]. split; [set_solver|eauto]. Qed.
Lemma marks_le_insert m id v : m !! id <> Some Complete -> marks_le m (<[id:=v]> m).
Proof.
  intros Hid. split; [rewrite dom_insert; set_solver|].
  intros x Hx. rewrite lookup_insert_ne; [done|]. by intros ->.
Qed.
Lemma unvisited_mono m m' : marks_le m m' -> unvisited m' <= unvisited m.
Proof. intros [Hd _]. unfold unvisited. apply subseteq_size. set_solver. Qed.
Lemma unvisited_visit marks id d :
  marks !! id = None -> dep id d -> unvisited (<[id:=Active]> marks) < unvisited marks.
Proof.
  intros Hid (ds & Hds & _). unfold unvisited. apply subset_size. rewrite dom_insert_L. split; [set_solver|].
  intros Hsub. apply not_elem_of_dom in Hid. apply elem_of_dom_2 in Hds.
  specialize (Hsub id). set_solver.
Qed.

Lemma visit_post_weaken id m m' stack r :
  marks_le m m' -> visit_post id m' stack r -> visit_post id m stack r.
Proof.
  intros Hle. destruct r as [[[p|] [m2 s2]]| | |]; simpl; try tauto.
  intros (? & ? & ? & ?). eauto using marks_le_trans.
Qed.

Lemma search_ok_push marks stack id :
  search_ok marks stack -> marks !! id = None ->
  (forall z, last stack = Some z -> dep z id) ->
  search_ok (<[id:=Active]> marks) (stack ++ [id]).
Proof.
  intros [Hc Ha Hg] Hid Hlast. split.
  - destruct (last stack) as [z|] eqn:E; [by eapply chain_snoc_last; eauto|].
    apply last_None in E as ->. done.
  - intros x. rewrite elem_of_app, list_elem_of_singleton. destruct (decide (id = x)) as [->|Hne].
    + rewrite lookup_insert_eq. naive_solver.
    + rewrite lookup_insert_ne, Ha by done. naive_solver.
  - intros x. destruct (decide (id = x)) as [->|Hne]; [by rewrite lookup_insert_eq|].
    rewrite lookup_insert_ne by done. apply Hg.
Qed.
Lemma search_ok_pop marks stack id :
  search_ok marks (stack ++ [id]) -> id ∉ stack ->
  (forall d, dep id d -> marks !! d = Some Complete) ->
  search_ok (<[id:=Complete]> marks) stack.
Proof.
  intros [Hc Ha Hg] Hid Hdeps. split.
  - clear -Hc. induction stack as [|x [|y l] IH]; [done..|].
    destruct Hc as [? Hc]. split; [done|by apply IH].
  - intros x. destruct (decide (id = x)) as [->|Hne].
    + rewrite lookup_insert_eq. naive_solver.
    + rewrite lookup_insert_ne, Ha, elem_of_app, list_elem_of_singleton by done. naive_solver.
  - intros x. destruct (decide (id = x)) as [->|Hne].
    + intros _. constructor. intros d Hd. by apply Hg, Hdeps.
    + rewrite lookup_insert_ne by done. apply Hg.
Qed.

Lemma visit_dependencies_post fuel f id ds marks stack :
  visit_spec fuel f -> search_ok marks (stack ++ [id]) -> id ∉ stack ->
  (forall d, d ∈ ds -> dep id d) ->
  (forall d, dep id d -> d ∈ ds \/ marks !! d = Some Complete) ->
  (ds <> [] -> unvisited marks < fuel) ->
  visit_post id marks stack (visit_dependencies f id ds (marks, stack ++ [id])).
Proof.
  intros Hf. revert marks. induction ds as [|d ds IH]; intros marks Hok Hid Hds Hall Hfuel.
  { simpl. rewrite vec_pop_snoc. split; [done|]. split.
    - apply search_ok_pop; [done|done|]. intros d Hd. destruct (Hall d Hd) as [[]%elem_of_nil|]; done.
    - split; [by rewrite lookup_insert_eq|]. apply marks_le_insert.
      assert (marks !! id = Some Active) as ->; [|done].
      apply (so_active _ _ Hok), elem_of_app. right. by left. }
  assert (Hd : dep id d) by (apply Hds; by left). simpl.
  destruct (marks !! d) as [[|]|] eqn:Em.
  - apply (so_active _ _ Hok) in Em. destruct (position_is_Some _ _ Em) as [i Hi].
    rewrite Hi. simpl. apply position_Some in Hi.
    apply chain_close; [apply Hok|done|]. rewrite last_snoc. by intros z [= <-].
  - apply IH; [done|done|intros e He; apply Hds; by right| |intros _; by apply Hfuel].
    intros e He. destruct (Hall e He) as [[->|?]%elem_of_cons|]; auto.
  - pose proof (Hf d marks (stack ++ [id]) Hok Em) as Hpost.
    rewrite last_snoc in Hpost.
    specialize (Hpost ltac:(by intros z [= <-]) ltac:(by apply Hfuel)).
    destruct (f d (marks, stack ++ [id])) as [[[p|] [m' s']]| | |]; try done.
    destruct Hpost as (-> & Hok' & Hdm & Hle). simpl.
    eapply visit_post_weaken; [exact Hle|].
    apply IH; [done|done|intros e He; apply Hds; by right| |].
    + intros e He. destruct (Hall e He) as [[->|?]%elem_of_cons|Hc]; [by right|by left|].
      right. by apply Hle.
    + intros _. apply unvisited_mono in Hle. specialize (Hfuel ltac:(done)). lia.
Qed.

Lemma visit_correct fuel : visit_spec fuel (visit fuel t).
Proof.
  induction fuel as [|fuel IH]; intros id marks stack Hok Hid Hlast Hfuel; [lia|]. simpl.
  eapply visit_post_weaken; [apply (marks_le_insert _ id Active); congruence|].
  apply (visit_dependencies_post fuel); [done|by apply search_ok_push| | | |].
  - intros Hin. apply (so_active _ _ Hok) in Hin. congruence.
  - intros d. by rewrite elem_of_topology_dependencies.
  - intros d Hd. left. by apply elem_of_topology_dependencies.
  - destruct (topology_dependencies t id) as [|d l] eqn:E; [done|]. intros _.
    enough (unvisited (<[id:=Active]> marks) < unvisited marks) by lia.
    apply (unvisited_visit _ _ d); [done|]. apply elem_of_topology_dependencies.
    rewrite E. by left.
Qed.

Lemma cycle_path_from_correct ids marks :
  search_ok marks [] ->
  match cycle_path_from t ids (marks, []) with
  | Ok (Some p) => is_cycle dep p
  | Ok None => forall x, x ∈ ids \/ marks !! x = Some Complete -> grounded dep x
  | _ => False
  end.
Proof.
  revert marks. induction ids as [|id ids IH]; intros marks Hok.
  { simpl. intros x [[]%elem_of_nil|Hx]. by apply Hok. }
  cbn [cycle_path_from fst]. destruct (marks !! id) as [v|] eqn:Em.
  - assert (v = Complete) as ->.
    { destruct v; [|done]. apply (so_active _ _ Hok) in Em. by apply elem_of_nil in Em. }
    specialize (IH marks Hok). destruct (cycle_path_from t ids _) as [[p|]| | |]; [exact IH| |destruct IH..].
    intros x [[->|Hx]%elem_of_cons|Hx]; auto.
  - pose proof (visit_correct (visit_fuel t) id marks [] Hok Em) as Hv.
    specialize (Hv ltac:(done)). unfold unvisited, visit_fuel in Hv.
    specialize (Hv ltac:(apply Nat.lt_succ_r, subseteq_size; set_solver)).
    change (S (size (dom (dependencies t) : gset Id))) with (visit_fuel t) in Hv.
    destruct (visit (visit_fuel t) t id (marks, [])) as [[[p|] [m' s']]| | |];
      [exact Hv| |destruct Hv..].
    destruct Hv as (-> & Hok' & Hid & Hle). cbn [mbind result_bind].
    specialize (IH m' Hok'). destruct (cycle_path_from t ids _) as [[p|]| | |]; [exact IH| |destruct IH..].
    intros x [[->|Hx]%elem_of_cons|Hx]; [by auto..|]. apply IH. right. by apply Hle.
Qed.
End cycle_search.

Lemma cycle_path_cases t :
  (dom (dependencies t) : gset Id) ⊆ dom (tasks t) ->
  (cycle_path t = Ok None /\ forall x, grounded (depends_on t) x) \/
  (exists p, cycle_path t = Ok (Some p) /\ is_cycle (depends_on t) p).
Proof.
  intros Hsrc. unfold cycle_path.
  assert (Hok : search_ok t ∅ []).
  { split; [done| |]; intros x; rewrite lookup_empty; [|done]. by rewrite elem_of_nil. }
  pose proof (cycle_path_from_correct t (topology_task_ids t) ∅ Hok) as Hc.
  destruct (cycle_path_from t _ _) as [[p|]|e|s|]; [right; eauto| |destruct Hc..].
  left. split; [done|].
  apply (grounded_all_sources _ (fun x => x ∈ (dom (tasks t) : gset Id))).
  - intros x Hx. apply Hc. left. apply elem_of_map_keys. by apply elem_of_dom.
  - intros x y (ds & Hds & _). apply Hsrc. by apply elem_of_dom_2 in Hds.
  - intros x. destruct (decide (x ∈ (dom (tasks t) : gset Id))); auto.
Qed.
Lemma cycle_path_acyclic t :
  (dom (dependencies t) : gset Id) ⊆ dom (tasks t) -> acyclic (depends_on t) ->
  cycle_path t = Ok None.
Proof.
  intros Hsrc Hac. destruct (cycle_path_cases t Hsrc) as [[]|(p & _ & Hp)]; [done|].
  by apply acyclic_no_cycle in Hp.
Qed.

(** ** The invariant of reachable graphs *)
Record wf_topology (t : WorkflowTopology) : Prop := {
  wf_keys : forall i x, tasks t !! i = Some x -> task_id x = i;
  wf_edges : forall x y, depends_on t x y -> is_Some (tasks t !! x) /\ is_Some (tasks t !! y);
  wf_nonempty : forall x ds, dependencies t !! x = Some ds -> ds <> ∅;
  wf_grounded : forall x, grounded (depends_on t) x
}.
Record wf_facts (g : WorkflowGraph) : Prop := {
  wf_completed_tasks : forall x, x ∈ completed (facts g) -> is_Some (tasks (topology g) !! x);
  wf_completed_closed : forall x y, x ∈ completed (facts g) -> depends_on (topology g) x y ->
    y ∈ completed (facts g)
}.
Record wf_logs (g : WorkflowGraph) : Prop := {
  wf_log_nodup : NoDup (cr_task_id <$> completion_log g);
  wf_log_completed : forall x, x ∈ completed (facts g) <-> x ∈ cr_task_id <$> completion_log g;
  wf_revision : topology_revision g = N.of_nat (length (mutation_log g));
  wf_revision_u64 : u64_ok (topology_revision g)
}.
Record wf_graph (g : WorkflowGraph) : Prop := {
  wf_graph_topology : wf_topology (topology g);
  wf_graph_facts : wf_facts g;
  wf_graph_logs : wf_logs g
}.

Lemma wf_sources t : wf_topology t -> (dom (dependencies t) : gset Id) ⊆ dom (tasks t).
Proof.
  intros Hwf x [ds Hds]%elem_of_dom. apply elem_of_dom.
  destruct (set_choose_L ds) as [y Hy]; [by apply (wf_nonempty t Hwf x)|].
  apply (wf_edges t Hwf x y). by exists ds.
Qed.

(** The effect of one accepted or refused mutation on a well-formed graph. *)
Definition with_edge (x y : Id) (g : WorkflowGraph) : WorkflowGraph :=
  with_dependencies
    (<[x := {[y]} ∪ default ∅ (dependencies (topology g) !! x)]> (dependencies (topology g))) g.

Lemma depends_on_with_edge g x y a b :
  depends_on (topology (with_edge x y g)) a b <->
  depends_on (topology g) a b \/ (a = x /\ b = y).
Proof.
  unfold depends_on, with_edge; simpl. destruct (decide (x = a)) as [->|Hne].
  - rewrite lookup_insert_eq. split.
    + intros (ds & [= <-] & [->%elem_of_singleton|Hb]%elem_of_union); [by right|].
      destruct (dependencies (topology g) !! a) as [ds|]; simpl in Hb; [|set_solver]. eauto.
    + intros [(ds & Hds & Hb)|[_ ->]]; eexists; (split; [done|]); [|set_solver].
      rewrite Hds. simpl. set_solver.
  - split.
    + intros (ds & Hds & Hb). rewrite lookup_insert_ne in Hds by done. eauto.
    + intros [(ds & Hds & Hb)|[-> _]]; [|done]. exists ds. by rewrite lookup_insert_ne.
Qed.

(** Adding an edge keeps the graph acyclic exactly when it closes no path. *)
Lemma with_edge_acyclic g x y :
  acyclic (depends_on (topology g)) ->
  acyclic (depends_on (topology (with_edge x y g))) <->
  ~ rtc (depends_on (topology g)) y x.
Proof.
  intros Hac. split.
  - intros Hac' Hyx. apply (Hac' x).
    assert (Hxy : depends_on (topology (with_edge x y g)) x y)
      by (apply depends_on_with_edge; by right).
    apply tc_rtc_r with y; [by apply tc_once|].
    eapply rtc_subrel; [|done]. intros a b ?. apply depends_on_with_edge. by left.
  - intros Hno z Hz.
    assert (Hsplit : forall a b, tc (depends_on (topology (with_edge x y g))) a b ->
      tc (depends_on (topology g)) a b \/
      (rtc (depends_on (topology g)) a x /\ rtc (depends_on (topology g)) y b)).
    { clear z Hz. intros a b. induction 1 as [a b Hab|a b c Hab _ IH].
      - apply depends_on_with_edge in Hab as [?|[-> ->]]; [left; by apply tc_once|].
        right. split; apply rtc_refl.
      - apply depends_on_with_edge in Hab as [Hab|[-> ->]].
        + destruct IH as [?|[? ?]]; [left; by eapply tc_l|right].
          split; [by eapply rtc_l|done].
        + right. destruct IH as [?|[? ?]]; [|done]. split; [apply rtc_refl|by apply tc_rtc]. }
    destruct (Hsplit z z Hz) as [?|[Hzx Hyz]]; [by apply (Hac z)|].
    apply Hno. by transitivity z.
Qed.

Lemma with_edge_sources g x y :
  wf_topology (topology g) -> is_Some (tasks (topology g) !! x) ->
  (dom (dependencies (topology (with_edge x y g))) : gset Id) ⊆ dom (tasks (topology g)).
Proof.
  intros Hwf Hx%elem_of_dom. unfold with_edge. simpl. rewrite dom_insert_L.
  pose proof (wf_sources _ Hwf). set_solver.
Qed.

Lemma apply_mutation_task g task :
  apply_mutation g (AddTask task) =
    if contains_task (topology g) (task_id task) then (g, Err (DuplicateTask (task_id task)))
    else (with_tasks (<[task_id task := task]> (tasks (topology g))) g, Ok tt).
Proof. done. Qed.

Lemma apply_mutation_dependency g x y :
  wf_topology (topology g) -> is_Some (tasks (topology g) !! x) ->
  is_Some (tasks (topology g) !! y) -> x ∉ completed (facts g) ->
  ~ depends_on (topology g) x y ->
  (apply_mutation g (AddDependency x y) = (with_edge x y g, Ok tt) /\
     acyclic (depends_on (topology (with_edge x y g)))) \/
  (exists g' p, apply_mutation g (AddDependency x y) = (g', Err (Cycle p)) /\
     is_cycle (depends_on (topology (with_edge x y g))) p).
Proof.
  intros Hwf Hx Hy Hc Hno. unfold apply_mutation.
  apply contains_task_spec in Hx as Hx'. apply contains_task_spec in Hy as Hy'.
  apply is_completed_false in Hc. rewrite Hx', Hy', Hc. cbn [negb].
  set (existing := default ∅ _).
  rewrite bool_decide_false.
  2:{ intros Hin. apply Hno. unfold depends_on, existing in *.
      destruct (dependencies (topology g) !! x) as [ds|]; simpl in Hin; [eauto|set_solver]. }
  set (g1 := with_dependencies (<[x:=existing]> (dependencies (topology g))) g). cbn zeta.
  assert (with_dependencies (<[x := {[y]} ∪ existing]> (dependencies (topology g1))) g1
    = with_edge x y g) as ->.
  { unfold g1, with_edge, with_dependencies. simpl. by rewrite insert_insert_eq. }
  destruct (cycle_path_cases (topology (with_edge x y g))) as [[Hcp Hg]|(p & Hcp & Hp)];
    [by apply (with_edge_sources g x y)| |].
  - left. rewrite Hcp. split; [done|]. by apply grounded_acyclic.
  - right. rewrite Hcp. unfold with_edge at 1. simpl. rewrite lookup_insert_eq. eauto.
Qed.

Lemma wf_topology_add_task g task :
  wf_topology (topology g) -> tasks (topology g) !! task_id task = None ->
  wf_topology (topology (with_tasks (<[task_id task := task]> (tasks (topology g))) g)).
Proof.
  intros [Hk He Hn Hg] Hnew. split; simpl; [|unfold depends_on in *; simpl|done|done].
  - intros i x. destruct (decide (task_id task = i)) as [<-|Hne].
    + rewrite lookup_insert_eq. by intros [= <-].
    + rewrite lookup_insert_ne by done. apply Hk.
  - intros x y Hxy. destruct (He x y Hxy). rewrite !lookup_insert.
    split; by case_decide; [eexists|].
Qed.

Lemma wf_topology_with_edge g x y :
  wf_topology (topology g) -> is_Some (tasks (topology g) !! x) ->
  is_Some (tasks (topology g) !! y) -> acyclic (depends_on (topology (with_edge x y g))) ->
  wf_topology (topology (with_edge x y g)).
Proof.
  intros Hwf Hx Hy Hac. pose proof (with_edge_sources g x y Hwf Hx) as Hsrc.
  destruct (cycle_path_cases (topology (with_edge x y g)) Hsrc) as [[_ Hg]|(p & _ & Hp)];
    [|by apply acyclic_no_cycle in Hp].
  destruct Hwf as [Hk He Hn _]. split; [done| | |done].
  - intros a b [Hab|[-> ->]]%depends_on_with_edge; [by apply He|done].
  - intros a ds. unfold with_edge. simpl. destruct (decide (x = a)) as [->|Hne].
    + rewrite lookup_insert_eq. intros [= <-]. set_solver.
    + rewrite lookup_insert_ne by done. apply Hn.
Qed.

(** The cycle branch undoes its insertion. *)
Lemma apply_mutation_cycle_restores g x y g' p :
  wf_topology (topology g) -> apply_mutation g (AddDependency x y) = (g', Err (Cycle p)) ->
  g' = g.
Proof.
  intros Hwf. unfold apply_mutation.
  destruct (contains_task _ x); [|done]. destruct (contains_task _ y); [|done].
  destruct (is_completed g x); [done|]. cbn [negb].
  set (existing := default ∅ _).
  destruct (bool_decide (y ∈ existing)) eqn:Ey; [done|].
  apply bool_decide_eq_false in Ey. cbn zeta.
  set (g1 := with_dependencies (<[x:=existing]> (dependencies (topology g))) g).
  set (g2 := with_dependencies (<[x := {[y]} ∪ existing]> (dependencies (topology g1))) g1).
  destruct (cycle_path (topology g2)) as [[q|]|[]|s|]; try done.
  unfold g2 at 1. simpl. rewrite lookup_insert_eq.
  assert (({[y]} ∪ existing) ∖ {[y]} = existing) as -> by set_solver.
  intros [= <- <-]. unfold g1, with_dependencies. destruct g as [[ts ds] f r l]. simpl in *.
  do 2 f_equal. rewrite insert_insert_eq. unfold existing in *. simpl in *.
  destruct (ds !! x) as [d|] eqn:Ed; simpl.
  - rewrite bool_decide_false by (by apply (wf_nonempty _ Hwf x)).
    by rewrite insert_insert_eq, insert_id.
  - rewrite bool_decide_true by done. by rewrite delete_insert_id.
Qed.

(** What every accepted mutation does to a well-formed candidate. *)
Record extends (g g' : WorkflowGraph) : Prop := {
  ext_facts : facts g' = facts g;
  ext_revision : topology_revision g' = topology_revision g;
  ext_log : mutation_log g' = mutation_log g;
  ext_tasks : tasks (topology g) ⊆ tasks (topology g');
  ext_edges : forall x y, depends_on (topology g) x y -> depends_on (topology g') x y;
  ext_frozen : forall x, x ∈ completed (facts g) ->
    dependencies (topology g') !! x = dependencies (topology g) !! x
}.
Lemma extends_refl g : extends g g.
Proof. by split. Qed.
Lemma extends_trans g1 g2 g3 : extends g1 g2 -> extends g2 g3 -> extends g1 g3.
Proof.
  intros [F1 R1 L1 T1 E1 Z1] [F2 R2 L2 T2 E2 Z2]. split; try congruence; eauto.
  - by etransitivity.
  - intros x Hx. rewrite Z2; [auto|by rewrite F1].
Qed.

Lemma apply_mutation_cases g m :
  wf_topology (topology g) ->
  (exists g', apply_mutation g m = (g', Ok tt) /\ wf_topology (topology g') /\ extends g g') \/
  (exists g' e, apply_mutation g m = (g', Err e)).
Proof.
  intros Hwf. destruct m as [task|x y].
  - rewrite apply_mutation_task. destruct (contains_task _ _) eqn:E; [right; eauto|left].
    eexists. split; [done|]. assert (tasks (topology g) !! task_id task = None) as Hnew.
    { apply eq_None_not_Some. intros H%contains_task_spec. congruence. }
    split; [by apply wf_topology_add_task|]. split; simpl; try done. by apply insert_subseteq.
  - destruct (contains_task (topology g) x) eqn:Ex;
      [|right; unfold apply_mutation; rewrite Ex; eauto].
    destruct (contains_task (topology g) y) eqn:Ey;
      [|right; unfold apply_mutation; rewrite Ex, Ey; eauto].
    destruct (is_completed g x) eqn:Ec;
      [right; unfold apply_mutation; rewrite Ex, Ey, Ec; eauto|].
    destruct (decide (y ∈ default ∅ (dependencies (topology g) !! x))) as [Hin|Hin].
    { right. unfold apply_mutation. rewrite Ex, Ey, Ec, bool_decide_true by done. eauto. }
    apply contains_task_spec in Ex, Ey. apply is_completed_false in Ec.
    destruct (apply_mutation_dependency g x y) as [[Heq Hac]|(g' & p & Heq & _)]; try done.
    + intros (ds & Hds & Hy). rewrite Hds in Hin. done.
    + left. eexists. split; [done|]. split; [by apply wf_topology_with_edge|].
      split; try done.
      * intros a b Hab. apply depends_on_with_edge. by left.
      * intros a Ha. unfold with_edge. simpl. rewrite lookup_insert_ne; [done|]. by intros ->.
    + right. eauto.
Qed.

Lemma apply_mutations_cases g ms :
  wf_topology (topology g) ->
  (exists g', apply_mutations g ms = Ok g' /\ wf_topology (topology g') /\ extends g g') \/
  (exists e, apply_mutations g ms = Err e).
Proof.
  revert g. induction ms as [|m ms IH]; intros g Hwf; simpl.
  { left. eauto using extends_refl. }
  destruct (apply_mutation_cases g m Hwf) as [(g1 & -> & Hwf1 & Hext)|(g1 & e & ->)];
    [|right; by exists e].
  simpl. destruct (IH g1 Hwf1) as [(g2 & -> & Hwf2 & Hext2)|[e ->]]; [|right; by exists e].
  left. eauto using extends_trans.
Qed.

(** The commit of an accepted batch. *)
Definition committed (g candidate : WorkflowGraph) (batch : MutationBatch)
  (r : WorkflowMutationRecord) (g' : WorkflowGraph) : Prop :=
  r = {| base_revision := topology_revision g;
         resulting_revision := (topology_revision g + 1)%N; mutations := batch |} /\
  g' = {| topology := topology candidate; facts := facts g;
          topology_revision := (topology_revision g + 1)%N;
          mutation_log := mutation_log g ++ [r] |}.

Lemma prepare_batch_cases g expected batch :
  wf_topology (topology g) ->
  (exists candidate r g', prepare_batch g expected batch = Ok (g', r) /\
     expected = topology_revision g /\ batch <> [] /\ (topology_revision g < u64_max)%N /\
     apply_mutations g batch = Ok candidate /\ wf_topology (topology candidate) /\
     extends g candidate /\ committed g candidate batch r g') \/
  (exists e, prepare_batch g expected batch = Err e /\
     ((exists p, e = Cycle p) -> apply_mutations g batch = Err e)).
Proof.
  intros Hwf. unfold prepare_batch.
  destruct (N.eqb_spec expected (topology_revision g)) as [->|Hne]; simpl;
    [|right; eexists; split; [done|]; by intros [? ?]].
  destruct batch as [|m ms]; [right; eexists; split; [done|]; by intros [? ?]|].
  unfold Revision_checked_next.
  destruct (checked_succ (topology_revision g)) as [n|] eqn:En; cbn [ok_or mbind result_bind];
    [|right; eexists; split; [done|]; by intros [? ?]].
  apply checked_succ_Some in En as [Hlt ->].
  destruct (apply_mutations_cases g (m :: ms) Hwf) as [(c & Hc & Hwfc & Hext)|[e He]].
  - left. exists c, {| base_revision := topology_revision g;
      resulting_revision := (topology_revision g + 1)%N; mutations := m :: ms |}.
    eexists. rewrite Hc. cbn [mbind result_bind].
    rewrite cycle_path_acyclic by
      first [by apply wf_sources|apply grounded_acyclic, Hwfc].
    split; [reflexivity|]. split; [reflexivity|]. split; [done|]. split; [exact Hlt|].
    split; [reflexivity|]. split; [exact Hwfc|]. split; [exact Hext|].
    split; [reflexivity|]. by rewrite (ext_facts _ _ Hext), (ext_log _ _ Hext).
  - right. exists e. rewrite He. done.
Qed.

(** ** Completion *)
Lemma first_incomplete_spec g ds :
  match first_incomplete g ds with
  | Some d => d ∈ ds /\ d ∉ completed (facts g)
  | None => forall d, d ∈ ds -> d ∈ completed (facts g)
  end.
Proof.
  induction ds as [|d ds IH]; simpl; [by intros d ?%elem_of_nil|].
  destruct (is_completed g d) eqn:E.
  - apply is_completed_spec in E. destruct (first_incomplete g ds).
    + destruct IH. split; [by right|done].
    + intros e [->|?]%elem_of_cons; auto.
  - split; [by left|]. by apply is_completed_false.
Qed.

Definition completed_graph (id : Id) (g : WorkflowGraph) : WorkflowGraph :=
  with_facts {| completed := {[id]} ∪ completed (facts g);
                facts_completion_log := completion_log g ++ [{| cr_task_id := id |}] |} g.

Definition ready (g : WorkflowGraph) (id : Id) : Prop :=
  is_Some (tasks (topology g) !! id) /\ (id ∉ completed (facts g)) /\
  forall d, depends_on (topology g) id d -> d ∈ completed (facts g).

Lemma complete_ready g id :
  ready g id -> complete g id = (completed_graph id g, Ok {| cr_task_id := id |}).
Proof.
  intros (Ht & Hc & Hd). unfold complete. apply contains_task_spec in Ht.
  apply is_completed_false in Hc. rewrite Ht, Hc. cbn [negb].
  pose proof (first_incomplete_spec g (topology_dependencies (topology g) id)) as Hf.
  destruct (first_incomplete _ _) as [d|]; [|done]; destruct Hf as [Hin Hn].
  destruct Hn. by apply Hd, elem_of_topology_dependencies.
Qed.
Lemma complete_not_ready g id :
  (ready g id /\ complete g id = (completed_graph id g, Ok {| cr_task_id := id |})) \/
  (~ ready g id /\ exists e, complete g id = (g, Err e)).
Proof.
  unfold complete. destruct (contains_task (topology g) id) eqn:Et; cbn [negb].
  2:{ right. split; [|by eexists]. intros (Ht%contains_task_spec & _). congruence. }
  destruct (is_completed g id) eqn:Ec.
  { right. split; [|by eexists]. intros (_ & Hc%is_completed_false & _). congruence. }
  pose proof (first_incomplete_spec g (topology_dependencies (topology g) id)) as Hf.
  destruct (first_incomplete _ _) as [d|].
  - right. split; [|by eexists]. intros (_ & _ & Hd). destruct Hf as [Hin Hn].
    destruct Hn. by apply Hd, elem_of_topology_dependencies.
  - left. split; [|done]. split; [by apply contains_task_spec|].
    split; [by apply is_completed_false|]. intros d Hd.
    by apply Hf, elem_of_topology_dependencies.
Qed.

Lemma elem_of_ready_tasks g id : id ∈ ready_tasks g <-> ready g id.
Proof.
  unfold ready_tasks, ready. rewrite !list_elem_of_filter, elem_of_map_keys, is_completed_false.
  assert (Hall : forall ds : gset Id, forallb (is_completed g) (set_iter ds) = true <->
    forall d, d ∈ ds -> d ∈ completed (facts g)).
  { intros ds. rewrite forallb_forall. split.
    - intros H d Hd. apply is_completed_spec, H. by apply list_elem_of_In, elem_of_set_iter.
    - intros H d Hd. apply is_completed_spec, H.
      by apply elem_of_set_iter, list_elem_of_In. }
  unfold depends_on. destruct (dependencies (topology g) !! id) as [ds|] eqn:E.
  - rewrite Hall. split; [intros (?&?&?); repeat split; try done|].
    + by intros d (ds' & [= <-] & ?); auto.
    + intros (?&?&H). repeat split; try done. intros d Hd. apply H. eauto.
  - split; [intros (?&?&?); repeat split; try done|by intros (?&?&?)].
    by intros d (? & ? & _).
Qed.

(** ** Reachable graphs are well-formed *)
Lemma wf_graph_default : wf_graph WorkflowGraph_default.
Proof.
  assert (Hno : forall x y, ~ depends_on (topology WorkflowGraph_default) x y)
    by (intros x y (ds & Hds & _); simpl in Hds; by rewrite lookup_empty in Hds).
  split; split.
  - intros i x. simpl. by rewrite lookup_empty.
  - intros x y []%Hno.
  - intros x ds. simpl. by rewrite lookup_empty.
  - intros x. constructor. intros y []%Hno.
  - intros x []%elem_of_empty.
  - intros x y []%elem_of_empty.
  - apply NoDup_nil_2.
  - intros x. split; [intros []%elem_of_empty|intros []%elem_of_nil].
  - reflexivity.
  - unfold u64_ok, u64_max. simpl. unfold Revision_ZERO. lia.
Qed.

Lemma wf_graph_committed g candidate batch r g' :
  wf_graph g -> wf_topology (topology candidate) -> extends g candidate ->
  (topology_revision g < u64_max)%N -> committed g candidate batch r g' -> wf_graph g'.
Proof.
  intros [Ht [Hc1 Hc2] [L1 L2 L3 L4]] Hwf Hext Hlt [-> ->]. split; [done| |]; split; simpl.
  - intros x Hx. destruct (Hc1 x Hx) as [tk Htk]. exists tk.
    eapply lookup_weaken; [done|apply Hext].
  - intros x y Hx (ds & Hds & Hy). rewrite (ext_frozen _ _ Hext) in Hds by done.
    eapply Hc2; [done|]. by exists ds.
  - done.
  - done.
  - rewrite length_app, L3. simpl. lia.
  - unfold u64_ok. lia.
Qed.

Lemma wf_graph_completed g id : wf_graph g -> ready g id -> wf_graph (completed_graph id g).
Proof.
  intros [Ht [Hc1 Hc2] [L1 L2 L3 L4]] (Hid & Hn & Hd). split; [done| |]; split; simpl.
  - intros x [->%elem_of_singleton|Hx]%elem_of_union; auto.
  - intros x y [->%elem_of_singleton|Hx]%elem_of_union Hxy; [set_solver|].
    apply elem_of_union_r. by apply (Hc2 x).
  - unfold completion_log. simpl. rewrite fmap_app. apply NoDup_app. split; [done|].
    split; [|apply NoDup_singleton]. intros x Hx ->%list_elem_of_singleton.
    by apply Hn, L2.
  - intros x. unfold completion_log. simpl.
    rewrite elem_of_union, elem_of_singleton, fmap_app, elem_of_app, L2.
    simpl. rewrite list_elem_of_singleton. tauto.
  - done.
  - done.
Qed.

Lemma apply_batch_cases g expected batch :
  wf_graph g ->
  (exists candidate r g', apply_batch g expected batch = (g', Ok r) /\
     expected = topology_revision g /\ batch <> [] /\ (topology_revision g < u64_max)%N /\
     apply_mutations g batch = Ok candidate /\
     extends g candidate /\ committed g candidate batch r g' /\ wf_graph g') \/
  (exists e, apply_batch g expected batch = (g, Err e)).
Proof.
  intros Hwf. unfold apply_batch.
  destruct (prepare_batch_cases g expected batch (wf_graph_topology _ Hwf))
    as [(c & r & g' & -> & ? & ? & ? & ? & ? & ? & ?)|(e & -> & _)]; [|right; by exists e].
  left. exists c, r, g'. split; [done|]. do 4 (split; [done|]). do 2 (split; [done|]).
  by eapply wf_graph_committed.
Qed.

Lemma workflow_step_wf g g' : workflow_step g g' -> wf_graph g -> wf_graph g'.
Proof.
  intros [expected batch|id] Hwf.
  - destruct (apply_batch_cases g expected batch Hwf) as [(c & r & g2 & -> & H)|[e ->]]; [|done].
    apply H.
  - destruct (complete_not_ready g id) as [[? ->]|[_ [e ->]]]; [|done].
    by apply wf_graph_completed.
Qed.
Lemma workflow_reachable_wf g : workflow_reachable g -> wf_graph g.
Proof.
  apply (rtc_ind_r wf_graph WorkflowGraph_default); [apply wf_graph_default|].
  intros g1 g2 _ Hs. by apply workflow_step_wf.
Qed.
#[export] Hint Resolve workflow_reachable_wf : kernis.

(** ** Replay *)
Definition erase_facts (g : WorkflowGraph) : WorkflowGraph := with_facts ExecutionFacts_default g.

(** Mutations do not look at facts, except to freeze completed tasks. *)
Lemma apply_mutation_erase g m g' :
  apply_mutation g m = (g', Ok tt) -> apply_mutation (erase_facts g) m = (erase_facts g', Ok tt).
Proof.
  destruct m as [task|x y]; unfold apply_mutation.
  - change (contains_task (topology (erase_facts g)) (task_id task))
      with (contains_task (topology g) (task_id task)).
    destruct (contains_task _ _); [done|]. by intros [= <-].
  - change (contains_task (topology (erase_facts g))) with (contains_task (topology g)).
    change (is_completed (erase_facts g) x) with false.
    destruct (contains_task _ x), (contains_task _ y), (is_completed g x); try done.
    cbn [negb]. change (dependencies (topology (erase_facts g))) with (dependencies (topology g)).
    destruct (bool_decide _); [done|]. cbn zeta.
    set (g2 := with_dependencies _ (with_dependencies _ g)).
    change (topology (with_dependencies _ (with_dependencies _ (erase_facts g))))
      with (topology g2).
    destruct (cycle_path (topology g2)) as [[p|]|[]|s|]; try done.
    + by destruct (dependencies (topology g2) !! x).
    + by intros [= <-].
Qed.
Lemma apply_mutations_erase g ms g' :
  apply_mutations g ms = Ok g' -> apply_mutations (erase_facts g) ms = Ok (erase_facts g').
Proof.
  revert g. induction ms as [|m ms IH]; intros g; simpl; [by intros [= ->]|].
  destruct (apply_mutation g m) as [g1 r] eqn:E. intros ([] & -> & H)%bind_Ok.
  rewrite (apply_mutation_erase _ _ _ E). simpl. by apply IH.
Qed.

Lemma erase_wf g : wf_graph g -> wf_graph (erase_facts g).
Proof.
  intros [Ht _ [_ _ L3 L4]]. split; [done| |]; split; simpl.
  - intros x []%elem_of_empty.
  - intros x y []%elem_of_empty.
  - apply NoDup_nil_2.
  - intros x. split; [intros []%elem_of_empty|intros []%elem_of_nil].
  - done.
  - done.
Qed.

Lemma replay_record_committed g candidate batch r g' :
  wf_graph g -> apply_mutations g batch = Ok candidate -> extends g candidate ->
  batch <> [] -> (topology_revision g < u64_max)%N -> committed g candidate batch r g' ->
  replay_record (erase_facts g) r = Ok (erase_facts g').
Proof.
  intros Hwf Hms Hext Hne Hlt Hcom. pose proof Hcom as [-> ->].
  unfold replay_record. simpl. rewrite N.eqb_refl. cbn [negb].
  unfold Revision_checked_next, checked_succ. rewrite (proj2 (N.ltb_lt _ _) Hlt).
  cbn [ok_or mbind result_bind]. rewrite N.eqb_refl. cbn [negb].
  destruct (apply_batch_cases (erase_facts g) (topology_revision g) batch (erase_wf _ Hwf))
    as [(c & r & g2 & Heq & _ & _ & _ & Hc & _ & [-> ->] & _)|[e He]].
  - rewrite Heq. cbn [mbind result_bind].
    apply apply_mutations_erase in Hms. rewrite Hms in Hc. injection Hc as <-. done.
  - exfalso. revert He. unfold apply_batch, prepare_batch. simpl.
    rewrite N.eqb_refl. cbn [negb]. destruct batch as [|m ms]; [done|].
    unfold Revision_checked_next, checked_succ. rewrite (proj2 (N.ltb_lt _ _) Hlt).
    cbn [ok_or mbind result_bind]. rewrite (apply_mutations_erase _ _ _ Hms).
    cbn [mbind result_bind]. change (topology (erase_facts candidate)) with (topology candidate).
    destruct (apply_mutations_cases g (m :: ms) (wf_graph_topology _ Hwf))
      as [(c & Hc & Hwfc & _)|[e' He']]; [|congruence].
    rewrite Hms in Hc. injection Hc as <-.
    rewrite cycle_path_acyclic; [done|by apply wf_sources|apply grounded_acyclic, Hwfc].
Qed.

Lemma replay_completion_ready g c :
  ready g (cr_task_id c) -> replay_completion g c = Ok (completed_graph (cr_task_id c) g).
Proof. intros Hr. unfold replay_completion. by rewrite (complete_ready _ _ Hr). Qed.

(** Completions can be replayed on any later topology that kept the tasks and
    the prerequisites of the completed ones. *)
Lemma replay_completions_later l g g1 g' :
  foldM replay_completion l g = Ok g1 ->
  tasks (topology g) ⊆ tasks (topology g') ->
  (forall x, x ∈ completed (facts g1) ->
     dependencies (topology g') !! x = dependencies (topology g) !! x) ->
  facts g' = facts g ->
  foldM replay_completion l g' = Ok (with_facts (facts g1) g') /\
  completed (facts g) ⊆ completed (facts g1).
Proof.
  revert g g'. induction l as [|c l IH]; intros g g' Hl Hts Hds Hf.
  { injection Hl as <-. split; [|done]. simpl. f_equal. rewrite <- Hf. by destruct g'. }
  simpl in Hl. apply bind_Ok in Hl as (g2 & Hc & Hl). unfold replay_completion in Hc at 1.
  destruct (complete_not_ready g (cr_task_id c)) as [[Hr Heq]|[_ [e Heq]]];
    rewrite Heq in Hc; [|done]. injection Hc as <-.
  set (g2 := completed_graph (cr_task_id c) g) in *.
  assert (Hsub : completed (facts g2) ⊆ completed (facts g1)).
  { apply (IH g2 g2); done. }
  assert (Hready : ready g' (cr_task_id c)).
  { destruct Hr as (Ht & Hn & Hd). split; [|split].
    - destruct Ht as [tk Htk]. exists tk. by eapply lookup_weaken.
    - by rewrite Hf.
    - intros d (ds & Hx & Hy). rewrite Hf. apply Hd. exists ds. split; [|done].
      rewrite <- Hds; [done|]. apply Hsub. unfold g2. simpl. set_solver. }
  cbn [foldM]. rewrite (replay_completion_ready _ _ Hready). cbn [mbind result_bind].
  destruct (IH g2 (completed_graph (cr_task_id c) g')) as [Heq2 _]; try done.
  { unfold g2, completed_graph, completion_log. simpl. by rewrite Hf. }
  split; [|unfold g2 in Hsub; simpl in Hsub; set_solver]. exact Heq2.
Qed.

Definition replays (g : WorkflowGraph) : Prop :=
  replay (mutation_log g) = Ok (erase_facts g) /\
  foldM replay_completion (completion_log g) (erase_facts g) = Ok g.

Lemma workflow_reachable_replays g : workflow_reachable g -> replays g.
Proof.
  intros Hr. cut (wf_graph g /\ replays g); [tauto|]. revert g Hr.
  apply (rtc_ind_r (fun g => wf_graph g /\ replays g) WorkflowGraph_default).
  { split; [apply wf_graph_default|]. split; reflexivity. }
  intros g g' _ Hs [Hwf [Ht Hc]]. split; [by eapply workflow_step_wf|].
  destruct Hs as [expected batch|id].
  - destruct (apply_batch_cases g expected batch Hwf)
      as [(c & r & g' & -> & _ & Hne & Hlt & Hms & Hext & Hcom & _)|[e ->]]; [|done].
    split; simpl; pose proof Hcom as [Hr Hg']; subst g'; simpl.
    + unfold replay, replay_from in *. rewrite foldM_snoc, Ht. cbn [mbind result_bind].
      by eapply replay_record_committed.
    + unfold completion_log. simpl.
      edestruct (replay_completions_later (completion_log g) (erase_facts g) g) as [Heq _];
        [exact Hc| | | |rewrite Heq; reflexivity]; simpl; [apply Hext|apply Hext|done].
  - destruct (complete_not_ready g id) as [[Hrd Heq]|[_ [e ->]]]; [|done].
    rewrite Heq. simpl. split; [done|].
    unfold completion_log at 1. simpl. rewrite foldM_snoc.
    change (erase_facts (completed_graph id g)) with (erase_facts g). rewrite Hc.
    cbn [mbind result_bind]. unfold replay_completion. simpl. by rewrite Heq.
Qed.

Lemma first_incomplete_least g ds d :
  StronglySorted ord_le ds -> first_incomplete g ds = Some d ->
  forall d', d' ∈ ds -> d' ∉ completed (facts g) -> ord_le d d'.
Proof.
  induction ds as [|a ds IH]; [done|]. intros [Hs Hall]%StronglySorted_inv. simpl.
  destruct (is_completed g a) eqn:E.
  - apply is_completed_spec in E. intros Hf d' [->|Hin]%elem_of_cons Hd'; [done|by apply IH].
  - intros [= <-] d' [->|Hin]%elem_of_cons _; [reflexivity|].
    rewrite Forall_forall in Hall. by apply Hall.
Qed.

(** Some incomplete task can always be completed next. *)
Lemma grounded_ready g x :
  wf_graph g -> is_Some (tasks (topology g) !! x) -> x ∉ completed (facts g) ->
  exists y, ready g y /\ rtc (depends_on (topology g)) x y.
Proof.
  intros Hwf. induction (wf_grounded _ (wf_graph_topology _ Hwf) x) as [x _ IH]. intros Hx Hn.
  destruct (complete_not_ready g x) as [[Hr _]|[Hr _]]; [exists x; split; [done|apply rtc_refl]|].
  destruct (first_incomplete g (topology_dependencies (topology g) x)) as [d|] eqn:Ef.
  - pose proof (first_incomplete_spec g (topology_dependencies (topology g) x)) as Hf.
    rewrite Ef in Hf. destruct Hf as [Hd%elem_of_topology_dependencies Hdn].
    destruct (IH d Hd) as (y & Hy & Hdy); [by eapply wf_edges; [apply Hwf|]|done|].
    exists y. split; [done|]. by eapply rtc_l.
  - pose proof (first_incomplete_spec g (topology_dependencies (topology g) x)) as Hf.
    rewrite Ef in Hf. destruct Hr. split; [done|]. split; [done|].
    intros d Hd. by apply Hf, elem_of_topology_dependencies.
Qed.

(** ** The properties *)

(** C23: cycle detection is exact: on any topology whose dependency owners are
    tasks, the depth-first search returns (it neither panics nor runs out of
    the stated fuel); it answers [None] exactly when the dependency relation
    is acyclic, and otherwise reports a closed walk along dependency edges
    whose first identifier is repeated at its end. *)
Theorem cycle_path_correct (t : WorkflowTopology)
  (Hsrc : (dom (dependencies t) : gset Id) ⊆ dom (tasks t)) :
  (cycle_path t = Ok None <-> acyclic (depends_on t)) /\
  (~ acyclic (depends_on t) <->
     exists p, cycle_path t = Ok (Some p) /\ is_cycle (depends_on t) p).
Proof.
  destruct (cycle_path_cases t Hsrc) as [[Hcp Hg]|(p & Hcp & Hp)]; rewrite Hcp.
  - apply grounded_acyclic in Hg. split; [done|]. split; [done|].
    by intros (p & [=] & _).
  - assert (~ acyclic (depends_on t)) by (intros Hac; by eapply acyclic_no_cycle).
    split; [done|]. split; [eauto|done].
Qed.

Lemma cycle_path_correct_witness :
  let mk i := (i, {| task_id := i; label := "" |}) in
  let t := {| tasks := list_to_map [mk "a"; mk "b"];
              dependencies := {["a" := {["b"]}; "b" := {["a"]}]} |} in
  (dom (dependencies t) : gset Id) ⊆ dom (tasks t) /\
  cycle_path t = Ok (Some ["a"; "b"; "a"]) /\ ~ acyclic (depends_on t).
Proof.
  intros mk t. assert (Hsrc : (dom (dependencies t) : gset Id) ⊆ dom (tasks t)).
  { refine (bool_decide_unpack _ _). vm_compute. exact I. }
  split; [exact Hsrc|]. split; [vm_compute; reflexivity|].
  destruct (cycle_path_correct t Hsrc) as [Hiff _]. rewrite <- Hiff. vm_compute. discriminate.
Defined.

(** C26: the type invariant of every graph a client can produce: tasks are
    stored under their own identity, edges connect existing tasks, the
    dependency relation is acyclic, a completed task exists and all its
    prerequisites are completed, the completion log lists the completed tasks
    once each, and the topology revision is the number of committed batches
    and fits in 64 bits. *)
Theorem workflow_invariant (g : WorkflowGraph) (Hg : workflow_reachable g) :
  (forall i x, graph_task g i = Some x -> task_id x = i) /\
  (forall x y, depends_on (topology g) x y ->
     is_Some (graph_task g x) /\ is_Some (graph_task g y)) /\
  acyclic (depends_on (topology g)) /\
  (forall x, is_completed g x = true -> is_Some (graph_task g x) /\
     forall y, depends_on (topology g) x y -> is_completed g y = true) /\
  NoDup (cr_task_id <$> completion_log g) /\
  (forall x, is_completed g x = true <-> x ∈ cr_task_id <$> completion_log g) /\
  topology_revision g = N.of_nat (length (mutation_log g)) /\ u64_ok (topology_revision g).
Proof.
  destruct (workflow_reachable_wf g Hg) as [[Hk He Hn Ha] [Hc1 Hc2] [L1 L2 L3 L4]].
  split; [exact Hk|]. split; [exact He|]. split; [by apply grounded_acyclic|].
  split; [|split; [exact L1|split; [|split; [exact L3|exact L4]]]].
  - intros x Hx%is_completed_spec. split; [by apply Hc1|]. intros y Hxy.
    apply is_completed_spec. by apply (Hc2 x).
  - intros x. by rewrite is_completed_spec.
Qed.

(** A small history used by the witnesses: two tasks, one edge, one completion. *)
Definition sample_batch : MutationBatch :=
  [AddTask {| task_id := "a"; label := "A" |}; AddTask {| task_id := "b"; label := "B" |};
   AddDependency "b" "a"].
Definition sample_graph : WorkflowGraph :=
  (complete (apply_batch WorkflowGraph_default 0%N sample_batch).1 "a").1.
Lemma sample_reachable : workflow_reachable sample_graph.
Proof.
  eapply rtc_l; [apply (step_batch _ 0%N sample_batch)|].
  eapply rtc_l; [apply (step_complete _ "a")|]. apply rtc_refl.
Qed.

Lemma workflow_invariant_witness :
  workflow_reachable sample_graph /\
  topology_revision sample_graph = N.of_nat (length (mutation_log sample_graph)).
Proof.
  split; [apply sample_reachable|].
  destruct (workflow_invariant sample_graph sample_reachable) as (_ & _ & _ & _ & _ & _ & H & _).
  exact H.
Defined.

(** [apply_batch] on a reachable graph, branch by branch: a stale
    revision, an empty batch, an exhausted revision and a rejected operation
    (the first one, in batch order) are errors that leave the graph exactly
    as it was; otherwise the whole batch is committed: the revision advances
    by one, one record is appended, execution facts do not change, no task or
    edge is lost and completed tasks keep their prerequisites.  The final
    cycle check never rejects a batch whose operations were accepted. *)
Theorem apply_batch_spec (g : WorkflowGraph) (Hg : workflow_reachable g)
  (expected : Revision) (batch : MutationBatch) :
  (expected ≠ topology_revision g ->
     apply_batch g expected batch = (g, Err (RevisionConflict expected (topology_revision g)))) /\
  (expected = topology_revision g -> batch = [] ->
     apply_batch g expected batch = (g, Err EmptyMutationBatch)) /\
  (expected = topology_revision g -> batch ≠ [] -> topology_revision g = Revision_MAX ->
     apply_batch g expected batch = (g, Err (RevisionExhausted (topology_revision g)))) /\
  (expected = topology_revision g -> batch ≠ [] -> topology_revision g ≠ Revision_MAX ->
     (exists e, apply_mutations g batch = Err e /\ apply_batch g expected batch = (g, Err e)) \/
     (exists c r g', apply_mutations g batch = Ok c /\
        apply_batch g expected batch = (g', Ok r) /\ committed g c batch r g' /\
        tasks (topology g) ⊆ tasks (topology g') /\
        (forall x y, depends_on (topology g) x y -> depends_on (topology g') x y) /\
        (forall x, x ∈ completed (facts g) ->
           dependencies (topology g') !! x = dependencies (topology g) !! x))).
Proof.
  pose proof (workflow_reachable_wf g Hg) as Hwf.
  split; [|split; [|split]].
  - intros Hne. unfold apply_batch, prepare_batch.
    apply N.eqb_neq in Hne. by rewrite Hne.
  - intros -> ->. unfold apply_batch, prepare_batch. by rewrite N.eqb_refl.
  - intros -> Hne Hmax. unfold apply_batch, prepare_batch. rewrite N.eqb_refl. cbn [negb].
    destruct batch as [|m ms]; [done|].
    assert (Revision_checked_next (topology_revision g) = None) as -> by
      (apply checked_succ_None; [apply Hwf|done]). done.
  - intros -> Hne Hmax.
    destruct (apply_batch_cases g (topology_revision g) batch Hwf)
      as [(c & r & g' & Heq & _ & _ & _ & Hms & Hext & Hcom & _)|[e He]].
    + right. exists c, r, g'. split; [done|]. split; [done|]. split; [done|].
      destruct Hcom as [_ ->]. simpl. split; [apply Hext|]. split; apply Hext.
    + left. exists e. split; [|done]. revert He. unfold apply_batch, prepare_batch.
      rewrite N.eqb_refl. cbn [negb]. destruct batch as [|m ms]; [done|].
      assert (exists n, Revision_checked_next (topology_revision g) = Some n) as [n ->].
      { destruct (Revision_checked_next (topology_revision g)) eqn:E; [eauto|].
        apply checked_succ_None in E; [done|apply Hwf]. }
      cbn [ok_or mbind result_bind].
      destruct (apply_mutations_cases g (m :: ms) (wf_graph_topology _ Hwf))
        as [(c & -> & Hwfc & _)|[e' ->]]; cbn [mbind result_bind]; [|by intros [= ->]].
      rewrite cycle_path_acyclic; [done|by apply wf_sources|apply grounded_acyclic, Hwfc].
Qed.

Lemma apply_batch_spec_witness :
  workflow_reachable sample_graph /\
  apply_batch sample_graph 7%N sample_batch = (sample_graph, Err (RevisionConflict 7%N 1%N)).
Proof.
  split; [apply sample_reachable|].
  destruct (apply_batch_spec sample_graph sample_reachable 7%N sample_batch) as [H _].
  rewrite H by (vm_compute; discriminate). reflexivity.
Defined.

(** A dependency edge is accepted exactly when both tasks exist, the
    waiting task is not completed, the edge is new and the prerequisite does
    not already wait, directly or through others, for the task; acceptance
    adds exactly that edge.  The refusals name their cause in that order, and
    a refusal for a cycle gives the dependency map back as it was. *)
Theorem add_dependency_spec (g : WorkflowGraph) (Hg : workflow_reachable g) (x y : Id) :
  (graph_task g x = None -> apply_mutation g (AddDependency x y) = (g, Err (UnknownTask x))) /\
  (is_Some (graph_task g x) -> graph_task g y = None ->
     apply_mutation g (AddDependency x y) = (g, Err (UnknownTask y))) /\
  (is_Some (graph_task g x) -> is_Some (graph_task g y) ->
     (is_completed g x = true ->
        apply_mutation g (AddDependency x y) = (g, Err (CompletedTaskMutation x))) /\
     (is_completed g x = false -> depends_on (topology g) x y ->
        (apply_mutation g (AddDependency x y)).2 = Err (DuplicateDependency x y)) /\
     (is_completed g x = false -> ~ depends_on (topology g) x y ->
        (~ rtc (depends_on (topology g)) y x ->
           apply_mutation g (AddDependency x y) = (with_edge x y g, Ok tt)) /\
        (rtc (depends_on (topology g)) y x ->
           exists p, apply_mutation g (AddDependency x y) = (g, Err (Cycle p)) /\
             is_cycle (depends_on (topology (with_edge x y g))) p))).
Proof.
  pose proof (workflow_reachable_wf g Hg) as [Hwf _ _].
  unfold graph_task, topology_task. split; [|split].
  - intros Hx. unfold apply_mutation, contains_task. rewrite Hx.
    by rewrite bool_decide_false by (by intros [? ?]).
  - intros Hx%contains_task_spec Hy. unfold apply_mutation. rewrite Hx. cbn [negb].
    unfold contains_task. rewrite Hy. by rewrite bool_decide_false by (by intros [? ?]).
  - intros Hx Hy. apply contains_task_spec in Hx as Ex, Hy as Ey. split; [|split].
    + intros Hc. unfold apply_mutation. by rewrite Ex, Ey, Hc.
    + intros Hc (ds & Hds & Hin). unfold apply_mutation. rewrite Ex, Ey, Hc, Hds. cbn [negb].
      by rewrite bool_decide_true.
    + intros Hc%is_completed_false Hno.
      pose proof (with_edge_acyclic g x y (grounded_acyclic _ (wf_grounded _ Hwf))) as Hiff.
      split; intros Hr.
      * destruct (apply_mutation_dependency g x y Hwf Hx Hy Hc Hno) as [[-> _]|(g' & p & _ & Hp)];
          [done|]. apply Hiff in Hr. by apply acyclic_no_cycle in Hp.
      * destruct (apply_mutation_dependency g x y Hwf Hx Hy Hc Hno)
          as [[_ Hac]|(g' & p & Heq & Hp)]; [by apply Hiff in Hac|].
        exists p. split; [|done]. rewrite Heq. f_equal.
        by eapply apply_mutation_cycle_restores.
Qed.

Lemma add_dependency_spec_witness :
  workflow_reachable sample_graph /\
  (is_Some (graph_task sample_graph "b") /\ is_Some (graph_task sample_graph "a") /\
   is_completed sample_graph "b" = false /\ depends_on (topology sample_graph) "b" "a") /\
  (apply_mutation sample_graph (AddDependency "b" "a")).2 = Err (DuplicateDependency "b" "a").
Proof.
  assert (Hd : depends_on (topology sample_graph) "b" "a")
    by (apply elem_of_topology_dependencies; vm_compute; left).
  split; [apply sample_reachable|].
  split; [split; [eexists; vm_compute; reflexivity|];
    split; [eexists; vm_compute; reflexivity|]; split; [reflexivity|exact Hd]|].
  destruct (add_dependency_spec sample_graph sample_reachable "b" "a") as (_ & _ & H).
  destruct H as (_ & H & _); [eexists; vm_compute; reflexivity..|].
  by apply H.
Defined.

(** [complete], branch by branch: an absent task, a task already
    completed and a task with unfinished prerequisites (reporting the least
    unfinished one in identifier order) are errors that change nothing; in
    every other case the completion is recorded once, in the set and at the
    end of the log, and the topology and its revision do not change. *)
Theorem complete_spec (g : WorkflowGraph) (id : Id) :
  (graph_task g id = None -> complete g id = (g, Err (UnknownTask id))) /\
  (is_Some (graph_task g id) -> is_completed g id = true ->
     complete g id = (g, Err (TaskAlreadyCompleted id))) /\
  (is_Some (graph_task g id) -> is_completed g id = false ->
     (exists d, depends_on (topology g) id d /\ is_completed g d = false) ->
     exists d, complete g id = (g, Err (IncompletePrerequisite id d)) /\
       depends_on (topology g) id d /\ is_completed g d = false /\
       forall d', depends_on (topology g) id d' -> is_completed g d' = false -> ord_le d d') /\
  (is_Some (graph_task g id) -> is_completed g id = false ->
     (forall d, depends_on (topology g) id d -> is_completed g d = true) ->
     let g' := (complete g id).1 in
     (complete g id).2 = Ok {| cr_task_id := id |} /\ is_completed g' id = true /\
     (forall x, x ≠ id -> is_completed g' x = is_completed g x) /\
     completion_log g' = completion_log g ++ [{| cr_task_id := id |}] /\
     topology g' = topology g /\ topology_revision g' = topology_revision g /\
     mutation_log g' = mutation_log g).
Proof.
  unfold graph_task, topology_task. split; [|split; [|split]].
  - intros Hx. unfold complete, contains_task. rewrite Hx.
    by rewrite bool_decide_false by (by intros [? ?]).
  - intros Hx%contains_task_spec Hc. unfold complete. by rewrite Hx, Hc.
  - intros Hx%contains_task_spec Hc (d & Hd%elem_of_topology_dependencies & Hn).
    unfold complete. rewrite Hx, Hc. cbn [negb].
    pose proof (first_incomplete_spec g (topology_dependencies (topology g) id)) as Hf.
    destruct (first_incomplete _ _) as [e|] eqn:Ee.
    + exists e. destruct Hf as [He Hen]. split; [done|].
      split; [by apply elem_of_topology_dependencies|]. split; [by apply is_completed_false|].
      intros d' Hd'%elem_of_topology_dependencies Hn'%is_completed_false.
      eapply first_incomplete_least; [|exact Ee|done|done].
      unfold topology_dependencies. destruct (dependencies (topology g) !! id);
        [apply StronglySorted_set_iter|constructor].
    + apply Hf, is_completed_spec in Hd. congruence.
  - intros Hx Hc Hd. cbn zeta.
    assert (Hr : ready g id).
    { split; [done|]. split; [by apply is_completed_false|].
      intros d Hxd. by apply is_completed_spec, Hd. }
    rewrite (complete_ready _ _ Hr). simpl. split; [done|].
    split; [apply is_completed_spec; simpl; set_solver|].
    split; [|done]. intros x Hne. destruct (is_completed g x) eqn:E.
    + apply is_completed_spec in E. apply is_completed_spec. simpl. set_solver.
    + apply is_completed_false in E. apply is_completed_false. simpl. set_solver.
Qed.

Lemma complete_spec_witness :
  (exists d, depends_on (topology sample_graph) "b" d /\
     is_completed WorkflowGraph_default d = false) /\
  complete WorkflowGraph_default "b" = (WorkflowGraph_default, Err (UnknownTask "b")).
Proof.
  split.
  - exists "a". split; [apply elem_of_topology_dependencies; vm_compute; left|reflexivity].
  - destruct (complete_spec WorkflowGraph_default "b") as [H _]. apply H. reflexivity.
Defined.

(** C31: the scheduler view is exact and makes progress: [ready_tasks] lists,
    without duplicates and in identifier order, exactly the tasks whose
    completion [complete] accepts now; and in every reachable graph with an
    unfinished task some task is ready (the workflow cannot deadlock). *)
Theorem ready_tasks_correct (g : WorkflowGraph) (Hg : workflow_reachable g) :
  NoDup (ready_tasks g) /\ StronglySorted ord_le (ready_tasks g) /\
  (forall id, id ∈ ready_tasks g <-> exists r, (complete g id).2 = Ok r) /\
  ((exists id, is_Some (graph_task g id) /\ is_completed g id = false) -> ready_tasks g <> []).
Proof.
  pose proof (workflow_reachable_wf g Hg) as Hwf. split; [|split; [|split]].
  - unfold ready_tasks. apply NoDup_filter, NoDup_filter, NoDup_map_keys.
  - unfold ready_tasks. apply StronglySorted_filter, StronglySorted_filter.
    apply StronglySorted_set_iter.
  - intros id. rewrite elem_of_ready_tasks.
    destruct (complete_not_ready g id) as [[Hr ->]|[Hr [e ->]]]; cbn [snd].
    + split; [eauto|done].
    + split; [by intros ?%Hr|by intros [? [=]]].
  - intros (id & Hid & Hn%is_completed_false) Hnil.
    destruct (grounded_ready g id Hwf Hid Hn) as (y & Hy%elem_of_ready_tasks & _).
    rewrite Hnil in Hy. by apply elem_of_nil in Hy.
Qed.

Lemma ready_tasks_correct_witness :
  workflow_reachable sample_graph /\ ready_tasks sample_graph = ["b"] /\
  StronglySorted ord_le (ready_tasks sample_graph).
Proof.
  split; [apply sample_reachable|]. split; [vm_compute; reflexivity|].
  destruct (ready_tasks_correct sample_graph sample_reachable) as (_ & H & _). exact H.
Defined.

(** C16: replay is a round trip: from an empty workflow, the mutation log of
    any reachable graph followed by its completion log rebuilds that graph
    exactly (topology, facts, revision and logs), although completions were
    originally interleaved with topology changes; the mutation log alone
    rebuilds it without its execution facts. *)
Theorem replay_reconstructs (g : WorkflowGraph) (Hg : workflow_reachable g) :
  replay_with_facts (mutation_log g) (completion_log g) = Ok g /\
  replay (mutation_log g) = Ok (with_facts ExecutionFacts_default g).
Proof.
  destruct (workflow_reachable_replays g Hg) as [Ht Hc]. split; [|done].
  unfold replay_with_facts. by rewrite Ht.
Qed.

Lemma replay_reconstructs_witness :
  workflow_reachable sample_graph /\ length (mutation_log sample_graph) = 1 /\
  replay_with_facts (mutation_log sample_graph) (completion_log sample_graph) = Ok sample_graph.
Proof.
  split; [apply sample_reachable|]. split; [reflexivity|].
  destruct (replay_reconstructs sample_graph sample_reachable) as [H _]. exact H.
Defined.
