(* ===== verification/Effects.v ===== *)
(** * Effect facts and recovery decisions: [crates/workflow-recovery/src/model.rs]

    The durable facts about one external side effect (intent, dispatch,
    outcome), the knowledge derived from them and the decisions of recovery.
    The newtypes [OperationId] and [AttemptId] are represented, like [Id], by
    their text.  A constructor that Rust qualifies with its enum and that
    clashes with another one carries a prefix here. *)
From S2P Require Export KernisCore.
#[local] Open Scope string_scope.
#[local] Open Scope list_scope.

Definition OperationId : Set := Id.
Definition AttemptId : Set := Id.
Definition OperationId_new (value : string) : result InvalidId OperationId := Id_new value.
Definition OperationId_as_str (o : OperationId) : string := Id_as_str o.
Definition OperationId_display (o : OperationId) : string := Id_display o.
Definition AttemptId_new (value : string) : result InvalidId AttemptId := Id_new value.
Definition AttemptId_as_str (a : AttemptId) : string := Id_as_str a.
Definition AttemptId_display (a : AttemptId) : string := Id_display a.
#[export] Instance OperationId_eq_dec : EqDecision OperationId := String.eq_dec.
#[export] Instance AttemptId_eq_dec : EqDecision AttemptId := String.eq_dec.

Inductive EffectSemantics := Idempotent | NonIdempotent.
#[export] Instance EffectSemantics_eq_dec : EqDecision EffectSemantics.
Proof. solve_decision. Defined.

Record EffectIntent := {
  intent_task_id : Id;
  intent_operation_id : OperationId;
  semantics : EffectSemantics
}.
#[export] Instance EffectIntent_eq_dec : EqDecision EffectIntent.
Proof. solve_decision. Defined.

Record DispatchRecord := {
  dispatch_operation_id : OperationId;
  dispatch_attempt_id : AttemptId
}.
#[export] Instance DispatchRecord_eq_dec : EqDecision DispatchRecord.
Proof. solve_decision. Defined.

Inductive KnownEffectOutcome := Succeeded | Failed.
#[export] Instance KnownEffectOutcome_eq_dec : EqDecision KnownEffectOutcome.
Proof. solve_decision. Defined.

Record OutcomeRecord := {
  outcome_operation_id : OperationId;
  outcome_attempt_id : AttemptId;
  outcome : KnownEffectOutcome
}.
#[export] Instance OutcomeRecord_eq_dec : EqDecision OutcomeRecord.
Proof. solve_decision. Defined.

Inductive RecoveredEffectState :=
  | NotPrepared
  | Prepared
  | OutcomeKnown (o : KnownEffectOutcome)
  | OutcomeUnknown.
#[export] Instance RecoveredEffectState_eq_dec : EqDecision RecoveredEffectState.
Proof. solve_decision. Defined.

Inductive RecoveryAction :=
  | Execute
  | RetrySameOperation
  | CompleteWithoutReexecution
  | Reconcile
  | NoAction
  | ObserveFailure
  | ActionInvariantViolation.
#[export] Instance RecoveryAction_eq_dec : EqDecision RecoveryAction.
Proof. solve_decision. Defined.

Inductive RecoveryReason :=
  | PreparedNotDispatched (operation_id : OperationId)
  | IdempotentOutcomeUnknown (operation_id : OperationId) (attempt_id : AttemptId)
  | NonIdempotentOutcomeUnknown (operation_id : OperationId) (attempt_id : AttemptId)
  | KnownSuccess (operation_id : OperationId) (attempt_id : AttemptId)
  | KnownFailure (operation_id : OperationId) (attempt_id : AttemptId)
  | WorkflowAlreadyCompleted (operation_id : OperationId) (task_id : Id)
  | ReasonWorkflowStateMismatch (operation_id : OperationId) (task_id : Id)
      (state : RecoveredEffectState)
  | ReasonNotPrepared (operation_id : OperationId).
#[export] Instance RecoveryReason_eq_dec : EqDecision RecoveryReason.
Proof. solve_decision. Defined.

Record RecoveryDecision := { action : RecoveryAction; reason : RecoveryReason }.
#[export] Instance RecoveryDecision_eq_dec : EqDecision RecoveryDecision.
Proof. solve_decision. Defined.

Definition RecoveryAction_display (a : RecoveryAction) : string :=
  match a with
  | Execute => "execute"
  | RetrySameOperation => "retry-same-operation"
  | CompleteWithoutReexecution => "complete-without-reexecution"
  | Reconcile => "reconcile"
  | NoAction => "no-action"
  | ObserveFailure => "observe-failure"
  | ActionInvariantViolation => "invariant-violation"
  end.

(** The derived [Debug] texts that the error messages contain. *)
Definition KnownEffectOutcome_debug (o : KnownEffectOutcome) : string :=
  match o with Succeeded => "Succeeded" | Failed => "Failed" end.
Definition RecoveredEffectState_debug (s : RecoveredEffectState) : string :=
  match s with
  | NotPrepared => "NotPrepared"
  | Prepared => "Prepared"
  | OutcomeKnown o => "OutcomeKnown(" +:+ KnownEffectOutcome_debug o +:+ ")"
  | OutcomeUnknown => "OutcomeUnknown"
  end.
