(* ===== verification/Journal.v ===== *)
(** * The durable journal: [crates/workflow-recovery/src/journal.rs]

    Admission of intents, dispatches and outcomes, and the queries recovery
    makes.  Every operation returns its errors before its first write, so an
    operation is a function to the new journal or to the error, and an error
    leaves the journal as it was.  [DurableJournal::from_durable_state] is in
    [JournalView], after the durable state. *)
From S2P Require Export Effects.
#[local] Open Scope string_scope.
#[local] Open Scope list_scope.

Inductive JournalInvariant := Reserved.
#[export] Instance JournalInvariant_eq_dec : EqDecision JournalInvariant.
Proof. solve_decision. Defined.
Inductive JournalError :=
  | UnknownOperation (o : OperationId)
  | DuplicateIntent (o : OperationId)
  | DispatchWithoutIntent (o : OperationId)
  | JournalTaskOperationConflict (task_id : Id)
      (existing_operation attempted_operation : OperationId)
  | DuplicateAttempt (operation_id : OperationId) (attempt_id : AttemptId)
  | JournalOutcomeWithoutDispatch (operation_id : OperationId) (attempt_id : AttemptId)
  | AttemptMismatch (operation_id : OperationId) (attempt_id : AttemptId)
      (dispatched_for : OperationId)
  | JournalConflictingOutcome (operation_id : OperationId) (attempt_id : AttemptId)
      (existing attempted : KnownEffectOutcome)
  | JournalInvariantViolation (i : JournalInvariant)
  | WorkflowStateMismatch (operation_id : OperationId) (task_id : Id)
      (state : RecoveredEffectState).
#[export] Instance JournalError_eq_dec : EqDecision JournalError.
Proof. solve_decision. Defined.

Definition JournalInvariant_display (i : JournalInvariant) : string :=
  match i with Reserved => "reserved journal invariant" end.
Definition JournalError_display (e : JournalError) : string :=
  match e with
  | UnknownOperation o => "unknown operation: " +:+ OperationId_display o
  | DuplicateIntent o => "duplicate effect intent: " +:+ OperationId_display o
  | DispatchWithoutIntent o => "dispatch without effect intent: " +:+ OperationId_display o
  | JournalTaskOperationConflict t ex at_ =>
      "task " +:+ Id_display t +:+ " already belongs to operation " +:+ OperationId_display ex
      +:+ "; cannot assign " +:+ OperationId_display at_
  | DuplicateAttempt o a =>
      "duplicate attempt " +:+ AttemptId_display a +:+ " for operation " +:+ OperationId_display o
  | JournalOutcomeWithoutDispatch o a =>
      "outcome without dispatch: operation " +:+ OperationId_display o
      +:+ ", attempt " +:+ AttemptId_display a
  | AttemptMismatch o a d =>
      "attempt " +:+ AttemptId_display a +:+ " belongs to " +:+ OperationId_display d
      +:+ ", not " +:+ OperationId_display o
  | JournalConflictingOutcome o a ex at_ =>
      "conflicting outcome for operation " +:+ OperationId_display o
      +:+ ", attempt " +:+ AttemptId_display a +:+ ": "
      +:+ KnownEffectOutcome_debug ex +:+ " versus " +:+ KnownEffectOutcome_debug at_
  | JournalInvariantViolation i =>
      "journal invariant violation: " +:+ JournalInvariant_display i
  | WorkflowStateMismatch o t s =>
      "workflow state mismatch for operation " +:+ OperationId_display o
      +:+ ", task " +:+ Id_display t +:+ ": " +:+ RecoveredEffectState_debug s
  end.

(** ** State *)
Record DurableJournal := {
  journal_intents : gmap OperationId EffectIntent;
  journal_task_operations : gmap Id OperationId;
  journal_dispatches : gmap AttemptId DispatchRecord;
  operation_attempts : gmap OperationId (list AttemptId);
  journal_outcomes : gmap AttemptId OutcomeRecord
}.
#[export] Instance DurableJournal_eq_dec : EqDecision DurableJournal.
Proof. solve_decision. Defined.
Definition DurableJournal_new : DurableJournal :=
  {| journal_intents := ∅; journal_task_operations := ∅; journal_dispatches := ∅;
     operation_attempts := ∅; journal_outcomes := ∅ |}.

(** ** Operations *)
Definition persist_intent (j : DurableJournal) (intent : EffectIntent) :
  result JournalError DurableJournal :=
  if bool_decide (is_Some (journal_intents j !! intent_operation_id intent))
  then Err (DuplicateIntent (intent_operation_id intent))
  else match journal_task_operations j !! intent_task_id intent with
  | Some existing_operation =>
      Err (JournalTaskOperationConflict (intent_task_id intent) existing_operation
             (intent_operation_id intent))
  | None =>
      Ok {| journal_task_operations :=
              <[intent_task_id intent := intent_operation_id intent]> (journal_task_operations j);
            journal_intents := <[intent_operation_id intent := intent]> (journal_intents j);
            journal_dispatches := journal_dispatches j;
            operation_attempts := operation_attempts j;
            journal_outcomes := journal_outcomes j |}
  end.

Definition persist_dispatch (j : DurableJournal) (dispatch : DispatchRecord) :
  result JournalError DurableJournal :=
  let o := dispatch_operation_id dispatch in
  let a := dispatch_attempt_id dispatch in
  if negb (bool_decide (is_Some (journal_intents j !! o))) then Err (DispatchWithoutIntent o)
  else if bool_decide (is_Some (journal_dispatches j !! a)) then Err (DuplicateAttempt o a)
  else
    let attempts := default [] (operation_attempts j !! o) in
    Ok {| journal_intents := journal_intents j;
          journal_task_operations := journal_task_operations j;
          journal_dispatches := <[a := dispatch]> (journal_dispatches j);
          operation_attempts := <[o := attempts ++ [a]]> (operation_attempts j);
          journal_outcomes := journal_outcomes j |}.

Definition persist_outcome (j : DurableJournal) (record : OutcomeRecord) :
  result JournalError DurableJournal :=
  let o := outcome_operation_id record in
  let a := outcome_attempt_id record in
  if negb (bool_decide (is_Some (journal_intents j !! o))) then Err (UnknownOperation o)
  else match journal_dispatches j !! a with
  | None => Err (JournalOutcomeWithoutDispatch o a)
  | Some dispatch =>
      if negb (bool_decide (dispatch_operation_id dispatch = o))
      then Err (AttemptMismatch o a (dispatch_operation_id dispatch))
      else match journal_outcomes j !! a with
      | Some existing =>
          if bool_decide (outcome existing = outcome record) then Ok j
          else Err (JournalConflictingOutcome o a (outcome existing) (outcome record))
      | None =>
          Ok {| journal_intents := journal_intents j;
                journal_task_operations := journal_task_operations j;
                journal_dispatches := journal_dispatches j;
                operation_attempts := operation_attempts j;
                journal_outcomes := <[a := record]> (journal_outcomes j) |}
      end
  end.

(** ** Queries *)
Definition journal_intent (j : DurableJournal) (o : OperationId) :
  result JournalError EffectIntent :=
  ok_or (journal_intents j !! o) (UnknownOperation o).
Definition journal_operation_for_task (j : DurableJournal) (t : Id) : option OperationId :=
  journal_task_operations j !! t.
Definition journal_latest_dispatch (j : DurableJournal) (o : OperationId) :
  option DispatchRecord :=
  attempts ← operation_attempts j !! o; a ← last attempts; journal_dispatches j !! a.
Definition known_outcome (j : DurableJournal) (o : OperationId) : option OutcomeRecord :=
  attempts ← operation_attempts j !! o; a ← last attempts; journal_outcomes j !! a.
Definition journal_state (j : DurableJournal) (o : OperationId) : RecoveredEffectState :=
  if negb (bool_decide (is_Some (journal_intents j !! o))) then NotPrepared
  else match known_outcome j o with
  | Some record => OutcomeKnown (outcome record)
  | None => match journal_latest_dispatch j o with Some _ => OutcomeUnknown | None => Prepared end
  end.
Definition journal_operation_ids (j : DurableJournal) : gset OperationId :=
  dom (journal_intents j).

(** ** Runs

    The facts a client persists, and the journal they build. *)
Inductive JournalFact :=
  | FactIntent (i : EffectIntent)
  | FactDispatch (d : DispatchRecord)
  | FactOutcome (r : OutcomeRecord).
Definition persist (j : DurableJournal) (f : JournalFact) : result JournalError DurableJournal :=
  match f with
  | FactIntent i => persist_intent j i
  | FactDispatch d => persist_dispatch j d
  | FactOutcome r => persist_outcome j r
  end.
Definition persist_all (fs : list JournalFact) : result JournalError DurableJournal :=
  foldM persist fs DurableJournal_new.

(** *** The abstract journal: the log of the accepted facts *)
Definition log_intents (fs : list JournalFact) : list EffectIntent :=
  omap (fun f => match f with FactIntent i => Some i | _ => None end) fs.
Definition log_dispatches (fs : list JournalFact) : list DispatchRecord :=
  omap (fun f => match f with FactDispatch d => Some d | _ => None end) fs.
Definition log_outcomes (fs : list JournalFact) : list OutcomeRecord :=
  omap (fun f => match f with FactOutcome r => Some r | _ => None end) fs.
Definition log_intent (fs : list JournalFact) (o : OperationId) : option EffectIntent :=
  head (filter (fun i => intent_operation_id i = o) (log_intents fs)).
Definition log_owner (fs : list JournalFact) (t : Id) : option OperationId :=
  intent_operation_id <$> head (filter (fun i => intent_task_id i = t) (log_intents fs)).
Definition log_latest (fs : list JournalFact) (o : OperationId) : option DispatchRecord :=
  last (filter (fun d => dispatch_operation_id d = o) (log_dispatches fs)).
Definition log_outcome (fs : list JournalFact) (a : AttemptId) : option OutcomeRecord :=
  head (filter (fun r => outcome_attempt_id r = a) (log_outcomes fs)).
(** What recovery may know about an operation: the intent, then the outcome
    of its last dispatch. *)
Definition log_state (fs : list JournalFact) (o : OperationId) : RecoveredEffectState :=
  match log_intent fs o, log_latest fs o with
  | None, _ => NotPrepared
  | Some _, None => Prepared
  | Some _, Some d =>
      match log_outcome fs (dispatch_attempt_id d) with
      | Some r => OutcomeKnown (outcome r)
      | None => OutcomeUnknown
      end
  end.
