(* ===== verification/JournalFacts.v ===== *)
(** * Facts about the durable journal

    The journal is the set of indexes over the log of the facts it accepted:
    the invariant [journal_of_log] ties every map to the log, and the queries
    are functions of the log. *)
From S2P Require Export Journal.
#[local] Open Scope string_scope.
#[local] Open Scope list_scope.

Record journal_of_log (fs : list JournalFact) (j : DurableJournal) : Prop := {
  jl_intents o : journal_intents j !! o = log_intent fs o;
  jl_owners t : journal_task_operations j !! t = log_owner fs t;
  jl_dispatches a : journal_dispatches j !! a =
    head (filter (fun d => dispatch_attempt_id d = a) (log_dispatches fs));
  jl_attempts o : default [] (operation_attempts j !! o) =
    dispatch_attempt_id <$> filter (fun d => dispatch_operation_id d = o) (log_dispatches fs);
  jl_outcomes a : journal_outcomes j !! a = log_outcome fs a;
  jl_unique_attempts : NoDup (dispatch_attempt_id <$> log_dispatches fs);
  jl_dispatch_intent d : d ∈ log_dispatches fs ->
    is_Some (log_intent fs (dispatch_operation_id d));
  jl_outcome_dispatch r : r ∈ log_outcomes fs -> exists d, d ∈ log_dispatches fs /\
    dispatch_attempt_id d = outcome_attempt_id r /\
    dispatch_operation_id d = outcome_operation_id r;
  jl_outcome_agree r r' : r ∈ log_outcomes fs -> r' ∈ log_outcomes fs ->
    outcome_attempt_id r = outcome_attempt_id r' -> r = r'
}.

Lemma log_intents_snoc fs f :
  log_intents (fs ++ [f]) = log_intents fs ++ match f with FactIntent i => [i] | _ => [] end.
Proof. unfold log_intents. rewrite omap_app. by destruct f. Qed.
Lemma log_dispatches_snoc fs f :
  log_dispatches (fs ++ [f]) =
  log_dispatches fs ++ match f with FactDispatch d => [d] | _ => [] end.
Proof. unfold log_dispatches. rewrite omap_app. by destruct f. Qed.
Lemma log_outcomes_snoc fs f :
  log_outcomes (fs ++ [f]) =
  log_outcomes fs ++ match f with FactOutcome r => [r] | _ => [] end.
Proof. unfold log_outcomes. rewrite omap_app. by destruct f. Qed.

Ltac log_snoc :=
  unfold log_intent, log_owner, log_latest, log_outcome in *;
  rewrite ?log_intents_snoc, ?log_dispatches_snoc, ?log_outcomes_snoc, ?app_nil_r in *.

Lemma journal_of_log_nil : journal_of_log [] DurableJournal_new.
Proof.
  split; try done; try apply NoDup_nil_2; intros *; simpl; try (by intros ?%elem_of_nil).
Qed.

Section steps.
Context (fs : list JournalFact) (j j' : DurableJournal) (Hj : journal_of_log fs j).

Lemma journal_of_log_intent i :
  persist_intent j i = Ok j' -> journal_of_log (fs ++ [FactIntent i]) j'.
Proof.
  destruct Hj as [Hi Ho Hd Ha Hr Hnd Hdi Hod Hag]. unfold persist_intent.
  case_bool_decide as Hk; [done|]. rewrite <- eq_None_not_Some in Hk.
  destruct (journal_task_operations j !! intent_task_id i) eqn:Ht; [done|].
  intros [= <-]. split; simpl; log_snoc; try done.
  - intros o. rewrite head_filter_snoc, <- Hi.
    destruct (decide (intent_operation_id i = o)) as [<-|Hne];
      simplify_map_eq; [done|by destruct (_ !! o)].
  - intros t. rewrite head_filter_snoc. specialize (Ho t).
    destruct (decide (intent_task_id i = t)) as [<-|Hne]; simplify_map_eq.
    + rewrite Ht in Ho. by destruct (head _).
    + rewrite Ho. by destruct (head _).
  - intros d Hin. rewrite head_filter_snoc. by destruct (Hdi d Hin) as [? ->].
Qed.

Lemma journal_of_log_dispatch d :
  persist_dispatch j d = Ok j' -> journal_of_log (fs ++ [FactDispatch d]) j'.
Proof.
  destruct Hj as [Hi Ho Hd Ha Hr Hnd Hdi Hod Hag]. unfold persist_dispatch.
  case_bool_decide as Hk; [|done]. simpl.
  case_bool_decide as Hk2; [done|]. rewrite <- eq_None_not_Some in Hk2.
  intros [= <-].
  assert (Hfresh : forall d', d' ∈ log_dispatches fs ->
    dispatch_attempt_id d' <> dispatch_attempt_id d).
  { rewrite Hd, head_filter_None in Hk2. done. }
  split; simpl; log_snoc; try done.
  - intros a. rewrite head_filter_snoc, <- Hd.
    destruct (decide (dispatch_attempt_id d = a)) as [<-|Hne];
      simplify_map_eq; [done|by destruct (_ !! a)].
  - intros o. rewrite filter_app, filter_cons, filter_nil, fmap_app, <- Ha.
    destruct (decide (dispatch_operation_id d = o)) as [<-|Hne]; simplify_map_eq; [done|].
    by rewrite app_nil_r.
  - rewrite fmap_app. apply NoDup_app. split_and!; [done| |apply NoDup_singleton].
    intros a (d' & -> & Hd')%list_elem_of_fmap. simpl.
    rewrite list_elem_of_singleton. by apply Hfresh.
  - intros d' [Hin|Hin]%elem_of_app; [by apply Hdi|].
    apply list_elem_of_singleton in Hin as ->. by rewrite <- Hi.
  - intros r Hin. destruct (Hod r Hin) as (d' & ? & ?). exists d'.
    rewrite elem_of_app. eauto.
Qed.

Lemma journal_of_log_outcome r :
  persist_outcome j r = Ok j' -> journal_of_log (fs ++ [FactOutcome r]) j'.
Proof.
  pose proof Hj as [Hi Ho Hd Ha Hr Hnd Hdi Hod Hag]. unfold persist_outcome.
  case_bool_decide as Hk; [|done]. simpl.
  destruct (journal_dispatches j !! outcome_attempt_id r) as [d|] eqn:Ed; [|done].
  case_bool_decide as Ho2; [|done]. simpl.
  rewrite Hd in Ed. apply head_filter_Some in Ed as [Hin Hatt].
  destruct (journal_outcomes j !! outcome_attempt_id r) as [r0|] eqn:Er.
  - case_bool_decide as Heq; [|done]. intros [= <-].
    assert (r0 = r) as ->.
    { rewrite Hr in Er. apply head_filter_Some in Er as [Hin0 Hat0].
      destruct (Hod r0 Hin0) as (d0 & Hd0 & Ha0 & Hop0).
      assert (d0 = d) as ->.
      { apply (head_filter_key dispatch_attempt_id) in Hin; [|done].
        apply (head_filter_key dispatch_attempt_id) in Hd0; [|done].
        rewrite Ha0, Hat0, <- Hatt in Hd0. congruence. }
      destruct r0, r; simpl in *. by subst. }
    split; simpl; log_snoc; try done.
    + intros a. rewrite head_filter_snoc, <- Hr. destruct (_ !! a) eqn:Ea; [done|].
      case_decide; [congruence|done].
    + intros r' [Hr'|Hr']%elem_of_app; [by apply Hod|].
      apply list_elem_of_singleton in Hr' as ->. eauto.
    + rewrite Hr in Er. apply head_filter_Some in Er as [Hin0 _].
      intros r1 r2 [H1|H1]%elem_of_app [H2|H2]%elem_of_app; try (by apply Hag);
        try apply list_elem_of_singleton in H1 as ->;
        try apply list_elem_of_singleton in H2 as ->; try done; by apply Hag.
  - intros [= <-]. split; simpl; log_snoc; try done.
    + intros a. rewrite head_filter_snoc, <- Hr.
      destruct (decide (outcome_attempt_id r = a)) as [<-|Hne];
        simplify_map_eq; [done|by destruct (_ !! a)].
    + intros r' [Hr'|Hr']%elem_of_app; [by apply Hod|].
      apply list_elem_of_singleton in Hr' as ->. eauto.
    + rewrite Hr, head_filter_None in Er.
      intros r1 r2 [H1|H1]%elem_of_app [H2|H2]%elem_of_app Heq; try (by apply Hag);
        try apply list_elem_of_singleton in H1 as ->;
        try apply list_elem_of_singleton in H2 as ->; try done; exfalso.
      * by apply (Er r1).
      * by apply (Er r2).
Qed.
End steps.

(** A journal built through its admission API is the index of its log. *)
Lemma persist_all_log fs j : persist_all fs = Ok j -> journal_of_log fs j.
Proof.
  unfold persist_all. revert j. induction fs as [|f fs IH] using rev_ind; intros j.
  { intros [= <-]. apply journal_of_log_nil. }
  rewrite foldM_snoc. intros (j1 & Hj1 & Hf)%bind_Ok. destruct f; simpl in Hf.
  - eapply journal_of_log_intent; [by apply IH|done].
  - eapply journal_of_log_dispatch; [by apply IH|done].
  - eapply journal_of_log_outcome; [by apply IH|done].
Qed.

(** ** Queries *)
Section queries.
Context (fs : list JournalFact) (j : DurableJournal) (Hj : journal_of_log fs j).

Lemma journal_dispatch_of_log d :
  d ∈ log_dispatches fs -> journal_dispatches j !! dispatch_attempt_id d = Some d.
Proof.
  intros Hd. rewrite (jl_dispatches _ _ Hj).
  apply (head_filter_key dispatch_attempt_id); [apply Hj|done].
Qed.
Lemma journal_latest_attempt o :
  (operation_attempts j !! o ≫= last) = dispatch_attempt_id <$> log_latest fs o.
Proof.
  pose proof (jl_attempts _ _ Hj o) as Ha. unfold log_latest. rewrite <- fmap_last, <- Ha.
  by destruct (operation_attempts j !! o).
Qed.
Lemma journal_latest_dispatch_log o : journal_latest_dispatch j o = log_latest fs o.
Proof.
  pose proof (journal_latest_attempt o) as Ha. unfold journal_latest_dispatch.
  destruct (operation_attempts j !! o) as [l|]; simpl in *; [|by destruct (log_latest fs o)].
  rewrite Ha. destruct (log_latest fs o) as [d|] eqn:E; simpl; [|done].
  apply last_filter_Some in E as [Hd _]. by apply journal_dispatch_of_log.
Qed.
Lemma known_outcome_log o :
  known_outcome j o = d ← log_latest fs o; log_outcome fs (dispatch_attempt_id d).
Proof.
  pose proof (journal_latest_attempt o) as Ha. unfold known_outcome.
  destruct (operation_attempts j !! o) as [l|]; simpl in *; [|by destruct (log_latest fs o)].
  rewrite Ha. destruct (log_latest fs o) as [d|] eqn:E; simpl; [|done]. apply Hj.
Qed.
Lemma journal_intent_is_Some o :
  bool_decide (is_Some (journal_intents j !! o)) = true <-> is_Some (log_intent fs o).
Proof. by rewrite bool_decide_eq_true, (jl_intents _ _ Hj). Qed.
Lemma journal_state_log o : journal_state j o = log_state fs o.
Proof.
  unfold journal_state, log_state.
  rewrite (jl_intents _ _ Hj), known_outcome_log, journal_latest_dispatch_log.
  destruct (log_intent fs o); simpl; [|done].
  destruct (log_latest fs o) as [d|]; simpl; [|done].
  by destruct (log_outcome fs _).
Qed.
End queries.

(** Refinement.  A journal built through its admission API answers every
    query from the log of the facts it accepted: the intent of an operation
    is the one recorded for it, the owner of a task the operation whose intent
    names it, the latest dispatch the last one recorded, the known outcome
    the outcome of that very attempt and not of an older one, and the derived
    knowledge follows; every dispatch has its intent and a fresh attempt,
    every outcome its dispatch, and one attempt never has two outcomes. *)
Theorem journal_refines_log (fs : list JournalFact) (j : DurableJournal)
  (Hj : persist_all fs = Ok j) :
  (forall o, journal_intent j o = ok_or (log_intent fs o) (UnknownOperation o)) /\
  (forall t, journal_operation_for_task j t = log_owner fs t) /\
  (forall o, journal_latest_dispatch j o = log_latest fs o) /\
  (forall o, known_outcome j o =
     d ← log_latest fs o; log_outcome fs (dispatch_attempt_id d)) /\
  (forall o, journal_state j o = log_state fs o) /\
  (forall o, o ∈ journal_operation_ids j <-> is_Some (log_intent fs o)) /\
  NoDup (dispatch_attempt_id <$> log_dispatches fs) /\
  (forall d, d ∈ log_dispatches fs -> is_Some (log_intent fs (dispatch_operation_id d))) /\
  (forall r, r ∈ log_outcomes fs ->
     exists d, d ∈ log_dispatches fs /\ dispatch_attempt_id d = outcome_attempt_id r /\
               dispatch_operation_id d = outcome_operation_id r) /\
  (forall r r', r ∈ log_outcomes fs -> r' ∈ log_outcomes fs ->
     outcome_attempt_id r = outcome_attempt_id r' -> r = r').
Proof.
  apply persist_all_log in Hj. split_and!; try apply Hj.
  - intros o. unfold journal_intent. by rewrite (jl_intents _ _ Hj).
  - by apply journal_latest_dispatch_log.
  - by apply known_outcome_log.
  - by apply journal_state_log.
  - intros o. unfold journal_operation_ids.
    by rewrite elem_of_dom, (jl_intents _ _ Hj).
Qed.

Definition sample_facts : list JournalFact :=
  [FactIntent {| intent_task_id := "t"; intent_operation_id := "op"; semantics := NonIdempotent |};
   FactDispatch {| dispatch_operation_id := "op"; dispatch_attempt_id := "a1" |};
   FactOutcome {| outcome_operation_id := "op"; outcome_attempt_id := "a1"; outcome := Succeeded |};
   FactDispatch {| dispatch_operation_id := "op"; dispatch_attempt_id := "a2" |}].
Definition sample_journal : DurableJournal :=
  match persist_all sample_facts with Ok j => j | _ => DurableJournal_new end.
Lemma journal_refines_log_witness :
  persist_all sample_facts = Ok sample_journal /\
  journal_state sample_journal "op" = OutcomeUnknown /\
  journal_state sample_journal "op" = log_state sample_facts "op".
Proof.
  assert (H : persist_all sample_facts = Ok sample_journal) by (vm_compute; reflexivity).
  split; [exact H|split; [vm_compute; reflexivity|]].
  destruct (journal_refines_log sample_facts sample_journal H) as (_ & _ & _ & _ & Hs & _).
  apply Hs.
Defined.

Section admission.
Context (fs : list JournalFact) (j : DurableJournal) (Hj : journal_of_log fs j).

Lemma persist_intent_Ok i :
  is_Ok (persist_intent j i) <->
  log_intent fs (intent_operation_id i) = None /\ log_owner fs (intent_task_id i) = None.
Proof.
  unfold persist_intent, is_Ok.
  rewrite <- (jl_intents _ _ Hj), <- (jl_owners _ _ Hj), (eq_None_not_Some (_ !! _)).
  case_bool_decide; [split; naive_solver|]. destruct (_ !! intent_task_id i); naive_solver.
Qed.
Lemma persist_dispatch_Ok d :
  is_Ok (persist_dispatch j d) <->
  is_Some (log_intent fs (dispatch_operation_id d)) /\
  dispatch_attempt_id d ∉ dispatch_attempt_id <$> log_dispatches fs.
Proof.
  assert (dispatch_attempt_id d ∉ dispatch_attempt_id <$> log_dispatches fs <->
          ~ is_Some (journal_dispatches j !! dispatch_attempt_id d)) as ->.
  { rewrite <- eq_None_not_Some, (jl_dispatches _ _ Hj), head_filter_None, list_elem_of_fmap.
    naive_solver. }
  unfold persist_dispatch, is_Ok. rewrite <- (jl_intents _ _ Hj).
  case_bool_decide; simpl; [|split; naive_solver]. case_bool_decide; naive_solver.
Qed.
Lemma persist_outcome_Ok r :
  is_Ok (persist_outcome j r) <->
  (exists d, d ∈ log_dispatches fs /\ dispatch_attempt_id d = outcome_attempt_id r /\
             dispatch_operation_id d = outcome_operation_id r) /\
  (forall r', log_outcome fs (outcome_attempt_id r) = Some r' -> outcome r' = outcome r).
Proof.
  unfold is_Ok. rewrite <- (jl_outcomes _ _ Hj). split.
  - unfold persist_outcome. intros [j' Hr]. revert Hr. case_bool_decide; [|done]. simpl.
    destruct (journal_dispatches j !! _) as [d|] eqn:Ed; [|done].
    case_bool_decide as Ho; [|done]. simpl. intros Hr.
    rewrite (jl_dispatches _ _ Hj) in Ed. apply head_filter_Some in Ed as [Hin Hat].
    split; [by exists d|]. intros r' Er'. rewrite Er' in Hr. by case_bool_decide.
  - intros [(d & Hd & Hat & Hop) Hout]. unfold persist_outcome.
    rewrite (proj2 (journal_intent_is_Some _ _ Hj _))
      by (rewrite <- Hop; by apply (jl_dispatch_intent _ _ Hj)). simpl.
    rewrite <- Hat, (journal_dispatch_of_log _ _ Hj d Hd), bool_decide_true by done. simpl.
    rewrite Hat. destruct (journal_outcomes j !! _) as [r'|]; [|by eexists].
    rewrite bool_decide_true by (by apply Hout). by eexists.
Qed.
(** A dispatch takes over the recovery authority of its operation. *)
Lemma persist_dispatch_state d j' :
  persist_dispatch j d = Ok j' ->
  journal_state j' (dispatch_operation_id d) = OutcomeUnknown /\
  forall o, o <> dispatch_operation_id d -> journal_state j' o = journal_state j o.
Proof.
  intros Hd. assert (Hok : is_Ok (persist_dispatch j d)) by (by exists j').
  apply persist_dispatch_Ok in Hok as [[i Hi] Hfresh].
  pose proof (journal_of_log_dispatch _ _ _ Hj _ Hd) as Hj'.
  split; [|intros o Hne]; rewrite !(journal_state_log _ _ Hj'); unfold log_state;
    log_snoc; rewrite last_filter_snoc.
  - rewrite decide_True, Hi by done. cbn.
    rewrite (proj2 (head_filter_None _ _)); [done|]. intros r Hr Hat.
    destruct (jl_outcome_dispatch _ _ Hj r Hr) as (d0 & Hd0 & Ha & _).
    apply Hfresh. rewrite <- Hat, <- Ha. by apply list_elem_of_fmap_2.
  - rewrite decide_False by done. by rewrite (journal_state_log _ _ Hj).
Qed.
Lemma persist_returns f : returns (persist j f).
Proof.
  destruct f; simpl; unfold persist_intent, persist_dispatch, persist_outcome;
    repeat case_match; done.
Qed.
End admission.

(** The admission API of the journal, on every branch.  An intent is
    accepted exactly when neither its operation nor its task is taken; a
    dispatch exactly when its operation has an intent and its attempt is
    fresh, whatever outcomes are already known: an accepted dispatch takes
    over recovery authority, so the state of its operation becomes
    [OutcomeUnknown] even after a known success, and the states of the other
    operations do not change; an outcome exactly when its attempt was
    dispatched for its operation and no other outcome is recorded. *)
Theorem journal_admission (fs : list JournalFact) (j : DurableJournal)
  (Hj : persist_all fs = Ok j) :
  (forall i, is_Ok (persist_intent j i) <->
     log_intent fs (intent_operation_id i) = None /\ log_owner fs (intent_task_id i) = None) /\
  (forall d, is_Ok (persist_dispatch j d) <->
     is_Some (log_intent fs (dispatch_operation_id d)) /\
     dispatch_attempt_id d ∉ dispatch_attempt_id <$> log_dispatches fs) /\
  (forall d j', persist_dispatch j d = Ok j' ->
     journal_state j' (dispatch_operation_id d) = OutcomeUnknown /\
     forall o, o <> dispatch_operation_id d -> journal_state j' o = journal_state j o) /\
  (forall r, is_Ok (persist_outcome j r) <->
     (exists d, d ∈ log_dispatches fs /\ dispatch_attempt_id d = outcome_attempt_id r /\
                dispatch_operation_id d = outcome_operation_id r) /\
     (forall r', log_outcome fs (outcome_attempt_id r) = Some r' -> outcome r' = outcome r)) /\
  (forall f, returns (persist j f)).
Proof.
  apply persist_all_log in Hj. split_and!; intros.
  - by apply persist_intent_Ok.
  - by apply persist_dispatch_Ok.
  - by eapply persist_dispatch_state.
  - by apply persist_outcome_Ok.
  - by eapply persist_returns.
Qed.

Lemma journal_admission_witness :
  persist_all sample_facts = Ok sample_journal /\
  (is_Ok (persist_dispatch sample_journal
            {| dispatch_operation_id := "op"; dispatch_attempt_id := "a3" |}) <->
   is_Some (log_intent sample_facts "op") /\
   "a3" ∉ dispatch_attempt_id <$> log_dispatches sample_facts).
Proof.
  assert (H : persist_all sample_facts = Ok sample_journal) by (vm_compute; reflexivity).
  split; [exact H|].
  destruct (journal_admission sample_facts sample_journal H) as (_ & Hd & _).
  apply (Hd {| dispatch_operation_id := "op"; dispatch_attempt_id := "a3" |}).
Defined.
