(* ===== verification/Recovery.v ===== *)
(** * Recovery classification: [crates/workflow-recovery/src/recovery.rs]

    The decision recovery takes for one operation from the workflow facts and
    the durable journal, and what the decision guarantees about repeating an
    external effect. *)
From S2P Require Export WorkflowGraph JournalFacts.
#[local] Open Scope string_scope.
#[local] Open Scope list_scope.

Definition invariant_decision (o : OperationId) (intent : EffectIntent)
  (state : RecoveredEffectState) : RecoveryDecision :=
  {| action := ActionInvariantViolation;
     reason := ReasonWorkflowStateMismatch o (intent_task_id intent) state |}.

Definition classify_recovery (workflow : WorkflowGraph) (journal : DurableJournal)
  (o : OperationId) : result JournalError RecoveryDecision :=
  intent ← journal_intent journal o;
  let state := journal_state journal o in
  match graph_task workflow (intent_task_id intent) with
  | None => Ok (invariant_decision o intent state)
  | Some _ =>
      let completed := is_completed workflow (intent_task_id intent) in
      match state with
      | Prepared =>
          if completed then Ok (invariant_decision o intent state)
          else Ok {| action := Execute; reason := PreparedNotDispatched o |}
      | OutcomeUnknown =>
          dispatch ← expect (journal_latest_dispatch journal o)
                            "unknown outcome requires a dispatch";
          let attempt_id := dispatch_attempt_id dispatch in
          if completed then Ok (invariant_decision o intent state)
          else Ok match semantics intent with
               | Idempotent => {| action := RetrySameOperation;
                                  reason := IdempotentOutcomeUnknown o attempt_id |}
               | NonIdempotent => {| action := Reconcile;
                                     reason := NonIdempotentOutcomeUnknown o attempt_id |}
               end
      | OutcomeKnown out =>
          record ← expect (known_outcome journal o) "known state requires an outcome";
          let attempt_id := outcome_attempt_id record in
          Ok match out, completed with
             | Succeeded, true => {| action := NoAction;
                                     reason := WorkflowAlreadyCompleted o (intent_task_id intent) |}
             | Succeeded, false => {| action := CompleteWithoutReexecution;
                                      reason := KnownSuccess o attempt_id |}
             | Failed, true => invariant_decision o intent state
             | Failed, false => {| action := ObserveFailure; reason := KnownFailure o attempt_id |}
             end
      | NotPrepared => Ok {| action := ActionInvariantViolation; reason := ReasonNotPrepared o |}
      end
  end.

(** ** The policy, as a function of the logged facts *)
Definition recovery_policy (workflow : WorkflowGraph) (fs : list JournalFact)
  (o : OperationId) (i : EffectIntent) : RecoveryDecision :=
  let t := intent_task_id i in
  let mismatch := {| action := ActionInvariantViolation;
                     reason := ReasonWorkflowStateMismatch o t (log_state fs o) |} in
  match graph_task workflow t, log_latest fs o with
  | None, _ => mismatch
  | Some _, None =>
      if is_completed workflow t then mismatch
      else {| action := Execute; reason := PreparedNotDispatched o |}
  | Some _, Some d =>
      let a := dispatch_attempt_id d in
      match outcome <$> log_outcome fs a, is_completed workflow t, semantics i with
      | None, true, _ => mismatch
      | None, false, Idempotent =>
          {| action := RetrySameOperation; reason := IdempotentOutcomeUnknown o a |}
      | None, false, NonIdempotent =>
          {| action := Reconcile; reason := NonIdempotentOutcomeUnknown o a |}
      | Some Succeeded, true, _ => {| action := NoAction; reason := WorkflowAlreadyCompleted o t |}
      | Some Succeeded, false, _ =>
          {| action := CompleteWithoutReexecution; reason := KnownSuccess o a |}
      | Some Failed, true, _ => mismatch
      | Some Failed, false, _ => {| action := ObserveFailure; reason := KnownFailure o a |}
      end
  end.

Lemma classify_recovery_policy workflow fs j o :
  journal_of_log fs j ->
  classify_recovery workflow j o =
  match log_intent fs o with
  | None => Err (UnknownOperation o)
  | Some i => Ok (recovery_policy workflow fs o i)
  end.
Proof.
  intros Hj. unfold classify_recovery, recovery_policy, journal_intent, invariant_decision.
  rewrite (jl_intents _ _ Hj).
  rewrite (journal_state_log _ _ Hj), (known_outcome_log _ _ Hj).
  rewrite (journal_latest_dispatch_log _ _ Hj). unfold log_state.
  destruct (log_intent fs o) as [i|]; cbn; [|done].
  destruct (graph_task workflow (intent_task_id i)); [|done].
  destruct (log_latest fs o) as [d|]; cbn; [|by destruct (is_completed workflow _)].
  destruct (log_outcome fs (dispatch_attempt_id d)) as [r|] eqn:Er; cbn.
  - apply head_filter_Some in Er as [_ ->].
    by destruct (outcome r), (is_completed workflow _).
  - by destruct (is_completed workflow _), (semantics i).
Qed.

(** Recovery classification is total and follows one policy.  For every
    workflow graph and every journal built through its admission API, the
    decision and its explanation are the policy applied to the logged facts:
    the workflow task, its completion, the outcome of the latest dispatch and
    the declared semantics.  The only error is [UnknownOperation], exactly
    when no intent is recorded, and neither [expect] of the code can fail. *)
Theorem classify_recovery_total (workflow : WorkflowGraph) (fs : list JournalFact)
  (j : DurableJournal) (o : OperationId) (Hj : persist_all fs = Ok j) :
  (forall i, log_intent fs o = Some i ->
     classify_recovery workflow j o = Ok (recovery_policy workflow fs o i)) /\
  (log_intent fs o = None -> classify_recovery workflow j o = Err (UnknownOperation o)) /\
  returns (classify_recovery workflow j o).
Proof.
  rewrite (classify_recovery_policy _ _ _ _ (persist_all_log _ _ Hj)).
  destruct (log_intent fs o); (split; [|split]); try done. by intros ? [= <-].
Qed.

Definition sample_workflow : WorkflowGraph :=
  (apply_batch WorkflowGraph_default 0%N [AddTask {| task_id := "t"; label := "effect" |}]).1.
Lemma classify_recovery_total_witness :
  persist_all sample_facts = Ok sample_journal /\
  (forall i, log_intent sample_facts "op" = Some i ->
     classify_recovery sample_workflow sample_journal "op" =
       Ok (recovery_policy sample_workflow sample_facts "op" i)) /\
  classify_recovery sample_workflow sample_journal "op" =
    Ok {| action := Reconcile; reason := NonIdempotentOutcomeUnknown "op" "a2" |}.
Proof.
  assert (H : persist_all sample_facts = Ok sample_journal) by (vm_compute; reflexivity).
  split; [exact H|split; [|vm_compute; reflexivity]].
  apply (classify_recovery_total sample_workflow sample_facts sample_journal "op" H).
Defined.

(** C19: no external effect is repeated unsafely.  A decision to execute is
    taken only for an operation with an intent that was never dispatched and
    whose task is known and incomplete; a decision to retry only for an
    idempotent operation whose latest dispatch has no known outcome, and it
    names that attempt; the workflow is completed without a new call only on
    a known success of the latest dispatch.  So a non-idempotent operation
    that was dispatched at least once is never executed or retried again. *)
Theorem recovery_never_repeats_unsafely (workflow : WorkflowGraph) (fs : list JournalFact)
  (j : DurableJournal) (o : OperationId) (d : RecoveryDecision)
  (Hj : persist_all fs = Ok j) (Hd : classify_recovery workflow j o = Ok d) :
  exists i, log_intent fs o = Some i /\
  (action d = Execute ->
     (forall x, x ∈ log_dispatches fs -> dispatch_operation_id x <> o) /\
     is_Some (graph_task workflow (intent_task_id i)) /\
     is_completed workflow (intent_task_id i) = false) /\
  (action d = RetrySameOperation ->
     semantics i = Idempotent /\
     exists x, log_latest fs o = Some x /\ log_outcome fs (dispatch_attempt_id x) = None /\
       reason d = IdempotentOutcomeUnknown o (dispatch_attempt_id x)) /\
  (action d = CompleteWithoutReexecution ->
     exists x r, log_latest fs o = Some x /\
       log_outcome fs (dispatch_attempt_id x) = Some r /\ outcome r = Succeeded) /\
  (semantics i = NonIdempotent ->
     (exists x, x ∈ log_dispatches fs /\ dispatch_operation_id x = o) ->
     action d <> Execute /\ action d <> RetrySameOperation).
Proof.
  rewrite (classify_recovery_policy _ _ _ _ (persist_all_log _ _ Hj)) in Hd.
  destruct (log_intent fs o) as [i|]; [|done]. injection Hd as <-. exists i.
  assert (Hnone : log_latest fs o = None ->
    forall x, x ∈ log_dispatches fs -> dispatch_operation_id x <> o).
  { unfold log_latest. by rewrite last_filter_None. }
  unfold recovery_policy.
  destruct (graph_task workflow (intent_task_id i)); [|by split_and!].
  destruct (log_latest fs o) as [x|]; [|].
  - destruct (log_outcome fs (dispatch_attempt_id x)) as [r|] eqn:Er; simpl.
    + destruct (outcome r) eqn:Eo, (is_completed workflow (intent_task_id i)); split_and!;
        try done; intros; try done. by exists x, r.
    + destruct (is_completed workflow (intent_task_id i)), (semantics i); split_and!;
        try done; intros; try done. split; [done|]. by exists x.
  - destruct (is_completed workflow (intent_task_id i)) eqn:Ec; split_and!; try done.
    + intros _. split_and!; [by apply Hnone|done|done].
    + intros _ (x & Hx & Hxo). by destruct (Hnone eq_refl x Hx).
Qed.

Lemma recovery_never_repeats_unsafely_witness :
  exists d, classify_recovery sample_workflow sample_journal "op" = Ok d /\
    action d <> Execute /\ action d <> RetrySameOperation.
Proof.
  assert (H : persist_all sample_facts = Ok sample_journal) by (vm_compute; reflexivity).
  assert (Hc : classify_recovery sample_workflow sample_journal "op" =
    Ok {| action := Reconcile; reason := NonIdempotentOutcomeUnknown "op" "a2" |})
    by (vm_compute; reflexivity).
  eexists. split; [exact Hc|].
  destruct (recovery_never_repeats_unsafely _ _ _ _ _ H Hc) as (i & Hi & _ & _ & _ & Hn).
  vm_compute in Hi. injection Hi as <-. apply Hn; [reflexivity|].
  exists {| dispatch_operation_id := "op"; dispatch_attempt_id := "a1" |}.
  split; [|reflexivity]. refine (bool_decide_unpack _ _). vm_compute. exact I.
Defined.
