(* ===== verification/Durable.v ===== *)
(** * The durable execution contract: [crates/workflow-recovery/src/durable.rs]

    The facts of one run and their admission ([apply_mutation]), the commit
    ledger and its replay, the store port and its in-memory adapter.  Every
    error of [apply_mutation] is returned before its first write, so it is a
    function to the new state or to the error. *)
From stdpp Require Export pretty.
From Stdlib Require Export Strings.Byte.
From S2P Require Export Effects.
#[local] Open Scope string_scope.
#[local] Open Scope list_scope.

(** ** Identities *)
Definition RunId : Set := Id.
Definition RunId_new (value : string) : result InvalidId RunId := Id_new value.
Definition RunId_display (r : RunId) : string := Id_display r.
#[export] Instance RunId_eq_dec : EqDecision RunId := String.eq_dec.
Definition WorkflowReplayIdentity : Set := string.
Definition StoreRevision : Set := N.
#[export] Instance StoreRevision_eq_dec : EqDecision StoreRevision := N.eq_dec.
Definition StoreRevision_INITIAL : StoreRevision := 0%N.
Definition StoreRevision_get (r : StoreRevision) : N := r.
Definition StoreRevision_checked_next (r : StoreRevision) : option StoreRevision := checked_succ r.
Definition StoreRevision_display (r : StoreRevision) : string := pretty (StoreRevision_get r).

Record CapabilityReplayIdentity := {
  capability_id : Id;
  definition_identity : string
}.
#[export] Instance CapabilityReplayIdentity_eq_dec : EqDecision CapabilityReplayIdentity.
Proof. solve_decision. Defined.

Record AttemptAdmission := {
  admission_run_id : RunId;
  admission_task_id : Id;
  admission_attempt_id : AttemptId;
  admission_operation_id : option OperationId;
  capabilities : list CapabilityReplayIdentity
}.
#[export] Instance AttemptAdmission_eq_dec : EqDecision AttemptAdmission.
Proof. solve_decision. Defined.

Record CancellationRecord := {
  cancellation_run_id : RunId;
  cancellation_task_id : Id;
  cancellation_operation_id : option OperationId;
  cancellation_attempt_id : option AttemptId
}.
#[export] Instance CancellationRecord_eq_dec : EqDecision CancellationRecord.
Proof. solve_decision. Defined.

Record CompletionRecord := {
  completion_task_id : Id;
  completion_attempt_id : AttemptId
}.
#[export] Instance CompletionRecord_eq_dec : EqDecision CompletionRecord.
Proof. solve_decision. Defined.

Definition IdempotencyKey : Set := string.

Inductive DurableMutation :=
  | RecordWorkflowReplayIdentity (identity : WorkflowReplayIdentity)
  | AdmitAttempt (admission : AttemptAdmission)
  | RecordIntent (intent : EffectIntent)
  | RecordCancellation (cancellation : CancellationRecord)
  | RecordDispatch (dispatch : DispatchRecord)
  | RecordOutcome (record : OutcomeRecord)
  | RecordCompletion (completion : CompletionRecord).
#[export] Instance DurableMutation_eq_dec : EqDecision DurableMutation.
Proof. unfold EqDecision, WorkflowReplayIdentity. solve_decision. Defined.

Record CommitRequest := {
  request_run_id : RunId;
  expected_revision : StoreRevision;
  idempotency_key : IdempotencyKey;
  request_mutations : list DurableMutation
}.
Definition CommitRequest_single (r : RunId) (rev : StoreRevision) (k : IdempotencyKey)
  (m : DurableMutation) : CommitRequest :=
  {| request_run_id := r; expected_revision := rev; idempotency_key := k;
     request_mutations := [m] |}.

Record CommitLedgerEntry := {
  entry_key : IdempotencyKey;
  entry_mutations : list DurableMutation;
  entry_revision : StoreRevision;
  binding : N
}.
#[export] Instance CommitLedgerEntry_eq_dec : EqDecision CommitLedgerEntry.
Proof. unfold EqDecision, IdempotencyKey. solve_decision. Defined.

Record PersistedRunSnapshot := {
  snapshot_run_id : RunId;
  snapshot_commit_ledger : list CommitLedgerEntry
}.
#[export] Instance PersistedRunSnapshot_eq_dec : EqDecision PersistedRunSnapshot.
Proof. solve_decision. Defined.

Record CommitResult := { result_revision : StoreRevision; replayed : bool }.

(** ** Errors *)
Inductive StoreInvariant :=
  | CompletionUnknownTask (task_id : Id)
  | CompletionPrerequisiteMismatch (task_id dependency : Id)
  | CompletionReplayRejected (task_id : option Id) (reason : string)
  | CompletionWithoutAdmission (attempt_id : AttemptId)
  | CompletionAttemptMismatch (task_id : Id) (attempt_id : AttemptId)
  | CompletionWithoutIntent (operation_id : OperationId)
  | CompletionWithoutDispatch (attempt_id : AttemptId)
  | CompletionNotLatestDispatch (operation_id : OperationId) (attempt_id : AttemptId)
  | CompletionWithoutSuccessfulOutcome (attempt_id : AttemptId) (o : option KnownEffectOutcome)
  | ConflictingCompletion (task_id : Id) (existing_attempt_id attempted_attempt_id : AttemptId)
  | AttemptIdReuse (attempt_id : AttemptId)
  | DispatchWithoutAdmission (attempt_id : AttemptId)
  | DispatchAttemptMismatch (attempt_id : AttemptId) (operation_id : OperationId)
  | OutcomeWithoutAdmission (attempt_id : AttemptId)
  | OutcomeWithoutDispatch (attempt_id : AttemptId)
  | OutcomeAttemptMismatch (attempt_id : AttemptId) (operation_id : OperationId)
  | ConflictingOutcome (attempt_id : AttemptId) (existing attempted : KnownEffectOutcome)
  | TaskOperationConflict (task_id : Id) (existing attempted : OperationId)
  | DispatchCancelled (task_id : Id)
  | CancellationLineageMismatch (task_id : Id)
  | ConflictingCancellation (task_id : Id).
#[export] Instance StoreInvariant_eq_dec : EqDecision StoreInvariant.
Proof. solve_decision. Defined.

Inductive StoreError :=
  | RunNotFound (run_id : RunId)
  | RunAlreadyExists (run_id : RunId)
  | StoreRevisionConflict (expected actual : StoreRevision)
  | IdempotencyConflict (key : IdempotencyKey)
  | EmptyIdempotencyKey
  | EmptyWorkflowReplayIdentity
  | EmptyCommit
  | InvariantViolation (i : StoreInvariant)
  | StoreRevisionExhausted (current : StoreRevision)
  | BackendUnavailable
  | IoFailure (message : string)
  | DataCorruption (message : string).
#[export] Instance StoreError_eq_dec : EqDecision StoreError.
Proof. unfold EqDecision, IdempotencyKey. solve_decision. Defined.

Inductive StoreErrorKind := KindDomain | KindBackendUnavailable | KindIoFailure | KindDataCorruption.
#[export] Instance StoreErrorKind_eq_dec : EqDecision StoreErrorKind.
Proof. solve_decision. Defined.
Definition kind (e : StoreError) : StoreErrorKind :=
  match e with
  | BackendUnavailable => KindBackendUnavailable
  | IoFailure _ => KindIoFailure
  | DataCorruption _ => KindDataCorruption
  | _ => KindDomain
  end.
(** An error of the backend, not of the rules of the store. *)
Definition backend_error (e : StoreError) : Prop := kind e <> KindDomain.

(** [WorkflowReplayIdentity::new], [IdempotencyKey::new] *)
Definition WorkflowReplayIdentity_new (value : string) : result StoreError WorkflowReplayIdentity :=
  if trim_is_empty value then Err EmptyWorkflowReplayIdentity else Ok value.
Definition IdempotencyKey_new (value : string) : result StoreError IdempotencyKey :=
  if trim_is_empty value then Err EmptyIdempotencyKey else Ok value.

(** The third-party and derived code the store uses: postcard's encoder, and
    the derived [Debug] text of an invariant inside an error message. *)
Class StoreFormat := {
  commit_to_allocvec : IdempotencyKey * list DurableMutation * StoreRevision -> option (list byte);
  StoreInvariant_debug : StoreInvariant -> string
}.
(** What the code relies on: its typed values are serializable
    ([expect("typed durable commit binding is serializable")]). *)
Class StoreFormatLaws `{StoreFormat} : Prop := {
  commit_serializable c : is_Some (commit_to_allocvec c)
}.

Definition StoreError_display `{StoreFormat} (e : StoreError) : string :=
  match e with
  | RunNotFound r => "durable run not found: " +:+ RunId_display r
  | RunAlreadyExists r => "durable run already exists: " +:+ RunId_display r
  | StoreRevisionConflict ex ac =>
      "durable revision conflict: expected " +:+ StoreRevision_display ex
      +:+ ", actual " +:+ StoreRevision_display ac
  | IdempotencyConflict k => "idempotency key reused with a conflicting mutation: " +:+ k
  | EmptyIdempotencyKey => "idempotency key is empty"
  | EmptyWorkflowReplayIdentity => "workflow replay identity is empty"
  | EmptyCommit => "durable commit contains no mutations"
  | InvariantViolation i => "durable invariant violation: " +:+ StoreInvariant_debug i
  | StoreRevisionExhausted c => "durable revision exhausted at " +:+ StoreRevision_display c
  | BackendUnavailable => "durable store backend is unavailable"
  | IoFailure m => "durable store I/O failure: " +:+ m
  | DataCorruption m => "durable store data corruption: " +:+ m
  end.

(** ** The state of a run *)
Record DurableRunState := {
  run_id : RunId;
  revision : StoreRevision;
  workflow_replay_identity : option WorkflowReplayIdentity;
  admissions : gmap AttemptId AttemptAdmission;
  admission_history : list AttemptAdmission;
  intents : gmap OperationId EffectIntent;
  task_operations : gmap Id OperationId;
  cancellations : gmap Id CancellationRecord;
  dispatches : gmap AttemptId DispatchRecord;
  dispatch_history : list DispatchRecord;
  outcomes : gmap AttemptId OutcomeRecord;
  outcome_history : list OutcomeRecord;
  completions : gmap Id CompletionRecord;
  completion_history : list CompletionRecord;
  commit_ledger : list CommitLedgerEntry;
  idempotency : gmap IdempotencyKey (list DurableMutation * StoreRevision)
}.
#[export] Instance DurableRunState_eq_dec : EqDecision DurableRunState.
Proof. unfold EqDecision, WorkflowReplayIdentity. solve_decision. Defined.

Definition DurableRunState_new (r : RunId) : DurableRunState :=
  {| run_id := r; revision := StoreRevision_INITIAL; workflow_replay_identity := None;
     admissions := ∅; admission_history := []; intents := ∅; task_operations := ∅;
     cancellations := ∅; dispatches := ∅; dispatch_history := []; outcomes := ∅;
     outcome_history := []; completions := ∅; completion_history := []; commit_ledger := [];
     idempotency := ∅ |}.

(** *** Field assignments *)
Definition set_workflow_replay_identity v (s : DurableRunState) : DurableRunState :=
  {| run_id := run_id s; revision := revision s; workflow_replay_identity := v; admissions :=
     admissions s; admission_history := admission_history s; intents := intents s;
     task_operations := task_operations s; cancellations := cancellations s; dispatches :=
     dispatches s; dispatch_history := dispatch_history s; outcomes := outcomes s;
     outcome_history := outcome_history s; completions := completions s; completion_history :=
     completion_history s; commit_ledger := commit_ledger s; idempotency := idempotency s |}.
Definition set_revision v (s : DurableRunState) : DurableRunState :=
  {| run_id := run_id s; revision := v; workflow_replay_identity := workflow_replay_identity s;
     admissions := admissions s; admission_history := admission_history s; intents := intents s;
     task_operations := task_operations s; cancellations := cancellations s; dispatches :=
     dispatches s; dispatch_history := dispatch_history s; outcomes := outcomes s;
     outcome_history := outcome_history s; completions := completions s; completion_history :=
     completion_history s; commit_ledger := commit_ledger s; idempotency := idempotency s |}.
Definition set_admissions v w (s : DurableRunState) : DurableRunState :=
  {| run_id := run_id s; revision := revision s; workflow_replay_identity :=
     workflow_replay_identity s; admissions := v; admission_history := w; intents := intents s;
     task_operations := task_operations s; cancellations := cancellations s; dispatches :=
     dispatches s; dispatch_history := dispatch_history s; outcomes := outcomes s;
     outcome_history := outcome_history s; completions := completions s; completion_history :=
     completion_history s; commit_ledger := commit_ledger s; idempotency := idempotency s |}.
Definition set_intents v w (s : DurableRunState) : DurableRunState :=
  {| run_id := run_id s; revision := revision s; workflow_replay_identity :=
     workflow_replay_identity s; admissions := admissions s; admission_history :=
     admission_history s; intents := v; task_operations := w; cancellations := cancellations s;
     dispatches := dispatches s; dispatch_history := dispatch_history s; outcomes := outcomes s;
     outcome_history := outcome_history s; completions := completions s; completion_history :=
     completion_history s; commit_ledger := commit_ledger s; idempotency := idempotency s |}.
Definition set_cancellations v (s : DurableRunState) : DurableRunState :=
  {| run_id := run_id s; revision := revision s; workflow_replay_identity :=
     workflow_replay_identity s; admissions := admissions s; admission_history :=
     admission_history s; intents := intents s; task_operations := task_operations s;
     cancellations := v; dispatches := dispatches s; dispatch_history := dispatch_history s;
     outcomes := outcomes s; outcome_history := outcome_history s; completions := completions s;
     completion_history := completion_history s; commit_ledger := commit_ledger s; idempotency
     := idempotency s |}.
Definition set_dispatches v w (s : DurableRunState) : DurableRunState :=
  {| run_id := run_id s; revision := revision s; workflow_replay_identity :=
     workflow_replay_identity s; admissions := admissions s; admission_history :=
     admission_history s; intents := intents s; task_operations := task_operations s;
     cancellations := cancellations s; dispatches := v; dispatch_history := w; outcomes :=
     outcomes s; outcome_history := outcome_history s; completions := completions s;
     completion_history := completion_history s; commit_ledger := commit_ledger s; idempotency
     := idempotency s |}.
Definition set_outcomes v w (s : DurableRunState) : DurableRunState :=
  {| run_id := run_id s; revision := revision s; workflow_replay_identity :=
     workflow_replay_identity s; admissions := admissions s; admission_history :=
     admission_history s; intents := intents s; task_operations := task_operations s;
     cancellations := cancellations s; dispatches := dispatches s; dispatch_history :=
     dispatch_history s; outcomes := v; outcome_history := w; completions := completions s;
     completion_history := completion_history s; commit_ledger := commit_ledger s; idempotency
     := idempotency s |}.
Definition set_completions v w (s : DurableRunState) : DurableRunState :=
  {| run_id := run_id s; revision := revision s; workflow_replay_identity :=
     workflow_replay_identity s; admissions := admissions s; admission_history :=
     admission_history s; intents := intents s; task_operations := task_operations s;
     cancellations := cancellations s; dispatches := dispatches s; dispatch_history :=
     dispatch_history s; outcomes := outcomes s; outcome_history := outcome_history s;
     completions := v; completion_history := w; commit_ledger := commit_ledger s; idempotency :=
     idempotency s |}.
Definition set_ledger v w (s : DurableRunState) : DurableRunState :=
  {| run_id := run_id s; revision := revision s; workflow_replay_identity :=
     workflow_replay_identity s; admissions := admissions s; admission_history :=
     admission_history s; intents := intents s; task_operations := task_operations s;
     cancellations := cancellations s; dispatches := dispatches s; dispatch_history :=
     dispatch_history s; outcomes := outcomes s; outcome_history := outcome_history s;
     completions := completions s; completion_history := completion_history s; commit_ledger :=
     v; idempotency := w |}.

(** ** Queries *)
Definition is_pristine_bootstrap (s : DurableRunState) : bool :=
  (revision s =? StoreRevision_INITIAL)%N
  && bool_decide (workflow_replay_identity s = None)
  && bool_decide (admissions s = ∅) && bool_decide (admission_history s = [])
  && bool_decide (intents s = ∅) && bool_decide (task_operations s = ∅)
  && bool_decide (cancellations s = ∅)
  && bool_decide (dispatches s = ∅) && bool_decide (dispatch_history s = [])
  && bool_decide (outcomes s = ∅) && bool_decide (outcome_history s = [])
  && bool_decide (completions s = ∅) && bool_decide (completion_history s = [])
  && bool_decide (commit_ledger s = []) && bool_decide (idempotency s = ∅).
Definition attempts (s : DurableRunState) : list AttemptAdmission := admission_history s.
Definition attempt (s : DurableRunState) (a : AttemptId) : option AttemptAdmission :=
  admissions s !! a.
Definition intent (s : DurableRunState) (o : OperationId) : option EffectIntent := intents s !! o.
Definition intents_iter (s : DurableRunState) : list EffectIntent := map_values (intents s).
Definition cancellation (s : DurableRunState) (t : Id) : option CancellationRecord :=
  cancellations s !! t.
Definition cancellations_iter (s : DurableRunState) : list CancellationRecord :=
  map_values (cancellations s).
Definition is_cancelled (s : DurableRunState) (t : Id) : bool :=
  bool_decide (is_Some (cancellations s !! t)).
Definition dispatches_of (s : DurableRunState) (o : OperationId) : list DispatchRecord :=
  filter (fun d => dispatch_operation_id d = o) (dispatch_history s).
Definition latest_dispatch (s : DurableRunState) (o : OperationId) : option DispatchRecord :=
  last (dispatches_of s o).
Definition outcome_for_attempt (s : DurableRunState) (a : AttemptId) : option OutcomeRecord :=
  outcomes s !! a.
Definition outcome_history_of (s : DurableRunState) (o : OperationId) : list OutcomeRecord :=
  filter (fun r => outcome_operation_id r = o) (outcome_history s).
Definition is_completed (s : DurableRunState) (t : Id) : bool :=
  bool_decide (is_Some (completions s !! t)).
Definition completion_for_task (s : DurableRunState) (t : Id) : option CompletionRecord :=
  completions s !! t.
Definition latest_outcome (s : DurableRunState) (o : OperationId) : option OutcomeRecord :=
  d ← latest_dispatch s o; outcome_for_attempt s (dispatch_attempt_id d).
Definition effect_state (s : DurableRunState) (o : OperationId) : RecoveredEffectState :=
  if negb (bool_decide (is_Some (intents s !! o))) then NotPrepared
  else match latest_dispatch s o with
  | None => Prepared
  | Some d =>
      match outcome_for_attempt s (dispatch_attempt_id d) with
      | None => OutcomeUnknown
      | Some r => OutcomeKnown (outcome r)
      end
  end.
Definition operation_ids (s : DurableRunState) : gset OperationId := dom (intents s).
Definition operation_for_task (s : DurableRunState) (t : Id) : option OperationId :=
  task_operations s !! t.

(** ** Admission of one mutation

    [apply_mutation], one definition per arm of its [match]. *)
Definition violation {A} (i : StoreInvariant) : result StoreError A := Err (InvariantViolation i).
(** [return Err(violation)] when the condition holds. *)
Definition reject_if (b : bool) (i : StoreInvariant) : result StoreError unit :=
  if b then violation i else Ok tt.

Definition apply_identity (s : DurableRunState) (identity : WorkflowReplayIdentity) :
  result StoreError DurableRunState :=
  if trim_is_empty identity then Err EmptyWorkflowReplayIdentity
  else Ok (set_workflow_replay_identity (Some identity) s).

Definition apply_admission (s : DurableRunState) (admission : AttemptAdmission) :
  result StoreError DurableRunState :=
  let a := admission_attempt_id admission in
  _ ← reject_if (negb (bool_decide (admission_run_id admission = run_id s))) (AttemptIdReuse a);
  _ ← reject_if (bool_decide (is_Some (admissions s !! a))) (AttemptIdReuse a);
  Ok (set_admissions (<[a := admission]> (admissions s))
                     (admission_history s ++ [admission]) s).

Definition apply_intent (s : DurableRunState) (i : EffectIntent) :
  result StoreError DurableRunState :=
  match intents s !! intent_operation_id i with
  | Some existing =>
      if bool_decide (existing = i) then Ok s
      else violation (TaskOperationConflict (intent_task_id i) (intent_operation_id existing)
                                            (intent_operation_id i))
  | None =>
      match task_operations s !! intent_task_id i with
      | Some existing =>
          violation (TaskOperationConflict (intent_task_id i) existing (intent_operation_id i))
      | None =>
          Ok (set_intents (<[intent_operation_id i := i]> (intents s))
                (<[intent_task_id i := intent_operation_id i]> (task_operations s)) s)
      end
  end.

Definition apply_cancellation (s : DurableRunState) (c : CancellationRecord) :
  result StoreError DurableRunState :=
  let t := cancellation_task_id c in
  let mismatch := CancellationLineageMismatch t in
  _ ← reject_if (negb (bool_decide (cancellation_run_id c = run_id s))) mismatch;
  match cancellations s !! t with
  | Some existing =>
      if bool_decide (existing = c) then Ok s else violation (ConflictingCancellation t)
  | None =>
      _ ← match cancellation_operation_id c with
          | Some o => reject_if (negb (bool_decide (task_operations s !! t = Some o))) mismatch
          | None => Ok tt
          end;
      _ ← match cancellation_attempt_id c with
          | Some a =>
              match admissions s !! a with
              | None => violation mismatch
              | Some admission =>
                  reject_if (negb (bool_decide (admission_task_id admission = t))
                             || negb (bool_decide (admission_operation_id admission
                                                   = cancellation_operation_id c))) mismatch
              end
          | None => Ok tt
          end;
      Ok (set_cancellations (<[t := c]> (cancellations s)) s)
  end.

Definition apply_dispatch (s : DurableRunState) (d : DispatchRecord) :
  result StoreError DurableRunState :=
  let o := dispatch_operation_id d in
  let a := dispatch_attempt_id d in
  match intents s !! o with
  | None => violation (DispatchWithoutAdmission a)
  | Some i =>
      match admissions s !! a with
      | None => violation (DispatchWithoutAdmission a)
      | Some admission =>
          let t := admission_task_id admission in
          _ ← reject_if (negb (bool_decide (admission_operation_id admission = Some o)))
                        (DispatchAttemptMismatch a o);
          _ ← reject_if (negb (bool_decide (intent_task_id i = t))) (DispatchAttemptMismatch a o);
          _ ← reject_if (is_cancelled s t && negb (bool_decide (is_Some (dispatches s !! a))))
                        (DispatchCancelled t);
          _ ← reject_if (bool_decide (is_Some (dispatches s !! a))) (DispatchAttemptMismatch a o);
          Ok (set_dispatches (<[a := d]> (dispatches s)) (dispatch_history s ++ [d]) s)
      end
  end.

Definition apply_outcome (s : DurableRunState) (r : OutcomeRecord) :
  result StoreError DurableRunState :=
  let o := outcome_operation_id r in
  let a := outcome_attempt_id r in
  match admissions s !! a with
  | None => violation (OutcomeWithoutAdmission a)
  | Some admission =>
      match dispatches s !! a with
      | None => violation (OutcomeWithoutDispatch a)
      | Some d =>
          _ ← reject_if (negb (bool_decide (dispatch_operation_id d = o))
                         || negb (bool_decide (admission_operation_id admission = Some o)))
                        (OutcomeAttemptMismatch a o);
          match outcomes s !! a with
          | Some existing =>
              if bool_decide (outcome existing = outcome r) then Ok s
              else violation (ConflictingOutcome a (outcome existing) (outcome r))
          | None => Ok (set_outcomes (<[a := r]> (outcomes s)) (outcome_history s ++ [r]) s)
          end
      end
  end.

(** The checks of a completion whose attempt owns an operation. *)
Definition check_effect_completion (s : DurableRunState) (o : OperationId) (a : AttemptId) :
  result StoreError unit :=
  _ ← reject_if (negb (bool_decide (is_Some (intents s !! o)))) (CompletionWithoutIntent o);
  _ ← reject_if (negb (bool_decide (dispatch_operation_id <$> dispatches s !! a = Some o)))
                (CompletionWithoutDispatch a);
  _ ← reject_if (negb (bool_decide (dispatch_attempt_id <$> latest_dispatch s o = Some a)))
                (CompletionNotLatestDispatch o a);
  let out := outcome <$> outcomes s !! a in
  reject_if (negb (bool_decide (out = Some Succeeded))) (CompletionWithoutSuccessfulOutcome a out).

Definition apply_completion (s : DurableRunState) (c : CompletionRecord) :
  result StoreError DurableRunState :=
  let t := completion_task_id c in
  let a := completion_attempt_id c in
  match admissions s !! a with
  | None => violation (CompletionWithoutAdmission a)
  | Some admission =>
      _ ← reject_if (negb (bool_decide (admission_task_id admission = t)))
                    (CompletionAttemptMismatch t a);
      _ ← match admission_operation_id admission with
          | Some o => check_effect_completion s o a
          | None => Ok tt
          end;
      match completions s !! t with
      | Some existing =>
          if bool_decide (existing = c) then Ok s
          else violation (ConflictingCompletion t (completion_attempt_id existing) a)
      | None => Ok (set_completions (<[t := c]> (completions s)) (completion_history s ++ [c]) s)
      end
  end.

Definition apply_mutation (s : DurableRunState) (m : DurableMutation) :
  result StoreError DurableRunState :=
  match m with
  | RecordWorkflowReplayIdentity identity => apply_identity s identity
  | AdmitAttempt admission => apply_admission s admission
  | RecordIntent i => apply_intent s i
  | RecordCancellation c => apply_cancellation s c
  | RecordDispatch d => apply_dispatch s d
  | RecordOutcome r => apply_outcome s r
  | RecordCompletion c => apply_completion s c
  end.
(** [for mutation in &mutations { apply_mutation(&mut state, mutation)?; }] *)
Definition apply_mutations (s : DurableRunState) (ms : list DurableMutation) :
  result StoreError DurableRunState := foldM apply_mutation ms s.

(** ** The commit ledger *)

(** FNV-1a at width 64: [hash ^= byte; hash = hash.wrapping_mul(prime)]. *)
Definition fnv_offset : N := 0xcbf29ce484222325%N.
Definition fnv_prime : N := 0x100000001b3%N.
Definition fnv_step (hash : N) (b : byte) : N :=
  ((N.lxor hash (Byte.to_N b) * fnv_prime) mod 2 ^ 64)%N.
Definition fnv1a (bytes : list byte) : N := foldl fnv_step fnv_offset bytes.

(** The successful [record_commit]: its ledger entry and its index entry. *)
Definition append_commit (e : CommitLedgerEntry) (s : DurableRunState) : DurableRunState :=
  set_ledger (commit_ledger s ++ [e])
    (<[entry_key e := (entry_mutations e, entry_revision e)]> (idempotency s))
    (set_revision (entry_revision e) s).

Section ledger.
Context `{StoreFormat}.

Definition commit_binding (k : IdempotencyKey) (ms : list DurableMutation) (r : StoreRevision) :
  result StoreError N :=
  encoded ← expect (commit_to_allocvec (k, ms, r))
                   "typed durable commit binding is serializable";
  Ok (fnv1a encoded).

Definition record_commit (s : DurableRunState) (k : IdempotencyKey)
  (ms : list DurableMutation) (r : StoreRevision) : result StoreError DurableRunState :=
  b ← commit_binding k ms r;
  Ok (append_commit
        {| entry_key := k; entry_mutations := ms; entry_revision := r; binding := b |} s).

Definition persisted_mutation_error (e : StoreError) : StoreError :=
  DataCorruption ("persisted durable fact is invalid: " +:+ StoreError_display e).
Definition invalid_ledger : StoreError := DataCorruption "persisted commit ledger is invalid".

(** The body of the loop of [replay_commit_ledger]; the loop state is the
    reconstructed run and the next expected revision. *)
Definition replay_entry (st : DurableRunState * N) (e : CommitLedgerEntry) :
  result StoreError (DurableRunState * N) :=
  let '(s, expected) := st in
  if trim_is_empty (entry_key e) || bool_decide (entry_mutations e = [])
     || negb (StoreRevision_get (entry_revision e) =? expected)%N
  then Err invalid_ledger
  else
    b ← commit_binding (entry_key e) (entry_mutations e) (entry_revision e);
    if negb (binding e =? b)%N
    then Err (DataCorruption "persisted commit ledger binding is invalid")
    else if bool_decide (is_Some (idempotency s !! entry_key e))
    then Err (DataCorruption "persisted commit ledger reuses an idempotency key")
    else
      let s1 := set_ledger (commit_ledger s)
                  (<[entry_key e := (entry_mutations e, entry_revision e)]> (idempotency s)) s in
      s2 ← map_err persisted_mutation_error (apply_mutations s1 (entry_mutations e));
      let s3 := set_revision (entry_revision e)
                  (set_ledger (commit_ledger s2 ++ [e]) (idempotency s2) s2) in
      next ← ok_or (checked_succ expected)
                   (DataCorruption "persisted idempotency revision sequence is exhausted");
      Ok (s3, next).

Definition replay_commit_ledger (r : RunId) (ledger : list CommitLedgerEntry) :
  result StoreError DurableRunState :=
  st ← foldM replay_entry ledger
         (DurableRunState_new r, (StoreRevision_get StoreRevision_INITIAL + 1)%N);
  let '(s, expected) := st in
  if negb (StoreRevision_get (revision s) =? expected - 1)%N
  then Err (DataCorruption "persisted revision does not match commit ledger")
  else Ok s.

Definition validate_persisted (s : DurableRunState) : result StoreError unit :=
  if match workflow_replay_identity s with Some i => trim_is_empty i | None => false end
  then Err (DataCorruption "persisted workflow replay identity is empty")
  else if existsb trim_is_empty (map_keys (idempotency s))
  then Err (DataCorruption "persisted idempotency metadata is invalid")
  else
    c ← replay_commit_ledger (run_id s) (commit_ledger s);
    if negb (bool_decide (revision c = revision s))
       || negb (bool_decide (workflow_replay_identity c = workflow_replay_identity s))
       || negb (bool_decide (admissions c = admissions s))
       || negb (bool_decide (admission_history c = admission_history s))
       || negb (bool_decide (intents c = intents s))
       || negb (bool_decide (task_operations c = task_operations s))
       || negb (bool_decide (cancellations c = cancellations s))
       || negb (bool_decide (dispatches c = dispatches s))
       || negb (bool_decide (dispatch_history c = dispatch_history s))
       || negb (bool_decide (outcomes c = outcomes s))
       || negb (bool_decide (outcome_history c = outcome_history s))
       || negb (bool_decide (completions c = completions s))
       || negb (bool_decide (completion_history c = completion_history s))
       || negb (bool_decide (idempotency c = idempotency s))
    then Err (DataCorruption "persisted durable facts do not form a consistent lineage")
    else Ok tt.

Definition persisted_snapshot (s : DurableRunState) : result StoreError PersistedRunSnapshot :=
  _ ← validate_persisted s;
  Ok {| snapshot_run_id := run_id s; snapshot_commit_ledger := commit_ledger s |}.
Definition from_persisted_snapshot (p : PersistedRunSnapshot) :
  result StoreError DurableRunState :=
  replay_commit_ledger (snapshot_run_id p) (snapshot_commit_ledger p).
End ledger.

(** ** The store port and its in-memory adapter

    [S] is all that an adapter reads and writes, the outside world included;
    [load_run], which takes [&self], still touches the world of a physical
    adapter. *)
Class DurableStore (S : Type) := {
  create_run : S -> RunId -> S * result StoreError StoreRevision;
  load_run : S -> RunId -> S * result StoreError DurableRunState;
  commit : S -> CommitRequest -> S * result StoreError CommitResult
}.

Section commit.
Context `{StoreFormat}.

(** What both adapters do with the current state of the run once they have
    it: [None] stands for the outcomes that change nothing. *)
Definition commit_run (s : DurableRunState) (q : CommitRequest) :
  result StoreError (option DurableRunState * CommitResult) :=
  match idempotency s !! idempotency_key q with
  | Some (existing, _) =>
      if bool_decide (existing = request_mutations q)
      then Ok (None, {| result_revision := revision s; replayed := true |})
      else Err (IdempotencyConflict (idempotency_key q))
  | None =>
      if negb (expected_revision q =? revision s)%N
      then Err (StoreRevisionConflict (expected_revision q) (revision s))
      else
        next ← ok_or (StoreRevision_checked_next (revision s))
                     (StoreRevisionExhausted (revision s));
        candidate ← apply_mutations s (request_mutations q);
        s' ← record_commit (set_revision next candidate) (idempotency_key q)
               (request_mutations q) next;
        Ok (Some s', {| result_revision := next; replayed := false |})
  end.
End commit.

Record InMemoryDurableStore := { runs : gmap RunId DurableRunState }.
Definition InMemoryDurableStore_new : InMemoryDurableStore := {| runs := ∅ |}.

Section in_memory.
Context `{StoreFormat}.

Definition memory_create_run (st : InMemoryDurableStore) (r : RunId) :
  InMemoryDurableStore * result StoreError StoreRevision :=
  if bool_decide (is_Some (runs st !! r)) then (st, Err (RunAlreadyExists r))
  else ({| runs := <[r := DurableRunState_new r]> (runs st) |}, Ok StoreRevision_INITIAL).
Definition memory_load_run (st : InMemoryDurableStore) (r : RunId) :
  result StoreError DurableRunState := ok_or (runs st !! r) (RunNotFound r).
Definition memory_commit (st : InMemoryDurableStore) (q : CommitRequest) :
  InMemoryDurableStore * result StoreError CommitResult :=
  if bool_decide (request_mutations q = []) then (st, Err EmptyCommit)
  else match runs st !! request_run_id q with
  | None => (st, Err (RunNotFound (request_run_id q)))
  | Some s =>
      match commit_run s q with
      | Ok (Some s', res) => ({| runs := <[request_run_id q := s']> (runs st) |}, Ok res)
      | Ok (None, res) => (st, Ok res)
      | Err e => (st, Err e)
      | Panic p => (st, Panic p)
      | NoFuel => (st, NoFuel)
      end
  end.
#[export] Instance InMemoryDurableStore_store : DurableStore InMemoryDurableStore :=
  {| create_run := memory_create_run; load_run := fun st r => (st, memory_load_run st r); commit := memory_commit |}.
End in_memory.
