(* ===== verification/DurableFacts.v ===== *)
(** * Facts about the durable run: lineage, commits and replay *)
From S2P Require Export Durable.
#[local] Open Scope string_scope.
#[local] Open Scope list_scope.

(** ** Bookkeeping the fact admission does not see *)
Lemma set_ledger_set_ledger l i l' i' s :
  set_ledger l i (set_ledger l' i' s) = set_ledger l i s.
Proof. by destruct s. Qed.
Lemma set_revision_set_ledger v l i s :
  set_revision v (set_ledger l i s) = set_ledger l i (set_revision v s).
Proof. by destruct s. Qed.
Lemma set_revision_set_revision v w s : set_revision v (set_revision w s) = set_revision v s.
Proof. by destruct s. Qed.
Lemma set_ledger_id s : set_ledger (commit_ledger s) (idempotency s) s = s.
Proof. by destruct s. Qed.

Ltac split_run := match goal with s : DurableRunState |- _ => destruct s end.

Lemma apply_mutation_set_ledger l i s m :
  apply_mutation (set_ledger l i s) m = set_ledger l i <$> apply_mutation s m.
Proof.
  destruct s, m; cbn; unfold apply_identity, apply_admission, apply_intent, apply_cancellation,
    apply_dispatch, apply_outcome, apply_completion, check_effect_completion, reject_if,
    violation, is_cancelled, latest_dispatch, dispatches_of; cbn;
  repeat (case_match; cbn; simplify_eq; try done).
Qed.
Lemma apply_mutation_set_revision v s m :
  apply_mutation (set_revision v s) m = set_revision v <$> apply_mutation s m.
Proof.
  destruct s, m; cbn; unfold apply_identity, apply_admission, apply_intent, apply_cancellation,
    apply_dispatch, apply_outcome, apply_completion, check_effect_completion, reject_if,
    violation, is_cancelled, latest_dispatch, dispatches_of; cbn;
  repeat (case_match; cbn; simplify_eq; try done).
Qed.
Lemma foldM_commute {E S A} (g : S -> S) (f : S -> A -> result E S) l s :
  (forall s a, f (g s) a = g <$> f s a) -> foldM f l (g s) = g <$> foldM f l s.
Proof.
  intros Hg. revert s. induction l as [|a l IH]; intros s; [done|]. simpl.
  rewrite Hg. destruct (f s a); simpl; auto.
Qed.
Lemma apply_mutations_set_ledger l i s ms :
  apply_mutations (set_ledger l i s) ms = set_ledger l i <$> apply_mutations s ms.
Proof. apply foldM_commute. intros; apply apply_mutation_set_ledger. Qed.

(** ** When a mutation is admitted

    [admitted s m s']: the durable rules for [m], one constructor per way a
    mutation succeeds. *)
Definition effect_succeeded (s : DurableRunState) (o : OperationId) (a : AttemptId) : Prop :=
  is_Some (intents s !! o) /\
  (exists d, dispatches s !! a = Some d /\ dispatch_operation_id d = o) /\
  (exists d, latest_dispatch s o = Some d /\ dispatch_attempt_id d = a) /\
  (exists r, outcomes s !! a = Some r /\ outcome r = Succeeded).

Inductive admitted (s : DurableRunState) : DurableMutation -> DurableRunState -> Prop :=
  | admitted_identity identity :
      trim_is_empty identity = false ->
      admitted s (RecordWorkflowReplayIdentity identity)
        (set_workflow_replay_identity (Some identity) s)
  | admitted_attempt a :
      admission_run_id a = run_id s -> admissions s !! admission_attempt_id a = None ->
      admitted s (AdmitAttempt a)
        (set_admissions (<[admission_attempt_id a := a]> (admissions s))
                        (admission_history s ++ [a]) s)
  | admitted_intent i :
      intents s !! intent_operation_id i = None -> task_operations s !! intent_task_id i = None ->
      admitted s (RecordIntent i)
        (set_intents (<[intent_operation_id i := i]> (intents s))
           (<[intent_task_id i := intent_operation_id i]> (task_operations s)) s)
  | admitted_intent_again i :
      intents s !! intent_operation_id i = Some i -> admitted s (RecordIntent i) s
  | admitted_cancellation c :
      cancellation_run_id c = run_id s -> cancellations s !! cancellation_task_id c = None ->
      (forall o, cancellation_operation_id c = Some o ->
         task_operations s !! cancellation_task_id c = Some o) ->
      (forall a, cancellation_attempt_id c = Some a -> exists x, admissions s !! a = Some x /\
         admission_task_id x = cancellation_task_id c /\
         admission_operation_id x = cancellation_operation_id c) ->
      admitted s (RecordCancellation c)
        (set_cancellations (<[cancellation_task_id c := c]> (cancellations s)) s)
  | admitted_cancellation_again c :
      cancellation_run_id c = run_id s -> cancellations s !! cancellation_task_id c = Some c ->
      admitted s (RecordCancellation c) s
  | admitted_dispatch d i a :
      intents s !! dispatch_operation_id d = Some i ->
      admissions s !! dispatch_attempt_id d = Some a ->
      admission_operation_id a = Some (dispatch_operation_id d) ->
      intent_task_id i = admission_task_id a ->
      cancellations s !! admission_task_id a = None ->
      dispatches s !! dispatch_attempt_id d = None ->
      admitted s (RecordDispatch d)
        (set_dispatches (<[dispatch_attempt_id d := d]> (dispatches s))
                        (dispatch_history s ++ [d]) s)
  | admitted_outcome r a d :
      admissions s !! outcome_attempt_id r = Some a ->
      dispatches s !! outcome_attempt_id r = Some d ->
      dispatch_operation_id d = outcome_operation_id r ->
      admission_operation_id a = Some (outcome_operation_id r) ->
      outcomes s !! outcome_attempt_id r = None ->
      admitted s (RecordOutcome r)
        (set_outcomes (<[outcome_attempt_id r := r]> (outcomes s)) (outcome_history s ++ [r]) s)
  | admitted_outcome_again r a d r' :
      admissions s !! outcome_attempt_id r = Some a ->
      dispatches s !! outcome_attempt_id r = Some d ->
      dispatch_operation_id d = outcome_operation_id r ->
      admission_operation_id a = Some (outcome_operation_id r) ->
      outcomes s !! outcome_attempt_id r = Some r' -> outcome r' = outcome r ->
      admitted s (RecordOutcome r) s
  | admitted_completion c a :
      admissions s !! completion_attempt_id c = Some a ->
      admission_task_id a = completion_task_id c ->
      (forall o, admission_operation_id a = Some o -> effect_succeeded s o (completion_attempt_id c)) ->
      completions s !! completion_task_id c = None ->
      admitted s (RecordCompletion c)
        (set_completions (<[completion_task_id c := c]> (completions s))
                         (completion_history s ++ [c]) s)
  | admitted_completion_again c a :
      admissions s !! completion_attempt_id c = Some a ->
      admission_task_id a = completion_task_id c ->
      (forall o, admission_operation_id a = Some o -> effect_succeeded s o (completion_attempt_id c)) ->
      completions s !! completion_task_id c = Some c ->
      admitted s (RecordCompletion c) s.

Lemma reject_if_Ok b i : reject_if b i = Ok tt <-> b = false.
Proof. by destruct b. Qed.

Lemma check_effect_completion_Ok s o a :
  check_effect_completion s o a = Ok tt <-> effect_succeeded s o a.
Proof.
  unfold check_effect_completion, reject_if, violation, effect_succeeded. split.
  - repeat case_bool_decide; simpl; try done. intros _. split_and!; try done.
    + destruct (dispatches s !! a); naive_solver.
    + destruct (latest_dispatch s o); naive_solver.
    + destruct (outcomes s !! a); naive_solver.
  - intros (Hi & (d & Hd & Hdo) & (d' & Hd' & Hda) & r & Hr & Ho).
    rewrite Hd, Hd', Hr. simpl. rewrite Hdo, Hda, Ho.
    by rewrite !bool_decide_true by done.
Qed.

Lemma apply_mutation_admitted s m s' : apply_mutation s m = Ok s' -> admitted s m s'.
Proof.
  destruct m; cbn.
  - unfold apply_identity. case_match eqn:E; [done|]. intros [= <-]. by constructor.
  - unfold apply_admission, reject_if, violation. repeat case_bool_decide; simpl; try done.
    intros [= <-]. constructor; [done|]. by apply eq_None_not_Some.
  - unfold apply_intent, violation. repeat case_match; simplify_eq; try done; intros [= <-].
    + case_bool_decide; simplify_eq. by constructor.
    + by constructor.
  - unfold apply_cancellation, violation. intros ([] & Hr & H)%bind_Ok.
    unfold reject_if, violation in *. case_bool_decide; simpl in *; [|done].
    destruct (cancellations s !! _) eqn:Ec.
    + case_bool_decide; simplify_eq. by constructor.
    + apply bind_Ok in H as ([] & H1 & H2). apply bind_Ok in H2 as ([] & H2 & [= <-]).
      constructor; [done|done| |].
      * intros o Ho. rewrite Ho in H1. by case_bool_decide.
      * intros a Ha. rewrite Ha in H2. destruct (admissions s !! a) as [x|]; [|done].
        repeat case_bool_decide; simpl in H2; try done. by exists x.
  - unfold apply_dispatch, reject_if, violation, is_cancelled.
    destruct (intents s !! _) as [i|] eqn:Ei; [|done].
    destruct (admissions s !! _) as [a|] eqn:Ea; [|done].
    repeat case_bool_decide; simpl; try done. intros [= <-].
    econstructor; try done; by apply eq_None_not_Some.
  - unfold apply_outcome, reject_if, violation.
    destruct (admissions s !! _) as [a|] eqn:Ea; [|done].
    destruct (dispatches s !! _) as [d|] eqn:Ed; [|done].
    repeat case_bool_decide; simpl; try done.
    destruct (outcomes s !! _) as [r|] eqn:Er; [case_bool_decide; [|done]|]; intros [= <-];
      econstructor; done.
  - unfold apply_completion.
    destruct (admissions s !! _) as [a|] eqn:Ea; [|done].
    intros ([] & Hr & H)%bind_Ok. apply reject_if_Ok in Hr.
    rewrite negb_false_iff, bool_decide_eq_true in Hr. apply bind_Ok in H as ([] & Heff & H).
    assert (forall o, admission_operation_id a = Some o ->
              effect_succeeded s o (completion_attempt_id completion)).
    { intros o Ho. rewrite Ho in Heff. by apply check_effect_completion_Ok. }
    unfold violation in H. case_match; [case_bool_decide|]; simplify_eq; econstructor; done.
Qed.

Lemma admitted_apply_mutation s m s' : admitted s m s' -> apply_mutation s m = Ok s'.
Proof.
  destruct 1; cbn; unfold apply_identity, apply_admission, apply_intent, apply_cancellation,
    apply_dispatch, apply_outcome, apply_completion, is_cancelled;
  repeat match goal with
  | H : _ !! _ = _ |- _ => rewrite H; clear H
  | H : trim_is_empty _ = _ |- _ => rewrite H; clear H
  end; rewrite ?bool_decide_false, ?bool_decide_true by (try done; by apply is_Some_None);
  try done; simpl.
  - assert (match cancellation_operation_id c with
            | Some o => reject_if (negb (bool_decide
                          (task_operations s !! cancellation_task_id c = Some o)))
                          (CancellationLineageMismatch (cancellation_task_id c))
            | None => Ok ()
            end = Ok ()) as ->.
    { destruct (cancellation_operation_id c) as [o|]; [|done].
      by rewrite bool_decide_true by by apply H1. }
    simpl. destruct (cancellation_attempt_id c) as [a|]; [|done].
    destruct (H2 a eq_refl) as (x & -> & Hx & Ho). by rewrite !bool_decide_true by done.
  - assert (match admission_operation_id a with
            | Some o => check_effect_completion s o (completion_attempt_id c)
            | None => Ok () end = Ok ()) as ->; [|done].
    destruct (admission_operation_id a); [|done]. apply check_effect_completion_Ok. auto.
  - assert (match admission_operation_id a with
            | Some o => check_effect_completion s o (completion_attempt_id c)
            | None => Ok () end = Ok ()) as ->; [|done].
    destruct (admission_operation_id a); [|done]. apply check_effect_completion_Ok. auto.
Qed.
Lemma apply_mutation_Ok s m s' : apply_mutation s m = Ok s' <-> admitted s m s'.
Proof. split; [apply apply_mutation_admitted|apply admitted_apply_mutation]. Qed.
Lemma apply_mutation_returns s m : returns (apply_mutation s m).
Proof.
  destruct m; cbn; unfold apply_identity, apply_admission, apply_intent, apply_cancellation,
    apply_dispatch, apply_outcome, apply_completion, check_effect_completion, reject_if, violation;
    repeat (case_match; try done); cbn; repeat (case_match; try done).
Qed.
Lemma apply_mutation_keeps s m s' :
  apply_mutation s m = Ok s' ->
  run_id s' = run_id s /\ revision s' = revision s /\ commit_ledger s' = commit_ledger s /\
  idempotency s' = idempotency s.
Proof. intros H%apply_mutation_Ok. by destruct H; destruct s. Qed.

(** ** The lineage invariant

    The maps are the indexes of the append-only histories, and every fact
    rests on the facts the admission rules ask for. *)
Record lineage (s : DurableRunState) : Prop := {
  li_admissions a : admissions s !! a =
    head (filter (fun x => admission_attempt_id x = a) (admission_history s));
  li_admissions_unique : NoDup (admission_attempt_id <$> admission_history s);
  li_admission_run x : x ∈ admission_history s -> admission_run_id x = run_id s;
  li_intent o i : intents s !! o = Some i ->
    intent_operation_id i = o /\ task_operations s !! intent_task_id i = Some o;
  li_owner t o : task_operations s !! t = Some o ->
    exists i, intents s !! o = Some i /\ intent_task_id i = t;
  li_cancellation t c : cancellations s !! t = Some c ->
    cancellation_task_id c = t /\ cancellation_run_id c = run_id s /\
    (forall o, cancellation_operation_id c = Some o -> task_operations s !! t = Some o) /\
    (forall a, cancellation_attempt_id c = Some a -> exists x, admissions s !! a = Some x /\
       admission_task_id x = t /\ admission_operation_id x = cancellation_operation_id c);
  li_dispatches a : dispatches s !! a =
    head (filter (fun d => dispatch_attempt_id d = a) (dispatch_history s));
  li_dispatches_unique : NoDup (dispatch_attempt_id <$> dispatch_history s);
  li_dispatch d : d ∈ dispatch_history s -> exists i a,
    intents s !! dispatch_operation_id d = Some i /\
    admissions s !! dispatch_attempt_id d = Some a /\
    admission_operation_id a = Some (dispatch_operation_id d) /\
    intent_task_id i = admission_task_id a;
  li_outcomes a : outcomes s !! a =
    head (filter (fun r => outcome_attempt_id r = a) (outcome_history s));
  li_outcomes_unique : NoDup (outcome_attempt_id <$> outcome_history s);
  li_outcome r : r ∈ outcome_history s -> exists d, d ∈ dispatch_history s /\
    dispatch_attempt_id d = outcome_attempt_id r /\
    dispatch_operation_id d = outcome_operation_id r;
  li_completions t : completions s !! t =
    head (filter (fun c => completion_task_id c = t) (completion_history s));
  li_completions_unique : NoDup (completion_task_id <$> completion_history s);
  li_completion c : c ∈ completion_history s -> exists a,
    admissions s !! completion_attempt_id c = Some a /\
    admission_task_id a = completion_task_id c /\
    forall o, admission_operation_id a = Some o ->
      exists r, outcomes s !! completion_attempt_id c = Some r /\
        outcome r = Succeeded /\ outcome_operation_id r = o;
  li_identity i : workflow_replay_identity s = Some i -> trim_is_empty i = false
}.

(** A map that indexes a history by a key, after one more entry. *)
Section index.
Context {A K : Type} `{Countable K} (key : A -> K).

Lemma index_insert (m : gmap K A) l x :
  (forall k, m !! k = head (filter (fun y => key y = k) l)) -> m !! key x = None ->
  forall k, <[key x := x]> m !! k = head (filter (fun y => key y = k) (l ++ [x])).
Proof.
  intros Hm Hx k. rewrite head_filter_snoc, <- Hm.
  destruct (decide (key x = k)) as [<-|Hne]; simplify_map_eq; [done|by destruct (m !! k)].
Qed.
Lemma index_fresh (m : gmap K A) l x :
  (forall k, m !! k = head (filter (fun y => key y = k) l)) -> m !! key x = None ->
  NoDup (key <$> l) -> NoDup (key <$> l ++ [x]).
Proof.
  intros Hm Hx Hnd. rewrite Hm, head_filter_None in Hx.
  rewrite fmap_app. apply NoDup_app. split_and!; [done| |apply NoDup_singleton].
  intros k (y & -> & Hy)%list_elem_of_fmap. simpl. rewrite list_elem_of_singleton. by apply Hx.
Qed.
Lemma index_elem (m : gmap K A) l x :
  (forall k, m !! k = head (filter (fun y => key y = k) l)) -> NoDup (key <$> l) ->
  x ∈ l -> m !! key x = Some x.
Proof. intros Hm Hnd Hx. rewrite Hm. by apply head_filter_key. Qed.
Lemma index_lookup (m : gmap K A) l k x :
  (forall k, m !! k = head (filter (fun y => key y = k) l)) ->
  m !! k = Some x -> x ∈ l /\ key x = k.
Proof. intros Hm Hk. rewrite Hm in Hk. by apply head_filter_Some in Hk. Qed.
End index.

Lemma lineage_new r : lineage (DurableRunState_new r).
Proof.
  split; cbn; try done; try apply NoDup_nil_2; intros *; rewrite ?lookup_empty; try done;
    by intros ?%elem_of_nil.
Qed.
Lemma lineage_set_ledger l i s : lineage (set_ledger l i s) <-> lineage s.
Proof. split; intros [?]; by split. Qed.
Lemma lineage_set_revision v s : lineage (set_revision v s) <-> lineage s.
Proof. split; intros [?]; by split. Qed.

(** Only the map lookups a new fact does not shadow survive: a lookup in a
    fresh insertion that succeeds elsewhere. *)
Lemma lookup_insert_fresh {K V} `{Countable K} (m : gmap K V) k v k' v' :
  m !! k = None -> m !! k' = Some v' -> <[k := v]> m !! k' = Some v'.
Proof. intros Hk Hk'. by rewrite lookup_insert_ne by congruence. Qed.
#[export] Hint Resolve lookup_insert_fresh : kernis.

Section lineage_step.
Context (s : DurableRunState) (L : lineage s).

Lemma lineage_admission a :
  admission_run_id a = run_id s -> admissions s !! admission_attempt_id a = None ->
  lineage (set_admissions (<[admission_attempt_id a := a]> (admissions s))
                          (admission_history s ++ [a]) s).
Proof.
  intros Hrun Hnew. destruct L. split; cbn; try done.
  - by apply index_insert.
  - by eapply index_fresh.
  - intros x [Hx|Hx%list_elem_of_singleton]%elem_of_app; subst; auto.
  - intros t c Hc. destruct (li_cancellation0 t c Hc) as (? & ? & ? & Ha).
    split_and!; try done. intros b Hb. destruct (Ha b Hb) as (x & ? & ?). eauto with kernis.
  - intros d Hd. destruct (li_dispatch0 d Hd) as (i & x & ? & ? & ?). eauto 6 with kernis.
  - intros c Hc. destruct (li_completion0 c Hc) as (x & ? & ? & ?). eauto with kernis.
Qed.
Lemma lineage_intent i :
  intents s !! intent_operation_id i = None -> task_operations s !! intent_task_id i = None ->
  lineage (set_intents (<[intent_operation_id i := i]> (intents s))
             (<[intent_task_id i := intent_operation_id i]> (task_operations s)) s).
Proof.
  intros Hnew Hfree. destruct L. split; cbn; try done.
  - intros o j [[<- <-]|[Hne Hj]]%lookup_insert_Some.
    + by rewrite lookup_insert_eq.
    + destruct (li_intent0 o j Hj). split; [done|]. eauto with kernis.
  - intros t o [[<- <-]|[Hne Ho]]%lookup_insert_Some.
    + exists i. by rewrite lookup_insert_eq.
    + destruct (li_owner0 t o Ho) as (j & ? & ?). eauto with kernis.
  - intros t c Hc. destruct (li_cancellation0 t c Hc) as (? & ? & Ho & ?).
    split_and!; try done. eauto with kernis.
  - intros d Hd. destruct (li_dispatch0 d Hd) as (j & x & ? & ? & ?). eauto 6 with kernis.
Qed.
Lemma lineage_cancellation c :
  cancellation_run_id c = run_id s -> cancellations s !! cancellation_task_id c = None ->
  (forall o, cancellation_operation_id c = Some o ->
     task_operations s !! cancellation_task_id c = Some o) ->
  (forall a, cancellation_attempt_id c = Some a -> exists x, admissions s !! a = Some x /\
     admission_task_id x = cancellation_task_id c /\
     admission_operation_id x = cancellation_operation_id c) ->
  lineage (set_cancellations (<[cancellation_task_id c := c]> (cancellations s)) s).
Proof.
  intros Hrun Hnew Hop Hat. destruct L. split; cbn; try done.
  intros t c' [[<- <-]|[Hne Hc]]%lookup_insert_Some; auto.
Qed.
Lemma lineage_dispatch d i a :
  intents s !! dispatch_operation_id d = Some i ->
  admissions s !! dispatch_attempt_id d = Some a ->
  admission_operation_id a = Some (dispatch_operation_id d) ->
  intent_task_id i = admission_task_id a ->
  dispatches s !! dispatch_attempt_id d = None ->
  lineage (set_dispatches (<[dispatch_attempt_id d := d]> (dispatches s))
                          (dispatch_history s ++ [d]) s).
Proof.
  intros Hi Ha Hop Ht Hnew. destruct L. split; cbn; try done.
  - by apply index_insert.
  - by eapply index_fresh.
  - intros x [Hx|Hx%list_elem_of_singleton]%elem_of_app; [auto|subst x]. by exists i, a.
  - intros r Hr. destruct (li_outcome0 r Hr) as (x & ? & ?). exists x. by rewrite elem_of_app; auto.
Qed.
Lemma lineage_outcome r d :
  dispatches s !! outcome_attempt_id r = Some d ->
  dispatch_operation_id d = outcome_operation_id r ->
  outcomes s !! outcome_attempt_id r = None ->
  lineage (set_outcomes (<[outcome_attempt_id r := r]> (outcomes s))
                        (outcome_history s ++ [r]) s).
Proof.
  intros Hd Hop Hnew. destruct L. split; cbn; try done.
  - by apply index_insert.
  - by eapply index_fresh.
  - apply (index_lookup dispatch_attempt_id _ _ _ _ li_dispatches0) in Hd as [??].
    intros x [Hx|Hx%list_elem_of_singleton]%elem_of_app; [auto|subst x]. by exists d.
  - intros c Hc. destruct (li_completion0 c Hc) as (x & ? & ? & Hx). exists x.
    split_and!; try done. intros o Ho. destruct (Hx o Ho) as (y & ? & ?). eauto with kernis.
Qed.
Lemma lineage_completion c a :
  admissions s !! completion_attempt_id c = Some a ->
  admission_task_id a = completion_task_id c ->
  (forall o, admission_operation_id a = Some o -> effect_succeeded s o (completion_attempt_id c)) ->
  completions s !! completion_task_id c = None ->
  lineage (set_completions (<[completion_task_id c := c]> (completions s))
                           (completion_history s ++ [c]) s).
Proof.
  intros Ha Ht Heff Hnew. destruct L. split; cbn; try done.
  - by apply index_insert.
  - by eapply index_fresh.
  - intros x [Hx|Hx%list_elem_of_singleton]%elem_of_app; [auto|subst x]. exists a.
    split_and!; try done. intros o Ho.
    destruct (Heff o Ho) as (_ & (d & Hd & <-) & _ & r & Hr & Hs). exists r.
    split_and!; try done.
    apply (index_lookup outcome_attempt_id _ _ _ _ li_outcomes0) in Hr as [Hr Hra].
    destruct (li_outcome0 r Hr) as (d' & Hd' & Hda & <-).
    apply (index_elem dispatch_attempt_id _ _ _ li_dispatches0 li_dispatches_unique0) in Hd'.
    rewrite Hda, Hra in Hd'. congruence.
Qed.
End lineage_step.

Lemma lineage_apply s m s' : lineage s -> apply_mutation s m = Ok s' -> lineage s'.
Proof.
  intros L Hm%apply_mutation_Ok. destruct Hm; try done;
    eauto using lineage_admission, lineage_intent, lineage_cancellation, lineage_dispatch,
      lineage_outcome, lineage_completion.
  destruct L. split; cbn; try done. by intros i [= <-].
Qed.
Lemma lineage_apply_all s ms s' : lineage s -> apply_mutations s ms = Ok s' -> lineage s'.
Proof. intros L. apply foldM_invariant; [|done]. intros ? ? ? _. apply lineage_apply. Qed.

(** ** Committed runs and the ledger *)
Section committed.
Context `{StoreFormat}.

(** The states of one run that commits produce.  An idempotency key made by
    [IdempotencyKey::new] or read by its deserializer is not blank. *)
Inductive committed (r : RunId) : DurableRunState -> Prop :=
  | committed_new : committed r (DurableRunState_new r)
  | committed_commit s q s' res :
      committed r s -> trim_is_empty (idempotency_key q) = false ->
      request_mutations q <> [] -> commit_run s q = Ok (Some s', res) -> committed r s'.

Lemma commit_binding_Ok k ms r b :
  commit_binding k ms r = Ok b <->
  exists bs, commit_to_allocvec (k, ms, r) = Some bs /\ b = fnv1a bs.
Proof.
  unfold commit_binding. destruct (commit_to_allocvec _) as [bs|]; simpl; naive_solver.
Qed.

(** What a commit that changes the run did. *)
Lemma commit_run_Some s q s' res :
  commit_run s q = Ok (Some s', res) <->
  idempotency s !! idempotency_key q = None /\ expected_revision q = revision s /\
  (revision s < u64_max)%N /\
  res = {| result_revision := (revision s + 1)%N; replayed := false |} /\
  exists c b, apply_mutations s (request_mutations q) = Ok c /\
    commit_binding (idempotency_key q) (request_mutations q) (revision s + 1)%N = Ok b /\
    s' = append_commit {| entry_key := idempotency_key q;
                          entry_mutations := request_mutations q;
                          entry_revision := (revision s + 1)%N; binding := b |} c.
Proof.
  unfold commit_run, record_commit, StoreRevision_checked_next. split.
  - destruct (idempotency s !! _) as [[ms' ?]|]; [by case_bool_decide|].
    destruct (N.eqb_spec (expected_revision q) (revision s)) as [He|]; simpl; [|done].
    intros (n & Hn & Hrest)%bind_Ok. apply ok_or_Ok in Hn.
    apply checked_succ_Some in Hn as [Hlt ->].
    apply bind_Ok in Hrest as (c & Hc & Hrest). apply bind_Ok in Hrest as (s1 & Hb & [= <- <-]).
    apply bind_Ok in Hb as (b & Hb & [= <-]).
    split_and!; try done. by exists c, b.
  - intros (-> & -> & Hlt & -> & c & b & Hc & Hb & ->).
    rewrite N.eqb_refl. simpl. unfold checked_succ. rewrite (proj2 (N.ltb_lt _ _) Hlt). simpl.
    rewrite Hc. simpl. by rewrite Hb.
Qed.

Lemma append_commit_ledger e s :
  commit_ledger (append_commit e s) = commit_ledger s ++ [e] /\
  idempotency (append_commit e s) =
    <[entry_key e := (entry_mutations e, entry_revision e)]> (idempotency s) /\
  revision (append_commit e s) = entry_revision e /\
  run_id (append_commit e s) = run_id s.
Proof. done. Qed.
Lemma lineage_append_commit e s : lineage s -> lineage (append_commit e s).
Proof. intros [?]; by split. Qed.

Lemma apply_mutations_keeps s ms s' :
  apply_mutations s ms = Ok s' ->
  run_id s' = run_id s /\ revision s' = revision s /\ commit_ledger s' = commit_ledger s /\
  idempotency s' = idempotency s.
Proof.
  unfold apply_mutations. revert s. induction ms as [|m ms IH]; intros s; simpl.
  { by intros [= ->]. }
  intros (s1 & H1%apply_mutation_keeps & H2)%bind_Ok.
  destruct (IH _ H2) as (? & ? & ? & ?). destruct H1 as (? & ? & ? & ?). split_and!; congruence.
Qed.

(** The ledger and its index in a committed run: consecutive revisions from 1,
    distinct non-blank keys, right bindings. *)
Record ledger_inv (r : RunId) (s : DurableRunState) : Prop := {
  ledger_run : run_id s = r;
  ledger_length : revision s = N.of_nat (length (commit_ledger s));
  ledger_bound : u64_ok (revision s);
  ledger_revisions i e : commit_ledger s !! i = Some e -> entry_revision e = N.of_nat (S i);
  ledger_index k v : idempotency s !! k = Some v <->
    exists e, e ∈ commit_ledger s /\ entry_key e = k /\ v = (entry_mutations e, entry_revision e);
  ledger_keys : NoDup (entry_key <$> commit_ledger s);
  ledger_entries e : e ∈ commit_ledger s ->
    trim_is_empty (entry_key e) = false /\ entry_mutations e <> [] /\
    commit_binding (entry_key e) (entry_mutations e) (entry_revision e) = Ok (binding e)
}.

Lemma ledger_inv_new r : ledger_inv r (DurableRunState_new r).
Proof.
  split; cbn; try done; try apply NoDup_nil_2; intros *; try by intros ?%elem_of_nil.
  rewrite lookup_empty. split; [done|]. by intros (e & ?%elem_of_nil & _).
Qed.

Lemma ledger_inv_append r s e :
  ledger_inv r s -> idempotency s !! entry_key e = None -> (revision s < u64_max)%N ->
  entry_revision e = (revision s + 1)%N -> trim_is_empty (entry_key e) = false ->
  entry_mutations e <> [] ->
  commit_binding (entry_key e) (entry_mutations e) (entry_revision e) = Ok (binding e) ->
  ledger_inv r (append_commit e s).
Proof.
  intros [Hrun Hlen Hb Hrev Hix Hkeys Hent] Hnew Hlt He Hk Hm Hbind.
  assert (Hfresh : forall e', e' ∈ commit_ledger s -> entry_key e' <> entry_key e).
  { intros e' He' Heq. assert (idempotency s !! entry_key e <> None) as Hn; [|done].
    rewrite <- Heq. intros Hn.
    assert (idempotency s !! entry_key e' = Some (entry_mutations e', entry_revision e')) as Hs
      by (apply Hix; eauto). congruence. }
  split; cbn; try done.
  - rewrite He, length_app, Hlen. simpl. lia.
  - unfold u64_ok. rewrite He. lia.
  - intros i x Hx. apply lookup_app_Some in Hx as [Hx|[Hi Hx]]; [by apply Hrev|].
    apply list_lookup_singleton_Some in Hx as [Hi0 <-]. rewrite He, Hlen. lia.
  - intros k v. split.
    + intros [[<- <-]|[Hne Hv]]%lookup_insert_Some.
      * exists e. rewrite elem_of_app, list_elem_of_singleton. auto.
      * apply Hix in Hv as (x & ? & ? & ?). exists x. rewrite elem_of_app. auto.
    + intros (x & [Hx|Hx%list_elem_of_singleton]%elem_of_app & <- & ->).
      * rewrite lookup_insert_ne by (intros ?; by apply (Hfresh x)). apply Hix. eauto.
      * subst x. by rewrite lookup_insert_eq.
  - rewrite fmap_app. apply NoDup_app. split_and!; [done| |apply NoDup_singleton].
    intros k (x & -> & Hx)%list_elem_of_fmap. simpl. rewrite list_elem_of_singleton. by apply Hfresh.
  - intros x [Hx|Hx%list_elem_of_singleton]%elem_of_app; [by apply Hent|by subst].
Qed.

Lemma committed_inv r s : committed r s -> lineage s /\ ledger_inv r s.
Proof.
  induction 1 as [|s q s' res _ [L I] Hk Hm Hc].
  { split; [apply lineage_new|apply ledger_inv_new]. }
  apply commit_run_Some in Hc as (Hnew & He & Hlt & -> & c & b & Hc & Hb & ->).
  pose proof (apply_mutations_keeps _ _ _ Hc) as (Hrun & Hrev & Hled & Hid).
  split; [by eapply lineage_append_commit, lineage_apply_all|].
  apply ledger_inv_append; cbn; try done; rewrite ?Hid, ?Hrev; try done.
  destruct I. split; rewrite ?Hrun, ?Hrev, ?Hled, ?Hid; try done.
Qed.

(** *** Replay *)
Lemma replay_entry_Ok s n e s' n' :
  replay_entry (s, n) e = Ok (s', n') <->
  trim_is_empty (entry_key e) = false /\ entry_mutations e <> [] /\ entry_revision e = n /\
  commit_binding (entry_key e) (entry_mutations e) (entry_revision e) = Ok (binding e) /\
  idempotency s !! entry_key e = None /\ (n < u64_max)%N /\ n' = (n + 1)%N /\
  exists c, apply_mutations s (entry_mutations e) = Ok c /\ s' = append_commit e c.
Proof.
  unfold replay_entry. rewrite apply_mutations_set_ledger.
  assert (Hfin : forall c, apply_mutations s (entry_mutations e) = Ok c ->
    set_revision (entry_revision e) (set_ledger (commit_ledger s ++ [e])
      (<[entry_key e := (entry_mutations e, entry_revision e)]> (idempotency s))
      (set_ledger (commit_ledger s)
        (<[entry_key e := (entry_mutations e, entry_revision e)]> (idempotency s)) c)) =
    append_commit e c).
  { intros c (_ & _ & Hl & Hi)%apply_mutations_keeps. unfold append_commit. by rewrite Hl, Hi. }
  split.
  - destruct (trim_is_empty (entry_key e)); [done|].
    case_bool_decide as Hm; [done|].
    destruct (N.eqb_spec (StoreRevision_get (entry_revision e)) n) as [Hn|]; [|done]. simpl.
    intros (b & Hb & Hrest)%bind_Ok.
    destruct (N.eqb_spec (binding e) b) as [->|]; [|done]. simpl in Hrest.
    case_bool_decide as Hidx; [done|]. apply bind_Ok in Hrest as (s2 & Hs2 & Hrest).
    apply bind_Ok in Hrest as (next & Hnext & [= <- <-]).
    apply ok_or_Ok, checked_succ_Some in Hnext as [Hlt ->].
    destruct (apply_mutations s (entry_mutations e)) as [c| | |] eqn:Ec; try done.
    injection Hs2 as <-.
    split_and!; try done; [by apply eq_None_not_Some|].
    exists c. split; [done|]. cbn. by apply Hfin.
  - intros (-> & Hm & Hn & -> & Hidx & Hlt & -> & c & Hc & ->).
    rewrite (bool_decide_false _ Hm), (bool_decide_false (is_Some _)) by (by rewrite Hidx; intros []).
    unfold StoreRevision_get. rewrite Hn, !N.eqb_refl. simpl. rewrite N.eqb_refl. simpl.
    rewrite Hc. simpl. unfold checked_succ. rewrite (proj2 (N.ltb_lt _ _) Hlt). simpl.
    specialize (Hfin c Hc). rewrite Hn in Hfin. by rewrite Hfin.
Qed.

Lemma replay_loop_Ok r ledger s n :
  foldM replay_entry ledger (DurableRunState_new r, 1%N) = Ok (s, n) <->
  committed r s /\ commit_ledger s = ledger /\ n = (revision s + 1)%N /\ (revision s < u64_max)%N.
Proof.
  revert s n. induction ledger as [|e ledger IH] using rev_ind; intros s n; simpl.
  - split.
    + intros [= <- <-]. split_and!; try done. constructor.
    + intros (Hc & Hl & -> & _). destruct Hc as [|s0 q s' res Hs Hk Hm Hc]; [done|].
      apply commit_run_Some in Hc as (_ & _ & _ & _ & c & b & _ & _ & ->).
      cbn in Hl. by destruct (commit_ledger c).
  - rewrite foldM_snoc, bind_Ok. split.
    + intros ([s0 m] & (Hs & <- & -> & Hlt)%IH & He).
      apply replay_entry_Ok in He as (Hk & Hm & Hrev & Hb & Hidx & Hlt' & -> & c & Hc & ->).
      pose proof (apply_mutations_keeps _ _ _ Hc) as (_ & Hrv & Hl & _).
      split_and!; cbn; rewrite ?Hrev, ?Hl; try done.
      eapply (committed_commit r s0 {| request_run_id := r; expected_revision := revision s0;
        idempotency_key := entry_key e; request_mutations := entry_mutations e |}); try done.
      apply commit_run_Some. split_and!; try done. cbn. exists c, (binding e).
      split_and!; try done; [by rewrite <- Hrev|]. destruct e; cbn in *. by subst.
    + intros (Hc & Hl & -> & Hlt). destruct Hc as [|s0 q s' res Hs Hk Hm Hc].
      { symmetry in Hl. by apply app_eq_nil in Hl as [_ ?]. }
      apply commit_run_Some in Hc as (Hidx & He & Hlt0 & -> & c & b & Hc & Hb & ->).
      pose proof (apply_mutations_keeps _ _ _ Hc) as (_ & Hrv & Hl0 & _).
      cbn in Hl, Hlt. rewrite Hl0 in Hl. apply app_inj_tail in Hl as [<- <-].
      exists (s0, (revision s0 + 1)%N). split; [by apply IH|].
      apply replay_entry_Ok. split_and!; try done. by exists c.
Qed.

Lemma replay_commit_ledger_Ok r ledger s :
  replay_commit_ledger r ledger = Ok s <->
  committed r s /\ commit_ledger s = ledger /\ (revision s < u64_max)%N.
Proof.
  unfold replay_commit_ledger. rewrite bind_Ok. split.
  - intros ([s0 n] & (Hc & Hl & -> & Hlt)%replay_loop_Ok & Hs).
    case_match; [done|]. by injection Hs as <-.
  - intros (Hc & Hl & Hlt). exists (s, (revision s + 1)%N). split; [by apply replay_loop_Ok|].
    unfold StoreRevision_get. rewrite (proj2 (N.eqb_eq _ _)); [done|]. lia.
Qed.

Lemma validate_persisted_Ok s :
  validate_persisted s = Ok tt <-> committed (run_id s) s /\ (revision s < u64_max)%N.
Proof.
  split.
  - unfold validate_persisted.
    destruct (match workflow_replay_identity s with Some i => trim_is_empty i | None => false end);
      [done|].
    destruct (existsb _ _); [done|].
    intros (c & (Hc & Hl & Hlt)%replay_commit_ledger_Ok & Heq)%bind_Ok.
    repeat (case_bool_decide; simpl in Heq; [|done]).
    assert (c = s) as ->; [|done].
    pose proof (ledger_run _ _ (proj2 (committed_inv _ _ Hc))).
    destruct c, s; simpl in *; by subst.
  - intros [Hc Hlt]. pose proof (committed_inv _ _ Hc) as [L I]. unfold validate_persisted.
    rewrite (proj2 (replay_commit_ledger_Ok _ _ s)) by done. cbn.
    rewrite !bool_decide_true by done. simpl.
    destruct (workflow_replay_identity s) as [i|] eqn:Ei.
    + rewrite (li_identity _ L _ Ei). destruct (existsb _ _) eqn:Ex; [|done].
      apply existsb_exists in Ex as (k & Hk & Hb).
      apply list_elem_of_In, elem_of_map_keys in Hk as [v Hv].
      apply (ledger_index _ _ I) in Hv as (e & He & <- & _).
      apply (ledger_entries _ _ I) in He as [? _]. congruence.
    + destruct (existsb _ _) eqn:Ex; [|done].
      apply existsb_exists in Ex as (k & Hk & Hb).
      apply list_elem_of_In, elem_of_map_keys in Hk as [v Hv].
      apply (ledger_index _ _ I) in Hv as (e & He & <- & _).
      apply (ledger_entries _ _ I) in He as [? _]. congruence.
Qed.
End committed.
