(* ===== verification/DurableStoreFacts.v ===== *)
(** * The in-memory durable store: commits, replay, append-only facts

    Theorems about every store a client can reach through [create_run] and
    [commit]. *)
From S2P Require Export DurableFacts.
#[local] Open Scope string_scope.
#[local] Open Scope list_scope.

(** A concrete format, for the examples: the binding hashes the key and the
    revision, and the debug text is constant. *)
Definition sample_format : StoreFormat :=
  {| commit_to_allocvec c :=
       Some (String.list_byte_of_string (c.1.1 +:+ pretty (N.of_nat (length c.1.2)) +:+ pretty c.2));
     StoreInvariant_debug _ := "invariant" |}.
Lemma sample_format_laws : @StoreFormatLaws sample_format.
Proof. split. intros c. eexists. reflexivity. Qed.

Section store.
Context `{StoreFormat}.

Inductive store_step (st : InMemoryDurableStore) : InMemoryDurableStore -> Prop :=
  | step_create r : store_step st (create_run st r).1
  | step_commit q : trim_is_empty (idempotency_key q) = false -> store_step st (commit st q).1.
Definition store_reachable (st : InMemoryDurableStore) : Prop :=
  rtc store_step InMemoryDurableStore_new st.

(** ** The effect of one operation on one run *)
Lemma commit_lookup st q r s' :
  runs (commit st q).1 !! r = Some s' ->
  runs st !! r = Some s' \/
  (r = request_run_id q /\ request_mutations q <> [] /\
   exists s res, runs st !! r = Some s /\ commit_run s q = Ok (Some s', res) /\
     (commit st q).2 = Ok res).
Proof.
  simpl. unfold memory_commit. case_bool_decide; [by left|].
  destruct (runs st !! request_run_id q) as [s|] eqn:Es; [|by left].
  destruct (commit_run s q) as [[[s1|] res]| | |] eqn:Ec; simpl; try by left.
  intros [[<- <-]|[Hne Hs]]%lookup_insert_Some; [|by left].
  right. split_and!; try done. by exists s, res.
Qed.
Lemma create_lookup st r0 r s' :
  runs (create_run st r0).1 !! r = Some s' ->
  runs st !! r = Some s' \/ (r = r0 /\ runs st !! r = None /\ s' = DurableRunState_new r).
Proof.
  simpl. unfold memory_create_run. case_bool_decide as Hr; simpl; [by left|].
  intros [[<- <-]|[Hne Hs]]%lookup_insert_Some; [|by left].
  right. split_and!; try done. by apply eq_None_not_Some.
Qed.
Lemma commit_keeps st q r s :
  runs st !! r = Some s ->
  runs (commit st q).1 !! r = Some s \/
  exists s' res, commit_run s q = Ok (Some s', res) /\ runs (commit st q).1 !! r = Some s'.
Proof.
  intros Hs. simpl. unfold memory_commit. case_bool_decide; [by left|].
  destruct (runs st !! request_run_id q) as [s0|] eqn:Es; [|by left].
  destruct (commit_run s0 q) as [[[s1|] res]| | |] eqn:Ec; simpl; try by left.
  destruct (decide (request_run_id q = r)) as [<-|Hne]; simplify_map_eq; [|by left].
  right. eauto.
Qed.
Lemma create_keeps st r0 r s :
  runs st !! r = Some s -> runs (create_run st r0).1 !! r = Some s.
Proof.
  intros Hs. simpl. unfold memory_create_run. case_bool_decide as Hr; simpl; [done|].
  rewrite lookup_insert_ne; [done|]. intros ->. rewrite Hs in Hr. by destruct Hr.
Qed.

Lemma reachable_committed st r s :
  store_reachable st -> runs st !! r = Some s -> committed r s.
Proof.
  intros Hst. revert s. revert Hst. apply (rtc_invariant store_step
    (fun st => forall s, runs st !! r = Some s -> committed r s)); [done|].
  intros st1 st2 _ IH Hstep s Hs. destruct Hstep as [r0|q Hk].
  - apply create_lookup in Hs as [Hs|(_ & _ & ->)]; [by apply IH|constructor].
  - apply commit_lookup in Hs as [Hs|(-> & Hm & s0 & res & Hs0 & Hc & _)]; [by apply IH|].
    eapply committed_commit; try done. by apply IH.
Qed.
Lemma committed_reachable r s :
  committed r s -> exists st, store_reachable st /\ runs st !! r = Some s.
Proof.
  induction 1 as [|s q s' res Hs (st & Hst & Hr) Hk Hm Hc].
  - exists (create_run InMemoryDurableStore_new r).1. split; [by apply rtc_once; constructor|].
    simpl. unfold memory_create_run. rewrite bool_decide_false by (cbn; by intros []).
    simpl. by rewrite lookup_insert_eq.
  - set (q' := {| request_run_id := r; expected_revision := expected_revision q;
      idempotency_key := idempotency_key q; request_mutations := request_mutations q |}).
    assert (Hc' : commit_run s q' = Ok (Some s', res)) by done.
    exists (commit st q').1. split.
    + eapply rtc_r; [exact Hst|]. by constructor.
    + simpl. unfold memory_commit. rewrite bool_decide_false by done. simpl.
      rewrite Hr, Hc'. simpl. by rewrite lookup_insert_eq.
Qed.

(** C1: replay is exact.  [replay_commit_ledger] accepts a ledger for a run
    exactly when some sequence of store operations leaves that run with this
    ledger and the state it returns (and the revision is below the last one),
    and the persisted form of such a run, its identity and its ledger alone,
    reads back as the very same state, materialized maps and histories
    included; a state whose maps, histories, revision or index differ from
    what its ledger says is refused. *)
Theorem durable_replay_exact (r : RunId) (ledger : list CommitLedgerEntry) (s : DurableRunState) :
  (replay_commit_ledger r ledger = Ok s <->
     (exists st, store_reachable st /\ runs st !! r = Some s) /\
     commit_ledger s = ledger /\ (revision s < u64_max)%N) /\
  (validate_persisted s = Ok tt <->
     (exists st, store_reachable st /\ runs st !! run_id s = Some s) /\
     (revision s < u64_max)%N) /\
  ((exists st, store_reachable st /\ runs st !! r = Some s) -> (revision s < u64_max)%N ->
     persisted_snapshot s =
       Ok {| snapshot_run_id := r; snapshot_commit_ledger := commit_ledger s |} /\
     from_persisted_snapshot
       {| snapshot_run_id := r; snapshot_commit_ledger := commit_ledger s |} = Ok s).
Proof.
  assert (Heq : forall r, (exists st, store_reachable st /\ runs st !! r = Some s) <-> committed r s).
  { intros r'. split; [intros (st & ? & ?); by eapply reachable_committed|].
    apply committed_reachable. }
  rewrite !Heq, replay_commit_ledger_Ok, validate_persisted_Ok. split_and!; try done.
  intros Hc Hlt. pose proof (ledger_run _ _ (proj2 (committed_inv _ _ Hc))) as Hrun.
  unfold persisted_snapshot, from_persisted_snapshot; simpl. split.
  - rewrite (proj2 (validate_persisted_Ok s)) by (by rewrite Hrun). by rewrite <- Hrun.
  - by apply replay_commit_ledger_Ok.
Qed.

(** ** Growth: nothing durable is ever rewritten *)
Record extends (s s' : DurableRunState) : Prop := {
  ex_run : run_id s' = run_id s;
  ex_revision : (revision s <= revision s')%N;
  ex_admissions : admission_history s `prefix_of` admission_history s';
  ex_admission_map : admissions s ⊆ admissions s';
  ex_intents : intents s ⊆ intents s';
  ex_owners : task_operations s ⊆ task_operations s';
  ex_cancellations : cancellations s ⊆ cancellations s';
  ex_dispatches : dispatch_history s `prefix_of` dispatch_history s';
  ex_dispatch_map : dispatches s ⊆ dispatches s';
  ex_outcomes : outcome_history s `prefix_of` outcome_history s';
  ex_outcome_map : outcomes s ⊆ outcomes s';
  ex_completions : completion_history s `prefix_of` completion_history s';
  ex_completion_map : completions s ⊆ completions s';
  ex_ledger : commit_ledger s `prefix_of` commit_ledger s';
  ex_index : idempotency s ⊆ idempotency s'
}.
#[local] Instance extends_po : PreOrder extends.
Proof.
  split.
  - intros s. by split.
  - intros s1 s2 s3 [] []. split; try (by etransitivity).
Qed.
Lemma extends_apply s m s' : apply_mutation s m = Ok s' -> extends s s'.
Proof.
  intros Hm%apply_mutation_Ok. destruct Hm; split; cbn; try done;
    try (by apply insert_subseteq); try (by eexists); by apply prefix_app_r.
Qed.
Lemma extends_apply_all s ms s' : apply_mutations s ms = Ok s' -> extends s s'.
Proof.
  unfold apply_mutations. apply (foldM_invariant (extends s)); [|done].
  intros s1 m s2 _ H1 H2%extends_apply. by etransitivity.
Qed.
Lemma extends_commit s q s' res : commit_run s q = Ok (Some s', res) -> extends s s'.
Proof.
  intros (Hnew & _ & _ & _ & c & b & Hc & _ & ->)%commit_run_Some.
  pose proof (apply_mutations_keeps _ _ _ Hc) as (Hrun & Hrev & Hled & Hid).
  destruct (extends_apply_all _ _ _ Hc). split; cbn; try done.
  - lia.
  - rewrite Hled. by apply prefix_app_r.
  - rewrite Hid. by apply insert_subseteq.
Qed.
Lemma extends_step st st' r s :
  store_step st st' -> runs st !! r = Some s -> exists s', runs st' !! r = Some s' /\ extends s s'.
Proof.
  intros Hstep Hs. destruct Hstep as [r0|q Hk].
  - exists s. split; [by apply create_keeps|done].
  - destruct (commit_keeps st q r s Hs) as [Hs'|(s' & res & Hc & Hs')]; [by exists s|].
    exists s'. split; [done|]. by eapply extends_commit.
Qed.
Lemma extends_steps st st' r s :
  rtc store_step st st' -> runs st !! r = Some s ->
  exists s', runs st' !! r = Some s' /\ extends s s'.
Proof.
  intros Hst Hs. revert Hst. apply (rtc_invariant store_step
    (fun st' => exists s', runs st' !! r = Some s' /\ extends s s')); [by exists s|].
  intros st1 st2 _ (s1 & Hs1 & He) Hstep.
  destruct (extends_step _ _ _ _ Hstep Hs1) as (s2 & Hs2 & He2). exists s2.
  split; [done|]. by etransitivity.
Qed.

(** A dispatch is admitted only for a task that is not cancelled. *)
Lemma dispatch_not_cancelled_apply s m s' d :
  lineage s -> apply_mutation s m = Ok s' -> d ∈ dispatch_history s' ->
  d ∈ dispatch_history s \/
  exists a, admissions s !! dispatch_attempt_id d = Some a /\
    cancellations s !! admission_task_id a = None.
Proof.
  intros L Hm%apply_mutation_Ok Hd. destruct Hm; cbn in Hd; try by left.
  apply elem_of_app in Hd as [Hd|Hd%list_elem_of_singleton]; [by left|].
  subst. right. by exists a.
Qed.
Lemma dispatch_not_cancelled s ms s' d t a :
  lineage s -> apply_mutations s ms = Ok s' -> is_Some (cancellations s !! t) ->
  admissions s' !! dispatch_attempt_id d = Some a -> admission_task_id a = t ->
  d ∈ dispatch_history s' -> d ∈ dispatch_history s.
Proof.
  unfold apply_mutations. revert s'. induction ms as [|m ms IH] using rev_ind; intros s'.
  { by intros _ [= ->]. }
  rewrite foldM_snoc. intros L (s1 & Hs1 & Hm)%bind_Ok Ht Ha Hat Hd.
  destruct (extends_apply_all s ms s1 Hs1). destruct (extends_apply _ _ _ Hm).
  pose proof (lineage_apply_all s ms s1 L Hs1) as L1.
  destruct (dispatch_not_cancelled_apply _ _ _ _ L1 Hm Hd) as [Hd1|(a1 & Ha1 & Hn)].
  - destruct (li_dispatch _ L1 _ Hd1) as (_ & a1 & _ & Ha1 & _).
    assert (a1 = a) as ->.
    { apply (lookup_weaken _ (admissions s')) in Ha1; [congruence|done]. }
    by apply (IH s1).
  - exfalso. apply (lookup_weaken _ (admissions s')) in Ha1; [|done].
    rewrite Ha1 in Ha. simplify_eq.
    destruct Ht as [c Hc]. apply (lookup_weaken _ (cancellations s1)) in Hc; [congruence|done].
Qed.

(** Durable facts are append-only.  However the store is used after a
    point, a run keeps its identity and every fact it had: each history and
    the ledger only grow at their end, no admitted attempt, intent, task
    owner, cancellation, dispatch, outcome, completion or idempotency entry
    is changed or lost, and the revision never goes back.  Once a task is
    cancelled, no attempt of it is ever dispatched again. *)
Theorem durable_append_only (st st' : InMemoryDurableStore) (r : RunId) (s : DurableRunState)
  (Hst : store_reachable st) (Hs : runs st !! r = Some s) (Hlater : rtc store_step st st') :
  exists s', runs st' !! r = Some s' /\ extends s s' /\
    forall t d a, is_cancelled s t = true ->
      d ∈ dispatch_history s' -> admissions s' !! dispatch_attempt_id d = Some a ->
      admission_task_id a = t -> d ∈ dispatch_history s.
Proof.
  revert Hlater. apply (rtc_invariant store_step (fun st' => exists s', runs st' !! r = Some s' /\
    extends s s' /\ forall t d a, is_cancelled s t = true ->
      d ∈ dispatch_history s' -> admissions s' !! dispatch_attempt_id d = Some a ->
      admission_task_id a = t -> d ∈ dispatch_history s)); [by exists s|].
  intros st1 st2 Hlater (s1 & Hs1 & He1 & Hd1) Hstep. destruct Hstep as [r0|q Hk].
  { exists s1. split; [by apply create_keeps|done]. }
  destruct (commit_keeps st1 q r s1 Hs1) as [Hs2|(s2 & res & Hc & Hs2)]; [by exists s1|].
  exists s2. split; [done|]. split; [etransitivity; [done|by eapply extends_commit]|].
  intros t d a Hcan Hd Ha Hat.
  assert (Hcom : committed r s1).
  { eapply reachable_committed; [|done]. unfold store_reachable. by transitivity st. }
  pose proof (proj1 (committed_inv _ _ Hcom)) as L1.
  apply commit_run_Some in Hc as (_ & _ & _ & _ & c & b & Hc & _ & ->). cbn in Hd, Ha.
  apply bool_decide_eq_true in Hcan as [x Hx].
  assert (Hin : d ∈ dispatch_history s1).
  { eapply (dispatch_not_cancelled _ _ _ _ t a); try done. exists x.
    eapply lookup_weaken; [done|apply He1]. }
  destruct (li_dispatch _ L1 _ Hin) as (_ & a1 & _ & Ha1 & _).
  apply (Hd1 t d a1); try done; [by apply bool_decide_eq_true; exists x|].
  apply (lookup_weaken _ (admissions c)) in Ha1;
    [congruence|by eapply ex_admission_map, extends_apply_all].
Qed.

(** ** Commits *)
Lemma commit_run_used s q ms rev :
  idempotency s !! idempotency_key q = Some (ms, rev) ->
  commit_run s q =
  if bool_decide (ms = request_mutations q)
  then Ok (None, {| result_revision := revision s; replayed := true |})
  else Err (IdempotencyConflict (idempotency_key q)).
Proof. unfold commit_run. by intros ->. Qed.
Lemma commit_run_None s q res :
  commit_run s q = Ok (None, res) ->
  exists rev, idempotency s !! idempotency_key q = Some (request_mutations q, rev) /\
    res = {| result_revision := revision s; replayed := true |}.
Proof.
  unfold commit_run. destruct (idempotency s !! _) as [[ms rev]|].
  - case_bool_decide as Hm; [subst|done]. intros [= <-]. by exists rev.
  - case_match; [done|].
    intros (n & _ & Hrest)%bind_Ok. apply bind_Ok in Hrest as (c & _ & Hrest).
    by apply bind_Ok in Hrest as (s' & _ & [= ]).
Qed.
Lemma commit_run_stale s q :
  idempotency s !! idempotency_key q = None -> expected_revision q <> revision s ->
  commit_run s q = Err (StoreRevisionConflict (expected_revision q) (revision s)).
Proof. unfold commit_run. intros -> Hne. by rewrite (proj2 (N.eqb_neq _ _) Hne). Qed.
Lemma commit_run_exhausted s q :
  idempotency s !! idempotency_key q = None -> expected_revision q = revision s ->
  revision s = u64_max -> commit_run s q = Err (StoreRevisionExhausted (revision s)).
Proof.
  unfold commit_run, StoreRevision_checked_next. intros -> -> Hm.
  rewrite N.eqb_refl. simpl. by rewrite Hm.
Qed.
Lemma commit_run_current s q :
  idempotency s !! idempotency_key q = None -> expected_revision q = revision s ->
  (revision s < u64_max)%N ->
  commit_run s q =
  c ← apply_mutations s (request_mutations q);
  b ← commit_binding (idempotency_key q) (request_mutations q) (revision s + 1)%N;
  Ok (Some (append_commit
        {| entry_key := idempotency_key q; entry_mutations := request_mutations q;
           entry_revision := (revision s + 1)%N; binding := b |} c),
      {| result_revision := (revision s + 1)%N; replayed := false |}).
Proof.
  unfold commit_run, StoreRevision_checked_next, record_commit. intros -> -> Hlt.
  rewrite N.eqb_refl. simpl. rewrite (proj2 (checked_succ_Some _ (revision s + 1)%N)) by done.
  simpl. destruct (apply_mutations s (request_mutations q)); simpl; try done.
  by destruct (commit_binding _ _ _).
Qed.
Lemma commit_binding_total `{!StoreFormatLaws} k ms r : exists b, commit_binding k ms r = Ok b.
Proof.
  unfold commit_binding. destruct (commit_serializable (k, ms, r)) as [bs ->]. by eexists.
Qed.
Lemma commit_run_returns `{!StoreFormatLaws} s q : returns (commit_run s q).
Proof.
  unfold commit_run. destruct (idempotency s !! _) as [[ms rev]|]; [by case_bool_decide|].
  case_match; [done|].
  apply returns_bind; [apply returns_ok_or|intros n _].
  apply returns_bind; [|intros c _].
  { apply (foldM_returns (fun _ => True)); [done|intros; apply apply_mutation_returns|done]. }
  unfold record_commit.
  by destruct (commit_binding_total (idempotency_key q) (request_mutations q) n) as [b ->].
Qed.

(** [commit], on every branch and in the order of its checks: an empty
    batch, an unknown run, a used key (a replay when the batch is the same,
    a conflict otherwise), a stale revision, an exhausted revision, a
    rejected mutation, and the commit, which advances the revision by one,
    applies the whole batch and appends its ledger entry.  Every other
    outcome leaves the store as it was, and a commit always returns. *)
Theorem commit_spec `{!StoreFormatLaws} (st : InMemoryDurableStore) (q : CommitRequest) :
  let st' := (commit st q).1 in
  let out := (commit st q).2 in
  returns out /\
  (request_mutations q = [] -> out = Err EmptyCommit) /\
  (request_mutations q <> [] -> runs st !! request_run_id q = None ->
     out = Err (RunNotFound (request_run_id q))) /\
  (request_mutations q <> [] -> forall s, runs st !! request_run_id q = Some s ->
     (forall ms rev, idempotency s !! idempotency_key q = Some (ms, rev) ->
        (ms = request_mutations q ->
           out = Ok {| result_revision := revision s; replayed := true |}) /\
        (ms <> request_mutations q -> out = Err (IdempotencyConflict (idempotency_key q)))) /\
     (idempotency s !! idempotency_key q = None ->
        (expected_revision q <> revision s ->
           out = Err (StoreRevisionConflict (expected_revision q) (revision s))) /\
        (expected_revision q = revision s -> revision s = u64_max ->
           out = Err (StoreRevisionExhausted (revision s))) /\
        (expected_revision q = revision s -> (revision s < u64_max)%N ->
           forall e, apply_mutations s (request_mutations q) = Err e -> out = Err e) /\
        (expected_revision q = revision s -> (revision s < u64_max)%N ->
           forall c, apply_mutations s (request_mutations q) = Ok c ->
           out = Ok {| result_revision := (revision s + 1)%N; replayed := false |} /\
           exists b, commit_binding (idempotency_key q) (request_mutations q)
                       (revision s + 1)%N = Ok b /\
             runs st' = <[request_run_id q := append_commit
               {| entry_key := idempotency_key q; entry_mutations := request_mutations q;
                  entry_revision := (revision s + 1)%N; binding := b |} c]> (runs st)))) /\
  (st' <> st -> exists res, out = Ok res /\ replayed res = false).
Proof.
  cbv zeta. simpl. unfold memory_commit.
  destruct (decide (request_mutations q = [])) as [Hm|Hm];
    [rewrite bool_decide_true by done|rewrite bool_decide_false by done].
  { split_and!; try done; by intros ?. }
  destruct (runs st !! request_run_id q) as [s|] eqn:Es; [|by split_and!].
  split_and!; try done.
  - pose proof (commit_run_returns s q) as Hret.
    by destruct (commit_run s q) as [[[s'|] res]| | |].
  - intros _ s0 [= <-]. split.
    + intros ms rev Hk. rewrite (commit_run_used _ _ _ _ Hk).
      split; intros ?; [rewrite bool_decide_true by done|rewrite bool_decide_false by done]; done.
    + intros Hk. split_and!.
      * intros He. by rewrite commit_run_stale.
      * intros He Hmax. by rewrite commit_run_exhausted.
      * intros He Hlt e Hms. rewrite commit_run_current by done. by rewrite Hms.
      * intros He Hlt c Hms. rewrite commit_run_current by done. rewrite Hms. simpl.
        destruct (commit_binding_total (idempotency_key q) (request_mutations q)
                    (revision s + 1)%N) as [b Hb].
        rewrite Hb. simpl. split; [done|]. by exists b.
  - destruct (commit_run s q) as [[[s'|] res]| | |] eqn:Ec; try done.
    intros _. exists res. split; [done|]. by apply commit_run_Some in Ec as (_ & _ & _ & -> & _).
Qed.

(** Idempotency.  Once a request has been committed, repeating it, with
    any expected revision and however the store was used in between, changes
    nothing and reports a replay at the current revision; the same key with a
    different batch is refused, and changes nothing either. *)
Theorem commit_idempotent (st st2 : InMemoryDurableStore) (q q' : CommitRequest)
  (res : CommitResult)
  (Hst : store_reachable st) (Hq : (commit st q).2 = Ok res)
  (Hlater : rtc store_step (commit st q).1 st2)
  (Hrun : request_run_id q' = request_run_id q)
  (Hkey : idempotency_key q' = idempotency_key q) :
  exists s, runs st2 !! request_run_id q = Some s /\
  (request_mutations q' = request_mutations q ->
     commit st2 q' = (st2, Ok {| result_revision := revision s; replayed := true |})) /\
  (request_mutations q' <> request_mutations q -> request_mutations q' <> [] ->
     commit st2 q' = (st2, Err (IdempotencyConflict (idempotency_key q)))).
Proof.
  assert (exists s rev, runs (commit st q).1 !! request_run_id q = Some s /\
    request_mutations q <> [] /\
    idempotency s !! idempotency_key q = Some (request_mutations q, rev))
    as (s & rev & Hs & Hne & Hi).
  { clear Hlater. revert Hq. simpl. unfold memory_commit. case_bool_decide as Hm; [done|].
    destruct (runs st !! request_run_id q) as [s|] eqn:Es; [|done].
    destruct (commit_run s q) as [[[s'|] r]| | |] eqn:Ec; simpl; try done; intros [= ->].
    - exists s', (revision s + 1)%N. rewrite lookup_insert_eq. split_and!; try done.
      apply commit_run_Some in Ec as (_ & _ & _ & _ & c & b & _ & _ & ->). cbn.
      by rewrite lookup_insert_eq.
    - apply commit_run_None in Ec as (rev & Hi & _). exists s, rev. by split_and!. }
  destruct (extends_steps _ _ _ _ Hlater Hs) as (s2 & Hs2 & He2). exists s2.
  pose proof (lookup_weaken _ _ _ _ Hi (ex_index _ _ He2)) as Hi2.
  split; [done|]. split.
  - intros Hm. simpl. unfold memory_commit. rewrite Hm, bool_decide_false by done.
    rewrite Hrun, Hs2. rewrite <- Hkey in Hi2. rewrite (commit_run_used _ _ _ _ Hi2).
    by rewrite bool_decide_true.
  - intros Hm Hne'. simpl. unfold memory_commit. rewrite bool_decide_false by done.
    rewrite Hrun, Hs2. rewrite <- Hkey in Hi2. rewrite (commit_run_used _ _ _ _ Hi2).
    rewrite bool_decide_false by done. by rewrite Hkey.
Qed.

(** Compare-and-swap.  Of two requests prepared against the same revision
    of a run under different keys, at most one takes effect: after the first
    one committed, and however the store was used since, the second is a
    revision conflict that names the revision it missed, unless its key was
    meanwhile used by someone else. *)
Theorem commit_exclusive (st st2 : InMemoryDurableStore) (q q' : CommitRequest)
  (res : CommitResult)
  (Hst : store_reachable st) (Hq : (commit st q).2 = Ok res) (Hfresh : replayed res = false)
  (Hlater : rtc store_step (commit st q).1 st2)
  (Hrun : request_run_id q' = request_run_id q)
  (Hrev : expected_revision q' = expected_revision q) (Hne : request_mutations q' <> []) :
  exists s, runs st2 !! request_run_id q = Some s /\ (expected_revision q' < revision s)%N /\
  (idempotency s !! idempotency_key q' = None ->
   commit st2 q' = (st2, Err (StoreRevisionConflict (expected_revision q') (revision s)))).
Proof.
  assert (exists s, runs (commit st q).1 !! request_run_id q = Some s /\
    (expected_revision q < revision s)%N) as (s & Hs & Hlt).
  { clear Hlater. revert Hq. simpl. unfold memory_commit. case_bool_decide as Hm; [done|].
    destruct (runs st !! request_run_id q) as [s|] eqn:Es; [|done].
    destruct (commit_run s q) as [[[s'|] r]| | |] eqn:Ec; simpl; try done; intros [= ->].
    - exists s'. rewrite lookup_insert_eq. split; [done|].
      apply commit_run_Some in Ec as (_ & -> & _ & _ & c & b & _ & _ & ->). cbn. lia.
    - by apply commit_run_None in Ec as (rev & _ & ->). }
  destruct (extends_steps _ _ _ _ Hlater Hs) as (s2 & Hs2 & He2). exists s2.
  pose proof (ex_revision _ _ He2). rewrite Hrev. split_and!; [done|lia|].
  intros Hk. simpl. unfold memory_commit. rewrite bool_decide_false by done.
  rewrite Hrun, Hs2, commit_run_stale; [by rewrite Hrev|done|]. rewrite Hrev. lia.
Qed.
End store.

Lemma apply_mutation_error s m e :
  apply_mutation s m = Err e -> e = EmptyWorkflowReplayIdentity \/ exists i, e = InvariantViolation i.
Proof.
  assert (He : match apply_mutation s m with
    | Ok _ => True
    | Err e => e = EmptyWorkflowReplayIdentity \/ exists i, e = InvariantViolation i
    | _ => False end).
  { destruct m; cbn; unfold apply_identity, apply_admission, apply_intent,
      apply_cancellation, apply_dispatch, apply_outcome, apply_completion,
      check_effect_completion, reject_if, violation;
    repeat (case_match; simplify_eq/=; eauto). }
  by intros Hm; rewrite Hm in He.
Qed.
(** The errors of a commit are the store's own. *)
Lemma commit_run_domain `{StoreFormat} s q e : commit_run s q = Err e -> kind e = KindDomain.
Proof.
  unfold commit_run. destruct (idempotency s !! _) as [[ms rev]|]; [case_bool_decide; by intros [= <-]|].
  case_match; [by intros [= <-]|]. unfold StoreRevision_checked_next.
  destruct (checked_succ _); [|by intros [= <-]]. cbn [ok_or mbind result_bind].
  intros [Hm|(c & _ & Hb)]%bind_Err.
  - apply foldM_Err in Hm as (c & m & Hm). by destruct (apply_mutation_error _ _ _ Hm) as [->|[i ->]].
  - unfold record_commit, commit_binding in Hb. by destruct (commit_to_allocvec _).
Qed.

Section invariant.
Context `{StoreFormat}.

(** C24: the durable facts of every run form one lineage.  The maps are the
    indexes of the append-only histories; attempt identities are never
    reused; a task and its operation own each other; every dispatch has an
    intent and an admitted attempt of the same operation and task, every
    outcome its dispatch, every completion an admitted attempt of its task
    and, when the attempt owns an operation, a known success of that very
    attempt; a task completes at most once.  The ledger holds consecutive
    revisions from one, distinct non-blank keys, non-empty batches and right
    bindings, and its length is the revision. *)
Theorem durable_lineage (st : InMemoryDurableStore) (r : RunId) (s : DurableRunState)
  (Hst : store_reachable st) (Hs : runs st !! r = Some s) : lineage s /\ ledger_inv r s.
Proof. apply committed_inv. by eapply reachable_committed. Qed.

(** The admission rules, on every branch.  [apply_mutation] succeeds
    exactly in the cases of [admitted], with exactly the stated effect, and
    otherwise returns a domain error: a violated invariant, or an empty
    replay identity. *)
Theorem apply_mutation_spec (s : DurableRunState) (m : DurableMutation) :
  (forall s', apply_mutation s m = Ok s' <-> admitted s m s') /\
  (~ (exists s', admitted s m s') -> exists e, apply_mutation s m = Err e /\
     kind e = KindDomain /\ (e = EmptyWorkflowReplayIdentity \/ exists i, e = InvariantViolation i)).
Proof.
  split; [intros s'; apply apply_mutation_Ok|]. intros Hn.
  assert (Hr : forall s', apply_mutation s m <> Ok s').
  { intros s' Hs'%apply_mutation_Ok. by apply Hn; exists s'. }
  pose proof (apply_mutation_returns s m) as Hret. pose proof (apply_mutation_error s m) as He.
  destruct (apply_mutation s m) as [s'|e| |]; try done; [by destruct (Hr s')|].
  destruct (He e eq_refl) as [->|[i ->]]; eauto.
Qed.
End invariant.

(** ** A store on which the theorems are exercised *)
#[local] Existing Instance sample_format.
Definition sample_request (n : N) (k : string) (m : DurableMutation) : CommitRequest :=
  CommitRequest_single "run" n k m.
Definition sample_requests : list CommitRequest :=
  [sample_request 0 "k0" (RecordWorkflowReplayIdentity "workflow:v1");
   sample_request 1 "k1" (AdmitAttempt {| admission_run_id := "run"; admission_task_id := "t";
     admission_attempt_id := "a1"; admission_operation_id := Some "op"; capabilities := [] |});
   sample_request 2 "k2" (RecordIntent {| intent_task_id := "t"; intent_operation_id := "op";
     semantics := NonIdempotent |});
   sample_request 3 "k3" (RecordDispatch {| dispatch_operation_id := "op";
     dispatch_attempt_id := "a1" |});
   sample_request 4 "k4" (RecordOutcome {| outcome_operation_id := "op";
     outcome_attempt_id := "a1"; outcome := Succeeded |});
   sample_request 5 "k5" (RecordCompletion {| completion_task_id := "t";
     completion_attempt_id := "a1" |})].
Definition sample_store_after (n : nat) : InMemoryDurableStore :=
  foldl (fun st q => (commit st q).1) (create_run InMemoryDurableStore_new "run").1
    (take n sample_requests).
Definition sample_run : DurableRunState :=
  default (DurableRunState_new "run") (runs (sample_store_after 6) !! "run").

Lemma sample_store_steps n :
  rtc store_step (create_run InMemoryDurableStore_new "run").1 (sample_store_after n).
Proof.
  unfold sample_store_after.
  assert (Hk : Forall (fun q => trim_is_empty (idempotency_key q) = false) (take n sample_requests)).
  { apply Forall_take. refine (bool_decide_unpack _ _). vm_compute. exact I. }
  revert Hk. generalize (take n sample_requests). clear n.
  generalize (create_run InMemoryDurableStore_new "run").1. intros st l. revert st.
  induction l as [|q l IH]; intros st Hk; [reflexivity|].
  apply Forall_cons in Hk as [Hq Hk]. cbn [foldl]. eapply rtc_l; [|by apply IH].
  by constructor.
Qed.
Lemma sample_store_reachable n : store_reachable (sample_store_after n).
Proof. eapply rtc_l; [apply (step_create _ "run")|apply sample_store_steps]. Qed.
Lemma sample_run_lookup : runs (sample_store_after 6) !! "run" = Some sample_run.
Proof. vm_compute. reflexivity. Qed.

Lemma durable_lineage_witness :
  runs (sample_store_after 6) !! "run" = Some sample_run /\
  lineage sample_run /\ ledger_inv "run" sample_run.
Proof.
  split; [exact sample_run_lookup|].
  exact (durable_lineage _ _ _ (sample_store_reachable 6) sample_run_lookup).
Defined.

Lemma durable_replay_exact_witness :
  length (commit_ledger sample_run) = 6 /\
  from_persisted_snapshot
    {| snapshot_run_id := "run"; snapshot_commit_ledger := commit_ledger sample_run |} =
  Ok sample_run.
Proof.
  split; [vm_compute; reflexivity|].
  destruct (durable_replay_exact "run" (commit_ledger sample_run) sample_run) as (_ & _ & H).
  apply H; [|vm_compute; reflexivity].
  exists (sample_store_after 6). split; [apply sample_store_reachable|exact sample_run_lookup].
Defined.

Lemma durable_append_only_witness :
  exists s', runs (sample_store_after 6) !! "run" = Some s' /\
    extends (DurableRunState_new "run") s' /\
    forall t d a, is_cancelled (DurableRunState_new "run") t = true ->
      d ∈ dispatch_history s' -> admissions s' !! dispatch_attempt_id d = Some a ->
      admission_task_id a = t -> d ∈ dispatch_history (DurableRunState_new "run").
Proof.
  apply (durable_append_only (sample_store_after 0) (sample_store_after 6) "run").
  - apply sample_store_reachable.
  - vm_compute. reflexivity.
  - apply sample_store_steps.
Defined.

Lemma commit_spec_witness :
  let q := sample_request 0 "k0" (RecordWorkflowReplayIdentity "workflow:v1") in
  (commit (sample_store_after 0) q).2 = Ok {| result_revision := 1%N; replayed := false |} /\
  returns (commit (sample_store_after 0) q).2.
Proof.
  split; [vm_compute; reflexivity|].
  exact (proj1 (@commit_spec sample_format sample_format_laws (sample_store_after 0) _)).
Defined.

Lemma commit_idempotent_witness :
  let q := sample_request 0 "k0" (RecordWorkflowReplayIdentity "workflow:v1") in
  (commit (sample_store_after 0) q).2 = Ok {| result_revision := 1%N; replayed := false |} /\
  exists s, runs (commit (sample_store_after 0) q).1 !! "run" = Some s /\
  (request_mutations q = request_mutations q ->
     commit (commit (sample_store_after 0) q).1 q =
       ((commit (sample_store_after 0) q).1,
        Ok {| result_revision := revision s; replayed := true |})) /\
  (request_mutations q <> request_mutations q -> request_mutations q <> [] ->
     commit (commit (sample_store_after 0) q).1 q =
       ((commit (sample_store_after 0) q).1, Err (IdempotencyConflict "k0"))).
Proof.
  cbv zeta. split; [vm_compute; reflexivity|].
  eapply (commit_idempotent (sample_store_after 0) _
    (sample_request 0 "k0" (RecordWorkflowReplayIdentity "workflow:v1"))
    (sample_request 0 "k0" (RecordWorkflowReplayIdentity "workflow:v1"))).
  - apply sample_store_reachable.
  - vm_compute. reflexivity.
  - apply rtc_refl.
  - reflexivity.
  - reflexivity.
Defined.

Lemma commit_exclusive_witness :
  let q := sample_request 0 "k0" (RecordWorkflowReplayIdentity "workflow:v1") in
  let q' := sample_request 0 "other" (RecordWorkflowReplayIdentity "workflow:v2") in
  exists s, runs (commit (sample_store_after 0) q).1 !! "run" = Some s /\
    (0 < revision s)%N /\
    (idempotency s !! idempotency_key q' = None ->
     commit (commit (sample_store_after 0) q).1 q' =
       ((commit (sample_store_after 0) q).1, Err (StoreRevisionConflict 0%N (revision s)))).
Proof.
  cbv zeta.
  eapply (commit_exclusive (sample_store_after 0) _
    (sample_request 0 "k0" (RecordWorkflowReplayIdentity "workflow:v1"))
    (sample_request 0 "other" (RecordWorkflowReplayIdentity "workflow:v2"))).
  - apply sample_store_reachable.
  - vm_compute. reflexivity.
  - reflexivity.
  - apply rtc_refl.
  - reflexivity.
  - reflexivity.
  - discriminate.
Defined.
