(* ===== verification/LedgerBinding.v ===== *)
(** * The binding of ledger entries: FNV-1a at width 64

    Each step of the hash is a bijection of the 64-bit words, so one changed
    byte always changes the binding; replay refuses such an entry. *)
From S2P Require Export DurableStoreFacts.
#[local] Open Scope string_scope.
#[local] Open Scope list_scope.

Definition fnv_prime_inverse : N := 14886173955864302971%N.
Abbreviation w64 := (2 ^ 64)%N.

Lemma fnv_prime_invertible : ((fnv_prime * fnv_prime_inverse) mod w64 = 1)%N.
Proof. vm_compute. reflexivity. Qed.
Lemma mul_fnv_prime_inj (x y : N) :
  (x < w64)%N -> (y < w64)%N ->
  ((x * fnv_prime) mod w64 = (y * fnv_prime) mod w64)%N -> x = y.
Proof.
  assert (Hinv : forall z, (z < w64)%N ->
    (((z * fnv_prime) mod w64 * fnv_prime_inverse) mod w64 = z)%N).
  { intros z Hz. rewrite N.Div0.mul_mod_idemp_l, <- N.mul_assoc.
    rewrite <- N.Div0.mul_mod_idemp_r, fnv_prime_invertible, N.mul_1_r.
    by apply N.mod_small. }
  intros Hx Hy Heq. rewrite <- (Hinv x Hx), <- (Hinv y Hy). by rewrite Heq.
Qed.
Lemma lxor_w64 (x y : N) : (x < w64)%N -> (y < w64)%N -> (N.lxor x y < w64)%N.
Proof.
  intros Hx Hy. destruct (N.eq_dec (N.lxor x y) 0) as [->|Hz]; [done|].
  apply N.log2_lt_pow2; [lia|].
  eapply N.le_lt_trans; [apply N.log2_lxor|]. apply N.max_lub_lt.
  - destruct (N.eq_dec x 0) as [->|]; [done|]. apply N.log2_lt_pow2; [lia|done].
  - destruct (N.eq_dec y 0) as [->|]; [done|]. apply N.log2_lt_pow2; [lia|done].
Qed.
Lemma byte_w64 (b : byte) : (Byte.to_N b < w64)%N.
Proof. eapply N.le_lt_trans; [apply Byte.to_N_bounded|done]. Qed.
Lemma fnv_step_w64 h b : (fnv_step h b < w64)%N.
Proof. by apply N.mod_lt. Qed.
Lemma fnv_step_inj_hash h h' b :
  (h < w64)%N -> (h' < w64)%N -> fnv_step h b = fnv_step h' b -> h = h'.
Proof.
  intros Hh Hh' Heq%mul_fnv_prime_inj; try (by apply lxor_w64, byte_w64).
  apply (f_equal (fun x => N.lxor x (Byte.to_N b))) in Heq.
  by rewrite !N.lxor_assoc, !N.lxor_nilpotent, !N.lxor_0_r in Heq.
Qed.
Lemma fnv_step_inj_byte h b b' : (h < w64)%N -> fnv_step h b = fnv_step h b' -> b = b'.
Proof.
  intros Hh Heq%mul_fnv_prime_inj; try (by apply lxor_w64, byte_w64).
  apply (f_equal (N.lxor h)) in Heq.
  rewrite <- !N.lxor_assoc, !N.lxor_nilpotent, !N.lxor_0_l in Heq.
  assert (Some b = Some b') as [= ->]; [|done].
  by rewrite <- !Byte.of_to_N, Heq.
Qed.
Lemma fnv_fold_w64 h bs : (h < w64)%N -> (foldl fnv_step h bs < w64)%N.
Proof.
  revert h. induction bs as [|b bs IH]; intros h Hh; [done|]. apply IH, fnv_step_w64.
Qed.
Lemma fnv_fold_inj h h' bs :
  (h < w64)%N -> (h' < w64)%N -> foldl fnv_step h bs = foldl fnv_step h' bs -> h = h'.
Proof.
  revert h h'. induction bs as [|b bs IH]; intros h h' Hh Hh' Heq; [done|].
  apply (fnv_step_inj_hash _ _ b); try done. apply IH; [apply fnv_step_w64..|done].
Qed.
Lemma fnv1a_one_byte l1 b b' l2 : b <> b' -> fnv1a (l1 ++ b :: l2) <> fnv1a (l1 ++ b' :: l2).
Proof.
  intros Hne Heq. unfold fnv1a in Heq. rewrite !foldl_app in Heq. simpl in Heq.
  apply fnv_fold_inj in Heq; [|apply fnv_step_w64..].
  apply Hne. eapply fnv_step_inj_byte; [|exact Heq]. by apply fnv_fold_w64.
Qed.
Lemma fnv1a_u64 bs : u64_ok (fnv1a bs).
Proof.
  unfold u64_ok, u64_max. assert (fnv1a bs < w64)%N as Hlt; [by apply fnv_fold_w64|].
  change w64 with 18446744073709551616%N in Hlt. lia.
Qed.

Section tamper.
Context `{StoreFormat, !StoreFormatLaws}.

(** Replay never panics, and whatever it refuses is data corruption. *)
Lemma replay_entry_outcome st e :
  match replay_entry st e with Ok _ | Err (DataCorruption _) => True | _ => False end.
Proof.
  destruct st as [s n]. unfold replay_entry.
  destruct (_ || _ || _); [done|].
  destruct (commit_binding_total (entry_key e) (entry_mutations e) (entry_revision e)) as [b ->].
  cbn [mbind result_bind]. destruct (negb (binding e =? b)%N); [done|].
  destruct (bool_decide (is_Some (idempotency s !! entry_key e))); [done|]. cbv zeta.
  pose proof (foldM_returns (fun _ => True) apply_mutation (entry_mutations e)
    (set_ledger (commit_ledger s)
      (<[entry_key e := (entry_mutations e, entry_revision e)]> (idempotency s)) s)) as Hret.
  specialize (Hret (fun _ _ _ _ _ => I) (fun s m _ => apply_mutation_returns s m) I).
  unfold apply_mutations. destruct (foldM _ _ _); try done. simpl.
  by destruct (checked_succ n).
Qed.
Lemma replay_outcome r ledger :
  (exists s, replay_commit_ledger r ledger = Ok s) \/
  (exists m, replay_commit_ledger r ledger = Err (DataCorruption m)).
Proof.
  unfold replay_commit_ledger.
  assert (Hl : forall st, (exists st', foldM replay_entry ledger st = Ok st') \/
                          (exists m, foldM replay_entry ledger st = Err (DataCorruption m))).
  { induction ledger as [|e ledger IH]; intros st; simpl; [left; by exists st|].
    pose proof (replay_entry_outcome st e) as He.
    destruct (replay_entry st e) as [st1|err| |]; try done; simpl; [apply IH|].
    destruct err; try done. right. by eexists. }
  destruct (Hl (DurableRunState_new r, (StoreRevision_get StoreRevision_INITIAL + 1)%N))
    as [[[s n] ->]|[m ->]]; simpl; [|right; by eexists].
  destruct (negb _); [right|left]; by eexists.
Qed.

(** C30: tampering with a persisted ledger is detected.  Replay returns for
    every ledger, and everything it refuses is reported as data corruption.
    It refuses a ledger with an entry out of place (dropped, repeated or
    reordered entries), one that uses an idempotency key twice, and one with
    an entry whose encoded key, batch and revision differ in a single byte
    from those its binding was computed for. *)
Theorem ledger_tamper_evident (r : RunId) (l1 l2 : list CommitLedgerEntry)
  (e : CommitLedgerEntry) :
  let refused := exists m, replay_commit_ledger r (l1 ++ e :: l2) = Err (DataCorruption m) in
  (refused \/ exists s, replay_commit_ledger r (l1 ++ e :: l2) = Ok s) /\
  (entry_revision e <> N.of_nat (S (length l1)) -> refused) /\
  (entry_key e ∈ entry_key <$> l1 -> refused) /\
  (forall k ms rev b1 x y b2, x <> y ->
     commit_to_allocvec (k, ms, rev) = Some (b1 ++ x :: b2) ->
     commit_to_allocvec (entry_key e, entry_mutations e, entry_revision e)
       = Some (b1 ++ y :: b2) ->
     commit_binding k ms rev = Ok (binding e) -> refused).
Proof.
  intros refused.
  assert (Hout : refused \/ exists s, replay_commit_ledger r (l1 ++ e :: l2) = Ok s).
  { destruct (replay_outcome r (l1 ++ e :: l2)); [by right|by left]. }
  assert (Hinv : (exists s, replay_commit_ledger r (l1 ++ e :: l2) = Ok s) ->
    entry_revision e = N.of_nat (S (length l1)) /\ (entry_key e ∉ entry_key <$> l1) /\
    commit_binding (entry_key e) (entry_mutations e) (entry_revision e) = Ok (binding e)).
  { intros (s & (Hc & Hl & _)%replay_commit_ledger_Ok).
    pose proof (proj2 (committed_inv _ _ Hc)) as I. split_and!.
    - apply (ledger_revisions _ _ I). by rewrite Hl, list_lookup_middle.
    - pose proof (ledger_keys _ _ I) as Hk. rewrite Hl, fmap_app, fmap_cons in Hk.
      apply NoDup_app in Hk as (_ & Hk & _). intros Hin. apply (Hk _ Hin). by left.
    - apply (ledger_entries _ _ I). rewrite Hl, elem_of_app. right. by left. }
  split_and!; [done|..].
  - intros Hne. destruct Hout as [|Hok]; [done|]. by destruct (Hinv Hok).
  - intros Hin. destruct Hout as [|Hok]; [done|]. by destruct (Hinv Hok) as (_ & ? & _).
  - intros k ms rev b1 x y b2 Hne Hx Hy Hb. destruct Hout as [|Hok]; [done|]. exfalso.
    destruct (Hinv Hok) as (_ & _ & Hb').
    apply commit_binding_Ok in Hb as (bs & Hbs & Hb).
    apply commit_binding_Ok in Hb' as (bs' & Hbs' & Hb').
    rewrite Hx in Hbs. rewrite Hy in Hbs'. simplify_eq.
    apply (fnv1a_one_byte b1 x y b2); [done|]. congruence.
Qed.
End tamper.

(** One letter of the key of the first ledger entry is changed. *)
Lemma ledger_tamper_evident_witness :
  exists e m, commit_ledger sample_run !! 0 = Some e /\
    @replay_commit_ledger sample_format "run"
      ([] ++ {| entry_key := "K0"; entry_mutations := entry_mutations e;
                entry_revision := entry_revision e; binding := binding e |}
       :: drop 1 (commit_ledger sample_run)) = Err (DataCorruption m).
Proof.
  destruct (commit_ledger sample_run !! 0) as [e|] eqn:He; [|vm_compute in He; discriminate].
  exists e.
  destruct (@ledger_tamper_evident sample_format sample_format_laws "run" []
    (drop 1 (commit_ledger sample_run))
    {| entry_key := "K0"; entry_mutations := entry_mutations e;
       entry_revision := entry_revision e; binding := binding e |}) as (_ & _ & _ & Hone).
  vm_compute in He. injection He as <-.
  destruct (Hone "k0" [RecordWorkflowReplayIdentity "workflow:v1"] 1%N []
    (Byte.x6b) (Byte.x4b) (String.list_byte_of_string "011")) as [m Hm].
  - discriminate.
  - vm_compute. reflexivity.
  - vm_compute. reflexivity.
  - vm_compute. reflexivity.
  - exists m. split; [reflexivity|exact Hm].
Defined.
