(* ===== verification/JournalView.v ===== *)
(** * The journal view of a durable run

    [DurableJournal::from_durable_state] of
    [crates/workflow-recovery/src/journal.rs]: recovery works on a journal
    rebuilt from the durable facts.  The rebuilt journal always exists and
    answers as the durable state does, so recovery after a restart decides as
    it would have before. *)
From S2P Require Export Recovery DurableStoreFacts.
#[local] Open Scope string_scope.
#[local] Open Scope list_scope.

Definition from_durable_state (s : DurableRunState) : result JournalError DurableJournal :=
  j1 ← foldM persist_intent (intents_iter s) DurableJournal_new;
  j2 ← foldM persist_dispatch (dispatch_history s) j1;
  foldM persist_outcome (outcome_history s) j2.

Definition durable_facts (s : DurableRunState) : list JournalFact :=
  (FactIntent <$> intents_iter s) ++ (FactDispatch <$> dispatch_history s)
  ++ (FactOutcome <$> outcome_history s).

Lemma foldM_fmap {E S A B} (f : S -> B -> result E S) (g : A -> B) l s :
  foldM f (g <$> l) s = foldM (fun s a => f s (g a)) l s.
Proof. revert s. induction l as [|a l IH]; intros s; [done|]. simpl. destruct (f s (g a)); simpl; auto. Qed.
Lemma from_durable_state_facts s : from_durable_state s = persist_all (durable_facts s).
Proof.
  unfold persist_all, durable_facts, from_durable_state.
  rewrite !foldM_app, foldM_fmap. simpl.
  destruct (foldM persist_intent _ _) as [j1| | |]; try done. simpl.
  rewrite foldM_app, foldM_fmap. simpl.
  destruct (foldM persist_dispatch _ _) as [j2| | |]; try done. simpl.
  by rewrite foldM_fmap.
Qed.

Section logs_of_run.
Context (s : DurableRunState) (L : lineage s).

Lemma log_intents_mixed ts ds rs :
  log_intents ((FactIntent <$> ts) ++ (FactDispatch <$> ds) ++ (FactOutcome <$> rs)) = ts.
Proof.
  unfold log_intents. rewrite !omap_app, omap_fmap_Some, !omap_fmap_None by done.
  by rewrite !app_nil_r.
Qed.
Lemma log_dispatches_mixed ts ds rs :
  log_dispatches ((FactIntent <$> ts) ++ (FactDispatch <$> ds) ++ (FactOutcome <$> rs)) = ds.
Proof.
  unfold log_dispatches. rewrite !omap_app, omap_fmap_None, omap_fmap_Some, omap_fmap_None by done.
  by rewrite !app_nil_r.
Qed.
Lemma log_outcomes_mixed ts ds rs :
  log_outcomes ((FactIntent <$> ts) ++ (FactDispatch <$> ds) ++ (FactOutcome <$> rs)) = rs.
Proof. unfold log_outcomes. by rewrite !omap_app, !omap_fmap_None, omap_fmap_Some by done. Qed.

Lemma intents_iter_ops : NoDup (intent_operation_id <$> intents_iter s).
Proof.
  apply NoDup_map_values_by. intros o o' i i' [Hi _]%(li_intent _ L) [Hi' _]%(li_intent _ L). congruence.
Qed.
Lemma intents_iter_tasks : NoDup (intent_task_id <$> intents_iter s).
Proof.
  apply NoDup_map_values_by. intros o o' i i' [_ Hi]%(li_intent _ L) [_ Hi']%(li_intent _ L) Heq.
  congruence.
Qed.

Lemma log_intent_run ds rs o :
  log_intent ((FactIntent <$> intents_iter s) ++ (FactDispatch <$> ds) ++ (FactOutcome <$> rs)) o =
  intents s !! o.
Proof.
  unfold log_intent. rewrite log_intents_mixed.
  destruct (intents s !! o) as [i|] eqn:Ei.
  - pose proof (li_intent _ L _ _ Ei) as [<- _].
    apply head_filter_key; [apply intents_iter_ops|]. apply elem_of_map_values. eauto.
  - apply head_filter_None. intros i (o' & Hi)%elem_of_map_values <-.
    destruct (li_intent _ L _ _ Hi) as [Ho _]. congruence.
Qed.
Lemma log_owner_run ds rs t :
  log_owner ((FactIntent <$> intents_iter s) ++ (FactDispatch <$> ds) ++ (FactOutcome <$> rs)) t =
  task_operations s !! t.
Proof.
  unfold log_owner. rewrite log_intents_mixed.
  destruct (task_operations s !! t) as [o|] eqn:Eo.
  - destruct (li_owner _ L _ _ Eo) as (i & Hi & <-).
    rewrite (head_filter_key intent_task_id _ i); [|apply intents_iter_tasks|].
    + simpl. f_equal. by destruct (li_intent _ L _ _ Hi).
    + apply elem_of_map_values. eauto.
  - apply fmap_None, head_filter_None. intros i (o & Hi)%elem_of_map_values <-.
    destruct (li_intent _ L _ _ Hi) as [_ Ho]. congruence.
Qed.

Lemma persist_all_snoc fs f :
  is_Ok (persist_all fs) ->
  (forall j, journal_of_log fs j -> is_Ok (persist j f)) -> is_Ok (persist_all (fs ++ [f])).
Proof.
  unfold persist_all. intros [j Hj] Hf. destruct (Hf j) as [j' Hj']; [by apply persist_all_log|].
  exists j'. rewrite foldM_snoc, Hj. exact Hj'.
Qed.

Lemma persist_intents ts1 ts2 :
  intents_iter s = ts1 ++ ts2 -> is_Ok (persist_all (FactIntent <$> ts1)).
Proof.
  revert ts2. induction ts1 as [|i ts1 IH] using rev_ind; intros ts2 Heq; [by eexists|].
  rewrite fmap_app. simpl. rewrite <- (assoc_L (++)) in Heq. apply persist_all_snoc; [by eapply IH|].
  intros j Hj. apply (persist_intent_Ok _ _ Hj).
  pose proof intents_iter_ops as Ho. pose proof intents_iter_tasks as Ht. rewrite Heq in Ho, Ht.
  apply NoDup_middle_fresh in Ho, Ht.
  pose proof (log_intents_mixed ts1 [] []) as Hl. rewrite !app_nil_r in Hl.
  unfold log_intent, log_owner. rewrite Hl. split.
  - apply head_filter_None. intros x Hx Hxo. apply Ho. rewrite <- Hxo. by apply list_elem_of_fmap_2.
  - apply fmap_None, head_filter_None. intros x Hx Hxt. apply Ht. rewrite <- Hxt.
    by apply list_elem_of_fmap_2.
Qed.
Lemma persist_dispatches ds1 ds2 :
  dispatch_history s = ds1 ++ ds2 ->
  is_Ok (persist_all ((FactIntent <$> intents_iter s) ++ (FactDispatch <$> ds1))).
Proof.
  revert ds2. induction ds1 as [|d ds1 IH] using rev_ind; intros ds2 Heq.
  { rewrite app_nil_r. apply (persist_intents _ []). by rewrite app_nil_r. }
  rewrite fmap_app, (assoc_L (++)). simpl. rewrite <- (assoc_L (++)) in Heq.
  apply persist_all_snoc; [by eapply IH|].
  intros j Hj. apply (persist_dispatch_Ok _ _ Hj).
  pose proof (li_dispatches_unique _ L) as Hu. rewrite Heq in Hu. apply NoDup_middle_fresh in Hu.
  pose proof (log_dispatches_mixed (intents_iter s) ds1 []) as Hl.
  pose proof (log_intent_run ds1 [] (dispatch_operation_id d)) as Hi. simpl in Hl, Hi.
  rewrite app_nil_r in Hl, Hi. rewrite Hl, Hi. split; [|done].
  destruct (li_dispatch _ L d) as (i & _ & -> & _); [|done].
  rewrite Heq, elem_of_app. right. by left.
Qed.
Lemma persist_outcomes rs1 rs2 :
  outcome_history s = rs1 ++ rs2 ->
  is_Ok (persist_all ((FactIntent <$> intents_iter s) ++ (FactDispatch <$> dispatch_history s)
                      ++ (FactOutcome <$> rs1))).
Proof.
  revert rs2. induction rs1 as [|r rs1 IH] using rev_ind; intros rs2 Heq.
  { rewrite app_nil_r. apply (persist_dispatches _ []). by rewrite app_nil_r. }
  rewrite fmap_app, !(assoc_L (++)). simpl. rewrite <- (assoc_L (++)) in Heq.
  apply persist_all_snoc; [rewrite <- !(assoc_L (++)); by eapply IH|].
  intros j Hj. apply (persist_outcome_Ok _ _ Hj).
  pose proof (li_outcomes_unique _ L) as Hu. rewrite Heq in Hu. apply NoDup_middle_fresh in Hu.
  rewrite <- (assoc_L (++)), log_dispatches_mixed. unfold log_outcome. rewrite log_outcomes_mixed.
  split.
  - apply (li_outcome _ L). rewrite Heq, elem_of_app. right. by left.
  - intros r' [Hin Hat]%head_filter_Some. destruct Hu. rewrite <- Hat. by apply list_elem_of_fmap_2.
Qed.

Lemma from_durable_state_Ok :
  exists j, from_durable_state s = Ok j /\ journal_of_log (durable_facts s) j.
Proof.
  destruct (persist_outcomes (outcome_history s) []) as [j Hj]; [by rewrite app_nil_r|].
  exists j. rewrite from_durable_state_facts. split; [done|]. by apply persist_all_log.
Qed.
Lemma log_latest_run o : log_latest (durable_facts s) o = latest_dispatch s o.
Proof. unfold log_latest, durable_facts. by rewrite log_dispatches_mixed. Qed.
Lemma log_outcome_run a : log_outcome (durable_facts s) a = outcome_for_attempt s a.
Proof.
  unfold log_outcome, durable_facts, outcome_for_attempt. rewrite log_outcomes_mixed.
  symmetry. apply L.
Qed.
Lemma log_state_run o : log_state (durable_facts s) o = effect_state s o.
Proof.
  unfold log_state, effect_state. rewrite log_latest_run.
  unfold durable_facts. rewrite log_intent_run. fold (durable_facts s).
  destruct (intents s !! o); simpl; [|done].
  destruct (latest_dispatch s o) as [d|]; [|done]. rewrite log_outcome_run.
  by destruct (outcome_for_attempt s _).
Qed.
End logs_of_run.

(** Refinement between the two views of one run.  For every run a store
    holds, the compatibility journal rebuilt from it exists, and it answers
    every recovery query as the durable state does: intents, task owners,
    latest dispatches, known outcomes and the derived effect state. *)
Theorem journal_view_faithful `{StoreFormat} (st : InMemoryDurableStore) (r : RunId)
  (s : DurableRunState) (Hst : store_reachable st) (Hs : runs st !! r = Some s) :
  exists j, from_durable_state s = Ok j /\
  (forall o, journal_intent j o = ok_or (intent s o) (UnknownOperation o)) /\
  (forall t, journal_operation_for_task j t = operation_for_task s t) /\
  (forall o, journal_latest_dispatch j o = latest_dispatch s o) /\
  (forall o, known_outcome j o = latest_outcome s o) /\
  (forall o, journal_state j o = effect_state s o) /\
  journal_operation_ids j = operation_ids s.
Proof.
  destruct (committed_inv _ _ (reachable_committed _ _ _ Hst Hs)) as [L _].
  destruct (from_durable_state_Ok s L) as (j & Hj & J). exists j. split; [done|].
  assert (Hi : forall o, journal_intents j !! o = intents s !! o).
  { intros o. rewrite (jl_intents _ _ J). by apply log_intent_run. }
  split_and!.
  - intros o. unfold journal_intent, intent. by rewrite Hi.
  - intros t. unfold journal_operation_for_task. rewrite (jl_owners _ _ J). by apply log_owner_run.
  - intros o. rewrite (journal_latest_dispatch_log _ _ J). apply log_latest_run.
  - intros o. rewrite (known_outcome_log _ _ J), log_latest_run. unfold latest_outcome.
    destruct (latest_dispatch s o) as [d|]; [|done]. cbn. by apply log_outcome_run.
  - intros o. rewrite (journal_state_log _ _ J). by apply log_state_run.
  - unfold journal_operation_ids, operation_ids. apply set_eq. intros o.
    by rewrite !elem_of_dom, Hi.
Qed.

(** C25: crash recovery.  A run that is persisted and read back in a new
    process gives the same state, its journal exists, and classification
    returns for every operation: an error exactly when the run has no intent
    for it.  A decision to execute means that no dispatch of the operation is
    durable; a decision to retry, that it is idempotent and the outcome of
    its latest dispatch is unknown; a decision to complete without a new
    call, that its latest dispatch is known to have succeeded. *)
Theorem recovery_after_restart `{StoreFormat} (st : InMemoryDurableStore) (r : RunId)
  (s : DurableRunState) (workflow : WorkflowGraph)
  (Hst : store_reachable st) (Hs : runs st !! r = Some s) (Hlt : (revision s < u64_max)%N) :
  exists p j, persisted_snapshot s = Ok p /\ from_persisted_snapshot p = Ok s /\
  from_durable_state s = Ok j /\ forall o,
  returns (classify_recovery workflow j o) /\
  (classify_recovery workflow j o = Err (UnknownOperation o) <-> intent s o = None) /\
  (forall d, classify_recovery workflow j o = Ok d ->
     (action d = Execute -> dispatches_of s o = []) /\
     (action d = RetrySameOperation -> exists i, intent s o = Some i /\ semantics i = Idempotent /\
        effect_state s o = OutcomeUnknown) /\
     (action d = CompleteWithoutReexecution -> effect_state s o = OutcomeKnown Succeeded)).
Proof.
  pose proof (reachable_committed _ _ _ Hst Hs) as Hc.
  destruct (committed_inv _ _ Hc) as [L I].
  destruct (from_durable_state_Ok s L) as (j & Hj & J).
  exists {| snapshot_run_id := run_id s; snapshot_commit_ledger := commit_ledger s |}, j.
  split_and!; [| |done|].
  { unfold persisted_snapshot. rewrite (proj2 (validate_persisted_Ok s)); [done|].
    by rewrite (ledger_run _ _ I). }
  { apply replay_commit_ledger_Ok. split; [|done]. simpl. by rewrite (ledger_run _ _ I). }
  intros o. rewrite (classify_recovery_policy _ _ _ _ J).
  assert (log_intent (durable_facts s) o = intent s o) as -> by by apply log_intent_run.
  destruct (intent s o) as [i|] eqn:Ei; [|by split_and!].
  split_and!; [done|done|]. intros d [= <-]. unfold recovery_policy.
  assert (Hi : is_Some (intents s !! o)) by (exists i; exact Ei).
  rewrite log_latest_run. unfold effect_state. rewrite bool_decide_true by done. simpl.
  destruct (graph_task workflow (intent_task_id i)); [|by split_and!].
  destruct (latest_dispatch s o) as [x|] eqn:Ex.
  - rewrite log_outcome_run by done.
    destruct (outcome_for_attempt s _) as [y|]; simpl.
    + destruct (outcome y), (WorkflowGraph.is_completed workflow _); split_and!; intros; simplify_eq/=; congruence.
    + destruct (WorkflowGraph.is_completed workflow _), (semantics i) eqn:Em; split_and!; try done.
      intros _. by exists i.
  - unfold latest_dispatch in Ex. apply last_None in Ex.
    by destruct (WorkflowGraph.is_completed workflow _).
Qed.

Lemma journal_view_faithful_witness :
  exists j, from_durable_state sample_run = Ok j /\
  (forall o, journal_intent j o = ok_or (intent sample_run o) (UnknownOperation o)) /\
  (forall t, journal_operation_for_task j t = operation_for_task sample_run t) /\
  (forall o, journal_latest_dispatch j o = latest_dispatch sample_run o) /\
  (forall o, known_outcome j o = latest_outcome sample_run o) /\
  (forall o, journal_state j o = effect_state sample_run o) /\
  journal_operation_ids j = operation_ids sample_run.
Proof.
  exact (@journal_view_faithful sample_format _ _ _ (sample_store_reachable 6) sample_run_lookup).
Defined.

Lemma recovery_after_restart_witness :
  exists p j, @persisted_snapshot sample_format sample_run = Ok p /\
  @from_persisted_snapshot sample_format p = Ok sample_run /\
  from_durable_state sample_run = Ok j /\
  classify_recovery sample_workflow j "op" =
    Ok {| action := CompleteWithoutReexecution; reason := KnownSuccess "op" "a1" |} /\
  returns (classify_recovery sample_workflow j "op").
Proof.
  destruct (@recovery_after_restart sample_format _ _ _ sample_workflow
    (sample_store_reachable 6) sample_run_lookup) as (p & j & Hp & Hs & Hj & Ho).
  - vm_compute. reflexivity.
  - exists p, j. split; [exact Hp|split; [exact Hs|split; [exact Hj|split; [|apply Ho]]]].
    vm_compute in Hj. injection Hj as <-. vm_compute. reflexivity.
Defined.
