(* ===== verification/Physical.v ===== *)
(** * The physical durable store: [crates/workflow-recovery/src/physical.rs]

    The row format (magic, version, checksum, payload), the mapping of the
    backend's errors, the bounded waits for a database handle, and the three
    operations over redb transactions.  redb, the file system, the clock and
    postcard are parameters: [Redb] lists the calls the code makes, each as a
    function of the world to the new world and the call's outcome. *)
From S2P Require Export LedgerBinding.
#[local] Open Scope string_scope.
#[local] Open Scope list_scope.

#[export] Instance byte_eq_dec : EqDecision byte := Byte.byte_eq_dec.

(** ** Backend errors, with the constructors the code distinguishes *)
Inductive IoErrorKind := NotFound | WouldBlock | TimedOut | PermissionDenied | InvalidData | OtherIoKind.
Record IoError := { io_kind : IoErrorKind; io_to_string : string }.
Inductive StorageError :=
  | Corrupted (message : string)
  | StorageIo (e : IoError)
  | PreviousIo
  | ValueTooLarge (length : N)
  | LockPoisoned
  | OtherStorageError (to_string : string).
Inductive DatabaseError :=
  | DatabaseAlreadyOpen
  | DatabaseStorage (e : StorageError)
  | UpgradeRequired (version : N)
  | RepairAborted
  | OtherDatabaseError (to_string : string).
Inductive TransactionError :=
  | TransactionStorage (e : StorageError)
  | ReadTransactionStillInUse
  | OtherTransactionError (to_string : string).
Inductive CommitError := CommitStorage (e : StorageError) | OtherCommitError (to_string : string).
Inductive TableError :=
  | TableStorage (e : StorageError)
  | TableDoesNotExist (to_string : string)
  | OtherTableError (to_string : string).

Definition map_io_error (e : IoError) : StoreError :=
  match io_kind e with
  | NotFound | WouldBlock | TimedOut => BackendUnavailable
  | PermissionDenied => IoFailure (io_to_string e)
  | InvalidData => DataCorruption (io_to_string e)
  | OtherIoKind => IoFailure (io_to_string e)
  end.
Definition map_storage_error (e : StorageError) : StoreError :=
  match e with
  | Corrupted m => DataCorruption m
  | StorageIo e => map_io_error e
  | PreviousIo => IoFailure "redb reported a previous I/O failure"
  | ValueTooLarge n => IoFailure ("durable value is too large: " +:+ pretty n +:+ " bytes")
  | LockPoisoned => BackendUnavailable
  | OtherStorageError m => IoFailure m
  end.
Definition map_database_error (e : DatabaseError) : StoreError :=
  match e with
  | DatabaseAlreadyOpen => BackendUnavailable
  | DatabaseStorage e => map_storage_error e
  | UpgradeRequired v =>
      DataCorruption ("redb database format " +:+ pretty v +:+ " requires an unsupported upgrade")
  | RepairAborted => IoFailure "redb database repair was aborted"
  | OtherDatabaseError m => IoFailure m
  end.
Definition map_transaction_error (e : TransactionError) : StoreError :=
  match e with
  | TransactionStorage e => map_storage_error e
  | ReadTransactionStillInUse => IoFailure "redb read transaction is still in use"
  | OtherTransactionError m => IoFailure m
  end.
Definition map_commit_error (e : CommitError) : StoreError :=
  match e with
  | CommitStorage e => map_storage_error e
  | OtherCommitError m => IoFailure m
  end.
Definition map_table_error (e : TableError) : StoreError :=
  match e with
  | TableStorage e => map_storage_error e
  | TableDoesNotExist m | OtherTableError m => DataCorruption m
  end.

(** ** The row format *)
Definition FORMAT_MAGIC : list byte := String.list_byte_of_string "KERNIS-DURABLE-STATE".
Definition FORMAT_VERSION : N := 5%N.
Definition CHECKSUM_LEN : nat := 8.
(** [uN::to_le_bytes], [uN::from_le_bytes] at a width of [n] bytes. *)
Fixpoint to_le_bytes (n : nat) (x : N) : list byte :=
  match n with
  | O => []
  | S n => default Byte.x00 (Byte.of_N (x mod 256)) :: to_le_bytes n (x / 256)
  end.
Fixpoint from_le_bytes (bs : list byte) : N :=
  match bs with
  | [] => 0%N
  | b :: bs => (Byte.to_N b + 256 * from_le_bytes bs)%N
  end.
Definition checksum (bytes : list byte) : N := fnv1a bytes.
Definition header_len : nat := length FORMAT_MAGIC + 2 + CHECKSUM_LEN.

(** postcard on a snapshot, and the [Debug] text of its errors. *)
Class SnapshotFormat := {
  snapshot_to_allocvec : PersistedRunSnapshot -> string + list byte;
  snapshot_take_from_bytes : list byte -> string + (PersistedRunSnapshot * list byte)
}.
(** postcard decodes what it encoded and hands back the bytes that follow. *)
Class SnapshotFormatLaws `{SnapshotFormat} : Prop := {
  snapshot_serializable p : exists bs, snapshot_to_allocvec p = inr bs;
  snapshot_roundtrip p bs rest :
    snapshot_to_allocvec p = inr bs -> snapshot_take_from_bytes (bs ++ rest) = inr (p, rest)
}.

Section rows.
Context `{StoreFormat, SnapshotFormat}.

Definition encode_state (s : DurableRunState) : result StoreError (list byte) :=
  snapshot ← persisted_snapshot s;
  match snapshot_to_allocvec snapshot with
  | inl error => Err (IoFailure ("durable state encoding failed: " +:+ error))
  | inr payload =>
      Ok (FORMAT_MAGIC ++ to_le_bytes 2 FORMAT_VERSION ++ to_le_bytes 8 (checksum payload)
          ++ payload)
  end.

(** [encoded.starts_with(FORMAT_MAGIC)] *)
Definition starts_with (bs prefix : list byte) : bool :=
  bool_decide (take (length prefix) bs = prefix).
Definition slice (bs : list byte) (from to : nat) : list byte := take (to - from) (drop from bs).

Definition decode_state (encoded : list byte) : result StoreError DurableRunState :=
  if (length encoded <? header_len)%nat || negb (starts_with encoded FORMAT_MAGIC)
  then Err (DataCorruption "durable state schema header is invalid")
  else
    let version_offset := length FORMAT_MAGIC in
    let version := from_le_bytes (slice encoded version_offset (version_offset + 2)) in
    if negb (version =? FORMAT_VERSION)%N
    then Err (DataCorruption ("unsupported durable state schema version " +:+ pretty version))
    else
      let checksum_offset := length FORMAT_MAGIC + 2 in
      let field := slice encoded checksum_offset (checksum_offset + CHECKSUM_LEN) in
      expected_checksum ← expect (if bool_decide (length field = CHECKSUM_LEN)
                                  then Some (from_le_bytes field) else None)
                                 "checksum length is fixed";
      if negb (expected_checksum =? checksum (drop header_len encoded))%N
      then Err (DataCorruption "durable state checksum mismatch")
      else match snapshot_take_from_bytes (drop header_len encoded) with
      | inl error => Err (DataCorruption ("durable state payload is invalid: " +:+ error))
      | inr (snapshot, remainder) =>
          if negb (bool_decide (remainder = []))
          then Err (DataCorruption "durable state payload has trailing bytes")
          else from_persisted_snapshot snapshot
      end.
End rows.

(** ** The backend *)
Abbreviation table := (gmap string (list byte)).

(** A call is a function of the world; [None] is a panic inside the backend. *)
Class Redb (W : Type) := {
  has_parent : W -> bool;
  path_exists : W -> bool;
  now : W -> N;
  sleep : N -> W -> W;
  create_dir_all : W -> W * (IoError + unit);
  database_create : W -> W * option (DatabaseError + unit);
  database_open : W -> W * option (DatabaseError + unit);
  database_drop : W -> W;
  begin_read : W -> W * (TransactionError + unit);
  read_open_table : W -> W * (TableError + unit);
  read_get : string -> W -> W * (StorageError + option (list byte));
  begin_write : W -> W * (TransactionError + unit);
  write_open_table : W -> W * (TableError + unit);
  write_get : string -> W -> W * (StorageError + option (list byte));
  write_insert : string -> list byte -> W -> W * (StorageError + unit);
  write_commit : W -> W * (CommitError + unit)
}.

(** The views the documented behaviour of redb is stated with: the durable
    table ([None] when the file has none), the table as the write transaction
    in progress sees it, and the worlds in which no call fails. *)
Class RedbView (W : Type) := {
  committed_table : W -> option table;
  pending_table : W -> option table;
  healthy : W -> Prop
}.
(** The durable table is as before. *)
Definition quiet `{RedbView W} (w w' : W) : Prop :=
  committed_table w' = committed_table w /\ (healthy w -> healthy w').

(** What the store relies on: a transaction sees the durable table and its own
    writes, nothing is durable before the commit, a commit is atomic (one that
    fails took effect entirely or not at all), and everything else leaves the
    durable table alone. *)
Class RedbLaws (W : Type) `{Redb W, RedbView W} : Prop := {
  law_sleep d w : quiet w (sleep d w) /\ (now w + d <= now (sleep d w))%N;
  law_open w w' o : database_open w = (w', o) ->
    quiet w w' /\ (now w <= now w')%N /\ (healthy w -> o = Some (inr tt));
  law_create_dir_all w w' r : create_dir_all w = (w', r) ->
    quiet w w' /\ (healthy w -> r = inr tt) /\ path_exists w' = path_exists w;
  law_create w w' o : database_create w = (w', o) -> quiet w w' /\ (healthy w -> o = Some (inr tt));
  law_drop w : quiet w (database_drop w);
  law_begin_read w w' r : begin_read w = (w', r) -> quiet w w' /\ (healthy w -> r = inr tt);
  law_read_open_table w w' r : read_open_table w = (w', r) ->
    quiet w w' /\ (healthy w -> committed_table w <> None -> r = inr tt) /\
    (r = inr tt -> committed_table w <> None) /\
    (forall m, r = inl (TableDoesNotExist m) -> committed_table w = None) /\
    (healthy w -> committed_table w = None -> exists m, r = inl (TableDoesNotExist m));
  law_read_get k w w' r : read_get k w = (w', r) ->
    quiet w w' /\ (healthy w -> exists v, r = inr v) /\
    (forall v, r = inr v -> v = default ∅ (committed_table w) !! k);
  law_begin_write w w' r : begin_write w = (w', r) ->
    quiet w w' /\ (healthy w -> r = inr tt) /\
    (r = inr tt -> pending_table w' = committed_table w);
  law_write_open_table w w' r : write_open_table w = (w', r) ->
    quiet w w' /\ (healthy w -> r = inr tt) /\
    (r = inr tt -> pending_table w' = Some (default ∅ (pending_table w)));
  law_write_get k w w' r : write_get k w = (w', r) ->
    quiet w w' /\ (healthy w -> exists v, r = inr v) /\
    (forall v, r = inr v -> v = default ∅ (pending_table w) !! k /\
       pending_table w' = pending_table w);
  law_write_insert k v w w' r : write_insert k v w = (w', r) ->
    quiet w w' /\ (healthy w -> r = inr tt) /\
    (r = inr tt -> pending_table w' = Some (<[k := v]> (default ∅ (pending_table w))));
  law_write_commit w w' r : write_commit w = (w', r) ->
    (healthy w -> healthy w' /\ r = inr tt) /\
    (r = inr tt -> committed_table w' = pending_table w) /\
    (committed_table w' = committed_table w \/ committed_table w' = pending_table w)
}.

(** Durations in milliseconds. *)
Definition DATABASE_OPEN_RETRIES : nat := 40.
Definition DATABASE_OPEN_RETRY_DELAY : N := 5%N.
Definition BOOTSTRAP_WAIT_DEADLINE : N := 5000%N.
Definition BOOTSTRAP_WAIT_POLL : N := 10%N.

(** *** Programs over the backend *)
Definition io (W A : Type) : Type := W -> W * result StoreError A.
Definition io_ret {W A} (a : A) : io W A := fun w => (w, Ok a).
Definition io_err {W A} (e : StoreError) : io W A := fun w => (w, Err e).
Definition io_result {W A} (r : result StoreError A) : io W A := fun w => (w, r).
Definition io_bind {W A B} (f : A -> io W B) (c : io W A) : io W B := fun w =>
  let '(w', r) := c w in
  match r with
  | Ok a => f a w'
  | Err e => (w', Err e)
  | Panic p => (w', Panic p)
  | NoFuel => (w', NoFuel)
  end.
#[export] Instance io_mret {W} : MRet (io W) := fun A => io_ret.
#[export] Instance io_mbind {W} : MBind (io W) := fun A B => io_bind.
(** [call.map_err(f)?] *)
Definition io_call {W E A} (f : E -> StoreError) (c : W -> W * (E + A)) : io W A := fun w =>
  let '(w', r) := c w in (w', match r with inl e => Err (f e) | inr a => Ok a end).
Definition io_do {W} (f : W -> W) : io W unit := fun w => (f w, Ok tt).
Definition io_read {W A} (f : W -> A) : io W A := fun w => (w, Ok (f w)).
(** A scope that owns a database handle: however the body ends, the handle
    and a write transaction that was not committed are dropped. *)
Definition io_scope `{Redb W} {A} (c : io W A) : io W A := fun w =>
  let '(w', r) := c w in (database_drop w', r).

Section store.
Context `{StoreFormat, SnapshotFormat, Redb W}.

(** [catch_unwind] around an open or create. *)
Definition catch_backend_panic (c : W -> W * option (DatabaseError + unit)) :
  io W (DatabaseError + unit) := fun w =>
  let '(w', o) := c w in
  (w', match o with
       | Some r => Ok r
       | None => Err (DataCorruption "storage backend panicked while opening the physical file")
       end).

(** [for attempt in 0..=DATABASE_OPEN_RETRIES]; [more] is the number of
    attempts after this one. *)
Fixpoint open_existing_from (more : nat) : io W unit :=
  r ← catch_backend_panic database_open;
  match r with
  | inr _ => mret tt
  | inl DatabaseAlreadyOpen =>
      match more with
      | S more => io_bind (fun _ => open_existing_from more) (io_do (sleep DATABASE_OPEN_RETRY_DELAY))
      | O => io_err BackendUnavailable
      end
  | inl e => io_err (map_database_error e)
  end.
Definition open_existing_database : io W unit := open_existing_from DATABASE_OPEN_RETRIES.

Fixpoint open_bootstrap_from (fuel : nat) (deadline : N) : io W unit :=
  match fuel with
  | O => io_result NoFuel
  | S fuel =>
      r ← catch_backend_panic database_open;
      match r with
      | inr _ => mret tt
      | inl DatabaseAlreadyOpen =>
          t ← io_read now;
          if (t <? deadline)%N
          then io_bind (fun _ => open_bootstrap_from fuel deadline)
                       (io_do (sleep BOOTSTRAP_WAIT_POLL))
          else io_err BackendUnavailable
      | inl e => io_err (map_database_error e)
      end
  end.
(** One attempt per poll interval until the deadline, and one more. *)
Definition bootstrap_fuel : nat := 502.
Definition open_bootstrap_database : io W unit :=
  t ← io_read now; open_bootstrap_from bootstrap_fuel (t + BOOTSTRAP_WAIT_DEADLINE)%N.

(** The [match] of [database_has_table] on the outcome of [open_table]. *)
Definition table_exists : io W bool := fun w =>
    let '(w', r) := read_open_table w in
    (w', match r with
         | inr _ => Ok true
         | inl (TableDoesNotExist _) => Ok false
         | inl e => Err (map_table_error e)
         end).
Definition database_has_table : io W bool :=
  _ ← io_call map_transaction_error begin_read; table_exists.

Fixpoint wait_for_initialized_from (more : nat) : io W bool :=
  initialized ← io_scope (_ ← open_existing_database; database_has_table);
  if initialized : bool then mret true
  else match more with
  | S more =>
      io_bind (fun _ => wait_for_initialized_from more) (io_do (sleep DATABASE_OPEN_RETRY_DELAY))
  | O => mret false
  end.
Definition wait_for_initialized_table : io W bool :=
  wait_for_initialized_from DATABASE_OPEN_RETRIES.

Definition initialize_table : io W unit :=
  _ ← io_call map_transaction_error begin_write;
  _ ← io_call map_table_error write_open_table;
  io_call map_commit_error write_commit.

(** [FileDurableStore::open]: the handle is open in the first scope;
    [Some] is the early return of the store. *)
Definition acquire_database : io W bool :=
  existed ← io_read path_exists;
  if existed : bool then (_ ← open_bootstrap_database; mret false)
  else
    r ← catch_backend_panic database_create;
    match r with
    | inr _ => mret true
    | inl DatabaseAlreadyOpen => _ ← open_bootstrap_database; mret false
    | inl e => io_err (map_database_error e)
    end.
Definition file_open : io W unit :=
  parent ← io_read has_parent;
  _ ← (if parent : bool then io_call map_io_error create_dir_all else mret tt);
  ready ← io_scope
    (created_by_store ← acquire_database;
     has_table ← database_has_table;
     if has_table : bool then mret true
     else if created_by_store : bool then (_ ← initialize_table; mret true)
     else mret false);
  if ready : bool then mret tt
  else
    initialized ← wait_for_initialized_table;
    if initialized : bool then mret tt
    else io_err (DataCorruption "physical store is missing the Kernis durable-state table").

(** The stored state of a run, checked against its row key. *)
Definition run_key_mismatch (r : RunId) (s : DurableRunState) : StoreError :=
  DataCorruption ("run row key " +:+ RunId_display r +:+ " contains state for "
                  +:+ RunId_display (run_id s)).
Definition decode_row (r : RunId) (encoded : option (list byte)) :
  result StoreError DurableRunState :=
  encoded ← ok_or encoded (RunNotFound r);
  state ← decode_state encoded;
  if bool_decide (run_id state = r) then Ok state else Err (run_key_mismatch r state).

Definition file_create_run (r : RunId) : io W StoreRevision :=
  io_scope
    (_ ← open_existing_database;
     encoded ← io_result (encode_state (DurableRunState_new r));
     _ ← io_call map_transaction_error begin_write;
     _ ← io_call map_table_error write_open_table;
     existing ← io_call map_storage_error (write_get r);
     match existing with
     | Some _ => io_err (RunAlreadyExists r)
     | None =>
         _ ← io_call map_storage_error (write_insert r encoded);
         _ ← io_call map_commit_error write_commit;
         mret StoreRevision_INITIAL
     end).

Definition file_load_run (r : RunId) : io W DurableRunState :=
  io_scope
    (_ ← open_existing_database;
     _ ← io_call map_transaction_error begin_read;
     _ ← io_call map_table_error read_open_table;
     encoded ← io_call map_storage_error (read_get r);
     io_result (decode_row r encoded)).

Definition file_commit (q : CommitRequest) : io W CommitResult :=
  if bool_decide (request_mutations q = []) then io_err EmptyCommit
  else io_scope
    (_ ← open_existing_database;
     _ ← io_call map_transaction_error begin_write;
     _ ← io_call map_table_error write_open_table;
     encoded ← io_call map_storage_error (write_get (request_run_id q));
     state ← io_result (decode_row (request_run_id q) encoded);
     decision ← io_result (commit_run state q);
     match decision with
     | (None, res) => mret res
     | (Some candidate, res) =>
         encoded ← io_result (encode_state candidate);
         _ ← io_call map_storage_error (write_insert (request_run_id q) encoded);
         _ ← io_call map_commit_error write_commit;
         mret res
     end).

#[export] Instance FileDurableStore_store : DurableStore W :=
  {| create_run w r := file_create_run r w; load_run w r := file_load_run r w;
     commit w q := file_commit q w |}.
End store.
