(* ===== verification/PhysicalFacts.v ===== *)
(** * Facts about the physical store: rows, waits, refinement *)
From S2P Require Export Physical.
#[local] Open Scope string_scope.
#[local] Open Scope list_scope.

(** ** Little-endian fields *)
Lemma length_to_le_bytes n x : length (to_le_bytes n x) = n.
Proof. revert x. induction n as [|n IH]; intros x; simpl; [done|]. by rewrite IH. Qed.
Lemma byte_of_mod x : exists b, Byte.of_N (x mod 256) = Some b /\ Byte.to_N b = (x mod 256)%N.
Proof.
  destruct (Byte.of_N (x mod 256)) as [b|] eqn:E.
  - exists b. split; [done|]. by apply Byte.to_of_N.
  - apply Byte.of_N_None_iff in E. pose proof (N.mod_lt x 256). lia.
Qed.
Lemma from_to_le_bytes n x : (x < 256 ^ N.of_nat n)%N -> from_le_bytes (to_le_bytes n x) = x.
Proof.
  revert x. induction n as [|n IH]; intros x Hx.
  { simpl in *. lia. }
  cbn [to_le_bytes from_le_bytes].
  destruct (byte_of_mod x) as (b & -> & Hb). simpl. rewrite Hb, IH.
  - pose proof (N.div_mod x 256). lia.
  - rewrite Nat2N.inj_succ, N.pow_succ_r' in Hx. by apply N.Div0.div_lt_upper_bound.
Qed.
Lemma from_le_bytes_one_byte l1 x y l2 :
  x <> y -> from_le_bytes (l1 ++ x :: l2) <> from_le_bytes (l1 ++ y :: l2).
Proof.
  intros Hne. induction l1 as [|b l1 IH]; cbn [app from_le_bytes]; [|lia].
  intros Heq. assert (Byte.to_N x = Byte.to_N y) as Hxy by lia.
  apply Hne. assert (Some x = Some y) as [= ->]; [|done]. by rewrite <- !Byte.of_to_N, Hxy.
Qed.

(** ** Rows *)
Section rows.
Context `{StoreFormat, SnapshotFormat}.

Definition row (payload : list byte) : list byte :=
  FORMAT_MAGIC ++ to_le_bytes 2 FORMAT_VERSION ++ to_le_bytes 8 (checksum payload) ++ payload.
Lemma encode_state_Ok s bs :
  encode_state s = Ok bs <-> exists p payload, persisted_snapshot s = Ok p /\
    snapshot_to_allocvec p = inr payload /\ bs = row payload.
Proof.
  unfold encode_state. split.
  - intros (p & Hp & Hrest)%bind_Ok. exists p.
    destruct (snapshot_to_allocvec p) as [e|payload]; [discriminate|].
    exists payload. injection Hrest as <-. split_and!; [exact Hp|reflexivity|reflexivity].
  - intros (p & payload & Hp & Hb & ->). rewrite Hp. cbn [mbind result_bind]. by rewrite Hb.
Qed.

(** The three parts of a row of any bytes of the right length. *)
Definition decode_payload (payload : list byte) : result StoreError DurableRunState :=
  match snapshot_take_from_bytes payload with
  | inl error => Err (DataCorruption ("durable state payload is invalid: " +:+ error))
  | inr (snapshot, remainder) =>
      if negb (bool_decide (remainder = []))
      then Err (DataCorruption "durable state payload has trailing bytes")
      else from_persisted_snapshot snapshot
  end.
Lemma decode_state_parts m v c payload :
  length m = 20 -> length v = 2 -> length c = 8 ->
  decode_state (m ++ v ++ c ++ payload) =
  if negb (bool_decide (m = FORMAT_MAGIC))
  then Err (DataCorruption "durable state schema header is invalid")
  else if negb (from_le_bytes v =? FORMAT_VERSION)%N
  then Err (DataCorruption ("unsupported durable state schema version "
                            +:+ pretty (from_le_bytes v)))
  else if negb (from_le_bytes c =? checksum payload)%N
  then Err (DataCorruption "durable state checksum mismatch")
  else decode_payload payload.
Proof.
  intros Hm Hv Hc. unfold decode_state, header_len, CHECKSUM_LEN, starts_with, slice.
  change (length FORMAT_MAGIC) with 20.
  rewrite !length_app, Hm, Hv, Hc.
  rewrite (proj2 (Nat.ltb_ge _ _)) by lia.
  rewrite take_app_length' by done. cbn [orb].
  rewrite drop_app_length' by done.
  change (20 + 2 - 20) with 2. change (20 + 2 + 8 - (20 + 2)) with 8.
  rewrite take_app_length' by done.
  assert (drop (20 + 2) (m ++ v ++ c ++ payload) = c ++ payload) as ->.
  { rewrite (assoc_L (++)). apply drop_app_length'. rewrite length_app. lia. }
  assert (drop (20 + 2 + 8) (m ++ v ++ c ++ payload) = payload) as ->.
  { rewrite !(assoc_L (++)). apply drop_app_length'. rewrite !length_app. lia. }
  rewrite take_app_length' by done. rewrite (bool_decide_true (length c = 8)) by done.
  reflexivity.
Qed.
Lemma decode_row_payload payload : decode_state (row payload) = decode_payload payload.
Proof.
  unfold row. rewrite decode_state_parts by (done || apply length_to_le_bytes).
  rewrite bool_decide_true by done. rewrite !from_to_le_bytes, !N.eqb_refl; [done|..].
  - pose proof (fnv1a_u64 payload) as Hb. unfold u64_ok, u64_max in Hb.
    unfold checksum. change (256 ^ N.of_nat 8)%N with 18446744073709551616%N. lia.
  - done.
Qed.

Lemma checksum_w64 payload : (checksum payload < 256 ^ N.of_nat 8)%N.
Proof.
  pose proof (fnv1a_u64 payload) as Hb. unfold u64_ok, u64_max in Hb.
  unfold checksum. change (256 ^ N.of_nat 8)%N with 18446744073709551616%N. lia.
Qed.

(** Changing one byte anywhere in a row makes it unreadable. *)
Lemma decode_row_one_byte payload l1 x y l2 :
  row payload = l1 ++ x :: l2 -> x <> y ->
  exists m, decode_state (l1 ++ y :: l2) = Err (DataCorruption m).
Proof.
  intros Hrow Hne. unfold row in Hrow.
  assert (Hlen : forall a a2 : list byte, length (a ++ y :: a2) = length (a ++ x :: a2)).
  { intros a a2. by rewrite !length_app. }
  assert (Hdiff : forall a a2 : list byte, a ++ y :: a2 <> a ++ x :: a2).
  { intros a a2 Heq. apply app_inj_1 in Heq as [_ [= ?]]; done. }
  pose proof (fun n z => length_to_le_bytes n z) as Hle.
  apply app_cell in Hrow as [(a & Ha & ->)|(l & -> & Hrow)].
  { assert (length (l1 ++ y :: a) = 20) as Hl by (by rewrite Hlen, <- Ha).
    eexists. rewrite (app_comm_cons a), (assoc_L (++)).
    rewrite decode_state_parts by (done || apply Hle).
    rewrite bool_decide_false; [reflexivity|]. rewrite Ha. apply Hdiff. }
  apply app_cell in Hrow as [(a & Ha & ->)|(l3 & -> & Hrow)].
  { assert (length (l ++ y :: a) = 2) as Hl by (by rewrite Hlen, <- Ha, Hle).
    eexists. rewrite <- (assoc_L (++)), (app_comm_cons a), (assoc_L (++) l).
    rewrite decode_state_parts by (done || apply Hle).
    rewrite bool_decide_true by done. cbn [negb].
    rewrite (proj2 (N.eqb_neq _ _)); [reflexivity|].
    intros Heq. apply (from_le_bytes_one_byte l x y a); [done|]. rewrite <- Ha, Heq.
    by rewrite from_to_le_bytes. }
  apply app_cell in Hrow as [(a & Ha & ->)|(l4 & -> & Hrow)].
  { assert (length (l3 ++ y :: a) = 8) as Hl by (by rewrite Hlen, <- Ha, Hle).
    eexists. rewrite <- !(assoc_L (++)), (app_comm_cons a), (assoc_L (++) l3).
    rewrite decode_state_parts by (done || apply Hle).
    rewrite bool_decide_true by done. cbn [negb].
    rewrite from_to_le_bytes, N.eqb_refl by done. cbn [negb].
    rewrite (proj2 (N.eqb_neq _ _)); [reflexivity|].
    intros Heq. apply (from_le_bytes_one_byte l3 x y a); [done|]. rewrite <- Ha, Heq.
    apply from_to_le_bytes. apply checksum_w64. }
  eexists. rewrite <- !(assoc_L (++)).
  rewrite decode_state_parts by (done || apply Hle).
  rewrite bool_decide_true by done. cbn [negb].
  rewrite !from_to_le_bytes, N.eqb_refl by (done || apply checksum_w64). cbn [negb].
  rewrite (proj2 (N.eqb_neq _ _)); [reflexivity|].
  rewrite Hrow. by apply fnv1a_one_byte.
Qed.

(** Reading never panics; whatever it refuses is data corruption. *)
Lemma decode_state_outcome `{!StoreFormatLaws} bs :
  (exists s, decode_state bs = Ok s) \/ (exists m, decode_state bs = Err (DataCorruption m)).
Proof.
  destruct (decide (length bs < 30)) as [Hlt|Hge].
  { right. eexists. unfold decode_state. rewrite (proj2 (Nat.ltb_lt _ _)) by exact Hlt. done. }
  assert (exists m v c payload, bs = m ++ v ++ c ++ payload /\ length m = 20 /\ length v = 2 /\
            length c = 8) as (m & v & c & payload & -> & Hm & Hv & Hc).
  { exists (take 20 bs), (take 2 (drop 20 bs)), (take 8 (drop 22 bs)), (drop 30 bs).
    rewrite !length_take, !length_drop. split_and!; [|lia..].
    rewrite <- (take_drop 20 bs) at 1. f_equal.
    rewrite <- (take_drop 2 (drop 20 bs)) at 1. rewrite drop_drop. f_equal.
    rewrite <- (take_drop 8 (drop (20 + 2) bs)) at 1. by rewrite drop_drop. }
  rewrite decode_state_parts by done.
  destruct (negb (bool_decide _)); [right; by eexists|].
  destruct (negb (_ =? FORMAT_VERSION)%N); [right; by eexists|].
  destruct (negb (_ =? checksum payload)%N); [right; by eexists|].
  unfold decode_payload. destruct (snapshot_take_from_bytes payload) as [e|[p rest]];
    [right; by eexists|].
  destruct (negb _); [right; by eexists|]. apply replay_outcome.
Qed.
Lemma decode_encode `{!SnapshotFormatLaws} s bs :
  encode_state s = Ok bs -> decode_state bs = Ok s.
Proof.
  intros (p & payload & Hp & Hb & ->)%encode_state_Ok. rewrite decode_row_payload.
  unfold decode_payload. pose proof (snapshot_roundtrip p payload [] Hb) as Hr.
  rewrite app_nil_r in Hr. rewrite Hr, bool_decide_true by done. cbn [negb].
  unfold persisted_snapshot in Hp. apply bind_Ok in Hp as ([] & Hv & [= <-]).
  apply validate_persisted_Ok in Hv as [Hc Hlt].
  unfold from_persisted_snapshot. by apply replay_commit_ledger_Ok.
Qed.
Lemma encode_committed `{!SnapshotFormatLaws} r s :
  committed r s -> (revision s < u64_max)%N -> exists bs, encode_state s = Ok bs.
Proof.
  intros Hc Hlt. destruct (snapshot_serializable
    {| snapshot_run_id := run_id s; snapshot_commit_ledger := commit_ledger s |}) as [bs Hbs].
  exists (row bs). apply encode_state_Ok.
  eexists _, bs. split_and!; [|exact Hbs|reflexivity].
  unfold persisted_snapshot. rewrite (proj2 (validate_persisted_Ok s)); [done|].
  by rewrite (ledger_run _ _ (proj2 (committed_inv _ _ Hc))).
Qed.
End rows.

(** C29: a row reads back as the state it was written from, and only that row
    does: with any one byte changed, wherever it lies, reading refuses it as
    data corruption.  Every reachable run below the last revision has a row,
    and reading never panics, whatever the bytes; all it refuses is reported
    as data corruption. *)
Theorem row_roundtrip `{StoreFormat, SnapshotFormat, !StoreFormatLaws, !SnapshotFormatLaws}
  (st : InMemoryDurableStore) (r : RunId) (s : DurableRunState)
  (Hst : store_reachable st) (Hs : runs st !! r = Some s) (Hlt : (revision s < u64_max)%N) :
  exists bs, encode_state s = Ok bs /\ decode_state bs = Ok s /\
  (forall l1 x y l2, bs = l1 ++ x :: l2 -> x <> y ->
     exists m, decode_state (l1 ++ y :: l2) = Err (DataCorruption m)) /\
  (forall bs', (exists s', decode_state bs' = Ok s') \/
     (exists m, decode_state bs' = Err (DataCorruption m))).
Proof.
  destruct (encode_committed r s) as [bs Hbs]; [by eapply reachable_committed|done|].
  exists bs. split_and!; [done|by apply decode_encode| |apply decode_state_outcome].
  apply encode_state_Ok in Hbs as (p & payload & _ & _ & ->). apply decode_row_one_byte.
Qed.

(** ** Backend errors are never domain errors *)
Lemma map_io_error_kind e : backend_error (map_io_error e).
Proof. by destruct e as [[]]. Qed.
Lemma map_storage_error_kind e : backend_error (map_storage_error e).
Proof. destruct e; try done. apply map_io_error_kind. Qed.
Lemma map_database_error_kind e : backend_error (map_database_error e).
Proof. destruct e; try done. apply map_storage_error_kind. Qed.
Lemma map_transaction_error_kind e : backend_error (map_transaction_error e).
Proof. destruct e; try done. apply map_storage_error_kind. Qed.
Lemma map_commit_error_kind e : backend_error (map_commit_error e).
Proof. destruct e; try done. apply map_storage_error_kind. Qed.
Lemma map_table_error_kind e : backend_error (map_table_error e).
Proof. destruct e; try done. apply map_storage_error_kind. Qed.
#[export] Hint Resolve map_io_error_kind map_storage_error_kind map_database_error_kind
  map_transaction_error_kind map_commit_error_kind map_table_error_kind : kernis.

(** ** Running calls before the commit

    [calm w0 out Q]: from [w0] the calls ended normally with [Q], or with a
    backend error, which no healthy world gives; either way the durable table
    is the one of [w0]. *)
Section physical.
Context `{StoreFormat, SnapshotFormat, !StoreFormatLaws, !SnapshotFormatLaws}.
Context {W : Type} `{Redb W, RedbView W, !RedbLaws W}.

Definition calm {A} (w0 : W) (out : W * result StoreError A) (Q : A -> W -> Prop) : Prop :=
  match out with
  | (w', Ok a) => quiet w0 w' /\ Q a w'
  | (w', Err e) => backend_error e /\ ~ healthy w0 /\ committed_table w' = committed_table w0
  | _ => False
  end.

Lemma quiet_refl (w : W) : quiet w w.
Proof. by split. Qed.
Lemma quiet_trans (w1 w2 w3 : W) : quiet w1 w2 -> quiet w2 w3 -> quiet w1 w3.
Proof. intros [Ha Hb] [Hc Hd]. split; [congruence|auto]. Qed.

Lemma calm_bind {A B} w0 (c : io W A) (f : A -> io W B) w Q R :
  calm w0 (c w) Q -> (forall a w', quiet w0 w' -> Q a w' -> calm w0 (f a w') R) ->
  calm w0 ((c ≫= f) w) R.
Proof.
  unfold mbind, io_mbind, io_bind. destruct (c w) as [w' [a|e| |]]; simpl; try done.
  intros [Hq HQ] Hf. by apply Hf.
Qed.
(** A call whose law gives its effect, from a world calmly reached. *)
Lemma calm_call {E A} w0 (f : E -> StoreError) (c : W -> W * (E + A)) w (Q : A -> W -> Prop) :
  quiet w0 w -> (forall e, backend_error (f e)) ->
  (forall w' r, c w = (w', r) ->
     quiet w w' /\ (healthy w -> exists v, r = inr v) /\ (forall v, r = inr v -> Q v w')) ->
  calm w0 (io_call f c w) Q.
Proof.
  intros Hq Hf Hlaw. unfold io_call. destruct (c w) as [w' r].
  destruct (Hlaw w' r eq_refl) as (Hq' & Hh & HQ).
  destruct r as [e|v]; simpl.
  - split_and!; [apply Hf| |].
    + intros [v Hv]%Hq%Hh. done.
    + destruct Hq, Hq'. congruence.
  - split; [by eapply quiet_trans|by apply HQ].
Qed.

Lemma open_existing_calm n w0 w :
  quiet w0 w -> calm w0 (open_existing_from n w) (fun _ _ => True).
Proof.
  revert w. induction n as [|n IH]; intros w Hq; cbn [open_existing_from];
    unfold mbind, io_mbind, io_bind, catch_backend_panic;
    destruct (database_open w) as [w' o] eqn:E; pose proof (law_open _ _ _ E) as (Hq' & _ & Hh);
    (assert (Hc : committed_table w' = committed_table w0) by (destruct Hq, Hq'; congruence));
    (destruct o as [[e|[]]|];
      [| split; [by eapply quiet_trans|done]
       | split_and!; [done| intros ?%Hq%Hh; done | done]]);
    (assert (Hnh : ~ healthy w0) by (by intros ?%Hq%Hh));
    destruct e; try (split_and!; [|exact Hnh|exact Hc]; apply map_database_error_kind || done).
  cbn. apply IH. eapply quiet_trans; [eapply quiet_trans; [exact Hq|exact Hq']|].
  apply law_sleep.
Qed.
Lemma scope_calm {A} w0 (c : io W A) w Q :
  calm w0 (c w) Q -> (forall a w', Q a w' -> Q a (database_drop w')) -> calm w0 (io_scope c w) Q.
Proof.
  intros Hc HQ. unfold io_scope. destruct (c w) as [w' [a|e| |]]; simpl in *; try done.
  - destruct Hc. split; [|by apply HQ]. eapply quiet_trans; [done|apply law_drop].
  - destruct Hc as (? & ? & Hc). split_and!; try done. rewrite <- Hc. apply law_drop.
Qed.

(** ** Refinement of the in-memory store

    The file represents the abstract store: one row per run, its encoding. *)
Definition represents (w : W) (m : InMemoryDurableStore) : Prop :=
  exists t, committed_table w = Some t /\ forall r : RunId,
    match runs m !! r with
    | Some s => exists bs, encode_state s = Ok bs /\ t !! (r : string) = Some bs
    | None => t !! (r : string) = None
    end.
(** The outcome and the state are those of the abstract operation, or the
    backend failed: then the operation took effect entirely or not at all. *)
Definition refines {A} (w0 : W) (m m' : InMemoryDurableStore) (expected : result StoreError A)
  (out : W * result StoreError A) : Prop :=
  (healthy w0 -> healthy out.1) /\
  ((out.2 = expected /\ represents out.1 m') \/
   exists e, out.2 = Err e /\ backend_error e /\ ~ healthy w0 /\
     (represents out.1 m \/ represents out.1 m')).

Lemma represents_table w w' m :
  committed_table w' = committed_table w -> represents w m -> represents w' m.
Proof. intros Hc (t & Ht & Hr). exists t. by rewrite Hc. Qed.

Section refinement.
Context (w0 : W) (m m' : InMemoryDurableStore) {A : Type} (expected : result StoreError A).
Hypothesis Hrep : represents w0 m.

Lemma refines_bind {B} (c : io W B) (f : B -> io W A) w Q :
  calm w0 (c w) Q ->
  (forall a w', quiet w0 w' -> Q a w' -> refines w0 m m' expected (f a w')) ->
  refines w0 m m' expected ((c ≫= f) w).
Proof.
  unfold mbind, io_mbind, io_bind. destruct (c w) as [w' [a|e| |]]; simpl; try done.
  - intros [Hq HQ] Hf. by apply Hf.
  - intros (Hk & Hh & Hc) _. split; [done|]. right. exists e. split_and!; try done.
    left. by eapply represents_table.
Qed.
Lemma refines_scope (c : io W A) w :
  refines w0 m m' expected (c w) -> refines w0 m m' expected (io_scope c w).
Proof.
  unfold refines, io_scope. destruct (c w) as [w' r]. cbn [fst snd].
  destruct (law_drop w') as [Hd Hh]. intros [Hhh Hr]. split; [auto|].
  destruct Hr as [[-> Hr]|(e & -> & ? & ? & Hr)].
  - left. split; [done|]. by eapply represents_table.
  - right. exists e. split_and!; try done.
    destruct Hr; [left|right]; by eapply represents_table.
Qed.
(** An outcome of the abstract operation that changes nothing. *)
Lemma refines_quiet w (out : result StoreError A) :
  quiet w0 w -> out = expected -> m' = m -> refines w0 m m' expected (w, out).
Proof.
  intros [Hc Hh] -> ->. split; [done|]. left. split; [done|]. by eapply represents_table.
Qed.
(** The insertion and the commit of one row. *)
Lemma refines_write (r : RunId) s bs (t : table) w (a : A) :
  quiet w0 w -> committed_table w0 = Some t -> pending_table w = Some t ->
  encode_state s = Ok bs -> m' = {| runs := <[r := s]> (runs m) |} -> expected = Ok a ->
  refines w0 m m' expected
    ((_ ← io_call map_storage_error (write_insert r bs);
      _ ← io_call map_commit_error write_commit; mret a) w).
Proof.
  intros Hq Ht Hp Hbs Hm' Hex.
  eapply (refines_bind _ _ _ (fun _ w' => pending_table w' = Some (<[r := bs]> t))).
  { apply calm_call; [done|eauto with kernis|]. intros w1 r1 Hr1.
    destruct (law_write_insert _ _ _ _ _ Hr1) as (Hq1 & Hh1 & Hp1).
    split_and!; [done|intros Hh; exists (); auto|]. intros [] Hv. by rewrite (Hp1 Hv), Hp. }
  intros [] w1 Hq1 Hp1. unfold mbind, io_mbind, io_bind, io_call.
  destruct (write_commit w1) as [w2 r2] eqn:E. destruct (law_write_commit _ _ _ E) as (Hh2 & Hok & Hany).
  assert (Hnew : committed_table w2 = Some (<[r := bs]> t) ->
    represents w2 m').
  { rewrite Hm'. intros Hc2. destruct Hrep as (t0 & Ht0 & Hr0). rewrite Ht in Ht0. injection Ht0 as <-.
    exists (<[r := bs]> t). split; [done|]. intros r'. cbn.
    destruct (decide (r = r')) as [<-|Hne].
    - rewrite !lookup_insert_eq. by exists bs.
    - rewrite !lookup_insert_ne by done. apply Hr0. }
  destruct Hq1 as [Hc1 Hh1].
  destruct r2 as [e|[]]; cbn.
  - split; [cbn; intros Hh; apply Hh2; auto|]. right. exists (map_commit_error e).
    split_and!; [done|apply map_commit_error_kind| |].
    + intros Hh. by destruct (Hh2 (Hh1 Hh)).
    + cbn. destruct Hany as [Hc2|Hc2].
      * left. eapply represents_table; [|exact Hrep]. congruence.
      * right. apply Hnew. congruence.
  - split; [cbn; intros Hh; apply Hh2; auto|]. left. split; [done|]. apply Hnew. cbn.
    by rewrite Hok.
Qed.
End refinement.

Lemma represents_row w m (r : RunId) t :
  represents w m -> committed_table w = Some t ->
  decode_row r (t !! (r : string)) = match runs m !! r with
    | Some s => if bool_decide (run_id s = r) then Ok s else Err (run_key_mismatch r s)
    | None => Err (RunNotFound r) end.
Proof.
  intros (t0 & Ht0 & Hr) Ht. rewrite Ht in Ht0. injection Ht0 as <-. specialize (Hr r).
  unfold decode_row. destruct (runs m !! r) as [s|].
  - destruct Hr as (bs & Hbs & ->). cbn. by rewrite (decode_encode _ _ Hbs).
  - by rewrite Hr.
Qed.
Lemma reachable_run_id m r s : store_reachable m -> runs m !! r = Some s -> run_id s = r.
Proof.
  intros Hm Hs. eapply ledger_run, committed_inv. by eapply reachable_committed.
Qed.

(** The read part of a write transaction. *)
Lemma refines_transaction w0 m m' {A} (expected : result StoreError A) k t
  (f : option (list byte) -> io W A) w :
  represents w0 m -> quiet w0 w -> committed_table w0 = Some t ->
  (forall w', quiet w0 w' -> pending_table w' = Some t -> refines w0 m m' expected (f (t !! k) w')) ->
  refines w0 m m' expected
    ((_ ← io_call map_transaction_error begin_write;
      _ ← io_call map_table_error write_open_table;
      v ← io_call map_storage_error (write_get k); f v) w).
Proof.
  intros Hrep Hq Ht Hf.
  apply (refines_bind _ _ _ _ Hrep _ _ _ (fun _ w' => pending_table w' = Some t)).
  { apply calm_call; [done|eauto with kernis|]. intros w1 r1 Hr1.
    destruct (law_begin_write _ _ _ Hr1) as (Hq1 & Hh1 & Hp1).
    split_and!; [done|intros Hh; exists (); auto|]. intros [] Hv. rewrite (Hp1 Hv), <- Ht. apply Hq. }
  intros [] w1 Hq1 Hp1.
  apply (refines_bind _ _ _ _ Hrep _ _ _ (fun _ w' => pending_table w' = Some t)).
  { apply calm_call; [done|eauto with kernis|]. intros w2 r2 Hr2.
    destruct (law_write_open_table _ _ _ Hr2) as (Hq2 & Hh2 & Hp2).
    split_and!; [done|intros Hh; exists (); auto|]. intros [] Hv. by rewrite (Hp2 Hv), Hp1. }
  intros [] w2 Hq2 Hp2.
  apply (refines_bind _ _ _ _ Hrep _ _ _ (fun v w' => v = t !! k /\ pending_table w' = Some t)).
  { apply calm_call; [done|eauto with kernis|]. intros w3 r3 Hr3.
    destruct (law_write_get _ _ _ _ Hr3) as (Hq3 & Hh3 & Hp3).
    split_and!; [done|auto|]. intros v Hv. destruct (Hp3 v Hv) as [-> ->]. by rewrite Hp2. }
  intros v w3 Hq3 [-> Hp3]. by apply Hf.
Qed.
Lemma refines_open w0 m m' {A} (expected : result StoreError A) (f : unit -> io W A) :
  represents w0 m -> (forall w', quiet w0 w' -> refines w0 m m' expected (f tt w')) ->
  refines w0 m m' expected ((x ← open_existing_database; f x) w0).
Proof.
  intros Hrep Hf. apply (refines_bind _ _ _ _ Hrep _ _ _ (fun _ _ => True)).
  { apply open_existing_calm, quiet_refl. }
  intros [] w' Hq _. by apply Hf.
Qed.

Lemma create_refines w m r :
  represents w m -> store_reachable m ->
  refines w m (memory_create_run m r).1 (memory_create_run m r).2 (file_create_run r w).
Proof.
  intros Hrep Hm. pose proof Hrep as (t & Ht & Hrows).
  apply refines_scope, refines_open; [done|]. intros w1 Hq1.
  destruct (encode_committed r (DurableRunState_new r) (committed_new r)) as [bs Hbs]; [done|].
  unfold io_result. rewrite Hbs. unfold mbind at 1, io_mbind, io_bind. cbn [fst snd].
  apply (refines_transaction _ _ _ _ _ t); [done..|]. intros w2 Hq2 Hp2.
  unfold memory_create_run. specialize (Hrows r). destruct (runs m !! r) as [s|] eqn:Es.
  - destruct Hrows as (bs' & _ & ->). by apply refines_quiet.
  - rewrite Hrows. by eapply (refines_write _ _ _ _ Hrep r (DurableRunState_new r) bs t).
Qed.
Lemma load_refines w m r :
  represents w m -> store_reachable m ->
  refines w m m (memory_load_run m r) (file_load_run r w).
Proof.
  intros Hrep Hm. pose proof Hrep as (t & Ht & Hrows).
  apply refines_scope, refines_open; [done|]. intros w1 Hq1.
  apply (refines_bind _ _ _ _ Hrep _ _ _ (fun _ _ => True)).
  { apply calm_call; [done|eauto with kernis|]. intros w2 r2 Hr2.
    destruct (law_begin_read _ _ _ Hr2) as [Hq2 Hh2]. split_and!; [done|intros; exists (); auto|done]. }
  intros [] w2 Hq2 _. apply (refines_bind _ _ _ _ Hrep _ _ _ (fun _ _ => True)).
  { apply calm_call; [done|eauto with kernis|]. intros w3 r3 Hr3.
    destruct (law_read_open_table _ _ _ Hr3) as (Hq3 & Hh3 & _).
    split_and!; [done|intros Hh; exists (); apply Hh3; [done|]|done].
    destruct Hq2 as [-> _]. by rewrite Ht. }
  intros [] w3 Hq3 _. apply (refines_bind _ _ _ _ Hrep _ _ _ (fun v _ => v = t !! (r : string))).
  { apply calm_call; [done|eauto with kernis|]. intros w4 r4 Hr4.
    destruct (law_read_get _ _ _ _ Hr4) as (Hq4 & Hh4 & Hv4). split_and!; [done|auto|].
    intros v Hv. rewrite (Hv4 v Hv). destruct Hq3 as [-> _]. by rewrite Ht. }
  intros v w4 Hq4 ->. apply refines_quiet; [done|done| |done].
  rewrite (represents_row _ _ _ _ Hrep Ht). unfold memory_load_run.
  destruct (runs m !! r) as [s|] eqn:Es; [|done].
  by rewrite bool_decide_true by by eapply reachable_run_id.
Qed.
(** Written with the row of the new state at hand. *)
Lemma commit_refines_encoded w m q :
  represents w m -> store_reachable m ->
  (forall s s' res, runs m !! request_run_id q = Some s -> commit_run s q = Ok (Some s', res) ->
     exists bs, encode_state s' = Ok bs) ->
  refines w m (memory_commit m q).1 (memory_commit m q).2 (file_commit q w).
Proof.
  intros Hrep Hm Henc. pose proof Hrep as (t & Ht & Hrows).
  unfold file_commit, memory_commit. case_bool_decide as Hmt.
  { by apply refines_quiet; [done|apply quiet_refl|..]. }
  apply refines_scope, refines_open; [done|]. intros w1 Hq1.
  apply (refines_transaction _ _ _ _ _ t); [done..|]. intros w2 Hq2 Hp2.
  rewrite (represents_row _ _ _ _ Hrep Ht).
  destruct (runs m !! request_run_id q) as [s|] eqn:Es; [|by apply refines_quiet].
  rewrite bool_decide_true by by eapply reachable_run_id.
  unfold mbind at 1, io_mbind at 1, io_bind at 1, io_result at 1.
  unfold mbind at 1, io_mbind at 1, io_bind at 1, io_result at 1.
  pose proof (commit_run_returns s q) as Hret.
  destruct (commit_run s q) as [[[s'|] res]|e| |] eqn:Ec; try done; [|by apply refines_quiet..].
  destruct (Henc s s' res eq_refl Ec) as [bs Hbs].
  unfold mbind at 1, io_mbind at 1, io_bind at 1, io_result at 1. rewrite Hbs.
  by eapply (refines_write _ _ _ _ Hrep (request_run_id q) s' bs t).
Qed.
Lemma commit_refines w m q :
  represents w m -> store_reachable m -> trim_is_empty (idempotency_key q) = false ->
  (forall s, runs m !! request_run_id q = Some s -> (revision s + 1 < u64_max)%N) ->
  refines w m (memory_commit m q).1 (memory_commit m q).2 (file_commit q w).
Proof.
  intros Hrep Hm Hk Hrev.
  destruct (decide (request_mutations q = [])) as [Hmt|Hmt].
  { unfold file_commit, memory_commit. rewrite bool_decide_true by done.
    by apply refines_quiet; [done|apply quiet_refl|..]. }
  apply commit_refines_encoded; [done..|]. intros s s' res Es Ec.
  apply (encode_committed (request_run_id q)).
  { eapply committed_commit; [by eapply reachable_committed|..]; done. }
  apply commit_run_Some in Ec as (_ & _ & _ & _ & c & b & _ & _ & ->). cbn. by apply Hrev.
Qed.

(** C17: refinement.  As long as the file represents a reachable in-memory
    store, every operation of [FileDurableStore] has the outcome of the
    in-memory operation, domain errors included, and leaves the file
    representing the store that operation leaves; the one exception is a
    failing backend, whose error is never a domain error and after which the
    operation has taken effect entirely or not at all.  (The last revision
    is excluded: it has no readable row.) *)
Theorem file_store_refines_memory (w : W) (m : InMemoryDurableStore)
  (Hrep : represents w m) (Hm : store_reachable m) :
  (forall r, refines w m (create_run m r).1 (create_run m r).2 (create_run w r)) /\
  (forall r, refines w m (load_run m r).1 (load_run m r).2 (load_run w r)) /\
  (forall q, trim_is_empty (idempotency_key q) = false ->
     (forall s, runs m !! request_run_id q = Some s -> (revision s + 1 < u64_max)%N) ->
     refines w m (commit m q).1 (commit m q).2 (commit w q)).
Proof.
  split_and!.
  - intros r. by apply create_refines.
  - intros r. by apply load_refines.
  - intros q. by apply commit_refines.
Qed.

(** ** Bounded waits *)

(** What one attempt to open leads to, unless it is contention. *)
Definition settle (o : option (DatabaseError + unit)) : result StoreError unit :=
  match o with
  | Some (inr _) => Ok tt
  | Some (inl e) => Err (map_database_error e)
  | None => Err (DataCorruption "storage backend panicked while opening the physical file")
  end.
Definition contended (w : W) : Prop := (database_open w).2 = Some (inl DatabaseAlreadyOpen).
(** The world after a contended attempt and the pause that follows. *)
Definition after_attempt (delay : N) (w : W) : W := sleep delay (database_open w).1.

Lemma open_existing_S n w :
  open_existing_from (S n) w =
  match (database_open w).2 with
  | Some (inl DatabaseAlreadyOpen) =>
      open_existing_from n (after_attempt DATABASE_OPEN_RETRY_DELAY w)
  | o => ((database_open w).1, settle o)
  end.
Proof.
  cbn [open_existing_from]. unfold mbind, io_mbind, io_bind, catch_backend_panic, after_attempt.
  destruct (database_open w) as [w' [[e|[]]|]]; [|done..]. by destruct e.
Qed.
Lemma open_existing_O w :
  (open_existing_from 0 w).2 = settle (database_open w).2.
Proof.
  cbn [open_existing_from]. unfold mbind, io_mbind, io_bind, catch_backend_panic.
  destruct (database_open w) as [w' [[e|[]]|]]; [|done..]. by destruct e.
Qed.
Lemma open_existing_outcome n w k :
  k <= n -> (forall i, i < k -> contended (Nat.iter i (after_attempt DATABASE_OPEN_RETRY_DELAY) w)) ->
  k = n \/ ~ contended (Nat.iter k (after_attempt DATABASE_OPEN_RETRY_DELAY) w) ->
  (open_existing_from n w).2 =
    settle (database_open (Nat.iter k (after_attempt DATABASE_OPEN_RETRY_DELAY) w)).2.
Proof.
  revert w k. induction n as [|n IH]; intros w k Hk Hc Hend.
  { assert (k = 0) as -> by lia. apply open_existing_O. }
  rewrite open_existing_S. destruct k as [|k].
  - destruct Hend as [|Hend]; [done|]. unfold contended in Hend. cbn in *.
    destruct (database_open w).2 as [[[]|]|]; done.
  - pose proof (Hc 0 ltac:(lia)) as H0c. unfold contended in H0c. cbn in H0c. rewrite H0c.
    rewrite (IH _ k); [by rewrite Nat.iter_succ_r|lia| |].
    + intros i Hi. rewrite <- Nat.iter_succ_r. apply Hc. lia.
    + rewrite <- Nat.iter_succ_r. destruct Hend; [left; lia|by right].
Qed.

Lemma open_bootstrap_returns fuel deadline w :
  (deadline <= now w + BOOTSTRAP_WAIT_POLL * N.of_nat fuel)%N ->
  returns (open_bootstrap_from (S fuel) deadline w).2.
Proof.
  revert w. induction fuel as [|fuel IH]; intros w Hd; cbn [open_bootstrap_from];
    unfold mbind, io_mbind, io_bind, catch_backend_panic, io_read;
    destruct (database_open w) as [w' [[e|[]]|]] eqn:E; try done; destruct e; try done;
    pose proof (law_open _ _ _ E) as (_ & Hn & _).
  - rewrite (proj2 (N.ltb_ge _ _)); [done|]. lia.
  - destruct (now w' <? deadline)%N; [|done]. apply IH.
    destruct (law_sleep BOOTSTRAP_WAIT_POLL w') as [_ Hs]. lia.
Qed.

(** C34: the waits for a database handle are bounded.  For an existing file,
    contention alone is retried, at most forty times with a pause in between:
    the outcome is that of the first attempt that is not contended, mapped
    to the store's errors, and [BackendUnavailable] when the last one still
    is; a panic of the backend becomes data corruption.  The wait for another
    opener's bootstrap returns, since every pause brings the deadline nearer. *)
Theorem bounded_waits (w : W) (k : nat) (Hk : k <= DATABASE_OPEN_RETRIES)
  (Hc : forall i, i < k -> contended (Nat.iter i (after_attempt DATABASE_OPEN_RETRY_DELAY) w))
  (Hend : k = DATABASE_OPEN_RETRIES \/
    ~ contended (Nat.iter k (after_attempt DATABASE_OPEN_RETRY_DELAY) w)) :
  (open_existing_database w).2 =
    settle (database_open (Nat.iter k (after_attempt DATABASE_OPEN_RETRY_DELAY) w)).2 /\
  (contended (Nat.iter k (after_attempt DATABASE_OPEN_RETRY_DELAY) w) ->
     (open_existing_database w).2 = Err BackendUnavailable) /\
  returns (open_bootstrap_database w).2.
Proof.
  pose proof (open_existing_outcome _ _ _ Hk Hc Hend) as Ho. split_and!; [done| |].
  - intros Hcon. unfold open_existing_database. rewrite Ho, Hcon. done.
  - unfold open_bootstrap_database, mbind, io_mbind, io_bind, io_read, bootstrap_fuel.
    apply open_bootstrap_returns.
    unfold BOOTSTRAP_WAIT_DEADLINE, BOOTSTRAP_WAIT_POLL. lia.
Qed.

(** ** Opening a store *)

(** The durable table is as before, or an empty one was created. *)
Definition kept (w w' : W) : Prop :=
  committed_table w' = committed_table w \/
  (committed_table w = None /\ committed_table w' = Some ∅).
Lemma kept_refl (w : W) : kept w w.
Proof. by left. Qed.
Lemma kept_trans (w1 w2 w3 : W) : kept w1 w2 -> kept w2 w3 -> kept w1 w3.
Proof. unfold kept. intros [->|[? Ha]] [Hb|[Hb Hc]]; rewrite ?Hb, ?Ha, ?Hc; auto; congruence. Qed.
Lemma quiet_kept (w w' : W) : quiet w w' -> kept w w'.
Proof. intros [? _]. by left. Qed.
Definition same (w w' : W) : Prop := committed_table w' = committed_table w.

(** [keeps c Q]: [c] returns, relates its worlds by [K] and ends with [Q]. *)
Section keeps.
Context (K : relation W) (K_refl : forall w, K w w)
  (K_trans : forall w1 w2 w3, K w1 w2 -> K w2 w3 -> K w1 w3)
  (K_quiet : forall w w', quiet w w' -> K w w').

Definition keeps {A} (c : io W A) (Q : W -> A -> W -> Prop) : Prop :=
  forall w, K w (c w).1 /\
    match (c w).2 with Ok a => Q w a (c w).1 | Err _ => True | _ => False end.

Lemma keeps_bind {A B} (c : io W A) (f : A -> io W B) Q (R : W -> B -> W -> Prop) :
  keeps c Q ->
  (forall a w w', K w w' -> Q w a w' -> K w' (f a w').1 /\
     match (f a w').2 with Ok b => R w b (f a w').1 | Err _ => True | _ => False end) ->
  keeps (c ≫= f) R.
Proof.
  intros Hc Hf w. destruct (Hc w) as [Hk Hq]. unfold mbind, io_mbind, io_bind.
  destruct (c w) as [w' [a|e| |]]; cbn in *; try done.
  destruct (Hf a w w' Hk Hq) as [Hk' Hr]. split; [by eapply K_trans|done].
Qed.
(** Sequencing when the rest needs nothing from the first part. *)
Lemma keeps_then {A B} (c : io W A) (f : A -> io W B) (Q : W -> A -> W -> Prop)
  (R : B -> W -> Prop) :
  keeps c Q -> (forall a, keeps (f a) (fun _ b w' => R b w')) ->
  keeps (c ≫= f) (fun _ b w' => R b w').
Proof. intros Hc Hf. eapply keeps_bind; [exact Hc|]. intros a w w' _ _. apply Hf. Qed.
Lemma keeps_weaken {A} (c : io W A) (Q R : W -> A -> W -> Prop) :
  keeps c Q -> (forall w a w', Q w a w' -> R w a w') -> keeps c R.
Proof. intros Hc HQ w. destruct (Hc w) as [Hk Hq]. split; [done|]. destruct (c w).2; auto. Qed.
Lemma keeps_ret {A} (a : A) : keeps (mret a) (fun w b w' => w' = w /\ b = a).
Proof. intros w. split; [apply K_refl|done]. Qed.
Lemma keeps_err {A} e (Q : W -> A -> W -> Prop) : keeps (io_err e) Q.
Proof. intros w. split; [apply K_refl|done]. Qed.
Lemma keeps_quiet_call {E A} (f : E -> StoreError) (c : W -> W * (E + A)) :
  (forall w w' r, c w = (w', r) -> quiet w w') -> keeps (io_call f c) (fun _ _ _ => True).
Proof.
  intros Hq w. unfold io_call. destruct (c w) as [w' r] eqn:Ec. specialize (Hq _ _ _ Ec).
  split; [by apply K_quiet|by destruct r].
Qed.
Lemma keeps_scope {A} (c : io W A) (Q : A -> option table -> Prop) :
  keeps c (fun _ a w' => Q a (committed_table w')) ->
  keeps (io_scope c) (fun _ a w' => Q a (committed_table w')).
Proof.
  intros Hc w. destruct (Hc w) as [Hk Hq]. unfold io_scope.
  destruct (c w) as [w' r]. cbn in *. pose proof (law_drop w') as Hd.
  split; [eapply K_trans; [exact Hk|by apply K_quiet]|].
  destruct r; try done. destruct Hd as [-> _]. done.
Qed.
Lemma keeps_catch (c : W -> W * option (DatabaseError + unit)) :
  (forall w w' o, c w = (w', o) -> quiet w w') -> keeps (catch_backend_panic c) (fun _ _ _ => True).
Proof.
  intros Hq w. unfold catch_backend_panic. destruct (c w) as [w' o] eqn:E.
  specialize (Hq _ _ _ E). split; [by apply K_quiet|by destruct o].
Qed.
Lemma keeps_pause {A} d (f : unit -> io W A) (R : A -> W -> Prop) :
  keeps (f tt) (fun _ b w' => R b w') -> keeps (io_bind f (io_do (sleep d))) (fun _ b w' => R b w').
Proof.
  intros Hf w. unfold io_bind, io_do. destruct (Hf (sleep d w)) as [Hk Hq]. split; [|done].
  eapply K_trans; [|exact Hk]. apply K_quiet, law_sleep.
Qed.
Lemma keeps_open_existing n : keeps (open_existing_from n) (fun _ _ _ => True).
Proof.
  assert (Hopen : forall w w' o, database_open w = (w', o) -> quiet w w')
    by (intros ??? E; by destruct (law_open _ _ _ E)).
  induction n as [|n IH]; cbn [open_existing_from];
    (eapply keeps_then; [by apply keeps_catch|]); intros [[]|[]];
    try apply keeps_err; try (eapply keeps_weaken; [apply keeps_ret|done]).
  apply (keeps_pause _ _ (fun _ _ => True)). exact IH.
Qed.
Lemma keeps_open_bootstrap fuel deadline w :
  (deadline <= now w + BOOTSTRAP_WAIT_POLL * N.of_nat fuel)%N ->
  K w (open_bootstrap_from (S fuel) deadline w).1.
Proof.
  revert w. induction fuel as [|fuel IH]; intros w Hd; cbn [open_bootstrap_from];
    unfold mbind, io_mbind, io_bind, catch_backend_panic, io_read;
    destruct (database_open w) as [w' [[e|[]]|]] eqn:E;
    pose proof (law_open _ _ _ E) as (Hq & Hn & _);
    (assert (Hk : K w w') by (by apply K_quiet)); try done; destruct e; try done.
  - rewrite (proj2 (N.ltb_ge _ _)); [done|]. lia.
  - destruct (now w' <? deadline)%N; [|done]. cbn.
    destruct (law_sleep BOOTSTRAP_WAIT_POLL w') as [Hq' Hs].
    eapply K_trans; [exact Hk|]. eapply K_trans; [by apply K_quiet|].
    apply IH. lia.
Qed.
Lemma keeps_open_bootstrap_database : keeps open_bootstrap_database (fun _ _ _ => True).
Proof.
  intros w. unfold open_bootstrap_database, mbind, io_mbind, io_bind, io_read, bootstrap_fuel.
  assert (Hb : (now w + BOOTSTRAP_WAIT_DEADLINE <=
                now w + BOOTSTRAP_WAIT_POLL * N.of_nat 501)%N)
    by (unfold BOOTSTRAP_WAIT_DEADLINE, BOOTSTRAP_WAIT_POLL; lia).
  split; [by apply keeps_open_bootstrap|].
  pose proof (open_bootstrap_returns _ _ _ Hb) as Hr. by destruct (_.2).
Qed.
Lemma keeps_acquire : keeps acquire_database (fun _ _ _ => True).
Proof.
  unfold acquire_database. apply (keeps_then _ _ (fun _ _ _ => True) (fun _ _ => True)).
  { intros w. split; [apply K_refl|done]. }
  assert (Hboot : keeps (_ ← open_bootstrap_database; mret false)
    (fun (_ : W) (_ : bool) (_ : W) => True)).
  { apply (keeps_then _ _ _ (fun _ _ => True) keeps_open_bootstrap_database).
    intros []. eapply keeps_weaken; [apply keeps_ret|done]. }
  intros []; [exact Hboot|].
  eapply keeps_then; [apply keeps_catch|].
  { intros ??? E. by destruct (law_create _ _ _ E). }
  intros [e|[]]; [|eapply keeps_weaken; [apply keeps_ret|done]].
  destruct e; try apply keeps_err. exact Hboot.
Qed.
Lemma keeps_has_table :
  keeps database_has_table (fun _ b w' =>
    if b : bool then committed_table w' <> None else committed_table w' = None).
Proof.
  unfold database_has_table. eapply keeps_then.
  { apply keeps_quiet_call. intros ??? E. by destruct (law_begin_read _ _ _ E). }
  intros [] w. unfold table_exists. destruct (read_open_table w) as [w' r] eqn:E.
  destruct (law_read_open_table _ _ _ E) as (Hq & _ & Hok & Hno & _). cbn.
  split; [by apply K_quiet|]. destruct Hq as [Hc _].
  destruct r as [[]|[]]; cbn; try done; rewrite Hc; eauto.
Qed.
Lemma keeps_wait n :
  keeps (wait_for_initialized_from n) (fun _ b w' => b = true -> committed_table w' <> None).
Proof.
  assert (Hs : keeps (io_scope (_ ← open_existing_database; database_has_table))
    (fun _ b w' => if b : bool then committed_table w' <> None else committed_table w' = None)).
  { apply (keeps_scope _ (fun b t => if b : bool then t <> None else t = None)).
    eapply (keeps_then _ _ _ (fun b w' =>
      if b : bool then committed_table w' <> None else committed_table w' = None));
      [apply keeps_open_existing|]. intros []. apply keeps_has_table. }
  induction n as [|n IH]; cbn [wait_for_initialized_from].
  - eapply keeps_bind; [exact Hs|]. intros [] w w' _ Hw; cbn; (split; [apply K_refl|done]).
  - eapply keeps_bind; [exact Hs|]. intros [] w w' _ Hw; [split; [apply K_refl|cbn; auto]|].
    apply (keeps_pause _ _ (fun b w' => b = true -> committed_table w' <> None) IH).
Qed.
End keeps.

Lemma initialize_table_kept w :
  committed_table w = None -> kept w (initialize_table w).1 /\
  match (initialize_table w).2 with
  | Ok _ => committed_table (initialize_table w).1 <> None | Err _ => True | _ => False end.
Proof.
  intros Hn. unfold initialize_table, mbind, io_mbind, io_bind, io_call.
  destruct (begin_write w) as [w1 r1] eqn:E1. destruct (law_begin_write _ _ _ E1) as ([Hc1 _] & _ & Hp1).
  destruct r1 as [e|[]]; cbn; [by split; [left|]|].
  destruct (write_open_table w1) as [w2 r2] eqn:E2.
  destruct (law_write_open_table _ _ _ E2) as ([Hc2 _] & _ & Hp2).
  destruct r2 as [e|[]]; cbn; [split; [left; congruence|done]|].
  assert (Hp : pending_table w2 = Some ∅) by (by rewrite Hp2, Hp1, Hn).
  destruct (write_commit w2) as [w3 r3] eqn:E3.
  destruct (law_write_commit _ _ _ E3) as (_ & Hok & Hany). rewrite Hp in Hok, Hany.
  split.
  - destruct r3; cbn; (destruct Hany as [Ha|Ha]; [left; congruence|by right]).
  - destruct r3 as [e|[]]; cbn; [done|]. by rewrite Hok.
Qed.

Lemma file_open_kept : keeps kept file_open (fun _ _ w' => committed_table w' <> None).
Proof.
  pose proof kept_refl as HR. pose proof kept_trans as HT. pose proof quiet_kept as HQ.
  unfold file_open. apply (keeps_then _ HT _ _ (fun _ _ _ => True) (fun _ w' => committed_table w' <> None)).
  { intros w. split; [apply HR|done]. }
  intros parent. eapply (keeps_then _ HT).
  { instantiate (1 := fun _ _ _ => True). destruct parent.
    - apply (keeps_quiet_call _ HQ). intros ??? E. by destruct (law_create_dir_all _ _ _ E).
    - intros w. split; [apply HR|done]. }
  intros _. eapply (keeps_bind _ HT).
  { apply (keeps_scope _ HT HQ _ (fun b t => b = true -> t <> None)).
    apply (keeps_then _ HT _ _ (fun _ _ _ => True)
             (fun b w' => b = true -> committed_table w' <> None)).
    { by apply keeps_acquire. }
    intros created. eapply (keeps_bind _ HT); [by apply keeps_has_table|].
    intros [] w w' _ Hw; cbn; [split; [apply HR|by intros _]|].
    destruct created; [|split; [apply HR|done]].
    destruct (initialize_table_kept w' Hw) as [Hk Hr].
    unfold mbind, io_mbind, io_bind.
    destruct (initialize_table w') as [w2 [[]|e| |]]; cbn in *; done. }
  intros ready w w' _ Hw. destruct ready; [split; [apply HR|by apply Hw]|].
  pose proof (keeps_wait _ HR HT HQ DATABASE_OPEN_RETRIES w') as Hwait.
  unfold mbind, io_mbind, io_bind, wait_for_initialized_table.
  destruct (wait_for_initialized_from DATABASE_OPEN_RETRIES w') as [w2 r2].
  cbn [fst snd] in Hwait. destruct Hwait as [Hk Hr].
  destruct r2 as [[]|e| |]; cbn; [split; [exact Hk|by apply Hr]|..]; by split.
Qed.

Lemma same_refl (w : W) : same w w.
Proof. done. Qed.
Lemma same_trans (w1 w2 w3 : W) : same w1 w2 -> same w2 w3 -> same w1 w3.
Proof. unfold same. congruence. Qed.
Lemma quiet_same (w w' : W) : quiet w w' -> same w w'.
Proof. by intros [? _]. Qed.

(** An existing file is never initialized. *)
Lemma acquire_existing w :
  path_exists w = true -> same w (acquire_database w).1 /\
  (acquire_database w).2 <> Ok true.
Proof.
  pose proof same_refl as HR. pose proof same_trans as HT. pose proof quiet_same as HQ.
  intros He. unfold acquire_database, mbind, io_mbind, io_bind, io_read. rewrite He.
  assert (keeps same open_bootstrap_database (fun _ _ _ => True)) as Hb by (by apply keeps_open_bootstrap_database).
  destruct (Hb w) as [Hs _].
  destruct (open_bootstrap_database w) as [w' [[]|e| |]]; by split.
Qed.
Lemma file_open_existing w : path_exists w = true -> same w (file_open w).1.
Proof.
  pose proof same_refl as HR. pose proof same_trans as HT. pose proof quiet_same as HQ.
  intros He. unfold file_open.
  assert (Hparent : forall w1, (io_read has_parent w1).1 = w1) by done.
  unfold mbind, io_mbind. unfold io_bind at 1. unfold io_read at 1.
  set (c1 := if has_parent w then _ else _).
  assert (Hc1 : same w (c1 w).1 /\ path_exists (c1 w).1 = true).
  { subst c1. destruct (has_parent w); [|done]. unfold io_call.
    destruct (create_dir_all w) as [w1 r1] eqn:E1.
    destruct (law_create_dir_all _ _ _ E1) as (Hq & _ & Hp). cbn. split; [by apply HQ|congruence]. }
  unfold io_bind at 1. destruct (c1 w) as [w1 [a|e| |]]; cbn [fst] in Hc1; try apply Hc1.
  destruct Hc1 as [Hs1 He1]. eapply HT; [exact Hs1|]. clear He Hs1 c1.
  assert (Hscope : forall c : io W bool, same w1 (c w1).1 -> same w1 (io_scope c w1).1).
  { intros c Hc. unfold io_scope. destruct (c w1) as [w2 r2]. cbn in *.
    eapply HT; [exact Hc|apply HQ, law_drop]. }
  set (c2 := io_scope _).
  assert (Hc2 : same w1 (c2 w1).1).
  { apply Hscope. unfold io_bind at 1. destruct (acquire_existing w1 He1) as [Hs2 Hne].
    destruct (acquire_database w1) as [w2 [[]|e| |]]; try done.
    eapply HT; [exact Hs2|]. unfold io_bind at 1.
    assert (keeps same database_has_table (fun _ b w' =>
      if b : bool then committed_table w' <> None else committed_table w' = None)) as Ht
      by (by apply keeps_has_table).
    destruct (Ht w2) as [Hs3 _].
    destruct (database_has_table w2) as [w3 [[]|e| |]]; done. }
  unfold io_bind at 1. destruct (c2 w1) as [w2 [[]|e| |]]; try done. cbn [fst] in Hc2.
  eapply HT; [exact Hc2|]. unfold io_bind at 1, wait_for_initialized_table.
  destruct (keeps_wait same HR HT HQ DATABASE_OPEN_RETRIES w2) as [Hs _].
  destruct (wait_for_initialized_from DATABASE_OPEN_RETRIES w2) as [w3 [[]|e| |]]; done.
Qed.

(** Opening a store.  Opening returns, never panics (a panic of the
    backend is data corruption), and never touches durable rows: the durable
    table is as before, or there was none and an empty one was created.  A
    file that already exists is never given a table, so one without the table
    fails closed; when opening succeeds the table exists. *)
Theorem file_open_safe (w : W) :
  returns (file_open w).2 /\ kept w (file_open w).1 /\
  (path_exists w = true -> committed_table (file_open w).1 = committed_table w) /\
  (is_Ok (file_open w).2 -> committed_table (file_open w).1 <> None) /\
  (path_exists w = true -> committed_table w = None -> exists e, (file_open w).2 = Err e).
Proof.
  destruct (file_open_kept w) as [Hk Hr]. pose proof (file_open_existing w) as He.
  assert (Hret : returns (file_open w).2) by (by destruct (file_open w).2).
  assert (Hok : is_Ok (file_open w).2 -> committed_table (file_open w).1 <> None)
    by (intros [a Ha]; by rewrite Ha in Hr).
  split_and!; try done.
  intros Hp Hn. specialize (He Hp). unfold same in He. rewrite Hn in He.
  destruct (file_open w).2 as [a|e| |]; [by destruct (Hok (ex_intro _ a eq_refl))|by exists e|done|done].
Qed.
End physical.
