(* ===== verification/IdealBackend.v ===== *)
(** * A backend on which the theorems of the physical store are exercised

    An ideal redb whose file may be contended for a while, and a concrete
    snapshot format: they satisfy the laws the theorems assume. *)
From S2P Require Export PhysicalFacts.
#[local] Open Scope string_scope.
#[local] Open Scope list_scope.

(** ** A snapshot format: the digits of a positive code, then an end mark *)
#[local] Instance EffectSemantics_countable : Countable EffectSemantics.
Proof.
  refine (inj_countable' (fun s => match s with Idempotent => true | _ => false end)
    (fun b : bool => if b then Idempotent else NonIdempotent) _). by intros [].
Defined.
#[local] Instance KnownEffectOutcome_countable : Countable KnownEffectOutcome.
Proof.
  refine (inj_countable' (fun s => match s with Succeeded => true | _ => false end)
    (fun b : bool => if b then Succeeded else Failed) _). by intros [].
Defined.
#[local] Instance EffectIntent_countable : Countable EffectIntent.
Proof.
  refine (inj_countable' (fun i => (intent_task_id i, intent_operation_id i, semantics i))
    (fun '(t, o, s) => Build_EffectIntent t o s) _). by intros [].
Defined.
#[local] Instance DispatchRecord_countable : Countable DispatchRecord.
Proof.
  refine (inj_countable' (fun d => (dispatch_operation_id d, dispatch_attempt_id d))
    (fun '(o, a) => Build_DispatchRecord o a) _). by intros [].
Defined.
#[local] Instance OutcomeRecord_countable : Countable OutcomeRecord.
Proof.
  refine (inj_countable' (fun r => (outcome_operation_id r, outcome_attempt_id r, outcome r))
    (fun '(o, a, x) => Build_OutcomeRecord o a x) _). by intros [].
Defined.
#[local] Instance CapabilityReplayIdentity_countable : Countable CapabilityReplayIdentity.
Proof.
  refine (inj_countable' (fun c => (capability_id c, definition_identity c))
    (fun '(c, d) => Build_CapabilityReplayIdentity c d) _). by intros [].
Defined.
#[local] Instance AttemptAdmission_countable : Countable AttemptAdmission.
Proof.
  refine (inj_countable' (fun a => (admission_run_id a, admission_task_id a,
      admission_attempt_id a, admission_operation_id a, capabilities a))
    (fun '(r, t, a, o, c) => Build_AttemptAdmission r t a o c) _). by intros [].
Defined.
#[local] Instance CancellationRecord_countable : Countable CancellationRecord.
Proof.
  refine (inj_countable' (fun c => (cancellation_run_id c, cancellation_task_id c,
      cancellation_operation_id c, cancellation_attempt_id c))
    (fun '(r, t, o, a) => Build_CancellationRecord r t o a) _). by intros [].
Defined.
#[local] Instance CompletionRecord_countable : Countable Durable.CompletionRecord.
Proof.
  refine (inj_countable' (fun c => (completion_task_id c, completion_attempt_id c))
    (fun '(t, a) => Durable.Build_CompletionRecord t a) _). by intros [].
Defined.
#[local] Instance DurableMutation_countable : Countable DurableMutation.
Proof.
  refine (inj_countable' (fun m => match m with
    | RecordWorkflowReplayIdentity i => inl (inl (inl (i : string)))
    | AdmitAttempt a => inl (inl (inr a))
    | RecordIntent i => inl (inr (inl i))
    | RecordCancellation c => inl (inr (inr c))
    | RecordDispatch d => inr (inl (inl d))
    | RecordOutcome r => inr (inl (inr r))
    | RecordCompletion c => inr (inr c)
    end) (fun x => match x with
    | inl (inl (inl i)) => RecordWorkflowReplayIdentity i
    | inl (inl (inr a)) => AdmitAttempt a
    | inl (inr (inl i)) => RecordIntent i
    | inl (inr (inr c)) => RecordCancellation c
    | inr (inl (inl d)) => RecordDispatch d
    | inr (inl (inr r)) => RecordOutcome r
    | inr (inr c) => RecordCompletion c
    end) _). by intros [].
Defined.
#[local] Instance CommitLedgerEntry_countable : Countable CommitLedgerEntry.
Proof.
  refine (inj_countable' (fun e => (entry_key e : string, entry_mutations e,
      entry_revision e : N, binding e))
    (fun '(k, m, r, b) => Build_CommitLedgerEntry k m r b) _). by intros [].
Defined.
#[local] Instance PersistedRunSnapshot_countable : Countable PersistedRunSnapshot.
Proof.
  refine (inj_countable' (fun p => (snapshot_run_id p : string, snapshot_commit_ledger p))
    (fun '(r, l) => Build_PersistedRunSnapshot r l) _). by intros [].
Defined.

Fixpoint digits (p : positive) : list byte :=
  match p with
  | xH => [Byte.x02]
  | xO p => Byte.x00 :: digits p
  | xI p => Byte.x01 :: digits p
  end.
Fixpoint undigits (bs : list byte) : option (positive * list byte) :=
  match bs with
  | Byte.x00 :: bs => '(p, rest) ← undigits bs; Some (xO p, rest)
  | Byte.x01 :: bs => '(p, rest) ← undigits bs; Some (xI p, rest)
  | Byte.x02 :: bs => Some (xH, bs)
  | _ => None
  end.
Lemma undigits_digits p rest : undigits (digits p ++ rest) = Some (p, rest).
Proof. induction p as [p IH|p IH|]; simpl; [by rewrite IH..|done]. Qed.
Definition sample_snapshot_format : SnapshotFormat :=
  {| snapshot_to_allocvec p := inr (digits (encode p));
     snapshot_take_from_bytes bs :=
       match undigits bs with
       | Some (c, rest) => match decode c with Some p => inr (p, rest) | None => inl "Custom" end
       | None => inl "DeserializeUnexpectedEnd"
       end |}.
Lemma sample_snapshot_format_laws : @SnapshotFormatLaws sample_snapshot_format.
Proof.
  split; simpl; [by eexists|]. intros p bs rest [= <-].
  by rewrite undigits_digits, countable.decode_encode.
Qed.

(** ** An ideal redb, contended for the next [busy] attempts *)
Record ideal := { table_now : option table; table_pending : option table; clock : N; busy : nat }.
#[export] Instance ideal_redb : Redb ideal := {
  has_parent _ := true;
  path_exists w := bool_decide (is_Some (table_now w));
  now := clock;
  sleep d w := {| table_now := table_now w; table_pending := table_pending w;
                  clock := (clock w + d)%N; busy := busy w |};
  create_dir_all w := (w, inr tt);
  database_create w := (w, Some (inr tt));
  database_open w :=
    match busy w with
    | O => (w, Some (inr tt))
    | S n => ({| table_now := table_now w; table_pending := table_pending w; clock := clock w;
                 busy := n |}, Some (inl DatabaseAlreadyOpen))
    end;
  database_drop w := {| table_now := table_now w; table_pending := None; clock := clock w;
                        busy := busy w |};
  begin_read w := (w, inr tt);
  read_open_table w :=
    (w, match table_now w with Some _ => inr tt | None => inl (TableDoesNotExist "kernis_runs_v1") end);
  read_get k w := (w, inr (default ∅ (table_now w) !! k));
  begin_write w := ({| table_now := table_now w; table_pending := table_now w; clock := clock w;
                       busy := busy w |}, inr tt);
  write_open_table w :=
    ({| table_now := table_now w; table_pending := Some (default ∅ (table_pending w));
        clock := clock w; busy := busy w |}, inr tt);
  write_get k w := (w, inr (default ∅ (table_pending w) !! k));
  write_insert k v w :=
    ({| table_now := table_now w;
        table_pending := Some (<[k := v]> (default ∅ (table_pending w)));
        clock := clock w; busy := busy w |}, inr tt);
  write_commit w := ({| table_now := table_pending w; table_pending := None; clock := clock w;
                        busy := busy w |}, inr tt)
}.
#[export] Instance ideal_view : RedbView ideal :=
  {| committed_table := table_now; pending_table := table_pending; healthy w := busy w = 0 |}.
Lemma ideal_laws : RedbLaws ideal.
Proof.
  split; cbn; unfold quiet; cbn; intros; simplify_eq; split_and?; intros; simplify_eq; try done;
    eauto; try lia;
    try (destruct (busy w) eqn:Eb; simplify_eq; cbn; split_and?; intros; simplify_eq; try done; lia);
    destruct (table_now w'); simplify_eq; eauto; done.
Qed.

(** ** The theorems at concrete inputs *)
#[local] Existing Instances sample_format sample_snapshot_format.

Lemma row_roundtrip_witness :
  exists bs, encode_state sample_run = Ok bs /\ decode_state bs = Ok sample_run /\
  (forall l1 x y l2, bs = l1 ++ x :: l2 -> x <> y ->
     exists m, decode_state (l1 ++ y :: l2) = Err (DataCorruption m)) /\
  (forall bs', (exists s', decode_state bs' = Ok s') \/
     (exists m, decode_state bs' = Err (DataCorruption m))).
Proof.
  apply (@row_roundtrip sample_format sample_snapshot_format sample_format_laws
           sample_snapshot_format_laws (sample_store_after 6) "run" sample_run).
  - apply sample_store_reachable.
  - exact sample_run_lookup.
  - vm_compute. reflexivity.
Defined.

Definition fresh_file : ideal :=
  {| table_now := Some ∅; table_pending := None; clock := 0; busy := 0 |}.
Definition file_after (n : nat) : ideal :=
  foldl (fun w q => (commit w q).1) (create_run fresh_file "run").1 (take n sample_requests).
Lemma fresh_file_represents : represents fresh_file InMemoryDurableStore_new.
Proof. exists ∅. split; [reflexivity|]. intros r. reflexivity. Qed.

Lemma file_store_refines_memory_witness :
  refines fresh_file InMemoryDurableStore_new (create_run InMemoryDurableStore_new "run").1
    (create_run InMemoryDurableStore_new "run").2 (create_run fresh_file "run") /\
  (create_run fresh_file "run").2 = Ok 0%N /\
  (load_run (file_after 1) "run").2 = memory_load_run (sample_store_after 1) "run".
Proof.
  split; [|split; vm_compute; reflexivity].
  apply (@file_store_refines_memory sample_format sample_snapshot_format sample_format_laws
    sample_snapshot_format_laws ideal ideal_redb ideal_view ideal_laws).
  - exact fresh_file_represents.
  - apply rtc_refl.
Defined.

Definition contended_file (n : nat) : ideal :=
  {| table_now := Some ∅; table_pending := None; clock := 0; busy := n |}.
Lemma bounded_waits_witness :
  (open_existing_database (contended_file 100)).2 = Err BackendUnavailable /\
  (open_existing_database (contended_file 2)).2 = Ok tt /\
  returns (open_bootstrap_database (contended_file 100)).2.
Proof.
  destruct (@bounded_waits ideal ideal_redb ideal_view ideal_laws (contended_file 100) 40)
    as (_ & Hc & Hb).
  - reflexivity.
  - intros i Hi. unfold contended. do 40 (destruct i as [|i]; [vm_compute; reflexivity|]). lia.
  - left. reflexivity.
  - split; [apply Hc; vm_compute; reflexivity|split; [vm_compute; reflexivity|exact Hb]].
Defined.

Lemma file_open_safe_witness :
  let w := {| table_now := None; table_pending := None; clock := 0%N; busy := 0 |} in
  committed_table (file_open w).1 = Some ∅ /\ returns (file_open w).2 /\ kept w (file_open w).1.
Proof.
  cbv zeta. split; [vm_compute; reflexivity|].
  destruct (@file_open_safe ideal ideal_redb ideal_view ideal_laws
    {| table_now := None; table_pending := None; clock := 0%N; busy := 0 |}) as (Hr & Hk & _).
  split; [exact Hr|exact Hk].
Defined.
