(* ===== verification/CapabilityGraph.v ===== *)
(** * Capability definitions and their resolution:
    [crates/capability-graph/src/definition.rs], [resolver.rs]

    Definitions with their declared dependencies, the graph of the registered
    ones, and the depth-first resolution into a construction order. *)
From S2P Require Export KernisCore.
#[local] Open Scope string_scope.
#[local] Open Scope nat_scope.
#[local] Open Scope list_scope.

(** ** Definitions *)
Definition CapabilityId : Set := Id.
#[export] Instance CapabilityId_eq_dec : EqDecision CapabilityId := String.eq_dec.
Record Capability := { capability_id : CapabilityId; capability_kind : string }.
Definition Capability_new (id : CapabilityId) (kind : string) : Capability :=
  {| capability_id := id; capability_kind := kind |}.
(** [Dependency], a struct of one identifier, is represented by it; so is its
    derived order. *)
Definition Dependency : Set := CapabilityId.
Record CapabilityDefinition := {
  def_id : CapabilityId;
  def_kind : string;
  replay_identity : string;
  def_dependencies : gset Dependency
}.
#[export] Instance CapabilityDefinition_eq_dec : EqDecision CapabilityDefinition.
Proof. solve_decision. Defined.
Definition CapabilityDefinition_new (id : CapabilityId) (kind : string) : CapabilityDefinition :=
  {| def_id := id; def_kind := kind; replay_identity := Id_display id +:+ ":" +:+ kind;
     def_dependencies := ∅ |}.
Definition with_replay_identity (d : CapabilityDefinition) (r : string) : CapabilityDefinition :=
  {| def_id := def_id d; def_kind := def_kind d; replay_identity := r;
     def_dependencies := def_dependencies d |}.
Definition add_dependency (d : CapabilityDefinition) (dep : CapabilityId) : CapabilityDefinition :=
  {| def_id := def_id d; def_kind := def_kind d; replay_identity := replay_identity d;
     def_dependencies := {[dep]} ∪ def_dependencies d |}.
Definition depends_on (d : CapabilityDefinition) (dep : CapabilityId) : CapabilityDefinition :=
  add_dependency d dep.
Definition CapabilityDefinition_from (c : Capability) : CapabilityDefinition :=
  CapabilityDefinition_new (capability_id c) (capability_kind c).

(** *** Generations and entry identities *)
Definition Generation : Set := N.
Definition Generation_ZERO : Generation := 0%N.
Definition Generation_FIRST : Generation := 1%N.
Definition Generation_MAX : Generation := u64_max.
Definition Generation_get (g : Generation) : N := g.
Definition Generation_checked_next (g : Generation) : option Generation := checked_succ g.
Definition Generation_next (g : Generation) : result Empty_set Generation :=
  expect (Generation_checked_next g) "capability generation overflow".
Definition EntryId : Set := N.
#[export] Instance EntryId_eq_dec : EqDecision EntryId := N.eq_dec.

(** ** The graph *)
Record CapabilityGraph := { definitions : gmap CapabilityId CapabilityDefinition }.
Definition CapabilityGraph_default : CapabilityGraph := {| definitions := ∅ |}.

Inductive CapabilityGraphError :=
  | UnknownCapability (id : CapabilityId)
  | GraphMissingDependency (capability dependency : CapabilityId)
  | CapabilityCycle (path : list CapabilityId).
#[export] Instance CapabilityGraphError_eq_dec : EqDecision CapabilityGraphError.
Proof. solve_decision. Defined.
(** [ids.map(to_string).collect().join(" -> ")] *)
Definition join_ids (ids : list CapabilityId) : string :=
  String.concat " -> " (Id_display <$> ids).
Definition CapabilityGraphError_display (e : CapabilityGraphError) : string :=
  match e with
  | UnknownCapability id => "unknown capability: " +:+ Id_display id
  | GraphMissingDependency c d =>
      "capability " +:+ Id_display c +:+ " requires missing dependency " +:+ Id_display d
  | CapabilityCycle p => "capability dependency cycle: " +:+ join_ids p
  end.

Definition graph_insert (g : CapabilityGraph) (c : CapabilityDefinition) :
  CapabilityGraph * option CapabilityDefinition :=
  ({| definitions := <[def_id c := c]> (definitions g) |}, definitions g !! def_id c).
Definition require (g : CapabilityGraph) (consumer dependency : CapabilityId) :
  result CapabilityGraphError CapabilityGraph :=
  match definitions g !! consumer with
  | None => Err (UnknownCapability consumer)
  | Some d =>
      if bool_decide (is_Some (definitions g !! dependency))
      then Ok {| definitions := <[consumer := add_dependency d dependency]> (definitions g) |}
      else Err (GraphMissingDependency consumer dependency)
  end.
Definition requirements (g : CapabilityGraph) (c : CapabilityId) : list CapabilityId :=
  match definitions g !! c with Some d => set_iter (def_dependencies d) | None => [] end.
Definition graph_len (g : CapabilityGraph) : nat := size (dom (definitions g) : gset CapabilityId).
Definition graph_is_empty (g : CapabilityGraph) : bool := graph_len g =? 0.
Definition from_definitions (ds : list CapabilityDefinition) : CapabilityGraph :=
  foldl (fun g d => (graph_insert g d).1) CapabilityGraph_default ds.

(** ** Resolution *)
Inductive VisitState := Active | Done.
#[export] Instance VisitState_eq_dec : EqDecision VisitState.
Proof. solve_decision. Defined.
Record search := {
  states : gmap CapabilityId VisitState;
  active_path : list CapabilityId;
  order : list CapabilityId
}.

(** [visit]; the loop over the dependencies is [foldM (visit_dependency ..)]. *)
Definition visit_dependency (defs : gmap CapabilityId CapabilityDefinition)
  (visit : CapabilityId -> search -> result CapabilityGraphError search) (id : CapabilityId)
  (s : search) (d : CapabilityId) : result CapabilityGraphError search :=
  if bool_decide (is_Some (defs !! d)) then visit d s else Err (GraphMissingDependency id d).
Fixpoint visit (fuel : nat) (defs : gmap CapabilityId CapabilityDefinition)
  (id : CapabilityId) (s : search) : result CapabilityGraphError search :=
  match fuel with
  | O => NoFuel
  | S fuel =>
      match states s !! id with
      | Some Done => Ok s
      | Some Active =>
          match position id (active_path s) with
          | Some start => Err (CapabilityCycle (drop start (active_path s) ++ [id]))
          | None => Panic "active capability must be on the active path"
          end
      | None =>
          definition ← expect (defs !! id) "visit is only called with a registered capability";
          s ← foldM (visit_dependency defs (visit fuel defs) id)
                (set_iter (def_dependencies definition))
                {| states := <[id := Active]> (states s); active_path := active_path s ++ [id];
                   order := order s |};
          Ok {| states := <[id := Done]> (states s); active_path := vec_pop (active_path s);
                order := order s ++ [id] |}
      end
  end.

(** One nested call per registered capability, and one that finds a mark. *)
Definition visit_fuel (defs : gmap CapabilityId CapabilityDefinition) : nat :=
  S (size (dom defs : gset CapabilityId)).
Record ResolvedCapabilityGraph := { construction_order : list CapabilityId }.
Definition teardown_order (r : ResolvedCapabilityGraph) : list CapabilityId :=
  rev (construction_order r).
Definition resolve_all (defs : gmap CapabilityId CapabilityDefinition) (ids : list CapabilityId)
  (s : search) : result CapabilityGraphError search :=
  foldM (fun s id => visit (visit_fuel defs) defs id s) ids s.
Definition resolve (g : CapabilityGraph) : result CapabilityGraphError ResolvedCapabilityGraph :=
  s ← resolve_all (definitions g) (map_keys (definitions g))
        {| states := ∅; active_path := []; order := [] |};
  Ok {| construction_order := order s |}.

Record ValidatedCapabilityDefinition := {
  validated_definition : CapabilityDefinition;
  resolution : ResolvedCapabilityGraph
}.
Definition validate_candidate (g : CapabilityGraph) (candidate : CapabilityDefinition) :
  result CapabilityGraphError ValidatedCapabilityDefinition :=
  r ← resolve (graph_insert g candidate).1;
  Ok {| validated_definition := candidate; resolution := r |}.
