(* ===== verification/CapabilityGraphFacts.v ===== *)
(** * Facts about capability resolution *)
From S2P Require Export CapabilityGraph.
#[local] Open Scope string_scope.
#[local] Open Scope nat_scope.
#[local] Open Scope list_scope.

Section resolution.
Context (defs : gmap CapabilityId CapabilityDefinition).

(** [needs x y]: [x] declares the dependency [y]. *)
Definition needs (x y : CapabilityId) : Prop :=
  exists d, defs !! x = Some d /\ y ∈ def_dependencies d.
(** Every declared dependency is registered. *)
Definition closed : Prop := forall x y, needs x y -> is_Some (defs !! y).
(** A listing in which every dependency comes before its dependents. *)
Definition dependency_first (l : list CapabilityId) : Prop := dependencies_first needs l.

Record resolution_ok (s : search) : Prop := {
  so_active x : states s !! x = Some Active <-> x ∈ active_path s;
  so_done x : states s !! x = Some Done <-> x ∈ order s;
  so_chain : chain needs (active_path s);
  so_nodup : NoDup (order s);
  so_path x : x ∈ active_path s -> is_Some (defs !! x);
  so_order x : x ∈ order s -> is_Some (defs !! x);
  so_first : dependency_first (order s)
}.
Definition unmarked (s : search) : nat := size ((dom defs : gset CapabilityId) ∖ dom (states s)).

(** What a refused resolution may say. *)
Definition error_ok (e : CapabilityGraphError) : Prop :=
  match e with
  | GraphMissingDependency x y => needs x y /\ defs !! y = None
  | CapabilityCycle p => is_cycle needs p
  | UnknownCapability _ => False
  end.
(** The search went on: nothing is lost, [id] is constructed. *)
Record visited (s s' : search) (ids : list CapabilityId) : Prop := {
  vi_ok : resolution_ok s';
  vi_path : active_path s' = active_path s;
  vi_order : order s `prefix_of` order s';
  vi_marks x : is_Some (states s !! x) -> is_Some (states s' !! x);
  vi_ids x : x ∈ ids -> x ∈ order s'
}.
Definition resolution_post (s : search) (ids : list CapabilityId)
  (r : result CapabilityGraphError search) : Prop :=
  match r with
  | Ok s' => visited s s' ids
  | Err e => error_ok e
  | _ => False
  end.

Lemma unmarked_mono s s' :
  (forall x, is_Some (states s !! x) -> is_Some (states s' !! x)) -> unmarked s' <= unmarked s.
Proof.
  intros Hs. unfold unmarked. apply subseteq_size. intros x. rewrite !elem_of_difference, !elem_of_dom.
  intros [Hx Hn]. split; [done|]. auto.
Qed.
Lemma unmarked_push s id d path :
  states s !! id = None -> defs !! id = Some d ->
  unmarked {| states := <[id := Active]> (states s); active_path := path; order := order s |}
  < unmarked s.
Proof.
  intros Hn Hd. unfold unmarked. apply subset_size. split.
  - intros x. cbn. rewrite !elem_of_difference, dom_insert, elem_of_union. tauto.
  - intros Hsub. assert (id ∈ (dom defs : gset CapabilityId) ∖ dom (states s)) as Hin.
    { rewrite elem_of_difference, !elem_of_dom, Hd, Hn. split; [by eexists|by intros []]. }
    apply Hsub in Hin. cbn in Hin. rewrite elem_of_difference, dom_insert in Hin. set_solver.
Qed.
Lemma visited_refl s : resolution_ok s -> visited s s [].
Proof. intros Hs. split; try done. by intros x ?%elem_of_nil. Qed.
Lemma visited_trans s1 s2 s3 l1 l2 :
  visited s1 s2 l1 -> visited s2 s3 l2 -> visited s1 s3 (l1 ++ l2).
Proof.
  intros [? Hp1 Ho1 Hm1 Hi1] [? Hp2 Ho2 Hm2 Hi2]. split; try done.
  - congruence.
  - by etransitivity.
  - auto.
  - intros x [Hx|Hx]%elem_of_app; [|auto].
    destruct Ho2 as [k ->]. apply elem_of_app. left. auto.
Qed.

Lemma resolution_push s id d :
  resolution_ok s -> states s !! id = None -> defs !! id = Some d ->
  (forall z, last (active_path s) = Some z -> needs z id) ->
  resolution_ok {| states := <[id := Active]> (states s); active_path := active_path s ++ [id];
               order := order s |}.
Proof.
  intros [Ha Hd Hc Hn Hp Ho Hf] Hnew Hdef Hlast. split; cbn; try done.
  - intros x. rewrite elem_of_app, list_elem_of_singleton, lookup_insert_Some, <- Ha.
    destruct (decide (id = x)) as [<-|]; naive_solver congruence.
  - intros x. rewrite lookup_insert_Some, <- Hd.
    destruct (decide (id = x)) as [<-|]; naive_solver congruence.
  - destruct (last (active_path s)) as [z|] eqn:Hz.
    + eapply chain_snoc_last; eauto.
    + apply last_None in Hz. by rewrite Hz.
  - intros x [Hx|Hx%list_elem_of_singleton]%elem_of_app; [auto|]. subst. by eexists.
Qed.
Lemma resolution_pop s id :
  resolution_ok s -> active_path s = vec_pop (active_path s) ++ [id] ->
  id ∉ vec_pop (active_path s) -> (forall y, needs id y -> y ∈ order s) ->
  resolution_ok {| states := <[id := Done]> (states s); active_path := vec_pop (active_path s);
               order := order s ++ [id] |}.
Proof.
  intros [Ha Hd Hc Hn Hp Ho Hf] Hpath Hid Hdeps. set (path := vec_pop (active_path s)) in *.
  assert (Hact : states s !! id = Some Active).
  { apply Ha. rewrite Hpath, elem_of_app, list_elem_of_singleton. by right. }
  split; cbn.
  - intros x. rewrite lookup_insert_Some. split.
    + intros [[? ?]|[Hne Hx]]; [done|]. apply Ha in Hx. rewrite Hpath in Hx.
      apply elem_of_app in Hx as [Hx|Hx%list_elem_of_singleton]; [done|congruence].
    + intros Hx. right. split; [by intros ->|]. apply Ha. rewrite Hpath, elem_of_app. by left.
  - intros x. rewrite lookup_insert_Some, elem_of_app, list_elem_of_singleton, <- Hd.
    destruct (decide (id = x)) as [<-|]; naive_solver congruence.
  - rewrite Hpath in Hc. clear -Hc. induction path as [|a l IH]; [done|].
    destruct l as [|b l]; [done|]. destruct Hc as [? Hc]. split; [done|]. by apply IH.
  - apply NoDup_app. split_and!; [done| |apply NoDup_singleton].
    intros x Hx ->%list_elem_of_singleton. apply Hd in Hx. congruence.
  - intros x Hx. apply Hp. rewrite Hpath, elem_of_app. by left.
  - intros x [Hx|Hx%list_elem_of_singleton]%elem_of_app; [auto|]. subst. apply Hp.
    rewrite Hpath, elem_of_app, list_elem_of_singleton. by right.
  - intros i x y Hx Hxy. apply lookup_app_Some in Hx as [Hx|[Hi Hx]].
    + destruct (Hf i x y Hx Hxy) as (j & ? & Hj). exists j. split; [done|].
      by apply lookup_app_l_Some.
    + apply list_lookup_singleton_Some in Hx as [_ <-].
      apply Hdeps, list_elem_of_lookup in Hxy as [j Hj]. exists j.
      split; [apply lookup_lt_Some in Hj; lia|]. by apply lookup_app_l_Some.
Qed.

(** The loop over the dependencies of an active capability. *)
Lemma resolution_dependencies_post (v : CapabilityId -> search -> result CapabilityGraphError search)
  id ds s n :
  (forall d s, resolution_ok s -> is_Some (defs !! d) -> unmarked s <= n ->
     (forall z, last (active_path s) = Some z -> needs z d) -> resolution_post s [d] (v d s)) ->
  resolution_ok s -> unmarked s <= n -> last (active_path s) = Some id ->
  (forall d, d ∈ ds -> needs id d) ->
  resolution_post s ds (foldM (visit_dependency defs v id) ds s).
Proof.
  intros Hv. revert s. induction ds as [|d ds IH]; intros s Hs Hn Hlast Hds; simpl.
  { by apply visited_refl. }
  assert (Hd : needs id d) by (apply Hds; left).
  destruct (decide (is_Some (defs !! d))) as [Hreg|Hreg];
    [assert (visit_dependency defs v id s d = v d s) as ->
       by (unfold visit_dependency; by rewrite bool_decide_true)
    |assert (visit_dependency defs v id s d = Err (GraphMissingDependency id d)) as ->
       by (unfold visit_dependency; by rewrite bool_decide_false)]; cbn.
  - pose proof (Hv d s Hs Hreg Hn) as Hpost.
    specialize (Hpost ltac:(intros z Hz; rewrite Hlast in Hz; by injection Hz as <-)).
    destruct (v d s) as [s1|e| |]; try done. cbn in *.
    pose proof (vi_ok _ _ _ Hpost) as Hs1.
    pose proof (IH s1) as IH1. specialize (IH1 Hs1).
    specialize (IH1 ltac:(pose proof (unmarked_mono s s1 (vi_marks _ _ _ Hpost)); lia)).
    rewrite (vi_path _ _ _ Hpost) in IH1. specialize (IH1 Hlast).
    specialize (IH1 ltac:(intros x Hx; apply Hds; by right)).
    destruct (foldM _ ds s1) as [s2|e| |]; try done. cbn in *.
    by apply (visited_trans s s1 s2 [d] ds).
  - split; [done|]. by apply eq_None_not_Some.
Qed.

Lemma resolution_visit fuel id s :
  resolution_ok s -> is_Some (defs !! id) -> unmarked s < fuel ->
  (forall z, last (active_path s) = Some z -> needs z id) ->
  resolution_post s [id] (visit fuel defs id s).
Proof.
  revert id s. induction fuel as [|fuel IH]; intros id s Hs [d Hd] Hfuel Hlast; [lia|].
  cbn [visit]. destruct (states s !! id) as [[]|] eqn:Eid.
  - apply (so_active _ Hs) in Eid. destruct (position_is_Some id _ Eid) as [i Hi]. rewrite Hi.
    apply position_Some in Hi. cbn. apply chain_close; [apply Hs|done|done].
  - split; try done. intros x ->%list_elem_of_singleton. by apply (so_done _ Hs).
  - rewrite Hd. cbn [expect mbind result_bind].
    pose proof (resolution_push s id d Hs Eid Hd Hlast) as Hs1.
    pose proof (unmarked_push s id d (active_path s ++ [id]) Eid Hd) as Hlt.
    set (s1 := {| states := <[id := Active]> (states s); active_path := active_path s ++ [id];
                  order := order s |}) in *.
    pose proof (resolution_dependencies_post (visit fuel defs) id (set_iter (def_dependencies d)) s1
      (unmarked s1)) as Hdeps.
    specialize (Hdeps ltac:(intros d' s' Hs' Hd' Hn'; apply IH; [done|done|lia])).
    specialize (Hdeps Hs1 (Nat.le_refl _) ltac:(apply last_snoc)).
    specialize (Hdeps ltac:(intros y Hy; exists d; by rewrite <- elem_of_set_iter)).
    destruct (foldM _ _ s1) as [s2|e| |]; try done. cbn in *.
    destruct Hdeps as [Hok2 Hpath2 Hord2 Hmarks2 Hids2].
    assert (Hpop : vec_pop (active_path s2) = active_path s)
      by (rewrite Hpath2; apply vec_pop_snoc).
    assert (Hnotin : id ∉ active_path s).
    { intros Hin. apply (so_active _ Hs) in Hin. congruence. }
    split; cbn; try done.
    + apply resolution_pop; rewrite ?Hpop; try done.
      intros y (d' & Hd' & Hy). rewrite Hd in Hd'. injection Hd' as <-.
      apply Hids2. by rewrite elem_of_set_iter.
    + etransitivity; [exact Hord2|by apply prefix_app_r].
    + intros x Hx. destruct (decide (id = x)) as [<-|Hne]; [by rewrite lookup_insert_eq|].
      rewrite lookup_insert_ne by done. apply Hmarks2. subst s1. cbn. by rewrite lookup_insert_ne.
    + intros x ->%list_elem_of_singleton. apply elem_of_app. right. by left.
Qed.

Lemma resolution_start : resolution_ok {| states := ∅; active_path := []; order := [] |}.
Proof.
  split; cbn; try done; try apply NoDup_nil_2; intros *; rewrite ?lookup_empty, ?elem_of_nil; done.
Qed.
Lemma resolve_all_post ids s :
  resolution_ok s -> active_path s = [] -> (forall x, x ∈ ids -> is_Some (defs !! x)) ->
  resolution_post s ids (resolve_all defs ids s).
Proof.
  revert s. induction ids as [|id ids IH]; intros s Hs Hpath Hids.
  { by apply visited_refl. }
  change (resolve_all defs (id :: ids) s) with
    (visit (visit_fuel defs) defs id s ≫= resolve_all defs ids).
  pose proof (resolution_visit (visit_fuel defs) id s Hs) as Hv.
  specialize (Hv ltac:(apply Hids; left)).
  assert (Hlt : unmarked s < visit_fuel defs).
  { unfold visit_fuel, unmarked. apply Nat.lt_succ_r, subseteq_size. set_solver. }
  specialize (Hv Hlt ltac:(intros z; by rewrite Hpath)).
  destruct (visit (visit_fuel defs) defs id s) as [s1|e| |]; try exact Hv.
  cbn [resolution_post mbind result_bind] in *.
  pose proof (IH s1 (vi_ok _ _ _ Hv)) as IH1.
  rewrite (vi_path _ _ _ Hv) in IH1. specialize (IH1 Hpath ltac:(intros x Hx; apply Hids; by right)).
  destruct (resolve_all defs ids s1) as [s2|e| |]; try exact IH1.
  by apply (visited_trans s s1 s2 [id] ids).
Qed.

End resolution.

Lemma resolve_cases (g : CapabilityGraph) :
  match resolve g with
  | Ok r =>
      NoDup (construction_order r) /\
      (forall x, x ∈ construction_order r <-> is_Some (definitions g !! x)) /\
      dependency_first (definitions g) (construction_order r)
  | Err e => error_ok (definitions g) e
  | _ => False
  end.
Proof.
  unfold resolve. pose proof (resolve_all_post (definitions g) (map_keys (definitions g)) _
    (resolution_start _) eq_refl (fun x => proj1 (elem_of_map_keys _ x))) as Hp.
  destruct (resolve_all _ _ _) as [s|e| |]; try exact Hp. cbn in *.
  destruct Hp as [Hok _ _ _ Hids]. destruct Hok. split_and!; try done.
  intros x. split; [auto|]. intros Hx. by apply Hids, elem_of_map_keys.
Qed.
Lemma resolve_Ok_iff (g : CapabilityGraph) :
  is_Ok (resolve g) <-> closed (definitions g) /\ acyclic (needs (definitions g)).
Proof.
  pose proof (resolve_cases g) as Hc. split.
  - intros [r Hr]. rewrite Hr in Hc. destruct Hc as (_ & Hel & Hf). split.
    + intros x y Hxy. assert (Hx : x ∈ construction_order r).
      { apply Hel. destruct Hxy as (d & Hd & _). by exists d. }
      apply list_elem_of_lookup in Hx as [i Hi].
      destruct (Hf i x y Hi Hxy) as (j & _ & Hj). apply Hel. by eapply list_elem_of_lookup_2.
    + apply grounded_acyclic.
      apply (grounded_all_sources _ (fun x => is_Some (definitions g !! x))).
      * intros x Hx%Hel. by eapply dependencies_first_grounded.
      * intros x y (d & Hd & _). by exists d.
      * intros x. destruct (definitions g !! x); [left; by eexists|right; by intros []].
  - intros [Hclosed Hac]. destruct (resolve g) as [r|e| |]; try done; [by exists r|].
    exfalso. destruct e as [id|x y|p]; cbn in Hc; [done| |].
    + destruct Hc as [Hxy Hn]. destruct (Hclosed x y Hxy). congruence.
    + by eapply acyclic_no_cycle.
Qed.

(** ** Graphs from definitions *)
Definition keyed (defs : gmap CapabilityId CapabilityDefinition) : Prop :=
  forall k d, defs !! k = Some d -> def_id d = k.

Lemma from_definitions_lookup ds g k d :
  definitions (foldl (fun g d => (graph_insert g d).1) g ds) !! k = Some d ->
  (d ∈ ds /\ def_id d = k) \/ definitions g !! k = Some d.
Proof.
  revert g. induction ds as [|x ds IH]; intros g; simpl; [by right|].
  intros [[Hd Hk]|Hg]%IH; [left; by rewrite elem_of_cons; auto|]. simpl in Hg.
  apply lookup_insert_Some in Hg as [[<- <-]|[_ Hg]]; [left; split; [by left|done]|by right].
Qed.
Lemma from_definitions_elem ds g k d :
  (forall x, x ∈ ds -> def_id x = k -> x = d) -> d ∈ ds -> def_id d = k ->
  definitions (foldl (fun g d => (graph_insert g d).1) g ds) !! k = Some d.
Proof.
  revert g. induction ds as [|x ds IH] using rev_ind; intros g Huniq Hd Hk;
    [by apply elem_of_nil in Hd|].
  rewrite foldl_app. simpl. destruct (decide (def_id x = k)) as [Hx|Hx].
  - rewrite Hx, lookup_insert_eq. f_equal. apply Huniq; [|done].
    apply elem_of_app. right. by left.
  - rewrite lookup_insert_ne by done. apply IH; [|apply elem_of_app in Hd as [Hd|Hd]; [done|]|done].
    + intros y Hy. apply Huniq. apply elem_of_app. by left.
    + apply list_elem_of_singleton in Hd as ->. done.
Qed.
Lemma definitions_from_values defs :
  keyed defs -> definitions (from_definitions (map_values defs)) = defs.
Proof.
  intros Hkey. apply map_eq. intros k. unfold from_definitions.
  destruct (defs !! k) as [d|] eqn:Ed.
  - apply from_definitions_elem.
    + intros x (k' & Hx)%elem_of_map_values Hk. pose proof (Hkey _ _ Hx) as Hk'. congruence.
    + apply elem_of_map_values. by exists k.
    + by apply Hkey.
  - destruct (definitions _ !! k) as [d|] eqn:E; [|done].
    apply from_definitions_lookup in E as [[Hd Hk]|Hd]; [|done].
    apply elem_of_map_values in Hd as (k' & Hk'). pose proof (Hkey _ _ Hk'). congruence.
Qed.

(** C28: resolution is exact.  It always returns.  It succeeds exactly when
    every declared dependency is registered and the dependencies are acyclic;
    the construction order then lists every registered capability once and
    each one after all its dependencies, and the teardown order is its
    reverse.  A refusal names a real defect: a registered capability with an
    unregistered dependency, or a closed walk of declared dependencies. *)
Theorem resolve_exact (g : CapabilityGraph) :
  returns (resolve g) /\
  (is_Ok (resolve g) <-> closed (definitions g) /\ acyclic (needs (definitions g))) /\
  (forall r, resolve g = Ok r ->
     NoDup (construction_order r) /\
     (forall x, x ∈ construction_order r <-> is_Some (definitions g !! x)) /\
     dependency_first (definitions g) (construction_order r) /\
     teardown_order r = rev (construction_order r)) /\
  (forall e, resolve g = Err e ->
     (exists x y, e = GraphMissingDependency x y /\ needs (definitions g) x y /\
        definitions g !! y = None) \/
     (exists p, e = CapabilityCycle p /\ is_cycle (needs (definitions g)) p)).
Proof.
  pose proof (resolve_cases g) as Hc. split_and!.
  - by destruct (resolve g).
  - apply resolve_Ok_iff.
  - intros r Hr. rewrite Hr in Hc. destruct Hc as (? & ? & ?). by split_and!.
  - intros e He. rewrite He in Hc. destruct e as [id|x y|p]; cbn in Hc; [done| |].
    + left. by exists x, y.
    + right. by exists p.
Qed.
