(* ===== verification/Scope.v ===== *)
(** * Scopes and publication: [crates/capability-graph/src/runtime.rs]

    The tree of scopes, lookup through parents, two-phase publication,
    withdrawal and teardown.  The topology lock makes each section between
    its acquisition and release atomic, so an operation that takes it once is
    one function, and [publish], which releases it while the factory runs, is
    two ([publish_plan], [publish_preconstructed]) with any steps in between.

    A scope is named by the path of child indexes from its root, the own
    index first, so its parent, which never changes, is the tail of its name.
    Entries are immutable: a handle, which shares them, is represented by the
    entry, and the handles inside an entry by entry identities, looked up in
    the table of all entries ever published.  Values are opaque names; when a
    value is disposed of, and how an identity is reserved, is in [Ownership]. *)
From stdpp Require Export pretty.
From S2P Require Export CapabilityGraphFacts.
#[local] Open Scope string_scope.
#[local] Open Scope nat_scope.
#[local] Open Scope list_scope.

Definition CapabilityValue : Set := N.
Record CapabilityEntry := {
  definition : CapabilityDefinition;
  value : CapabilityValue;
  dependencies : gmap CapabilityId EntryId;
  generation : Generation;
  entry_id : EntryId
}.
#[export] Instance CapabilityEntry_eq_dec : EqDecision CapabilityEntry.
Proof. unfold EqDecision, CapabilityValue, Generation. solve_decision. Defined.
Definition handle_id (h : CapabilityEntry) : CapabilityId := def_id (definition h).

Inductive Lifecycle := Open | Closing | Closed.
#[export] Instance Lifecycle_eq_dec : EqDecision Lifecycle.
Proof. solve_decision. Defined.
(** [Lifecycle::from_raw]; [lifecycle.load()] is read through it. *)
Definition Lifecycle_from_raw (value : N) : Lifecycle :=
  match value with 0%N => Open | 1%N => Closing | _ => Closed end.
Abbreviation ScopeId := (list nat).

Record ScopeState := {
  entries : gmap CapabilityId CapabilityEntry;
  lifecycle : Lifecycle;
  children : list nat
}.
Record Runtime := {
  scopes : gmap ScopeId ScopeState;
  arena : gmap EntryId CapabilityEntry;
  next_entry_id : N
}.
(** [static NEXT_ENTRY_ID: AtomicU64 = AtomicU64::new(1)] *)
Definition Runtime_start : Runtime := {| scopes := ∅; arena := ∅; next_entry_id := 1%N |}.

Inductive ScopeError :=
  | GraphAdmission (e : CapabilityGraphError)
  | MissingDependency (capability dependency : CapabilityId)
  | ConstructionFailed (capability : CapabilityId) (reason : string)
  | AlreadyProvided (capability : CapabilityId) (g : Generation)
  | NoLocalEntry (capability : CapabilityId)
  | ReplacementConflict (capability : CapabilityId) (expected actual : Generation)
  | DependencyChanged (capability dependency : CapabilityId)
  | GenerationExhausted (capability : CapabilityId)
  | ScopeClosed.
#[export] Instance ScopeError_eq_dec : EqDecision ScopeError.
Proof. unfold EqDecision, Generation. solve_decision. Defined.
(** [From<CapabilityGraphError> for ScopeError] *)
Definition ScopeError_from (e : CapabilityGraphError) : ScopeError :=
  match e with
  | GraphMissingDependency c d => MissingDependency c d
  | other => GraphAdmission other
  end.
Definition ScopeError_display (e : ScopeError) : string :=
  match e with
  | GraphAdmission e => "runtime graph admission rejected: " +:+ CapabilityGraphError_display e
  | MissingDependency c d =>
      "capability " +:+ Id_display c +:+ " requires missing dependency " +:+ Id_display d
  | ConstructionFailed c r => "failed to construct capability " +:+ Id_display c +:+ ": " +:+ r
  | AlreadyProvided c g =>
      "capability " +:+ Id_display c +:+ " already has local generation "
      +:+ pretty (Generation_get g)
  | NoLocalEntry c => "capability " +:+ Id_display c +:+ " has no local entry to replace"
  | ReplacementConflict c ex ac =>
      "replacement conflict for " +:+ Id_display c +:+ ": expected generation "
      +:+ pretty (Generation_get ex) +:+ ", actual " +:+ pretty (Generation_get ac)
  | DependencyChanged c d =>
      "dependency " +:+ Id_display d +:+ " changed while initializing " +:+ Id_display c
  | GenerationExhausted c => "generation exhausted for capability " +:+ Id_display c
  | ScopeClosed => "scope is already closing or closed"
  end.

(** ** The tree *)
Definition set_scope (s : ScopeId) (sc : ScopeState) (rt : Runtime) : Runtime :=
  {| scopes := <[s := sc]> (scopes rt); arena := arena rt; next_entry_id := next_entry_id rt |}.
Definition is_open (rt : Runtime) (s : ScopeId) : bool :=
  match scopes rt !! s with Some sc => bool_decide (lifecycle sc = Open) | None => false end.
Definition local_entries (rt : Runtime) (s : ScopeId) : gmap CapabilityId CapabilityEntry :=
  match scopes rt !! s with Some sc => entries sc | None => ∅ end.
Definition has_local_entry (rt : Runtime) (s : ScopeId) (id : CapabilityId) : bool :=
  bool_decide (is_Some (local_entries rt s !! id)).
Definition has_local (rt : Runtime) (s : ScopeId) (id : CapabilityId) : bool :=
  has_local_entry rt s id.
Definition parent (s : ScopeId) : option ScopeId :=
  match s with
  | _ :: p => match p with [] => None | _ => Some p end
  | [] => None
  end.

Definition new_scope (l : Lifecycle) : ScopeState :=
  {| entries := ∅; lifecycle := l; children := [] |}.
(** [Scope::root]: [n] is the fresh index of the root. *)
Definition root (rt : Runtime) (n : nat) : Runtime := set_scope [n] (new_scope Open) rt.
(** [Scope::child]: a child of a scope that is not open is created closed. *)
Definition child (rt : Runtime) (s : ScopeId) : Runtime :=
  match scopes rt !! s with
  | None => rt
  | Some sc =>
      let n := length (children sc) in
      set_scope (n :: s) (new_scope (if is_open rt s then Open else Closed))
        (set_scope s {| entries := entries sc; lifecycle := lifecycle sc;
                        children := children sc ++ [n] |} rt)
  end.

(** ** Lookup *)
Fixpoint get (rt : Runtime) (s : ScopeId) (id : CapabilityId) : option CapabilityEntry :=
  match s with
  | [] => None
  | _ :: p =>
      if negb (is_open rt s) then None
      else match local_entries rt s !! id with
      | Some e => Some e
      | None => get rt p id
      end
  end.
Definition get_local (rt : Runtime) (s : ScopeId) (id : CapabilityId) : option CapabilityEntry :=
  if negb (is_open rt s) then None else local_entries rt s !! id.
Definition visible_generation (rt : Runtime) (s : ScopeId) (id : CapabilityId) :
  option Generation := generation <$> get rt s id.

Definition entry_definitions (es : gmap CapabilityId CapabilityEntry) :
  gmap CapabilityId CapabilityDefinition := definition <$> es.
(** The entries of a scope shadow those of its ancestors. *)
Fixpoint visible_definitions (rt : Runtime) (s : ScopeId) :
  gmap CapabilityId CapabilityDefinition :=
  match s with
  | [] => ∅
  | _ :: p =>
      if negb (is_open rt s) then ∅
      else entry_definitions (local_entries rt s) ∪ visible_definitions rt p
  end.
Definition visible_graph (rt : Runtime) (s : ScopeId) : CapabilityGraph :=
  from_definitions (map_values (visible_definitions rt s)).
Definition visible_graph_with_entries (rt : Runtime) (s : ScopeId)
  (es : gmap CapabilityId CapabilityEntry) : CapabilityGraph :=
  from_definitions (map_values (entry_definitions es ∪ visible_definitions rt (tail s))).

Definition validate_definition (rt : Runtime) (s : ScopeId) (d : CapabilityDefinition) :
  result ScopeError ValidatedCapabilityDefinition :=
  if negb (is_open rt s) then Err ScopeClosed
  else map_err ScopeError_from (validate_candidate (visible_graph rt s) d).

(** ** Descendants

    [Weak::upgrade] keeps the children that still exist. *)
Fixpoint live_descendants (fuel : nat) (rt : Runtime) (s : ScopeId) : list ScopeId :=
  match fuel, scopes rt !! s with
  | S fuel, Some sc =>
      n ← filter (fun n => is_Some (scopes rt !! (n :: s))) (children sc);
      (n :: s) :: live_descendants fuel rt (n :: s)
  | _, _ => []
  end.
Fixpoint descendants_child_first (fuel : nat) (rt : Runtime) (s : ScopeId) : list ScopeId :=
  match fuel, scopes rt !! s with
  | S fuel, Some sc =>
      n ← filter (fun n => is_Some (scopes rt !! (n :: s))) (children sc);
      descendants_child_first fuel rt (n :: s) ++ [n :: s]
  | _, _ => []
  end.
(** No path is longer than the number of scopes. *)
Definition tree_fuel (rt : Runtime) : nat := size (dom (scopes rt) : gset ScopeId).

(** [candidate_affects]: the walk from the descendant up to the scope. *)
Fixpoint candidate_affects (rt : Runtime) (s : ScopeId) (current : ScopeId)
  (id : CapabilityId) : bool :=
  if bool_decide (current = s) then true
  else match current with
  | [] => false
  | _ :: p =>
      if negb (is_open rt current) || has_local_entry rt current id then false
      else candidate_affects rt s p id
  end.
Fixpoint validate_descendants (rt : Runtime) (s : ScopeId) (d : CapabilityDefinition)
  (ds : list ScopeId) : result ScopeError unit :=
  match ds with
  | [] => Ok tt
  | x :: ds =>
      if negb (is_open rt x) || negb (candidate_affects rt s x (def_id d))
      then validate_descendants rt s d ds
      else
        _ ← map_err ScopeError_from (validate_candidate (visible_graph rt x) d);
        validate_descendants rt s d ds
  end.
Definition validate_descendant_admission (rt : Runtime) (s : ScopeId)
  (d : CapabilityDefinition) : result ScopeError unit :=
  validate_descendants rt s d (live_descendants (tree_fuel rt) rt s).

(** A scope whose last owner is gone disappears; a scope that still has a
    child is owned by it. *)
Definition drop_scope (rt : Runtime) (s : ScopeId) : Runtime :=
  if bool_decide (set_Exists (fun x => tail x = s) (dom (scopes rt) : gset ScopeId)) then rt
  else {| scopes := delete s (scopes rt); arena := arena rt; next_entry_id := next_entry_id rt |}.

(** ** Publication *)
Inductive PublishExpectation := New | Replace (expected : Generation).

Definition check_expectation_locked (rt : Runtime) (s : ScopeId) (c : CapabilityId)
  (expectation : PublishExpectation) (es : gmap CapabilityId CapabilityEntry) :
  result ScopeError unit :=
  if negb (is_open rt s) then Err ScopeClosed
  else match expectation, es !! c with
  | New, Some e => Err (AlreadyProvided c (generation e))
  | New, None => Ok tt
  | Replace _, None => Err (NoLocalEntry c)
  | Replace expected, Some e =>
      if negb (generation e =? expected)%N
      then Err (ReplacementConflict c expected (generation e)) else Ok tt
  end.

(** [resolve_dependencies]: the visible handle of each dependency. *)
Definition resolve_dependency (rt : Runtime) (s : ScopeId) (c : CapabilityId)
  (handles : gmap CapabilityId CapabilityEntry) (d : CapabilityId) :
  result ScopeError (gmap CapabilityId CapabilityEntry) :=
  h ← ok_or (get rt s d) (MissingDependency c d); Ok (<[d := h]> handles).
Definition resolve_dependencies (rt : Runtime) (s : ScopeId) (d : CapabilityDefinition) :
  result ScopeError (gmap CapabilityId CapabilityEntry) :=
  foldM (resolve_dependency rt s (def_id d)) (set_iter (def_dependencies d)) ∅.

(** The first section of [publish]: admission and the dependency snapshot
    handed to the factory. *)
Definition publish_plan (rt : Runtime) (s : ScopeId) (d : CapabilityDefinition)
  (expectation : PublishExpectation) : result ScopeError (gmap CapabilityId CapabilityEntry) :=
  _ ← check_expectation_locked rt s (def_id d) expectation (local_entries rt s);
  _ ← map_err ScopeError_from (validate_candidate (visible_graph rt s) d);
  resolve_dependencies rt s d.

(** The snapshot still names the visible entries. *)
Definition check_current (expected current : gmap CapabilityId CapabilityEntry)
  (c d : CapabilityId) : result ScopeError unit :=
  ex ← expect (expected !! d) "validated dependency snapshot must contain every requirement";
  cur ← expect (current !! d) "validated current dependencies must contain every requirement";
  if negb (generation cur =? generation ex)%N || negb (entry_id cur =? entry_id ex)%N
  then Err (DependencyChanged c d) else Ok tt.

Definition insert_entry (s : ScopeId) (e : CapabilityEntry) (rt : Runtime) : Runtime :=
  match scopes rt !! s with
  | None => rt
  | Some sc =>
      {| scopes := <[s := {| entries := <[def_id (definition e) := e]> (entries sc);
                             lifecycle := lifecycle sc; children := children sc |}]> (scopes rt);
         arena := <[entry_id e := e]> (arena rt);
         next_entry_id := (entry_id e + 1)%N |}
  end.

(** The second section: every check is made again under the lock. *)
Definition prepare_publication (rt : Runtime) (s : ScopeId) (d : CapabilityDefinition)
  (expectation : PublishExpectation) (snapshot : gmap CapabilityId CapabilityEntry)
  (v : CapabilityValue) : result ScopeError CapabilityEntry :=
  current ← resolve_dependencies rt s d;
  _ ← foldM (fun _ dep => check_current snapshot current (def_id d) dep)
        (set_iter (def_dependencies d)) tt;
  _ ← validate_descendant_admission rt s d;
  let es := local_entries rt s in
  _ ← check_expectation_locked rt s (def_id d) expectation es;
  _ ← map_err ScopeError_from (validate_candidate (visible_graph_with_entries rt s es) d);
  g ← match expectation with
      | New => Ok Generation_FIRST
      | Replace _ =>
          e ← expect (es !! def_id d) "replacement entry was checked above";
          ok_or (Generation_checked_next (generation e)) (GenerationExhausted (def_id d))
      end;
  _ ← expect (checked_succ (next_entry_id rt)) "runtime entry id overflow";
  Ok {| definition := d; value := v; dependencies := entry_id <$> snapshot;
        generation := g; entry_id := next_entry_id rt |}.
Definition publish_preconstructed (rt : Runtime) (s : ScopeId) (d : CapabilityDefinition)
  (expectation : PublishExpectation) (snapshot : gmap CapabilityId CapabilityEntry)
  (v : CapabilityValue) : Runtime * result ScopeError CapabilityEntry :=
  match prepare_publication rt s d expectation snapshot v with
  | Ok e => (insert_entry s e rt, Ok e)
  | Err e => (rt, Err e)
  | Panic p => (rt, Panic p)
  | NoFuel => (rt, NoFuel)
  end.

(** [publish] when nothing else runs between its sections. *)
Definition publish (rt : Runtime) (s : ScopeId) (d : CapabilityDefinition)
  (expectation : PublishExpectation)
  (construct : gmap CapabilityId CapabilityEntry -> string + CapabilityValue) :
  Runtime * result ScopeError CapabilityEntry :=
  match publish_plan rt s d expectation with
  | Ok snapshot =>
      match construct snapshot with
      | inl reason => (rt, Err (ConstructionFailed (def_id d) reason))
      | inr v => publish_preconstructed rt s d expectation snapshot v
      end
  | Err e => (rt, Err e)
  | Panic p => (rt, Panic p)
  | NoFuel => (rt, NoFuel)
  end.
Definition provide rt s d construct := publish rt s d New construct.
Definition replace rt s d expected construct := publish rt s d (Replace expected) construct.

(** [provide_value]: the snapshot is compared dependency by dependency, then
    once more at publication. *)
Definition check_snapshot (rt : Runtime) (s : ScopeId) (d : CapabilityDefinition)
  (snapshot : gmap CapabilityId CapabilityEntry) (dep : CapabilityId) : result ScopeError unit :=
  ex ← expect (snapshot !! dep) "validated dependency snapshot must contain every requirement";
  cur ← ok_or (get rt s dep) (MissingDependency (def_id d) dep);
  if negb (generation cur =? generation ex)%N || negb (entry_id cur =? entry_id ex)%N
  then Err (DependencyChanged (def_id d) dep) else Ok tt.
Definition provide_value (rt : Runtime) (s : ScopeId) (d : CapabilityDefinition)
  (snapshot : gmap CapabilityId CapabilityEntry) (v : CapabilityValue) :
  Runtime * result ScopeError CapabilityEntry :=
  match foldM (fun _ dep => check_snapshot rt s d snapshot dep)
          (set_iter (def_dependencies d)) tt with
  | Ok _ => publish_preconstructed rt s d New snapshot v
  | Err e => (rt, Err e)
  | Panic p => (rt, Panic p)
  | NoFuel => (rt, NoFuel)
  end.

(** ** Withdrawal *)
Definition set_entries (s : ScopeId) (es : gmap CapabilityId CapabilityEntry) (l : Lifecycle)
  (rt : Runtime) : Runtime :=
  match scopes rt !! s with
  | None => rt
  | Some sc => set_scope s {| entries := es; lifecycle := l; children := children sc |} rt
  end.
Definition withdraw (rt : Runtime) (s : ScopeId) (c : CapabilityId) (expected : Generation) :
  Runtime * result ScopeError CapabilityEntry :=
  if negb (is_open rt s) then (rt, Err ScopeClosed)
  else match local_entries rt s !! c with
  | None => (rt, Err (NoLocalEntry c))
  | Some e =>
      if negb (generation e =? expected)%N
      then (rt, Err (ReplacementConflict c expected (generation e)))
      else (set_entries s (delete c (local_entries rt s)) Open rt, Ok e)
  end.
Definition remove_local (rt : Runtime) (s : ScopeId) (c : CapabilityId) (expected : Generation) :
  Runtime * result ScopeError unit :=
  match withdraw rt s c expected with
  | (rt', Ok _) => (rt', Ok tt)
  | (rt', Err e) => (rt', Err e)
  | (rt', Panic p) => (rt', Panic p)
  | (rt', NoFuel) => (rt', NoFuel)
  end.

(** ** Teardown *)

(** [insert_snapshot]: a snapshot definition is added unless its identifier is
    taken, and the handles it pins are followed; the state is the graph and
    the visited entries. *)
Fixpoint insert_snapshot (fuel : nat) (table : gmap EntryId CapabilityEntry) (h : EntryId)
  (st : gmap CapabilityId CapabilityDefinition * gset EntryId) :
  result Empty_set (gmap CapabilityId CapabilityDefinition * gset EntryId) :=
  let '(defs, seen) := st in
  match fuel with
  | O => NoFuel
  | S fuel =>
      if bool_decide (h ∈ seen) then Ok st
      else
        e ← expect (table !! h) "a handle points to its entry";
        let defs := match defs !! handle_id e with
                    | Some _ => defs
                    | None => <[handle_id e := definition e]> defs
                    end in
        foldM (fun st d => insert_snapshot fuel table d st) (map_values (dependencies e))
          (defs, {[h]} ∪ seen)
  end.
(** One nested call per published entry, and one more. *)
Definition snapshot_fuel (table : gmap EntryId CapabilityEntry) : nat :=
  S (size (dom table : gset EntryId)).
Definition runtime_graph (table : gmap EntryId CapabilityEntry)
  (es : gmap CapabilityId CapabilityEntry) : result Empty_set CapabilityGraph :=
  st ← foldM (fun st e =>
         foldM (fun st d => insert_snapshot (snapshot_fuel table) table d st)
           (map_values (dependencies e)) st)
       (map_values es)
       (entry_definitions es, list_to_set (entry_id <$> map_values es));
  Ok {| definitions := st.1 |}.
Definition runtime_teardown_order (table : gmap EntryId CapabilityEntry)
  (es : gmap CapabilityId CapabilityEntry) : result Empty_set (list CapabilityId) :=
  g ← runtime_graph table es;
  match resolve g with
  | Ok r => Ok (teardown_order r)
  | Err _ => Panic "published capability topology must remain valid during teardown"
  | Panic p => Panic p
  | NoFuel => NoFuel
  end.

Record TeardownPlan := {
  plan_entries : gmap CapabilityId CapabilityEntry;
  plan_order : list CapabilityId
}.
(** The loop over the scopes: those still open are emptied and closed. *)
Fixpoint teardown_scopes (rt : Runtime) (ss : list ScopeId) (plans : list TeardownPlan) :
  Runtime * result Empty_set (list TeardownPlan) :=
  match ss with
  | [] => (rt, Ok plans)
  | s :: ss =>
      if negb (is_open rt s) then teardown_scopes rt ss plans
      else
        let es := local_entries rt s in
        match runtime_teardown_order (arena rt) es with
        | Ok order =>
            teardown_scopes (set_entries s ∅ Closed rt) ss
              (plans ++ [{| plan_entries := es; plan_order := order |}])
        | Err e => match e with end
        | Panic p => (set_entries s ∅ Closing rt, Panic p)
        | NoFuel => (set_entries s ∅ Closing rt, NoFuel)
        end
  end.
(** [drop_teardown_plans]: the entries in the order their ownership is released. *)
Definition release_order (plan : TeardownPlan) : list CapabilityEntry :=
  omap (fun id => plan_entries plan !! id) (plan_order plan)
  ++ map_values (filter (fun kv => kv.1 ∉ plan_order plan) (plan_entries plan)).
Definition teardown (rt : Runtime) (s : ScopeId) :
  Runtime * result Empty_set (list CapabilityEntry) :=
  let '(rt', r) := teardown_scopes rt (descendants_child_first (tree_fuel rt) rt s ++ [s]) [] in
  (rt', plans ← r; Ok (plans ≫= release_order)).
