(* ===== verification/ScopeFacts.v ===== *)
(** * Facts about scopes: the tree, publication, admission, teardown *)
From S2P Require Export Scope.
#[local] Open Scope string_scope.
#[local] Open Scope nat_scope.
#[local] Open Scope list_scope.

(** ** The tree *)
Record scope_inv (rt : Runtime) : Prop := {
  si_arena k e : arena rt !! k = Some e -> entry_id e = k /\ (k < next_entry_id rt)%N;
  si_local s c e : local_entries rt s !! c = Some e ->
    def_id (definition e) = c /\ arena rt !! entry_id e = Some e;
  si_pins k e c h : arena rt !! k = Some e -> dependencies e !! c = Some h ->
    exists e', arena rt !! h = Some e' /\ handle_id e' = c /\ (h < k)%N;
  si_pins_dom k e : arena rt !! k = Some e ->
    dom (dependencies e) = def_dependencies (definition e);
  si_once s c s' c' e : local_entries rt s !! c = Some e -> local_entries rt s' !! c' = Some e ->
    s = s' /\ c = c';
  si_tree n p : is_Some (scopes rt !! (n :: p)) -> p <> [] ->
    exists sc, scopes rt !! p = Some sc /\ n ∈ children sc;
  si_children p sc : scopes rt !! p = Some sc -> children sc = seq 0 (length (children sc));
  si_nil : scopes rt !! [] = None;
  si_closed s : is_open rt s = false -> local_entries rt s = ∅;
  si_open n p : is_open rt (n :: p) = true -> p <> [] -> is_open rt p = true
}.

Lemma si_children_lt rt p sc n :
  scope_inv rt -> scopes rt !! p = Some sc -> n ∈ children sc -> n < length (children sc).
Proof. intros I Hsc. rewrite (si_children _ I p sc Hsc) at 1. rewrite elem_of_seq. lia. Qed.
Lemma visible_keyed rt s : scope_inv rt -> keyed (visible_definitions rt s).
Proof.
  intros I. induction s as [|n p IH]; [by intros k d|]. cbn.
  destruct (is_open rt (n :: p)); [|by intros k d]. cbn.
  intros k d [Hd|[_ Hd]]%lookup_union_Some_raw; [|by apply IH].
  unfold entry_definitions in Hd. rewrite lookup_fmap in Hd.
  destruct (local_entries rt (n :: p) !! k) as [e|] eqn:E; [|done]. injection Hd as <-.
  by apply (si_local _ I) in E as [? _].
Qed.
Lemma definitions_visible_graph rt s :
  scope_inv rt -> definitions (visible_graph rt s) = visible_definitions rt s.
Proof. intros I. by apply definitions_from_values, visible_keyed. Qed.
Lemma definitions_visible_graph_with rt s :
  scope_inv rt -> is_open rt s = true ->
  definitions (visible_graph_with_entries rt s (local_entries rt s)) = visible_definitions rt s.
Proof.
  intros I Ho. destruct s as [|n p].
  { unfold is_open in Ho. by rewrite (si_nil _ I) in Ho. }
  assert (Heq : entry_definitions (local_entries rt (n :: p)) ∪ visible_definitions rt (tail (n :: p))
    = visible_definitions rt (n :: p)) by (cbn; by rewrite Ho).
  unfold visible_graph_with_entries. rewrite Heq. by apply definitions_from_values, visible_keyed.
Qed.

(** A visible definition is that of the visible entry. *)
Lemma visible_definitions_get rt s k : visible_definitions rt s !! k = definition <$> get rt s k.
Proof.
  induction s as [|n p IH]; [done|]. cbn. destruct (is_open rt (n :: p)); [|done]. cbn.
  unfold entry_definitions. destruct (local_entries rt (n :: p) !! k) as [e|] eqn:E.
  - apply lookup_union_Some_l. by rewrite lookup_fmap, E.
  - rewrite lookup_union_r; [done|]. by rewrite lookup_fmap, E.
Qed.

(** The live scopes below a scope. *)
Lemma suffixes_size rt s :
  scope_inv rt -> is_Some (scopes rt !! s) -> length s <= tree_fuel rt.
Proof.
  intros I Hs.
  assert (Hsub : forall p, p <> [] -> p `suffix_of` s -> is_Some (scopes rt !! p)).
  { intros p Hp [k ->]. induction k as [|n k IH]; [done|]. apply IH.
    destruct (si_tree _ I n (k ++ p)) as (sc & Hsc & _); [done| |by exists sc].
    by destruct k. }
  set (paths := (fun i => drop i s) <$> seq 0 (length s)).
  assert (Hnd : NoDup paths).
  { apply NoDup_fmap_2_strong; [|apply NoDup_seq]. intros i j Hi Hj Heq.
    apply elem_of_seq in Hi, Hj. apply (f_equal length) in Heq. rewrite !length_drop in Heq. lia. }
  replace (length s) with (length paths) by (unfold paths; by rewrite length_fmap, length_seq).
  unfold tree_fuel. rewrite <- (size_list_to_set (C := gset ScopeId) _ Hnd).
  apply subseteq_size. intros p Hp. apply elem_of_list_to_set in Hp.
  apply list_elem_of_fmap in Hp as (i & -> & Hi). apply elem_of_seq in Hi.
  apply elem_of_dom, Hsub.
  - intros Hnil. apply (f_equal length) in Hnil. rewrite length_drop in Hnil. simpl in Hnil. lia.
  - exists (take i s). by rewrite take_drop.
Qed.
Lemma elem_of_live_descendants fuel rt s x :
  scope_inv rt -> is_Some (scopes rt !! s) -> length x <= fuel + length s ->
  x ∈ live_descendants fuel rt s <->
  is_Some (scopes rt !! x) /\ exists l, l <> [] /\ x = l ++ s.
Proof.
  intros I. revert s. induction fuel as [|fuel IH]; intros s [sc Hsc] Hlen.
  - simpl. split; [by intros ?%elem_of_nil|]. intros (_ & l & Hl & ->).
    rewrite length_app in Hlen. destruct l; [done|simpl in Hlen; lia].
  - cbn [live_descendants]. rewrite Hsc, list_elem_of_bind. split.
    + intros (n & Hx & [Hn Hin]%list_elem_of_filter).
      apply elem_of_cons in Hx as [->|Hx]; [split; [done|by exists [n]]|].
      assert (Hfuel : length x <= fuel + length (n :: s)) by (simpl; lia).
      apply (IH (n :: s) Hn Hfuel) in Hx as (Hx & l & Hl & ->).
      split; [done|]. exists (l ++ [n]). rewrite <- (assoc_L (++)). split; [by destruct l|done].
    + intros (Hx & l & Hl & ->). destruct l as [|n l _] using rev_ind; [done|].
      rewrite <- (assoc_L (++)) in *. simpl in *.
      assert (Hns : is_Some (scopes rt !! (n :: s))).
      { clear -I Hx. induction l as [|m l IH]; [done|]. simpl in Hx.
        destruct (si_tree _ I m (l ++ n :: s) Hx) as (sc & Hsc & _); [by destruct l|].
        apply IH. by exists sc. }
      exists n. split.
      * destruct l as [|m l]; [by left|]. right. apply IH; [done| |].
        -- rewrite !length_app in *. simpl in *. lia.
        -- split; [done|]. exists (m :: l). done.
      * apply list_elem_of_filter. split; [done|].
        assert (Hne : s <> []) by (intros ->; by rewrite (si_nil _ I) in Hsc).
        destruct (si_tree _ I n s Hns Hne) as (sc' & Hsc' & Hin). congruence.
Qed.

(** ** Dependency snapshots *)
Definition snapshot_ok (rt : Runtime) (d : CapabilityDefinition)
  (snap : gmap CapabilityId CapabilityEntry) : Prop :=
  dom snap = def_dependencies d /\
  forall c h, snap !! c = Some h -> handle_id h = c /\ arena rt !! entry_id h = Some h.

Lemma get_local_entry rt s c h :
  get rt s c = Some h -> exists p, local_entries rt p !! c = Some h.
Proof.
  induction s as [|n p IH]; [done|]. cbn. destruct (is_open rt (n :: p)); [|done]. cbn.
  destruct (local_entries rt (n :: p) !! c) eqn:E; [|done]. intros [= <-]. by exists (n :: p).
Qed.
Lemma get_arena rt s c h :
  scope_inv rt -> get rt s c = Some h -> handle_id h = c /\ arena rt !! entry_id h = Some h.
Proof. intros I [p Hp]%get_local_entry. by apply (si_local _ I) in Hp. Qed.

(** The handles of a definition's dependencies, whatever the lookup. *)
Definition lookup_dependency (look : CapabilityId -> option CapabilityEntry) (id : CapabilityId)
  (handles : gmap CapabilityId CapabilityEntry) (c : CapabilityId) :
  result ScopeError (gmap CapabilityId CapabilityEntry) :=
  h ← ok_or (look c) (MissingDependency id c); Ok (<[c := h]> handles).
Lemma snapshot_spec (look : CapabilityId -> option CapabilityEntry) d :
  match foldM (lookup_dependency look (def_id d)) (set_iter (def_dependencies d)) ∅ with
  | Ok snap => dom snap = def_dependencies d /\
      forall c h, snap !! c = Some h <-> c ∈ def_dependencies d /\ look c = Some h
  | Err e => exists c, e = MissingDependency (def_id d) c /\ c ∈ def_dependencies d /\
      look c = None
  | _ => False
  end.
Proof.
  set (f := lookup_dependency look (def_id d)).
  assert (Hl : forall l m, (forall c, c ∈ l -> c ∈ def_dependencies d) ->
    match foldM f l m with
    | Ok snap => (forall c, c ∈ l -> is_Some (look c)) /\
        forall c h, snap !! c = Some h <->
          (c ∈ l /\ look c = Some h) \/ ((c ∉ l) /\ m !! c = Some h)
    | Err e => exists c, e = MissingDependency (def_id d) c /\ c ∈ def_dependencies d /\
        look c = None
    | _ => False
    end).
  { induction l as [|c l IH]; intros m Hdeps; cbn [foldM].
    { split; [by intros c ?%elem_of_nil|]. intros c h.
      split; [intros Hm; right; split; [apply not_elem_of_nil|done]|].
      intros [[?%elem_of_nil _]|[_ Hm]]; done. }
    assert (f m c =
      (h ← ok_or (look c) (MissingDependency (def_id d) c); Ok (<[c := h]> m))) as -> by done.
    destruct (look c) as [h0|] eqn:Eg; cbn [ok_or mbind result_bind].
    - specialize (IH (<[c := h0]> m)). specialize (IH ltac:(intros x Hx; apply Hdeps; by right)).
      destruct (foldM f l (<[c := h0]> m)) as [snap|e| |];
        try done. destruct IH as [Hs Hl]. split.
      + intros x [->|Hx]%elem_of_cons; [by exists h0|auto].
      + intros x h. rewrite Hl, elem_of_cons, lookup_insert_Some.
        destruct (decide (x = c)) as [->|Hne]; [|naive_solver].
        destruct (decide (c ∈ l)); naive_solver.
    - exists c. split_and!; [done|apply Hdeps; by left|done]. }
  pose proof (Hl (set_iter (def_dependencies d)) ∅
    (fun c => proj1 (elem_of_set_iter (def_dependencies d) c))) as Hsp.
  destruct (foldM _ _ _) as [snap|e| |]; try done. destruct Hsp as [Hall Hsnap].
  assert (Hiff : forall c h, snap !! c = Some h <-> c ∈ def_dependencies d /\ look c = Some h).
  { intros c h. rewrite Hsnap, elem_of_set_iter, lookup_empty. naive_solver. }
  split; [|done]. apply set_eq. intros c. rewrite elem_of_dom. split.
  - intros [h Hh]. by destruct (proj1 (Hiff _ _) Hh).
  - intros Hc. destruct (Hall c) as [h Hh]; [by apply elem_of_set_iter|].
    exists h. by apply Hiff.
Qed.
Lemma resolve_dependencies_spec rt s d :
  match resolve_dependencies rt s d with
  | Ok snap => dom snap = def_dependencies d /\
      forall c h, snap !! c = Some h <-> c ∈ def_dependencies d /\ get rt s c = Some h
  | Err e => exists c, e = MissingDependency (def_id d) c /\ c ∈ def_dependencies d /\
      get rt s c = None
  | _ => False
  end.
Proof. exact (snapshot_spec (get rt s) d). Qed.
Lemma resolve_dependencies_ok rt s d snap :
  scope_inv rt -> resolve_dependencies rt s d = Ok snap -> snapshot_ok rt d snap.
Proof.
  intros I Hr. pose proof (resolve_dependencies_spec rt s d) as Hs. rewrite Hr in Hs.
  destruct Hs as [Hd Hs]. split; [done|]. intros c h [_ Hh]%Hs. by eapply get_arena.
Qed.

Lemma check_current_Ok ex cur c d :
  check_current ex cur c d = Ok tt <->
  exists h h', ex !! d = Some h /\ cur !! d = Some h' /\ generation h' = generation h /\
    entry_id h' = entry_id h.
Proof.
  unfold check_current. split.
  - destruct (ex !! d) as [h|]; [|done]. destruct (cur !! d) as [h'|]; [|done]. cbn.
    destruct (N.eqb_spec (generation h') (generation h)); [|done].
    destruct (N.eqb_spec (entry_id h') (entry_id h)); [|done]. intros _. by exists h, h'.
  - intros (h & h' & Hh & Hh' & Hg & Hi). rewrite Hh, Hh'. cbn. by rewrite Hg, Hi, !N.eqb_refl.
Qed.
Lemma foldM_checks {A E} (f : A -> result E unit) l :
  foldM (fun _ a => f a) l tt = Ok tt <-> forall a, a ∈ l -> f a = Ok tt.
Proof.
  induction l as [|a l IH]; cbn [foldM].
  { split; [intros _ a Ha; by apply elem_of_nil in Ha|done]. }
  rewrite bind_Ok. split.
  - intros ([] & Ha & Hl) x [->|Hx]%elem_of_cons; [done|by apply IH].
  - intros Hall. exists tt. split; [apply Hall; left|]. apply IH. intros x Hx. apply Hall. by right.
Qed.

Lemma check_expectation_Ok rt s c x es :
  check_expectation_locked rt s c x es = Ok tt <->
  is_open rt s = true /\
  match x with
  | New => es !! c = None
  | Replace g => exists e, es !! c = Some e /\ generation e = g
  end.
Proof.
  unfold check_expectation_locked. destruct (is_open rt s); cbn; [|naive_solver].
  destruct x as [|g]; destruct (es !! c) as [e|]; try naive_solver.
  destruct (N.eqb_spec (generation e) g); cbn; naive_solver.
Qed.

Lemma not_in_domain {A} (m : gmap CapabilityId A) (X : gset CapabilityId) c :
  dom m = X -> c ∉ X -> m !! c = None.
Proof. intros <-. by rewrite not_elem_of_dom. Qed.

(** The generation a publication assigns. *)
Definition next_generation (x : PublishExpectation) : Generation :=
  match x with New => Generation_FIRST | Replace g => (g + 1)%N end.

(** What the checks let pass is what is visible now. *)
Lemma current_snapshot rt s d snap cur : scope_inv rt -> snapshot_ok rt d snap -> resolve_dependencies rt s d = Ok cur ->
  foldM (fun _ dep => check_current snap cur (def_id d) dep) (set_iter (def_dependencies d)) tt = Ok tt -> cur = snap.
Proof.
  intros I [Hdom Hsnap] Hcur Hchk. pose proof (resolve_dependencies_spec rt s d) as Hs. rewrite Hcur in Hs.
  destruct Hs as [Hcd Hs]. pose proof (proj1 (foldM_checks _ _) Hchk) as Hall.
  apply map_eq. intros c. destruct (decide (c ∈ def_dependencies d)) as [Hc|Hc].
  - specialize (Hall c (proj2 (elem_of_set_iter _ _) Hc)).
    apply check_current_Ok in Hall as (h & h' & Hh & Hh' & _ & Hid).
    apply Hsnap in Hh as Hha. pose proof (proj1 (Hs _ _) Hh') as [_ Hget].
    apply get_arena in Hget as [_ Hha']; [|done]. destruct Hha as [_ Hha].
    rewrite Hid in Hha'. congruence.
  - by rewrite (not_in_domain cur _ c Hcd Hc), (not_in_domain snap _ c Hdom Hc).
Qed.
Lemma prepare_publication_Ok rt s d x snap v e :
  scope_inv rt -> snapshot_ok rt d snap ->
  prepare_publication rt s d x snap v = Ok e <->
  resolve_dependencies rt s d = Ok snap /\
  validate_descendant_admission rt s d = Ok tt /\
  is_open rt s = true /\
  match x with
  | New => local_entries rt s !! def_id d = None
  | Replace g => (g < u64_max)%N /\
      exists e0, local_entries rt s !! def_id d = Some e0 /\ generation e0 = g
  end /\
  is_Ok (resolve (graph_insert (visible_graph_with_entries rt s (local_entries rt s)) d).1) /\
  (next_entry_id rt < u64_max)%N /\
  e = {| definition := d; value := v; dependencies := entry_id <$> snap;
         generation := next_generation x; entry_id := next_entry_id rt |}.
Proof.
  intros I [Hdom Hsnap]. unfold prepare_publication. split.
  - intros (cur & Hcur & Hrest)%bind_Ok. apply bind_Ok in Hrest as ([] & Hchk & Hrest).
    apply bind_Ok in Hrest as ([] & Hdesc & Hrest). cbv zeta in Hrest.
    apply bind_Ok in Hrest as ([] & Hexp & Hrest). apply check_expectation_Ok in Hexp as [Ho Hx].
    apply bind_Ok in Hrest as (val & Hval & Hrest).
    apply bind_Ok in Hrest as (g & Hg & Hrest). apply bind_Ok in Hrest as (nx & Hnx & [= <-]).
    assert (cur = snap) as -> by (by eapply current_snapshot).
    assert (Hnx' : (next_entry_id rt < u64_max)%N).
    { destruct (checked_succ (next_entry_id rt)) as [n|] eqn:E; [|done].
      by apply checked_succ_Some in E as [? _]. }
    assert (Hv : is_Ok (resolve (graph_insert
      (visible_graph_with_entries rt s (local_entries rt s)) d).1)).
    { unfold validate_candidate in Hval. destruct (resolve _) as [r| | |]; try done. by exists r. }
    destruct x as [|g0].
    + injection Hg as <-. by split_and!.
    + destruct Hx as (e0 & He0 & Hg0). rewrite He0 in Hg. cbn in Hg.
      apply ok_or_Ok, checked_succ_Some in Hg as [Hlt ->]. rewrite Hg0 in Hlt |- *.
      split_and!; try done. by exists e0.
  - intros (Hcur & Hdesc & Ho & Hx & [r Hr] & Hnx & ->). rewrite Hcur. cbn [mbind result_bind].
    pose proof (resolve_dependencies_spec rt s d) as Hs. rewrite Hcur in Hs. destruct Hs as [_ Hs].
    rewrite (proj2 (foldM_checks _ _)).
    2:{ intros c Hc%elem_of_set_iter. apply check_current_Ok.
        rewrite <- Hdom, elem_of_dom in Hc. destruct Hc as [h Hh]. by exists h, h. }
    cbn [mbind result_bind]. rewrite Hdesc. cbn [mbind result_bind]. cbv zeta.
    rewrite (proj2 (check_expectation_Ok _ _ _ _ _)).
    2:{ split; [done|]. destruct x; [done|]. by destruct Hx. }
    cbn [mbind result_bind]. unfold validate_candidate. rewrite Hr. cbn [mbind result_bind map_err].
    unfold Generation_checked_next.
    pose proof (proj2 (checked_succ_Some (next_entry_id rt) _) (conj Hnx eq_refl)) as Hnext.
    destruct x as [|g]; [cbn [mbind result_bind]; by rewrite Hnext|].
    destruct Hx as (Hlt & e0 & -> & <-).
    pose proof (proj2 (checked_succ_Some (generation e0) _) (conj Hlt eq_refl)) as Hgen.
    cbn [expect mbind result_bind ok_or]. rewrite Hgen. cbn [ok_or mbind result_bind].
    by rewrite Hnext.
Qed.
