(* ===== verification/Ownership.v ===== *)
(** * Identities and the lifetime of values:
    [crates/capability-graph/src/runtime.rs]

    [Scope] takes the counter of entry identities as one number that a
    publication advances, and a value as a name.  Here is what both rest on: the
    compare-and-swap loop that reserves an identity, run by any number of threads
    at once, and the reference counts that decide when a value is disposed of. *)
From S2P Require Export ScopeFacts.
#[local] Open Scope string_scope.
#[local] Open Scope nat_scope.
#[local] Open Scope list_scope.

(** ** Reserving an identity

    [allocate_monotonic] cut at its accesses to the counter.  Its orderings are
    relaxed: a load, and the value that a failed exchange reports, may be any
    value the counter has had; only an exchange that succeeds reads the last one.
    [reads] is what such an access returns, and [fails] tells that the weak
    exchange fails spuriously. *)
Inductive allocation :=
  | Loads
  | Exchanges (current : N)
  | Reserved (id : N)
  | Overflows.
#[export] Instance allocation_eq_dec : EqDecision allocation.
Proof. solve_decision. Defined.
Definition allocate_monotonic (reads : N) (fails : bool) (counter : N) (p : allocation) : N * allocation :=
  match p with
  | Loads => (counter, Exchanges reads)
  | Exchanges current =>
      match checked_succ current with
      | None => (counter, Overflows)
      | Some next =>
          if bool_decide (counter = current) && negb fails then (next, Reserved current)
          else (counter, Exchanges reads)
      end
  | Reserved _ | Overflows => (counter, p)
  end.
(** What the two callers make of it; [None]: the loop still runs. *)
Definition allocate_entry_id (p : allocation) : option (result Empty_set EntryId) :=
  match p with
  | Reserved id => Some (Ok id)
  | Overflows => Some (Panic "runtime entry id overflow")
  | Loads | Exchanges _ => None
  end.
(** A counter that starts at [first], and the calls made so far. *)
Record counter := { count : N; calls : gmap N allocation }.
Definition counter_start (first : N) : counter := {| count := first; calls := ∅ |}.
Definition allocates (t : N) (c : counter) : counter := {| count := count c; calls := <[t := Loads]> (calls c) |}.
Definition allocation_moves (t reads : N) (fails : bool) (p : allocation) (c : counter) : counter :=
  let q := allocate_monotonic reads fails (count c) p in {| count := q.1; calls := <[t := q.2]> (calls c) |}.
Inductive counter_step (first : N) : relation counter :=
  | step_allocates t c : calls c !! t = None -> counter_step first c (allocates t c)
  | step_moves t reads fails p c : calls c !! t = Some p -> (first <= reads <= count c)%N ->
      counter_step first c (allocation_moves t reads fails p c).

(** ** Values and their owners

    [CapabilityValue]: a value and its cleanup callback, which is there or not.
    [Drop] is followed by the drop of the fields. *)
Record OwnedValue := { payload : option CapabilityValue; cleanup : bool }.
Definition from_value (x : CapabilityValue) : OwnedValue := {| payload := Some x; cleanup := false |}.
Definition OwnedValue_new (x : CapabilityValue) : OwnedValue := {| payload := Some x; cleanup := true |}.
Definition downcast_ref {T} (cast : CapabilityValue -> option T) (v : OwnedValue) : option T := payload v ≫= cast.
Definition OwnedValue_drop (v : OwnedValue) : OwnedValue * option CapabilityValue :=
  if cleanup v then ({| payload := None; cleanup := false |}, payload v) else (v, None).
Inductive disposal :=
  | CleanedUp (x : CapabilityValue)
  | JustDropped (x : CapabilityValue).
#[export] Instance disposal_eq_dec : EqDecision disposal.
Proof. unfold EqDecision, CapabilityValue. solve_decision. Defined.
Definition drop_value (v : OwnedValue) : list disposal :=
  let p := OwnedValue_drop v in option_list (CleanedUp <$> p.2) ++ option_list (JustDropped <$> payload p.1).

(** [InstanceSlot]: a handle names its slot by the position of the slot among all
    slots ever made.  A freed slot is kept, for the statements only. *)
Abbreviation InstanceId := nat.
Record InstanceSlot := { slot_value : OwnedValue; slot_dependencies : gmap CapabilityId InstanceId }.
Inductive instance :=
  | Shared (strong : nat) (s : InstanceSlot)
  | Dropping (s : InstanceSlot)
  | Freed (s : InstanceSlot).
Definition instance_slot (i : instance) : InstanceSlot :=
  match i with Shared _ s | Dropping s | Freed s => s end.
(** [ResolvedDependencies::iter]: in the order of the identifiers. *)
Definition dependency_handles (i : instance) : list InstanceId := map_values (slot_dependencies (instance_slot i)).
Abbreviation instances := (list instance).

(** [Arc::clone]; a handle to a slot that is gone would be a use after free. *)
Definition clone_handle (h : instances) (i : InstanceId) : result Empty_set instances :=
  match h !! i with
  | Some (Shared n s) => Ok (<[i := Shared (S n) s]> h)
  | _ => Panic "use after free"
  end.
(** The drop of a handle: the last one destroys the slot. *)
Inductive drop_work :=
  | DropHandle (i : InstanceId)
  | DropSlot (i : InstanceId).
#[export] Instance drop_work_eq_dec : EqDecision drop_work.
Proof. solve_decision. Defined.
Definition drop_strong (h : instances) (i : InstanceId) : result Empty_set (instances * list drop_work) :=
  match h !! i with
  | Some (Shared 1 s) => Ok (<[i := Dropping s]> h, [DropSlot i])
  | Some (Shared (S n) s) => Ok (<[i := Shared n s]> h, [])
  | _ => Panic "use after free"
  end.
(** The destruction of a slot: its value, then its dependencies. *)
Definition destroy_slot (h : instances) (i : InstanceId) :
  result Empty_set (instances * list disposal * list drop_work) :=
  match h !! i with
  | Some (Dropping s) => Ok (<[i := Freed s]> h, drop_value (slot_value s), DropHandle <$> map_values (slot_dependencies s))
  | _ => Panic "use after free"
  end.

(** The handles held by scopes, readers, fibers and plans; what each thread has
    still to drop; and the disposals so far. *)
Record ownership := {
  slots : instances;
  held : list InstanceId;
  drops : list (list drop_work);
  disposals : list (InstanceId * disposal)
}.
Definition ownership_start (threads : nat) : ownership :=
  {| slots := []; held := []; drops := replicate threads []; disposals := [] |}.
(** [Arc::new(InstanceSlot { value, dependencies: dependencies.clone() })] in
    [publish_preconstructed]. *)
Definition new_slot (v : OwnedValue) (ds : gmap CapabilityId InstanceId) (o : ownership) : result Empty_set ownership :=
  h ← foldM clone_handle (map_values ds) (slots o);
  Ok {| slots := h ++ [Shared 1 {| slot_value := v; slot_dependencies := ds |}]; held := length h :: held o;
        drops := drops o; disposals := disposals o |}.
(** [CapabilityEntry::handle] and the derived [Clone] of a handle. *)
Definition share_handle (i : InstanceId) (o : ownership) : result Empty_set ownership :=
  h ← clone_handle (slots o) i;
  Ok {| slots := h; held := i :: held o; drops := drops o; disposals := disposals o |}.
(** A holder lets go of the handle at position [k]: thread [t] has to drop it,
    before [work], what it was dropping already. *)
Definition drop_handle (t : nat) (work : list drop_work) (k : nat) (i : InstanceId) (o : ownership) : ownership :=
  {| slots := slots o; held := delete k (held o); drops := <[t := DropHandle i :: work]> (drops o);
     disposals := disposals o |}.
Definition drop_works (t : nat) (w : drop_work) (rest : list drop_work) (o : ownership) : result Empty_set ownership :=
  match w with
  | DropHandle i =>
      p ← drop_strong (slots o) i;
      Ok {| slots := p.1; held := held o; drops := <[t := p.2 ++ rest]> (drops o); disposals := disposals o |}
  | DropSlot i =>
      p ← destroy_slot (slots o) i;
      Ok {| slots := p.1.1; held := held o; drops := <[t := p.2 ++ rest]> (drops o);
            disposals := disposals o ++ (pair i <$> p.1.2) |}
  end.
Inductive ownership_step : relation ownership :=
  | step_new x (c : bool) ds o o' : Forall (.∈ held o) (map_values ds) ->
      new_slot (if c then OwnedValue_new x else from_value x) ds o = Ok o' -> ownership_step o o'
  | step_share i o o' : i ∈ held o -> share_handle i o = Ok o' -> ownership_step o o'
  | step_drop t work k i o : held o !! k = Some i -> drops o !! t = Some work ->
      ownership_step o (drop_handle t work k i o)
  | step_works t w rest o o' : drops o !! t = Some (w :: rest) -> drop_works t w rest o = Ok o' -> ownership_step o o'.
(** Thread [t] drops until it has nothing left to drop. *)
Fixpoint run_drops (fuel t : nat) (o : ownership) : result Empty_set ownership :=
  match drops o !! t with
  | Some (w :: rest) =>
      match fuel with
      | 0 => NoFuel
      | S fuel => o ← drop_works t w rest o; run_drops fuel t o
      end
  | _ => Ok o
  end.
(** A bound on the steps that are left to any thread. *)
Definition slot_weight (i : instance) : nat :=
  match i with Shared _ _ => length (dependency_handles i) + 2 | Dropping _ => length (dependency_handles i) + 1 | Freed _ => 0 end.
Definition drop_fuel (o : ownership) : nat := sum_list_with slot_weight (slots o) + sum_list_with length (drops o).
Definition disposals_of (i : InstanceId) (o : ownership) : list disposal :=
  (filter (fun d => d.1 = i) (disposals o)).*2.

(** ** Lemmas on the counter *)
Lemma allocate_monotonic_cases reads fails n p q :
  allocate_monotonic reads fails n p = q ->
  q = (n, p) \/
  q.1 = n /\ (forall id, p <> Reserved id) /\
    (q.2 = Exchanges reads \/ q.2 = Overflows /\ exists m, p = Exchanges m /\ checked_succ m = None) \/
  p = Exchanges n /\ checked_succ n = Some q.1 /\ q.2 = Reserved n.
Proof.
  intros <-. destruct p as [|m|id|]; cbn; [by right; left; auto| |by left; auto..].
  destruct (checked_succ m) as [k|] eqn:E; cbn; [|right; left; split_and!; try done; eauto].
  case_bool_decide as Hm; [subst m|by right; left; auto]. destruct fails; cbn; [by right; left; auto|by right; right].
Qed.
Definition counter_ok (first : N) (c : counter) : Prop :=
  (first <= count c <= u64_max)%N /\
  (forall t n, calls c !! t = Some (Exchanges n) -> (first <= n <= count c)%N) /\
  (forall id, (first <= id < count c)%N <-> exists t, calls c !! t = Some (Reserved id)) /\
  (forall t u id, calls c !! t = Some (Reserved id) -> calls c !! u = Some (Reserved id) -> t = u) /\
  (forall t, calls c !! t = Some Overflows -> count c = u64_max).
(** A call that moves without reserving anything. *)
Lemma counter_ok_moves first c t q : counter_ok first c ->
  (forall id, calls c !! t <> Some (Reserved id)) -> (forall id, q <> Reserved id) ->
  (forall n, q = Exchanges n -> (first <= n <= count c)%N) -> (q = Overflows -> count c = u64_max) ->
  counter_ok first {| count := count c; calls := <[t := q]> (calls c) |}.
Proof.
  intros (Hc & He & Hs & Hi & Ho) Hpn Hqn Hq Hqo.
  assert (Hres : forall u id, <[t := q]> (calls c) !! u = Some (Reserved id) <-> calls c !! u = Some (Reserved id)).
  { intros u id. destruct (decide (u = t)) as [->|]; [|by rewrite lookup_insert_ne].
    rewrite lookup_insert_eq. split; [intros [= ->]; by destruct (Hqn id)|intros Hr; by destruct (Hpn id)]. }
  unfold counter_ok. cbn. split_and!; try lia.
  - intros u n. rewrite lookup_insert_Some. naive_solver.
  - intros id. rewrite Hs. by setoid_rewrite Hres.
  - intros u v id. rewrite !Hres. apply Hi.
  - intros u. rewrite lookup_insert_Some. naive_solver.
Qed.
Lemma counter_step_ok first c c' : counter_ok first c -> counter_step first c c' -> counter_ok first c'.
Proof.
  intros Hok Hst. destruct Hst as [t c Ht|t reads fails p c Ht Hr].
  { apply counter_ok_moves; [done|by rewrite Ht|done..]. }
  pose proof Hok as (Hc & He & Hs & Hi & Ho). unfold allocation_moves. cbv zeta.
  generalize (allocate_monotonic_cases reads fails (count c) p _ eq_refl).
  generalize (allocate_monotonic reads fails (count c) p) as q.
  intros [n q] [[= -> ->]|[(-> & Hp & Hq)|(-> & Hn & ->)]]; cbn in *.
  - rewrite insert_id by done. by destruct c.
  - destruct Hq as [->|[-> (m & -> & Hm)]];
      (apply counter_ok_moves; [done|naive_solver|naive_solver|naive_solver|]); [done|].
    intros _. specialize (He t m Ht). unfold checked_succ in Hm. case_match; [done|]. lia.
  - unfold checked_succ in Hn. case_match; [|done]. injection Hn as <-. unfold counter_ok. cbn. split_and!; try lia.
    + intros u n. rewrite lookup_insert_Some. intros [[_ [=]]|[_ Hu]]. specialize (He u n Hu). lia.
    + intros id. split.
      * intros Hid. destruct (decide (id = count c)) as [->|Hne]; [exists t; by rewrite lookup_insert_eq|].
        destruct (proj1 (Hs id)) as [u Hu]; [lia|]. exists u. rewrite lookup_insert_ne; [done|congruence].
      * intros [u Hu]. rewrite lookup_insert_Some in Hu. destruct Hu as [[_ [= <-]]|[_ Hu]]; [lia|].
        assert (first <= id < count c)%N by (apply Hs; eauto). lia.
    + assert (Hfresh : forall v, calls c !! v = Some (Reserved (count c)) -> False).
      { intros v Hv. assert (first <= count c < count c)%N by (apply Hs; eauto). lia. }
      intros u v id. rewrite !lookup_insert_Some.
      intros [[<- Hu]|[_ Hu]] [[<- Hv]|[_ Hv]]; simplify_eq; [done|by destruct (Hfresh v)|by destruct (Hfresh u)|by eapply Hi].
    + intros u. rewrite lookup_insert_Some. intros [[_ [=]]|[_ Hu]]. specialize (Ho u Hu). lia.
Qed.
(** A call that runs alone returns after at most two of its steps. *)
Definition allocate_alone (n : N) (p : allocation) : N * allocation :=
  Nat.iter 2 (fun s => allocate_monotonic s.1 false s.1 s.2) (n, p).
Lemma allocate_alone_returns n p : is_Some (allocate_entry_id (allocate_alone n p).2).
Proof.
  assert (Hn : forall m, is_Some (allocate_entry_id (allocate_monotonic m false m (Exchanges m)).2)).
  { intros m. cbn. destruct (checked_succ m); [|by eexists]. by rewrite bool_decide_true. }
  destruct p as [|m|id|]; cbn -[checked_succ]; [apply Hn| |by eexists..].
  destruct (checked_succ m); [|by eexists]. case_bool_decide; [by eexists|apply Hn].
Qed.
Lemma counter_ok_reachable first c : (first <= u64_max)%N ->
  rtc (counter_step first) (counter_start first) c -> counter_ok first c.
Proof.
  intros Hf. apply rtc_invariant; [|intros c1 c2 _; apply counter_step_ok].
  unfold counter_ok. cbn. setoid_rewrite lookup_empty. split_and!; try done; try lia.
  intros id. split; [lia|intros [t [=]]].
Qed.
(** The counter of a publication, [Scope.prepare_publication] with
    [Scope.insert_entry], is one such reservation that no one interrupts. *)
Lemma publication_reserves rt s d x snapshot v e sc :
  prepare_publication rt s d x snapshot v = Ok e -> scopes rt !! s = Some sc ->
  allocate_alone (next_entry_id rt) Loads = (next_entry_id (insert_entry s e rt), Reserved (entry_id e)).
Proof.
  unfold prepare_publication, insert_entry. intros H ->. bind_inv.
  assert (Hk : is_Some (checked_succ (next_entry_id rt))).
  { destruct (checked_succ (next_entry_id rt)); [by eexists|discriminate]. }
  match goal with H : Ok _ = Ok e |- _ => injection H as <- end.
  destruct Hk as [k Hk]. cbn -[checked_succ]. rewrite Hk, bool_decide_true by done. cbn.
  unfold checked_succ in Hk. case_match; [|discriminate]. by injection Hk as <-.
Qed.

(** ** Lemmas on owners *)
Definition times (i : InstanceId) (l : list InstanceId) : nat := sum_list_with (fun j => if decide (j = i) then 1 else 0) l.
Lemma times_cons i j l : times i (j :: l) = (if decide (j = i) then 1 else 0) + times i l.
Proof. done. Qed.
Lemma times_app i l1 l2 : times i (l1 ++ l2) = times i l1 + times i l2.
Proof. apply sum_list_with_app. Qed.
Lemma times_pos i l : 0 < times i l <-> i ∈ l.
Proof.
  induction l as [|j l IH]; [cbn; split; [lia|by intros ?%not_elem_of_nil]|].
  rewrite times_cons, elem_of_cons, <- IH. case_decide; naive_solver lia.
Qed.
Lemma times_delete i j k l : l !! k = Some j -> times i l = (if decide (j = i) then 1 else 0) + times i (delete k l).
Proof. intros Hk. unfold times. by rewrite (delete_Permutation l k j Hk) at 1. Qed.
Lemma sum_list_insert {A} (f : A -> nat) (l : list A) k x y :
  l !! k = Some x -> sum_list_with f (<[k := y]> l) + f x = sum_list_with f l + f y.
Proof.
  revert k. induction l as [|z l IH]; intros [|k] Hk; [done..| |].
  - injection Hk as ->. change (f y + sum_list_with f l + f x = f x + sum_list_with f l + f y). lia.
  - change (f z + sum_list_with f (<[k := y]> l) + f x = f z + sum_list_with f l + f y). specialize (IH k Hk). lia.
Qed.
Lemma sum_list_ext {A B} (f : A -> nat) (g : B -> nat) (h : A -> B) l : (forall x, f x = g (h x)) ->
  sum_list_with f l = sum_list_with g (h <$> l).
Proof. intros Hf. induction l as [|x l IH]; cbn; [done|]. by rewrite Hf, IH. Qed.

Definition handle_of (w : drop_work) : list InstanceId := match w with DropHandle i => [i] | DropSlot _ => [] end.
Definition slot_dropped (w : drop_work) : list InstanceId := match w with DropHandle _ => [] | DropSlot i => [i] end.
Definition held_by (c : instance) : list InstanceId := match c with Freed _ => [] | _ => dependency_handles c end.
(** The owners of a slot: holders, drops to come, and the slots that depend on it. *)
Definition owners (o : ownership) (i : InstanceId) : nat :=
  times i (held o) + sum_list_with (fun ws => times i (ws ≫= handle_of)) (drops o)
  + sum_list_with (fun c => times i (held_by c)) (slots o).
Definition destroyers (o : ownership) (i : InstanceId) : nat :=
  sum_list_with (fun ws => times i (ws ≫= slot_dropped)) (drops o).
(** An instance without its count. *)
Definition shape (c : instance) : instance := match c with Shared _ s => Shared 0 s | _ => c end.
(** The counts are the numbers of owners. *)
Definition counted (h : instances) (n : InstanceId -> nat) : Prop :=
  forall i, match h !! i with Some (Shared k _) => k = n i /\ 0 < k | _ => n i = 0 end.
Lemma counted_ext h n n' : counted h n -> (forall i, n i = n' i) -> counted h n'.
Proof. intros H E i. specialize (H i). rewrite <- E. exact H. Qed.
Lemma counted_shared h n i : counted h n -> 0 < n i -> exists s, h !! i = Some (Shared (n i) s).
Proof. intros H Hi. specialize (H i). repeat case_match; try lia. destruct H as [-> _]. eauto. Qed.
Lemma clone_handle_counted h n i : counted h n -> 0 < n i ->
  exists h', clone_handle h i = Ok h' /\ shape <$> h' = shape <$> h /\
    counted h' (fun j => (if decide (i = j) then 1 else 0) + n j).
Proof.
  intros H Hi. destruct (counted_shared h n i H Hi) as [s Hs]. unfold clone_handle. rewrite Hs.
  eexists. split_and!; [done| |].
  - rewrite list_fmap_insert. apply list_insert_id. by rewrite list_lookup_fmap, Hs.
  - intros j. destruct (decide (i = j)) as [<-|Hne].
    + rewrite list_lookup_insert_eq by (by eapply lookup_lt_Some). lia.
    + rewrite list_lookup_insert_ne by done. apply H.
Qed.
Lemma clone_handles_counted ds h n : counted h n -> Forall (fun i => 0 < n i) ds ->
  exists h', foldM clone_handle ds h = Ok h' /\ shape <$> h' = shape <$> h /\ counted h' (fun j => times j ds + n j).
Proof.
  revert h n. induction ds as [|i ds IH]; intros h n H Hd; [by exists h|].
  apply Forall_cons in Hd as [Hi Hd]. destruct (clone_handle_counted h n i H Hi) as (h1 & E1 & S1 & C1).
  destruct (IH h1 _ C1) as (h2 & E2 & S2 & C2); [eapply Forall_impl; [exact Hd|cbn; intros; lia]|].
  exists h2. cbn [foldM]. rewrite E1. split_and!; [exact E2|congruence|]. eapply counted_ext; [exact C2|].
  intros j. rewrite times_cons. lia.
Qed.
Lemma drop_strong_counted h n i : counted h n -> 0 < n i ->
  exists h' ws, drop_strong h i = Ok (h', ws) /\
    counted h' (fun j => n j - (if decide (i = j) then 1 else 0)) /\
    (ws = [] /\ 1 < n i /\ shape <$> h' = shape <$> h \/
     exists s, ws = [DropSlot i] /\ n i = 1 /\ h !! i = Some (Shared 1 s) /\ h' = <[i := Dropping s]> h).
Proof.
  intros H Hi. destruct (counted_shared h n i H Hi) as [s Hs]. unfold drop_strong. rewrite Hs.
  pose proof (lookup_lt_Some _ _ _ Hs) as Hlt.
  destruct (n i) as [|[|k]] eqn:Hn; [lia| |]; do 2 eexists; (split_and!; [done| |]).
  - intros j. destruct (decide (i = j)) as [<-|Hne].
    + rewrite list_lookup_insert_eq by done. lia.
    + rewrite list_lookup_insert_ne by done. specialize (H j). repeat case_match; lia.
  - right. eauto.
  - intros j. destruct (decide (i = j)) as [<-|Hne].
    + rewrite list_lookup_insert_eq by done. lia.
    + rewrite list_lookup_insert_ne by done. specialize (H j). repeat case_match; lia.
  - left. split_and!; [done|lia|]. rewrite list_fmap_insert. apply list_insert_id. by rewrite list_lookup_fmap, Hs.
Qed.

Lemma drop_value_exact v x : payload v = Some x ->
  drop_value v = [if cleanup v then CleanedUp x else JustDropped x].
Proof. destruct v as [p []]; cbn; by intros ->. Qed.
Lemma disposals_of_app i l l' o o' : disposals o = l -> disposals o' = l ++ l' ->
  disposals_of i o' = disposals_of i o ++ (filter (fun d => d.1 = i) l').*2.
Proof. unfold disposals_of. intros -> ->. by rewrite filter_app, fmap_app. Qed.
Lemma disposals_of_in i e o : (i, e) ∈ disposals o -> disposals_of i o <> [].
Proof.
  intros H E. apply (not_elem_of_nil (A := disposal) e). rewrite <- E. unfold disposals_of.
  apply list_elem_of_fmap. exists (i, e). by rewrite list_elem_of_filter.
Qed.
Lemma disposals_of_mem i o : disposals_of i o <> [] -> i ∈ (disposals o).*1.
Proof.
  unfold disposals_of. intros H. destruct (filter _ _) as [|d l] eqn:E; [done|].
  assert (Hd : d ∈ filter (fun d => d.1 = i) (disposals o)) by (rewrite E; left).
  apply list_elem_of_filter in Hd as [<- Hd]. apply list_elem_of_fmap. eauto.
Qed.

(** What holds of every reachable state. *)
Record owned_ok (o : ownership) : Prop := {
  ok_counted : counted (slots o) (owners o);
  ok_destroyers : forall i, destroyers o i = match slots o !! i with Some (Dropping _) => 1 | _ => 0 end;
  ok_disposals : forall i, disposals_of i o =
    match slots o !! i with Some (Freed s) => drop_value (slot_value s) | _ => [] end;
  ok_slots : forall i c, slots o !! i = Some c ->
    is_Some (payload (slot_value (instance_slot c))) /\ forall d, d ∈ dependency_handles c -> d < i;
  ok_order : forall i c d e l1 l2, slots o !! i = Some c -> d ∈ dependency_handles c ->
    disposals o = l1 ++ (d, e) :: l2 -> i ∈ l1.*1
}.
Lemma shape_lookup (h h' : instances) i c : shape <$> h' = shape <$> h -> h' !! i = Some c ->
  exists c', h !! i = Some c' /\ shape c = shape c'.
Proof.
  intros E H. assert (H' : (shape <$> h) !! i = Some (shape c)) by (by rewrite <- E, list_lookup_fmap, H).
  rewrite list_lookup_fmap in H'. destruct (h !! i) as [c'|]; [|done]. injection H' as H'. eauto.
Qed.
Lemma shape_slot c c' : shape c = shape c' -> instance_slot c = instance_slot c'.
Proof. destruct c, c'; cbn; congruence. Qed.
Lemma shape_dependencies c c' : shape c = shape c' -> dependency_handles c = dependency_handles c'.
Proof. intros H. unfold dependency_handles. by rewrite (shape_slot _ _ H). Qed.
Lemma sum_shape f (h h' : instances) : (forall c, f c = f (shape c)) -> shape <$> h' = shape <$> h ->
  sum_list_with f h' = sum_list_with f h.
Proof. intros Hf E. by rewrite (sum_list_ext f f shape h'), (sum_list_ext f f shape h), E. Qed.
Lemma held_by_shape j c : times j (held_by c) = times j (held_by (shape c)).
Proof. by destruct c. Qed.
(** Steps that change only counts and holders. *)
Lemma owned_ok_shape o o' : owned_ok o -> shape <$> slots o' = shape <$> slots o ->
  (forall i, destroyers o' i = destroyers o i) -> disposals o' = disposals o -> counted (slots o') (owners o') -> owned_ok o'.
Proof.
  intros [Hc Hd Hl Hs Ho] E Ed El Hc'.
  assert (Hm : forall {A} (f : instance -> A) (z : A) i, (forall c c', shape c = shape c' -> f c = f c') ->
    match slots o' !! i with Some c => f c | None => z end = match slots o !! i with Some c => f c | None => z end).
  { intros A f z i Hf. destruct (slots o' !! i) as [c|] eqn:H'; destruct (slots o !! i) as [c'|] eqn:H; [| | |done].
    - destruct (shape_lookup _ _ _ _ E H') as (c2 & H2 & H3). apply Hf. congruence.
    - destruct (shape_lookup _ _ _ _ E H') as (c2 & H2 & _). congruence.
    - destruct (shape_lookup _ _ _ _ (eq_sym E) H) as (c2 & H2 & _). congruence. }
  split; [done| | | |].
  - intros i. rewrite Ed, Hd. symmetry. apply (Hm _ (fun c => match c with Dropping _ => 1 | _ => 0 end)).
    intros [] []; cbn; congruence.
  - intros i. unfold disposals_of in *. rewrite El, Hl. symmetry.
    apply (Hm _ (fun c => match c with Freed s => drop_value (slot_value s) | _ => [] end)). intros [] []; cbn; congruence.
  - intros i c Hi. destruct (shape_lookup _ _ _ _ E Hi) as (c' & Hi' & Hs').
    rewrite (shape_slot _ _ Hs'), (shape_dependencies _ _ Hs'). by apply Hs.
  - intros i c d e l1 l2 Hi. destruct (shape_lookup _ _ _ _ E Hi) as (c' & Hi' & Hs').
    rewrite (shape_dependencies _ _ Hs'), El. exact (Ho i c' d e l1 l2 Hi').
Qed.
Lemma owned_ok_start n : owned_ok (ownership_start n).
Proof.
  assert (H : forall f, f [] = 0 -> sum_list_with f (replicate n ([] : list drop_work)) = 0).
  { intros f Hf. induction n as [|n IH]; [done|]. change (f [] + sum_list_with f (replicate n []) = 0). lia. }
  split; cbn; try done.
  - intros i. unfold owners. cbn. by rewrite H.
  - intros i. unfold destroyers. cbn. by rewrite H.
Qed.
Lemma held_owned o i : i ∈ held o -> 0 < owners o i.
Proof. intros H%times_pos. unfold owners. lia. Qed.
Lemma share_ok o i : owned_ok o -> i ∈ held o -> exists o', share_handle i o = Ok o' /\ owned_ok o'.
Proof.
  intros Hok Hi. destruct (clone_handle_counted _ _ i (ok_counted o Hok) (held_owned o i Hi)) as (h & E & S & C).
  unfold share_handle. rewrite E. eexists. split; [done|].
  apply (owned_ok_shape o); [done|exact S|done|done|]. eapply counted_ext; [exact C|].
  intros j. unfold owners. cbn [slots held drops]. rewrite times_cons, (sum_shape _ (slots o) h (held_by_shape j) S). lia.
Qed.
Lemma stacks_insert (f : drop_work -> list InstanceId) j (l : list (list drop_work)) t ws ws' : l !! t = Some ws ->
  sum_list_with (fun ws => times j (ws ≫= f)) (<[t := ws']> l) + times j (ws ≫= f)
  = sum_list_with (fun ws => times j (ws ≫= f)) l + times j (ws' ≫= f).
Proof. apply (sum_list_insert (fun ws => times j (ws ≫= f))). Qed.
Lemma times_bind_cons (f : drop_work -> list InstanceId) j w ws :
  times j ((w :: ws) ≫= f) = times j (f w) + times j (ws ≫= f).
Proof. apply times_app. Qed.
Lemma drop_ok o t work k i : owned_ok o -> held o !! k = Some i -> drops o !! t = Some work ->
  owned_ok (drop_handle t work k i o).
Proof.
  intros Hok Hk Ht. apply (owned_ok_shape o); [done|done| |done|].
  - intros j. unfold destroyers, drop_handle. cbn [drops].
    pose proof (stacks_insert slot_dropped j _ t _ (DropHandle i :: work) Ht) as H.
    rewrite (times_bind_cons _ _ (DropHandle i)) in H. change (times j (slot_dropped (DropHandle i))) with 0 in H. lia.
  - eapply counted_ext; [exact (ok_counted o Hok)|]. intros j. unfold owners, drop_handle. cbn [slots held drops].
    pose proof (stacks_insert handle_of j _ t _ (DropHandle i :: work) Ht) as H.
    rewrite (times_delete j i k (held o) Hk). rewrite (times_bind_cons _ _ (DropHandle i)) in H.
    cbn [handle_of] in H. rewrite times_cons in H. change (times j []) with 0 in H. lia.
Qed.
Lemma owners_none o i : owned_ok o -> length (slots o) <= i -> owners o i = 0.
Proof. intros Hok Hi. pose proof (ok_counted o Hok i) as H. by rewrite lookup_ge_None_2 in H. Qed.
Lemma owners_below o i : owned_ok o -> 0 < owners o i -> i < length (slots o).
Proof. intros Hok Hi. destruct (decide (length (slots o) <= i)); [|lia]. rewrite owners_none in Hi by done. lia. Qed.
(** The handles [ds] move from their holder into a new slot. *)
Lemma push_ok h l ws ls v ds : is_Some (payload v) ->
  owned_ok {| slots := h; held := map_values ds ++ l; drops := ws; disposals := ls |} ->
  owned_ok {| slots := h ++ [Shared 1 {| slot_value := v; slot_dependencies := ds |}]; held := length h :: l;
              drops := ws; disposals := ls |}.
Proof.
  set (c := Shared 1 _). intros Hv Hok. set (o := Build_ownership _ _ _ _) in Hok. set (o' := Build_ownership _ _ _ _).
  assert (Hlt : forall d, d ∈ map_values ds -> d < length h).
  { intros d Hd. apply (owners_below o); [done|]. unfold owners. cbn [o held]. rewrite times_app. apply times_pos in Hd. lia. }
  assert (Hown : forall j, owners o' j = (if decide (length h = j) then 1 else 0) + owners o j).
  { intros j. unfold owners. cbn [o o' slots held drops]. rewrite times_cons, times_app, sum_list_with_app.
    change (sum_list_with _ [c]) with (times j (map_values ds) + 0). lia. }
  assert (Hlook : forall j c', slots o' !! j = Some c' -> slots o !! j = Some c' \/ j = length h /\ c' = c).
  { intros j c' Hj. cbn [o' slots] in Hj. apply lookup_app_Some in Hj as [Hj|[Hge Hj]]; [by left|right].
    destruct (j - length h) as [|n] eqn:E; [|done]. injection Hj as <-. split; [lia|done]. }
  assert (Hstuck : forall A (f : instance -> A) z j, f c = z ->
    match slots o' !! j with Some c => f c | None => z end = match slots o !! j with Some c => f c | None => z end).
  { intros A f z j Hz. destruct (slots o !! j) as [c'|] eqn:E.
    - cbn [o o' slots] in *. by rewrite (lookup_app_l_Some _ _ _ _ E).
    - destruct (slots o' !! j) as [c'|] eqn:E'; [|done]. destruct (Hlook _ _ E') as [?|[_ ->]]; [congruence|done]. }
  split.
  - intros j. rewrite Hown. destruct (decide (length h = j)) as [<-|Hne].
    + rewrite (owners_none o) by done. cbn [o' slots]. rewrite lookup_app_r, Nat.sub_diag by done. cbn. lia.
    + pose proof (ok_counted o Hok j) as Hj. destruct (slots o' !! j) as [c'|] eqn:E.
      * destruct (Hlook _ _ E) as [E'|[? _]]; [|by destruct Hne]. rewrite E' in Hj. exact Hj.
      * cbn [o' slots] in E. apply lookup_ge_None_1 in E. rewrite length_app in E.
        apply owners_none; [done|]. cbn [o slots]. lia.
  - intros j. etrans; [exact (ok_destroyers o Hok j)|]. symmetry. by apply (Hstuck _ (fun c => match c with Dropping _ => 1 | _ => 0 end)).
  - intros j. etrans; [exact (ok_disposals o Hok j)|]. symmetry.
    by apply (Hstuck _ (fun c => match c with Freed s => drop_value (slot_value s) | _ => [] end)).
  - intros j c' Hj. destruct (Hlook _ _ Hj) as [Hj'|[-> ->]]; [by apply (ok_slots o Hok)|]. split; [exact Hv|exact Hlt].
  - intros j c' d e l1 l2 Hj Hd Hl. destruct (Hlook _ _ Hj) as [Hj'|[-> ->]]; [by apply (ok_order o Hok j c' d e l1 l2)|].
    exfalso. assert (Hin : (d, e) ∈ disposals o). { change (disposals o) with (disposals o'). rewrite Hl. set_solver. }
    apply disposals_of_in in Hin. rewrite (ok_disposals o Hok) in Hin.
    pose proof (ok_counted o Hok d) as Hc. assert (0 < owners o d).
    { unfold owners. cbn [o held]. rewrite times_app. apply times_pos in Hd. cbn in Hd. unfold dependency_handles in Hd. cbn in Hd. lia. }
    repeat case_match; try done; lia.
Qed.
Lemma new_ok o v ds : owned_ok o -> is_Some (payload v) -> Forall (.∈ held o) (map_values ds) ->
  exists o', new_slot v ds o = Ok o' /\ owned_ok o'.
Proof.
  intros Hok Hv Hds. assert (Hd : Forall (fun i => 0 < owners o i) (map_values ds)).
  { eapply Forall_impl; [exact Hds|]. intros i. apply held_owned. }
  destruct (clone_handles_counted _ _ _ (ok_counted o Hok) Hd) as (h & E & S & C).
  unfold new_slot. rewrite E. eexists. split; [done|]. apply push_ok; [done|].
  apply (owned_ok_shape o); [done|exact S|done|done|]. eapply counted_ext; [exact C|].
  intros j. unfold owners. cbn [slots held drops]. rewrite times_app, (sum_shape _ (slots o) h (held_by_shape j) S). lia.
Qed.
Lemma stack_owned (f : drop_work -> list InstanceId) j w (l : list (list drop_work)) t rest : l !! t = Some (w :: rest) ->
  times j (f w) <= sum_list_with (fun ws => times j (ws ≫= f)) l.
Proof.
  intros Ht. etrans; [|apply (sum_list_with_in (w :: rest)), (list_elem_of_lookup_2 _ t _ Ht)]. rewrite times_bind_cons. lia.
Qed.
Lemma stacks_moved (f : drop_work -> list InstanceId) j (l : list (list drop_work)) t w ws rest : l !! t = Some (w :: rest) ->
  sum_list_with (fun ws => times j (ws ≫= f)) (<[t := ws ++ rest]> l) + times j (f w)
  = sum_list_with (fun ws => times j (ws ≫= f)) l + times j (ws ≫= f).
Proof.
  intros Ht. pose proof (stacks_insert f j _ t _ (ws ++ rest) Ht) as H.
  rewrite times_bind_cons, bind_app, times_app in H. lia.
Qed.
Lemma slots_insert j (h : instances) i c c' : h !! i = Some c ->
  sum_list_with (fun c => times j (held_by c)) (<[i := c']> h) + times j (held_by c)
  = sum_list_with (fun c => times j (held_by c)) h + times j (held_by c').
Proof. apply (sum_list_insert (fun c => times j (held_by c))). Qed.
Lemma insert_slot_lookup (h : instances) i c c' : h !! i = Some c -> instance_slot c' = instance_slot c ->
  forall j d, <[i := c']> h !! j = Some d -> exists d', h !! j = Some d' /\ instance_slot d = instance_slot d'.
Proof. intros Hi Hc j d. rewrite list_lookup_insert_Some. intros [(<- & <- & _)|[_ Hj]]; eauto. Qed.
(** A thread that holds a handle to drop is an owner. *)
Lemma drop_owned o t i rest : drops o !! t = Some (DropHandle i :: rest) -> 0 < owners o i.
Proof.
  intros Ht. pose proof (stack_owned handle_of i _ _ _ _ Ht) as H. cbn [handle_of] in H.
  rewrite times_cons, decide_True in H by done. unfold owners. lia.
Qed.
Lemma release_ok o t i rest : owned_ok o -> drops o !! t = Some (DropHandle i :: rest) ->
  exists o', drop_works t (DropHandle i) rest o = Ok o' /\ owned_ok o'.
Proof.
  intros Hok Ht. pose proof (drop_owned o t i rest Ht) as Hi.
  destruct (drop_strong_counted _ _ i (ok_counted o Hok) Hi) as (h & ws & E & C & Hcase).
  unfold drop_works. rewrite E. eexists. split; [done|]. cbn [fst snd].
  pose proof (fun f j => stacks_moved f j _ t _ ws rest Ht) as Hst.
  set (o' := Build_ownership _ _ _ _).
  assert (Hh : forall j, times j (ws ≫= handle_of) = 0) by (by destruct Hcase as [(-> & _)|(s & -> & _)]).
  assert (Hown : (forall j, sum_list_with (fun c => times j (held_by c)) h = sum_list_with (fun c => times j (held_by c)) (slots o)) ->
    forall j, owners o j - (if decide (i = j) then 1 else 0) = owners o' j).
  { intros Hsl j. pose proof (Hst handle_of j) as H. rewrite Hh in H. cbn [handle_of] in H.
    rewrite times_cons in H. change (times j []) with 0 in H. unfold owners. cbn [o' slots held drops]. rewrite Hsl. lia. }
  destruct Hcase as [(-> & Hn & S)|(s & -> & Hn & Hs & ->)].
  - apply (owned_ok_shape o); [done|exact S| |done|].
    + intros j. pose proof (Hst slot_dropped j) as H. unfold destroyers. cbn [o' drops].
      change (times j (slot_dropped (DropHandle i))) with 0 in H. change (times j ([] ≫= slot_dropped)) with 0 in H. lia.
    + eapply counted_ext; [exact C|]. apply Hown. intros j. apply sum_shape; [apply held_by_shape|exact S].
  - assert (Hcnt : counted (slots o') (owners o')).
    { eapply counted_ext; [exact C|]. apply Hown. intros j.
      pose proof (slots_insert j _ i _ (Dropping s) Hs) as H. change (held_by (Dropping s)) with (held_by (Shared 1 s)) in H. lia. }
    pose proof (lookup_lt_Some _ _ _ Hs) as Hlt.
    pose proof (insert_slot_lookup _ i _ (Dropping s) Hs eq_refl) as Hlook.
    split; [done| | | |].
    + intros j. pose proof (Hst slot_dropped j) as H. change (times j (slot_dropped (DropHandle i))) with 0 in H.
      pose proof (ok_destroyers o Hok j) as Hd. unfold destroyers in *. cbn [o' drops slots].
      destruct (decide (i = j)) as [<-|Hne].
      * rewrite list_lookup_insert_eq by done. rewrite Hs in Hd. cbn [mbind list_bind slot_dropped] in H.
        change (times i ([i] ++ [])) with (times i [i]) in H. rewrite times_cons, decide_True in H by done.
        change (times i []) with 0 in H. lia.
      * rewrite list_lookup_insert_ne by done. change (times j ([DropSlot i] ≫= slot_dropped)) with (times j [i]) in H.
        rewrite times_cons, decide_False in H by done. change (times j []) with 0 in H. rewrite <- Hd. lia.
    + intros j. pose proof (ok_disposals o Hok j) as Hd. unfold disposals_of in *. cbn [o' disposals slots]. rewrite Hd.
      destruct (decide (i = j)) as [<-|Hne]; [by rewrite list_lookup_insert_eq, Hs|by rewrite list_lookup_insert_ne].
    + intros j c Hj. destruct (Hlook j c Hj) as (c' & Hj' & Hs'). unfold dependency_handles. rewrite Hs'. by apply (ok_slots o Hok).
    + intros j c d e l1 l2 Hj. destruct (Hlook j c Hj) as (c' & Hj' & Hs'). unfold dependency_handles. rewrite Hs'.
      by apply (ok_order o Hok j c' d e l1 l2).
Qed.
Lemma destroyers_dropping o t i rest : owned_ok o -> drops o !! t = Some (DropSlot i :: rest) ->
  exists s, slots o !! i = Some (Dropping s).
Proof.
  intros Hok Ht. pose proof (stack_owned slot_dropped i _ _ _ _ Ht) as H. cbn [slot_dropped] in H.
  rewrite times_cons, decide_True in H by done. pose proof (ok_destroyers o Hok i) as Hd. unfold destroyers in Hd.
  repeat case_match; eauto; lia.
Qed.
Lemma filter_one {A} (i j : A) `{EqDecision A} (e : disposal) :
  (filter (fun d : A * disposal => d.1 = j) [(i, e)]).*2 = if decide (i = j) then [e] else [].
Proof. rewrite filter_cons, filter_nil. cbn. by case_decide. Qed.
(** The slots that depend on a slot without owners are gone. *)
Lemma owner_gone o i j c : owned_ok o -> owners o i = 0 -> slots o !! j = Some c -> i ∈ dependency_handles c ->
  j ∈ (disposals o).*1.
Proof.
  intros Hok Hi Hj Hd. assert (Hh : held_by c <> dependency_handles c).
  { intros Hh. pose proof (slots_insert i _ j _ (Freed (instance_slot c)) Hj) as H. rewrite Hh in H.
    apply times_pos in Hd. unfold owners in Hi. change (times i (held_by (Freed _))) with 0 in H. lia. }
  destruct c as [k s|s|s]; [done..|]. apply disposals_of_mem. rewrite (ok_disposals o Hok), Hj.
  destruct (ok_slots o Hok j _ Hj) as [[x Hx] _]. cbn in Hx. by rewrite (drop_value_exact _ _ Hx).
Qed.
Lemma drop_all_work (l : list InstanceId) : (DropHandle <$> l) ≫= handle_of = l /\ (DropHandle <$> l) ≫= slot_dropped = [].
Proof.
  induction l as [|d l [IH1 IH2]]; [done|]. rewrite fmap_cons, !bind_cons, IH1, IH2. done.
Qed.
Lemma destroy_ok o t i rest : owned_ok o -> drops o !! t = Some (DropSlot i :: rest) ->
  exists o', drop_works t (DropSlot i) rest o = Ok o' /\ owned_ok o'.
Proof.
  intros Hok Ht. destruct (destroyers_dropping o t i rest Hok Ht) as [s Hs].
  destruct (ok_slots o Hok i _ Hs) as [[x Hx] Hdeps]. cbn [instance_slot] in Hx.
  unfold drop_works, destroy_slot. rewrite Hs. eexists. split; [done|]. cbn [fst snd].
  rewrite (drop_value_exact _ _ Hx). set (e := if cleanup (slot_value s) then CleanedUp x else JustDropped x). cbn [fmap list_fmap].
  set (ws := DropHandle <$> map_values (slot_dependencies s)). set (o' := Build_ownership _ _ _ _).
  pose proof (fun f j => stacks_moved f j _ t _ ws rest Ht) as Hst. pose proof (lookup_lt_Some _ _ _ Hs) as Hlt.
  assert (Hws : ws ≫= handle_of = map_values (slot_dependencies s) /\ ws ≫= slot_dropped = []) by apply drop_all_work.
  assert (Hown : forall j, owners o j = owners o' j).
  { intros j. pose proof (Hst handle_of j) as H. pose proof (slots_insert j _ i _ (Freed s) Hs) as H'.
    rewrite (proj1 Hws) in H. change (times j (handle_of (DropSlot i))) with 0 in H.
    change (times j (held_by (Freed s))) with 0 in H'. unfold owners. cbn [o' slots held drops].
    change (held_by (Dropping s)) with (map_values (slot_dependencies s)) in H'. lia. }
  assert (Hnone : owners o i = 0) by (pose proof (ok_counted o Hok i) as H; by rewrite Hs in H).
  pose proof (insert_slot_lookup _ i _ (Freed s) Hs eq_refl) as Hlook.
  split.
  - apply counted_ext with (owners o); [|done]. intros j. pose proof (ok_counted o Hok j) as H. cbn [o' slots].
    destruct (decide (i = j)) as [<-|Hne]; [by rewrite list_lookup_insert_eq|by rewrite list_lookup_insert_ne].
  - intros j. pose proof (Hst slot_dropped j) as H. rewrite (proj2 Hws) in H. change (times j []) with 0 in H.
    pose proof (ok_destroyers o Hok j) as Hd. unfold destroyers in *. cbn [o' drops slots slot_dropped] in *.
    rewrite times_cons in H. change (times j []) with 0 in H.
    destruct (decide (i = j)) as [<-|Hne]; [rewrite list_lookup_insert_eq by done; rewrite Hs in Hd; lia|].
    rewrite list_lookup_insert_ne by done. lia.
  - intros j. rewrite (disposals_of_app j _ [(i, e)] o o' eq_refl eq_refl), filter_one, (ok_disposals o Hok). cbn [o' slots].
    destruct (decide (i = j)) as [<-|Hne]; [|by rewrite list_lookup_insert_ne, app_nil_r].
    rewrite list_lookup_insert_eq, Hs by done. by rewrite (drop_value_exact _ _ Hx).
  - intros j c Hj. destruct (Hlook j c Hj) as (c' & Hj' & Hs'). unfold dependency_handles. rewrite Hs'. by apply (ok_slots o Hok).
  - intros j c d e' l1 l2 Hj Hd Hl. destruct (Hlook j c Hj) as (c' & Hj' & Hs').
    rewrite (eq_refl : dependency_handles c = map_values (slot_dependencies (instance_slot c))), Hs' in Hd.
    cbn [o' disposals] in Hl. destruct l2 as [|y l2 _] using rev_ind.
    + apply app_inj_2 in Hl as [Hl Hde]; [|done]. injection Hde as <- <-. rewrite <- Hl.
      by apply (owner_gone o i j c').
    + rewrite app_comm_cons, app_assoc in Hl. apply app_inj_2 in Hl as [Hl _]; [|done].
      by apply (ok_order o Hok j c' d e' l1 l2).
Qed.
Lemma works_ok o t w rest : owned_ok o -> drops o !! t = Some (w :: rest) ->
  exists o', drop_works t w rest o = Ok o' /\ owned_ok o'.
Proof. destruct w as [i|i]; [apply release_ok|apply destroy_ok]. Qed.
Lemma ownership_step_ok o o' : owned_ok o -> ownership_step o o' -> owned_ok o'.
Proof.
  intros Hok H. destruct H as [x c ds o o' Hds H|i o o' Hi H|t work k i o Hk Ht|t w rest o o' Ht H].
  - destruct (new_ok o (if c then OwnedValue_new x else from_value x) ds Hok) as (o2 & E & Hok'); [|done|congruence].
    destruct c; by eexists.
  - destruct (share_ok o i Hok Hi) as (o2 & E & Hok'). congruence.
  - by apply drop_ok.
  - destruct (works_ok o t w rest Hok Ht) as (o2 & E & Hok'). congruence.
Qed.
Lemma owned_reachable n o : rtc ownership_step (ownership_start n) o -> owned_ok o.
Proof. apply rtc_invariant; [apply owned_ok_start|]. intros o1 o2 _. apply ownership_step_ok. Qed.

(** Every step of a drop comes closer to its end. *)
Lemma drop_works_fuel o o' t w rest : drops o !! t = Some (w :: rest) -> drop_works t w rest o = Ok o' ->
  drop_fuel o' < drop_fuel o.
Proof.
  intros Ht H. unfold drop_fuel, drop_works in *.
  destruct w as [i|i]; [unfold drop_strong in H|unfold destroy_slot in H]; destruct (slots o !! i) as [[k s|s|s]|] eqn:Hi; try done.
  - pose proof (fun c => sum_list_insert slot_weight _ i _ c Hi) as Hs.
    pose proof (fun ws => sum_list_insert length _ t _ ws Ht) as Hl.
    destruct k as [|[|k]]; [done|specialize (Hs (Dropping s))|specialize (Hs (Shared (S k) s))]; injection H as <-; cbn [slots drops fst snd].
    + specialize (Hl ([DropSlot i] ++ rest)). unfold slot_weight in Hs at 2 4. change (dependency_handles (Dropping s)) with (dependency_handles (Shared 1 s)) in Hs. cbn [length app] in Hl. lia.
    + specialize (Hl ([] ++ rest)). unfold slot_weight in Hs at 2 4. change (dependency_handles (Shared (S k) s)) with (dependency_handles (Shared (S (S k)) s)) in Hs. cbn [length app] in Hl. lia.
  - injection H as <-. cbn [slots drops fst snd].
    pose proof (sum_list_insert slot_weight _ i _ (Freed s) Hi) as Hs.
    pose proof (sum_list_insert length _ t _ ((DropHandle <$> map_values (slot_dependencies s)) ++ rest) Ht) as Hl.
    rewrite length_app, length_fmap in Hl. unfold slot_weight in Hs at 2 4. unfold dependency_handles in Hs. cbn [instance_slot length] in *. lia.
Qed.
Lemma run_drops_returns fuel t o ws : drop_fuel o <= fuel -> owned_ok o -> drops o !! t = Some ws ->
  exists o', run_drops fuel t o = Ok o' /\ drops o' !! t = Some [].
Proof.
  revert o ws. induction fuel as [|fuel IH]; intros o ws Hf Hok Ht.
  - assert (Hl : length ws <= drop_fuel o).
    { unfold drop_fuel. pose proof (sum_list_with_in ws length _ (list_elem_of_lookup_2 _ _ _ Ht)). lia. }
    exists o. cbn. rewrite Ht. destruct ws as [|w ws]; [done|]. cbn in Hl. lia.
  - cbn [run_drops]. rewrite Ht. destruct ws as [|w rest]; [by exists o|].
    destruct (works_ok o t w rest Hok Ht) as (o' & E & Hok'). rewrite E.
    assert (Ht' : is_Some (drops o' !! t)).
    { assert (Hlt : t < length (drops o)) by (by eapply lookup_lt_Some). apply lookup_lt_is_Some.
      unfold drop_works in E. destruct w; apply bind_Ok in E as (p & _ & [= <-]); cbn; by rewrite length_insert. }
    destruct Ht' as [ws' Ht']. apply (IH o' ws'); [|done..]. pose proof (drop_works_fuel _ _ _ _ _ Ht E). lia.
Qed.
(** Nothing leaks: without holders, the youngest slots are gone, and so on. *)
Lemma unowned_freed o k : owned_ok o -> held o = [] -> Forall (eq []) (drops o) ->
  forall i c, length (slots o) - i <= k -> slots o !! i = Some c -> exists s, c = Freed s.
Proof.
  intros Hok Hh Hd. assert (Hz : forall f : drop_work -> list InstanceId, forall j, sum_list_with (fun ws => times j (ws ≫= f)) (drops o) = 0).
  { intros f j. induction Hd as [|ws l <- _ IH]; [done|]. exact IH. }
  induction k as [|k IH]; intros i c Hi Hc; [apply lookup_lt_Some in Hc; lia|].
  assert (Hn : owners o i = 0).
  { unfold owners. rewrite Hh, Hz. change (times i []) with 0. cbn [Nat.add].
    assert (Hall : forall c', c' ∈ slots o -> times i (held_by c') = 0).
    { intros c' [j Hj]%list_elem_of_lookup_1. destruct (decide (times i (held_by c') = 0)) as [|Hp]; [done|].
      assert (Hin : i ∈ held_by c') by (apply times_pos; lia). destruct c' as [m s|s|s]; [| |by apply not_elem_of_nil in Hin];
        (destruct (ok_slots o Hok j _ Hj) as [_ Hlt]; specialize (Hlt i Hin); pose proof (lookup_lt_Some _ _ _ Hj);
         destruct (IH j _ ltac:(lia) Hj) as [s' [=]]). }
    clear -Hall. induction (slots o) as [|c' l IH]; [done|]. change (times i (held_by c') + sum_list_with (fun c => times i (held_by c)) l = 0).
    rewrite (Hall c') by left. apply IH. intros c2 Hc2. apply Hall. by right. }
  pose proof (ok_counted o Hok i) as H1. pose proof (ok_destroyers o Hok i) as H2. unfold destroyers in H2.
  rewrite Hc in H1, H2. rewrite Hz in H2. destruct c as [m s|s|s]; [lia|done|by eexists].
Qed.

(** ** Properties *)

(** C22: identities are reserved exactly once.  Let any number of threads reserve
    identities from one counter that starts at [first], interleaved at every
    access, with stale relaxed reads and spurious failures of the exchange.  The
    identities reserved so far are exactly those from [first] up to the counter,
    no two calls have the same one, the counter never passes [u64::MAX], a call
    is refused only when the counter is there, and a call that is left alone
    returns after two steps. *)
Theorem identities_exact first c : (first <= u64_max)%N -> rtc (counter_step first) (counter_start first) c ->
  (forall id, (first <= id < count c)%N <-> exists t, calls c !! t = Some (Reserved id)) /\
  (forall t u id, calls c !! t = Some (Reserved id) -> calls c !! u = Some (Reserved id) -> t = u) /\
  (count c <= u64_max)%N /\
  (forall t, calls c !! t = Some Overflows -> count c = u64_max) /\
  (forall t p, calls c !! t = Some p -> is_Some (allocate_entry_id (allocate_alone (count c) p).2)).
Proof.
  intros Hf Hc. destruct (counter_ok_reachable first c Hf Hc) as (Hr & _ & Hs & Hi & Ho).
  split_and!; [exact Hs|exact Hi|lia|exact Ho|]. intros t p _. apply allocate_alone_returns.
Qed.
(** Two calls that read the same value: one of them has to try again. *)
Definition contended : list (N * option (N * bool)) :=
  [(0, None); (1, None); (0, Some (u64_max - 1, false)); (1, Some (u64_max - 1, false)); (1, Some (u64_max - 1, true));
   (1, Some (u64_max - 1, false)); (0, Some (u64_max, false)); (0, Some (u64_max, false))]%N.
Definition counter_move (c : counter) (m : N * option (N * bool)) : counter :=
  match m.2, calls c !! m.1 with
  | None, None => allocates m.1 c
  | Some (reads, fails), Some p =>
      if bool_decide (u64_max - 1 <= reads <= count c)%N then allocation_moves m.1 reads fails p c else c
  | _, _ => c
  end.
Lemma counter_moves ms c : rtc (counter_step (u64_max - 1)) c (foldl counter_move c ms).
Proof.
  revert c. induction ms as [|[t [[reads fails]|]] ms IH]; intros c; [done|..]; cbn [foldl]; (etrans; [|apply IH]);
    unfold counter_move; cbn [fst snd]; destruct (calls c !! t) as [p|] eqn:E; try done; [|by apply rtc_once, step_allocates].
  case_bool_decide; [|done]. by apply rtc_once, step_moves.
Qed.
Lemma identities_exact_witness :
  let c := foldl counter_move (counter_start (u64_max - 1)) contended in
  calls c !! 1%N = Some (Reserved (u64_max - 1)) /\ calls c !! 0%N = Some Overflows /\
  count c = u64_max /\ (exists t, calls c !! t = Some (Reserved (u64_max - 1))).
Proof.
  destruct (identities_exact (u64_max - 1) _ ltac:(lia) (counter_moves contended (counter_start (u64_max - 1)))) as (Hs & _).
  split_and!; [by vm_compute..|]. apply Hs. by vm_compute.
Defined.

(** C21: values are disposed of once, after their last reader and before what they
    depend on.  Let slots be made, handles shared and let go of, and threads work
    off their drops in any interleaving.  A held handle always leads to its value,
    which is not disposed of; no value is disposed of twice, and one with a
    cleanup only through it; a slot is disposed of before the slots it depends on;
    a thread that drops always comes to the end; and once nothing is held and no
    drop is under way, every value is disposed of. *)
Theorem values_owned threads o : rtc ownership_step (ownership_start threads) o ->
  (forall i, i ∈ held o -> exists n s x, slots o !! i = Some (Shared n s) /\
     downcast_ref Some (slot_value s) = Some x /\ disposals_of i o = []) /\
  (forall i c x, slots o !! i = Some c -> payload (slot_value (instance_slot c)) = Some x ->
     disposals_of i o = [] \/ disposals_of i o = [if cleanup (slot_value (instance_slot c)) then CleanedUp x else JustDropped x]) /\
  (forall i c d e l1 l2, slots o !! i = Some c -> d ∈ dependency_handles c ->
     disposals o = l1 ++ (d, e) :: l2 -> i ∈ l1.*1) /\
  (forall t ws, drops o !! t = Some ws -> exists o', run_drops (drop_fuel o) t o = Ok o' /\ drops o' !! t = Some []) /\
  (held o = [] -> Forall (eq []) (drops o) -> forall i c, slots o !! i = Some c -> disposals_of i o <> []).
Proof.
  intros Hr. pose proof (owned_reachable threads o Hr) as Hok. split_and!.
  - intros i Hi. destruct (counted_shared _ _ i (ok_counted o Hok) (held_owned o i Hi)) as [s Hs].
    destruct (ok_slots o Hok i _ Hs) as [[x Hx] _]. exists (owners o i), s, x. split_and!; [done|unfold downcast_ref; cbn in Hx; by rewrite Hx|].
    by rewrite (ok_disposals o Hok), Hs.
  - intros i c x Hi Hx. rewrite (ok_disposals o Hok), Hi. destruct c; [by left..|right]. by apply drop_value_exact.
  - apply (ok_order o Hok).
  - intros t ws Ht. by apply (run_drops_returns _ t o ws).
  - intros Hh Hd i c Hi. destruct (unowned_freed o _ Hok Hh Hd i c (le_n _) Hi) as [s ->].
    rewrite (ok_disposals o Hok), Hi. destruct (ok_slots o Hok i _ Hi) as [[x Hx] _]. cbn in Hx. by rewrite (drop_value_exact _ x Hx).
Qed.
(** A store and an app that depends on it; the handles go away, the store's first. *)
Inductive ownership_move :=
  | MakesSlot (x : CapabilityValue) (c : bool) (ds : gmap CapabilityId InstanceId)
  | SharesHandle (i : InstanceId)
  | DropsHandle (t k : nat)
  | WorksOn (t : nat).
Definition ownership_move_on (o : ownership) (m : ownership_move) : ownership :=
  match m with
  | MakesSlot x c ds =>
      if bool_decide (Forall (.∈ held o) (map_values ds))
      then match new_slot (if c then OwnedValue_new x else from_value x) ds o with Ok o => o | _ => o end else o
  | SharesHandle i =>
      if bool_decide (i ∈ held o) then match share_handle i o with Ok o => o | _ => o end else o
  | DropsHandle t k =>
      match held o !! k, drops o !! t with Some i, Some work => drop_handle t work k i o | _, _ => o end
  | WorksOn t =>
      match drops o !! t with
      | Some (w :: rest) => match drop_works t w rest o with Ok o => o | _ => o end
      | _ => o
      end
  end.
Lemma ownership_moves ms o : rtc ownership_step o (foldl ownership_move_on o ms).
Proof.
  revert o. induction ms as [|m ms IH]; intros o; [done|]. cbn [foldl]. etrans; [|apply IH]. clear IH.
  destruct m as [x c ds|i|t k|t]; cbn [ownership_move_on].
  - case_bool_decide; [|done]. destruct (new_slot _ _ _) eqn:E; try done. apply rtc_once. by eapply step_new.
  - case_bool_decide; [|done]. destruct (share_handle _ _) eqn:E; try done. apply rtc_once. by eapply step_share.
  - destruct (held o !! k) eqn:Hk; [|done]. destruct (drops o !! t) eqn:Ht; [|done]. by apply rtc_once, step_drop.
  - destruct (drops o !! t) as [[|w rest]|] eqn:Ht; try done. destruct (drop_works _ _ _ _) eqn:E; try done.
    apply rtc_once. by eapply step_works.
Qed.
Definition store_and_app : list ownership_move :=
  [MakesSlot 7%N true ∅; SharesHandle 0; MakesSlot 8%N true {["store" := 0]}; DropsHandle 0 1; DropsHandle 1 1; WorksOn 0; WorksOn 1].
Lemma values_owned_witness :
  let o := foldl ownership_move_on (ownership_start 2) store_and_app in
  disposals o = [] /\ (exists n s x, slots o !! 1 = Some (Shared n s) /\ downcast_ref Some (slot_value s) = Some x /\ disposals_of 1 o = []) /\
  let o := foldl ownership_move_on o [DropsHandle 1 0; WorksOn 1; WorksOn 1; WorksOn 1; WorksOn 1] in
  disposals o = [(1, CleanedUp 8%N); (0, CleanedUp 7%N)] /\ disposals_of 0 o <> [].
Proof.
  destruct (values_owned 2 _ (ownership_moves store_and_app (ownership_start 2))) as (Hh & _).
  pose proof (ownership_moves (store_and_app ++ [DropsHandle 1 0; WorksOn 1; WorksOn 1; WorksOn 1; WorksOn 1]) (ownership_start 2)) as Hr.
  apply values_owned in Hr as (_ & _ & _ & _ & Hq). rewrite foldl_app in Hq. cbv zeta.
  split_and!; [by vm_compute|apply Hh; vm_compute; left|by vm_compute|].
  refine (Hq _ _ 0 _ _); [by vm_compute|vm_compute; by repeat constructor|by vm_compute].
Defined.
