(* ===== verification/ScopeSafety.v ===== *)
(** * The scope runtime as a transition system

    The steps of the threads that share a tree of scopes, the invariant of the
    tree, and what publication and admission guarantee whatever runs between
    the two sections of a publication. *)
From S2P Require Export ScopeFacts.
#[local] Open Scope string_scope.
#[local] Open Scope nat_scope.
#[local] Open Scope list_scope.

(** ** Steps *)

(** A publication whose factory is running. *)
Record inflight := {
  in_scope : ScopeId;
  in_def : CapabilityDefinition;
  in_expectation : PublishExpectation;
  in_snapshot : gmap CapabilityId CapabilityEntry
}.
Record system := { sys_rt : Runtime; sys_pending : list inflight }.
Definition system_start : system := {| sys_rt := Runtime_start; sys_pending := [] |}.

(** A publication is two steps: [plan] under the read lock, then [finish]
    under the write lock or [fail] when the factory fails.  [withdrawals] says
    whether [Scope::withdraw] is called. *)
Inductive scope_step (withdrawals : bool) : system -> system -> Prop :=
  | step_root rt ps n :
      scopes rt !! [n] = None ->
      scope_step withdrawals {| sys_rt := rt; sys_pending := ps |}
        {| sys_rt := root rt n; sys_pending := ps |}
  | step_child rt ps s :
      scope_step withdrawals {| sys_rt := rt; sys_pending := ps |}
        {| sys_rt := child rt s; sys_pending := ps |}
  | step_drop rt ps s :
      scope_step withdrawals {| sys_rt := rt; sys_pending := ps |}
        {| sys_rt := drop_scope rt s; sys_pending := ps |}
  | step_plan rt ps s d x snap :
      publish_plan rt s d x = Ok snap ->
      scope_step withdrawals {| sys_rt := rt; sys_pending := ps |}
        {| sys_rt := rt; sys_pending := ps ++ [{| in_scope := s; in_def := d;
             in_expectation := x; in_snapshot := snap |}] |}
  | step_finish rt ps1 i ps2 v :
      scope_step withdrawals {| sys_rt := rt; sys_pending := ps1 ++ i :: ps2 |}
        {| sys_rt := (publish_preconstructed rt (in_scope i) (in_def i) (in_expectation i)
                        (in_snapshot i) v).1; sys_pending := ps1 ++ ps2 |}
  | step_fail rt ps1 i ps2 :
      scope_step withdrawals {| sys_rt := rt; sys_pending := ps1 ++ i :: ps2 |}
        {| sys_rt := rt; sys_pending := ps1 ++ ps2 |}
  | step_withdraw rt ps s c g :
      withdrawals = true ->
      scope_step withdrawals {| sys_rt := rt; sys_pending := ps |}
        {| sys_rt := (withdraw rt s c g).1; sys_pending := ps |}
  | step_teardown rt ps s :
      scope_step withdrawals {| sys_rt := rt; sys_pending := ps |}
        {| sys_rt := (teardown rt s).1; sys_pending := ps |}.
Definition scope_reachable (withdrawals : bool) (y : system) : Prop :=
  rtc (scope_step withdrawals) system_start y.

(** ** What each update changes *)
Lemma local_entries_set_scope rt s sc s' :
  local_entries (set_scope s sc rt) s' = if decide (s = s') then entries sc else local_entries rt s'.
Proof.
  unfold local_entries. cbn. destruct (decide (s = s')) as [->|Hne];
    [by rewrite lookup_insert_eq|by rewrite lookup_insert_ne].
Qed.
Lemma is_open_set_scope rt s sc s' :
  is_open (set_scope s sc rt) s' =
  if decide (s = s') then bool_decide (lifecycle sc = Open) else is_open rt s'.
Proof.
  unfold is_open. cbn. destruct (decide (s = s')) as [->|Hne];
    [by rewrite lookup_insert_eq|by rewrite lookup_insert_ne].
Qed.
Lemma is_open_exists rt s : is_open rt s = true -> is_Some (scopes rt !! s).
Proof. unfold is_open. destruct (scopes rt !! s); [by eexists|done]. Qed.
Lemma local_entries_absent rt s : scopes rt !! s = None -> local_entries rt s = ∅.
Proof. unfold local_entries. by intros ->. Qed.

Lemma set_entries_local rt s es l s' :
  is_Some (scopes rt !! s) ->
  local_entries (set_entries s es l rt) s' = if decide (s = s') then es else local_entries rt s'.
Proof. intros [sc Hsc]. unfold set_entries. by rewrite Hsc, local_entries_set_scope. Qed.
Lemma set_entries_open rt s es l s' :
  is_Some (scopes rt !! s) ->
  is_open (set_entries s es l rt) s' =
  if decide (s = s') then bool_decide (l = Open) else is_open rt s'.
Proof. intros [sc Hsc]. unfold set_entries. by rewrite Hsc, is_open_set_scope. Qed.
Lemma set_entries_arena rt s es l : arena (set_entries s es l rt) = arena rt.
Proof. unfold set_entries. by destruct (scopes rt !! s). Qed.
Lemma set_entries_next rt s es l : next_entry_id (set_entries s es l rt) = next_entry_id rt.
Proof. unfold set_entries. by destruct (scopes rt !! s). Qed.
Lemma set_entries_scopes rt s es l p sc' :
  scopes (set_entries s es l rt) !! p = Some sc' ->
  exists sc, scopes rt !! p = Some sc /\ children sc = children sc'.
Proof.
  unfold set_entries. destruct (scopes rt !! s) as [sc|] eqn:E; [|by exists sc'].
  cbn. destruct (decide (s = p)) as [->|Hne].
  - rewrite lookup_insert_eq. intros [= <-]. by exists sc.
  - rewrite lookup_insert_ne by done. by exists sc'.
Qed.
Lemma set_entries_scopes_back rt s es l p sc :
  scopes rt !! p = Some sc ->
  exists sc', scopes (set_entries s es l rt) !! p = Some sc' /\ children sc' = children sc.
Proof.
  intros Hp. unfold set_entries. destruct (scopes rt !! s) as [sc0|] eqn:E; [|by exists sc].
  cbn. destruct (decide (s = p)) as [->|Hne].
  - rewrite lookup_insert_eq. eexists; split; [done|]. cbn. congruence.
  - rewrite lookup_insert_ne by done. by exists sc.
Qed.

Lemma insert_entry_local rt s e s' :
  is_Some (scopes rt !! s) ->
  local_entries (insert_entry s e rt) s' =
  if decide (s = s') then <[def_id (definition e) := e]> (local_entries rt s)
  else local_entries rt s'.
Proof.
  intros [sc Hsc]. unfold insert_entry, local_entries. rewrite Hsc. cbn.
  destruct (decide (s = s')) as [->|Hne]; [by rewrite lookup_insert_eq|by rewrite lookup_insert_ne].
Qed.
Lemma insert_entry_open rt s e s' : is_open (insert_entry s e rt) s' = is_open rt s'.
Proof.
  unfold insert_entry, is_open. destruct (scopes rt !! s) as [sc|] eqn:E; [|done]. cbn.
  destruct (decide (s = s')) as [->|Hne];
    [by rewrite lookup_insert_eq, E|by rewrite lookup_insert_ne].
Qed.
Lemma insert_entry_arena rt s e :
  is_Some (scopes rt !! s) -> arena (insert_entry s e rt) = <[entry_id e := e]> (arena rt).
Proof. intros [sc Hsc]. unfold insert_entry. by rewrite Hsc. Qed.
Lemma insert_entry_next rt s e :
  is_Some (scopes rt !! s) -> next_entry_id (insert_entry s e rt) = (entry_id e + 1)%N.
Proof. intros [sc Hsc]. unfold insert_entry. by rewrite Hsc. Qed.
Lemma insert_entry_scopes rt s e p sc' :
  scopes (insert_entry s e rt) !! p = Some sc' ->
  exists sc, scopes rt !! p = Some sc /\ children sc = children sc'.
Proof.
  unfold insert_entry. destruct (scopes rt !! s) as [sc|] eqn:E; [|by exists sc'].
  cbn. destruct (decide (s = p)) as [->|Hne].
  - rewrite lookup_insert_eq. intros [= <-]. by exists sc.
  - rewrite lookup_insert_ne by done. by exists sc'.
Qed.
Lemma insert_entry_scopes_back rt s e p sc :
  scopes rt !! p = Some sc ->
  exists sc', scopes (insert_entry s e rt) !! p = Some sc' /\ children sc' = children sc.
Proof.
  intros Hp. unfold insert_entry. destruct (scopes rt !! s) as [sc0|] eqn:E; [|by exists sc].
  cbn. destruct (decide (s = p)) as [->|Hne].
  - rewrite lookup_insert_eq. eexists; split; [done|]. cbn. congruence.
  - rewrite lookup_insert_ne by done. by exists sc.
Qed.

(** ** The invariant is preserved *)
Lemma scope_inv_start : scope_inv Runtime_start.
Proof.
  split; cbn; try done; try (intros *; unfold local_entries; cbn; rewrite ?lookup_empty; done).
Qed.
Lemma scope_inv_set_entries rt s es l :
  scope_inv rt -> is_Some (scopes rt !! s) -> es ⊆ local_entries rt s ->
  (l <> Open -> es = ∅ /\ forall n, is_open rt (n :: s) = false) ->
  (l = Open -> is_open rt s = true) -> scope_inv (set_entries s es l rt).
Proof.
  intros I Hs Hes Hclose Hopen.
  assert (Hsub : forall s' c e, local_entries (set_entries s es l rt) s' !! c = Some e ->
    local_entries rt s' !! c = Some e).
  { intros s' c e. rewrite set_entries_local by done. destruct (decide (s = s')) as [<-|]; [|done].
    intros He. by eapply lookup_weaken. }
  split; rewrite ?set_entries_arena, ?set_entries_next.
  - apply I.
  - intros s' c e He%Hsub. by apply (si_local _ I) in He.
  - apply I.
  - apply I.
  - intros s1 c1 s2 c2 e H1%Hsub H2%Hsub. by apply (si_once _ I s1 c1 s2 c2 e).
  - intros n p [sc' Hsc'] Hp. apply set_entries_scopes in Hsc' as (sc & Hsc & _).
    destruct (si_tree _ I n p) as (scp & Hscp & Hin); [by exists sc|done|].
    destruct (set_entries_scopes_back _ s es l _ _ Hscp) as (x & ? & Heq).
    exists x. split; [done|]. by rewrite Heq.
  - intros p sc' Hsc'. apply set_entries_scopes in Hsc' as (sc & Hsc & Heq).
    rewrite <- Heq. by apply (si_children _ I p).
  - destruct (scopes (set_entries s es l rt) !! []) as [sc'|] eqn:E; [|done].
    apply set_entries_scopes in E as (sc & Hsc & _). by rewrite (si_nil _ I) in Hsc.
  - intros s'. rewrite set_entries_local, set_entries_open by done.
    destruct (decide (s = s')) as [<-|]; [|apply I].
    intros Hl%bool_decide_eq_false. by destruct (Hclose Hl).
  - intros n p. rewrite !set_entries_open by done. intros Ho Hp.
    assert (Ho' : is_open rt (n :: p) = true).
    { destruct (decide (s = n :: p)) as [->|]; [|done].
      apply Hopen. by apply bool_decide_eq_true in Ho. }
    destruct (decide (s = p)) as [->|]; [|by apply (si_open _ I n)].
    apply bool_decide_eq_true. destruct (decide (l = Open)) as [|Hl]; [done|].
    destruct (Hclose Hl) as [_ Hn]. by rewrite Hn in Ho'.
Qed.

Lemma scope_inv_set_scope rt s sc :
  scope_inv rt -> entries sc = local_entries rt s -> s <> [] ->
  is_Some (scopes rt !! s) \/ (forall n p, s = n :: p -> p <> [] ->
    exists scp, scopes rt !! p = Some scp /\ n ∈ children scp) ->
  (forall scs n, scopes rt !! s = Some scs -> n ∈ children scs -> n ∈ children sc) ->
  children sc = seq 0 (length (children sc)) ->
  (lifecycle sc <> Open -> is_open rt s = false) ->
  (lifecycle sc = Open -> is_open rt s = true \/
     scopes rt !! s = None /\ forall n p, s = n :: p -> p <> [] -> is_open rt p = true) ->
  scope_inv (set_scope s sc rt).
Proof.
  intros I Hes Hs Htree Hch Hlen Hclose Hopen.
  assert (Hloc : forall s', local_entries (set_scope s sc rt) s' = local_entries rt s').
  { intros s'. rewrite local_entries_set_scope. by destruct (decide (s = s')) as [<-|]. }
  assert (Hback : forall p scp, scopes rt !! p = Some scp ->
    exists scp', scopes (set_scope s sc rt) !! p = Some scp' /\
      forall n, n ∈ children scp -> n ∈ children scp').
  { intros p scp Hp. cbn. destruct (decide (s = p)) as [<-|Hne].
    - rewrite lookup_insert_eq. exists sc. split; [done|]. intros n. by apply Hch.
    - rewrite lookup_insert_ne by done. by exists scp. }
  split; try apply I.
  - intros s' c e. rewrite Hloc. apply I.
  - intros s1 c1 s2 c2 e. rewrite !Hloc. apply I.
  - intros n p Hnp Hp.
    assert (Hpar : exists scp, scopes rt !! p = Some scp /\ n ∈ children scp).
    { cbn in Hnp. destruct (decide (s = n :: p)) as [->|Hne].
      - destruct Htree as [Ht|Ht]; [by apply (si_tree _ I)|by apply (Ht n p)].
      - rewrite lookup_insert_ne in Hnp by done. by apply (si_tree _ I). }
    destruct Hpar as (scp & Hscp & Hin). destruct (Hback _ _ Hscp) as (x & ? & Hx).
    exists x. split; [done|]. by apply Hx.
  - intros p sc'. cbn. destruct (decide (s = p)) as [<-|Hne].
    + rewrite lookup_insert_eq. intros [= <-]. apply Hlen.
    + rewrite lookup_insert_ne by done. apply I.
  - cbn. rewrite lookup_insert_ne by done. apply I.
  - intros s'. rewrite Hloc, is_open_set_scope. destruct (decide (s = s')) as [<-|]; [|apply I].
    intros Hl%bool_decide_eq_false. by apply (si_closed _ I), Hclose.
  - intros n p. rewrite !is_open_set_scope. intros Ho Hp.
    assert (Hp' : is_open rt p = true).
    { destruct (decide (s = n :: p)) as [->|]; [|by apply (si_open _ I n)].
      apply bool_decide_eq_true in Ho. destruct (Hopen Ho) as [Ho'|[_ Ho']];
        [by apply (si_open _ I n)|by apply (Ho' n p)]. }
    destruct (decide (s = p)) as [->|]; [|done].
    apply bool_decide_eq_true. destruct (decide (lifecycle sc = Open)) as [|Hl]; [done|].
    by rewrite (Hclose Hl) in Hp'.
Qed.
Lemma not_open_absent rt s : scopes rt !! s = None -> is_open rt s = false.
Proof. unfold is_open. by intros ->. Qed.
Lemma scope_inv_root rt n : scope_inv rt -> scopes rt !! [n] = None -> scope_inv (root rt n).
Proof.
  intros I Hn. unfold root. apply scope_inv_set_scope; cbn; try done.
  - by rewrite local_entries_absent.
  - right. intros m p Hmp Hp. by injection Hmp as -> <-.
  - intros scs m Hscs. by rewrite Hn in Hscs.
  - intros _. right. split; [done|]. intros m p Hmp Hp. by injection Hmp as -> <-.
Qed.
Lemma child_absent rt s sc :
  scope_inv rt -> scopes rt !! s = Some sc -> scopes rt !! (length (children sc) :: s) = None.
Proof.
  intros I Hsc. destruct (scopes rt !! (length (children sc) :: s)) as [x|] eqn:E; [|done].
  assert (Hs : s <> []) by (intros ->; by rewrite (si_nil _ I) in Hsc).
  destruct (si_tree _ I (length (children sc)) s) as (sc' & Hsc' & Hin); [by exists x|done|].
  rewrite Hsc in Hsc'. injection Hsc' as <-. pose proof (si_children_lt _ _ _ _ I Hsc Hin). lia.
Qed.
(** The parent records the index of the child first. *)
Lemma scope_inv_adopt rt s sc :
  scope_inv rt -> scopes rt !! s = Some sc ->
  scope_inv (set_scope s {| entries := entries sc; lifecycle := lifecycle sc;
                            children := children sc ++ [length (children sc)] |} rt).
Proof.
  intros I Hsc. assert (Hs : s <> []) by (intros ->; by rewrite (si_nil _ I) in Hsc).
  assert (Hopen : is_open rt s = bool_decide (lifecycle sc = Open)) by (unfold is_open; by rewrite Hsc).
  apply scope_inv_set_scope; try done.
  - unfold local_entries. by rewrite Hsc.
  - left. by exists sc.
  - intros scs n Hscs Hn. rewrite Hsc in Hscs. injection Hscs as <-.
    apply elem_of_app. by left.
  - cbn. rewrite length_app, Nat.add_1_r, seq_S. f_equal. by apply (si_children _ I s).
  - intros Hl. rewrite Hopen. by apply bool_decide_eq_false.
  - intros Hl. left. rewrite Hopen. by apply bool_decide_eq_true.
Qed.
Lemma scope_inv_child rt s : scope_inv rt -> scope_inv (child rt s).
Proof.
  intros I. unfold child. destruct (scopes rt !! s) as [sc|] eqn:Hsc; [|done].
  pose proof (child_absent rt s sc I Hsc) as Hfresh. pose proof (scope_inv_adopt rt s sc I Hsc) as I1.
  set (sc1 := {| entries := entries sc; lifecycle := lifecycle sc;
                 children := children sc ++ [length (children sc)] |}) in *.
  assert (Hopen : is_open rt s = bool_decide (lifecycle sc = Open)) by (unfold is_open; by rewrite Hsc).
  assert (Hnew : scopes (set_scope s sc1 rt) !! (length (children sc) :: s) = None).
  { cbn. rewrite lookup_insert_ne; [done|]. intros Heq. apply (f_equal length) in Heq. simpl in Heq. lia. }
  apply scope_inv_set_scope; try done.
  - by rewrite local_entries_absent.
  - right. intros n p Hnp Hp. injection Hnp as <- <-. exists sc1. split.
    + cbn. by rewrite lookup_insert_eq.
    + cbn. apply elem_of_app. right. by apply list_elem_of_singleton.
  - intros scs n Hscs. by rewrite Hnew in Hscs.
  - intros _. by apply not_open_absent.
  - cbn. intros Hl. right. split; [done|]. intros n p Hnp Hp. injection Hnp as <- <-.
    rewrite is_open_set_scope, decide_True by done. destruct (is_open rt s); [|done]. exact (eq_sym Hopen).
Qed.
Lemma scope_inv_drop rt s : scope_inv rt -> scope_inv (drop_scope rt s).
Proof.
  intros I. unfold drop_scope. case_bool_decide as Hex; [done|].
  set (rt' := {| scopes := delete s (scopes rt); arena := arena rt;
                 next_entry_id := next_entry_id rt |}).
  assert (Hloc : forall s', local_entries rt' s' = if decide (s = s') then ∅ else local_entries rt s').
  { intros s'. unfold local_entries. cbn. destruct (decide (s = s')) as [<-|Hne];
      [by rewrite lookup_delete_eq|by rewrite lookup_delete_ne]. }
  assert (Hopen : forall s', is_open rt' s' = if decide (s = s') then false else is_open rt s').
  { intros s'. unfold is_open. cbn. destruct (decide (s = s')) as [<-|Hne];
      [by rewrite lookup_delete_eq|by rewrite lookup_delete_ne]. }
  assert (Hnochild : forall n, scopes rt !! (n :: s) = None).
  { intros n. destruct (scopes rt !! (n :: s)) eqn:E; [|done]. exfalso. apply Hex.
    exists (n :: s). split; [by apply elem_of_dom|done]. }
  assert (Hsub : forall s' c e, local_entries rt' s' !! c = Some e -> local_entries rt s' !! c = Some e).
  { intros s' c e. rewrite Hloc. destruct (decide (s = s')); [|done]. by rewrite lookup_empty. }
  split; try apply I.
  - intros s' c e He%Hsub. by apply (si_local _ I) in He.
  - intros s1 c1 s2 c2 e H1%Hsub H2%Hsub. by apply (si_once _ I s1 c1 s2 c2 e).
  - intros n p [sc' Hsc'] Hp. cbn in Hsc'. apply lookup_delete_Some in Hsc' as [Hne Hsc'].
    destruct (si_tree _ I n p) as (scp & Hscp & Hin); [by exists sc'|done|].
    exists scp. split; [|done]. cbn. rewrite lookup_delete_ne; [done|].
    intros ->. by rewrite Hnochild in Hsc'.
  - intros p sc Hsc. cbn in Hsc. apply lookup_delete_Some in Hsc as [_ Hsc].
    by apply (si_children _ I p).
  - cbn. apply lookup_delete_None. right. apply I.
  - intros s'. rewrite Hloc, Hopen. destruct (decide (s = s')); [done|apply I].
  - intros n p. rewrite !Hopen. destruct (decide (s = n :: p)); [done|]. intros Ho Hp.
    destruct (decide (s = p)) as [->|]; [|by apply (si_open _ I n)].
    apply is_open_exists in Ho. rewrite Hnochild in Ho. by destruct Ho.
Qed.

(** *** Publication *)
Lemma scope_inv_insert rt s e :
  scope_inv rt -> is_Some (scopes rt !! s) -> is_open rt s = true ->
  entry_id e = next_entry_id rt -> dom (dependencies e) = def_dependencies (definition e) ->
  (forall c h, dependencies e !! c = Some h ->
     exists e', arena rt !! h = Some e' /\ handle_id e' = c) ->
  scope_inv (insert_entry s e rt).
Proof.
  intros I Hs Ho Hid Hdom Hpins.
  assert (Hfresh : arena rt !! entry_id e = None).
  { destruct (arena rt !! entry_id e) eqn:E; [|done]. apply (si_arena _ I) in E as [_ E].
    rewrite Hid in E. lia. }
  assert (Hnl : forall s' c, local_entries rt s' !! c <> Some e).
  { intros s' c He. apply (si_local _ I) in He as [_ He]. by rewrite Hfresh in He. }
  assert (Hloc : forall s' c x, local_entries (insert_entry s e rt) s' !! c = Some x ->
    (s = s' /\ def_id (definition e) = c /\ x = e) \/
    local_entries rt s' !! c = Some x).
  { intros s' c x. rewrite insert_entry_local by done. destruct (decide (s = s')) as [<-|]; [|by right].
    rewrite lookup_insert_Some. intros [[? ?]|[_ ?]]; [left|right]; done. }
  split; rewrite ?insert_entry_arena, ?insert_entry_next by done.
  - intros k x [[<- <-]|[_ Hx]]%lookup_insert_Some; [split; [done|lia]|].
    apply (si_arena _ I) in Hx as [? ?]. split; [done|lia].
  - intros s' c x [(_ & <- & ->)|Hx]%Hloc; [by rewrite lookup_insert_eq|].
    apply (si_local _ I) in Hx as [? Hx]. split; [done|].
    rewrite lookup_insert_ne; [done|]. intros Heq. by rewrite <- Heq, Hfresh in Hx.
  - intros k x c h Hk Hh.
    assert (Hold : exists e', arena rt !! h = Some e' /\ handle_id e' = c /\ (h < k)%N).
    { apply lookup_insert_Some in Hk as [[<- <-]|[_ Hk]]; [|by apply (si_pins _ I k x)].
      destruct (Hpins _ _ Hh) as (e' & He' & Hc). exists e'. split_and!; try done.
      apply (si_arena _ I) in He' as [_ He']. lia. }
    destruct Hold as (e' & He' & Hc & Hlt). exists e'. split_and!; try done.
    rewrite lookup_insert_ne; [done|]. intros <-.
    pose proof (eq_trans (eq_sym Hfresh) He'). done.
  - intros k x [[_ <-]|[_ Hx]]%lookup_insert_Some; [done|by apply (si_pins_dom _ I k)].
  - intros s1 c1 s2 c2 x [(<- & <- & ->)|H1]%Hloc [(<- & <- & Hx)|H2]%Hloc; try done.
    + by apply Hnl in H2.
    + subst x. by apply Hnl in H1.
    + by apply (si_once _ I s1 c1 s2 c2 x).
  - intros n p [sc' Hsc'] Hp. apply insert_entry_scopes in Hsc' as (sc & Hsc & _).
    destruct (si_tree _ I n p) as (scp & Hscp & Hin); [by exists sc|done|].
    destruct (insert_entry_scopes_back _ s e _ _ Hscp) as (x & ? & Heq).
    exists x. split; [done|]. by rewrite Heq.
  - intros p sc' Hsc'. apply insert_entry_scopes in Hsc' as (sc & Hsc & Heq).
    rewrite <- Heq. by apply (si_children _ I p).
  - destruct (scopes (insert_entry s e rt) !! []) as [sc'|] eqn:E; [|done].
    apply insert_entry_scopes in E as (sc & Hsc & _). by rewrite (si_nil _ I) in Hsc.
  - intros s'. rewrite insert_entry_open, insert_entry_local by done.
    destruct (decide (s = s')) as [<-|]; [by rewrite Ho|apply I].
  - intros n p. rewrite !insert_entry_open. apply I.
Qed.

Lemma publish_preconstructed_cases rt s d x snap v :
  (exists e, publish_preconstructed rt s d x snap v = (insert_entry s e rt, Ok e) /\
     prepare_publication rt s d x snap v = Ok e) \/
  ((publish_preconstructed rt s d x snap v).1 = rt /\
   forall e, (publish_preconstructed rt s d x snap v).2 <> Ok e).
Proof.
  unfold publish_preconstructed. destruct (prepare_publication _ _ _ _ _ _) as [e|e| |];
    [left; by exists e|right; split; [done|by intros ?]..].
Qed.
Lemma scope_inv_publish rt s d x snap v :
  scope_inv rt -> snapshot_ok rt d snap ->
  scope_inv (publish_preconstructed rt s d x snap v).1 /\
  arena rt ⊆ arena (publish_preconstructed rt s d x snap v).1.
Proof.
  intros I Hsnap.
  destruct (publish_preconstructed_cases rt s d x snap v) as [(e & -> & He)|[-> _]]; [|done].
  apply prepare_publication_Ok in He as (_ & _ & Ho & _ & _ & _ & ->); [|done|done].
  pose proof (is_open_exists _ _ Ho) as Hs. destruct Hsnap as [Hdom Hsnap].
  cbn [fst]. split.
  - apply scope_inv_insert; cbn; try done.
    + rewrite <- Hdom. apply dom_fmap_L.
    + intros c h Hh. rewrite lookup_fmap in Hh.
      destruct (snap !! c) as [y|] eqn:Ey; [|done]. injection Hh as <-.
      apply Hsnap in Ey as [? ?]. by exists y.
  - rewrite insert_entry_arena by done. apply insert_subseteq. cbn.
    destruct (arena rt !! next_entry_id rt) eqn:E; [|done].
    apply (si_arena _ I) in E as [_ E]. lia.
Qed.

(** *** Withdrawal *)
Lemma withdraw_cases rt s c g :
  match (withdraw rt s c g).2 with
  | Ok e => is_open rt s = true /\ local_entries rt s !! c = Some e /\ generation e = g /\
      (withdraw rt s c g).1 = set_entries s (delete c (local_entries rt s)) Open rt
  | Err x => (withdraw rt s c g).1 = rt /\
      (x = ScopeClosed /\ is_open rt s = false \/
       x = NoLocalEntry c /\ local_entries rt s !! c = None \/
       exists e, x = ReplacementConflict c g (generation e) /\
         local_entries rt s !! c = Some e /\ generation e <> g)
  | _ => False
  end.
Proof.
  unfold withdraw. destruct (is_open rt s); cbn; [|by auto].
  destruct (local_entries rt s !! c) as [e|] eqn:Ec; cbn; [|by auto].
  destruct (N.eqb_spec (generation e) g); cbn; [done|]. split; [done|]. right. right. by exists e.
Qed.
Lemma scope_inv_withdraw rt s c g :
  scope_inv rt -> scope_inv (withdraw rt s c g).1 /\ arena (withdraw rt s c g).1 = arena rt.
Proof.
  intros I. pose proof (withdraw_cases rt s c g) as Hc.
  destruct (withdraw rt s c g) as [rt' [e|x| |]]; cbn in Hc |- *; try done.
  - destruct Hc as (Ho & _ & _ & ->). rewrite set_entries_arena. split; [|done].
    apply scope_inv_set_entries; try done; [by apply is_open_exists|].
    apply delete_subseteq.
  - by destruct Hc as [-> _].
Qed.

(** *** Teardown: descendants first *)

(** No scope of the list comes before a live child of it. *)
Fixpoint child_first (rt : Runtime) (seen l : list ScopeId) : Prop :=
  match l with
  | [] => True
  | x :: l => (forall n, is_Some (scopes rt !! (n :: x)) -> (n :: x) ∈ seen) /\
      child_first rt (x :: seen) l
  end.
Lemma child_first_mono rt rt' seen seen' l :
  (forall y, is_Some (scopes rt' !! y) -> is_Some (scopes rt !! y)) ->
  (forall y, y ∈ seen -> y ∈ seen') -> child_first rt seen l -> child_first rt' seen' l.
Proof.
  intros Hs. revert seen seen'. induction l as [|x l IH]; intros seen seen' Hsub; [done|].
  intros [Hx Hl]. split; [auto|]. apply (IH (x :: seen)); [|done].
  intros y. rewrite !elem_of_cons. naive_solver.
Qed.
Lemma child_first_app rt seen l1 l2 :
  child_first rt seen (l1 ++ l2) <-> child_first rt seen l1 /\ child_first rt (reverse l1 ++ seen) l2.
Proof.
  revert seen. induction l1 as [|x l1 IH]; intros seen; cbn [app child_first]; [naive_solver|].
  rewrite IH, reverse_cons, <- (assoc_L (++)). cbn [app]. naive_solver.
Qed.
(** [tree_bound rt s fuel]: the paths below [s] are not longer than [fuel]. *)
Definition tree_bound (rt : Runtime) (s : ScopeId) (fuel : nat) : Prop :=
  forall l, is_Some (scopes rt !! (l ++ s)) -> length l <= fuel.
Lemma tree_bound_fuel rt s : scope_inv rt -> tree_bound rt s (tree_fuel rt).
Proof. intros I l Hl. pose proof (suffixes_size _ _ I Hl) as H. rewrite length_app in H. lia. Qed.
Lemma tree_bound_child rt s fuel n : tree_bound rt s (S fuel) -> tree_bound rt (n :: s) fuel.
Proof.
  intros Hb l Hl. specialize (Hb (l ++ [n])). rewrite <- (assoc_L (++)) in Hb.
  specialize (Hb Hl). rewrite length_app in Hb. simpl in Hb. lia.
Qed.

Lemma elem_of_descendants fuel rt s x :
  x ∈ descendants_child_first fuel rt s <-> x ∈ live_descendants fuel rt s.
Proof.
  revert s. induction fuel as [|fuel IH]; intros s; [done|]. cbn.
  destruct (scopes rt !! s) as [sc|]; [|done]. rewrite !list_elem_of_bind.
  apply exist_proper. intros n. rewrite elem_of_app, !elem_of_cons, IH, elem_of_nil. tauto.
Qed.
Lemma descendants_child_first_ok fuel rt s :
  scope_inv rt -> tree_bound rt s fuel ->
  child_first rt [] (descendants_child_first fuel rt s) /\
  forall n, is_Some (scopes rt !! (n :: s)) -> s <> [] -> (n :: s) ∈ descendants_child_first fuel rt s.
Proof.
  intros I. revert s. induction fuel as [|fuel IH]; intros s Hb.
  { split; [done|]. intros n Hn _. pose proof (Hb [n] Hn) as Hl. simpl in Hl. lia. }
  cbn [descendants_child_first]. destruct (scopes rt !! s) as [sc|] eqn:Hsc.
  2:{ split; [done|]. intros n Hn Hs. destruct (si_tree _ I n s Hn Hs) as (sc & ? & _). congruence. }
  split.
  - generalize (filter (fun n => is_Some (scopes rt !! (n :: s))) (children sc)). intros ns.
    assert (Hns : forall seen, child_first rt seen
      (ns ≫= fun n => descendants_child_first fuel rt (n :: s) ++ [n :: s])); [|apply Hns].
    induction ns as [|n ns IHn]; intros seen; [done|].
    rewrite bind_cons, <- (assoc_L (++)), !child_first_app.
    destruct (IH (n :: s)) as [Hc Hin]; [by apply tree_bound_child|]. split_and!.
    + apply (child_first_mono rt rt []); [done|by intros y ?%elem_of_nil|done].
    + split; [|done]. intros m Hm. apply elem_of_app. left.
      rewrite elem_of_reverse. by apply Hin.
    + apply IHn.
  - intros n Hn Hs. rewrite list_elem_of_bind. exists n. split.
    + apply elem_of_app. right. by apply list_elem_of_singleton.
    + apply list_elem_of_filter. split; [done|].
      destruct (si_tree _ I n s Hn Hs) as (sc' & ? & ?). congruence.
Qed.
Definition teardown_scope_list (rt : Runtime) (s : ScopeId) : list ScopeId :=
  descendants_child_first (tree_fuel rt) rt s ++ [s].
Lemma teardown_scope_list_ok rt s :
  scope_inv rt -> s <> [] -> child_first rt [] (teardown_scope_list rt s).
Proof.
  intros I Hs. destruct (descendants_child_first_ok (tree_fuel rt) rt s I) as [Hc Hin];
    [by apply tree_bound_fuel|].
  apply child_first_app. split; [done|]. split; [|done]. intros n Hn.
  rewrite app_nil_r, elem_of_reverse. auto.
Qed.

(** What the loop leaves behind, however it ends. *)
Record torn_down (rt rt' : Runtime) (ss : list ScopeId) : Prop := {
  td_arena : arena rt' = arena rt;
  td_next : next_entry_id rt' = next_entry_id rt;
  td_open x : is_open rt' x = true ->
    is_open rt x = true /\ local_entries rt' x = local_entries rt x;
  td_other x : x ∉ ss -> scopes rt' !! x = scopes rt !! x;
  td_dom x : is_Some (scopes rt' !! x) <-> is_Some (scopes rt !! x)
}.
Lemma torn_down_refl rt ss : torn_down rt rt ss.
Proof. by split. Qed.
Lemma torn_down_set_entries rt s l ss :
  is_Some (scopes rt !! s) -> l <> Open -> s ∈ ss -> torn_down rt (set_entries s ∅ l rt) ss.
Proof.
  intros Hs Hl Hin. split.
  - apply set_entries_arena.
  - apply set_entries_next.
  - intros x. rewrite set_entries_open, set_entries_local by done.
    destruct (decide (s = x)); [|done]. by intros ?%bool_decide_eq_true.
  - intros x Hx. destruct Hs as [sc Hsc]. unfold set_entries. rewrite Hsc. cbn.
    apply lookup_insert_ne. by intros ->.
  - intros x. split.
    + intros [y Hy]. apply set_entries_scopes in Hy as (sc & ? & _). by exists sc.
    + intros [y Hy]. apply (set_entries_scopes_back rt s ∅ l) in Hy as (sc & ? & _). by exists sc.
Qed.
Lemma torn_down_trans rt1 rt2 rt3 ss :
  torn_down rt1 rt2 ss -> torn_down rt2 rt3 ss -> torn_down rt1 rt3 ss.
Proof.
  intros [A1 N1 O1 X1 D1] [A2 N2 O2 X2 D2]. split; try congruence.
  - intros x [H2 ->]%O2. by apply O1.
  - intros x Hx. by rewrite X2, X1.
  - intros x. by rewrite D2.
Qed.
Lemma torn_down_mono rt rt' ss ss' :
  (forall x, x ∈ ss -> x ∈ ss') -> torn_down rt rt' ss -> torn_down rt rt' ss'.
Proof. intros Hs [A N O X D]. split; try done. intros x Hx. apply X. auto. Qed.

(** Emptying and closing the head of a child-first list. *)
Lemma close_scope rt s ss seen l :
  scope_inv rt -> child_first rt seen (s :: ss) -> (forall x, x ∈ seen -> is_open rt x = false) ->
  is_Some (scopes rt !! s) -> l <> Open ->
  let rt1 := set_entries s ∅ l rt in
  scope_inv rt1 /\ child_first rt1 (s :: seen) ss /\
  (forall x, x ∈ s :: seen -> is_open rt1 x = false) /\ torn_down rt rt1 [s].
Proof.
  intros I [Hs Hc] Hseen Hex Hl rt1.
  assert (T : torn_down rt rt1 [s]) by (apply torn_down_set_entries; [done|done|left]).
  split_and!; [| | |done].
  - apply scope_inv_set_entries; try done; [apply map_empty_subseteq|].
    intros _. split; [done|]. intros n. destruct (is_open rt (n :: s)) eqn:En; [|done].
    rewrite (Hseen (n :: s)) in En; [done|]. by apply Hs, is_open_exists.
  - eapply child_first_mono; [|done|exact Hc]. intros y. apply (td_dom _ _ _ T).
  - intros x Hx. unfold rt1. rewrite set_entries_open by done.
    destruct (decide (s = x)) as [|Hne]; [by apply bool_decide_eq_false|].
    apply elem_of_cons in Hx as [->|Hx]; [done|auto].
Qed.
Lemma teardown_scopes_ok ss rt seen plans :
  scope_inv rt -> child_first rt seen ss -> (forall x, x ∈ seen -> is_open rt x = false) ->
  scope_inv (teardown_scopes rt ss plans).1 /\
  torn_down rt (teardown_scopes rt ss plans).1 ss.
Proof.
  revert rt seen plans. induction ss as [|s ss IH]; intros rt seen plans I Hc Hseen.
  { split; [done|apply torn_down_refl]. }
  cbn [teardown_scopes]. destruct (is_open rt s) eqn:Ho; cbn [negb].
  - pose proof (close_scope rt s ss seen) as Hclose.
    assert (Hhead : forall x, x ∈ [s] -> x ∈ s :: ss)
      by (intros x ->%list_elem_of_singleton; left).
    destruct (runtime_teardown_order _ _) as [order|[]| |];
      [destruct (Hclose Closed I Hc Hseen (is_open_exists _ _ Ho)) as (I1 & Hc1 & Hs1 & T1)
      |destruct (Hclose Closing I Hc Hseen (is_open_exists _ _ Ho)) as (I1 & _ & _ & T1)..];
      try done; [|by split; [|eapply torn_down_mono; [|exact T1]]..].
    destruct (IH _ _ (plans ++ [{| plan_entries := local_entries rt s; plan_order := order |}])
      I1 Hc1 Hs1) as [I2 T2].
    split; [done|]. eapply torn_down_trans; [by eapply torn_down_mono|].
    eapply torn_down_mono; [|exact T2]. intros x Hx. by right.
  - destruct Hc as [_ Hc]. destruct (IH rt (s :: seen) plans) as [I1 T1]; try done.
    + intros x [->|Hx]%elem_of_cons; auto.
    + split; [done|]. eapply torn_down_mono; [|exact T1]. intros x Hx. by right.
Qed.
Lemma teardown_state rt s : (teardown rt s).1 = (teardown_scopes rt (teardown_scope_list rt s) []).1.
Proof. unfold teardown, teardown_scope_list. by destruct (teardown_scopes _ _ _). Qed.
Lemma teardown_nil rt : scope_inv rt -> teardown_scopes rt (teardown_scope_list rt []) [] = (rt, Ok []).
Proof.
  intros I. pose proof (si_nil _ I) as Hnil.
  assert (Hd : descendants_child_first (tree_fuel rt) rt [] = []).
  { destruct (tree_fuel rt); [done|]. cbn. by rewrite Hnil. }
  unfold teardown_scope_list. rewrite Hd. cbn. by rewrite not_open_absent.
Qed.
Lemma teardown_ok rt s :
  scope_inv rt ->
  scope_inv (teardown rt s).1 /\ torn_down rt (teardown rt s).1 (teardown_scope_list rt s).
Proof.
  intros I. rewrite teardown_state. destruct s as [|n p].
  - rewrite teardown_nil by done. split; [done|apply torn_down_refl].
  - apply teardown_scopes_ok with (seen := []); [done| |by intros x ?%elem_of_nil].
    by apply teardown_scope_list_ok.
Qed.

(** ** Reachable systems *)
Definition system_inv (y : system) : Prop :=
  scope_inv (sys_rt y) /\
  forall i, i ∈ sys_pending y -> snapshot_ok (sys_rt y) (in_def i) (in_snapshot i).
Lemma snapshot_ok_mono rt rt' d snap :
  arena rt ⊆ arena rt' -> snapshot_ok rt d snap -> snapshot_ok rt' d snap.
Proof.
  intros Hs [Hd Hsn]. split; [done|]. intros c h [? Hh]%Hsn. split; [done|].
  by eapply lookup_weaken.
Qed.
Lemma publish_plan_Ok rt s d x snap :
  publish_plan rt s d x = Ok snap ->
  check_expectation_locked rt s (def_id d) x (local_entries rt s) = Ok tt /\
  is_Ok (validate_candidate (visible_graph rt s) d) /\ resolve_dependencies rt s d = Ok snap.
Proof.
  intros ([] & Hx & Hr)%bind_Ok. apply bind_Ok in Hr as (v & Hv & Hr). split_and!; try done.
  destruct (validate_candidate _ _) as [w| | |]; try done. by exists w.
Qed.
Lemma scope_step_inv w y y' : system_inv y -> scope_step w y y' -> system_inv y'.
Proof.
  intros [I Hp] Hstep.
  assert (Hmono : forall rt' ps', scope_inv rt' -> arena (sys_rt y) ⊆ arena rt' ->
    (forall i, i ∈ ps' -> i ∈ sys_pending y) -> system_inv {| sys_rt := rt'; sys_pending := ps' |}).
  { intros rt' ps' I' Ha Hps. split; [done|]. intros i Hi. eapply snapshot_ok_mono; eauto. }
  assert (Hmid : forall ps1 (i : inflight) ps2 x, x ∈ ps1 ++ ps2 -> x ∈ ps1 ++ i :: ps2).
  { intros ps1 i ps2 x. rewrite !elem_of_app, elem_of_cons. tauto. }
  destruct Hstep; cbn [sys_rt sys_pending] in *.
  - apply Hmono; [by apply scope_inv_root|done|done].
  - apply Hmono; [by apply scope_inv_child| |done]. unfold child. by destruct (scopes rt !! s).
  - apply Hmono; [by apply scope_inv_drop| |done]. unfold drop_scope. by case_bool_decide.
  - split; [done|]. cbn. intros i [Hi|Hi%list_elem_of_singleton]%elem_of_app; [auto|]. subst i. cbn.
    apply publish_plan_Ok in H as (_ & _ & H). by apply (resolve_dependencies_ok _ s).
  - destruct (scope_inv_publish rt (in_scope i) (in_def i) (in_expectation i) (in_snapshot i) v I)
      as [I' Ha]; [apply Hp, elem_of_app; right; left|]. apply Hmono; [done|done|apply Hmid].
  - apply Hmono; [done|done|apply Hmid].
  - destruct (scope_inv_withdraw rt s c g I) as [I' Ha]. apply Hmono; [done|by rewrite Ha|done].
  - destruct (teardown_ok rt s I) as [I' T]. apply Hmono; [done|by rewrite (td_arena _ _ _ T)|done].
Qed.
Lemma system_inv_reachable w y : scope_reachable w y -> system_inv y.
Proof.
  apply rtc_invariant; [|intros a b _; apply scope_step_inv].
  split; [apply scope_inv_start|]. intros i Hi. by apply elem_of_nil in Hi.
Qed.
