(* ===== verification/Admission.v ===== *)
(** * Publication and admission in the scope tree

    What a publication that ran beside other threads publishes, and why the
    graph that every open scope sees stays resolvable. *)
From S2P Require Export ScopeSafety.
#[local] Open Scope string_scope.
#[local] Open Scope nat_scope.
#[local] Open Scope list_scope.

(** ** Publication always answers *)
Lemma resolve_returns g : returns (resolve g).
Proof. pose proof (resolve_cases g). by destruct (resolve g). Qed.
Lemma validate_candidate_returns g d : returns (map_err ScopeError_from (validate_candidate g d)).
Proof.
  unfold validate_candidate. pose proof (resolve_returns (graph_insert g d).1) as Hr.
  by destruct (resolve _).
Qed.
Lemma validate_descendants_returns rt s d xs : returns (validate_descendants rt s d xs).
Proof.
  induction xs as [|x xs IH]; [done|]. cbn [validate_descendants]. destruct (_ || _); [done|].
  apply returns_bind; [apply validate_candidate_returns|done].
Qed.
Lemma check_expectation_returns rt s c x es : returns (check_expectation_locked rt s c x es).
Proof.
  unfold check_expectation_locked. destruct (is_open rt s); cbn; [|done].
  destruct x, (es !! c); try done. by destruct (negb _).
Qed.
Lemma resolve_dependencies_returns rt s d : returns (resolve_dependencies rt s d).
Proof. pose proof (resolve_dependencies_spec rt s d). by destruct (resolve_dependencies rt s d). Qed.
Lemma check_current_cases snap cur c d :
  is_Some (snap !! d) -> is_Some (cur !! d) ->
  check_current snap cur c d = Ok tt \/ check_current snap cur c d = Err (DependencyChanged c d).
Proof.
  intros [h Hh] [h' Hh']. unfold check_current. rewrite Hh, Hh'. cbn.
  destruct (_ || _); auto.
Qed.
Lemma check_all_cases snap cur c ds :
  (forall d, d ∈ ds -> is_Some (snap !! d) /\ is_Some (cur !! d)) ->
  foldM (fun _ d => check_current snap cur c d) ds tt = Ok tt \/
  exists d, foldM (fun _ d => check_current snap cur c d) ds tt = Err (DependencyChanged c d).
Proof.
  induction ds as [|d ds IH]; intros Hd; [by left|]. cbn [foldM].
  destruct (Hd d) as [H1 H2]; [left|].
  destruct (check_current_cases snap cur c d H1 H2) as [->| ->]; cbn [mbind result_bind].
  - apply IH. intros x Hx. apply Hd. by right.
  - right. by exists d.
Qed.

Lemma in_domain {A} (m : gmap CapabilityId A) (X : gset CapabilityId) c :
  dom m = X -> c ∈ X -> is_Some (m !! c).
Proof. intros <-. by rewrite elem_of_dom. Qed.

(** The two ways the first part of the second section goes. *)
Lemma stale_or_current rt s d snap :
  scope_inv rt -> snapshot_ok rt d snap ->
  resolve_dependencies rt s d = Ok snap \/
  (exists c, forall x v, prepare_publication rt s d x snap v = Err (MissingDependency (def_id d) c)) \/
  (exists c, forall x v, prepare_publication rt s d x snap v = Err (DependencyChanged (def_id d) c)).
Proof.
  intros I Hok. pose proof (resolve_dependencies_spec rt s d) as Hs.
  destruct (resolve_dependencies rt s d) as [cur|e| |] eqn:E; try done.
  2:{ right. left. destruct Hs as (c & -> & _). exists c. intros x v.
      unfold prepare_publication. by rewrite E. }
  destruct Hs as [Hcd Hs].
  destruct (check_all_cases snap cur (def_id d) (set_iter (def_dependencies d))) as [Hc|[c Hc]].
  { intros y Hy%elem_of_set_iter. split; [exact (in_domain _ _ _ (proj1 Hok) Hy)|].
    exact (in_domain _ _ _ Hcd Hy). }
  - left. f_equal. apply map_eq. intros c. destruct (decide (c ∈ def_dependencies d)) as [Hin|Hin].
    + pose proof (proj1 (foldM_checks _ _) Hc c (proj2 (elem_of_set_iter _ _) Hin)) as Hcc.
      apply check_current_Ok in Hcc as (h & h' & Hh & Hh' & _ & Hid).
      pose proof (proj2 Hok _ _ Hh) as [_ Ha]. apply Hs in Hh' as Hg.
      destruct Hg as [_ Hg%get_arena]; [|done]. destruct Hg as [_ Ha']. rewrite Hid in Ha'. congruence.
    + by rewrite (not_in_domain cur _ c Hcd Hin), (not_in_domain snap _ c (proj1 Hok) Hin).
  - right. right. exists c. intros x v. unfold prepare_publication. rewrite E.
    cbn [mbind result_bind]. by rewrite Hc.
Qed.
Lemma prepare_publication_returns rt s d x snap v :
  scope_inv rt -> snapshot_ok rt d snap -> (next_entry_id rt < u64_max)%N ->
  returns (prepare_publication rt s d x snap v).
Proof.
  intros I Hok Hn. destruct (stale_or_current rt s d snap I Hok) as [Hc|[[c Hc]|[c Hc]]];
    [|by rewrite Hc..].
  unfold prepare_publication. rewrite Hc. cbn [mbind result_bind].
  rewrite (proj2 (foldM_checks _ _)).
  2:{ intros y Hy%elem_of_set_iter. apply check_current_Ok.
      destruct (in_domain _ _ _ (proj1 Hok) Hy) as [h Hh]. by exists h, h. }
  cbn [mbind result_bind]. apply returns_bind; [apply validate_descendants_returns|]. intros _ _.
  cbv zeta. apply returns_bind; [apply check_expectation_returns|]. intros [] Ex.
  apply check_expectation_Ok in Ex as [_ Ex].
  cbn [mbind result_bind]. apply returns_bind; [apply validate_candidate_returns|]. intros _ _.
  pose proof (proj2 (checked_succ_Some (next_entry_id rt) _) (conj Hn eq_refl)) as Hnext.
  destruct x as [|g]; [by cbn [mbind result_bind]; rewrite Hnext|].
  destruct Ex as (e & -> & _). cbn [expect mbind result_bind].
  apply returns_bind; [apply returns_ok_or|]. intros g' _. by rewrite Hnext.
Qed.

(** C20: a publication is atomic and current.  Whatever other threads did since
    the factory was given its snapshot, the second section either publishes or
    leaves the tree as it was.  It publishes only into an open scope, and then
    the snapshot handed to the factory is exactly what the scope sees now; the
    new entry has a fresh identity, pins exactly those handles, takes the first
    generation or the successor of the expected one, and replaces only the
    local slot it was admitted for.  A dependency that changed or vanished is
    always detected, and the only panic is the exhausted identity counter. *)
Theorem publication_exact w y i v rt' r :
  scope_reachable w y -> i ∈ sys_pending y ->
  publish_preconstructed (sys_rt y) (in_scope i) (in_def i) (in_expectation i) (in_snapshot i) v
    = (rt', r) ->
  ((next_entry_id (sys_rt y) < u64_max)%N -> returns r) /\
  ((exists c h, in_snapshot i !! c = Some h /\ get (sys_rt y) (in_scope i) c <> Some h) ->
    exists c, r = Err (DependencyChanged (def_id (in_def i)) c) \/
              r = Err (MissingDependency (def_id (in_def i)) c)) /\
  match r with
  | Ok e =>
      is_open (sys_rt y) (in_scope i) = true /\
      (forall c h, in_snapshot i !! c = Some h <->
         c ∈ def_dependencies (in_def i) /\ get (sys_rt y) (in_scope i) c = Some h) /\
      definition e = in_def i /\ value e = v /\ dependencies e = entry_id <$> in_snapshot i /\
      generation e = next_generation (in_expectation i) /\
      arena (sys_rt y) !! entry_id e = None /\
      (generation <$> local_entries (sys_rt y) (in_scope i) !! def_id (in_def i)) =
        match in_expectation i with New => None | Replace g => Some g end /\
      local_entries rt' (in_scope i) =
        <[def_id (in_def i) := e]> (local_entries (sys_rt y) (in_scope i)) /\
      (forall s, s <> in_scope i -> local_entries rt' s = local_entries (sys_rt y) s) /\
      (forall s, is_open rt' s = is_open (sys_rt y) s)
  | _ => rt' = sys_rt y
  end.
Proof.
  intros Hreach Hi Hp. apply system_inv_reachable in Hreach as [I Hpend].
  pose proof (Hpend i Hi) as Hok. set (rt := sys_rt y) in *. split_and!.
  - intros Hn. pose proof (prepare_publication_returns rt (in_scope i) (in_def i)
      (in_expectation i) (in_snapshot i) v I Hok Hn) as Hr.
    unfold publish_preconstructed in Hp. destruct (prepare_publication _ _ _ _ _ _); by simplify_eq/=.
  - intros (c & h & Hh & Hne). destruct (stale_or_current rt (in_scope i) (in_def i) _ I Hok)
      as [Hc|[[c' Hc]|[c' Hc]]].
    + pose proof (resolve_dependencies_spec rt (in_scope i) (in_def i)) as Hs. rewrite Hc in Hs.
      by apply Hs in Hh as [_ ?].
    + unfold publish_preconstructed in Hp. rewrite Hc in Hp. simplify_eq. eauto.
    + unfold publish_preconstructed in Hp. rewrite Hc in Hp. simplify_eq. eauto.
  - unfold publish_preconstructed in Hp. destruct (prepare_publication _ _ _ _ _ _) as [e|e| |] eqn:E;
      simplify_eq; try done.
    apply prepare_publication_Ok in E as (Hc & _ & Ho & Hx & _ & _ & He); [|done|done].
    pose proof (resolve_dependencies_spec rt (in_scope i) (in_def i)) as Hs. rewrite Hc in Hs.
    pose proof (is_open_exists _ _ Ho) as Hex. subst e. split_and!; cbn; try done.
    + apply Hs.
    + destruct (arena rt !! next_entry_id rt) eqn:E; [|done].
      apply (si_arena _ I) in E as [_ E]. lia.
    + destruct (in_expectation i) as [|g]; [by rewrite Hx|].
      destruct Hx as (_ & e0 & -> & Hg). cbn. by rewrite Hg.
    + rewrite insert_entry_local by done. by rewrite decide_True.
    + intros s Hs'. rewrite insert_entry_local by done. by rewrite decide_False.
    + intros s. apply insert_entry_open.
Qed.

(** ** What every open scope sees *)
Definition resolvable (defs : gmap CapabilityId CapabilityDefinition) : Prop :=
  is_Ok (resolve {| definitions := defs |}).
Definition all_resolvable (rt : Runtime) : Prop :=
  forall s, is_open rt s = true -> resolvable (visible_definitions rt s).

Lemma graph_eta g defs : definitions g = defs -> g = {| definitions := defs |}.
Proof. destruct g. by intros <-. Qed.
Lemma is_Ok_validate g d :
  is_Ok (validate_candidate g d) <-> resolvable (<[def_id d := d]> (definitions g)).
Proof.
  unfold validate_candidate, resolvable, graph_insert. cbn [fst].
  destruct (resolve _) as [r|e| |]; (split; [intros [x Hx]|intros [x Hx]]); try done; by eexists.
Qed.

(** *** Walking up to the scope *)
Lemma candidate_affects_suffix rt s x c : candidate_affects rt s x c = true -> s `suffix_of` x.
Proof.
  induction x as [|n p IH]; cbn; case_bool_decide as Heq; subst; try done.
  destruct (_ || _); [done|]. intros Hs%IH. by apply suffix_cons_r.
Qed.
Lemma union_shadow {A} (m1 m2 : gmap CapabilityId A) k v :
  is_Some (m1 !! k) -> m1 ∪ <[k := v]> m2 = m1 ∪ m2.
Proof.
  intros [y Hy]. apply map_eq. intros j. destruct (decide (k = j)) as [<-|Hne].
  - by rewrite !(lookup_union_Some_l _ _ _ y).
  - by rewrite !lookup_union, lookup_insert_ne.
Qed.
Lemma insert_union_both {A} (m1 m2 : gmap CapabilityId A) k v :
  <[k := v]> m1 ∪ <[k := v]> m2 = <[k := v]> (m1 ∪ m2).
Proof. rewrite union_shadow by (rewrite lookup_insert_eq; by eexists). symmetry. apply insert_union_l. Qed.

(** A publication changes what a scope sees exactly when the walk from it
    reaches the scope of the publication unshadowed. *)
Lemma visible_after_insert rt s e x :
  scope_inv rt -> is_open rt s = true ->
  visible_definitions (insert_entry s e rt) x =
  if is_open rt x && candidate_affects rt s x (handle_id e)
  then <[handle_id e := definition e]> (visible_definitions rt x)
  else visible_definitions rt x.
Proof.
  intros I Hs. pose proof (is_open_exists _ _ Hs) as Hex.
  induction x as [|n p IH]; [unfold is_open; by rewrite (si_nil _ I)|].
  cbn [visible_definitions candidate_affects]. rewrite insert_entry_open.
  destruct (is_open rt (n :: p)) eqn:Ho; cbn [negb andb]; [|done].
  rewrite insert_entry_local by done.
  assert (Hdef : entry_definitions (<[handle_id e := e]> (local_entries rt s)) =
    <[handle_id e := definition e]> (entry_definitions (local_entries rt s)))
    by apply fmap_insert.
  case_bool_decide as Heq.
  - subst s. rewrite decide_True by done. change (def_id (definition e)) with (handle_id e).
    rewrite Hdef, IH. destruct (_ && _); [apply insert_union_both|].
    symmetry. apply insert_union_l.
  - rewrite decide_False by congruence. cbn [orb].
    unfold has_local_entry. case_bool_decide as Hloc; rewrite IH.
    + destruct (_ && _); [|done]. apply union_shadow. unfold entry_definitions.
      rewrite lookup_fmap. by apply fmap_is_Some.
    + destruct p as [|m p].
      { cbn [candidate_affects]. rewrite (not_open_absent _ _ (si_nil _ I)). cbn [andb].
        case_bool_decide as Hnil; [|done]. subst s. unfold is_open in Hs.
        by rewrite (si_nil _ I) in Hs. }
      rewrite (si_open _ I n (m :: p) Ho) by done. cbn [andb].
      destruct (candidate_affects rt s (m :: p) (handle_id e)); [|done].
      symmetry. apply insert_union_r. unfold entry_definitions. rewrite lookup_fmap.
      apply fmap_None, eq_None_not_Some. exact Hloc.
Qed.

Lemma validate_descendants_Ok rt s d xs x :
  validate_descendants rt s d xs = Ok tt -> x ∈ xs -> is_open rt x = true ->
  candidate_affects rt s x (def_id d) = true -> is_Ok (validate_candidate (visible_graph rt x) d).
Proof.
  intros Hv Hx Ho Ha. induction xs as [|y xs IH]; [by apply elem_of_nil in Hx|].
  cbn [validate_descendants] in Hv. destruct (decide (x = y)) as [<-|Hne].
  - rewrite Ho, Ha in Hv. cbn [negb orb] in Hv. apply bind_Ok in Hv as (v & Hv & _).
    destruct (validate_candidate _ _) as [w|e| |]; try done. by exists w.
  - apply elem_of_cons in Hx as [Hx|Hx]; [done|]. apply IH; [|done].
    destruct (_ || _); [done|]. by apply bind_Ok in Hv as (_ & _ & Hv).
Qed.
Lemma all_resolvable_publish rt s d x snap v :
  scope_inv rt -> snapshot_ok rt d snap -> all_resolvable rt ->
  all_resolvable (publish_preconstructed rt s d x snap v).1.
Proof.
  intros I Hok Hall.
  destruct (publish_preconstructed_cases rt s d x snap v) as [(e & -> & He)|[-> _]]; [|done].
  apply prepare_publication_Ok in He as (_ & Hd & Ho & _ & Hgraph & _ & ->); [|done|done].
  cbn [fst]. set (e := Build_CapabilityEntry _ _ _ _ _).
  intros y Hy. rewrite insert_entry_open in Hy. rewrite visible_after_insert by done.
  rewrite Hy. cbn [andb]. destruct (candidate_affects rt s y (handle_id e)) eqn:Ha; [|by apply Hall].
  change (resolvable (<[def_id d := d]> (visible_definitions rt y))).
  apply candidate_affects_suffix in Ha as Hsuf. destruct Hsuf as [l ->].
  destruct l as [|n l].
  - cbn [app]. rewrite <- (definitions_visible_graph_with rt s I Ho). exact Hgraph.
  - rewrite <- (definitions_visible_graph rt _ I). apply is_Ok_validate.
    apply (validate_descendants_Ok rt s d (live_descendants (tree_fuel rt) rt s)); try done.
    apply elem_of_live_descendants; [done|by apply is_open_exists| |].
    + pose proof (suffixes_size rt _ I (is_open_exists _ _ Hy)). lia.
    + split; [by apply is_open_exists|]. exists (n :: l). by split.
Qed.

(** *** The other steps show a scope no more than before *)
Lemma visible_unchanged rt rt' x :
  scope_inv rt' ->
  (forall p, is_open rt' p = true -> is_open rt p = true /\ local_entries rt' p = local_entries rt p) ->
  is_open rt' x = true -> visible_definitions rt' x = visible_definitions rt x.
Proof.
  intros I' Hsame. induction x as [|n p IH]; [done|]. intros Ho.
  destruct (Hsame _ Ho) as [Ho' Hl]. cbn [visible_definitions]. rewrite Ho, Ho', Hl. cbn [negb].
  f_equal. destruct p as [|m p]; [done|]. apply IH. by apply (si_open _ I' n).
Qed.
Lemma all_resolvable_unchanged rt rt' :
  scope_inv rt' -> all_resolvable rt ->
  (forall p, is_open rt' p = true -> is_open rt p = true /\ local_entries rt' p = local_entries rt p) ->
  all_resolvable rt'.
Proof.
  intros I' Hall Hsame x Hx. rewrite (visible_unchanged rt rt') by done. by apply Hall, Hsame.
Qed.
Lemma all_resolvable_drop rt s : scope_inv rt -> all_resolvable rt -> all_resolvable (drop_scope rt s).
Proof.
  intros I Hall. apply (all_resolvable_unchanged rt); [by apply scope_inv_drop|done|].
  unfold drop_scope. case_bool_decide; [done|]. intros p. unfold is_open, local_entries. cbn.
  destruct (decide (s = p)) as [<-|Hne]; [by rewrite lookup_delete_eq|by rewrite lookup_delete_ne].
Qed.
Lemma resolvable_empty : resolvable ∅.
Proof. exists {| construction_order := [] |}. reflexivity. Qed.
(** A new scope sees what its parent sees. *)
Lemma all_resolvable_new rt n p sc :
  scope_inv rt -> scope_inv (set_scope (n :: p) sc rt) -> all_resolvable rt ->
  scopes rt !! (n :: p) = None -> entries sc = ∅ -> all_resolvable (set_scope (n :: p) sc rt).
Proof.
  intros I I' Hall Hn He x Hx.
  assert (Hother : forall q, q <> n :: p -> is_open (set_scope (n :: p) sc rt) q = true ->
    visible_definitions (set_scope (n :: p) sc rt) q = visible_definitions rt q).
  { intros q. induction q as [|m q IH]; [done|]. intros Hne Hq. cbn [visible_definitions].
    assert (Hq' : is_open rt (m :: q) = true)
      by (rewrite is_open_set_scope, decide_False in Hq; [done|congruence]).
    rewrite Hq, Hq', local_entries_set_scope, decide_False by congruence. cbn [negb]. f_equal.
    destruct q as [|k q]; [done|]. apply IH; [|by apply (si_open _ I' m)].
    intros Heq. rewrite Heq in Hq'. destruct (si_tree _ I m (n :: p)) as (y & Hy & _).
    - by apply is_open_exists.
    - done.
    - by rewrite Hn in Hy. }
  destruct (decide (x = n :: p)) as [->|Hne].
  - cbn [visible_definitions]. rewrite Hx, local_entries_set_scope, decide_True, He by done.
    cbn [negb]. unfold entry_definitions. rewrite fmap_empty, map_empty_union.
    destruct p as [|m p]; [apply resolvable_empty|].
    assert (Hp : is_open (set_scope (n :: m :: p) sc rt) (m :: p) = true)
      by (by apply (si_open _ I' n)).
    assert (Hnp : m :: p <> n :: m :: p)
      by (intros Heq; apply (f_equal length) in Heq; simpl in Heq; lia).
    rewrite Hother by done. apply Hall.
    rewrite is_open_set_scope, decide_False in Hp; [done|congruence].
  - rewrite Hother by done. apply Hall.
    rewrite is_open_set_scope, decide_False in Hx; [done|congruence].
Qed.
Lemma all_resolvable_child rt s : scope_inv rt -> all_resolvable rt -> all_resolvable (child rt s).
Proof.
  intros I Hall. pose proof (scope_inv_child rt s I) as I'. unfold child in *.
  destruct (scopes rt !! s) as [sc|] eqn:Hsc; [|done].
  pose proof (child_absent rt s sc I Hsc) as Hfresh.
  set (sc1 := {| entries := entries sc; lifecycle := lifecycle sc;
                 children := children sc ++ [length (children sc)] |}) in *.
  assert (Hsame : forall p, is_open (set_scope s sc1 rt) p = is_open rt p /\
    local_entries (set_scope s sc1 rt) p = local_entries rt p).
  { intros p. rewrite is_open_set_scope, local_entries_set_scope.
    destruct (decide (s = p)) as [<-|]; [|done]. unfold is_open, local_entries. by rewrite Hsc. }
  assert (I1 : scope_inv (set_scope s sc1 rt)).
  { by apply scope_inv_adopt. }
  apply all_resolvable_new; try done.
  - apply (all_resolvable_unchanged rt); try done. intros p Hp. destruct (Hsame p) as [H1 H2].
    by rewrite <- H1.
  - cbn. rewrite lookup_insert_ne; [done|]. intros Heq. apply (f_equal length) in Heq.
    simpl in Heq. lia.
Qed.
Lemma all_resolvable_root rt n :
  scope_inv rt -> scopes rt !! [n] = None -> all_resolvable rt -> all_resolvable (root rt n).
Proof. intros I Hn Hall. apply all_resolvable_new; try done. by apply scope_inv_root. Qed.
Lemma all_resolvable_teardown rt s : scope_inv rt -> all_resolvable rt -> all_resolvable (teardown rt s).1.
Proof.
  intros I Hall. destruct (teardown_ok rt s I) as [I' T].
  apply (all_resolvable_unchanged rt); [done|done|]. apply T.
Qed.
Lemma scope_step_resolvable y y' :
  system_inv y -> all_resolvable (sys_rt y) -> scope_step false y y' -> all_resolvable (sys_rt y').
Proof.
  intros [I Hp] Hall Hstep. destruct Hstep; cbn [sys_rt sys_pending] in *; try done.
  - by apply all_resolvable_root.
  - by apply all_resolvable_child.
  - by apply all_resolvable_drop.
  - apply all_resolvable_publish; [done| |done]. apply Hp, elem_of_app. right. left.
  - by apply all_resolvable_teardown.
Qed.
Lemma reachable_resolvable y : scope_reachable false y -> all_resolvable (sys_rt y).
Proof.
  apply (rtc_invariant (scope_step false) (fun y => all_resolvable (sys_rt y))).
  - intros s Hs. unfold is_open in Hs. cbn in Hs. by rewrite lookup_empty in Hs.
  - intros a b Ha Hall Hab. apply (scope_step_resolvable a); try done.
    by apply (system_inv_reachable false).
Qed.

(** C18: admission keeps every scope consistent.  While nobody withdraws an
    entry, whatever the interleaving of scope creation and loss, two-phase
    publications, replacements and teardowns, the definitions every open scope
    sees resolve: every dependency that a visible capability declares is
    visible from the same scope, and the visible dependencies are acyclic. *)
Theorem visible_graph_valid y s :
  scope_reachable false y -> is_open (sys_rt y) s = true ->
  is_Ok (resolve (visible_graph (sys_rt y) s)) /\
  acyclic (needs (visible_definitions (sys_rt y) s)) /\
  forall c e d, get (sys_rt y) s c = Some e -> d ∈ def_dependencies (definition e) ->
    is_Some (get (sys_rt y) s d).
Proof.
  intros Hy Hs. pose proof (reachable_resolvable y Hy s Hs) as Hr.
  destruct (system_inv_reachable _ _ Hy) as [I _].
  apply resolve_Ok_iff in Hr as Hc. cbn in Hc. destruct Hc as [Hclosed Hac]. split_and!.
  - rewrite (graph_eta _ _ (definitions_visible_graph _ s I)). exact Hr.
  - done.
  - intros c e d He Hd. destruct (Hclosed c d) as [x Hx].
    + exists (definition e). by rewrite visible_definitions_get, He.
    + rewrite visible_definitions_get in Hx. by destruct (get (sys_rt y) s d).
Qed.

(** The scope tree is well formed in every reachable state: every entry a
    scope holds is the published one of its identity and sits under its own
    capability, in one slot of one scope; entries pin older entries, one per
    declared dependency; scopes that are not open hold nothing, and an open
    scope has an open parent. *)
Theorem scope_tree_invariant w y :
  scope_reachable w y ->
  (forall k e, arena (sys_rt y) !! k = Some e -> entry_id e = k /\ (k < next_entry_id (sys_rt y))%N) /\
  (forall s c e, local_entries (sys_rt y) s !! c = Some e ->
     def_id (definition e) = c /\ arena (sys_rt y) !! entry_id e = Some e) /\
  (forall s c s' c' e, local_entries (sys_rt y) s !! c = Some e ->
     local_entries (sys_rt y) s' !! c' = Some e -> s = s' /\ c = c') /\
  (forall k e, arena (sys_rt y) !! k = Some e ->
     dom (dependencies e) = def_dependencies (definition e) /\
     forall c h, dependencies e !! c = Some h ->
       exists e', arena (sys_rt y) !! h = Some e' /\ handle_id e' = c /\ (h < k)%N) /\
  (forall s, is_open (sys_rt y) s = false -> local_entries (sys_rt y) s = ∅) /\
  (forall n p, is_open (sys_rt y) (n :: p) = true -> p <> [] -> is_open (sys_rt y) p = true).
Proof.
  intros Hy. apply system_inv_reachable in Hy as [I _]. split_and!; try apply I.
  intros k e He. split; [by apply (si_pins_dom _ I k)|]. intros c h. by apply (si_pins _ I).
Qed.

(** *** A sample: a root scope, [p] published, [a] depending on it in flight *)
Definition sample_def (c : CapabilityId) (deps : list CapabilityId) : CapabilityDefinition :=
  foldl depends_on (CapabilityDefinition_new c "kind") deps.
Definition sample_root : Runtime := root Runtime_start 0.
Definition sample_p : Runtime :=
  (publish_preconstructed sample_root [0] (sample_def "p" []) New ∅ 7%N).1.
Definition sample_snapshot : gmap CapabilityId CapabilityEntry :=
  match get sample_p [0] "p" with Some h => {["p" := h]} | None => ∅ end.
Definition sample_inflight : inflight :=
  {| in_scope := [0]; in_def := sample_def "a" ["p"]; in_expectation := New;
     in_snapshot := sample_snapshot |}.
Definition sample_system : system := {| sys_rt := sample_p; sys_pending := [sample_inflight] |}.
Lemma sample_system_reachable : scope_reachable false sample_system.
Proof.
  eapply rtc_l; [apply (step_root false _ _ 0); reflexivity|].
  eapply rtc_l; [apply (step_plan false _ _ [0] (sample_def "p" []) New ∅); vm_compute; reflexivity|].
  eapply rtc_l; [apply (step_finish false _ [] {| in_scope := [0]; in_def := sample_def "p" [];
    in_expectation := New; in_snapshot := ∅ |} [] 7%N)|]. cbn [app].
  eapply rtc_l; [|apply rtc_refl].
  apply (step_plan false sample_p [] [0] (sample_def "a" ["p"]) New sample_snapshot).
  vm_compute. reflexivity.
Qed.
Lemma publication_exact_witness :
  scope_reachable false sample_system /\
  exists e, (publish_preconstructed sample_p [0] (sample_def "a" ["p"]) New sample_snapshot 8%N).2
      = Ok e /\ generation e = 1%N /\ dependencies e = entry_id <$> sample_snapshot.
Proof.
  split; [exact sample_system_reachable|].
  set (res := publish_preconstructed sample_p [0] (sample_def "a" ["p"]) New sample_snapshot 8%N).
  assert (Hok : exists e, res.2 = Ok e) by (eexists; vm_compute; reflexivity).
  destruct Hok as [e He]. exists e.
  destruct (publication_exact false sample_system sample_inflight 8%N res.1 (Ok e) sample_system_reachable)
    as (_ & _ & _ & _ & _ & _ & Hd & Hg & _).
  - left.
  - change (res = (res.1, Ok e)). rewrite <- He. by destruct res.
  - by split_and!.
Defined.
Lemma visible_graph_valid_witness :
  scope_reachable false sample_system /\ is_open sample_p [0] = true /\
  is_Ok (resolve (visible_graph sample_p [0])).
Proof.
  assert (Ho : is_open sample_p [0] = true) by (vm_compute; reflexivity).
  split; [exact sample_system_reachable|]. split; [exact Ho|].
  apply (visible_graph_valid sample_system [0] sample_system_reachable Ho).
Defined.
Lemma scope_tree_invariant_witness :
  scope_reachable false sample_system /\
  forall s, is_open sample_p s = false -> local_entries sample_p s = ∅.
Proof.
  split; [exact sample_system_reachable|]. apply (scope_tree_invariant false sample_system sample_system_reachable).
Defined.
