(* ===== verification/Teardown.v ===== *)
(** * Teardown of scopes

    The graph of a scope's entries and of what they pin, when it resolves,
    what a teardown leaves and in which order it releases ownership, and the
    admitted histories after which it panics. *)
From S2P Require Export Admission.
#[local] Open Scope string_scope.
#[local] Open Scope nat_scope.
#[local] Open Scope list_scope.

(** ** The runtime graph *)
Section runtime_graph.
Context (rt : Runtime) (I : scope_inv rt).
#[local] Abbreviation table := (arena rt).
#[local] Abbreviation graph_state := (gmap CapabilityId CapabilityDefinition * gset EntryId)%type.

(** Each definition is that of a published entry, and each visited entry has a
    definition under its identifier. *)
Record gather_inv (st : graph_state) : Prop := {
  ga_entry c d : st.1 !! c = Some d ->
    exists e, table !! entry_id e = Some e /\ handle_id e = c /\ definition e = d;
  ga_seen k e : k ∈ st.2 -> table !! k = Some e -> is_Some (st.1 !! handle_id e)
}.
(** The search only adds; what it adds has its dependencies in the graph. *)
Record gathered (st st' : graph_state) (hs : list EntryId) : Prop := {
  gd_inv : gather_inv st';
  gd_defs : st.1 ⊆ st'.1;
  gd_seen k : k ∈ st.2 -> k ∈ st'.2;
  gd_closed c d : st'.1 !! c = Some d ->
    st.1 !! c = Some d \/ forall y, y ∈ def_dependencies d -> is_Some (st'.1 !! y);
  gd_handles h e : h ∈ hs -> table !! h = Some e -> is_Some (st'.1 !! handle_id e)
}.
Lemma gathered_refl st : gather_inv st -> gathered st st [].
Proof. intros G. split; auto. intros h e Hh. by apply elem_of_nil in Hh. Qed.
Lemma gathered_trans st1 st2 st3 l1 l2 :
  gathered st1 st2 l1 -> gathered st2 st3 l2 -> gathered st1 st3 (l1 ++ l2).
Proof.
  intros [? D1 S1 C1 H1] [? D2 S2 C2 H2].
  assert (Hm : forall c, is_Some (st2.1 !! c) -> is_Some (st3.1 !! c)).
  { intros c [d Hd]. exists d. by eapply lookup_weaken. }
  split; auto.
  - by etransitivity.
  - intros c d Hd. destruct (C2 c d Hd) as [Hd2|Hd2]; [|by right].
    destruct (C1 c d Hd2) as [Hd1|Hd1]; [by left|right]. intros y Hy. by apply Hm, Hd1.
  - intros h e [Hh|Hh]%elem_of_app He; [by apply Hm, (H1 h)|by apply (H2 h)].
Qed.

(** The published entries older than [h] bound the nesting. *)
Definition rank (h : EntryId) : nat := size (filter (fun k => (k < h)%N) (dom table : gset EntryId)).
Lemma rank_lt h h' : is_Some (table !! h') -> (h' < h)%N -> rank h' < rank h.
Proof.
  intros Hh Hlt. unfold rank. apply subset_size. split.
  - intros k [Hk Hd]%elem_of_filter. apply elem_of_filter. split; [lia|done].
  - intros Hs. assert (Hin : h' ∈ filter (fun k => (k < h)%N) (dom table : gset EntryId))
      by (by apply elem_of_filter; rewrite elem_of_dom).
    apply Hs, elem_of_filter in Hin as [Hin _]. lia.
Qed.
Lemma rank_fuel h : rank h < snapshot_fuel table.
Proof. unfold rank, snapshot_fuel. apply Nat.lt_succ_r, subseteq_size. by intros k [_ ?]%elem_of_filter. Qed.

Lemma gather_list fuel hs st :
  (forall h st, h ∈ hs -> gather_inv st ->
     exists st', insert_snapshot fuel table h st = Ok st' /\ gathered st st' [h]) ->
  gather_inv st ->
  exists st', foldM (fun st d => insert_snapshot fuel table d st) hs st = Ok st' /\
    gathered st st' hs.
Proof.
  revert st. induction hs as [|h hs IH]; intros st Hh G.
  { exists st. split; [done|by apply gathered_refl]. }
  destruct (Hh h st) as (st1 & E1 & G1); [left|done|].
  destruct (IH st1) as (st2 & E2 & G2); [|apply G1|].
  { intros h' st' Hin. apply Hh. by right. }
  exists st2. split; [|by apply (gathered_trans st st1 st2 [h] hs)].
  cbn [foldM]. by rewrite E1.
Qed.
Lemma insert_snapshot_ok fuel h st :
  rank h < fuel -> is_Some (table !! h) -> gather_inv st ->
  exists st', insert_snapshot fuel table h st = Ok st' /\ gathered st st' [h].
Proof.
  revert h st. induction fuel as [|fuel IH]; intros h [defs seen] Hf [e He] G; [lia|].
  cbn [insert_snapshot]. case_bool_decide as Hseen.
  { exists (defs, seen). split; [done|]. split; auto.
    intros h' e' ->%list_elem_of_singleton He'. by apply (ga_seen _ G h). }
  rewrite He. cbn [expect mbind result_bind].
  destruct (si_arena _ I _ _ He) as [Hid _].
  set (defs1 := match defs !! handle_id e with Some _ => defs | None => <[handle_id e := definition e]> defs end).
  assert (Hsub : defs ⊆ defs1).
  { unfold defs1. destruct (defs !! handle_id e) eqn:Ed; [done|]. by apply insert_subseteq. }
  assert (Hin : is_Some (defs1 !! handle_id e)).
  { unfold defs1. destruct (defs !! handle_id e) eqn:Ed; [by eexists|].
    rewrite lookup_insert_eq. by eexists. }
  assert (G1 : gather_inv (defs1, {[h]} ∪ seen)).
  { split; cbn.
    - intros c d Hd. unfold defs1 in Hd. destruct (defs !! handle_id e) eqn:Ed; [by apply (ga_entry _ G)|].
      apply lookup_insert_Some in Hd as [[<- <-]|[_ Hd]]; [|by apply (ga_entry _ G)].
      exists e. by rewrite Hid.
    - intros k e' [->%elem_of_singleton|Hk]%elem_of_union He'.
      + rewrite He in He'. by injection He' as <-.
      + destruct (ga_seen _ G k e' Hk He') as [d Hd]. exists d. by eapply lookup_weaken. }
  destruct (gather_list fuel (map_values (dependencies e)) (defs1, {[h]} ∪ seen)) as (st' & E & Gd);
    [|done|].
  { intros h' st1 (c & Hc)%elem_of_map_values G'.
    destruct (si_pins _ I _ _ _ _ He Hc) as (e' & He' & _ & Hlt).
    apply IH; [|by eexists|done]. assert (rank h' < rank h) by (apply rank_lt; [by eexists|done]). lia. }
  exists st'. split; [exact E|]. split.
  - apply Gd.
  - etransitivity; [exact Hsub|]. apply Gd.
  - intros k Hk. apply Gd. cbn in *. apply elem_of_union. by right.
  - intros c d Hd. destruct (gd_closed _ _ _ Gd c d Hd) as [Hd1|Hd1]; [|by right]. cbn in Hd1 |- *.
    unfold defs1 in Hd1. destruct (defs !! handle_id e) eqn:Ed; [by left|].
    apply lookup_insert_Some in Hd1 as [[_ <-]|[_ Hd1]]; [|by left]. right. intros y Hy.
    rewrite <- (si_pins_dom _ I _ _ He) in Hy. apply elem_of_dom in Hy as [k Hk].
    destruct (si_pins _ I _ _ _ _ He Hk) as (e' & He' & Hy & _).
    rewrite <- Hy. apply (gd_handles _ _ _ Gd k); [|done]. apply elem_of_map_values. by exists y.
  - intros h' e' ->%list_elem_of_singleton He'. rewrite He in He'. injection He' as <-.
    destruct Hin as [d Hd]. exists d. eapply lookup_weaken; [exact Hd|]. apply Gd.
Qed.

(** The graph of a scope's entries: their definitions first, closed under the
    declared dependencies. *)
Lemma gather_entries es st :
  (forall e, e ∈ es -> table !! entry_id e = Some e) -> gather_inv st ->
  exists st', foldM (fun st e =>
      foldM (fun st d => insert_snapshot (snapshot_fuel table) table d st)
        (map_values (dependencies e)) st) es st = Ok st' /\
    gathered st st' (es ≫= fun e => map_values (dependencies e)).
Proof.
  revert st. induction es as [|e es IH]; intros st Hes G.
  { exists st. split; [done|by apply gathered_refl]. }
  destruct (gather_list (snapshot_fuel table) (map_values (dependencies e)) st) as (st1 & E1 & G1);
    [|done|].
  { intros h st1 (c & Hc)%elem_of_map_values G1.
    destruct (si_pins _ I _ _ _ _ (Hes e ltac:(left)) Hc) as (e' & He' & _ & _).
    apply insert_snapshot_ok; [apply rank_fuel|by eexists|done]. }
  destruct (IH st1) as (st2 & E2 & G2); [|apply G1|].
  { intros x Hx. apply Hes. by right. }
  exists st2. split; [cbn [foldM]; by rewrite E1|].
  rewrite bind_cons. by apply (gathered_trans st st1 st2).
Qed.
Definition published_entries (es : gmap CapabilityId CapabilityEntry) : Prop :=
  forall c e, es !! c = Some e -> handle_id e = c /\ table !! entry_id e = Some e.
Lemma runtime_graph_ok es :
  published_entries es ->
  exists g, runtime_graph table es = Ok g /\ closed (definitions g) /\
    (forall c e, es !! c = Some e -> definitions g !! c = Some (definition e)) /\
    (forall c d, definitions g !! c = Some d ->
       exists e, table !! entry_id e = Some e /\ handle_id e = c /\ definition e = d).
Proof.
  intros Hes. set (st0 := (entry_definitions es, list_to_set (entry_id <$> map_values es)) : graph_state).
  assert (Hdef : forall c, entry_definitions es !! c = definition <$> es !! c)
    by (intros c; apply lookup_fmap).
  assert (G0 : gather_inv st0).
  { split; cbn.
    - intros c d. rewrite Hdef. destruct (es !! c) as [e|] eqn:E; [|done]. intros [= <-].
      apply Hes in E as [? ?]. by exists e.
    - intros k e Hk He. apply elem_of_list_to_set, list_elem_of_fmap in Hk as (e' & -> & Hk).
      apply elem_of_map_values in Hk as (c & Hc). apply Hes in Hc as Hc'. destruct Hc' as [<- He'].
      rewrite He' in He. injection He as <-. rewrite Hdef, Hc. by eexists. }
  destruct (gather_entries (map_values es) st0) as (st & E & G); [|done|].
  { intros e (c & Hc)%elem_of_map_values. by destruct (Hes _ _ Hc). }
  exists {| definitions := st.1 |}. split; [|split_and!; cbn].
  - unfold runtime_graph. fold st0. by rewrite E.
  - intros c y (d & Hd & Hy). cbn in Hd. destruct (gd_closed _ _ _ G c d Hd) as [H0|H0]; [|auto].
    cbn in H0. rewrite Hdef in H0. destruct (es !! c) as [e|] eqn:Ec; [|done]. injection H0 as <-.
    apply Hes in Ec as He. destruct He as [_ He]. rewrite <- (si_pins_dom _ I _ _ He) in Hy.
    apply elem_of_dom in Hy as [k Hk]. destruct (si_pins _ I _ _ _ _ He Hk) as (e' & He' & Hy & _).
    rewrite <- Hy. apply (gd_handles _ _ _ G k); [|done]. apply list_elem_of_bind. exists e. split.
    + apply elem_of_map_values. by exists y.
    + apply elem_of_map_values. by exists c.
  - intros c e Hc. eapply lookup_weaken; [|apply G]. cbn. by rewrite Hdef, Hc.
  - apply G.
Qed.

(** No capability has been published twice. *)
Definition unique_publication : Prop :=
  forall e e', table !! entry_id e = Some e -> table !! entry_id e' = Some e' ->
    handle_id e = handle_id e' -> e = e'.
Lemma unique_publication_acyclic es g :
  unique_publication -> published_entries es -> runtime_graph table es = Ok g ->
  acyclic (needs (definitions g)).
Proof.
  intros Hu Hes Hg. destruct (runtime_graph_ok es Hes) as (g' & Hg' & _ & _ & Hent).
  rewrite Hg in Hg'. injection Hg' as <-.
  assert (Hgr : forall k e, table !! k = Some e -> grounded (needs (definitions g)) (handle_id e)).
  { intros k. induction (N.lt_wf_0 k) as [k _ IH]. intros e He. constructor. intros y (d & Hd & Hy).
    destruct (Hent _ _ Hd) as (e0 & He0 & Hid & <-). destruct (si_arena _ I _ _ He) as [Hk _].
    assert (e0 = e) as -> by (apply Hu; [done|by rewrite Hk|done]).
    rewrite <- (si_pins_dom _ I _ _ He) in Hy. apply elem_of_dom in Hy as [h Hh].
    destruct (si_pins _ I _ _ _ _ He Hh) as (e' & He' & <- & Hlt). by apply (IH h). }
  apply grounded_acyclic, (grounded_all_sources _ (fun x => is_Some (definitions g !! x))).
  - intros x [d Hd]. destruct (Hent _ _ Hd) as (e & He & <- & _). by apply (Hgr (entry_id e)).
  - intros x y (d & Hd & _). by exists d.
  - intros x. destruct (definitions g !! x); [left; by eexists|right; by intros []].
Qed.
End runtime_graph.

(** ** The order of one scope *)

(** [before x y l]: [x] occurs in [l] and [y] after it. *)
Definition before {A} (x y : A) (l : list A) : Prop := exists l1 l2, l = l1 ++ l2 /\ x ∈ l1 /\ y ∈ l2.
Lemma before_app_l {A} (x y : A) l1 l2 : before x y l1 -> before x y (l1 ++ l2).
Proof.
  intros (k1 & k2 & -> & Hx & Hy). exists k1, (k2 ++ l2). rewrite <- (assoc_L (++)).
  split_and!; [done|done|]. apply elem_of_app. by left.
Qed.
Lemma before_app_r {A} (x y : A) l1 l2 : before x y l2 -> before x y (l1 ++ l2).
Proof.
  intros (k1 & k2 & -> & Hx & Hy). exists (l1 ++ k1), k2. rewrite <- (assoc_L (++)).
  split_and!; [done| |done]. apply elem_of_app. by right.
Qed.
Lemma before_bind {A B} (f : A -> list B) x y a b l :
  before x y l -> a ∈ f x -> b ∈ f y -> before a b (l ≫= f).
Proof.
  intros (l1 & l2 & -> & Hx & Hy) Ha Hb. exists (l1 ≫= f), (l2 ≫= f). rewrite bind_app.
  split_and!; [done|apply list_elem_of_bind; by exists x|apply list_elem_of_bind; by exists y].
Qed.
Lemma before_bind_one {A B} (f : A -> list B) x a b l : x ∈ l -> before a b (f x) -> before a b (l ≫= f).
Proof.
  intros Hx Hab. apply list_elem_of_split in Hx as (l1 & l2 & ->).
  rewrite bind_app, bind_cons. by apply before_app_r, before_app_l.
Qed.
Lemma before_omap {A B} (f : A -> option B) x y a b l :
  before x y l -> f x = Some a -> f y = Some b -> before a b (omap f l).
Proof.
  intros (l1 & l2 & -> & Hx & Hy) Ha Hb. exists (omap f l1), (omap f l2).
  split_and!; [apply omap_app|apply list_elem_of_omap; by exists x|apply list_elem_of_omap; by exists y].
Qed.
Lemma dependency_first_before defs l c y :
  dependency_first defs l -> c ∈ l -> needs defs c y -> before c y (rev l).
Proof.
  intros Hf Hc Hn. apply list_elem_of_lookup in Hc as [i Hi].
  destruct (Hf i c y Hi Hn) as (j & Hj & Hy). exists (rev (drop i l)), (rev (take i l)).
  rewrite <- rev_app_distr, take_drop. split_and!; [done| |].
  - rewrite <- elem_of_reverse. unfold reverse. rewrite <- rev_alt, rev_involutive.
    rewrite (drop_S l c i Hi). left.
  - rewrite <- elem_of_reverse. unfold reverse. rewrite <- rev_alt, rev_involutive.
    apply list_elem_of_lookup. exists j. by rewrite lookup_take_lt.
Qed.

Lemma local_published rt s : scope_inv rt -> published_entries rt (local_entries rt s).
Proof. intros I c e He. by apply (si_local _ I) in He. Qed.
Definition teardown_panic : string := "published capability topology must remain valid during teardown".
(** The order for a scope: all its entries, dependents first; a refusal means
    that some capability was published twice. *)
Lemma runtime_teardown_order_cases rt es :
  scope_inv rt -> published_entries rt es ->
  match runtime_teardown_order (arena rt) es with
  | Ok order =>
      NoDup order /\ (forall c e, es !! c = Some e -> c ∈ order) /\
      (forall c e y, es !! c = Some e -> y ∈ def_dependencies (definition e) -> before c y order)
  | Panic p => p = teardown_panic /\ ~ unique_publication rt
  | _ => False
  end.
Proof.
  intros I Hes. destruct (runtime_graph_ok rt I es Hes) as (g & Hg & Hclosed & Hloc & _).
  unfold runtime_teardown_order. rewrite Hg. cbn [mbind result_bind].
  pose proof (resolve_cases g) as Hc. destruct (resolve g) as [r|e| |] eqn:Er; try done.
  - destruct Hc as (Hnd & Hel & Hf). unfold teardown_order.
    assert (Hin : forall c e, es !! c = Some e -> c ∈ construction_order r).
    { intros c e He. apply Hel. rewrite (Hloc _ _ He). by eexists. }
    split_and!.
    + by rewrite <- Permutation_rev.
    + intros c e He. rewrite <- Permutation_rev. by eapply Hin.
    + intros c e y He Hy. apply (dependency_first_before (definitions g)); [done|by eapply Hin|].
      exists (definition e). split; [by apply Hloc|done].
  - split; [done|]. intros Hu.
    assert (Hac : acyclic (needs (definitions g))) by (by apply (unique_publication_acyclic rt I es)).
    destruct (proj2 (resolve_Ok_iff g) (conj Hclosed Hac)) as [r Hr]. congruence.
Qed.
Lemma release_order_ok rt es order :
  published_entries rt es -> NoDup order -> (forall c e, es !! c = Some e -> c ∈ order) ->
  let l := release_order {| plan_entries := es; plan_order := order |} in
  l = omap (fun c => es !! c) order /\ NoDup l /\ forall e, e ∈ l <-> exists c, es !! c = Some e.
Proof.
  intros Hes Hnd Hin.
  assert (Hl : release_order {| plan_entries := es; plan_order := order |} =
    omap (fun c => es !! c) order).
  { unfold release_order. cbn. rewrite <- (app_nil_r (omap _ _)) at 2. f_equal.
    destruct (map_values _) as [|e vs] eqn:Ev; [done|].
    assert (He : e ∈ e :: vs) by left. rewrite <- Ev in He.
    apply elem_of_map_values in He as (c & Hc). apply map_lookup_filter_Some in Hc as [Hc Hn].
    exfalso. apply Hn. by eapply Hin. }
  cbv zeta. rewrite Hl. split_and!; [done| |].
  - clear Hl Hin. induction Hnd as [|c order Hc Hnd IH]; [constructor|]. cbn.
    destruct (es !! c) as [e|] eqn:He; [|exact IH]. constructor; [|exact IH].
    intros (c' & Hc' & He')%list_elem_of_omap.
    destruct (Hes _ _ He) as [<- _]. destruct (Hes _ _ He') as [<- _]. done.
  - intros e. rewrite list_elem_of_omap. split; [intros (c & _ & He); by exists c|].
    intros [c He]. exists c. split; [by eapply Hin|done].
Qed.

(** ** The released entries *)
Definition scope_release (rt : Runtime) (x : ScopeId) : list CapabilityEntry :=
  match runtime_teardown_order (arena rt) (local_entries rt x) with
  | Ok order => release_order {| plan_entries := local_entries rt x; plan_order := order |}
  | _ => []
  end.
Lemma scope_release_ok rt x order :
  scope_inv rt -> runtime_teardown_order (arena rt) (local_entries rt x) = Ok order ->
  NoDup (scope_release rt x) /\
  (forall e, e ∈ scope_release rt x <-> exists c, local_entries rt x !! c = Some e) /\
  (forall c1 e1 c2 e2, local_entries rt x !! c1 = Some e1 -> local_entries rt x !! c2 = Some e2 ->
     c2 ∈ def_dependencies (definition e1) -> before e1 e2 (scope_release rt x)).
Proof.
  intros I Ho. pose proof (local_published rt x I) as Hes.
  pose proof (runtime_teardown_order_cases rt _ I Hes) as Hc. rewrite Ho in Hc.
  destruct Hc as (Hnd & Hin & Hb). unfold scope_release. rewrite Ho.
  destruct (release_order_ok rt _ order Hes Hnd Hin) as (Hl & Hnd' & Hel). split_and!; [done|done|].
  intros c1 e1 c2 e2 H1 H2 Hd. rewrite Hl. apply (before_omap _ c1 c2); [by apply (Hb c1 e1)|done|done].
Qed.
Lemma scope_release_closed rt x :
  scope_inv rt -> is_open rt x = false ->
  runtime_teardown_order (arena rt) (local_entries rt x) = Ok [] /\ scope_release rt x = [].
Proof. intros I Hx. unfold scope_release. by rewrite (si_closed _ I x Hx). Qed.

Lemma release_unchanged rt rt' ss :
  arena rt' = arena rt -> (forall x, x ∈ ss -> local_entries rt' x = local_entries rt x) ->
  ss ≫= scope_release rt' = ss ≫= scope_release rt.
Proof.
  intros Ha Hl. induction ss as [|x ss IH]; [done|]. rewrite !bind_cons. f_equal.
  - unfold scope_release. by rewrite Ha, (Hl x) by left.
  - apply IH. intros y Hy. apply Hl. by right.
Qed.

(** The loop, when it ends well: every scope of the list had an order. *)
Lemma teardown_scopes_released ss rt seen plans :
  scope_inv rt -> child_first rt seen ss -> (forall x, x ∈ seen -> is_open rt x = false) -> NoDup ss ->
  match (teardown_scopes rt ss plans).2 with
  | Ok plans' =>
      plans' ≫= release_order = (plans ≫= release_order) ++ (ss ≫= scope_release rt) /\
      (forall x, x ∈ ss -> is_open (teardown_scopes rt ss plans).1 x = false /\
         is_Ok (runtime_teardown_order (arena rt) (local_entries rt x)))
  | Panic p => p = teardown_panic /\ ~ unique_publication rt
  | _ => False
  end.
Proof.
  revert rt seen plans. induction ss as [|s ss IH]; intros rt seen plans I Hc Hseen Hnd.
  { cbn. rewrite app_nil_r. split; [done|]. intros x Hx. by apply elem_of_nil in Hx. }
  apply NoDup_cons in Hnd as [Hs Hnd].
  pose proof (teardown_scopes_ok (s :: ss) rt seen plans I Hc Hseen) as [_ T].
  cbn [teardown_scopes] in *. rewrite bind_cons. destruct (is_open rt s) eqn:Ho; cbn [negb] in *.
  - pose proof (runtime_teardown_order_cases rt _ I (local_published rt s I)) as Hord.
    destruct (close_scope rt s ss seen Closed I Hc Hseen (is_open_exists _ _ Ho))
      as (I1 & Hc1 & Hs1 & T1); [done|].
    destruct (runtime_teardown_order _ (local_entries rt s)) as [order|[]|p|] eqn:Eo; [|done..].
    set (rt1 := set_entries s ∅ Closed rt) in *.
    set (plans1 := plans ++ [{| plan_entries := local_entries rt s; plan_order := order |}]) in *.
    assert (Harena : arena rt1 = arena rt) by apply T1.
    assert (Hloc : forall x, x ∈ ss -> local_entries rt1 x = local_entries rt x).
    { intros x Hx. unfold local_entries. rewrite (td_other _ _ _ T1); [done|].
      intros ->%list_elem_of_singleton. done. }
    pose proof (teardown_scopes_ok ss rt1 (s :: seen) plans1 I1 Hc1 Hs1) as [_ T2].
    specialize (IH rt1 (s :: seen) plans1 I1 Hc1 Hs1 Hnd).
    destruct (teardown_scopes rt1 ss plans1) as [rt2 [plans'|[]|p|]]; cbn [snd fst] in *; [| |done].
    + destruct IH as [-> Hall]. split.
      * unfold plans1. rewrite bind_app, <- (assoc_L (++)). do 2 f_equal.
        { cbn. rewrite app_nil_r. unfold scope_release. by rewrite Eo. }
        by apply release_unchanged.
      * intros x [->|Hx]%elem_of_cons; [|by rewrite <- Harena, <- (Hloc x Hx); apply Hall].
        split; [|by exists order]. destruct (is_open rt2 s) eqn:E2; [|done].
        apply (td_open _ _ _ T2) in E2 as [E2 _]. rewrite (Hs1 s) in E2; [done|left].
    + destruct IH as [-> Hu]. split; [done|]. unfold unique_publication in *. by rewrite Harena in Hu.
  - destruct Hc as [_ Hc]. specialize (IH rt (s :: seen) plans I Hc).
    specialize (IH ltac:(intros x [->|Hx]%elem_of_cons; auto) Hnd).
    destruct (scope_release_closed rt s I Ho) as [Hord ->].
    destruct (teardown_scopes rt ss plans) as [rt2 [plans'|[]|p|]]; cbn [snd fst] in *; try done.
    destruct IH as [-> Hall]. split; [done|].
    intros x [->|Hx]%elem_of_cons; [|by apply Hall]. split; [|by exists []].
    destruct (is_open rt2 s) eqn:E2; [|done]. apply (td_open _ _ _ T) in E2 as [E2 _]. congruence.
Qed.

(** ** The listed scopes *)
Lemma descendants_below fuel rt s x :
  x ∈ descendants_child_first fuel rt s -> is_Some (scopes rt !! x) /\ exists l, l <> [] /\ x = l ++ s.
Proof.
  revert s. induction fuel as [|fuel IH]; intros s; [by intros ?%elem_of_nil|]. cbn.
  destruct (scopes rt !! s) as [sc|]; [|by intros ?%elem_of_nil].
  intros (n & Hx & [Hn _]%list_elem_of_filter)%list_elem_of_bind.
  apply elem_of_app in Hx as [(Hx & l & Hl & ->)%IH|Hx%list_elem_of_singleton].
  - split; [done|]. exists (l ++ [n]). rewrite <- (assoc_L (++)). split; [by destruct l|done].
  - subst x. split; [done|]. by exists [n].
Qed.
Lemma descendants_NoDup fuel rt s : scope_inv rt -> NoDup (descendants_child_first fuel rt s).
Proof.
  intros I. revert s. induction fuel as [|fuel IH]; intros s; [constructor|]. cbn.
  destruct (scopes rt !! s) as [sc|] eqn:Hsc; [|constructor].
  assert (Hsuf : forall n x, x ∈ descendants_child_first fuel rt (n :: s) ++ [n :: s] ->
    exists l, x = l ++ n :: s).
  { intros n x [(_ & l & _ & ->)%descendants_below|Hx%list_elem_of_singleton]%elem_of_app;
      [by exists l|by exists []]. }
  apply NoDup_bind.
  - intros n m x _ _ [l Hl]%Hsuf [k Hk]%Hsuf. rewrite Hl in Hk.
    rewrite !(cons_middle _ _ s), !(assoc_L (++)) in Hk. apply app_inv_tail in Hk.
    by apply app_inj_tail in Hk as [_ ?].
  - intros n _. apply NoDup_app. split_and!; [apply IH| |apply NoDup_singleton].
    intros x (_ & l & Hl & ->)%descendants_below Hx%list_elem_of_singleton.
    apply (f_equal length) in Hx. rewrite length_app in Hx. simpl in Hx.
    destruct l; [done|simpl in Hx; lia].
  - apply NoDup_filter. rewrite (si_children _ I s sc Hsc). apply NoDup_seq.
Qed.
Lemma scope_list_spec rt s x :
  scope_inv rt -> s <> [] -> is_Some (scopes rt !! s) ->
  x ∈ teardown_scope_list rt s <-> is_Some (scopes rt !! x) /\ s `suffix_of` x.
Proof.
  intros I Hs Hex. unfold teardown_scope_list. rewrite elem_of_app, list_elem_of_singleton. split.
  - intros [(Hx & l & _ & ->)%descendants_below| ->]; (split; [done|]); [by exists l|done].
  - intros [Hx [l ->]]. destruct l as [|n l]; [by right|left].
    apply elem_of_descendants, elem_of_live_descendants; [done|done| |split; [done|by exists (n :: l)]].
    pose proof (suffixes_size rt _ I Hx). lia.
Qed.
Lemma scope_list_NoDup rt s : scope_inv rt -> NoDup (teardown_scope_list rt s).
Proof.
  intros I. unfold teardown_scope_list. apply NoDup_app. split_and!.
  - by apply descendants_NoDup.
  - intros x (_ & l & Hl & ->)%descendants_below Hx%list_elem_of_singleton.
    apply (f_equal length) in Hx. rewrite length_app in Hx. destruct l; [done|simpl in Hx; lia].
  - apply NoDup_singleton.
Qed.
(** A live descendant is listed before its ancestor. *)
Lemma child_first_prefix rt l1 x l2 l :
  scope_inv rt -> child_first rt [] (l1 ++ x :: l2) -> x <> [] -> l <> [] ->
  is_Some (scopes rt !! (l ++ x)) -> l ++ x ∈ l1.
Proof.
  intros I Hc Hne. induction l as [|n l IH]; [done|]. intros _ Hex.
  assert (Hhead : forall k1 y k2, l1 ++ x :: l2 = k1 ++ y :: k2 -> is_Some (scopes rt !! (n :: y)) ->
    (n :: y) ∈ k1).
  { intros k1 y k2 Heq Hy. rewrite Heq in Hc. apply child_first_app in Hc as [_ [Hcy _]].
    specialize (Hcy n Hy). by rewrite app_nil_r, elem_of_reverse in Hcy. }
  destruct l as [|m l]; [by apply (Hhead l1 x l2)|].
  destruct (si_tree _ I n ((m :: l) ++ x)) as (scp & Hscp & _); [done|done|].
  specialize (IH ltac:(done) ltac:(by eexists)).
  apply list_elem_of_split in IH as (k1 & k2 & Hl1).
  assert (Hin : n :: (m :: l) ++ x ∈ k1).
  { apply (Hhead k1 _ (k2 ++ x :: l2)); [|done]. rewrite Hl1, <- (assoc_L (++)). done. }
  rewrite Hl1. apply elem_of_app. by left.
Qed.
Lemma scope_list_before rt s x l :
  scope_inv rt -> s <> [] -> is_Some (scopes rt !! s) -> s `suffix_of` x -> l <> [] ->
  is_Some (scopes rt !! (l ++ x)) -> is_Some (scopes rt !! x) ->
  before (l ++ x) x (teardown_scope_list rt s).
Proof.
  intros I Hs Hex Hx Hl Hlx Hxx.
  assert (Hin : x ∈ teardown_scope_list rt s) by (by apply scope_list_spec).
  pose proof (teardown_scope_list_ok rt s I Hs) as Hc.
  apply list_elem_of_split in Hin as (l1 & l2 & Heq). rewrite Heq in Hc |- *.
  exists l1, (x :: l2). split_and!; [done| |left].
  apply (child_first_prefix rt l1 x l2); try done. intros ->. by rewrite (si_nil _ I) in Hxx; destruct Hxx.
Qed.
Lemma local_exists rt x c e : local_entries rt x !! c = Some e -> is_Some (scopes rt !! x).
Proof. unfold local_entries. destruct (scopes rt !! x); [by eexists|done]. Qed.

Lemma release_NoDup rt ss :
  scope_inv rt -> NoDup ss ->
  (forall x, x ∈ ss -> exists order, runtime_teardown_order (arena rt) (local_entries rt x) = Ok order) ->
  NoDup (ss ≫= scope_release rt).
Proof.
  intros I Hnd Hone. apply NoDup_bind; [| |done].
  - intros x1 x2 e H1 H2 He1 He2. destruct (Hone x1 H1) as [o1 Ho1]. destruct (Hone x2 H2) as [o2 Ho2].
    apply (scope_release_ok rt x1 o1 I Ho1) in He1 as [c1 He1].
    apply (scope_release_ok rt x2 o2 I Ho2) in He2 as [c2 He2].
    by destruct (si_once _ I _ _ _ _ _ He1 He2).
  - intros x Hx. destruct (Hone x Hx) as [o Ho]. by apply (scope_release_ok rt x o).
Qed.

(** The entries of a subtree, in the order in which they are released. *)
Lemma released_order rt s : scope_inv rt -> s <> [] -> is_Some (scopes rt !! s) ->
  (forall x, x ∈ teardown_scope_list rt s -> exists order, runtime_teardown_order (arena rt) (local_entries rt x) = Ok order) ->
  let released := teardown_scope_list rt s ≫= scope_release rt in
  (forall e, e ∈ released <-> exists x c, s `suffix_of` x /\ local_entries rt x !! c = Some e) /\
  (forall x c1 e1 c2 e2, s `suffix_of` x -> local_entries rt x !! c1 = Some e1 -> local_entries rt x !! c2 = Some e2 ->
     c2 ∈ def_dependencies (definition e1) -> before e1 e2 released) /\
  (forall x l c1 e1 c2 e2, s `suffix_of` x -> l <> [] -> local_entries rt (l ++ x) !! c1 = Some e1 ->
     local_entries rt x !! c2 = Some e2 -> before e1 e2 released).
Proof.
  intros I Hs Hex Hone. assert (Hrl : forall x, s `suffix_of` x -> is_Some (scopes rt !! x) ->
    x ∈ teardown_scope_list rt s) by (intros x Hx Hxx; by apply scope_list_spec).
  cbv zeta. split_and!.
  - intros e. rewrite list_elem_of_bind. split.
    + intros (x & He & Hx). destruct (Hone x Hx) as [order Ho].
      apply (scope_release_ok rt x order I Ho) in He as [c He]. exists x, c. split; [|done].
      by apply scope_list_spec in Hx as [_ Hx].
    + intros (x & c & Hx & He). assert (Hin : x ∈ teardown_scope_list rt s)
        by (apply Hrl; [done|by eapply local_exists]).
      destruct (Hone x Hin) as [order Ho]. exists x. split; [|done].
      apply (scope_release_ok rt x order I Ho). by exists c.
  - intros x c1 e1 c2 e2 Hx H1 H2 Hd. assert (Hin : x ∈ teardown_scope_list rt s)
      by (apply Hrl; [done|by eapply local_exists]).
    apply (before_bind_one _ x); [done|]. destruct (Hone x Hin) as [order Ho].
    by apply (scope_release_ok rt x order I Ho) with c1 c2.
  - intros x l c1 e1 c2 e2 Hx Hl H1 H2. pose proof (local_exists _ _ _ _ H1) as Hlx.
    pose proof (local_exists _ _ _ _ H2) as Hxx.
    assert (Hlin : l ++ x ∈ teardown_scope_list rt s)
      by (apply Hrl; [by apply suffix_app_r|done]).
    assert (Hxin : x ∈ teardown_scope_list rt s) by (by apply Hrl).
    apply (before_bind _ (l ++ x) x); [by apply scope_list_before| |].
    + destruct (Hone _ Hlin) as [order Ho]. apply (scope_release_ok rt _ order I Ho). by exists c1.
    + destruct (Hone _ Hxin) as [order Ho]. apply (scope_release_ok rt _ order I Ho). by exists c2.
Qed.

(** C27: teardown.  It answers, and it panics only if some capability was
    published more than once.  When it returns, the scope and everything below
    it is closed and empty and the rest of the tree is untouched; exactly the
    entries held there are released, each once: within a scope every entry
    before the local entries it declares as dependencies, and the entries of a
    scope before those of its ancestors. *)
Theorem teardown_exact w y s rt' r :
  scope_reachable w y -> is_Some (scopes (sys_rt y) !! s) -> teardown (sys_rt y) s = (rt', r) ->
  (forall x, ~ s `suffix_of` x -> scopes rt' !! x = scopes (sys_rt y) !! x) /\
  match r with
  | Ok released =>
      (forall x, s `suffix_of` x -> is_open rt' x = false /\ local_entries rt' x = ∅) /\
      NoDup released /\
      (forall e, e ∈ released <->
         exists x c, s `suffix_of` x /\ local_entries (sys_rt y) x !! c = Some e) /\
      (forall x c1 e1 c2 e2, s `suffix_of` x ->
         local_entries (sys_rt y) x !! c1 = Some e1 -> local_entries (sys_rt y) x !! c2 = Some e2 ->
         c2 ∈ def_dependencies (definition e1) -> before e1 e2 released) /\
      (forall x l c1 e1 c2 e2, s `suffix_of` x -> l <> [] ->
         local_entries (sys_rt y) (l ++ x) !! c1 = Some e1 ->
         local_entries (sys_rt y) x !! c2 = Some e2 -> before e1 e2 released)
  | Panic p => p = teardown_panic /\ ~ unique_publication (sys_rt y)
  | _ => False
  end.
Proof.
  intros Hreach Hex Ht. apply system_inv_reachable in Hreach as [I _]. set (rt := sys_rt y) in *.
  assert (Hs : s <> []) by (intros ->; rewrite (si_nil _ I) in Hex; by destruct Hex).
  pose proof (teardown_ok rt s I) as [I' T].
  pose proof (teardown_scopes_released (teardown_scope_list rt s) rt [] [] I
    (teardown_scope_list_ok rt s I Hs) ltac:(by intros x ?%elem_of_nil) (scope_list_NoDup rt s I)) as Hrel.
  unfold teardown in Ht, I', T. fold (teardown_scope_list rt s) in Ht, I', T.
  destruct (teardown_scopes rt (teardown_scope_list rt s) []) as [rt1 r1]. cbn [fst snd] in *.
  injection Ht as <- <-. split.
  { intros x Hx. apply (td_other _ _ _ T). by intros [_ ?]%scope_list_spec. }
  destruct r1 as [plans|[]|p|]; cbn [mbind result_bind]; [|exact Hrel|done].
  destruct Hrel as [-> Hall]. cbn [mbind list_bind app].
  assert (Hrl : forall x, s `suffix_of` x -> is_Some (scopes rt !! x) ->
    x ∈ teardown_scope_list rt s) by (intros x Hx Hxx; by apply scope_list_spec).
  assert (Hone : forall x, x ∈ teardown_scope_list rt s ->
    exists order, runtime_teardown_order (arena rt) (local_entries rt x) = Ok order)
    by (intros x Hx; by apply Hall).
  split_and!.
  - intros x Hx. assert (Ho : is_open rt1 x = false).
    { destruct (is_open rt1 x) eqn:E; [|done]. pose proof (proj1 (td_dom _ _ _ T x) (is_open_exists _ _ E)) as Hxx.
      destruct (Hall x (Hrl x Hx Hxx)) as [Hc _]. congruence. }
    split; [done|]. by apply (si_closed _ I').
  - apply release_NoDup; [done|by apply scope_list_NoDup|exact Hone].
  - by apply released_order.
  - by apply released_order.
  - by apply released_order.
Qed.

(** ** Concrete histories *)

(** [publish] on its own is the two steps in a row. *)
Lemma publish_reachable w rt ps s d x construct :
  scope_reachable w {| sys_rt := rt; sys_pending := ps |} ->
  scope_reachable w {| sys_rt := (publish rt s d x construct).1; sys_pending := ps |}.
Proof.
  intros Hr. unfold publish. destruct (publish_plan rt s d x) as [snap|e| |] eqn:Ep; try done.
  destruct (construct snap) as [reason|v]; [done|].
  eapply rtc_r; [eapply rtc_r; [exact Hr|exact (step_plan w rt ps s d x snap Ep)]|].
  pose proof (step_finish w rt ps {| in_scope := s; in_def := d; in_expectation := x;
    in_snapshot := snap |} [] v) as Hstep.
  by rewrite app_nil_r in Hstep.
Qed.
Definition construct_value (v : CapabilityValue) (_ : gmap CapabilityId CapabilityEntry) :
  string + CapabilityValue := inr v.
Definition provide_sample (s : ScopeId) (c : CapabilityId) (deps : list CapabilityId) (rt : Runtime) :
  Runtime := (provide rt s (sample_def c deps) (construct_value 0%N)).1.

(** A root, a child that shadows [p] and [q], and a grandchild with one entry. *)
Definition sample_base : Runtime :=
  provide_sample [0] "a" ["p"] (provide_sample [0] "p" ["q"] (provide_sample [0] "q" []
    (root Runtime_start 0))).
Definition sample_shadowed : Runtime :=
  provide_sample [0; 0] "q" ["a"; "p"] (provide_sample [0; 0] "p" [] (child sample_base [0])).
Definition sample_panicking : Runtime :=
  provide_sample [0; 0; 0] "x" ["q"] (child sample_shadowed [0; 0]).
Lemma sample_panicking_reachable : scope_reachable false {| sys_rt := sample_panicking; sys_pending := [] |}.
Proof.
  apply publish_reachable. eapply rtc_r; [|apply step_child].
  do 2 apply publish_reachable. eapply rtc_r; [|apply step_child].
  do 3 apply publish_reachable. eapply rtc_l; [by apply (step_root false _ _ 0)|apply rtc_refl].
Qed.

(** C34: admission does not keep a teardown from panicking.  Six publications
    that were all admitted, with nothing replaced or withdrawn, lead to an open
    scope whose visible graph resolves and whose teardown panics: the graph of
    a teardown puts the current definition of one capability beside an older,
    shadowed definition of another. *)
Theorem teardown_can_panic :
  exists y s, scope_reachable false y /\ is_open (sys_rt y) s = true /\
    size (arena (sys_rt y)) = 6 /\ is_Ok (resolve (visible_graph (sys_rt y) s)) /\
    (teardown (sys_rt y) s).2 = Panic teardown_panic.
Proof.
  exists {| sys_rt := sample_panicking; sys_pending := [] |}, [0; 0; 0].
  split; [exact sample_panicking_reachable|]. split_and!; try (vm_compute; reflexivity).
  eexists. vm_compute. reflexivity.
Qed.
Lemma teardown_exact_witness :
  scope_reachable false sample_system /\ is_Some (scopes sample_p !! [0]) /\
  exists e, (teardown sample_p [0]).2 = Ok [e] /\ handle_id e = "p" /\
    is_open (teardown sample_p [0]).1 [0] = false.
Proof.
  assert (Hs : is_Some (scopes sample_p !! [0])) by (eexists; vm_compute; reflexivity).
  split; [exact sample_system_reachable|]. split; [exact Hs|].
  set (res := teardown sample_p [0]).
  assert (He : exists e, res.2 = Ok [e] /\ handle_id e = "p")
    by (eexists; split; vm_compute; reflexivity).
  destruct He as (e & He & Hid). exists e. split_and!; [done|done|].
  destruct (teardown_exact false sample_system [0] res.1 (Ok [e]) sample_system_reachable Hs) as (_ & Hcl & _).
  - change (res = (res.1, Ok [e])). rewrite <- He. by destruct res.
  - by apply (Hcl [0]).
Defined.
