(* ===== verification/Plugin.v ===== *)
(** * Plugin definitions: [crates/capability-graph/src/semantic.rs]

    What a host registers: a plugin names the capability it publishes, the
    factory that loads it and the validator of its configuration.  The closures
    are names; the [Arc<PluginRuntime>] that all fibers of a plugin share is the
    name of the object with its immutable definition. *)
From S2P Require Export CapabilityGraphFacts.
#[local] Open Scope string_scope.
#[local] Open Scope nat_scope.
#[local] Open Scope list_scope.

Definition PluginConfig : Set := string.
Definition PluginFactory : Set := N.
Definition ConfigValidator : Set := N.
Record PluginDefinition := {
  plugin_id : Id;
  plugin_capability : CapabilityDefinition;
  plugin_factory : PluginFactory;
  plugin_validator : ConfigValidator
}.
(** The validator of a new definition accepts everything; it has the name 0. *)
Definition PluginDefinition_new (id : Id) (c : CapabilityDefinition) (f : PluginFactory) : PluginDefinition :=
  {| plugin_id := id; plugin_capability := c; plugin_factory := f; plugin_validator := 0%N |}.
Definition with_validator (p : PluginDefinition) (v : ConfigValidator) : PluginDefinition :=
  {| plugin_id := plugin_id p; plugin_capability := plugin_capability p;
     plugin_factory := plugin_factory p; plugin_validator := v |}.
Record PluginRuntime := { plugin_object : N; plugin_definition : PluginDefinition }.
Definition runtime_plugin_id (r : PluginRuntime) : Id := plugin_id (plugin_definition r).
