(* ===== verification/Context.v ===== *)
(** * Capability contexts and dependency bindings:
    [crates/capability-graph/src/semantic.rs]

    A context is a view of a scope with two local adjustments, the capabilities
    it isolates and the plugin configurations it overrides, chained to the
    context it was made from.  The chain is the list of its states, the own one
    first: the [parent] of a context is the tail of the list. *)
From S2P Require Export Plugin ScopeSafety.
#[local] Open Scope string_scope.
#[local] Open Scope nat_scope.
#[local] Open Scope list_scope.

(** ** Contexts *)
Record ContextState := {
  context_scope : ScopeId;
  isolation : gset CapabilityId;
  intercepts : gmap CapabilityId PluginConfig
}.
Abbreviation CapabilityContext := (list ContextState).
Definition plain_context (s : ScopeId) : ContextState :=
  {| context_scope := s; isolation := ∅; intercepts := ∅ |}.
Fixpoint from_scope (s : ScopeId) : CapabilityContext :=
  match s with
  | [] => []
  | _ :: p => plain_context s :: from_scope p
  end.
(** [CapabilityContext::root]: [n] is the fresh index of the root scope. *)
Definition CapabilityContext_root (rt : Runtime) (n : nat) : Runtime * CapabilityContext :=
  (root rt n, from_scope [n]).
Definition scope_of (c : CapabilityContext) : ScopeId :=
  match c with st :: _ => context_scope st | [] => [] end.
Fixpoint root_context (c : CapabilityContext) : CapabilityContext :=
  match c with
  | [] => []
  | st :: parent => match parent with [] => [st] | _ => root_context parent end
  end.
(** The name [Scope::child] gives to the child it creates. *)
Definition child_id (rt : Runtime) (s : ScopeId) : ScopeId :=
  match scopes rt !! s with Some sc => length (children sc) :: s | None => s end.
Definition derive (rt : Runtime) (c : CapabilityContext) (isolated : gset CapabilityId)
  (overrides : gmap CapabilityId PluginConfig) : Runtime * CapabilityContext :=
  (child rt (scope_of c),
   {| context_scope := child_id rt (scope_of c); isolation := isolated; intercepts := overrides |} :: c).
Definition child_context (rt : Runtime) (c : CapabilityContext) : Runtime * CapabilityContext :=
  derive rt c ∅ ∅.
Definition extend (rt : Runtime) (c : CapabilityContext) : Runtime * CapabilityContext :=
  child_context rt c.
Definition isolate (rt : Runtime) (c : CapabilityContext) (id : CapabilityId) :
  Runtime * CapabilityContext := derive rt c {[id]} ∅.
Definition intercept (rt : Runtime) (c : CapabilityContext) (plugin : CapabilityId)
  (config : PluginConfig) : Runtime * CapabilityContext := derive rt c ∅ {[plugin := config]}.

(** *** Lookup

    [has_local] and the [get] that follows it take the lock of a scope one after
    the other: the walk sees the tree [before], and the handle is taken from the
    tree [after]. *)
Fixpoint context_get (before after : Runtime) (c : CapabilityContext) (id : CapabilityId) :
  option CapabilityEntry :=
  match c with
  | [] => None
  | st :: parent =>
      if has_local before (context_scope st) id then get after (context_scope st) id
      else if bool_decide (id ∈ isolation st) then None
      else context_get before after parent id
  end.
Fixpoint intercepted_config (c : CapabilityContext) (plugin : CapabilityId) : option PluginConfig :=
  match c with
  | [] => None
  | st :: parent =>
      match intercepts st !! plugin with
      | Some config => Some config
      | None => intercepted_config parent plugin
      end
  end.
(** [resolve_dependencies], when nothing changes the tree while it runs. *)
Definition context_dependency (rt : Runtime) (c : CapabilityContext) (id : CapabilityId)
  (handles : gmap CapabilityId CapabilityEntry) (d : CapabilityId) :
  result ScopeError (gmap CapabilityId CapabilityEntry) :=
  h ← ok_or (context_get rt rt c d) (MissingDependency id d); Ok (<[d := h]> handles).
Definition context_dependencies (rt : Runtime) (c : CapabilityContext) (d : CapabilityDefinition) :
  result ScopeError (gmap CapabilityId CapabilityEntry) :=
  foldM (context_dependency rt c (def_id d)) (set_iter (def_dependencies d)) ∅.
Definition context_provide (rt : Runtime) (c : CapabilityContext) (d : CapabilityDefinition)
  (construct : gmap CapabilityId CapabilityEntry -> string + CapabilityValue) :
  Runtime * result ScopeError CapabilityEntry :=
  match context_dependencies rt c d with
  | Ok _ => provide rt (scope_of c) d construct
  | Err e => (rt, Err e)
  | Panic p => (rt, Panic p)
  | NoFuel => (rt, NoFuel)
  end.
Definition context_teardown (rt : Runtime) (c : CapabilityContext) :
  Runtime * result Empty_set (list CapabilityEntry) := teardown rt (scope_of c).

(** ** Bindings and epochs *)
Record DependencyPin := { pin_generation : Generation; pin_entry : EntryId }.
#[export] Instance DependencyPin_eq_dec : EqDecision DependencyPin.
Proof. unfold EqDecision, Generation, EntryId. solve_decision. Defined.
Abbreviation DependencyBinding := (gmap CapabilityId DependencyPin).
Definition binding_of (handles : gmap CapabilityId CapabilityEntry) : DependencyBinding :=
  (fun h => {| pin_generation := generation h; pin_entry := entry_id h |}) <$> handles.
Definition binding_pin (b : DependencyBinding) (id : CapabilityId) : option DependencyPin := b !! id.
Definition binding_generation (b : DependencyBinding) (id : CapabilityId) : option Generation :=
  pin_generation <$> b !! id.
Definition binding_entry_id (b : DependencyBinding) (id : CapabilityId) : option EntryId :=
  pin_entry <$> b !! id.
Definition binding_iter (b : DependencyBinding) : list (CapabilityId * DependencyPin) := map_iter b.
Definition binding_is_empty (b : DependencyBinding) : bool := bool_decide (b = ∅).
Record DependencyEpoch := { transition_token : N; binding : DependencyBinding }.
Definition epoch_of (token : N) (handles : gmap CapabilityId CapabilityEntry) : DependencyEpoch :=
  {| transition_token := token; binding := binding_of handles |}.
Definition epoch_generation (e : DependencyEpoch) (id : CapabilityId) : option Generation :=
  binding_generation (binding e) id.
Definition epoch_entry_id (e : DependencyEpoch) (id : CapabilityId) : option EntryId :=
  binding_entry_id (binding e) id.
Definition epoch_is_empty (e : DependencyEpoch) : bool := binding_is_empty (binding e).

(** ** The chain of a context *)

(** The scopes of a chain are those on the path of its first scope. *)
Fixpoint chained (c : CapabilityContext) : Prop :=
  match c with
  | [] => True
  | st :: parent => context_scope st <> [] /\ tail (context_scope st) = scope_of parent /\ chained parent
  end.
(** The first state that has the capability, with no isolation before it. *)
Definition provider (rt : Runtime) (c : CapabilityContext) (id : CapabilityId) (h : CapabilityEntry) : Prop :=
  exists c1 st c2, c = c1 ++ st :: c2 /\ local_entries rt (context_scope st) !! id = Some h /\
    forall x, x ∈ c1 -> local_entries rt (context_scope x) !! id = None /\ id ∉ isolation x.

Lemma chained_from_scope s : chained (from_scope s).
Proof.
  induction s as [|n p IH]; [done|]. cbn. split_and!; [done| |done]. destruct p as [|m p]; done.
Qed.
Lemma scope_of_from_scope s : scope_of (from_scope s) = s.
Proof. by destruct s. Qed.
Lemma chained_derive rt c i o :
  is_Some (scopes rt !! scope_of c) -> chained c -> chained (derive rt c i o).2.
Proof.
  intros [sc Hsc] Hc. cbn. unfold child_id. rewrite Hsc. split_and!; [done|done|done].
Qed.
Lemma get_local_first rt s id h :
  scope_inv rt -> local_entries rt s !! id = Some h -> get rt s id = Some h.
Proof.
  intros I Hl. destruct s as [|n p].
  { rewrite (local_entries_absent rt []) in Hl by apply (si_nil _ I). by rewrite lookup_empty in Hl. }
  cbn. destruct (is_open rt (n :: p)) eqn:Eo; cbn; [by rewrite Hl|].
  rewrite (si_closed _ I _ Eo) in Hl. by rewrite lookup_empty in Hl.
Qed.
Lemma context_get_provider rt c id h :
  scope_inv rt -> context_get rt rt c id = Some h <-> provider rt c id h.
Proof.
  intros I. induction c as [|st c IH]; cbn [context_get].
  { split; [done|]. intros (c1 & st & c2 & Heq & _). by destruct c1. }
  unfold has_local, has_local_entry. case_bool_decide as Hl.
  - destruct Hl as [e He]. rewrite (get_local_first rt _ id e I He). split.
    + intros [= <-]. exists [], st, c. split_and!; [done|done|]. by intros x ?%elem_of_nil.
    + intros (c1 & st' & c2 & Heq & Hl & Hc1). destruct c1 as [|x c1].
      * injection Heq as -> ->. congruence.
      * injection Heq as -> _. destruct (Hc1 x) as [Hn _]; [left|]. congruence.
  - assert (Hn : local_entries rt (context_scope st) !! id = None).
    { destruct (local_entries rt (context_scope st) !! id) eqn:E; [|done]. destruct Hl. by eexists. }
    case_bool_decide as Hi.
    + split; [done|]. intros (c1 & st' & c2 & Heq & Hl' & Hc1). destruct c1 as [|x c1].
      * injection Heq as -> ->. congruence.
      * injection Heq as -> _. by destruct (Hc1 x) as [_ ?]; [left|].
    + rewrite IH. split.
      * intros (c1 & st' & c2 & -> & Hl' & Hc1). exists (st :: c1), st', c2. split_and!; [done|done|].
        intros x [->|Hx]%elem_of_cons; [done|by apply Hc1].
      * intros (c1 & st' & c2 & Heq & Hl' & Hc1). destruct c1 as [|x c1].
        -- injection Heq as -> ->. congruence.
        -- injection Heq as -> ->. exists c1, st', c2. split_and!; [done|done|].
           intros x' Hx'. apply Hc1. by right.
Qed.
(** A context only hides capabilities of its scope, and a context that isolates
    nothing hides none. *)
Lemma context_get_scope rt c id h :
  scope_inv rt -> chained c -> is_open rt (scope_of c) = true ->
  context_get rt rt c id = Some h -> get rt (scope_of c) id = Some h.
Proof.
  intros I Hc Ho. rewrite (context_get_provider rt c id h I). revert Ho Hc.
  induction c as [|st c IH]; intros Ho Hc (c1 & st' & c2 & Heq & Hl & Hc1); [by destruct c1|].
  destruct Hc as (Hne & Htail & Hc). cbn [scope_of] in *. destruct c1 as [|x c1].
  - injection Heq as -> ->. by apply get_local_first.
  - injection Heq as -> ->. destruct (Hc1 x) as [Hn _]; [left|].
    destruct (context_scope x) as [|n p] eqn:Es; [done|]. cbn [get tail] in *. rewrite Ho. cbn [negb].
    rewrite Hn. rewrite Htail. apply IH.
    + rewrite <- Htail. apply (si_open _ I n p Ho). intros ->. destruct (c1 ++ st' :: c2) as [|y l] eqn:El.
      * by destruct c1.
      * destruct Hc as (Hy & _). cbn in Htail. by rewrite <- Htail in Hy.
    + done.
    + exists c1, st', c2. split_and!; [done|done|]. intros y Hy. apply Hc1. by right.
Qed.
Lemma scope_get_context rt c id h :
  scope_inv rt -> chained c -> (forall st, st ∈ c -> id ∉ isolation st) ->
  get rt (scope_of c) id = Some h -> context_get rt rt c id = Some h.
Proof.
  intros I. induction c as [|st c IH]; intros Hc Hi Hg; [done|]. destruct Hc as (Hne & Htail & Hc).
  cbn [scope_of] in Hg. cbn [context_get]. unfold has_local, has_local_entry. case_bool_decide as Hl; [done|].
  rewrite bool_decide_false by (apply Hi; left). apply IH; [done|intros x Hx; apply Hi; by right|].
  destruct (context_scope st) as [|n p]; [done|]. cbn [get tail] in *.
  destruct (is_open rt (n :: p)); [|done]. cbn in Hg.
  destruct (local_entries rt (n :: p) !! id) eqn:E; [by destruct Hl; eexists|]. by rewrite <- Htail.
Qed.
Lemma context_dependencies_spec rt c d :
  match context_dependencies rt c d with
  | Ok snap => dom snap = def_dependencies d /\
      forall k h, snap !! k = Some h <-> k ∈ def_dependencies d /\ context_get rt rt c k = Some h
  | Err e => exists k, e = MissingDependency (def_id d) k /\ k ∈ def_dependencies d /\
      context_get rt rt c k = None
  | _ => False
  end.
Proof. apply snapshot_spec. Qed.
