(* ===== verification/ContextSafety.v ===== *)
(** * What the lookups of a context promise *)
From S2P Require Export Context Admission.
#[local] Open Scope string_scope.
#[local] Open Scope nat_scope.
#[local] Open Scope list_scope.

(** A context finds the nearest provider.  While nothing changes the tree,
    [get] returns the local entry of the first context of the chain that has
    one, unless a context before it isolates the capability; what it returns is
    what its scope sees, and a context that isolates the capability nowhere sees
    exactly what its scope sees. *)
Theorem context_lookup_exact b y c id :
  scope_reachable b y -> chained c -> is_open (sys_rt y) (scope_of c) = true ->
  (forall h, context_get (sys_rt y) (sys_rt y) c id = Some h <-> provider (sys_rt y) c id h) /\
  (forall h, context_get (sys_rt y) (sys_rt y) c id = Some h -> get (sys_rt y) (scope_of c) id = Some h) /\
  ((forall st, st ∈ c -> id ∉ isolation st) ->
     context_get (sys_rt y) (sys_rt y) c id = get (sys_rt y) (scope_of c) id).
Proof.
  intros [I _]%system_inv_reachable Hc Ho. split_and!.
  - intros h. by apply context_get_provider.
  - intros h. by apply context_get_scope.
  - intros Hi. destruct (get (sys_rt y) (scope_of c) id) as [h|] eqn:Hg.
    + by apply scope_get_context.
    + destruct (context_get (sys_rt y) (sys_rt y) c id) as [h|] eqn:Hx; [|done].
      apply context_get_scope in Hx; [congruence|done..].
Qed.
(** A root scope that publishes [p], and an isolating child that has its own. *)
Definition isolating : CapabilityContext :=
  {| context_scope := [0; 0]; isolation := {["p"]}; intercepts := ∅ |} :: from_scope [0].
Lemma isolating_chained : chained isolating.
Proof. split; [discriminate|]. split; [reflexivity|]. apply (chained_from_scope [0]). Qed.
Definition two_p : Runtime :=
  (publish_preconstructed (child sample_p [0]) [0; 0] (sample_def "p" []) New ∅ 9%N).1.
Lemma two_p_reachable : scope_reachable true {| sys_rt := two_p; sys_pending := [] |}.
Proof.
  eapply rtc_l; [apply (step_root true _ _ 0); reflexivity|].
  eapply rtc_l; [apply (step_plan true _ _ [0] (sample_def "p" []) New ∅); vm_compute; reflexivity|].
  eapply rtc_l; [apply (step_finish true _ [] {| in_scope := [0]; in_def := sample_def "p" [];
    in_expectation := New; in_snapshot := ∅ |} [] 7%N)|].
  eapply rtc_l; [apply (step_child true _ _ [0])|].
  eapply rtc_l; [apply (step_plan true _ _ [0; 0] (sample_def "p" []) New ∅); vm_compute; reflexivity|].
  eapply rtc_l; [apply (step_finish true _ [] {| in_scope := [0; 0]; in_def := sample_def "p" [];
    in_expectation := New; in_snapshot := ∅ |} [] 9%N)|].
  apply rtc_refl.
Qed.
(** The two locks of a lookup leave a gap: an isolated capability that is
    withdrawn between [has_local] and [get] is found in the parent's scope, with
    neither the tree before nor the one after giving that answer. *)
Theorem isolation_race :
  exists y y' id h,
    scope_reachable true y /\ scope_step true y y' /\ chained isolating /\
    (exists st c, isolating = st :: c /\ id ∈ isolation st) /\
    context_get (sys_rt y) (sys_rt y') isolating id = Some h /\
    context_get (sys_rt y) (sys_rt y) isolating id <> Some h /\
    context_get (sys_rt y') (sys_rt y') isolating id = None.
Proof.
  set (after := (withdraw two_p [0; 0] "p" 1%N).1).
  destruct (get two_p [0] "p") as [h|] eqn:Hh; [|by vm_compute in Hh].
  exists {| sys_rt := two_p; sys_pending := [] |}, {| sys_rt := after; sys_pending := [] |}, "p", h.
  split_and!.
  - exact two_p_reachable.
  - by apply step_withdraw.
  - exact isolating_chained.
  - eexists _, _. split; [reflexivity|]. set_solver.
  - rewrite <- Hh. vm_compute. reflexivity.
  - rewrite <- Hh. vm_compute. discriminate.
  - vm_compute. reflexivity.
Qed.
Lemma context_lookup_exact_witness :
  exists h, context_get two_p two_p isolating "p" = Some h /\ get two_p [0; 0] "p" = Some h.
Proof.
  destruct (context_get two_p two_p isolating "p") as [h|] eqn:Hh; [|by vm_compute in Hh]. exists h. split; [reflexivity|].
  destruct (context_lookup_exact true {| sys_rt := two_p; sys_pending := [] |} isolating "p" two_p_reachable)
    as (_ & Hs & _); [exact isolating_chained|vm_compute; reflexivity|]. exact (Hs h Hh).
Defined.
