(* ===== verification/EffectStack.v ===== *)
(** * Owned effects: [crates/capability-graph/src/semantic.rs]

    Stacks of disposers, the scopes that share them, and their disposal in
    reverse order.  An [EffectScope] is shared by its clones, so a scope is a
    name in a table of stacks; a disposer of the host is a name too.  Disposers
    are asynchronous: a disposal in progress is a list of frames, the innermost
    first, and one step pops one effect or one finished frame. *)
From S2P Require Export Scope.
#[local] Open Scope string_scope.
#[local] Open Scope nat_scope.
#[local] Open Scope list_scope.

Definition EffectScopeId : Set := N.
(** A disposer: a closure of the host, or the disposal of a child scope. *)
Inductive Disposer := Host (d : N) | Nested (s : EffectScopeId).
#[export] Instance Disposer_eq_dec : EqDecision Disposer.
Proof. unfold EqDecision, EffectScopeId. solve_decision. Defined.
#[export] Instance Disposer_countable : Countable Disposer.
Proof.
  apply (inj_countable' (fun d => match d with Host n => inl n | Nested n => inr n end)
    (fun s => match s with inl n => Host n | inr n => Nested n end)). by intros [].
Defined.
Record ScopedEffect := { label : string; disposer : option Disposer }.
Definition ScopedEffect_sync (label : string) (d : N) : ScopedEffect :=
  {| label := label; disposer := Some (Host d) |}.
Definition ScopedEffect_asynchronous (label : string) (d : Disposer) : ScopedEffect :=
  {| label := label; disposer := Some d |}.

Inductive EffectError :=
  | EffectClosed
  | DisposerFailed (label reason : string)
  | EffectScopeError (reason : string).
#[export] Instance EffectError_eq_dec : EqDecision EffectError.
Proof. solve_decision. Defined.
Definition EffectError_from_scope (e : ScopeError) : EffectError := EffectScopeError (ScopeError_display e).
Definition EffectError_display (e : EffectError) : string :=
  match e with
  | EffectClosed => "effect scope is closed"
  | DisposerFailed label reason => "effect " +:+ label +:+ " cleanup failed: " +:+ reason
  | EffectScopeError reason => reason
  end.

(** ** Stacks *)
Record EffectStack := { effects : list ScopedEffect; closed : bool }.
Definition EffectStack_new : EffectStack := {| effects := []; closed := false |}.
Definition push (st : EffectStack) (e : ScopedEffect) : result EffectError EffectStack :=
  if closed st then Err EffectClosed
  else Ok {| effects := effects st ++ [e]; closed := false |}.

(** ** Scopes *)
Record EffectScopes := { stacks : gmap EffectScopeId EffectStack; next_effect_scope : EffectScopeId }.
Definition EffectScope_new (t : EffectScopes) : EffectScopes * EffectScopeId :=
  ({| stacks := <[next_effect_scope t := EffectStack_new]> (stacks t);
      next_effect_scope := (next_effect_scope t + 1)%N |}, next_effect_scope t).
Definition set_stack (t : EffectScopes) (s : EffectScopeId) (st : EffectStack) : EffectScopes :=
  {| stacks := <[s := st]> (stacks t); next_effect_scope := next_effect_scope t |}.
Definition stack_of (t : EffectScopes) (s : EffectScopeId) : EffectStack :=
  default EffectStack_new (stacks t !! s).
Definition effect_register (t : EffectScopes) (s : EffectScopeId) (e : ScopedEffect) :
  result EffectError EffectScopes :=
  st ← push (stack_of t s) e; Ok (set_stack t s st).
(** [EffectScope::child]: the new scope stays with its parent's effect. *)
Definition effect_child (t : EffectScopes) (s : EffectScopeId) (label : string) :
  result EffectError (EffectScopes * EffectScopeId) :=
  let p := EffectScope_new t in
  t ← effect_register p.1 s (ScopedEffect_asynchronous label (Nested p.2)); Ok (t, p.2).

(** ** Disposal *)

(** The stack is closed and its effects are taken. *)
Definition take_effects (t : EffectScopes) (s : EffectScopeId) : EffectScopes * list ScopedEffect :=
  (set_stack t s {| effects := []; closed := true |}, effects (stack_of t s)).
(** A [run_effects] in progress, for the effect [frame_label] of the frame
    below it. *)
Record frame := { frame_label : string; todo : list ScopedEffect; errors : list EffectError }.
Definition dispose_all (t : EffectScopes) (s : EffectScopeId) : EffectScopes * list frame :=
  let p := take_effects t s in (p.1, [{| frame_label := ""; todo := p.2; errors := [] |}]).
(** The outcome of a disposer is recorded under its label. *)
Definition record_outcome (f : frame) (l : list ScopedEffect) (label : string) (failure : option string) : frame :=
  {| frame_label := frame_label f; todo := l;
     errors := errors f ++ match failure with Some reason => [DisposerFailed label reason] | None => [] end |}.
(** What a nested disposal reports to its parent. *)
Definition nested_failure (es : list EffectError) : option string :=
  match es with
  | [] => None
  | _ => Some ("nested effect cleanup failed: " +:+ pretty (length es) +:+ " error(s)")
  end.
(** [run_effects] from one disposer to the next; [answer] is the outcome of a
    disposer of the host.  [None] when the disposal is finished. *)
Definition dispose_step (t : EffectScopes) (fs : list frame) (answer : option string) :
  option (EffectScopes * list frame) :=
  match fs with
  | [] => None
  | f :: rest =>
      match last (todo f) with
      | None =>
          match rest with
          | [] => None
          | parent :: rest =>
              Some (t, record_outcome parent (todo parent) (frame_label f) (nested_failure (errors f)) :: rest)
          end
      | Some e =>
          let l := removelast (todo f) in
          match disposer e with
          | None => Some (t, {| frame_label := frame_label f; todo := l; errors := errors f |} :: rest)
          | Some (Host _) => Some (t, record_outcome f l (label e) answer :: rest)
          | Some (Nested s) =>
              let p := take_effects t s in
              Some (p.1, {| frame_label := label e; todo := p.2; errors := [] |} ::
                         {| frame_label := frame_label f; todo := l; errors := errors f |} :: rest)
          end
      end
  end.
(** The disposer of the host that runs next. *)
Definition next_disposer (fs : list frame) : option N :=
  match fs with
  | f :: _ => match last (todo f) with
              | Some e => match disposer e with Some (Host d) => Some d | _ => None end
              | None => None
              end
  | [] => None
  end.
Definition disposal_errors (fs : list frame) : list EffectError :=
  match fs with f :: _ => errors f | [] => [] end.
