(* ===== verification/Fiber.v ===== *)
(** * Plugin fibers: [crates/capability-graph/src/semantic.rs]

    A fiber loads a plugin once its dependencies are visible, publishes what the
    factory returns, and unloads it again.  Every operation on a fiber is an
    asynchronous call that takes the fiber's transition lock.  A call in
    progress is a task with a program point [pc]; one step of a task runs to the
    next access of something other threads write: a request of another caller,
    the scope tree, an effect stack, an answer of the host.  The cells that only
    the holder of the lock writes are grouped in [FiberCells], the requests that
    anyone writes in [FiberRequests]. *)
From S2P Require Export Context EffectStack.
#[local] Open Scope string_scope.
#[local] Open Scope nat_scope.
#[local] Open Scope list_scope.

(** ** States and errors *)
Definition FiberId : Set := N.
Definition FiberId_get (f : FiberId) : N := f.
Inductive FiberState := Pending | Loading | Active | Failed | Unloading | Disposed.
#[export] Instance FiberState_eq_dec : EqDecision FiberState.
Proof. solve_decision. Defined.
Definition as_raw (s : FiberState) : N :=
  match s with
  | Pending => 0 | Loading => 1 | Active => 2 | Failed => 3 | Unloading => 4 | Disposed => 5
  end%N.
Definition from_raw (raw : N) : FiberState :=
  match raw with
  | 0 => Pending | 1 => Loading | 2 => Active | 3 => Failed | 4 => Unloading | _ => Disposed
  end%N.
Inductive FiberError :=
  | FiberDisposed
  | InvalidConfig (plugin : Id) (reason : string)
  | InitializationFailed (plugin : Id) (reason : string) (cleanup_errors : list EffectError)
  | FiberScopeError (e : ScopeError)
  | InactiveEffect (s : FiberState)
  | FiberIdExhausted
  | Cleanup (es : list EffectError)
  | FiberEffectError (e : EffectError).
#[export] Instance FiberError_eq_dec : EqDecision FiberError.
Proof. solve_decision. Defined.
(** The derived [Debug] of a state is its name. *)
Definition FiberState_debug (s : FiberState) : string :=
  match s with
  | Pending => "Pending" | Loading => "Loading" | Active => "Active" | Failed => "Failed"
  | Unloading => "Unloading" | Disposed => "Disposed"
  end.
Definition FiberError_display (e : FiberError) : string :=
  match e with
  | FiberDisposed => "fiber is disposed"
  | InvalidConfig p r => "invalid config for plugin " +:+ Id_display p +:+ ": " +:+ r
  | InitializationFailed p r _ => "plugin " +:+ Id_display p +:+ " initialization failed: " +:+ r
  | FiberScopeError e => ScopeError_display e
  | InactiveEffect s => "cannot create effect while fiber is " +:+ FiberState_debug s
  | FiberIdExhausted => "fiber id exhausted"
  | Cleanup es => "fiber cleanup failed with " +:+ pretty (length es) +:+ " error(s)"
  | FiberEffectError e => EffectError_display e
  end.
Inductive RegistryError :=
  | RegistryDuplicate (id : Id)
  | RegistryUnknown (id : Id)
  | RegistryFiber (e : FiberError)
  | RegistryDispose (plugin : Id) (es : list FiberError).
Definition RegistryError_display (e : RegistryError) : string :=
  match e with
  | RegistryDuplicate id => "plugin runtime already registered: " +:+ Id_display id
  | RegistryUnknown id => "unknown plugin runtime: " +:+ Id_display id
  | RegistryFiber e => FiberError_display e
  | RegistryDispose p es =>
      "disposing plugin " +:+ Id_display p +:+ " failed with " +:+ pretty (length es) +:+ " error(s)"
  end.

(** ** Fibers *)
Definition TaskId : Set := N.
Record FiberRequests := {
  config : PluginConfig;
  requested_epoch : N;
  dispose_requested : bool;
  force_reload : bool
}.
Record FiberCells := {
  state : FiberState;
  handle : option CapabilityEntry;
  dependency_epoch : option DependencyEpoch;
  loading_binding : option DependencyBinding;
  effect_scope : EffectScopeId;
  last_cleanup_errors : list EffectError;
  last_error : option string
}.
Record CapabilityFiber := {
  fiber_id : FiberId;
  fiber_runtime : N;
  fiber_context : CapabilityContext;
  fiber_definition : PluginDefinition;
  requests : FiberRequests;
  cells : FiberCells;
  transition : option TaskId
}.
Definition with_requests (f : CapabilityFiber) (q : FiberRequests) : CapabilityFiber :=
  {| fiber_id := fiber_id f; fiber_runtime := fiber_runtime f; fiber_context := fiber_context f;
     fiber_definition := fiber_definition f; requests := q; cells := cells f; transition := transition f |}.
Definition with_cells (f : CapabilityFiber) (c : FiberCells) : CapabilityFiber :=
  {| fiber_id := fiber_id f; fiber_runtime := fiber_runtime f; fiber_context := fiber_context f;
     fiber_definition := fiber_definition f; requests := requests f; cells := c; transition := transition f |}.
Definition with_transition (f : CapabilityFiber) (t : option TaskId) : CapabilityFiber :=
  {| fiber_id := fiber_id f; fiber_runtime := fiber_runtime f; fiber_context := fiber_context f;
     fiber_definition := fiber_definition f; requests := requests f; cells := cells f; transition := t |}.

(** *** Requests *)
(** [requested_epoch.fetch_add(1)], which wraps. *)
Definition bump_epoch (q : FiberRequests) : FiberRequests :=
  {| config := config q; requested_epoch := ((requested_epoch q + 1) mod 2 ^ 64)%N;
     dispose_requested := dispose_requested q; force_reload := force_reload q |}.
Definition set_config (c : PluginConfig) (q : FiberRequests) : FiberRequests :=
  {| config := c; requested_epoch := requested_epoch q;
     dispose_requested := dispose_requested q; force_reload := force_reload q |}.
Definition request_dispose (q : FiberRequests) : FiberRequests :=
  {| config := config q; requested_epoch := requested_epoch q;
     dispose_requested := true; force_reload := force_reload q |}.
Definition set_force (b : bool) (q : FiberRequests) : FiberRequests :=
  {| config := config q; requested_epoch := requested_epoch q;
     dispose_requested := dispose_requested q; force_reload := b |}.

(** *** Cells *)
Definition set_state (s : FiberState) (c : FiberCells) : FiberCells :=
  {| state := s; handle := handle c; dependency_epoch := dependency_epoch c;
     loading_binding := loading_binding c; effect_scope := effect_scope c;
     last_cleanup_errors := last_cleanup_errors c; last_error := last_error c |}.
Definition set_handle (h : option CapabilityEntry) (c : FiberCells) : FiberCells :=
  {| state := state c; handle := h; dependency_epoch := dependency_epoch c;
     loading_binding := loading_binding c; effect_scope := effect_scope c;
     last_cleanup_errors := last_cleanup_errors c; last_error := last_error c |}.
Definition set_epoch (e : option DependencyEpoch) (c : FiberCells) : FiberCells :=
  {| state := state c; handle := handle c; dependency_epoch := e;
     loading_binding := loading_binding c; effect_scope := effect_scope c;
     last_cleanup_errors := last_cleanup_errors c; last_error := last_error c |}.
Definition set_loading (b : option DependencyBinding) (c : FiberCells) : FiberCells :=
  {| state := state c; handle := handle c; dependency_epoch := dependency_epoch c;
     loading_binding := b; effect_scope := effect_scope c;
     last_cleanup_errors := last_cleanup_errors c; last_error := last_error c |}.
Definition set_effects (s : EffectScopeId) (c : FiberCells) : FiberCells :=
  {| state := state c; handle := handle c; dependency_epoch := dependency_epoch c;
     loading_binding := loading_binding c; effect_scope := s;
     last_cleanup_errors := last_cleanup_errors c; last_error := last_error c |}.
Definition set_cleanup (es : list EffectError) (c : FiberCells) : FiberCells :=
  {| state := state c; handle := handle c; dependency_epoch := dependency_epoch c;
     loading_binding := loading_binding c; effect_scope := effect_scope c;
     last_cleanup_errors := es; last_error := last_error c |}.
Definition set_error (e : option string) (c : FiberCells) : FiberCells :=
  {| state := state c; handle := handle c; dependency_epoch := dependency_epoch c;
     loading_binding := loading_binding c; effect_scope := effect_scope c;
     last_cleanup_errors := last_cleanup_errors c; last_error := e |}.
Definition dependency_binding (c : FiberCells) : option DependencyBinding := binding <$> dependency_epoch c.
(** [CapabilityFiber::new]: [s] is the fresh effect scope. *)
Definition CapabilityFiber_new (id : FiberId) (runtime : N) (context : CapabilityContext)
  (d : PluginDefinition) (c : PluginConfig) (s : EffectScopeId) : CapabilityFiber :=
  {| fiber_id := id; fiber_runtime := runtime; fiber_context := context; fiber_definition := d;
     requests := {| config := c; requested_epoch := 0%N; dispose_requested := false; force_reload := false |};
     cells := {| state := Pending; handle := None; dependency_epoch := None; loading_binding := None;
                 effect_scope := s; last_cleanup_errors := []; last_error := None |};
     transition := None |}.
Definition fiber_plugin_id (f : CapabilityFiber) : Id := plugin_id (fiber_definition f).
Definition fiber_capability (f : CapabilityFiber) : CapabilityDefinition :=
  plugin_capability (fiber_definition f).
Definition declares_dependency (f : CapabilityFiber) (c : CapabilityId) : bool :=
  bool_decide (c ∈ def_dependencies (fiber_capability f)).

(** ** Operations in progress *)
Inductive op :=
  | Start
  | Restart
  | Update (c : PluginConfig)
  | Dispose
  | Deactivate (detached : option CapabilityEntry).
(** What a call returns; [dispose] returns nothing of use on success. *)
Inductive returned := Stable (s : FiberState) | Released | Refused (e : FiberError).
Record PluginLoadContext := {
  load_context : CapabilityContext;
  load_config : PluginConfig;
  load_dependencies : gmap CapabilityId CapabilityEntry;
  load_effects : EffectScopeId
}.
(** What [drive], [dispose] or a deactivation does after an [unload]. *)
Inductive after_unload := ToReload (force : bool) | ToPending | ToDeactivated | ToDisposed.
(** Why the effects of a load are disposed. *)
Inductive discard :=
  | Changed
  | Rejected (e : ScopeError)
  | StaleValue
  | StaleFailure
  | LoadFailed (reason : string).
Inductive pc :=
  | Called (o : op)
  | Waiting (o : op)
  | Entering (force : bool)
  | Swapping (force : bool)
  | Resolving (force : bool)
  | Comparing (force : bool) (deps : gmap CapabilityId CapabilityEntry)
  | Starting (force : bool) (deps : gmap CapabilityId CapabilityEntry)
  | Preparing (force : bool) (deps : gmap CapabilityId CapabilityEntry)
  | Running (force : bool) (load : PluginLoadContext)
  | Loaded (force : bool) (load : PluginLoadContext) (r : string + CapabilityValue)
  | Judging (force : bool) (load : PluginLoadContext) (r : string + CapabilityValue)
      (current : option DependencyBinding)
  | JudgingForce (force : bool) (load : PluginLoadContext) (r : string + CapabilityValue)
      (current : option DependencyBinding)
  | Publishing (force : bool) (load : PluginLoadContext) (v : CapabilityValue)
  | Committing (load : PluginLoadContext) (h : CapabilityEntry)
  | Discarding (force : bool) (why : discard) (fs : list frame)
  | Settling (force : bool) (failed : bool)
  | UnloadingEffects (detached : option CapabilityEntry) (k : after_unload) (fs : list frame)
  | Releasing (detached : option CapabilityEntry) (k : after_unload) (es : list EffectError)
  | Reloading (force : bool)
  | Returned (r : returned).
(** What the host answers: the outcome of a validator, a factory, a disposer. *)
Inductive answer :=
  | Silent
  | Validated (refusal : option string)
  | Produced (r : string + CapabilityValue)
  | Disposal (failure : option string).

(** ** One step of a call

    [shared] is what a step reads and writes beside its fiber: the scope tree,
    the effect stacks, and the fibers each plugin runtime lists. *)
Record shared := {
  tree : Runtime;
  effect_scopes : EffectScopes;
  plugin_fibers : gmap N (gset FiberId)
}.
Definition set_tree (rt : Runtime) (s : shared) : shared :=
  {| tree := rt; effect_scopes := effect_scopes s; plugin_fibers := plugin_fibers s |}.
Definition set_scopes (t : EffectScopes) (s : shared) : shared :=
  {| tree := tree s; effect_scopes := t; plugin_fibers := plugin_fibers s |}.
Definition set_plugins (m : gmap N (gset FiberId)) (s : shared) : shared :=
  {| tree := tree s; effect_scopes := effect_scopes s; plugin_fibers := m |}.
(** [PluginRuntime::remove_fiber] *)
Definition remove_fiber (runtime : N) (id : FiberId) (s : shared) : shared :=
  set_plugins (<[runtime := default ∅ (plugin_fibers s !! runtime) ∖ {[id]}]> (plugin_fibers s)) s.

Definition progress : Type := option (shared * CapabilityFiber * pc).
Definition goto (s : shared) (f : CapabilityFiber) (p : pc) : progress := Some (s, f, p).
(** The guard of the transition lock is dropped when the call returns. *)
Definition finish (s : shared) (f : CapabilityFiber) (r : returned) : progress :=
  Some (s, with_transition f None, Returned r).

(** [unload] up to its first disposer. *)
Definition begin_unload (s : shared) (f : CapabilityFiber) (detached : option CapabilityEntry)
  (k : after_unload) : progress :=
  let p := dispose_all (effect_scopes s) (effect_scope (cells f)) in
  goto (set_scopes p.1 s) (with_cells f (set_state Unloading (cells f))) (UnloadingEffects detached k p.2).
(** [effects.dispose_all()] of an abandoned load, up to its first disposer. *)
Definition begin_discard (s : shared) (f : CapabilityFiber) (force : bool) (load : PluginLoadContext)
  (why : discard) : progress :=
  let p := dispose_all (effect_scopes s) (load_effects load) in
  goto (set_scopes p.1 s) f (Discarding force why p.2).
Definition was_detached (detached : option CapabilityEntry) (h : CapabilityEntry) : bool :=
  match detached with
  | Some d => bool_decide (handle_id d = handle_id h) && (generation d =? generation h)%N
              && (entry_id d =? entry_id h)%N
  | None => false
  end.
(** The rest of [unload]: the handle is taken and its publication removed,
    unless it was detached before. *)
Definition release_handle (s : shared) (f : CapabilityFiber) (detached : option CapabilityEntry)
  (es : list EffectError) : shared * CapabilityFiber * list EffectError :=
  let c := set_handle None (cells f) in
  let removal :=
    match handle (cells f) with
    | Some h => if was_detached detached h then (tree s, Ok tt)
                else remove_local (tree s) (scope_of (fiber_context f)) (handle_id h) (generation h)
    | None => (tree s, Ok tt)
    end in
  let s := set_tree removal.1 s in
  match removal.2 with
  | Err e => (s, with_cells f (set_state Pending (set_epoch None c)), es ++ [EffectError_from_scope e])
  | _ =>
      let p := EffectScope_new (effect_scopes s) in
      (set_scopes p.1 s,
       with_cells f (set_state Pending (set_effects p.2 (set_loading None (set_epoch None c)))), es)
  end.
(** What follows an [unload] that reported [es]. *)
Definition after (s : shared) (f : CapabilityFiber) (k : after_unload) (es : list EffectError) : progress :=
  match k with
  | ToReload force => goto s (with_cells f (set_cleanup es (cells f))) (Reloading force)
  | ToPending => finish s (with_cells f (set_state Pending (set_cleanup es (cells f)))) (Stable Pending)
  | ToDeactivated =>
      finish s (with_cells f (set_cleanup es (cells f))) (Stable (state (cells f)))
  | ToDisposed =>
      finish (remove_fiber (fiber_runtime f) (fiber_id f) s)
        (with_cells f (set_state Disposed (cells f)))
        (match es with [] => Released | _ => Refused (Cleanup es) end)
  end.
(** The branch of [drive] on the outcome of a load, once staleness is known. *)
Definition verdict (s : shared) (f : CapabilityFiber) (force : bool) (load : PluginLoadContext)
  (r : string + CapabilityValue) (stale : bool) : progress :=
  match r, stale with
  | inr v, false => goto s f (Publishing force load v)
  | inr _, true => begin_discard s f force load StaleValue
  | inl _, true => begin_discard s f force load StaleFailure
  | inl reason, false => begin_discard s f force load (LoadFailed reason)
  end.
(** After the effects of an abandoned load are disposed. *)
Definition after_discard (s : shared) (f : CapabilityFiber) (force : bool) (why : discard)
  (es : list EffectError) : progress :=
  let c := set_cleanup es (set_loading None (cells f)) in
  match why with
  | Changed => goto s (with_cells f (set_state Pending c)) (Resolving force)
  | Rejected e =>
      finish s (with_cells f (set_state Failed (set_error (Some (ScopeError_display e)) c)))
        (Refused (FiberScopeError e))
  | StaleValue => goto s (with_requests (with_cells f c) (set_force false (requests f))) (Settling force false)
  | StaleFailure =>
      goto s (with_requests (with_cells f (set_error None c)) (set_force false (requests f)))
        (Settling force true)
  | LoadFailed reason =>
      finish s (with_cells f (set_state Failed (set_error (Some reason) c)))
        (Refused (InitializationFailed (fiber_plugin_id f) reason es))
  end.
(** The call has the transition lock. *)
Definition acquired (s : shared) (f : CapabilityFiber) (o : op) : progress :=
  match o with
  | Start | Update _ => goto s f (Entering false)
  | Restart => goto s f (Entering true)
  | Dispose =>
      if bool_decide (state (cells f) = Disposed) then finish s f Released
      else begin_unload s f None ToDisposed
  | Deactivate detached =>
      match state (cells f) with
      | Disposed => finish s f (Stable Disposed)
      | Active | Failed => begin_unload s f detached ToDeactivated
      | other => finish s f (Stable other)
      end
  end.
(** What a call does before it asks for the lock. *)
Definition called (s : shared) (f : CapabilityFiber) (o : op) (a : answer) : progress :=
  match o with
  | Start => goto s f (Waiting Start)
  | Restart =>
      if bool_decide (state (cells f) = Disposed) then Some (s, f, Returned (Refused FiberDisposed))
      else goto s (with_requests f (bump_epoch (set_force true (requests f)))) (Waiting Restart)
  | Update c =>
      if bool_decide (state (cells f) = Disposed) then Some (s, f, Returned (Refused FiberDisposed))
      else match a with
      | Validated (Some reason) =>
          Some (s, f, Returned (Refused (InvalidConfig (fiber_plugin_id f) reason)))
      | Validated None => goto s (with_requests f (set_config c (requests f))) (Called Restart)
      | _ => None
      end
  | Dispose => goto s (with_requests f (bump_epoch (request_dispose (requests f)))) (Waiting Dispose)
  | Deactivate d => goto s (with_requests f (bump_epoch (requests f))) (Waiting (Deactivate d))
  end.
(** [drive] resolves the dependencies at the head of its loop. *)
Definition resolving (s : shared) (f : CapabilityFiber) (force : bool) : progress :=
  match context_dependencies (tree s) (fiber_context f) (fiber_capability f) with
  | Ok deps => goto s f (Comparing force deps)
  | Err (MissingDependency _ _) =>
      if bool_decide (state (cells f) = Active) then begin_unload s f None ToPending
      else finish s (with_cells f (set_state Pending (cells f))) (Stable Pending)
  | Err e => finish s f (Refused (FiberScopeError e))
  | Panic _ | NoFuel => None
  end.
Definition comparing (s : shared) (f : CapabilityFiber) (force : bool)
  (deps : gmap CapabilityId CapabilityEntry) : progress :=
  let e := epoch_of (requested_epoch (requests f)) deps in
  if negb force && bool_decide (state (cells f) = Active)
     && bool_decide (dependency_binding (cells f) = Some (binding e))
  then finish s (with_cells f (set_epoch (Some e) (cells f))) (Stable Active)
  else match state (cells f) with
  | Active | Failed => begin_unload s f None (ToReload force)
  | _ => goto s f (Starting force deps)
  end.
(** The cells of a load that begins, and what the factory is given. *)
Definition preparing (s : shared) (f : CapabilityFiber) (force : bool)
  (deps : gmap CapabilityId CapabilityEntry) : progress :=
  let c := default (config (requests f)) (intercepted_config (fiber_context f) (fiber_plugin_id f)) in
  let p := EffectScope_new (effect_scopes s) in
  goto (set_scopes p.1 s)
    (with_cells f (set_loading (Some (binding_of deps)) (set_error None
      (set_effects p.2 (set_state Loading (cells f))))))
    (Running force {| load_context := fiber_context f; load_config := c; load_dependencies := deps;
                      load_effects := p.2 |}).
Definition publishing (s : shared) (f : CapabilityFiber) (force : bool) (load : PluginLoadContext)
  (v : CapabilityValue) : progress :=
  let p := provide_value (tree s) (scope_of (fiber_context f)) (fiber_capability f)
             (load_dependencies load) v in
  match p.2 with
  | Ok h => goto (set_tree p.1 s) f (Committing load h)
  | Err (DependencyChanged _ _) => begin_discard (set_tree p.1 s) f force load Changed
  | Err e => begin_discard (set_tree p.1 s) f force load (Rejected e)
  | Panic _ | NoFuel => None
  end.
Definition committing (s : shared) (f : CapabilityFiber) (load : PluginLoadContext) (h : CapabilityEntry) :
  progress :=
  finish s (with_cells f (set_state Active (set_loading None
    (set_epoch (Some (epoch_of (requested_epoch (requests f)) (load_dependencies load)))
      (set_handle (Some h) (cells f)))))) (Stable Active).
(** One disposal step, or what follows the disposal. *)
Definition disposing (s : shared) (fs : list frame) (a : answer)
  (k : shared -> list frame -> progress) (done_ : list EffectError -> progress) : progress :=
  match next_disposer fs, a with
  | Some _, Disposal failure =>
      match dispose_step (effect_scopes s) fs failure with
      | Some (t, fs) => k (set_scopes t s) fs
      | None => done_ (disposal_errors fs)
      end
  | Some _, _ => None
  | None, _ =>
      match dispose_step (effect_scopes s) fs None with
      | Some (t, fs) => k (set_scopes t s) fs
      | None => done_ (disposal_errors fs)
      end
  end.
(** [None]: the task waits (for the lock or for the host), or has returned; a
    panic of the code also leaves it here. *)
Definition step_pc (t : TaskId) (s : shared) (f : CapabilityFiber) (p : pc) (a : answer) : progress :=
  match p with
  | Called o => called s f o a
  | Waiting o =>
      match transition f with
      | Some _ => None
      | None => acquired s (with_transition f (Some t)) o
      end
  | Entering force =>
      if dispose_requested (requests f) then finish s f (Refused FiberDisposed)
      else if negb force && bool_decide (state (cells f) = Failed)
      then finish s f (Refused (InitializationFailed (fiber_plugin_id f)
             (default "plugin initialization failed" (last_error (cells f)))
             (last_cleanup_errors (cells f))))
      else goto s f (Swapping force)
  | Swapping force =>
      let c := if bool_decide (state (cells f) = Pending) then set_cleanup [] (cells f) else cells f in
      goto s (with_requests (with_cells f c) (set_force false (requests f)))
        (Resolving (force || force_reload (requests f)))
  | Resolving force => resolving s f force
  | Comparing force deps => comparing s f force deps
  | Starting force deps =>
      if dispose_requested (requests f) then finish s f (Refused FiberDisposed)
      else goto s f (Preparing force deps)
  | Preparing force deps => preparing s f force deps
  | Running force load =>
      match a with Produced r => goto s f (Loaded force load r) | _ => None end
  | Loaded force load r =>
      goto s f (Judging force load r
        match context_dependencies (tree s) (fiber_context f) (fiber_capability f) with
        | Ok deps => Some (binding_of deps)
        | _ => None
        end)
  | Judging force load r current =>
      if dispose_requested (requests f) then verdict s f force load r true
      else goto s f (JudgingForce force load r current)
  | JudgingForce force load r current =>
      verdict s f force load r
        (force_reload (requests f) || bool_decide (current <> Some (binding_of (load_dependencies load))))
  | Publishing force load v => publishing s f force load v
  | Committing load h => committing s f load h
  | Discarding force why fs =>
      disposing s fs a (fun s fs => goto s f (Discarding force why fs))
        (fun es => after_discard s f force why es)
  | Settling force failed =>
      if dispose_requested (requests f)
      then finish s (if failed then with_cells f (set_state Disposed (cells f)) else f) (Refused FiberDisposed)
      else goto s (with_cells f (set_state Pending (cells f))) (Resolving force)
  | UnloadingEffects d k fs =>
      disposing s fs a (fun s fs => goto s f (UnloadingEffects d k fs))
        (fun es => goto s f (Releasing d k es))
  | Releasing d k es => let '(s, f, es) := release_handle s f d es in after s f k es
  | Reloading force =>
      if dispose_requested (requests f) then finish s f (Refused FiberDisposed)
      else goto s f (Resolving force)
  | Returned _ => None
  end.
(** The disposer of the host that a step runs. *)
Definition disposer_of (p : pc) : option N :=
  match p with
  | Discarding _ _ fs | UnloadingEffects _ _ fs => next_disposer fs
  | _ => None
  end.

(** ** Other operations on a fiber *)
(** [CapabilityFiber::effect] *)
Definition fiber_effect (s : shared) (f : CapabilityFiber) (e : ScopedEffect) : result FiberError shared :=
  if bool_decide (state (cells f) <> Active) then Err (InactiveEffect (state (cells f)))
  else
    t ← map_err FiberEffectError (effect_register (effect_scopes s) (effect_scope (cells f)) e);
    Ok (set_scopes t s).
Definition notify_dependency_change (f : CapabilityFiber) : CapabilityFiber :=
  with_requests f (bump_epoch (requests f)).
Definition needs_reconciliation (s : shared) (f : CapabilityFiber) : bool :=
  let current :=
    match context_dependencies (tree s) (fiber_context f) (fiber_capability f) with
    | Ok deps => Some (binding_of deps)
    | _ => None
    end in
  match state (cells f) with
  | Active => bool_decide (current <> dependency_binding (cells f))
  | Loading => bool_decide (current <> loading_binding (cells f))
  | Pending => bool_decide (def_dependencies (fiber_capability f) <> ∅) && bool_decide (is_Some current)
  | Failed | Disposed => false
  | Unloading => true
  end.

(** ** Plugin runtimes, the registry and the tasks *)
Inductive task :=
  | OnFiber (f : FiberId) (p : pc)
  (** [dispose_fibers] of a runtime: the fiber it disposes, those left, the errors so far. *)
  | Sweeping (runtime : N) (f : FiberId) (p : pc) (rest : list FiberId) (es : list FiberError)
  | Swept (runtime : N) (es : list FiberError).
Record world := {
  w_shared : shared;
  w_pending : list inflight;
  w_fibers : gmap FiberId CapabilityFiber;
  w_registry : gmap Id PluginRuntime;
  w_next_fiber : N;
  w_next_disposer : N;
  w_tasks : gmap TaskId task;
  (* the effect scopes plugin code holds, and the fiber whose load they serve *)
  w_handed : gmap EffectScopeId FiberId
}.
Definition with_shared (s : shared) (w : world) : world :=
  {| w_shared := s; w_pending := w_pending w; w_fibers := w_fibers w; w_registry := w_registry w;
     w_next_fiber := w_next_fiber w; w_next_disposer := w_next_disposer w; w_tasks := w_tasks w;
     w_handed := w_handed w |}.
Definition with_pending (l : list inflight) (w : world) : world :=
  {| w_shared := w_shared w; w_pending := l; w_fibers := w_fibers w; w_registry := w_registry w;
     w_next_fiber := w_next_fiber w; w_next_disposer := w_next_disposer w; w_tasks := w_tasks w;
     w_handed := w_handed w |}.
Definition with_fiber (f : CapabilityFiber) (w : world) : world :=
  {| w_shared := w_shared w; w_pending := w_pending w; w_fibers := <[fiber_id f := f]> (w_fibers w);
     w_registry := w_registry w; w_next_fiber := w_next_fiber w; w_next_disposer := w_next_disposer w;
     w_tasks := w_tasks w;
     w_handed := w_handed w |}.
Definition with_registry (r : gmap Id PluginRuntime) (w : world) : world :=
  {| w_shared := w_shared w; w_pending := w_pending w; w_fibers := w_fibers w; w_registry := r;
     w_next_fiber := w_next_fiber w; w_next_disposer := w_next_disposer w; w_tasks := w_tasks w;
     w_handed := w_handed w |}.
Definition with_tasks (m : gmap TaskId task) (w : world) : world :=
  {| w_shared := w_shared w; w_pending := w_pending w; w_fibers := w_fibers w; w_registry := w_registry w;
     w_next_fiber := w_next_fiber w; w_next_disposer := w_next_disposer w; w_tasks := m;
     w_handed := w_handed w |}.

(** *** The registry *)
Definition register_runtime (w : world) (r : PluginRuntime) : result RegistryError world :=
  match w_registry w !! runtime_plugin_id r with
  | Some _ => Err (RegistryDuplicate (runtime_plugin_id r))
  | None => Ok (with_registry (<[runtime_plugin_id r := r]> (w_registry w)) w)
  end.
Definition registry_get (w : world) (id : Id) : option PluginRuntime := w_registry w !! id.
Definition registry_contains (w : world) (id : Id) : bool := bool_decide (is_Some (w_registry w !! id)).
Definition registry_len (w : world) : nat := size (w_registry w).
Definition registry_take (w : world) (id : Id) : world * option PluginRuntime :=
  (with_registry (delete id (w_registry w)) w, w_registry w !! id).
Definition fiber_count (w : world) (runtime : N) : nat :=
  size (default ∅ (plugin_fibers (w_shared w) !! runtime)).
(** [PluginRuntime::create_fiber], given what the validator said. *)
Definition create_fiber (w : world) (r : PluginRuntime) (c : CapabilityContext) (cfg : PluginConfig)
  (refusal : option string) : result FiberError (world * FiberId) :=
  match refusal with
  | Some reason => Err (InvalidConfig (runtime_plugin_id r) reason)
  | None =>
      _ ← ok_or (checked_succ (w_next_fiber w)) FiberIdExhausted;
      let id := w_next_fiber w in
      let p := EffectScope_new (effect_scopes (w_shared w)) in
      let f := CapabilityFiber_new id (plugin_object r) c (plugin_definition r) cfg p.2 in
      let listed := plugin_fibers (w_shared w) in
      Ok ({| w_shared := {| tree := tree (w_shared w); effect_scopes := p.1;
               plugin_fibers := <[plugin_object r := {[id]} ∪ default ∅ (listed !! plugin_object r)]> listed |};
             w_pending := w_pending w; w_fibers := <[id := f]> (w_fibers w); w_registry := w_registry w;
             w_next_fiber := (id + 1)%N; w_next_disposer := w_next_disposer w; w_tasks := w_tasks w;
     w_handed := w_handed w |}, id)
  end.
Definition instantiate (w : world) (id : Id) (c : CapabilityContext) (cfg : PluginConfig)
  (refusal : option string) : result RegistryError (world * FiberId) :=
  r ← ok_or (w_registry w !! id) (RegistryUnknown id);
  map_err RegistryFiber (create_fiber w r c cfg refusal).

(** *** Tasks *)
Definition task_at (k : task) : option (FiberId * pc) :=
  match k with
  | OnFiber f p | Sweeping _ f p _ _ => Some (f, p)
  | Swept _ _ => None
  end.
Definition retask (k : task) (p : pc) : task :=
  match k with
  | OnFiber f _ => OnFiber f p
  | Sweeping r f _ rest es => Sweeping r f p rest es
  | Swept r es => Swept r es
  end.
(** The factory is given the effect scope of its load. *)
Definition hand_over (p : pc) (id : FiberId) (m : gmap EffectScopeId FiberId) : gmap EffectScopeId FiberId :=
  match p with Running _ load => <[load_effects load := id]> m | _ => m end.
(** One step of the task [t]; the disposer of the host it ran, if it ran one. *)
Definition advance (w : world) (t : TaskId) (a : answer) : option (world * option N) :=
  k ← w_tasks w !! t;
  x ← task_at k;
  f ← w_fibers w !! x.1;
  y ← step_pc t (w_shared w) f x.2 a;
  let '(s, f', p) := y in
  Some ({| w_shared := s; w_pending := w_pending w; w_fibers := <[x.1 := f']> (w_fibers w);
           w_registry := w_registry w; w_next_fiber := w_next_fiber w;
           w_next_disposer := w_next_disposer w; w_tasks := <[t := retask k p]> (w_tasks w);
           w_handed := hand_over p x.1 (w_handed w) |}, disposer_of x.2).
(** [dispose_fibers]: the listed fibers, one after the other, and last the list
    is cleared. *)
Definition sweep_on (w : world) (t : TaskId) (runtime : N) (rest : list FiberId) (es : list FiberError) : world :=
  match rest with
  | id :: rest => with_tasks (<[t := Sweeping runtime id (Called Dispose) rest es]> (w_tasks w)) w
  | [] => with_tasks (<[t := Swept runtime es]> (w_tasks w))
            (with_shared (set_plugins (<[runtime := ∅]> (plugin_fibers (w_shared w))) (w_shared w)) w)
  end.
Definition dispose_fibers (w : world) (t : TaskId) (runtime : N) : world :=
  sweep_on w t runtime (set_iter (default ∅ (plugin_fibers (w_shared w) !! runtime))) [].
Definition sweep_next (w : world) (t : TaskId) : option world :=
  match w_tasks w !! t with
  | Some (Sweeping runtime _ (Returned r) rest es) =>
      Some (sweep_on w t runtime rest (es ++ match r with Refused e => [e] | _ => [] end))
  | _ => None
  end.
(** [dispose_taken] reports what the sweep collected. *)
Definition swept_result (plugin : Id) (es : list FiberError) : result RegistryError unit :=
  match es with [] => Ok tt | _ => Err (RegistryDispose plugin es) end.
(** [remove]: the registration is taken, and the task [t] sweeps what was taken. *)
Definition remove_runtime (w : world) (t : TaskId) (id : Id) : world * option PluginRuntime :=
  let p := registry_take w id in
  (match p.2 with Some r => dispose_fibers p.1 t (plugin_object r) | None => p.1 end, p.2).
Definition removed_result (r : option PluginRuntime) (es : list FiberError) : result RegistryError (option PluginRuntime) :=
  match r with
  | None => Ok None
  | Some r => _ ← swept_result (runtime_plugin_id r) es; Ok (Some r)
  end.
(** The task [t] calls [o] on the fiber [id]. *)
Definition call (w : world) (t : TaskId) (id : FiberId) (o : op) : world :=
  with_tasks (<[t := OnFiber id (Called o)]> (w_tasks w)) w.
(** A dropped call drops its guard; its locals, taken effects included, are lost. *)
Definition cancel (w : world) (t : TaskId) : world :=
  let fibers :=
    match w_tasks w !! t ≫= task_at with
    | Some (id, _) =>
        match w_fibers w !! id with
        | Some f => if bool_decide (transition f = Some t)
                    then <[id := with_transition f None]> (w_fibers w) else w_fibers w
        | None => w_fibers w
        end
    | None => w_fibers w
    end in
  {| w_shared := w_shared w; w_pending := w_pending w; w_fibers := fibers; w_registry := w_registry w;
     w_next_fiber := w_next_fiber w; w_next_disposer := w_next_disposer w;
     w_tasks := delete t (w_tasks w); w_handed := w_handed w |}.

(** ** The system of all callers

    Any number of calls are in progress; the steps of the tasks, of the scope
    tree's other users and of plugin code come in any order.  [cancellations]
    says whether callers drop calls (a panic in a task ends it the same way). *)
Inductive event := Registered (id : FiberId) (d : N) | Ran (id : FiberId) (d : N).
Definition host_effect (label : string) (d : N) : ScopedEffect := ScopedEffect_asynchronous label (Host d).
Definition next_effect (s : shared) (w : world) : world :=
  {| w_shared := s; w_pending := w_pending w; w_fibers := w_fibers w; w_registry := w_registry w;
     w_next_fiber := w_next_fiber w; w_next_disposer := (w_next_disposer w + 1)%N; w_tasks := w_tasks w;
     w_handed := w_handed w |}.
Inductive fiber_step (cancellations : bool) : world -> list event -> world -> Prop :=
  | step_tree w rt l :
      scope_step true {| sys_rt := tree (w_shared w); sys_pending := w_pending w |}
        {| sys_rt := rt; sys_pending := l |} ->
      fiber_step cancellations w [] (with_pending l (with_shared (set_tree rt (w_shared w)) w))
  | step_register w r w' :
      register_runtime w r = Ok w' -> fiber_step cancellations w [] w'
  | step_take w id : fiber_step cancellations w [] (registry_take w id).1
  | step_instantiate w id c cfg refusal w' i :
      instantiate w id c cfg refusal = Ok (w', i) -> fiber_step cancellations w [] w'
  | step_call w t id o :
      w_tasks w !! t = None -> is_Some (w_fibers w !! id) ->
      fiber_step cancellations w [] (call w t id o)
  | step_sweep w t runtime :
      w_tasks w !! t = None -> fiber_step cancellations w [] (dispose_fibers w t runtime)
  | step_sweep_next w t w' :
      sweep_next w t = Some w' -> fiber_step cancellations w [] w'
  | step_advance w t a k id p w' d :
      w_tasks w !! t = Some k -> task_at k = Some (id, p) -> advance w t a = Some (w', d) ->
      fiber_step cancellations w (Ran id <$> option_list d) w'
  | step_cancel w t : cancellations = true -> fiber_step cancellations w [] (cancel w t)
  | step_notify w f :
      w_fibers w !! fiber_id f = Some f ->
      fiber_step cancellations w [] (with_fiber (notify_dependency_change f) w)
  | step_effect w f l s :
      w_fibers w !! fiber_id f = Some f ->
      fiber_effect (w_shared w) f (host_effect l (w_next_disposer w)) = Ok s ->
      fiber_step cancellations w [Registered (fiber_id f) (w_next_disposer w)] (next_effect s w)
  | step_load_effect w id e l t :
      w_handed w !! e = Some id ->
      effect_register (effect_scopes (w_shared w)) e (host_effect l (w_next_disposer w)) = Ok t ->
      fiber_step cancellations w [Registered id (w_next_disposer w)]
        (next_effect (set_scopes t (w_shared w)) w)
  | step_child_effect w id e l t c :
      w_handed w !! e = Some id -> effect_child (effect_scopes (w_shared w)) e l = Ok (t, c) ->
      fiber_step cancellations w []
        {| w_shared := set_scopes t (w_shared w); w_pending := w_pending w; w_fibers := w_fibers w;
           w_registry := w_registry w; w_next_fiber := w_next_fiber w; w_next_disposer := w_next_disposer w;
           w_tasks := w_tasks w; w_handed := <[c := id]> (w_handed w) |}.
Definition world_start : world :=
  {| w_shared := {| tree := Runtime_start; effect_scopes := {| stacks := ∅; next_effect_scope := 0%N |};
                    plugin_fibers := ∅ |};
     w_pending := []; w_fibers := ∅; w_registry := ∅; w_next_fiber := 1%N; w_next_disposer := 0%N;
     w_tasks := ∅; w_handed := ∅ |}.
(** The worlds a history of events leads to, the oldest event first. *)
Inductive fiber_reachable (cancellations : bool) : list event -> world -> Prop :=
  | reach_start : fiber_reachable cancellations [] world_start
  | reach_step tr w es w' :
      fiber_reachable cancellations tr w -> fiber_step cancellations w es w' ->
      fiber_reachable cancellations (tr ++ es) w'.
