(* ===== verification/FiberFacts.v ===== *)
(** * Facts about fibers: the lock, the shape of the cells, finality *)
From S2P Require Export Fiber.
#[local] Open Scope string_scope.
#[local] Open Scope nat_scope.
#[local] Open Scope list_scope.

(** ** The shapes of the cells *)

(** The program points at which a call has the lock. *)
Definition holding (p : pc) : bool :=
  match p with Called _ | Waiting _ | Returned _ => false | _ => true end.
(** The publication of an active fiber pins exactly the entries of its epoch. *)
Definition coherent (cap : CapabilityDefinition) (c : FiberCells) : Prop :=
  exists h e, handle c = Some h /\ dependency_epoch c = Some e /\ definition h = cap /\
    dependencies h = pin_entry <$> binding e.
Definition vacant (c : FiberCells) : Prop := handle c = None /\ dependency_epoch c = None.
Definition idle (cap : CapabilityDefinition) (c : FiberCells) : Prop :=
  loading_binding c = None /\
  match state c with
  | Active => coherent cap c
  | Pending => vacant c
  | Failed => vacant c /\ is_Some (last_error c)
  | _ => False
  end.
(** What an unlocked fiber looks like: idle, or retired, or left in its load by
    a caller that found a disposal requested. *)
Definition resting (cap : CapabilityDefinition) (q : FiberRequests) (c : FiberCells) : Prop :=
  idle cap c \/
  (state c = Disposed \/ state c = Loading) /\ dispose_requested q = true /\ vacant c /\
    loading_binding c = None.
Definition in_load (load : PluginLoadContext) (c : FiberCells) : Prop :=
  state c = Loading /\ vacant c /\ loading_binding c = Some (binding_of (load_dependencies load)) /\
  effect_scope c = load_effects load /\ last_error c = None.
Definition at_pc (cap : CapabilityDefinition) (q : FiberRequests) (p : pc) (c : FiberCells) : Prop :=
  match p with
  | Called _ | Waiting _ | Returned _ => True
  | Entering _ => resting cap q c
  | Swapping _ | Resolving _ | Comparing _ _ => idle cap c
  | Starting _ _ | Preparing _ _ | Reloading _ => idle cap c /\ state c = Pending
  | Running _ load | Loaded _ load _ | Judging _ load _ _ | JudgingForce _ load _ _
  | Publishing _ load _ => in_load load c
  | Committing load h =>
      in_load load c /\ definition h = cap /\ dependencies h = entry_id <$> load_dependencies load
  | Discarding _ _ _ => state c = Loading /\ vacant c
  | Settling _ _ => state c = Loading /\ vacant c /\ loading_binding c = None
  | UnloadingEffects _ k _ | Releasing _ k _ =>
      state c = Unloading /\ loading_binding c = None /\ (coherent cap c \/ vacant c) /\
      (k = ToDisposed -> dispose_requested q = true)
  end.
Definition requested_more (q q' : FiberRequests) : Prop :=
  dispose_requested q = true -> dispose_requested q' = true.
#[export] Instance requested_more_refl : Reflexive requested_more.
Proof. intros q Hq. exact Hq. Qed.
Lemma at_pc_mono cap q q' p c : requested_more q q' -> at_pc cap q p c -> at_pc cap q' p c.
Proof. unfold requested_more, at_pc, resting. destruct p; naive_solver. Qed.
Lemma resting_mono cap q q' c : requested_more q q' -> resting cap q c -> resting cap q' c.
Proof. unfold requested_more, resting. naive_solver. Qed.

(** ** One step *)

(** What a step of a call leaves of its fiber. *)
Record stepped (t : TaskId) (f f' : CapabilityFiber) (p' : pc) : Prop := {
  sp_id : fiber_id f' = fiber_id f;
  sp_runtime : fiber_runtime f' = fiber_runtime f;
  sp_context : fiber_context f' = fiber_context f;
  sp_definition : fiber_definition f' = fiber_definition f;
  sp_requests : requested_more (requests f) (requests f');
  sp_at : at_pc (fiber_capability f) (requests f') p' (cells f');
  sp_held : holding p' = true -> transition f' = Some t;
  sp_free : holding p' = false ->
    transition f' = None /\ resting (fiber_capability f) (requests f') (cells f') \/
    transition f' = transition f /\ cells f' = cells f
}.

Lemma prepared_entry rt s d x snap v e :
  prepare_publication rt s d x snap v = Ok e -> definition e = d /\ dependencies e = entry_id <$> snap.
Proof.
  unfold prepare_publication. intros (cur & _ & H)%bind_Ok. apply bind_Ok in H as ([] & _ & H).
  apply bind_Ok in H as ([] & _ & H). apply bind_Ok in H as ([] & _ & H). apply bind_Ok in H as (? & _ & H).
  apply bind_Ok in H as (? & _ & H). by apply bind_Ok in H as (? & _ & [= <-]).
Qed.
Lemma provided_entry rt s d snap v rt' h :
  provide_value rt s d snap v = (rt', Ok h) -> definition h = d /\ dependencies h = entry_id <$> snap.
Proof.
  unfold provide_value, publish_preconstructed. destruct (foldM _ _ _); [|done..].
  destruct (prepare_publication _ _ _ _ _ _) as [e| | |] eqn:Hp; [|done..]. intros [= _ <-].
  by eapply prepared_entry.
Qed.
Lemma binding_entries (deps : gmap CapabilityId CapabilityEntry) :
  pin_entry <$> binding_of deps = entry_id <$> deps.
Proof. unfold binding_of. rewrite <- map_fmap_compose. done. Qed.


(** A fiber within a step: the call has the lock, the cells may differ. *)
Record within (t : TaskId) (f0 f : CapabilityFiber) : Prop := {
  wi_id : fiber_id f = fiber_id f0;
  wi_runtime : fiber_runtime f = fiber_runtime f0;
  wi_context : fiber_context f = fiber_context f0;
  wi_definition : fiber_definition f = fiber_definition f0;
  wi_requests : requested_more (requests f0) (requests f);
  wi_held : transition f = Some t
}.
Lemma within_refl t f : transition f = Some t -> within t f f.
Proof. by split. Qed.
Lemma within_cells t f0 f c : within t f0 f -> within t f0 (with_cells f c).
Proof. by intros []. Qed.
Lemma within_requests t f0 f q : within t f0 f -> requested_more (requests f) q -> within t f0 (with_requests f q).
Proof. intros [] Hq. split; try done. intros Hd. by apply Hq, wi_requests0. Qed.
Lemma within_capability t f0 f : within t f0 f -> fiber_capability f = fiber_capability f0.
Proof. intros []. unfold fiber_capability. congruence. Qed.

Section helpers.
Context (t : TaskId) (f0 f : CapabilityFiber) (s s' : shared) (f' : CapabilityFiber) (p' : pc).
#[local] Abbreviation cap := (fiber_capability f0).

Lemma goto_stepped p :
  within t f0 f -> holding p = true -> at_pc cap (requests f) p (cells f) ->
  goto s f p = Some (s', f', p') -> stepped t f0 f' p'.
Proof. intros [] Hh Ha [= <- <- <-]. split; try done. by rewrite Hh. Qed.
Lemma finish_stepped r :
  within t f0 f -> resting cap (requests f) (cells f) ->
  finish s f r = Some (s', f', p') -> stepped t f0 f' p'.
Proof. intros [] Hr [= <- <- <-]. split; try done. intros _. by left. Qed.
Lemma begin_unload_stepped d k :
  within t f0 f -> loading_binding (cells f) = None -> coherent cap (cells f) \/ vacant (cells f) ->
  (k = ToDisposed -> dispose_requested (requests f) = true) ->
  begin_unload s f d k = Some (s', f', p') -> stepped t f0 f' p'.
Proof.
  intros [] Hl Hc Hk [= <- <- <-]. split; try done.
Qed.
Lemma begin_discard_stepped force load why :
  within t f0 f -> state (cells f) = Loading -> vacant (cells f) ->
  begin_discard s f force load why = Some (s', f', p') -> stepped t f0 f' p'.
Proof. intros [] Hl Hc [= <- <- <-]. by split. Qed.
Lemma disposing_stepped fs a k done_ :
  (forall s fs, k s fs = Some (s', f', p') -> stepped t f0 f' p') ->
  (forall es, done_ es = Some (s', f', p') -> stepped t f0 f' p') ->
  disposing s fs a k done_ = Some (s', f', p') -> stepped t f0 f' p'.
Proof.
  intros Hk Hd. unfold disposing. destruct (next_disposer fs), a; try done.
  all: destruct (dispose_step _ _ _) as [[]|]; [apply Hk|apply Hd].
Qed.
End helpers.
Lemma idle_unload cap c : idle cap c -> loading_binding c = None /\ (coherent cap c \/ vacant c).
Proof. unfold idle. destruct (state c); naive_solver. Qed.
Lemma resting_unload cap q c : resting cap q c -> loading_binding c = None /\ (coherent cap c \/ vacant c).
Proof. intros [?%idle_unload|(_ & _ & ? & ?)]; auto. Qed.
Lemma release_handle_cells s f d es s' f' es' :
  release_handle s f d es = (s', f', es') ->
  exists c, f' = with_cells f c /\ state c = Pending /\ vacant c /\ 
    (loading_binding (cells f) = None -> loading_binding c = None).
Proof.
  unfold release_handle. destruct (match handle (cells f) with Some _ => _ | None => _ end) as [rt [|e| |]];
    intros [= <- <- <-]; (eexists; split; [done|]); by split_and!.
Qed.
Lemma called_stepped t s f o a s' f' p' :
  called s f o a = Some (s', f', p') -> stepped t f f' p'.
Proof.
  assert (Hstay : forall q p, requested_more (requests f) q -> holding p = false ->
    (forall cap c, at_pc cap q p c) -> stepped t f (with_requests f q) p).
  { intros q p Hq Hh Hp. split; try done; try apply Hp; rewrite Hh; [done|]. intros _. by right. }
  assert (Hsame : forall p, holding p = false -> (forall cap q c, at_pc cap q p c) -> stepped t f f p).
  { intros p Hh Hp. split; try done; try apply Hp; rewrite Hh; [done|]. intros _. by right. }
  unfold called, goto. destruct o; [|case_bool_decide..| |].
  1-2, 4: intros [= <- <- <-]; by apply Hsame.
  - intros [= <- <- <-]. by apply Hstay; [intros Hd|..].
  - destruct a as [|[reason|]| |]; intros [= <- <- <-]; [by apply Hsame|by apply Hstay; [intros Hd|..]].
  - intros [= <- <- <-]. by apply Hstay; [intros Hd|..].
  - intros [= <- <- <-]. by apply Hstay; [intros Hd|..].
Qed.
Lemma acquired_stepped t s f0 f o s' f' p' :
  within t f0 f -> resting (fiber_capability f0) (requests f) (cells f) ->
  acquired s f o = Some (s', f', p') -> 
  (o = Dispose -> dispose_requested (requests f) = true) -> stepped t f0 f' p'.
Proof.
  intros Hw Hr Hstep Hd. destruct (resting_unload _ _ _ Hr) as [Hl Hc]. unfold acquired in Hstep.
  destruct o; [| | |case_bool_decide|destruct (state (cells f)) eqn:Es]; revert Hstep.
  1-3: by apply goto_stepped.
  all: first [by apply finish_stepped|by apply begin_unload_stepped; [..|intros _; apply Hd]|by apply begin_unload_stepped].
Qed.
Lemma after_stepped t s f0 f k es s' f' p' :
  within t f0 f -> state (cells f) = Pending -> vacant (cells f) -> loading_binding (cells f) = None ->
  (k = ToDisposed -> dispose_requested (requests f) = true) ->
  after s f k es = Some (s', f', p') -> stepped t f0 f' p'.
Proof.
  intros Hw Hp Hv Hl Hk. unfold after.
  assert (Hidle : forall c, state c = Pending -> vacant c -> loading_binding c = None ->
    idle (fiber_capability f0) c) by (intros c Hc ??; split; [done|by rewrite Hc]).
  destruct k as [force| | |].
  - apply goto_stepped; [by apply within_cells|done|]. split; [by apply Hidle|done].
  - apply finish_stepped; [by apply within_cells|]. left. by apply Hidle.
  - apply finish_stepped; [by apply within_cells|]. left. by apply Hidle.
  - apply finish_stepped; [by apply within_cells|]. right. cbn. split_and!; auto.
Qed.
Lemma verdict_stepped t s f0 f force load r stale s' f' p' :
  within t f0 f -> in_load load (cells f) ->
  verdict s f force load r stale = Some (s', f', p') -> stepped t f0 f' p'.
Proof.
  intros Hw Hl. pose proof Hl as (Hs & Hv & _). unfold verdict.
  destruct r, stale; first [by apply begin_discard_stepped|by apply goto_stepped].
Qed.
Lemma after_discard_stepped t s f0 f force why es s' f' p' :
  within t f0 f -> state (cells f) = Loading -> vacant (cells f) ->
  after_discard s f force why es = Some (s', f', p') -> stepped t f0 f' p'.
Proof.
  intros Hw Hs Hv. unfold after_discard. destruct why.
  - by apply goto_stepped; [apply within_cells| |].
  - apply finish_stepped; [by apply within_cells|]. left. by split; [|cbn; split; [|eexists]].
  - by apply goto_stepped; [apply within_requests; [apply within_cells|intros Hd]| |].
  - by apply goto_stepped; [apply within_requests; [apply within_cells|intros Hd]| |].
  - apply finish_stepped; [by apply within_cells|]. left. by split; [|cbn; split; [|eexists]].
Qed.
Lemma comparing_stepped t s f0 f force deps s' f' p' :
  within t f0 f -> idle (fiber_capability f0) (cells f) ->
  comparing s f force deps = Some (s', f', p') -> stepped t f0 f' p'.
Proof.
  intros Hw Hi. destruct (idle_unload _ _ Hi) as [Hl Hc]. unfold comparing.
  destruct (negb force && _ && _) eqn:Hm.
  - apply finish_stepped; [by apply within_cells|]. left.
    apply andb_true_iff in Hm as [[_ Ha%bool_decide_eq_true]%andb_true_iff Hb%bool_decide_eq_true].
    split; [done|]. destruct Hi as [_ Hi]. cbn. rewrite Ha in Hi |- *. destruct Hi as (h & e & Hh & He & Hd & Hp).
    exists h, (epoch_of (requested_epoch (requests f)) deps). split_and!; [done|done|done|].
    unfold dependency_binding in Hb. rewrite He in Hb. injection Hb as Hb. by rewrite Hp, Hb.
  - destruct (state (cells f)) eqn:Es; first [by apply begin_unload_stepped|by apply goto_stepped
      |destruct Hi as [_ Hi]; by rewrite Es in Hi].
Qed.
Lemma publishing_stepped t s f0 f force load v s' f' p' :
  within t f0 f -> in_load load (cells f) ->
  publishing s f force load v = Some (s', f', p') -> stepped t f0 f' p'.
Proof.
  intros Hw Hl. pose proof Hl as (Hs & Hv & _). unfold publishing.
  destruct (provide_value _ _ _ _ _) as [rt [h|e| |]] eqn:Hp; cbn [fst snd]; [| |done|done].
  - apply goto_stepped; [done|done|]. split; [done|]. apply provided_entry in Hp.
    by rewrite <- (within_capability _ _ _ Hw).
  - destruct e; by apply begin_discard_stepped.
Qed.
Lemma step_pc_stepped t s f p a s' f' p' :
  step_pc t s f p a = Some (s', f', p') ->
  (holding p = true -> transition f = Some t) ->
  (transition f = None -> resting (fiber_capability f) (requests f) (cells f)) ->
  (p = Waiting Dispose -> dispose_requested (requests f) = true) ->
  at_pc (fiber_capability f) (requests f) p (cells f) -> stepped t f f' p'.
Proof.
  intros Hstep Ht Hfree Hdis Hat. destruct p as [o|o|force|force|force|force deps|force deps|force deps|
    force load|force load r|force load r cur|force load r cur|force load v|load h|force why fs|force failed|
    detached k fs|detached k es|force|r]; cbn [step_pc holding at_pc] in *;
    try (specialize (Ht eq_refl); pose proof (within_refl t f Ht) as Hw).
  - by eapply called_stepped.
  - destruct (transition f) eqn:Etr; [done|].
    eapply (acquired_stepped t s f (with_transition f (Some t)) o); [by split|by apply Hfree|done|].
    intros ->. by apply Hdis.
  - case_match.
    { revert Hstep. by apply finish_stepped. }
    destruct (negb force && _).
    { revert Hstep. by apply finish_stepped. }
    revert Hstep. apply goto_stepped; [done|done|]. cbn. destruct Hat as [Hi|(_ & Hd & _)]; [exact Hi|congruence].
  - revert Hstep. set (c := if bool_decide _ then _ else _).
    assert (Hc : idle (fiber_capability f) c) by (unfold c; by case_bool_decide).
    apply goto_stepped; [|done|exact Hc]. apply within_requests; [by apply within_cells|intros Hd; exact Hd].
  - unfold resolving in Hstep. destruct (context_dependencies _ _ _) as [deps|e| |]; [| |done|done].
    + revert Hstep. by apply goto_stepped.
    + destruct (idle_unload _ _ Hat) as [Hl Hc].
      destruct e; try (revert Hstep; apply finish_stepped; [done|by left]).
      case_bool_decide as Ha; revert Hstep.
      * by apply begin_unload_stepped.
      * apply finish_stepped; [by apply within_cells|]. left. destruct Hat as [_ Hat]. split; [done|].
        cbn. by destruct (state (cells f)); destruct Hat.
  - by eapply comparing_stepped.
  - case_match; revert Hstep; [|by apply goto_stepped]. apply finish_stepped; [done|left; apply Hat].
  - revert Hstep. unfold preparing. apply goto_stepped; [by apply within_cells|done|].
    destruct Hat as [[_ Hat] Hp]. rewrite Hp in Hat. by split_and!; destruct Hat.
  - destruct a; [done|done| |done]. revert Hstep. by apply goto_stepped.
  - revert Hstep. by apply goto_stepped.
  - case_match; revert Hstep; [by apply verdict_stepped|by apply goto_stepped].
  - by eapply verdict_stepped.
  - by eapply publishing_stepped.
  - revert Hstep. unfold committing. apply finish_stepped; [by apply within_cells|]. left. split; [done|].
    destruct Hat as (_ & Hd & Hp). refine (ex_intro _ h (ex_intro _ _ (conj eq_refl (conj eq_refl (conj Hd _))))).
    cbn. by rewrite binding_entries.
  - revert Hstep. apply disposing_stepped; [intros s1 fs1; by apply goto_stepped|].
    intros es. destruct Hat. by apply after_discard_stepped.
  - destruct Hat as (Hs & Hv & Hl). case_match eqn:Hd; revert Hstep.
    + destruct failed; (apply finish_stepped; [first [by apply within_cells|done]|right; cbn; auto]).
    + apply goto_stepped; [by apply within_cells|done|]. by split.
  - revert Hstep. apply disposing_stepped; [intros s1 fs1|intros es]; by apply goto_stepped.
  - destruct (release_handle s f detached es) as [[s1 f1] es1] eqn:Hr.
    apply release_handle_cells in Hr as (c & -> & Hp & Hv & Hl). destruct Hat as (_ & Hb & _ & Hk).
    eapply (after_stepped t s1 f (with_cells f c)); [by apply within_cells|exact Hp|exact Hv|exact (Hl Hb)|exact Hk|exact Hstep].
  - case_match; revert Hstep; [|apply goto_stepped; [done|done|apply Hat]]. apply finish_stepped; [done|left; apply Hat].
  - done.
Qed.

(** ** All tasks *)
Definition task_pc (w : world) (t : TaskId) (id : FiberId) (p : pc) : Prop :=
  exists k, w_tasks w !! t = Some k /\ task_at k = Some (id, p).
Record life_inv (w : world) : Prop := {
  li_id id f : w_fibers w !! id = Some f -> fiber_id f = id /\ (id < w_next_fiber w)%N;
  li_free id f : w_fibers w !! id = Some f -> transition f = None ->
    resting (fiber_capability f) (requests f) (cells f);
  li_held id f t : w_fibers w !! id = Some f -> transition f = Some t ->
    exists p, task_pc w t id p /\ holding p = true /\ at_pc (fiber_capability f) (requests f) p (cells f);
  li_holds t id p : task_pc w t id p -> holding p = true ->
    exists f, w_fibers w !! id = Some f /\ transition f = Some t;
  li_waiting t id : task_pc w t id (Waiting Dispose) ->
    exists f, w_fibers w !! id = Some f /\ dispose_requested (requests f) = true
}.
Lemma task_pc_unique w t id p id' p' : task_pc w t id p -> task_pc w t id' p' -> id' = id /\ p' = p.
Proof. intros (k & Hk & Hp) (k' & Hk' & Hp'). rewrite Hk in Hk'. injection Hk' as <-. by rewrite Hp in Hp'; injection Hp' as -> ->. Qed.

(** Requests of other callers change nothing else. *)
Record only_requests (f f' : CapabilityFiber) : Prop := {
  or_id : fiber_id f' = fiber_id f;
  or_definition : fiber_definition f' = fiber_definition f;
  or_cells : cells f' = cells f;
  or_transition : transition f' = transition f;
  or_requests : requested_more (requests f) (requests f')
}.
Lemma only_requests_refl f : only_requests f f.
Proof. by split. Qed.
(** A change that lets every fiber be and moves no task that has a lock; tasks
    that come or move wait for nothing yet. *)
Lemma life_inv_frame w w' :
  life_inv w -> (w_next_fiber w <= w_next_fiber w')%N ->
  (forall id f', w_fibers w' !! id = Some f' -> exists f, w_fibers w !! id = Some f /\ only_requests f f') ->
  (forall id f, w_fibers w !! id = Some f -> is_Some (w_fibers w' !! id)) ->
  (forall t id p, task_pc w t id p -> holding p = true -> task_pc w' t id p) ->
  (forall t id p, task_pc w' t id p -> task_pc w t id p \/ holding p = false /\ p <> Waiting Dispose) ->
  life_inv w'.
Proof.
  intros I Hn Hf Hf' Ht Ht'. split.
  - intros id f' (f & Hid & Hr)%Hf. destruct (li_id _ I id f Hid). rewrite (or_id _ _ Hr). split; [done|lia].
  - intros id f' (f & Hid & [_ Hd Hc Htr Hq])%Hf Hfree. rewrite Htr in Hfree. unfold fiber_capability. rewrite Hd, Hc.
    eapply resting_mono; [exact Hq|]. by eapply (li_free _ I).
  - intros id f' t (f & Hid & [_ Hd Hc Htr Hq])%Hf Hheld. rewrite Htr in Hheld.
    destruct (li_held _ I id f t Hid Hheld) as (p & Hp & Hh & Ha). exists p. split_and!; [auto|done|].
    unfold fiber_capability. rewrite Hd, Hc. by eapply at_pc_mono.
  - intros t id p [Hp|[Hp _]]%Ht' Hh; [|congruence]. destruct (li_holds _ I t id p Hp Hh) as (f & Hid & Htr).
    destruct (Hf' id f Hid) as [f' Hid']. exists f'. split; [done|].
    destruct (Hf id f' Hid') as (f1 & Hid1 & [_ _ _ Htr1 _]). congruence.
  - intros t id [Hp|[_ Hp]]%Ht'; [|done]. destruct (li_waiting _ I t id Hp) as (f & Hid & Hd).
    destruct (Hf' id f Hid) as [f' Hid']. exists f'. split; [done|].
    destruct (Hf id f' Hid') as (f1 & Hid1 & [_ _ _ _ Hq]). apply Hq. congruence.
Qed.
Lemma life_inv_same w w' :
  life_inv w -> w_next_fiber w' = w_next_fiber w -> w_fibers w' = w_fibers w -> w_tasks w' = w_tasks w -> life_inv w'.
Proof.
  intros I Hn Hf Ht. apply (life_inv_frame w); [done|by rewrite Hn| | | |].
  - intros id f. rewrite Hf. intros Hid. exists f. by split; [|apply only_requests_refl].
  - intros id f Hid. rewrite Hf. by eexists.
  - intros t id p (k & Hk & Hp) _. exists k. by rewrite Ht.
  - intros t id p (k & Hk & Hp). left. exists k. by rewrite <- Ht.
Qed.
(** A task that has no lock is replaced by one that has none. *)
Lemma life_inv_retask w w' t k :
  life_inv w -> w_next_fiber w' = w_next_fiber w -> w_fibers w' = w_fibers w ->
  w_tasks w' = <[t := k]> (w_tasks w) ->
  (forall k0 id p, w_tasks w !! t = Some k0 -> task_at k0 = Some (id, p) -> holding p = false) ->
  (forall id p, task_at k = Some (id, p) -> holding p = false /\ p <> Waiting Dispose) -> life_inv w'.
Proof.
  intros I Hn Hf Ht Hold Hnew. apply (life_inv_frame w); [done|by rewrite Hn| | | |].
  - intros id f. rewrite Hf. intros Hid. exists f. by split; [|apply only_requests_refl].
  - intros id f Hid. rewrite Hf. by eexists.
  - intros t' id p (k' & Hk & Hp) Hh. exists k'. rewrite Ht. split; [|done].
    rewrite lookup_insert_ne; [done|]. intros <-. specialize (Hold _ _ _ Hk Hp). congruence.
  - intros t' id p (k' & Hk & Hp). rewrite Ht in Hk. apply lookup_insert_Some in Hk as [[<- <-]|[_ Hk]].
    + right. by apply (Hnew id).
    + left. by exists k'.
Qed.
Lemma sweep_on_life w t runtime rest es :
  life_inv w -> (forall k0 id p, w_tasks w !! t = Some k0 -> task_at k0 = Some (id, p) -> holding p = false) ->
  life_inv (sweep_on w t runtime rest es).
Proof.
  intros I Hold. unfold sweep_on. destruct rest as [|id rest]; (eapply (life_inv_retask w); [done|done|done|done|done|]).
  - done.
  - by intros id' p [= <- <-].
Qed.
Lemma life_inv_instantiate w id c cfg refusal w' i :
  life_inv w -> instantiate w id c cfg refusal = Ok (w', i) -> life_inv w'.
Proof.
  intros I Hi. unfold instantiate in Hi. apply bind_Ok in Hi as (r & _ & Hi).
  destruct (create_fiber w r c cfg refusal) as [[w1 i1]| | |] eqn:Hc; [|done..]. injection Hi as -> ->.
  unfold create_fiber in Hc. destruct refusal; [done|]. apply bind_Ok in Hc as (n & _ & [= <- <-]).
  set (f := CapabilityFiber_new _ _ _ _ _ _).
  assert (Hnew : forall f0, w_fibers w !! w_next_fiber w <> Some f0).
  { intros f0 E. apply (li_id _ I) in E. lia. }
  split; cbn [w_fibers w_next_fiber].
  - intros id' f' [[<- <-]|[_ Hf]]%lookup_insert_Some; [split; [done|lia]|]. apply (li_id _ I) in Hf. split; [tauto|lia].
  - intros id' f' [[<- <-]|[_ Hf]]%lookup_insert_Some Htr; [|by eapply (li_free _ I)]. by left.
  - intros id' f' t [[<- <-]|[_ Hf]]%lookup_insert_Some Htr; [done|]. by apply (li_held _ I).
  - intros t id' p Hp Hh. destruct (li_holds _ I t id' p Hp Hh) as (f' & Hf & Htr). exists f'. split; [|done].
    apply lookup_insert_Some. right. split; [|done]. intros Heq. subst id'. exact (Hnew _ Hf).
  - intros t id' Hp. destruct (li_waiting _ I t id' Hp) as (f' & Hf & Hd). exists f'. split; [|done].
    apply lookup_insert_Some. right. split; [|done]. intros Heq. subst id'. exact (Hnew _ Hf).
Qed.
(** A call that returns gives the lock back, one that has not got it leaves it
    to its holder. *)
Lemma finish_Some s f r s' f' p' : finish s f r = Some (s', f', p') -> transition f' = None /\ p' = Returned r.
Proof. by intros [= <- <- <-]. Qed.
Ltac outcomes H :=
  unfold disposing, after, called, acquired, resolving, comparing, preparing, verdict, publishing, committing,
    after_discard, begin_unload, begin_discard, goto, finish in H;
  repeat (case_match; try discriminate H); simplify_eq; try done.
Lemma step_pc_lock t s f p a s' f' p' :
  step_pc t s f p a = Some (s', f', p') ->
  (holding p = true -> holding p' = false -> transition f' = None) /\
  (holding p = false -> transition f <> None -> transition f' = transition f /\ holding p' = false) /\
  (p' = Waiting Dispose -> dispose_requested (requests f') = true).
Proof.
  intros Hs. destruct p; cbn [step_pc holding] in *; (split; [|split]); try done; intros; outcomes Hs.
Qed.
Lemma retask_at k id p p' : task_at k = Some (id, p) -> task_at (retask k p') = Some (id, p').
Proof. destruct k; [intros [= -> ->]; done..|done]. Qed.
Lemma stepped_capability t f f' p' : stepped t f f' p' -> fiber_capability f' = fiber_capability f.
Proof. intros []. unfold fiber_capability. congruence. Qed.
(** A step of a task. *)
Lemma life_inv_advance w t a id p w' d :
  life_inv w -> task_pc w t id p -> advance w t a = Some (w', d) ->
  life_inv w' /\ exists f f' p' s', w_fibers w !! id = Some f /\
    step_pc t (w_shared w) f p a = Some (s', f', p') /\ w_shared w' = s' /\
    w_fibers w' = <[id := f']> (w_fibers w) /\ stepped t f f' p'.
Proof.
  intros I (k & Hk & Hp) Ha. unfold advance in Ha. rewrite Hk in Ha. cbn [mbind option_bind] in Ha.
  rewrite Hp in Ha. cbn [mbind option_bind fst snd] in Ha.
  destruct (w_fibers w !! id) as [f|] eqn:Hf; [|done]. cbn [mbind option_bind] in Ha.
  destruct (step_pc t (w_shared w) f p a) as [[[s f'] p']|] eqn:Hs; [|done]. injection Ha as <- _.
  assert (Htp : task_pc w t id p) by (by exists k).
  assert (Hheld : holding p = true -> transition f = Some t).
  { intros Hh. destruct (li_holds _ I t id p Htp Hh) as (f1 & Hf1 & ?). congruence. }
  pose proof (step_pc_lock _ _ _ _ _ _ _ _ Hs) as (Hrel & Hwait & Hdis).
  assert (Hst : stepped t f f' p').
  { apply (step_pc_stepped _ _ _ _ _ _ _ _ Hs); [done|by apply (li_free _ I id)| |].
    - intros ->. destruct (li_waiting _ I t id Htp) as (f1 & Hf1 & ?). congruence.
    - destruct (holding p) eqn:Hh; [|by destruct p].
      destruct (li_held _ I id f t Hf (Hheld eq_refl)) as (p1 & Hp1 & _ & Hat).
      by destruct (task_pc_unique _ _ _ _ _ _ Htp Hp1) as [_ ->]. }
  split; [|exists f, f', p', s; done].
  pose proof (li_id _ I id f Hf) as [Hid Hlt].
  assert (Hother : forall t' id' q, t' <> t -> task_pc w t' id' q <->
    (exists k', <[t := retask k p']> (w_tasks w) !! t' = Some k' /\ task_at k' = Some (id', q))).
  { intros t' id' q Hne. unfold task_pc. by rewrite lookup_insert_ne. }
  split; cbn [w_fibers w_next_fiber w_tasks].
  - intros id' f1 [[<- <-]|[_ Hf1]]%lookup_insert_Some; [|by apply (li_id _ I)].
    by rewrite (sp_id _ _ _ _ Hst).
  - intros id' f1 [[<- <-]|[_ Hf1]]%lookup_insert_Some Htr; [|by eapply (li_free _ I)].
    rewrite (stepped_capability _ _ _ _ Hst). destruct (holding p') eqn:Hh.
    + by rewrite (sp_held _ _ _ _ Hst Hh) in Htr.
    + destruct (sp_free _ _ _ _ Hst Hh) as [[_ Hr]|[Htr' Hc]]; [exact Hr|]. rewrite Hc.
      eapply resting_mono; [apply Hst|]. apply (li_free _ I id f Hf). congruence.
  - intros id' f1 t' [[<- <-]|[Hne Hf1]]%lookup_insert_Some Htr.
    + rewrite (stepped_capability _ _ _ _ Hst). destruct (holding p') eqn:Hh.
      * rewrite (sp_held _ _ _ _ Hst Hh) in Htr. injection Htr as <-. exists p'. split_and!; [|done|apply Hst].
        exists (retask k p'). split; [apply lookup_insert_eq|]. by eapply retask_at.
      * destruct (sp_free _ _ _ _ Hst Hh) as [[Htr' _]|[Htr' Hc]]; [congruence|]. rewrite Hc.
        destruct (li_held _ I id f t' Hf) as (q & Hq & Hhq & Haq); [congruence|].
        assert (Hne : t' <> t).
        { intros ->. destruct (task_pc_unique _ _ _ _ _ _ Htp Hq) as [_ ->].
          rewrite (Hrel Hhq eq_refl) in Htr. discriminate. }
        exists q. split_and!; [by apply Hother|done|]. eapply at_pc_mono; [apply Hst|done].
    + destruct (li_held _ I id' f1 t' Hf1 Htr) as (q & Hq & Hhq & Haq). exists q. split_and!; [|done|done].
      apply Hother; [|done]. intros ->. by destruct (task_pc_unique _ _ _ _ _ _ Htp Hq) as [-> _].
  - intros t' id' q (k' & Hk' & Hq) Hh. cbn [w_tasks] in Hk'. apply lookup_insert_Some in Hk' as [[<- <-]|[Hne Hk']].
    + erewrite retask_at in Hq by done. injection Hq as <- <-. exists f'. split; [apply lookup_insert_eq|]. by apply Hst.
    + destruct (li_holds _ I t' id' q) as (f1 & Hf1 & Htr); [by exists k'|done|].
      destruct (decide (id' = id)) as [->|Hn]; [|exists f1; by rewrite lookup_insert_ne].
      assert (f1 = f) as -> by congruence. exists f'. split; [apply lookup_insert_eq|].
      destruct (holding p) eqn:Hhp; [rewrite (Hheld eq_refl) in Htr; congruence|].
      destruct Hwait as [-> _]; [done|by rewrite Htr|done].
  - intros t' id' (k' & Hk' & Hq). cbn [w_tasks] in Hk'. apply lookup_insert_Some in Hk' as [[<- <-]|[Hne Hk']].
    + erewrite retask_at in Hq by done. injection Hq as <- ->. exists f'. split; [apply lookup_insert_eq|]. by apply Hdis.
    + destruct (li_waiting _ I t' id') as (f1 & Hf1 & Hd1); [by exists k'|].
      destruct (decide (id' = id)) as [->|Hn]; [|exists f1; by rewrite lookup_insert_ne].
      exists f'. split; [apply lookup_insert_eq|]. apply (sp_requests _ _ _ _ Hst). congruence.
Qed.
Lemma only_requests_fiber w f f' :
  life_inv w -> w_fibers w !! fiber_id f = Some f -> only_requests f f' -> life_inv (with_fiber f' w).
Proof.
  intros I Hf Hr. pose proof (or_id _ _ Hr) as Hid. apply (life_inv_frame w); [done|done| | | |].
  - intros id f1. cbn. intros [[<- <-]|[_ Hf1]]%lookup_insert_Some; [exists f; by rewrite Hid|].
    exists f1. by split; [|apply only_requests_refl].
  - intros id f1 Hf1. cbn. apply lookup_insert_is_Some'. right. by eexists.
  - done.
  - by left.
Qed.
Lemma step_life w es w' : fiber_step false w es w' -> life_inv w -> life_inv w'.
Proof.
  intros Hstep I. destruct Hstep as [w rt l _|w r w' Hr|w id|w id c cfg refusal w' i Hi|w t id o Ht Hf|
    w t runtime Ht|w t w' Hs|w t a k id p w' d Hk Hp Ha|w t Hc|w f Hf|w f l s Hf He|w id e l t Hh He|
    w id e l t c Hh He].
  - by apply (life_inv_same w).
  - unfold register_runtime in Hr. destruct (w_registry w !! _); [done|]. injection Hr as <-. by apply (life_inv_same w).
  - by apply (life_inv_same w).
  - by eapply life_inv_instantiate.
  - apply (life_inv_retask w _ t (OnFiber id (Called o))); [done|done|done|done|congruence|].
    by intros id' p [= <- <-].
  - unfold dispose_fibers. apply sweep_on_life; [done|congruence].
  - unfold sweep_next in Hs. destruct (w_tasks w !! t) as [[|runtime f p rest es|]|] eqn:Hk; try done.
    destruct p; try done. injection Hs as <-. apply sweep_on_life; [done|]. intros k0 id p Hk0 Hp.
    rewrite Hk in Hk0. injection Hk0 as <-. by injection Hp as _ <-.
  - eapply life_inv_advance; [done|by exists k|done].
  - done.
  - apply (only_requests_fiber _ f); [done|done|]. by split; [..|intros Hd].
  - by apply (life_inv_same w).
  - by apply (life_inv_same w).
  - by apply (life_inv_same w).
Qed.
Lemma reachable_life tr w : fiber_reachable false tr w -> life_inv w.
Proof.
  induction 1 as [|tr w es w' _ IH Hstep]; [|by eapply step_life].
  split; [done|done|done|..]; by intros ??? (k & Hk & _) || by intros ?? (k & Hk & _).
Qed.

(** ** Finality

    With cancellations too: a disposed fiber has its disposal requested, and no
    call is past the first check with a disposed fiber. *)
Definition past_entry (p : pc) : bool := match p with Entering _ => false | p => holding p end.
Definition disposes (p : pc) : bool :=
  match p with
  | Waiting Dispose | UnloadingEffects _ ToDisposed _ | Releasing _ ToDisposed _ => true
  | _ => false
  end.
Definition is_disposed (f : CapabilityFiber) : Prop := state (cells f) = Disposed.
Lemma step_pc_final t s f p a s' f' p' :
  step_pc t s f p a = Some (s', f', p') ->
  (past_entry p = true -> ~ is_disposed f) ->
  (disposes p = true -> dispose_requested (requests f) = true) ->
  (is_disposed f -> dispose_requested (requests f) = true) ->
  (is_disposed f -> cells f' = cells f /\ s' = s) /\
  (is_disposed f' -> dispose_requested (requests f') = true) /\
  (past_entry p' = true -> ~ is_disposed f') /\
  (disposes p' = true -> dispose_requested (requests f') = true) /\
  (holding p = false -> holding p' = true -> transition f = None /\ transition f' = Some t) /\
  (holding p = true -> transition f = Some t -> holding p' = true -> transition f' = Some t) /\
  (holding p = false -> holding p' = false -> transition f' = transition f /\ cells f' = cells f) /\
  requested_more (requests f) (requests f').
Proof.
  unfold is_disposed, requested_more. intros Hs Hpast Hdis Hfin.
  destruct p; cbn [step_pc holding past_entry disposes] in *; outcomes Hs.
  all: try match goal with H : release_handle _ _ _ _ = _ |- _ =>
    apply release_handle_cells in H as (? & -> & ? & _) end.
  all: rewrite ?bool_decide_eq_false, ?bool_decide_eq_true in *; cbn -[dispose_all EffectScope_new] in *.
  all: split_and!; intros; try tauto; congruence.
Qed.
Record final_inv (w : world) : Prop := {
  fi_id id f : w_fibers w !! id = Some f -> (id < w_next_fiber w)%N;
  fi_disposed id f : w_fibers w !! id = Some f -> is_disposed f -> dispose_requested (requests f) = true;
  fi_task t id p : task_pc w t id p -> (forall o, p <> Called o) ->
    exists f, w_fibers w !! id = Some f /\
      (holding p = true -> transition f = Some t) /\ (past_entry p = true -> ~ is_disposed f) /\
      (disposes p = true -> dispose_requested (requests f) = true)
}.
Lemma final_frame w w' :
  final_inv w -> (w_next_fiber w <= w_next_fiber w')%N ->
  (forall id f', w_fibers w' !! id = Some f' -> exists f, w_fibers w !! id = Some f /\
     cells f' = cells f /\ requested_more (requests f) (requests f')) ->
  (forall id f, w_fibers w !! id = Some f -> is_Some (w_fibers w' !! id)) ->
  (forall t id p, task_pc w' t id p -> task_pc w t id p \/ exists o, p = Called o) ->
  (forall t id p f f', task_pc w' t id p -> w_fibers w !! id = Some f -> w_fibers w' !! id = Some f' ->
     transition f = Some t -> transition f' = Some t) -> final_inv w'.
Proof.
  intros I Hn Hf Hf' Ht Htr. split.
  - intros id f' (f & Hid%(fi_id _ I) & _)%Hf. lia.
  - intros id f' (f & Hid & Hc & Hq)%Hf Hd. apply Hq, (fi_disposed _ I id f Hid). by unfold is_disposed in *; rewrite <- Hc.
  - intros t id p Htp Hp. destruct (Ht t id p Htp) as [Htp0|[o ->]]; [|by destruct (Hp o)].
    destruct (fi_task _ I t id p Htp0 Hp) as (f & Hid & H1 & H2 & H3). destruct (Hf' id f Hid) as [f' Hid'].
    exists f'. split; [done|]. destruct (Hf id f' Hid') as (f1 & Hid1 & Hc & Hq).
    assert (f1 = f) as -> by congruence. split_and!.
    + intros Hh. eapply Htr; eauto.
    + intros Hh Hd. apply H2; [done|]. unfold is_disposed in *. by rewrite <- Hc.
    + intros Hd. by apply Hq, H3.
Qed.
Lemma final_same w w' :
  final_inv w -> w_next_fiber w' = w_next_fiber w -> w_fibers w' = w_fibers w ->
  (forall t id p, task_pc w' t id p -> task_pc w t id p \/ exists o, p = Called o) -> final_inv w'.
Proof.
  intros I Hn Hf Ht. apply (final_frame w); [done|by rewrite Hn| | |done|].
  - intros id f. rewrite Hf. intros Hid. exists f. by split_and!.
  - intros id f Hid. rewrite Hf. by eexists.
  - intros t id p f f' _ Hid Hid'. rewrite Hf in Hid'. congruence.
Qed.
Lemma called_tasks w w' t k :
  w_tasks w' = <[t := k]> (w_tasks w) -> (forall id p, task_at k = Some (id, p) -> exists o, p = Called o) ->
  forall t id p, task_pc w' t id p -> task_pc w t id p \/ exists o, p = Called o.
Proof.
  intros Ht Hk t' id p (k' & Hk' & Hp). rewrite Ht in Hk'. apply lookup_insert_Some in Hk' as [[<- <-]|[_ Hk']].
  - right. by eapply Hk.
  - left. by exists k'.
Qed.
Lemma sweep_on_shape w t runtime rest es :
  w_next_fiber (sweep_on w t runtime rest es) = w_next_fiber w /\
  w_fibers (sweep_on w t runtime rest es) = w_fibers w /\
  forall t' id p, task_pc (sweep_on w t runtime rest es) t' id p -> task_pc w t' id p \/ exists o, p = Called o.
Proof.
  unfold sweep_on. destruct rest as [|id rest]; (split_and!; [done|done|]); (eapply called_tasks; [done|]); [done|].
  intros id' p [= <- <-]. by eexists.
Qed.
Lemma cancel_tasks w t t' id p : task_pc (cancel w t) t' id p -> t' <> t /\ task_pc w t' id p.
Proof.
  intros (k & Hk & Hp). unfold cancel in Hk. cbn [w_tasks] in Hk. apply lookup_delete_Some in Hk as [Hne Hk].
  split; [done|]. by exists k.
Qed.
Lemma cancel_fibers w t id f' :
  w_fibers (cancel w t) !! id = Some f' ->
  exists f, w_fibers w !! id = Some f /\ (f' = f \/ transition f = Some t /\ f' = with_transition f None).
Proof.
  unfold cancel. cbn [w_fibers]. destruct (w_tasks w !! t ≫= task_at) as [[id0 p]|]; [|intros Hf; exists f'; auto].
  destruct (w_fibers w !! id0) as [f0|] eqn:E; [|intros Hf; exists f'; auto]. case_bool_decide; [|intros Hf; exists f'; auto].
  intros [[<- <-]|[_ Hf]]%lookup_insert_Some; [exists f0|exists f']; auto.
Qed.
Lemma cancel_fibers_back w t id f : w_fibers w !! id = Some f -> is_Some (w_fibers (cancel w t) !! id).
Proof.
  intros Hf. unfold cancel. cbn [w_fibers]. destruct (w_tasks w !! t ≫= task_at) as [[id0 p]|]; [|by eexists].
  destruct (w_fibers w !! id0); [|by eexists]. case_bool_decide; [|by eexists].
  apply lookup_insert_is_Some'. right. by eexists.
Qed.
Lemma advance_final w t a id p w' d :
  final_inv w -> task_pc w t id p -> advance w t a = Some (w', d) ->
  final_inv w' /\ exists f f', w_fibers w !! id = Some f /\ w_fibers w' = <[id := f']> (w_fibers w) /\
    (is_disposed f -> cells f' = cells f /\ w_shared w' = w_shared w).
Proof.
  intros I (k & Hk & Hp) Ha. unfold advance in Ha. rewrite Hk in Ha. cbn [mbind option_bind] in Ha.
  rewrite Hp in Ha. cbn [mbind option_bind fst snd] in Ha.
  destruct (w_fibers w !! id) as [f|] eqn:Hf; [|done]. cbn [mbind option_bind] in Ha.
  destruct (step_pc t (w_shared w) f p a) as [[[s f'] p']|] eqn:Hs; [|done]. injection Ha as <- _.
  assert (Htp : task_pc w t id p) by (by exists k).
  assert (Htask : (forall o, p <> Called o) -> (holding p = true -> transition f = Some t) /\
    (past_entry p = true -> ~ is_disposed f) /\ (disposes p = true -> dispose_requested (requests f) = true)).
  { intros Hc. destruct (fi_task _ I t id p Htp Hc) as (f1 & Hf1 & ?). by assert (f1 = f) as -> by congruence. }
  assert (Hcalled : (exists o, p = Called o) \/ forall o, p <> Called o) by (destruct p; eauto).
  destruct (step_pc_final _ _ _ _ _ _ _ _ Hs) as (F1 & F2 & F3 & F4 & F5 & F6 & F7 & F8).
  { destruct Hcalled as [[o ->]|Hc]; [done|by apply Htask]. }
  { destruct Hcalled as [[o ->]|Hc]; [done|by apply Htask]. }
  { by apply (fi_disposed _ I id). }
  split; [|exists f, f'; split_and!; [done|done|intros [? ->]%F1; done]].
  split; cbn [w_fibers w_next_fiber w_tasks].
  - intros id' f1 [[<- <-]|[_ Hf1]]%lookup_insert_Some; by eapply (fi_id _ I).
  - intros id' f1 [[<- <-]|[_ Hf1]]%lookup_insert_Some; [done|by apply (fi_disposed _ I id')].
  - intros t' id' q (k' & Hk' & Hq) Hc. cbn [w_tasks] in Hk'. apply lookup_insert_Some in Hk' as [[<- <-]|[Hne Hk']].
    + erewrite retask_at in Hq by done. injection Hq as <- <-. exists f'. split; [apply lookup_insert_eq|].
      split_and!; [|done|done]. intros Hh. destruct (holding p) eqn:Hhp; [|by apply F5].
      apply F6; [done| |done]. apply Htask; [|done]. intros o ->. done.
    + destruct (fi_task _ I t' id' q) as (f1 & Hf1 & G1 & G2 & G3); [by exists k'|done|].
      destruct (decide (id' = id)) as [->|Hn]; [|exists f1; by rewrite lookup_insert_ne].
      assert (f1 = f) as -> by congruence. exists f'. split; [apply lookup_insert_eq|]. split_and!.
      * intros Hh. specialize (G1 Hh). destruct (holding p) eqn:Hhp.
        { assert (transition f = Some t); [|congruence]. apply Htask; [|done]. by intros o ->. }
        destruct (holding p') eqn:Hhp'; [destruct F5 as [? _]; [done|done|congruence]|].
        destruct F7 as [-> _]; done.
      * intros Hh Hd. assert (Hq' : holding q = true) by (by destruct q). specialize (G1 Hq').
        destruct (holding p) eqn:Hhp.
        { assert (transition f = Some t); [|congruence]. apply Htask; [|done]. by intros o ->. }
        destruct (holding p') eqn:Hhp'; [destruct F5 as [? _]; [done|done|congruence]|].
        apply (G2 Hh). unfold is_disposed in *. destruct F7 as [_ <-]; done.
      * intros Hd. by apply F8, G3.
Qed.
(** Disposed fibers keep their cells. *)
Definition keeps_disposed (w w' : world) : Prop :=
  forall id f, w_fibers w !! id = Some f -> exists f', w_fibers w' !! id = Some f' /\ (is_disposed f -> cells f' = cells f).
Lemma instantiate_final w id cx cfg refusal w' i : instantiate w id cx cfg refusal = Ok (w', i) -> final_inv w ->
  final_inv w' /\ keeps_disposed w w'.
Proof.
  unfold instantiate. intros Hi I. apply bind_Ok in Hi as (r & _ & Hi).
  destruct (create_fiber w r cx cfg refusal) as [[w1 i1]| | |] eqn:Hc; [|done..]. injection Hi as -> ->.
  unfold create_fiber in Hc. destruct refusal; [done|]. apply bind_Ok in Hc as (n & _ & [= <- <-]).
  assert (Hnew : forall id f, w_fibers w !! id = Some f -> w_next_fiber w <> id) by (intros id' f Hf%(fi_id _ I); lia).
  split.
  - split; cbn [w_fibers w_next_fiber].
    + intros id' f' [[<- <-]|[_ Hf]]%lookup_insert_Some; [lia|]. apply (fi_id _ I) in Hf. lia.
    + intros id' f' [[<- <-]|[_ Hf]]%lookup_insert_Some Hd; [done|by apply (fi_disposed _ I id')].
    + intros t id' p Hp Hno. destruct (fi_task _ I t id' p Hp Hno) as (f' & Hf & ?). exists f'. split; [|done].
      rewrite lookup_insert_ne; [done|by eapply Hnew].
  - intros id' f Hf. exists f. split; [|done]. cbn. rewrite lookup_insert_ne; [done|by eapply Hnew].
Qed.
Lemma cancel_final w t : final_inv w -> final_inv (cancel w t) /\ keeps_disposed w (cancel w t).
Proof.
  intros I. assert (Hback : forall id f', w_fibers (cancel w t) !! id = Some f' -> exists f, w_fibers w !! id = Some f /\
    cells f' = cells f /\ requests f' = requests f).
  { intros id f' (f & Hf & Hf')%cancel_fibers. exists f. by destruct Hf' as [->|[_ ->]]. }
  split.
  - apply (final_frame w); [done|done| |by apply cancel_fibers_back| |].
    + intros id f' (f & ? & ? & Hq)%Hback. exists f. by rewrite Hq.
    + intros t' id p [_ ?]%cancel_tasks. by left.
    + intros t' id p f f' [Hne _]%cancel_tasks Hf Hf' Htr. apply cancel_fibers in Hf' as (f1 & Hf1 & Hc1).
      assert (f1 = f) as -> by congruence. destruct Hc1 as [->|[Htr' _]]; [done|congruence].
  - intros id f Hf. destruct (cancel_fibers_back w t id f Hf) as [f' Hf']. exists f'. split; [done|].
    destruct (Hback id f' Hf') as (f1 & ? & ? & _). congruence.
Qed.
Lemma notify_final w f : w_fibers w !! fiber_id f = Some f -> final_inv w ->
  final_inv (with_fiber (notify_dependency_change f) w) /\ keeps_disposed w (with_fiber (notify_dependency_change f) w).
Proof.
  intros Hf I. assert (Hcells : forall id f', w_fibers (with_fiber (notify_dependency_change f) w) !! id = Some f' ->
    exists f0, w_fibers w !! id = Some f0 /\ cells f' = cells f0 /\ transition f' = transition f0 /\
      requested_more (requests f0) (requests f')).
  { cbn. intros id f' [[<- <-]|[_ Hf']]%lookup_insert_Some; [exists f|exists f'; done]. split_and!; [done..|].
    by intros Hd. }
  assert (Hback : forall id f0, w_fibers w !! id = Some f0 ->
    is_Some (w_fibers (with_fiber (notify_dependency_change f) w) !! id)).
  { intros id f0 Hf0. cbn. apply lookup_insert_is_Some'. right. by eexists. }
  split.
  - apply (final_frame w); [done|done| |done|by left|].
    + intros id f' (f0 & ? & ? & _ & ?)%Hcells. by exists f0.
    + intros t id p f0 f' _ Hf0 (f1 & ? & _ & -> & _)%Hcells Htr. congruence.
  - intros id f0 Hf0. destruct (Hback id f0 Hf0) as [f' Hf']. exists f'. split; [done|].
    destruct (Hcells id f' Hf') as (f1 & ? & ? & _). congruence.
Qed.
Lemma step_final c w es w' :
  fiber_step c w es w' -> final_inv w -> final_inv w' /\
  forall id f, w_fibers w !! id = Some f -> exists f', w_fibers w' !! id = Some f' /\
    (is_disposed f -> cells f' = cells f).
Proof.
  intros Hstep I.
  assert (Hsame : w_next_fiber w' = w_next_fiber w -> w_fibers w' = w_fibers w ->
    (forall t id p, task_pc w' t id p -> task_pc w t id p \/ exists o, p = Called o) ->
    final_inv w' /\ forall id f, w_fibers w !! id = Some f -> exists f', w_fibers w' !! id = Some f' /\
      (is_disposed f -> cells f' = cells f)).
  { intros Hn Hf Ht. split; [by eapply final_same|]. intros id f Hid. exists f. by rewrite Hf. }
  destruct Hstep as [w rt l _|w r w' Hr|w id|w id cx cfg refusal w' i Hi|w t id o Ht Hf|
    w t runtime Ht|w t w' Hs|w t a k id p w' d Hk Hp Ha|w t Hc|w f Hf|w f l s Hf He|w id e l t Hh He|
    w id e l t cs Hh He].
  - apply Hsame; [done|done|by left].
  - unfold register_runtime in Hr. destruct (w_registry w !! _); [done|]. injection Hr as <-. apply Hsame; [done|done|by left].
  - apply Hsame; [done|done|by left].
  - by eapply instantiate_final.
  - apply Hsame; [done|done|]. eapply called_tasks; [done|]. intros id' p [= <- <-]. by eexists.
  - by apply Hsame; apply sweep_on_shape.
  - unfold sweep_next in Hs. destruct (w_tasks w !! t) as [[|runtime f p rest es|]|]; try done.
    destruct p; try done. injection Hs as <-. by apply Hsame; apply sweep_on_shape.
  - destruct (advance_final w t a id p w' d I) as (I' & f & f' & Hf & Hw & Hc); [by exists k|done|].
    split; [done|]. intros id' f1 Hf1. rewrite Hw. destruct (decide (id' = id)) as [->|Hne].
    + assert (f1 = f) as -> by congruence. exists f'. split; [apply lookup_insert_eq|]. by intros [? _]%Hc.
    + exists f1. by rewrite lookup_insert_ne.
  - by apply cancel_final.
  - by apply notify_final.
  - apply Hsame; [done|done|by left].
  - apply Hsame; [done|done|by left].
  - apply Hsame; [done|done|by left].
Qed.
Lemma reachable_final c tr w : fiber_reachable c tr w -> final_inv w.
Proof.
  induction 1 as [|tr w es w' _ IH Hstep]; [|by eapply step_final].
  split; [done|done|]. by intros t id p (k & Hk & _).
Qed.

(** [remove] is a taking and, if there was something to take, the start of a
    sweep: two steps of the system. *)
Lemma remove_runtime_steps c w t id : w_tasks w !! t = None ->
  exists w1, fiber_step c w [] w1 /\
    match (remove_runtime w t id).2 with
    | Some r => fiber_step c w1 [] (remove_runtime w t id).1
    | None => (remove_runtime w t id).1 = w1
    end.
Proof.
  intros Ht. exists (registry_take w id).1. split; [apply step_take|]. unfold remove_runtime.
  destruct (registry_take w id).2 as [r|] eqn:E; cbn [fst snd]; rewrite ?E; [by apply step_sweep|done].
Qed.
