(* ===== verification/FiberEffects.v ===== *)
(** * What happens to the effects of a fiber

    Every registered disposer is in one place: in the stack of a scope, in a
    disposal in progress, or run. *)
From S2P Require Export FiberFacts.
#[local] Open Scope string_scope.
#[local] Open Scope nat_scope.
#[local] Open Scope list_scope.

(** ** Concatenation over a map *)
Section flat.
Context {K A B : Type} `{Countable K}.
Implicit Types (f : K -> A -> list B) (m : gmap K A).
Definition flat f m : list B := map_to_list m ≫= fun p => f p.1 p.2.
Lemma flat_new f m k x : m !! k = None -> flat f (<[k := x]> m) ≡ₚ f k x ++ flat f m.
Proof. intros Hk. unfold flat. by rewrite (map_to_list_insert m k x Hk), bind_cons. Qed.
Lemma flat_insert f m k x y : m !! k = Some y -> flat f (<[k := x]> m) ++ f k y ≡ₚ f k x ++ flat f m.
Proof.
  intros Hk.
  assert (Hx : flat f (<[k := x]> m) ≡ₚ f k x ++ flat f (delete k m)).
  { rewrite <- (insert_delete_eq m k x). apply flat_new, lookup_delete_eq. }
  assert (Hy : flat f m ≡ₚ f k y ++ flat f (delete k m)).
  { rewrite <- (insert_delete_id m k y Hk) at 1. apply flat_new, lookup_delete_eq. }
  rewrite Hx, Hy. solve_Permutation.
Qed.
Lemma flat_ext f g m : (forall k x, m !! k = Some x -> f k x = g k x) -> flat f m = flat g m.
Proof.
  intros Hfg. unfold flat. assert (Hl : forall p, p ∈ map_to_list m -> f p.1 p.2 = g p.1 p.2).
  { intros [k x] Hp%elem_of_map_to_list. by apply Hfg. }
  induction (map_to_list m) as [|p l IH]; [done|]. rewrite !bind_cons. f_equal; [apply Hl; left|].
  apply IH. intros q Hq. apply Hl. by right.
Qed.
Lemma elem_of_flat f m b : b ∈ flat f m <-> exists k x, m !! k = Some x /\ b ∈ f k x.
Proof.
  unfold flat. rewrite list_elem_of_bind. split.
  - intros ([k x] & Hb & Hp%elem_of_map_to_list). by exists k, x.
  - intros (k & x & Hk & Hb). exists (k, x). by rewrite elem_of_map_to_list.
Qed.
Lemma flat_nil f m : (forall k x, m !! k = Some x -> f k x = []) -> flat f m = [].
Proof.
  intros Hf. rewrite (flat_ext f (fun _ _ => [])) by done. unfold flat.
  induction (map_to_list m) as [|p l IH]; [done|]. by rewrite bind_cons.
Qed.
End flat.

(** ** Where effects are *)
Definition hosts (l : list ScopedEffect) : list N :=
  omap (fun e => match disposer e with Some (Host d) => Some d | _ => None end) l.
Definition nests (l : list ScopedEffect) : list EffectScopeId :=
  omap (fun e => match disposer e with Some (Nested s) => Some s | _ => None end) l.
Definition frame_effects (fs : list frame) : list ScopedEffect := fs ≫= todo.
Definition frames_of (p : pc) : list frame :=
  match p with Discarding _ _ fs | UnloadingEffects _ _ fs => fs | _ => [] end.
Definition task_effects (id : FiberId) (k : task) : list ScopedEffect :=
  match task_at k with
  | Some (i, p) => if bool_decide (i = id) then frame_effects (frames_of p) else []
  | None => []
  end.
Definition stack_effects (H : gmap EffectScopeId FiberId) (id : FiberId) (s : EffectScopeId) (st : EffectStack) :
  list ScopedEffect := if bool_decide (H !! s = Some id) then effects st else [].
(** The effects a fiber owes: in the stacks of its loads and in its disposals. *)
Definition owed (w : world) (id : FiberId) : list ScopedEffect :=
  flat (stack_effects (w_handed w) id) (stacks (effect_scopes (w_shared w))) ++
  flat (fun _ => task_effects id) (w_tasks w).
Definition registered (tr : list event) (id : FiberId) : list N :=
  omap (fun e => match e with Registered i d => if bool_decide (i = id) then Some d else None | _ => None end) tr.
Definition ran (tr : list event) (id : FiberId) : list N :=
  omap (fun e => match e with Ran i d => if bool_decide (i = id) then Some d else None | _ => None end) tr.

Lemma hosts_app l1 l2 : hosts (l1 ++ l2) = hosts l1 ++ hosts l2.
Proof. apply omap_app. Qed.
Lemma nests_app l1 l2 : nests (l1 ++ l2) = nests l1 ++ nests l2.
Proof. apply omap_app. Qed.
#[export] Instance hosts_perm : Proper (Permutation ==> Permutation) hosts.
Proof. intros l l' E. unfold hosts. by rewrite E. Qed.
#[export] Instance nests_perm : Proper (Permutation ==> Permutation) nests.
Proof. intros l l' E. unfold nests. by rewrite E. Qed.
Lemma elem_of_nests s l : s ∈ nests l <-> exists e, e ∈ l /\ disposer e = Some (Nested s).
Proof.
  unfold nests. rewrite list_elem_of_omap. split.
  - intros (e & He & Hd). exists e. split; [done|]. destruct (disposer e) as [[]|]; try done. by injection Hd as ->.
  - intros (e & He & Hd). exists e. by rewrite Hd.
Qed.

(** *** One step of a disposal *)
Lemma last_removelast {A} (l : list A) e : last l = Some e -> l = removelast l ++ [e].
Proof. intros Hl. destruct l as [|x l] using rev_ind; [done|]. rewrite last_snoc in Hl. injection Hl as ->. by rewrite removelast_last. Qed.
(** A step pops a disposer of the host, which runs, or opens up a child scope,
    or leaves the effects as they are. *)
Lemma dispose_step_cases T fs answer T' fs' :
  dispose_step T fs answer = Some (T', fs') ->
  (exists l1 e l2, frame_effects fs = l1 ++ e :: l2 /\
     match disposer e with
     | Some (Host d) => next_disposer fs = Some d /\ T' = T /\ frame_effects fs' = l1 ++ l2
     | Some (Nested s) => next_disposer fs = None /\ T' = (take_effects T s).1 /\
         frame_effects fs' = (take_effects T s).2 ++ l1 ++ l2
     | None => next_disposer fs = None /\ T' = T /\ frame_effects fs' = l1 ++ l2
     end) \/
  (next_disposer fs = None /\ T' = T /\ frame_effects fs' = frame_effects fs).
Proof.
  unfold dispose_step, frame_effects. destruct fs as [|f rest]; [done|]. unfold next_disposer.
  destruct (last (todo f)) as [e|] eqn:Hl.
  - apply last_removelast in Hl. intros Hs. left. exists (removelast (todo f)), e, (rest ≫= todo).
    rewrite bind_cons. split; [rewrite Hl at 1; by rewrite <- (assoc_L (++))|].
    destruct (disposer e) as [[d|s]|]; injection Hs as <- <-; by rewrite ?bind_cons.
  - apply last_None in Hl. destruct rest as [|parent rest]; [done|]. intros [= <- <-]. right.
    rewrite !bind_cons, Hl. done.
Qed.
Lemma dispose_step_done T fs answer :
  dispose_step T fs answer = None -> frame_effects fs = [] /\ next_disposer fs = None.
Proof.
  unfold dispose_step, frame_effects, next_disposer. destruct fs as [|f rest]; [done|].
  destruct (last (todo f)) as [e|] eqn:Hl; [by destruct (disposer e) as [[]|]|].
  apply last_None in Hl. destruct rest; [|done]. by rewrite bind_cons, Hl.
Qed.

(** ** What a step of a call does to the effects of its fiber *)
Section moves.
Context (id : FiberId).
Implicit Types (T : EffectScopes) (H : gmap EffectScopeId FiberId).

Definition stack_closed T (s : EffectScopeId) : Prop := exists st, stacks T !! s = Some st /\ closed st = true.
(** The scope in the cell of a fiber is known to plugin code from the load that
    made it, and closed unless the fiber is loaded or in a load. *)
Record cell_ok T H (c : FiberCells) : Prop := {
  co_exists : is_Some (stacks T !! effect_scope c);
  co_owner s : H !! effect_scope c = Some s -> s = id;
  co_handed : state c = Active \/ is_Some (loading_binding c) -> H !! effect_scope c = Some id;
  co_shut : H !! effect_scope c = Some id ->
    state c = Active \/ is_Some (loading_binding c) \/ stack_closed T (effect_scope c)
}.
(** The cell has been closed by the time its load is given up. *)
Definition pc_ok T (p : pc) (c : FiberCells) : Prop :=
  match p with Discarding _ _ _ => stack_closed T (effect_scope c) | _ => True end.
Inductive effect_move T H (s : EffectScopeId) (p : pc) :
    EffectScopes -> gmap EffectScopeId FiberId -> EffectScopeId -> pc -> Prop :=
  | mv_none p' :
      frame_effects (frames_of p) = [] -> disposer_of p = None -> frames_of p' = [] -> effect_move T H s p T H s p'
  | mv_take p' :
      frames_of p = [] -> frame_effects (frames_of p') = effects (stack_of T s) ->
      effect_move T H s p (take_effects T s).1 H s p'
  | mv_dispose T' p' answer :
      dispose_step T (frames_of p) answer = Some (T', frames_of p') -> effect_move T H s p T' H s p'
  | mv_new p' :
      (H !! s = Some id -> stack_closed T s) -> frames_of p = [] -> frames_of p' = [] ->
      effect_move T H s p (EffectScope_new T).1 H (EffectScope_new T).2 p'
  | mv_hand p' :
      (H !! s = Some id -> stack_closed T s) -> frames_of p = [] -> frames_of p' = [] ->
      effect_move T H s p (EffectScope_new T).1 (<[(EffectScope_new T).2 := id]> H) (EffectScope_new T).2 p'.

Lemma take_closed T s : stack_closed (take_effects T s).1 s.
Proof. eexists. split; [apply lookup_insert_eq|done]. Qed.
(** Scopes come and are closed. *)
Record scopes_grow T H T' H' : Prop := {
  sg_stack s : is_Some (stacks T !! s) -> is_Some (stacks T' !! s);
  sg_closed s : stack_closed T s -> stack_closed T' s;
  sg_handed s : is_Some (stacks T !! s) -> H' !! s = H !! s
}.
Lemma cell_ok_grow T H T' H' c : scopes_grow T H T' H' -> cell_ok T H c -> cell_ok T' H' c.
Proof.
  intros [G1 G2 G3] [C1 C2 C3 C4]. split; rewrite ?(G3 _ C1); auto.
  intros Hs. destruct (C4 Hs) as [?|[?|?]]; auto.
Qed.
Lemma pc_ok_grow T H T' H' p c : scopes_grow T H T' H' -> pc_ok T p c -> pc_ok T' p c.
Proof. intros [_ G _]. destruct p; cbn; auto. Qed.
Lemma take_grow T H s : scopes_grow T H (take_effects T s).1 H.
Proof.
  split; [| |done]; intros s' Hs; unfold stack_closed; cbn.
  - apply lookup_insert_is_Some'. by right.
  - destruct (decide (s' = s)) as [->|Hne]; [apply take_closed|]. destruct Hs as (st & Hs & Hc). exists st.
    by rewrite lookup_insert_ne.
Qed.
Lemma new_grow T H H' :
  stacks T !! next_effect_scope T = None ->
  (forall s, s <> next_effect_scope T -> H' !! s = H !! s) -> scopes_grow T H (EffectScope_new T).1 H'.
Proof.
  intros Hnew HH. assert (Hne : forall s, is_Some (stacks T !! s) -> s <> next_effect_scope T).
  { intros s [st Hs] ->. exact (eq_None_ne_Some_1 _ _ Hnew Hs). }
  split; intros s Hs; unfold stack_closed; cbn.
  - apply lookup_insert_is_Some'. by right.
  - destruct Hs as (st & Hs & Hc). exists st. split; [|done]. rewrite lookup_insert_ne; [done|].
    intros <-. by apply (Hne (next_effect_scope T)).
  - by apply HH, Hne.
Qed.
Lemma dispose_step_grow T H fs a T' fs' : dispose_step T fs a = Some (T', fs') -> scopes_grow T H T' H.
Proof.
  assert (Hid : scopes_grow T H T H) by by split.
  intros Hs. destruct (dispose_step_cases _ _ _ _ _ Hs) as [(l1 & e & l2 & _ & He)|(_ & -> & _)]; [|done].
  destruct (disposer e) as [[d|s]|]; [by destruct He as (_ & -> & _)| |by destruct He as (_ & -> & _)].
  destruct He as (_ & -> & _). apply take_grow.
Qed.
Lemma move_grow T H s p T' H' s' p' :
  stacks T !! next_effect_scope T = None -> effect_move T H s p T' H' s' p' -> scopes_grow T H T' H'.
Proof.
  intros Hnew [p1|p1|T1 p1 a Hs|p1 _|p1 _].
  - by split.
  - apply take_grow.
  - by eapply dispose_step_grow.
  - by apply new_grow.
  - apply new_grow; [done|]. intros s1 Hne. by rewrite lookup_insert_ne.
Qed.

(** *** The moves of a call *)
Implicit Types (s : shared) (f : CapabilityFiber) (p : pc).
#[local] Abbreviation moves H s f p s' f' p' :=
  (effect_move (effect_scopes s) H (effect_scope (cells f)) p
     (effect_scopes s') (hand_over p' id H) (effect_scope (cells f')) p' /\
   cell_ok (effect_scopes s') (hand_over p' id H) (cells f') /\ pc_ok (effect_scopes s') p' (cells f')).
(** The cell keeps its scope. *)
Lemma cell_ok_same T T' H c c' :
  cell_ok T H c -> scopes_grow T H T' H -> effect_scope c' = effect_scope c ->
  (state c' = Active \/ is_Some (loading_binding c') -> H !! effect_scope c = Some id) ->
  (H !! effect_scope c = Some id -> state c' = Active \/ is_Some (loading_binding c') \/
     stack_closed T' (effect_scope c)) -> cell_ok T' H c'.
Proof. intros [C1 C2 C3 C4] [G1 G2 G3] E ??. split; rewrite E; auto. Qed.
Lemma begin_unload_moves H s f p d k s' f' p' :
  cell_ok (effect_scopes s) H (cells f) -> frames_of p = [] -> loading_binding (cells f) = None ->
  begin_unload s f d k = Some (s', f', p') -> moves H s f p s' f' p'.
Proof.
  intros C Hp Hl [= <- <- <-]. cbn [hand_over effect_scope cells with_cells set_state]. split_and!; [| |done].
  - apply mv_take; [done|]. unfold frame_effects. cbn [frames_of dispose_all snd]. by rewrite bind_cons, app_nil_r.
  - eapply cell_ok_same; [exact C|apply take_grow|done| |].
    + cbn. rewrite Hl. by intros [|[]].
    + intros _. right. right. apply take_closed.
Qed.
Lemma begin_discard_moves H s f p force load why s' f' p' :
  cell_ok (effect_scopes s) H (cells f) -> frames_of p = [] -> load_effects load = effect_scope (cells f) ->
  begin_discard s f force load why = Some (s', f', p') -> moves H s f p s' f' p'.
Proof.
  intros C Hp Hl [= <- <- <-]. cbn [hand_over]. rewrite Hl. split_and!; [| |apply take_closed].
  - apply mv_take; [done|]. unfold frame_effects. cbn [frames_of dispose_all snd]. by rewrite bind_cons, app_nil_r.
  - eapply cell_ok_same; [exact C|apply take_grow|done|apply C|]. intros Hs.
    right. right. apply take_closed.
Qed.
(** Cells that are neither loaded nor in a load, before and after. *)
Lemma shut_moves T H c c' :
  cell_ok T H c -> effect_scope c' = effect_scope c -> state c' <> Active -> loading_binding c' = None ->
  (state c <> Active /\ loading_binding c = None \/ stack_closed T (effect_scope c)) -> cell_ok T H c'.
Proof.
  intros C E Hs Hl Hc. eapply cell_ok_same; [exact C|by split|done|rewrite Hl; by intros [|[]]|].
  intros Ho. right. right. destruct Hc as [[Hs' Hl']|Hc]; [|done].
  destruct (co_shut _ _ _ C Ho) as [?|[Hx|?]]; [done| |done]. rewrite Hl' in Hx. by destruct Hx.
Qed.
Lemma shut_closed T H c :
  cell_ok T H c -> state c <> Active -> loading_binding c = None ->
  H !! effect_scope c = Some id -> stack_closed T (effect_scope c).
Proof. intros C Hs Hl Ho. destruct (co_shut _ _ _ C Ho) as [?|[[b Hb]|?]]; [done|congruence|done]. Qed.
Lemma new_moves T H c :
  state c <> Active -> loading_binding c = None -> effect_scope c = next_effect_scope T ->
  H !! next_effect_scope T = None -> cell_ok (EffectScope_new T).1 H c.
Proof.
  intros Hs Hl E Hnone. split; rewrite E.
  - cbn. rewrite lookup_insert_eq. by eexists.
  - intros i. by rewrite Hnone.
  - rewrite Hl. by intros [|[]].
  - by rewrite Hnone.
Qed.
(** A disposal goes on, or is over and its frames are empty. *)
Lemma disposing_moves H s f p fs a k done_ s' f' p' :
  cell_ok (effect_scopes s) H (cells f) -> frames_of p = fs ->
  (forall s1 fs1, scopes_grow (effect_scopes s) H (effect_scopes s1) H ->
     k s1 fs1 = Some (s', f', p') -> effect_scopes s' = effect_scopes s1 /\ frames_of p' = fs1 /\ hand_over p' id H = H /\
       effect_scope (cells f') = effect_scope (cells f) /\
       cell_ok (effect_scopes s') H (cells f') /\ pc_ok (effect_scopes s') p' (cells f')) ->
  (forall es, disposer_of p = None -> frame_effects fs = [] -> done_ es = Some (s', f', p') -> moves H s f p s' f' p') ->
  disposer_of p = next_disposer fs ->
  disposing s fs a k done_ = Some (s', f', p') -> moves H s f p s' f' p'.
Proof.
  intros C Hp Hk Hd Hdis. unfold disposing.
  assert (Hstep : forall failure T1 fs1, dispose_step (effect_scopes s) fs failure = Some (T1, fs1) ->
    k (set_scopes T1 s) fs1 = Some (s', f', p') -> moves H s f p s' f' p').
  { intros failure T1 fs1 Hs Hks. destruct (Hk (set_scopes T1 s) fs1 (dispose_step_grow _ _ _ _ _ _ Hs) Hks) as (-> & Hf & -> & -> & ? & ?).
    split; [|done]. eapply mv_dispose. rewrite Hp, Hf. exact Hs. }
  destruct (next_disposer fs) eqn:Hn, a; try done.
  all: destruct (dispose_step _ _ _) as [[T1 fs1]|] eqn:Hs; [by eapply Hstep|].
  all: apply dispose_step_done in Hs as [Hs Hnone]; try congruence.
  all: apply Hd; congruence.
Qed.
(** A step that leaves the effects alone. *)
Definition quiet p : Prop := frame_effects (frames_of p) = [] /\ disposer_of p = None.
Lemma goto_moves H s s1 f f1 p p1 s' f' p' :
  quiet p -> effect_scopes s1 = effect_scopes s -> frames_of p1 = [] -> hand_over p1 id H = H ->
  pc_ok (effect_scopes s) p1 (cells f1) ->
  effect_scope (cells f1) = effect_scope (cells f) -> cell_ok (effect_scopes s) H (cells f1) ->
  goto s1 f1 p1 = Some (s', f', p') -> moves H s f p s' f' p'.
Proof. intros [Hp Hd] Hs Hp1 Hh Hq E C [= <- <- <-]. rewrite Hs, Hh, E. split_and!; [|done|done]. by apply mv_none. Qed.
Lemma finish_moves H s s1 f f1 p r s' f' p' :
  quiet p -> effect_scopes s1 = effect_scopes s ->
  effect_scope (cells f1) = effect_scope (cells f) -> cell_ok (effect_scopes s) H (cells f1) ->
  finish s1 f1 r = Some (s', f', p') -> moves H s f p s' f' p'.
Proof. intros Hp Hs E C Hf. by apply (goto_moves H s s1 f (with_transition f1 None) p (Returned r)). Qed.
Lemma after_cells H s f k es s' f' p' :
  state (cells f) = Pending -> after s f k es = Some (s', f', p') ->
  effect_scopes s' = effect_scopes s /\ frames_of p' = [] /\ hand_over p' id H = H /\
  (forall T, pc_ok T p' (cells f')) /\ effect_scope (cells f') = effect_scope (cells f) /\
  loading_binding (cells f') = loading_binding (cells f) /\ state (cells f') <> Active.
Proof. intros Hp. destruct k; intros [= <- <- <-]; split_and!; try done; cbn; by rewrite Hp. Qed.
Lemma release_moves H s f d k es0 s1 f1 es s' f' p' :
  release_handle s f d es0 = (s1, f1, es) -> after s1 f1 k es = Some (s', f', p') ->
  state (cells f) <> Active -> loading_binding (cells f) = None ->
  H !! next_effect_scope (effect_scopes s) = None -> cell_ok (effect_scopes s) H (cells f) ->
  moves H s f (Releasing d k es0) s' f' p'.
Proof.
  unfold release_handle. intros Hr Ha Hs Hl Hnew C.
  destruct (match handle (cells f) with Some _ => _ | None => _ end) as [rt [|e| |]]; injection Hr as <- <- <-.
  all: apply (after_cells H) in Ha as (Es & Hf & Hh & Hq & Ec & El & Hst); [|done]; rewrite Es, Hh, Ec.
  1,3,4: split_and!; [apply mv_new; [by eapply shut_closed|done|done]|by apply new_moves|done].
  split_and!; [by apply mv_none| |done]. eapply shut_moves; [exact C|done|done|by rewrite El|by left].
Qed.
Lemma step_pc_moves t H s f p a s' f' p' :
  step_pc t s f p a = Some (s', f', p') ->
  (holding p = true -> at_pc (fiber_capability f) (requests f) p (cells f)) ->
  (transition f = None -> resting (fiber_capability f) (requests f) (cells f)) ->
  H !! next_effect_scope (effect_scopes s) = None ->
  cell_ok (effect_scopes s) H (cells f) -> pc_ok (effect_scopes s) p (cells f) -> moves H s f p s' f' p'.
Proof.
  intros Hs Hat Hrest Hnew C Hpc.
  assert (Hsame : forall c, effect_scope c = effect_scope (cells f) -> state c = state (cells f) ->
    loading_binding c = loading_binding (cells f) -> cell_ok (effect_scopes s) H c).
  { intros c E1 E2 E3. destruct C. by split; rewrite ?E1, ?E2, ?E3. }
  destruct p as [o|o|force|force|force|force deps|force deps|force deps|
    force load|force load r|force load r cur|force load r cur|force load v|load h|force why fs|force failed|
    detached k fs|detached k es|force|r]; cbn [step_pc holding at_pc pc_ok] in *;
    try specialize (Hat eq_refl).
  - unfold called in Hs.
    destruct o; repeat case_match; try discriminate Hs; revert Hs; by apply goto_moves.
  - destruct (transition f) eqn:Etr; [done|]. specialize (Hrest eq_refl).
    destruct (resting_unload _ _ _ Hrest) as [Hl Hc]. unfold acquired in Hs.
    destruct o as [| | | |d]; [..|cbn [with_transition cells] in Hs; destruct (state (cells f))]; repeat case_match; revert Hs.
    all: first [by apply goto_moves|by apply finish_moves|idtac].
    all: exact (begin_unload_moves H s (with_transition f (Some t)) (Waiting _) _ _ s' f' p' C eq_refl Hl).
  - repeat case_match; revert Hs; first [by apply finish_moves|by apply goto_moves].
  - revert Hs. apply goto_moves; try done; cbn; case_bool_decide; by try apply Hsame.
  - unfold resolving in Hs. destruct (idle_unload _ _ Hat) as [Hl Hc].
    destruct (context_dependencies _ _ _) as [deps|e| |]; [revert Hs; by apply goto_moves| |done..].
    destruct e; try (revert Hs; by apply finish_moves). case_bool_decide as Ha; revert Hs.
    + by apply begin_unload_moves.
    + apply finish_moves; [done..|]. eapply shut_moves; [exact C|done|done|done|by left].
  - unfold comparing in Hs. destruct (idle_unload _ _ Hat) as [Hl Hc]. case_match.
    { revert Hs. apply finish_moves; [done..|]. by apply Hsame. }
    case_match; revert Hs; first [by apply begin_unload_moves|by apply goto_moves].
  - case_match; revert Hs; first [by apply finish_moves|by apply goto_moves].
  - destruct Hat as [Hi Hp]. destruct (idle_unload _ _ Hi) as [Hl Hc]. revert Hs. unfold preparing. cbn.
    intros [= <- <- <-]. split_and!; [| |done].
    { apply mv_hand; [|done|done]. eapply shut_closed; [done|by rewrite Hp|done]. }
    split.
    + cbn. rewrite lookup_insert_eq. by eexists.
    + cbn. intros i. rewrite lookup_insert_eq. by intros [= <-].
    + cbn. intros _. by rewrite lookup_insert_eq.
    + intros _. right. left. by eexists.
  - destruct a; [done|done| |done]. revert Hs. by apply goto_moves.
  - revert Hs. by apply goto_moves.
  - destruct Hat as (_ & _ & _ & E & _). unfold verdict in Hs. case_match; [|revert Hs; by apply goto_moves].
    destruct r; revert Hs; by apply begin_discard_moves.
  - destruct Hat as (_ & _ & _ & E & _). unfold verdict in Hs.
    destruct r; case_match; revert Hs; first [by apply begin_discard_moves|by apply goto_moves].
  - destruct Hat as (_ & _ & _ & E & _). unfold publishing in Hs.
    destruct (provide_value _ _ _ _ _) as [rt [h|e| |]]; cbn [fst snd] in Hs; [revert Hs; by apply goto_moves| |done..].
    destruct e; revert Hs; by apply (begin_discard_moves H (set_tree rt s)).
  - destruct Hat as [(Es & _ & El & _) _]. revert Hs. unfold committing. apply finish_moves; try done.
    cbn. assert (Ho : H !! effect_scope (cells f) = Some id) by (apply (co_handed _ _ _ C); rewrite El; right; by eexists).
    eapply cell_ok_same; [exact C|by split|done|done|by left].
  - destruct Hat as [Es Hv]. revert Hs. apply disposing_moves; try done.
    + intros s1 fs1 G [= <- <- <-]. split_and!; try done; [by eapply cell_ok_grow|]. by apply G.
    + intros es Hd Hf. destruct why; first [apply goto_moves|apply finish_moves]; try done;
        (eapply shut_moves; [exact C|done|try done; cbn; by rewrite Es|done|by right]).
  - destruct Hat as (Es & Hv & Hl). assert (Ha : state (cells f) <> Active) by by rewrite Es.
    case_match; [destruct failed|]; revert Hs; first [apply goto_moves|apply finish_moves]; try done;
      (eapply shut_moves; [exact C|done|done|done|by left]).
  - revert Hs. apply disposing_moves; try done.
    + intros s1 fs1 G [= <- <- <-]. split_and!; try done. by eapply cell_ok_grow.
    + intros es Hd Hf. by apply goto_moves.
  - destruct Hat as (Es & Hl & _). destruct (release_handle s f detached es) as [[s1 f1] es1] eqn:Hr.
    eapply release_moves; [exact Hr|exact Hs|by rewrite Es|done|done|done].
  - case_match; revert Hs; first [by apply finish_moves|by apply goto_moves].
  - done.
Qed.
End moves.

(** ** No effect is lost *)
Lemma disposer_of_frames p : disposer_of p = next_disposer (frames_of p).
Proof. by destruct p. Qed.
Definition in_frames (id : FiberId) (p : pc) (i : FiberId) : list ScopedEffect :=
  if bool_decide (id = i) then frame_effects (frames_of p) else [].
Definition in_stacks (T : EffectScopes) (H : gmap EffectScopeId FiberId) (i : FiberId) : list ScopedEffect :=
  flat (stack_effects H i) (stacks T).
(** A handed scope exists, the others are empty. *)
Record scopes_ok (T : EffectScopes) (H : gmap EffectScopeId FiberId) : Prop := {
  so_fresh s : is_Some (stacks T !! s) -> (s < next_effect_scope T)%N;
  so_handed s : is_Some (H !! s) -> is_Some (stacks T !! s);
  so_unowned s st : stacks T !! s = Some st -> H !! s = None -> effects st = [];
  so_closed s st : stacks T !! s = Some st -> closed st = true -> effects st = [];
  so_nest s st s' : stacks T !! s = Some st -> s' ∈ nests (effects st) -> (s < s')%N
}.
Section owed.
Context (T : EffectScopes) (H : gmap EffectScopeId FiberId).
Hypothesis ok : scopes_ok T H.
Lemma scope_fresh : stacks T !! next_effect_scope T = None /\ H !! next_effect_scope T = None.
Proof.
  assert (Hn : stacks T !! next_effect_scope T = None).
  { apply eq_None_not_Some. intros Hs%(so_fresh _ _ ok). lia. }
  split; [done|]. apply eq_None_not_Some. intros [st Hs]%(so_handed _ _ ok). exact (eq_None_ne_Some_1 _ _ Hn Hs).
Qed.
Lemma take_owed s i : is_Some (stacks T !! s) ->
  in_stacks (take_effects T s).1 H i ++ (if bool_decide (H !! s = Some i) then effects (stack_of T s) else [])
    ≡ₚ in_stacks T H i.
Proof.
  intros [st Hs]. unfold in_stacks, stack_of. rewrite Hs. cbn.
  rewrite (flat_insert (stack_effects H i) (stacks T) s _ st Hs). unfold stack_effects at 1. by case_bool_decide.
Qed.
Lemma new_owed H' i : (forall s, s <> next_effect_scope T -> H' !! s = H !! s) ->
  in_stacks (EffectScope_new T).1 H' i ≡ₚ in_stacks T H i.
Proof.
  intros HH. destruct scope_fresh as [Hn _]. unfold in_stacks. cbn. rewrite flat_new by exact Hn.
  assert (stack_effects H' i (next_effect_scope T) EffectStack_new = []) as ->.
  { unfold stack_effects. by case_bool_decide. }
  cbn [app]. apply reflexive_eq, flat_ext. intros s st Hs. unfold stack_effects. rewrite HH; [done|].
  intros ->. exact (eq_None_ne_Some_1 _ _ Hn Hs).
Qed.
Lemma unowned_effects s : H !! s = None -> effects (stack_of T s) = [].
Proof.
  intros Ho. unfold stack_of. destruct (stacks T !! s) as [st|] eqn:Hs; [|done]. by eapply (so_unowned _ _ ok).
Qed.
(** What a change takes from what the fiber [i] owes: effects whose disposers
    ran, or whose scopes are closed. *)
Definition takes (i : FiberId) (before after : list ScopedEffect) (d : list N) T' : Prop :=
  exists popped, before ≡ₚ popped ++ after /\ hosts popped = d /\
    (forall s, s ∈ nests popped -> stack_closed T' s).
Lemma takes_none i l l' T' : l ≡ₚ l' -> takes i l l' [] T'.
Proof. intros Hl. exists []. split_and!; [done|done|]. by intros s ?%not_elem_of_nil. Qed.
Lemma taken_owed id s i l1 l2 :
  is_Some (stacks T !! s) -> (forall j, H !! s = Some j -> j = id) ->
  in_stacks T H i ++ (if bool_decide (id = i) then l1 ++ l2 else []) ≡ₚ
  in_stacks (take_effects T s).1 H i ++
    (if bool_decide (id = i) then effects (stack_of T s) ++ l1 ++ l2 else []).
Proof.
  intros Hs Ho. rewrite <- (take_owed s i Hs), <- (assoc_L (++)). apply Permutation_app_head.
  destruct (H !! s) as [j|] eqn:Hj.
  - assert (j = id) as -> by exact (Ho j eq_refl). destruct (decide (id = i)) as [->|Hne].
    + by rewrite !bool_decide_eq_true_2 by done.
    + by rewrite !bool_decide_eq_false_2 by naive_solver.
  - rewrite (unowned_effects s Hj). by repeat case_bool_decide.
Qed.
Lemma dispose_owed id fs T' fs' a i :
  dispose_step T fs a = Some (T', fs') -> (forall s, s ∈ nests (frame_effects fs) -> H !! s = Some id) ->
  takes i (in_stacks T H i ++ (if bool_decide (id = i) then frame_effects fs else []))
    (in_stacks T' H i ++ (if bool_decide (id = i) then frame_effects fs' else []))
    (if bool_decide (id = i) then option_list (next_disposer fs) else []) T'.
Proof.
  intros Hd Hf. destruct (dispose_step_cases _ _ _ _ _ Hd) as [(l1 & e & l2 & Hl & He)|(-> & -> & ->)].
  2: { cbn [option_list]. case_bool_decide; by apply takes_none. }
  assert (Hpop : forall l, T' = T -> frame_effects fs' = l1 ++ l2 -> nests [e] = [] -> hosts [e] = l ->
    takes i (in_stacks T H i ++ (if bool_decide (id = i) then frame_effects fs else []))
      (in_stacks T' H i ++ (if bool_decide (id = i) then frame_effects fs' else []))
      (if bool_decide (id = i) then l else []) T').
  { intros l -> -> Hn Hh. rewrite Hl. case_bool_decide; [|by apply takes_none].
    exists [e]. split_and!; [solve_Permutation|done|]. rewrite Hn. by intros s ?%not_elem_of_nil. }
  destruct (disposer e) as [[d|s]|] eqn:Hde.
  - destruct He as (-> & HT & Hfr). apply Hpop; [done|done|..]; cbn; by rewrite Hde.
  - destruct He as (-> & -> & Hfr). cbn [option_list].
    assert (Hs : H !! s = Some id).
    { apply Hf, elem_of_nests. exists e. split; [|done]. rewrite Hl. apply elem_of_app. right. left. }
    exists (if bool_decide (id = i) then [e] else []). split_and!.
    + rewrite Hfr, Hl. cbn [take_effects snd].
      transitivity ((if bool_decide (id = i) then [e] else []) ++
        in_stacks T H i ++ (if bool_decide (id = i) then l1 ++ l2 else [])).
      { case_bool_decide; [solve_Permutation|done]. }
      apply Permutation_app_head, (taken_owed id s i l1 l2); [apply (so_handed _ _ ok); by eexists|].
      intros j Hj. assert (Some id = Some j) as [= ->]; [|done]. by rewrite <- Hs, <- Hj.
    + case_bool_decide; [|done]. cbn. by rewrite Hde.
    + intros s1. case_bool_decide; [|by intros ?%not_elem_of_nil].
      intros (e0 & ->%list_elem_of_singleton & Hd0)%elem_of_nests. rewrite Hde in Hd0. injection Hd0 as <-. apply take_closed.
  - destruct He as (-> & HT & Hfr). apply Hpop; [done|done|..]; cbn; by rewrite Hde.
Qed.
(** A step of a call takes nothing but the effect it disposes of. *)
Lemma move_owed id s p T' H' s' p' i :
  effect_move id T H s p T' H' s' p' -> is_Some (stacks T !! s) -> (forall j, H !! s = Some j -> j = id) ->
  (forall s0, s0 ∈ nests (frame_effects (frames_of p)) -> H !! s0 = Some id) ->
  takes i (in_stacks T H i ++ in_frames id p i) (in_stacks T' H' i ++ in_frames id p' i)
    (if bool_decide (id = i) then option_list (disposer_of p) else []) T'.
Proof.
  intros Hm Hs Ho Hf. unfold in_frames.
  destruct Hm as [p' Hp Hd Hp'|p' Hp Hp'|T' p' a Hd|p' _ Hp Hp'|p' _ Hp Hp'].
  - rewrite Hp, Hp', Hd. case_bool_decide; by apply takes_none.
  - rewrite disposer_of_frames, Hp, Hp'. cbn [next_disposer option_list].
    pose proof (taken_owed id s i [] [] Hs Ho) as Ht. cbn [app] in Ht. rewrite app_nil_r in Ht.
    revert Ht. case_bool_decide; by apply takes_none.
  - rewrite disposer_of_frames. by eapply dispose_owed.
  - rewrite disposer_of_frames, Hp, Hp'. case_bool_decide; apply takes_none; by rewrite new_owed.
  - rewrite disposer_of_frames, Hp, Hp'. case_bool_decide; apply takes_none; rewrite new_owed; try done;
      intros s1 Hne; by rewrite lookup_insert_ne.
Qed.

(** A scope keeps what is registered with it. *)
Lemma register_owed s e T' id i :
  effect_register T s e = Ok T' -> H !! s = Some id ->
  in_stacks T' H i ≡ₚ (if bool_decide (id = i) then [e] else []) ++ in_stacks T H i.
Proof.
  intros Hr Hs. destruct (so_handed _ _ ok s) as [st Hst]; [by eexists|].
  unfold effect_register, push, stack_of in Hr. rewrite Hst in Hr. cbn in Hr.
  destruct (closed st); [done|]. injection Hr as <-. unfold in_stacks. cbn.
  pose proof (flat_insert (stack_effects H i) (stacks T) s {| effects := effects st ++ [e]; closed := false |} st Hst) as Hf.
  assert (Hv : forall st0, stack_effects H i s st0 = if bool_decide (id = i) then effects st0 else []).
  { intros st0. unfold stack_effects. destruct (decide (id = i)) as [<-|Hne].
    - rewrite !bool_decide_eq_true_2; [done|done|exact Hs].
    - rewrite !bool_decide_eq_false_2; [done|done|]. intros Hi. apply Hne.
      assert (Some id = Some i) as [= ->]; [|done]. by rewrite <- Hs, <- Hi. }
  apply (Permutation_app_inv_r (stack_effects H i s st)). rewrite Hf, !Hv. cbn [effects].
  case_bool_decide; [solve_Permutation|]. by rewrite app_nil_r.
Qed.
Lemma register_grow s e T' : effect_register T s e = Ok T' -> scopes_grow T H T' H /\
  next_effect_scope T' = next_effect_scope T /\ (forall s0, is_Some (stacks T' !! s0) -> s0 = s \/ is_Some (stacks T !! s0)) /\
  ~ stack_closed T s.
Proof.
  unfold effect_register. intros (st & Hp & [= <-])%bind_Ok. unfold push, stack_of in Hp.
  destruct (closed (default EffectStack_new (stacks T !! s))) eqn:Hc; [done|]. injection Hp as <-.
  assert (Hopen : ~ stack_closed T s) by (intros (st & Hs & Hst); by rewrite Hs in Hc; cbn in Hc; congruence).
  split_and!; [|done| |done].
  - split; [| |done]; intros s0 Hs0; unfold stack_closed; cbn.
    + apply lookup_insert_is_Some'. by right.
    + destruct (decide (s0 = s)) as [->|Hne]; [done|]. destruct Hs0 as (st & Hs0 & ?). exists st.
      by rewrite lookup_insert_ne.
  - intros s0. cbn. intros [->|?]%lookup_insert_is_Some'; auto.
Qed.

(** *** The tables after a change *)
Lemma take_scopes_ok s : is_Some (stacks T !! s) -> scopes_ok (take_effects T s).1 H.
Proof.
  intros Hs. destruct ok as [O1 O2 O3 O4 O5]. split; cbn.
  - intros s0 [->|Hs0]%lookup_insert_is_Some'; auto.
  - intros s0 Hs0. apply lookup_insert_is_Some'. auto.
  - intros s0 st [[<- <-]|[_ Hs0]]%lookup_insert_Some ?; [done|eauto].
  - intros s0 st [[<- <-]|[_ Hs0]]%lookup_insert_Some ?; [done|eauto].
  - intros s0 st s1 [[<- <-]|[_ Hs0]]%lookup_insert_Some; [by intros ?%not_elem_of_nil|eauto].
Qed.
Lemma new_scopes_ok H' :
  (forall s, s <> next_effect_scope T -> H' !! s = H !! s) -> scopes_ok (EffectScope_new T).1 H'.
Proof.
  intros HH. destruct scope_fresh as [Hn1 Hn2]. destruct ok as [O1 O2 O3 O4 O5].
  assert (Hne : forall s st, stacks T !! s = Some st -> s <> next_effect_scope T).
  { intros s st Hs ->. exact (eq_None_ne_Some_1 _ _ Hn1 Hs). }
  split; cbn.
  - intros s0 [->|Hs0%O1]%lookup_insert_is_Some'; lia.
  - intros s0 Hs0. apply lookup_insert_is_Some'. destruct (decide (s0 = next_effect_scope T)) as [->|Hn]; [by left|].
    right. apply O2. by rewrite <- HH.
  - intros s0 st [[<- <-]|[_ Hs0]]%lookup_insert_Some Hno; [done|]. apply (O3 s0 st Hs0).
    rewrite <- HH; [done|]. by eapply Hne.
  - intros s0 st [[<- <-]|[_ Hs0]]%lookup_insert_Some ?; [done|eauto].
  - intros s0 st s1 [[<- <-]|[_ Hs0]]%lookup_insert_Some; [by intros ?%not_elem_of_nil|eauto].
Qed.
Lemma register_scopes_ok s e T' :
  effect_register T s e = Ok T' -> is_Some (H !! s) -> (forall s', s' ∈ nests [e] -> (s < s')%N) -> scopes_ok T' H.
Proof.
  intros Hr Ho Hn. destruct ok as [O1 O2 O3 O4 O5]. pose proof (O2 _ Ho) as [st Hst].
  unfold effect_register, push, stack_of in Hr. rewrite Hst in Hr. cbn in Hr.
  destruct (closed st); [done|]. injection Hr as <-. split; cbn.
  - intros s0 [->|Hs0]%lookup_insert_is_Some'; [|auto]. apply O1. by eexists.
  - intros s0 Hs0. apply lookup_insert_is_Some'. auto.
  - intros s0 st0 [[<- <-]|[_ Hs0]]%lookup_insert_Some Hno; [|eauto].
    destruct Ho as [j Ho]. by destruct (eq_None_ne_Some_1 _ _ Hno Ho).
  - intros s0 st0 [[<- <-]|[_ Hs0]]%lookup_insert_Some ?; [done|eauto].
  - intros s0 st0 s1 [[<- <-]|[_ Hs0]]%lookup_insert_Some; [|eauto]. cbn [effects].
    rewrite nests_app. intros [Hs1|Hs1]%elem_of_app; [eauto|by apply Hn].
Qed.
Lemma move_scopes_ok id s p T' H' s' p' :
  effect_move id T H s p T' H' s' p' -> is_Some (stacks T !! s) ->
  (forall s0, s0 ∈ nests (frame_effects (frames_of p)) -> H !! s0 = Some id) -> scopes_ok T' H'.
Proof.
  intros Hm Hs Hf. destruct Hm as [p' Hp Hd Hp'|p' Hp Hp'|T' p' a Hd|p' _ Hp Hp'|p' _ Hp Hp'].
  - done.
  - by apply take_scopes_ok.
  - destruct (dispose_step_cases _ _ _ _ _ Hd) as [(l1 & e & l2 & Hl & He)|(_ & -> & _)]; [|done].
    destruct (disposer e) as [[d|s0]|] eqn:Hde; [by destruct He as (_ & -> & _)| |by destruct He as (_ & -> & _)].
    destruct He as (_ & -> & _). apply take_scopes_ok, (so_handed _ _ ok). exists id. apply Hf, elem_of_nests.
    exists e. split; [|done]. rewrite Hl. apply elem_of_app. right. left.
  - by apply new_scopes_ok.
  - apply new_scopes_ok. intros s1 Hne. by rewrite lookup_insert_ne.
Qed.
End owed.

(** A scope that plugin code can register with. *)
Definition handed_open T (H : gmap EffectScopeId FiberId) (s : EffectScopeId) (i : FiberId) : Prop :=
  H !! s = Some i /\ exists st, stacks T !! s = Some st /\ closed st = false.
Lemma handed_open_grow T H T' s i :
  scopes_ok T H -> scopes_grow T H T' H -> handed_open T' H s i -> handed_open T H s i.
Proof.
  intros ok [_ G _] (Hs & st & Hst & Hc). split; [done|]. destruct (so_handed _ _ ok s) as [st0 Hst0]; [by eexists|].
  exists st0. split; [done|]. destruct (closed st0) eqn:Hc0; [|done].
  destruct (G s) as (st1 & Hst1 & Hc1); [by exists st0|]. congruence.
Qed.
Lemma handed_open_new T H H' s i :
  scopes_ok T H -> (forall s, s <> next_effect_scope T -> H' !! s = H !! s) ->
  handed_open (EffectScope_new T).1 H' s i -> s = next_effect_scope T \/ handed_open T H s i.
Proof.
  intros ok HH (Hs & st & Hst & Hc). destruct (decide (s = next_effect_scope T)) as [->|Hne]; [by left|]. right.
  split; [by rewrite <- HH|]. cbn in Hst. rewrite lookup_insert_ne in Hst by done. by exists st.
Qed.
Lemma handed_open_move id T H s p T' H' s' p' s0 i :
  scopes_ok T H -> effect_move id T H s p T' H' s' p' -> handed_open T' H' s0 i ->
  handed_open T H s0 i \/ s0 = s' /\ i = id.
Proof.
  intros ok Hm Hs. destruct (scope_fresh T H ok) as [_ Hnone].
  destruct Hm as [p' Hp Hd Hp'|p' Hp Hp'|T' p' a Hd|p' _ Hp Hp'|p' _ Hp Hp'].
  - by left.
  - left. eapply handed_open_grow; [done|apply take_grow|done].
  - left. eapply handed_open_grow; [done|by eapply dispose_step_grow|done].
  - destruct (handed_open_new T H H s0 i ok (fun _ _ => eq_refl) Hs) as [->|?]; [|by left].
    destruct Hs as [Hs _]. by destruct (eq_None_ne_Some_1 _ _ Hnone Hs).
  - destruct (handed_open_new T H _ _ _ ok (fun s1 Hne => lookup_insert_ne H _ _ id (not_eq_sym Hne)) Hs) as [->|?]; [|by left].
    right. split; [done|]. destruct Hs as [Hs _]. cbn in Hs. rewrite lookup_insert_eq in Hs. by injection Hs.
Qed.
