(* ===== verification/FiberCleanup.v ===== *)
(** * The effects of all fibers, over a whole history *)
From S2P Require Export FiberEffects.
#[local] Open Scope string_scope.
#[local] Open Scope nat_scope.
#[local] Open Scope list_scope.

Definition in_tasks (m : gmap TaskId task) (i : FiberId) : list ScopedEffect := flat (fun _ => task_effects i) m.
Lemma owed_parts w i : owed w i = in_stacks (effect_scopes (w_shared w)) (w_handed w) i ++ in_tasks (w_tasks w) i.
Proof. done. Qed.
Lemma registered_app tr es i : registered (tr ++ es) i = registered tr i ++ registered es i.
Proof. apply omap_app. Qed.
Lemma ran_app tr es i : ran (tr ++ es) i = ran tr i ++ ran es i.
Proof. apply omap_app. Qed.
Lemma task_effects_at k i id p : task_at k = Some (id, p) -> task_effects i k = in_frames id p i.
Proof. intros Hk. unfold task_effects. by rewrite Hk. Qed.
(** The other tasks keep what they have when the task [t] moves. *)
Lemma in_tasks_insert m t k i : in_tasks (<[t := k]> m) i ≡ₚ task_effects i k ++ in_tasks (delete t m) i.
Proof. rewrite <- (insert_delete_eq m t k). apply (flat_new (fun _ => task_effects i)), lookup_delete_eq. Qed.
Lemma in_tasks_lookup m t k i : m !! t = Some k -> in_tasks m i ≡ₚ task_effects i k ++ in_tasks (delete t m) i.
Proof. intros Hk. rewrite <- (insert_id m t k Hk) at 1. apply in_tasks_insert. Qed.

(** ** The invariant *)
Record effects_inv (tr : list event) (w : world) : Prop := {
  ei_scopes : scopes_ok (effect_scopes (w_shared w)) (w_handed w);
  ei_owned i s : s ∈ nests (owed w i) -> w_handed w !! s = Some i;
  ei_cell i f : w_fibers w !! i = Some f -> cell_ok i (effect_scopes (w_shared w)) (w_handed w) (cells f);
  ei_pc t i p f : task_pc w t i p -> w_fibers w !! i = Some f -> pc_ok (effect_scopes (w_shared w)) p (cells f);
  ei_open i s : handed_open (effect_scopes (w_shared w)) (w_handed w) s i ->
    (exists f, w_fibers w !! i = Some f /\ effect_scope (cells f) = s) \/ s ∈ nests (owed w i);
  ei_ran i : registered tr i ≡ₚ hosts (owed w i) ++ ran tr i;
  ei_next i d : d ∈ registered tr i -> (d < w_next_disposer w)%N;
  ei_nodup i : NoDup (registered tr i)
}.
Lemma effects_inv_start : effects_inv [] world_start.
Proof.
  split; cbn.
  - split; try done; by intros s [].
  - by intros i s ?%not_elem_of_nil.
  - done.
  - by intros t i p f (k & Hk & _).
  - by intros i s [? _].
  - done.
  - by intros i d ?%not_elem_of_nil.
  - intros i. constructor.
Qed.
(** A step that touches no effect. *)
Lemma effects_inv_frame tr w w' :
  effects_inv tr w -> effect_scopes (w_shared w') = effect_scopes (w_shared w) -> w_handed w' = w_handed w ->
  w_next_disposer w' = w_next_disposer w ->
  (forall i f', w_fibers w' !! i = Some f' -> exists f, w_fibers w !! i = Some f /\ cells f' = cells f) ->
  (forall i f, w_fibers w !! i = Some f -> is_Some (w_fibers w' !! i)) ->
  (forall i, in_tasks (w_tasks w') i ≡ₚ in_tasks (w_tasks w) i) ->
  (forall t i p, task_pc w' t i p -> task_pc w t i p \/ exists o, p = Called o) -> effects_inv tr w'.
Proof.
  intros I Es Eh En Hf Hf' Ht Hp.
  assert (Ho : forall i, owed w' i ≡ₚ owed w i) by (intros i; by rewrite !owed_parts, Es, Eh, Ht).
  assert (Hn : forall i s, s ∈ nests (owed w' i) <-> s ∈ nests (owed w i)) by (intros i s; by rewrite Ho).
  split; rewrite ?Es, ?Eh, ?En.
  - apply I.
  - intros i s Hs%Hn. by apply (ei_owned _ _ I).
  - intros i f' (f & Hi & ->)%Hf. by apply (ei_cell _ _ I).
  - intros t i p f' [Htp|[o ->]]%Hp (f & Hi & ->)%Hf; [by eapply (ei_pc _ _ I)|done].
  - intros i s [(f & Hi & Hs)|Hs]%(ei_open _ _ I); [|right; by apply Hn].
    left. destruct (Hf' i f Hi) as [f' Hi']. exists f'. split; [done|].
    destruct (Hf i f' Hi') as (f1 & Hi1 & Hc). congruence.
  - intros i. rewrite Ho. apply I.
  - apply I.
  - apply I.
Qed.
(** A task without frames comes, or takes the place of one. *)
Lemma in_tasks_quiet m t k i :
  task_effects i k = [] -> (forall k0, m !! t = Some k0 -> task_effects i k0 = []) ->
  in_tasks (<[t := k]> m) i ≡ₚ in_tasks m i.
Proof.
  intros Hk Hk0. rewrite in_tasks_insert, Hk. destruct (m !! t) as [k0|] eqn:Ht.
  - by rewrite (in_tasks_lookup m t k0 i Ht), (Hk0 k0 eq_refl).
  - by rewrite delete_id.
Qed.
Lemma called_effects id o r rest es i :
  task_effects i (OnFiber id (Called o)) = [] /\ task_effects i (Sweeping r id (Called o) rest es) = [].
Proof. unfold task_effects. cbn. by case_bool_decide. Qed.

(** ** Registration *)
Lemma effects_inv_register tr w id e l T' :
  effects_inv tr w -> w_handed w !! e = Some id ->
  effect_register (effect_scopes (w_shared w)) e (host_effect l (w_next_disposer w)) = Ok T' ->
  effects_inv (tr ++ [Registered id (w_next_disposer w)]) (next_effect (set_scopes T' (w_shared w)) w).
Proof.
  intros I He Hr. pose proof (ei_scopes _ _ I) as ok.
  set (w' := next_effect _ w). set (h := host_effect l (w_next_disposer w)) in *.
  destruct (register_grow _ (w_handed w) e h T' Hr) as (G & _).
  assert (Ho : forall i, owed w' i ≡ₚ (if bool_decide (id = i) then [h] else []) ++ owed w i).
  { intros i. rewrite !owed_parts. cbn. rewrite (register_owed _ _ ok e h T' id i Hr He). solve_Permutation. }
  assert (Hn : forall i, nests (owed w' i) ≡ₚ nests (owed w i)).
  { intros i. rewrite Ho, nests_app. by case_bool_decide. }
  split; cbn.
  - eapply register_scopes_ok; [done|done|by eexists|]. by intros s ?%not_elem_of_nil.
  - intros i s. rewrite Hn. apply (ei_owned _ _ I).
  - intros i f Hf. eapply cell_ok_grow; [done|]. by apply (ei_cell _ _ I).
  - intros t i p f Ht Hf. eapply pc_ok_grow; [done|]. by eapply (ei_pc _ _ I).
  - intros i s Hs. rewrite Hn. apply (ei_open _ _ I). by eapply handed_open_grow.
  - intros i. rewrite registered_app, ran_app, Ho, hosts_app, (ei_ran _ _ I i). cbn.
    case_bool_decide; cbn; rewrite ?app_nil_r; [solve_Permutation|done].
  - intros i d. rewrite registered_app. cbn. case_bool_decide; rewrite ?app_nil_r.
    + intros [Hd%(ei_next _ _ I)| ->%list_elem_of_singleton]%elem_of_app; lia.
    + intros Hd%(ei_next _ _ I). lia.
  - intros i. rewrite registered_app. cbn. case_bool_decide; rewrite ?app_nil_r; [|apply I].
    apply NoDup_app. split_and!; [apply I| |apply NoDup_singleton].
    intros d Hd%(ei_next _ _ I) ->%list_elem_of_singleton. lia.
Qed.
Lemma effects_inv_child tr w id e l T' c :
  effects_inv tr w -> w_handed w !! e = Some id -> effect_child (effect_scopes (w_shared w)) e l = Ok (T', c) ->
  effects_inv tr {| w_shared := set_scopes T' (w_shared w); w_pending := w_pending w; w_fibers := w_fibers w;
    w_registry := w_registry w; w_next_fiber := w_next_fiber w; w_next_disposer := w_next_disposer w;
    w_tasks := w_tasks w; w_handed := <[c := id]> (w_handed w) |}.
Proof.
  intros I He Hr. pose proof (ei_scopes _ _ I) as ok. unfold effect_child in Hr.
  apply bind_Ok in Hr as (T1 & Hr & [= -> <-]). set (T := effect_scopes (w_shared w)) in *.
  set (H' := <[next_effect_scope T := id]> (w_handed w)).
  set (h := ScopedEffect_asynchronous l (Nested (EffectScope_new T).2)) in *.
  assert (HH : forall s, s <> next_effect_scope T -> H' !! s = w_handed w !! s).
  { intros s Hs. unfold H'. by rewrite lookup_insert_ne. }
  destruct (scope_fresh _ _ ok) as [Hf1 Hf2]. pose proof (new_scopes_ok _ _ ok H' HH) as ok1.
  pose proof (new_grow _ _ H' Hf1 HH) as G1.
  destruct (register_grow _ H' e h T' Hr) as (G2 & _).
  assert (He' : H' !! e = Some id).
  { rewrite HH; [done|]. intros ->. exact (eq_None_ne_Some_1 _ _ Hf2 He). }
  assert (Hlt : (e < next_effect_scope T)%N) by (apply (so_fresh _ _ ok), (so_handed _ _ ok); by eexists).
  set (w' := {| w_shared := _ |}).
  assert (Ho : forall i, owed w' i ≡ₚ (if bool_decide (id = i) then [h] else []) ++ owed w i).
  { intros i. rewrite !owed_parts. cbn. rewrite (register_owed _ _ ok1 e h T' id i Hr He'), (new_owed _ _ ok H' i HH).
    solve_Permutation. }
  assert (Hh : hosts [h] = []) by done. assert (Hns : nests [h] = [next_effect_scope T]) by done.
  clearbody h. split; cbn.
  - eapply register_scopes_ok; [done|done|by eexists|]. rewrite Hns. by intros s ->%list_elem_of_singleton.
  - intros i s. rewrite Ho, nests_app, elem_of_app. intros [Hs|Hs].
    + case_bool_decide as Hi; [|by apply not_elem_of_nil in Hs]. rewrite Hns in Hs.
      apply list_elem_of_singleton in Hs as ->. subst i. apply lookup_insert_eq.
    + apply (ei_owned _ _ I) in Hs. fold H'. rewrite HH; [done|]. intros ->. exact (eq_None_ne_Some_1 _ _ Hf2 Hs).
  - intros i f Hf. eapply cell_ok_grow; [done|]. eapply cell_ok_grow; [done|]. by apply (ei_cell _ _ I).
  - intros t i p f Ht Hf. eapply pc_ok_grow; [done|]. eapply pc_ok_grow; [done|]. by eapply (ei_pc _ _ I).
  - intros i s Hs. apply (handed_open_grow _ _ _ _ _ ok1 G2) in Hs. setoid_rewrite Ho. rewrite nests_app, elem_of_app.
    destruct (handed_open_new _ _ _ _ _ ok HH Hs) as [->|Hs']; [|destruct (ei_open _ _ I i s Hs'); tauto].
    right. left. destruct Hs as [Hs _]. unfold H' in Hs. rewrite lookup_insert_eq in Hs. injection Hs as <-.
    rewrite bool_decide_eq_true_2, Hns by done. left.
  - intros i. rewrite Ho, hosts_app, (ei_ran _ _ I i). case_bool_decide; [by rewrite Hh|done].
  - apply I.
  - apply I.
Qed.

(** ** New fibers *)
Lemma effects_inv_instantiate tr w id c cfg refusal w' i :
  effects_inv tr w -> life_inv w -> instantiate w id c cfg refusal = Ok (w', i) -> effects_inv tr w'.
Proof.
  intros I L Hi. unfold instantiate in Hi. apply bind_Ok in Hi as (r & _ & Hi).
  destruct (create_fiber w r c cfg refusal) as [[w1 i1]| | |] eqn:Hc; [|done..]. injection Hi as -> ->.
  unfold create_fiber in Hc. destruct refusal; [done|]. apply bind_Ok in Hc as (n & _ & [= <- <-]).
  pose proof (ei_scopes _ _ I) as ok. set (T := effect_scopes (w_shared w)) in *.
  set (f := CapabilityFiber_new _ _ _ _ _ _). set (w' := {| w_shared := _ |}).
  destruct (scope_fresh _ _ ok) as [Hf1 Hf2].
  pose proof (new_grow T (w_handed w) (w_handed w) Hf1 (fun _ _ => eq_refl)) as G.
  assert (Hnew : forall f0, w_fibers w !! w_next_fiber w <> Some f0).
  { intros f0 E. apply (li_id _ L) in E. lia. }
  assert (Ho : forall i, owed w' i ≡ₚ owed w i).
  { intros j. rewrite !owed_parts. cbn. by rewrite (new_owed _ _ ok (w_handed w) j (fun _ _ => eq_refl)). }
  split; cbn.
  - by apply (new_scopes_ok _ _ ok).
  - intros j s. rewrite Ho. apply (ei_owned _ _ I).
  - intros j f' [[<- <-]|[_ Hf]]%lookup_insert_Some; [by apply new_moves|].
    eapply cell_ok_grow; [done|]. by apply (ei_cell _ _ I).
  - intros t j p f' Ht [[<- <-]|[_ Hf]]%lookup_insert_Some; [|eapply pc_ok_grow; [done|]; by eapply (ei_pc _ _ I)].
    destruct (holding p) eqn:Hh; [|by destruct p]. destruct (li_holds _ L t _ p Ht Hh) as (f0 & Hf0 & _).
    by destruct (Hnew f0).
  - intros j s Hs. destruct (handed_open_new _ _ _ _ _ ok (fun _ _ => eq_refl) Hs) as [->|Hs'].
    { destruct Hs as [Hs _]. by destruct (eq_None_ne_Some_1 _ _ Hf2 Hs). }
    rewrite Ho. destruct (ei_open _ _ I j s Hs') as [(f0 & Hf0 & E)|?]; [left|by right].
    exists f0. split; [|done]. rewrite lookup_insert_ne; [done|]. intros <-. by apply (Hnew f0).
  - intros j. rewrite Ho. apply I.
  - apply I.
  - apply I.
Qed.

(** ** Steps of the calls *)
Lemma frames_held p : frames_of p <> [] -> holding p = true.
Proof. by destruct p. Qed.
(** A step of a call, as a move of its effects. *)
Lemma advance_move tr w t a id p w' d :
  effects_inv tr w -> life_inv w -> task_pc w t id p -> advance w t a = Some (w', d) ->
  exists k f f' p', w_tasks w !! t = Some k /\ task_at k = Some (id, p) /\ w_fibers w !! id = Some f /\
    w_fibers w' = <[id := f']> (w_fibers w) /\ w_tasks w' = <[t := retask k p']> (w_tasks w) /\
    w_next_disposer w' = w_next_disposer w /\ d = disposer_of p /\
    effect_move id (effect_scopes (w_shared w)) (w_handed w) (effect_scope (cells f)) p
      (effect_scopes (w_shared w')) (w_handed w') (effect_scope (cells f')) p' /\
    cell_ok id (effect_scopes (w_shared w')) (w_handed w') (cells f') /\
    pc_ok (effect_scopes (w_shared w')) p' (cells f') /\ stepped t f f' p'.
Proof.
  intros I L Htp Ha. destruct (life_inv_advance w t a id p w' d L Htp Ha) as (_ & f & f' & p' & s' & Hf & Hs & _ & _ & Hst).
  destruct Htp as (k & Hk & Hp). unfold advance in Ha. rewrite Hk in Ha. cbn [mbind option_bind] in Ha.
  rewrite Hp in Ha. cbn [mbind option_bind fst snd] in Ha.
  rewrite Hf in Ha. cbn [mbind option_bind] in Ha. rewrite Hs in Ha. injection Ha as <- <-.
  assert (Hheld : holding p = true -> transition f = Some t).
  { intros Hh. destruct (li_holds _ L t id p) as (f1 & Hf1 & ?); [by exists k|done|]. congruence. }
  destruct (step_pc_moves id t (w_handed w) (w_shared w) f p a s' f' p' Hs) as (Hm & C' & Hpc').
  - intros Hh. destruct (li_held _ L id f t Hf (Hheld Hh)) as (p1 & Hp1 & _ & Hat).
    by destruct (task_pc_unique w t id p _ _ (ex_intro _ k (conj Hk Hp)) Hp1) as [_ ->].
  - by apply (li_free _ L id).
  - apply (scope_fresh _ _ (ei_scopes _ _ I)).
  - by apply (ei_cell _ _ I).
  - eapply (ei_pc _ _ I); [by exists k|done].
  - by exists k, f, f', p'.
Qed.
(** What it takes from what every fiber owes. *)
Lemma advance_takes tr w w' t k f f' id p p' i :
  effects_inv tr w -> w_tasks w !! t = Some k -> task_at k = Some (id, p) -> w_fibers w !! id = Some f ->
  w_tasks w' = <[t := retask k p']> (w_tasks w) ->
  effect_move id (effect_scopes (w_shared w)) (w_handed w) (effect_scope (cells f)) p
      (effect_scopes (w_shared w')) (w_handed w') (effect_scope (cells f')) p' ->
  (forall s, s ∈ nests (frame_effects (frames_of p)) -> w_handed w !! s = Some id) /\
  takes i (owed w i) (owed w' i) (if bool_decide (id = i) then option_list (disposer_of p) else [])
    (effect_scopes (w_shared w')).
Proof.
  intros I Hk Hp Hf Ht Hm. pose proof (ei_scopes _ _ I) as ok. pose proof (ei_cell _ _ I id f Hf) as C.
  assert (H1 : forall j, in_tasks (w_tasks w) j ≡ₚ in_frames id p j ++ in_tasks (delete t (w_tasks w)) j).
  { intros j. rewrite <- (task_effects_at k j id p Hp). by apply in_tasks_lookup. }
  assert (H2 : in_tasks (w_tasks w') i ≡ₚ in_frames id p' i ++ in_tasks (delete t (w_tasks w)) i).
  { rewrite <- (task_effects_at (retask k p') i id p' (retask_at _ _ _ _ Hp)), Ht. apply in_tasks_insert. }
  assert (Hown : forall s, s ∈ nests (frame_effects (frames_of p)) -> w_handed w !! s = Some id).
  { intros s0 Hs0. apply (ei_owned _ _ I id). rewrite owed_parts, H1, !nests_app, !elem_of_app.
    right. left. unfold in_frames. by rewrite bool_decide_eq_true_2. }
  split; [done|].
  destruct (move_owed _ _ ok id _ _ _ _ _ _ i Hm) as (popped & Hpop & Hh & Hc); [apply C|apply C|done|].
  exists popped. split_and!; [|done|done]. by rewrite !owed_parts, H1, H2, !(assoc_L (++)), Hpop, !(assoc_L (++)).
Qed.
(** A fiber leaves a scope only when the scope is closed. *)
Lemma move_scope id T H s p T' H' s' p' :
  effect_move id T H s p T' H' s' p' -> handed_open T H s id -> s' = s.
Proof.
  assert (Hc : (H !! s = Some id -> stack_closed T s) -> ~ handed_open T H s id).
  { intros Hs (Ho & st & Hst & Hc). destruct (Hs Ho) as (st1 & Hst1 & ?). congruence. }
  intros [p1|p1|T1 p1 a Hs|p1 Hs|p1 Hs] Ho; try done; by destruct (Hc Hs).
Qed.
Lemma effects_inv_advance tr w t a id p w' d :
  effects_inv tr w -> life_inv w -> life_inv w' -> task_pc w t id p -> advance w t a = Some (w', d) ->
  effects_inv (tr ++ (Ran id <$> option_list d)) w'.
Proof.
  intros I L L' Htp Ha. destruct (advance_move tr w t a id p w' d I L Htp Ha)
    as (k & f & f' & p' & Hk & Hp & Hf & Ef & Et & En & -> & Hm & C' & Hpc' & Hst).
  pose proof (ei_scopes _ _ I) as ok. pose proof (ei_cell _ _ I id f Hf) as C.
  destruct (scope_fresh _ _ ok) as [Hfresh _]. pose proof (move_grow _ _ _ _ _ _ _ _ _ Hfresh Hm) as G.
  destruct (advance_takes tr w w' t k f f' id p p' id I Hk Hp Hf Et Hm) as [Hown _].
  assert (Ht : forall i, takes i (owed w i) (owed w' i)
    (if bool_decide (id = i) then option_list (disposer_of p) else []) (effect_scopes (w_shared w'))).
  { intros i. by eapply advance_takes. }
  split.
  - eapply move_scopes_ok; [exact ok|exact Hm|apply C|exact Hown].
  - intros i s0 Hs0. destruct (Ht i) as (popped & Hpop & _).
    assert (Ho : w_handed w !! s0 = Some i).
    { apply (ei_owned _ _ I). rewrite Hpop, nests_app, elem_of_app. by right. }
    rewrite (sg_handed _ _ _ _ G); [done|]. apply (so_handed _ _ ok). by eexists.
  - intros i f1. rewrite Ef. intros [[<- <-]|[_ Hf1]]%lookup_insert_Some; [done|].
    eapply cell_ok_grow; [done|]. by apply (ei_cell _ _ I).
  - intros t' i q f1 Htq. rewrite Ef. intros [[<- <-]|[Hne Hf1]]%lookup_insert_Some.
    + destruct (decide (t' = t)) as [->|Hne].
      { destruct Htq as (k' & Hk' & Hq). rewrite Et, lookup_insert_eq in Hk'. injection Hk' as <-.
        rewrite (retask_at _ _ _ _ Hp) in Hq. by injection Hq as <-. }
      destruct (holding q) eqn:Hh; [|by destruct q].
      destruct (li_holds _ L' t' id q Htq Hh) as (f1 & Hf1 & Htr). rewrite Ef, lookup_insert_eq in Hf1. injection Hf1 as <-.
      destruct (holding p') eqn:Hhp; [rewrite (sp_held _ _ _ _ Hst Hhp) in Htr; congruence|].
      destruct (sp_free _ _ _ _ Hst Hhp) as [[? _]|[_ ->]]; [congruence|].
      eapply pc_ok_grow; [done|]. eapply (ei_pc _ _ I t'); [|done].
      destruct Htq as (k' & Hk' & Hq). rewrite Et, lookup_insert_ne in Hk' by done. by exists k'.
    + eapply pc_ok_grow; [done|]. eapply (ei_pc _ _ I t' i); [|done]. destruct Htq as (k' & Hk' & Hq).
      rewrite Et in Hk'. apply lookup_insert_Some in Hk' as [[<- <-]|[_ Hk']]; [|by exists k'].
      rewrite (retask_at _ _ _ _ Hp) in Hq. by injection Hq as ? _.
  - intros i s Hs. destruct (handed_open_move _ _ _ _ _ _ _ _ _ _ i ok Hm Hs) as [Hs0|[-> ->]].
    2: { left. exists f'. by rewrite Ef, lookup_insert_eq. }
    destruct (ei_open _ _ I i s Hs0) as [(f1 & Hf1 & <-)|Hn].
    + left. rewrite Ef. destruct (decide (i = id)) as [->|Hne]; [|exists f1; by rewrite lookup_insert_ne].
      assert (f1 = f) as -> by congruence. exists f'. split; [by rewrite lookup_insert_eq|].
      by eapply move_scope.
    + right. destruct (Ht i) as (popped & Hpop & _ & Hc). rewrite Hpop, nests_app, elem_of_app in Hn.
      destruct Hn as [Hn|?]; [|done]. destruct Hs as (_ & st & Hst' & Ho). destruct (Hc s Hn) as (st1 & Hst1 & ?).
      congruence.
  - intros i. rewrite registered_app, ran_app, (ei_ran _ _ I i). destruct (Ht i) as (popped & Hpop & Hh & _).
    rewrite Hpop, hosts_app, Hh.
    assert (Hr : ran (Ran id <$> option_list (disposer_of p)) i =
      (if bool_decide (id = i) then option_list (disposer_of p) else [])).
    { destruct (disposer_of p); cbn; by case_bool_decide. }
    assert (Hg : registered (Ran id <$> option_list (disposer_of p)) i = []) by by destruct (disposer_of p).
    rewrite Hr, Hg, app_nil_r. solve_Permutation.
  - intros i d. rewrite registered_app, En. intros [Hd|Hd]%elem_of_app; [by apply (ei_next _ _ I i)|].
    destruct (disposer_of p); by apply not_elem_of_nil in Hd.
  - intros i. rewrite registered_app. assert (registered (Ran id <$> option_list (disposer_of p)) i = []) as ->
      by by destruct (disposer_of p). rewrite app_nil_r. apply I.
Qed.

(** ** All steps *)
Lemma sweep_on_effects tr w t runtime rest es :
  effects_inv tr w -> (forall k0 i, w_tasks w !! t = Some k0 -> task_effects i k0 = []) ->
  effects_inv tr (sweep_on w t runtime rest es).
Proof.
  intros I Hk. destruct (sweep_on_shape w t runtime rest es) as (_ & Hf & Hp).
  apply (effects_inv_frame _ w); try exact Hp; try done.
  1-3: unfold sweep_on; by destruct rest.
  - intros i f. rewrite Hf. intros Hi. by exists f.
  - intros i f Hi. rewrite Hf. by exists f.
  - intros i. unfold sweep_on. destruct rest as [|id rest]; (apply in_tasks_quiet; [|intros k0; apply Hk]).
    + done.
    + by apply (called_effects id Dispose runtime rest es).
Qed.
Lemma step_effects tr w es w' :
  fiber_step false w es w' -> life_inv w -> life_inv w' -> effects_inv tr w -> effects_inv (tr ++ es) w'.
Proof.
  intros Hstep L L' I.
  assert (Hsame : forall w0, effect_scopes (w_shared w0) = effect_scopes (w_shared w) -> w_handed w0 = w_handed w ->
    w_next_disposer w0 = w_next_disposer w -> w_fibers w0 = w_fibers w -> w_tasks w0 = w_tasks w ->
    effects_inv (tr ++ []) w0).
  { intros w0 E1 E2 E3 E4 E5. rewrite app_nil_r. apply (effects_inv_frame _ w); try done.
    - intros i f. rewrite E4. intros Hi. by exists f.
    - intros i f Hi. rewrite E4. by exists f.
    - intros i. by rewrite E5.
    - intros t i p (k & Hk & Hp). left. exists k. by rewrite <- E5. }
  destruct Hstep as [w rt l _|w r w' Hr|w id|w id c cfg refusal w' i Hi|w t id o Ht Hf|
    w t runtime Ht|w t w' Hs|w t a k id p w' d Hk Hp Ha|w t Hc|w f Hf|w f l s Hf He|w id e l t Hh He|
    w id e l t c Hh He].
  - by apply Hsame.
  - unfold register_runtime in Hr. destruct (w_registry w !! _); [done|]. injection Hr as <-. by apply Hsame.
  - by apply Hsame.
  - rewrite app_nil_r. by eapply effects_inv_instantiate.
  - rewrite app_nil_r. apply (effects_inv_frame _ w); try done.
    + intros i f Hi. by exists f.
    + intros i. apply in_tasks_quiet; [by apply (called_effects id o 0%N [] [])|]. by rewrite Ht.
    + eapply called_tasks; [done|]. intros id' p [= <- <-]. by eexists.
  - rewrite app_nil_r. apply sweep_on_effects; [done|]. by rewrite Ht.
  - rewrite app_nil_r. unfold sweep_next in Hs. destruct (w_tasks w !! t) as [[|runtime f p rest es|]|] eqn:Hk; try done.
    destruct p; try done. injection Hs as <-. apply sweep_on_effects; [done|]. rewrite Hk. intros k0 i [= <-].
    unfold task_effects. cbn. by case_bool_decide.
  - eapply effects_inv_advance; [done|done|done|by exists k|done].
  - done.
  - rewrite app_nil_r. apply (effects_inv_frame _ w); try done; [| |by left].
    + cbn. intros i f' [[<- <-]|[_ Hf']]%lookup_insert_Some; [by exists f|by exists f'].
    + cbn. intros i f0 Hf0. apply lookup_insert_is_Some'. right. by eexists.
  - unfold fiber_effect in He. case_bool_decide as Hact; [done|]. apply bind_Ok in He as (t & He & [= <-]).
    destruct (effect_register _ _ _) as [t0| | |] eqn:Hr; [|done..]. injection He as ->.
    eapply effects_inv_register; [done| |exact Hr]. apply (ei_cell _ _ I _ f Hf). left.
    done.
  - by eapply effects_inv_register.
  - rewrite app_nil_r. by eapply effects_inv_child.
Qed.
Lemma reachable_effects tr w : fiber_reachable false tr w -> life_inv w /\ effects_inv tr w.
Proof.
  intros Hr. assert (L : life_inv w) by by eapply reachable_life. split; [done|]. clear L.
  induction Hr as [|tr w es w' Hr IH Hstep]; [apply effects_inv_start|].
  pose proof (reachable_life _ _ Hr) as L. eapply step_effects; [done|done| |done].
  by eapply step_life.
Qed.

(** ** What a fiber at rest owes *)

(** Scopes nest towards larger names, so an effect that no disposal holds is in
    a scope that hangs off the fiber's own. *)
Lemma idle_owes_nothing tr w i f :
  effects_inv tr w -> w_fibers w !! i = Some f -> transition f = None -> life_inv w ->
  state (cells f) <> Active -> owed w i = [].
Proof.
  intros I Hf Htr L Hs. pose proof (ei_scopes _ _ I) as ok.
  assert (Hl : loading_binding (cells f) = None) by by destruct (resting_unload _ _ _ (li_free w L i f Hf Htr)).
  assert (Htasks : in_tasks (w_tasks w) i = []).
  { apply flat_nil. intros t k Hk. unfold task_effects. destruct (task_at k) as [[id p]|] eqn:Hp; [|done].
    case_bool_decide as Hi; [|done]. subst id. destruct (holding p) eqn:Hh; [|by destruct p].
    destruct (li_holds _ L t i p) as (f1 & Hf1 & ?); [by exists k|done|]. congruence. }
  assert (Hempty : forall n (s : EffectScopeId) st, (N.to_nat s < n)%nat -> stacks (effect_scopes (w_shared w)) !! s = Some st ->
    w_handed w !! s = Some i -> effects st = []).
  { intros n. induction n as [|n IH]; [lia|]. intros s st Hlt Hst Ho.
    destruct (closed st) eqn:Hc; [by eapply (so_closed _ _ ok)|].
    destruct (ei_open _ _ I i s) as [(f1 & Hf1 & E)|Hn]; [by split; [|exists st]|..].
    - assert (f1 = f) as -> by congruence. subst s.
      destruct (shut_closed i _ _ _ (ei_cell _ _ I i f Hf) Hs Hl Ho) as (st1 & Hst1 & ?). congruence.
    - exfalso. rewrite owed_parts, Htasks, app_nil_r in Hn. apply elem_of_nests in Hn as (e & He & Hd).
      apply elem_of_flat in He as (s0 & st0 & Hst0 & He). unfold stack_effects in He.
      case_bool_decide as Ho0; [|by apply not_elem_of_nil in He].
      assert (Hlt0 : (s0 < s)%N) by (eapply (so_nest _ _ ok); [done|]; apply elem_of_nests; by exists e).
      rewrite (IH s0 st0) in He; [by apply not_elem_of_nil in He|lia|done|done]. }
  rewrite owed_parts, Htasks, app_nil_r. apply flat_nil. intros s st Hst. unfold stack_effects.
  case_bool_decide; [|done]. apply (Hempty (S (N.to_nat s)) s); [lia|done|done].
Qed.
