(* ===== verification/FiberTree.v ===== *)
(** * Fibers and the scope tree

    Every step of a fiber keeps the invariant of the scope tree, whatever other
    users of the tree do in between, and what a fiber says of its publication
    and its dependencies names real publications. *)
From S2P Require Export FiberFacts.
#[local] Open Scope string_scope.
#[local] Open Scope nat_scope.
#[local] Open Scope list_scope.

(** ** What the cells and the program points name *)
Definition published (rt : Runtime) (h : CapabilityEntry) : Prop := arena rt !! entry_id h = Some h.
Definition pinned (rt : Runtime) (b : DependencyBinding) : Prop :=
  forall k x, b !! k = Some x -> exists h, arena rt !! pin_entry x = Some h /\ handle_id h = k /\
    generation h = pin_generation x.
Definition cells_tree (rt : Runtime) (c : FiberCells) : Prop :=
  (forall h, handle c = Some h -> published rt h) /\
  (forall e, dependency_epoch c = Some e -> pinned rt (binding e)).
Definition pc_tree (rt : Runtime) (cap : CapabilityDefinition) (p : pc) : Prop :=
  match p with
  | Comparing _ deps | Starting _ deps | Preparing _ deps => snapshot_ok rt cap deps
  | Running _ load | Loaded _ load _ | Judging _ load _ _ | JudgingForce _ load _ _ | Publishing _ load _ =>
      snapshot_ok rt cap (load_dependencies load)
  | Committing load h => snapshot_ok rt cap (load_dependencies load) /\ published rt h
  | _ => True
  end.
(** Trees only get more entries. *)
Definition tree_grows (rt rt' : Runtime) : Prop := scope_inv rt' /\ arena rt ⊆ arena rt'.
Lemma tree_grows_refl rt : scope_inv rt -> tree_grows rt rt.
Proof. by split. Qed.
Lemma cells_tree_mono rt rt' c : arena rt ⊆ arena rt' -> cells_tree rt c -> cells_tree rt' c.
Proof.
  intros Ha [H1 H2]. split.
  - intros h Hh%H1. by eapply lookup_weaken.
  - intros e He k x (h & Hh & ?)%(H2 e He). exists h. split; [by eapply lookup_weaken|done].
Qed.
Lemma pc_tree_mono rt rt' cap p : arena rt ⊆ arena rt' -> pc_tree rt cap p -> pc_tree rt' cap p.
Proof.
  intros Ha. assert (Hs : forall deps, snapshot_ok rt cap deps -> snapshot_ok rt' cap deps).
  { intros deps. by apply snapshot_ok_mono. }
  destruct p; cbn; try apply Hs; try done. intros [??]. split; [by apply Hs|by eapply lookup_weaken].
Qed.
Lemma context_get_local rt c id h : context_get rt rt c id = Some h -> exists s, local_entries rt s !! id = Some h.
Proof.
  induction c as [|st c IH]; [done|]. cbn. destruct (has_local _ _ _); [apply get_local_entry|].
  case_bool_decide; [done|exact IH].
Qed.
Lemma context_snapshot_ok rt c d deps : scope_inv rt -> context_dependencies rt c d = Ok deps -> snapshot_ok rt d deps.
Proof.
  intros I Hd. pose proof (context_dependencies_spec rt c d) as Hs. rewrite Hd in Hs. destruct Hs as [Hdom Hs].
  split; [done|]. intros k h [_ [s Hh]%context_get_local]%Hs. by apply (si_local _ I) in Hh.
Qed.
Lemma pinned_snapshot rt d deps : snapshot_ok rt d deps -> pinned rt (binding_of deps).
Proof.
  intros [_ Hs] k x Hx. unfold binding_of in Hx. rewrite lookup_fmap in Hx.
  destruct (deps !! k) as [h|] eqn:Hk; [|done]. injection Hx as <-. apply Hs in Hk as [? ?]. by exists h.
Qed.
Lemma provide_value_tree rt s d snap v :
  scope_inv rt -> snapshot_ok rt d snap -> tree_grows rt (provide_value rt s d snap v).1 /\
    forall h, (provide_value rt s d snap v).2 = Ok h -> published (provide_value rt s d snap v).1 h.
Proof.
  intros I Hs. unfold provide_value. destruct (foldM _ _ _); [|by split; [apply tree_grows_refl|]..].
  destruct (scope_inv_publish rt s d New snap v I Hs) as [I' Ha]. split; [done|]. intros h Hh.
  destruct (publish_preconstructed_cases rt s d New snap v) as [(e & He & Hp)|[_ Hno]]; [|by apply Hno in Hh].
  rewrite He in Hh |- *. injection Hh as ->. unfold published. cbn [fst]. apply prepare_publication_Ok in Hp as (_ & _ & Ho & _); [|done|done].
  rewrite insert_entry_arena by by apply is_open_exists. apply lookup_insert_eq.
Qed.
Lemma remove_local_tree rt s c g : scope_inv rt -> tree_grows rt (remove_local rt s c g).1.
Proof.
  intros I. destruct (scope_inv_withdraw rt s c g I) as [I' Ha]. unfold remove_local, tree_grows.
  destruct (withdraw rt s c g) as [rt' []]; cbn in *; by rewrite Ha.
Qed.
Lemma release_handle_tree s f d es s' f' es' :
  release_handle s f d es = (s', f', es') -> scope_inv (tree s) -> cells_tree (tree s) (cells f) ->
  tree_grows (tree s) (tree s') /\ cells_tree (tree s') (cells f') /\ fiber_capability f' = fiber_capability f.
Proof.
  unfold release_handle. intros Hr I C. set (x := match handle (cells f) with Some _ => _ | None => _ end) in Hr.
  assert (G : tree_grows (tree s) x.1).
  { unfold x. destruct (handle (cells f)) as [h|]; [|by apply tree_grows_refl].
    destruct (was_detached d h); [by apply tree_grows_refl|by apply remove_local_tree]. }
  destruct x as [rt [|e| |]]; injection Hr as <- <- <-; cbn in *; (split_and!; [done| |done]); by split.
Qed.

(** ** One step *)
Lemma step_pc_tree t s f p a s' f' p' :
  step_pc t s f p a = Some (s', f', p') ->
  scope_inv (tree s) -> cells_tree (tree s) (cells f) -> pc_tree (tree s) (fiber_capability f) p ->
  tree_grows (tree s) (tree s') /\ cells_tree (tree s') (cells f') /\
  pc_tree (tree s') (fiber_capability f) p' /\ fiber_capability f' = fiber_capability f.
Proof.
  intros Hs I C Hp. pose proof (tree_grows_refl _ I) as G.
  destruct p; cbn [step_pc pc_tree] in *.
  all: try (outcomes Hs; by split_and!).
  - unfold resolving in Hs. destruct (context_dependencies _ _ _) as [deps|e| |] eqn:Hd; [| |done..].
    + injection Hs as <- <- <-. split_and!; [done|done| |done]. by eapply context_snapshot_ok.
    + outcomes Hs; by split_and!.
  - assert (C' : cells_tree (tree s) (set_epoch (Some (epoch_of (requested_epoch (requests f)) deps)) (cells f))).
    { split; [apply C|]. intros e [= <-]. by eapply pinned_snapshot. }
    unfold comparing in Hs. outcomes Hs; by split_and!.
  - unfold publishing in Hs. destruct (provide_value_tree (tree s) (scope_of (fiber_context f)) (fiber_capability f)
      (load_dependencies load) v I Hp) as [G' Hpub].
    destruct (provide_value _ _ _ _ _) as [rt [h|e| |]]; cbn [fst snd] in *; [| |done..].
    + injection Hs as <- <- <-. split_and!; [done|by eapply cells_tree_mono; [apply G'|]| |done].
      split; [by eapply snapshot_ok_mono; [apply G'|]|by apply Hpub].
    + assert (C' : cells_tree rt (cells f)) by by eapply cells_tree_mono; [apply G'|].
      unfold begin_discard in Hs. destruct e; injection Hs as <- <- <-; by split_and!.
  - destruct Hp as [Hd Hh]. injection Hs as <- <- <-. split_and!; [done| |done|done]. split.
    + by intros h0 [= <-].
    + intros e [= <-]. by eapply pinned_snapshot.
  - destruct (release_handle s f detached es) as [[s1 f1] es1] eqn:Hr.
    destruct (release_handle_tree _ _ _ _ _ _ _ Hr I C) as (G' & C' & Hcap).
    outcomes Hs; by split_and!.
Qed.

(** ** All worlds *)
Record tree_inv (w : world) : Prop := {
  ti_system : system_inv {| sys_rt := tree (w_shared w); sys_pending := w_pending w |};
  ti_cells id f : w_fibers w !! id = Some f -> cells_tree (tree (w_shared w)) (cells f);
  ti_pc t id p f : task_pc w t id p -> w_fibers w !! id = Some f ->
    pc_tree (tree (w_shared w)) (fiber_capability f) p
}.
Lemma tree_inv_frame w w' :
  tree_inv w -> tree (w_shared w') = tree (w_shared w) -> w_pending w' = w_pending w ->
  (forall id f', w_fibers w' !! id = Some f' -> exists f, w_fibers w !! id = Some f /\
     cells f' = cells f /\ fiber_capability f' = fiber_capability f) ->
  (forall t id p, task_pc w' t id p -> task_pc w t id p \/ exists o, p = Called o) -> tree_inv w'.
Proof.
  intros I Et Ep Hf Ht. split; rewrite ?Et, ?Ep.
  - apply I.
  - intros id f' (f & Hid & -> & _)%Hf. by eapply (ti_cells _ I).
  - intros t id p f' [Hp|[o ->]]%Ht (f & Hid & _ & ->)%Hf; [|done]. by eapply (ti_pc _ I).
Qed.
Lemma tree_inv_sweep w t runtime rest es : tree_inv w -> tree_inv (sweep_on w t runtime rest es).
Proof.
  intros I. destruct (sweep_on_shape w t runtime rest es) as (_ & Ef & Ht).
  apply (tree_inv_frame w); [done|unfold sweep_on; by destruct rest..| |done].
  intros id f. rewrite Ef. intros Hf. by exists f.
Qed.
Lemma system_inv_grows rt rt' l :
  system_inv {| sys_rt := rt; sys_pending := l |} -> tree_grows rt rt' -> system_inv {| sys_rt := rt'; sys_pending := l |}.
Proof. intros [_ Hp] [I Ha]. split; [done|]. intros i Hi. eapply snapshot_ok_mono; [exact Ha|by apply Hp]. Qed.
Lemma scope_step_grows c y y' : system_inv y -> scope_step c y y' -> arena (sys_rt y) ⊆ arena (sys_rt y').
Proof.
  intros [I Hp] Hs. destruct Hs; cbn in *; try done.
  - unfold child. by destruct (scopes rt !! s).
  - unfold drop_scope. by case_bool_decide.
  - apply scope_inv_publish; [done|]. apply Hp, elem_of_app. right. left.
  - rewrite (proj2 (scope_inv_withdraw rt s _ g I)); done.
  - destruct (teardown_ok rt s I) as [_ T]. by rewrite (td_arena _ _ _ T).
Qed.
Lemma pc_called p : (exists o, p = Called o) \/ forall o, p <> Called o.
Proof. destruct p; eauto. Qed.
Lemma tree_inv_instantiate w id cx cfg refusal w' i :
  final_inv w -> tree_inv w -> instantiate w id cx cfg refusal = Ok (w', i) -> tree_inv w'.
Proof.
  intros F I Hi. unfold instantiate in Hi. apply bind_Ok in Hi as (r & _ & Hi).
  destruct (create_fiber w r cx cfg refusal) as [[w1 i1]| | |] eqn:Hc; [|done..]. injection Hi as -> ->.
  unfold create_fiber in Hc. destruct refusal; [done|]. apply bind_Ok in Hc as (n & _ & [= <- <-]).
  split; cbn [w_shared tree w_pending w_fibers]; [apply I| |].
  - intros id' f' [[<- <-]|[_ Hf]]%lookup_insert_Some; [by split|]. by eapply (ti_cells _ I).
  - intros t id' p f' Hp [[<- <-]|[_ Hf]]%lookup_insert_Some; [|by eapply (ti_pc _ I)].
    destruct (pc_called p) as [[o ->]|Hno]; [done|].
    destruct (fi_task _ F t (w_next_fiber w) p Hp) as (f & Hf & _); [exact Hno|].
    apply (fi_id _ F) in Hf. lia.
Qed.
Lemma tree_inv_advance w t a id p w' d :
  tree_inv w -> task_pc w t id p -> advance w t a = Some (w', d) -> tree_inv w'.
Proof.
  intros I (k & Hk & Hp) Ha. unfold advance in Ha. rewrite Hk in Ha. cbn [mbind option_bind] in Ha.
  rewrite Hp in Ha. cbn [mbind option_bind fst snd] in Ha.
  destruct (w_fibers w !! id) as [f|] eqn:Hf; [|done]. cbn [mbind option_bind] in Ha.
  destruct (step_pc t (w_shared w) f p a) as [[[s f'] p']|] eqn:Hs; [|done]. injection Ha as <- _.
  destruct (step_pc_tree _ _ _ _ _ _ _ _ Hs) as (G & C' & Hp' & Hcap).
  { apply I. } { by eapply (ti_cells _ I). } { eapply (ti_pc _ I); [by exists k|done]. }
  split; cbn [w_shared w_pending w_fibers].
  - by eapply system_inv_grows; [apply I|].
  - intros id' f1 [[<- <-]|[_ Hf1]]%lookup_insert_Some; [done|].
    eapply cells_tree_mono; [apply G|]. by eapply (ti_cells _ I).
  - intros t' id' q f1 (k' & Hk' & Hq) Hf1. cbn [w_tasks] in Hk'.
    assert (Hcap1 : exists f0, w_fibers w !! id' = Some f0 /\ fiber_capability f1 = fiber_capability f0).
    { apply lookup_insert_Some in Hf1 as [[<- <-]|[_ Hf1]]; [by exists f|by exists f1]. }
    destruct Hcap1 as (f0 & Hf0 & ->). apply lookup_insert_Some in Hk' as [[<- <-]|[_ Hk']].
    + rewrite (retask_at _ _ _ _ Hp) in Hq. injection Hq as <- <-. by assert (f0 = f) as -> by congruence.
    + eapply pc_tree_mono; [apply G|]. eapply (ti_pc _ I); [by exists k'|done].
Qed.
Lemma step_tree_inv c w es w' : fiber_step c w es w' -> final_inv w -> tree_inv w -> tree_inv w'.
Proof.
  intros Hstep F I.
  assert (Hsame : forall w0, tree (w_shared w0) = tree (w_shared w) -> w_pending w0 = w_pending w ->
    w_fibers w0 = w_fibers w -> (forall t id p, task_pc w0 t id p -> task_pc w t id p \/ exists o, p = Called o) ->
    tree_inv w0).
  { intros w0 E1 E2 E3. apply tree_inv_frame; [done..|]. intros id f. rewrite E3. intros Hf. by exists f. }
  destruct Hstep as [w rt l Hs|w r w' Hr|w id|w id cx cfg refusal w' i Hi|w t id o Ht Hf|
    w t runtime Ht|w t w' Hs|w t a k id p w' d Hk Hp Ha|w t Hc|w f Hf|w f l s Hf He|w id e l t Hh He|
    w id e l t cs Hh He].
  - pose proof (scope_step_grows _ _ _ (ti_system _ I) Hs) as Ha. cbn in Ha.
    split; cbn [with_pending with_shared w_shared w_pending w_fibers set_tree tree].
    + by eapply scope_step_inv; [apply I|].
    + intros id f Hf. eapply cells_tree_mono; [exact Ha|]. by eapply (ti_cells _ I).
    + intros t id p f Hp Hf. eapply pc_tree_mono; [exact Ha|]. by eapply (ti_pc _ I).
  - unfold register_runtime in Hr. destruct (w_registry w !! _); [done|]. injection Hr as <-. apply Hsame; [done..|by left].
  - apply Hsame; [done..|by left].
  - by eapply tree_inv_instantiate.
  - apply Hsame; [done..|]. eapply called_tasks; [done|]. intros id' p [= <- <-]. by eexists.
  - by apply tree_inv_sweep.
  - unfold sweep_next in Hs. destruct (w_tasks w !! t) as [[|runtime f p rest es|]|]; try done.
    destruct p; try done. injection Hs as <-. by apply tree_inv_sweep.
  - eapply tree_inv_advance; [done|by exists k|done].
  - apply (tree_inv_frame w); [done|done|done| |].
    + intros id f' (f & Hf & Hc')%cancel_fibers. exists f. by destruct Hc' as [->|[_ ->]].
    + intros t' id p [_ ?]%cancel_tasks. by left.
  - apply (tree_inv_frame w); [done|done|done| |by left]. cbn.
    intros id f' [[<- <-]|[_ Hf']]%lookup_insert_Some; [by exists f|by exists f'].
  - unfold fiber_effect in He. case_bool_decide; [done|]. apply bind_Ok in He as (t & _ & [= <-]). apply Hsame; [done..|by left].
  - apply Hsame; [done..|by left].
  - apply Hsame; [done..|by left].
Qed.
Lemma reachable_tree c tr w : fiber_reachable c tr w -> tree_inv w.
Proof.
  induction 1 as [|tr w es w' Hr IH Hstep].
  - split; [|done|by intros t id p f (k & Hk & _)]. split; [apply scope_inv_start|]. by intros i ?%elem_of_nil.
  - eapply step_tree_inv; [done| |done]. by eapply reachable_final.
Qed.
