(* ===== verification/FiberSafety.v ===== *)
(** * What fibers promise

    The properties of fibers over all interleavings of their calls, and samples
    of runs. *)
From S2P Require Export FiberCleanup FiberTree.
#[local] Open Scope string_scope.
#[local] Open Scope nat_scope.
#[local] Open Scope list_scope.

(** ** Scripts: runs given by their choices *)
Inductive action :=
  | DoRoot (n : nat)
  | DoRegister (r : PluginRuntime)
  | DoInstantiate (id : Id) (c : CapabilityContext) (cfg : PluginConfig)
  | DoCall (t : TaskId) (id : FiberId) (o : op)
  | DoAdvance (t : TaskId) (a : answer)
  | DoEffect (id : FiberId) (label : string)
  | DoLoadEffect (e : EffectScopeId) (label : string).
Definition act (w : world) (x : action) : option (list event * world) :=
  match x with
  | DoRoot n =>
      if bool_decide (is_Some (scopes (tree (w_shared w)) !! [n])) then None
      else Some ([], with_pending (w_pending w) (with_shared (set_tree (root (tree (w_shared w)) n) (w_shared w)) w))
  | DoRegister r => match register_runtime w r with Ok w' => Some ([], w') | _ => None end
  | DoInstantiate id c cfg =>
      match instantiate w id c cfg None with Ok (w', _) => Some ([], w') | _ => None end
  | DoCall t id o =>
      if bool_decide (is_Some (w_tasks w !! t)) || negb (bool_decide (is_Some (w_fibers w !! id))) then None
      else Some ([], with_tasks (<[t := OnFiber id (Called o)]> (w_tasks w)) w)
  | DoAdvance t a =>
      k ← w_tasks w !! t; x ← task_at k; y ← advance w t a; Some (Ran x.1 <$> option_list y.2, y.1)
  | DoEffect id l =>
      f ← w_fibers w !! id;
      if bool_decide (fiber_id f <> id) then None
      else match fiber_effect (w_shared w) f (host_effect l (w_next_disposer w)) with
      | Ok s => Some ([Registered id (w_next_disposer w)], next_effect s w)
      | _ => None
      end
  | DoLoadEffect e l =>
      id ← w_handed w !! e;
      match effect_register (effect_scopes (w_shared w)) e (host_effect l (w_next_disposer w)) with
      | Ok t => Some ([Registered id (w_next_disposer w)], next_effect (set_scopes t (w_shared w)) w)
      | _ => None
      end
  end.
Fixpoint run (w : world) (l : list action) : option (list event * world) :=
  match l with
  | [] => Some ([], w)
  | x :: l => y ← act w x; z ← run y.2 l; Some (y.1 ++ z.1, z.2)
  end.
Lemma act_step c w x es w' : act w x = Some (es, w') -> fiber_step c w es w'.
Proof.
  destruct x as [n|r|id cx cfg|t id o|t a|id l|e l]; cbn.
  - case_bool_decide as Hn; [done|]. intros [= <- <-]. apply step_tree.
    destruct w as [[rt T m] ps fs rg nf nd ts h]. cbn. by apply step_root, eq_None_not_Some.
  - destruct (register_runtime w r) eqn:Hr; [|done..]. intros [= <- <-]. by eapply step_register.
  - destruct (instantiate w id cx cfg None) as [[w1 i]| | |] eqn:Hi; [|done..]. intros [= <- <-]. by eapply step_instantiate.
  - destruct (bool_decide _ || _) eqn:Hb; [done|]. apply orb_false_iff in Hb as [Ht%bool_decide_eq_false Hf].
    apply negb_false_iff, bool_decide_eq_true in Hf. intros [= <- <-]. by apply step_call; [apply eq_None_not_Some|].
  - destruct (w_tasks w !! t) as [k|] eqn:Hk; [|done]. cbn. destruct (task_at k) as [[id p]|] eqn:Hp; [|done]. cbn.
    destruct (advance w t a) as [[w1 d]|] eqn:Ha; [|done]. intros [= <- <-]. by eapply step_advance.
  - destruct (w_fibers w !! id) as [f|] eqn:Hf; [|done]. cbn. case_bool_decide as Hid; [done|]. subst id.
    destruct (fiber_effect _ _ _) eqn:He; [|done..]. intros [= <- <-]. by eapply step_effect.
  - destruct (w_handed w !! e) as [id|] eqn:Hf; [|done]. cbn.
    destruct (effect_register _ _ _) eqn:He; [|done..]. intros [= <- <-]. by eapply step_load_effect.
Qed.
Lemma run_reachable c l : forall tr w es w',
  fiber_reachable c tr w -> run w l = Some (es, w') -> fiber_reachable c (tr ++ es) w'.
Proof.
  induction l as [|x l IH]; intros tr w es w' Hr; cbn.
  - intros [= <- <-]. by rewrite app_nil_r.
  - destruct (act w x) as [[es1 w1]|] eqn:Hx; [|done]. cbn. destruct (run w1 l) as [[es2 w2]|] eqn:Hl; [|done].
    intros [= <- <-]. cbn. rewrite (assoc_L (++)). eapply IH; [|done]. eapply reach_step; [done|]. by eapply act_step.
Qed.

(** *** A plugin without dependencies, loaded in the root scope, then disposed *)
Definition silently (t : TaskId) (n : nat) : list action := replicate n (DoAdvance t Silent).
Definition sample_plugin : PluginRuntime :=
  {| plugin_object := 1%N; plugin_definition := PluginDefinition_new "p" (CapabilityDefinition_new "p" "kind") 1%N |}.
Definition start_script : list action :=
  [DoRoot 0; DoRegister sample_plugin; DoInstantiate "p" (from_scope [0]) "config"; DoCall 1%N 1%N Start] ++
  silently 1%N 8.
Definition load_script : list action :=
  start_script ++ [DoLoadEffect 1%N "log"; DoAdvance 1%N (Produced (inr 7%N))] ++ silently 1%N 5.
Definition dispose_script : list action :=
  load_script ++ [DoEffect 1%N "listener"; DoCall 2%N 1%N Dispose] ++ silently 2%N 2 ++
  [DoAdvance 2%N (Disposal (Some "busy")); DoAdvance 2%N (Disposal None)] ++ silently 2%N 2.
Definition outcome (l : list action) : list event * world := default ([], world_start) (run world_start l).
Definition abandon_script : list action :=
  start_script ++ [DoCall 2%N 1%N Dispose] ++ silently 2%N 1 ++ [DoAdvance 1%N (Produced (inl "boom"))] ++
  silently 1%N 4 ++ silently 2%N 1.
Lemma outcome_reachable c l : run world_start l = Some (outcome l) -> fiber_reachable c (outcome l).1 (outcome l).2.
Proof. intros Hr. apply (run_reachable c l [] world_start); [apply reach_start|]. rewrite Hr. by destruct (outcome l). Qed.

(** ** The properties *)

(** C7: The transition lock of a fiber is exclusive, and every state a caller can
    find the fiber in without the lock is a whole one.  A fiber whose lock is
    free is at rest: [Active] with a publication that is of its own capability
    and pins exactly the entries of the dependency epoch it reports; [Pending],
    or [Failed] with an error, with neither publication nor epoch; or given up
    by a disposal, with nothing published either.  If the lock is taken then one call has it, at a
    program point that accounts for the cells. *)
Theorem fiber_lifecycle tr w id f :
  fiber_reachable false tr w -> w_fibers w !! id = Some f ->
  match transition f with
  | None => resting (fiber_capability f) (requests f) (cells f)
  | Some t => exists p, task_pc w t id p /\ holding p = true /\
      at_pc (fiber_capability f) (requests f) p (cells f)
  end /\
  forall t p, task_pc w t id p -> holding p = true -> transition f = Some t.
Proof.
  intros Hr%reachable_life Hf. split.
  - destruct (transition f) as [t|] eqn:Ht; [by apply (li_held _ Hr)|by apply (li_free _ Hr id)].
  - intros t p Hp Hh. destruct (li_holds _ Hr t id p Hp Hh) as (f1 & Hf1 & ?). congruence.
Qed.
(** [Disposed] is final: whatever callers do, and also when they drop calls
    in progress, no step changes a cell of a disposed fiber, and its disposal
    stays requested. *)
Theorem disposed_is_final c tr w es w' id f :
  fiber_reachable c tr w -> fiber_step c w es w' -> w_fibers w !! id = Some f -> state (cells f) = Disposed ->
  exists f', w_fibers w' !! id = Some f' /\ cells f' = cells f /\ dispose_requested (requests f') = true.
Proof.
  intros Hr Hs Hf Hd. destruct (step_final c w es w' Hs (reachable_final _ _ _ Hr)) as [F Hall].
  destruct (Hall id f Hf) as (f' & Hf' & Hc). exists f'. rewrite (Hc Hd). split_and!; [done|done|].
  eapply (fi_disposed _ F id); [done|]. unfold is_disposed. by rewrite (Hc Hd).
Qed.
(** C6: Every effect is cleaned up at most once and none is forgotten: in any
    history without dropped calls the disposers that ran for a fiber are among
    those registered for it (by the fiber, by its loads, or in their child
    scopes), none ran twice, and when the lock is free and the fiber is not
    [Active] all of them have run. *)
Theorem effects_run_once tr w id f :
  fiber_reachable false tr w -> w_fibers w !! id = Some f ->
  NoDup (registered tr id) /\ NoDup (ran tr id) /\ (forall d, d ∈ ran tr id -> d ∈ registered tr id) /\
  (transition f = None -> state (cells f) <> Active -> registered tr id ≡ₚ ran tr id).
Proof.
  intros Hr Hf. destruct (reachable_effects _ _ Hr) as [L I]. pose proof (ei_ran _ _ I id) as Hran.
  pose proof (ei_nodup _ _ I id) as Hnd. split_and!; [done| | |].
  - rewrite Hran in Hnd. by apply NoDup_app in Hnd as (_ & _ & ?).
  - intros d Hd. rewrite Hran. apply elem_of_app. by right.
  - intros Ht Hs. by rewrite Hran, (idle_owes_nothing tr w id f I Hf Ht L Hs).
Qed.
(** Fibers and the scope tree compose: with any number of loads and unloads
    in progress, among other users of the tree and dropped calls, the scope tree
    keeps its invariant, the publication a fiber holds is an entry the tree has
    recorded, and each dependency its epoch pins is a recorded entry of that
    capability with the pinned generation. *)
Theorem fibers_keep_tree c tr w :
  fiber_reachable c tr w ->
  scope_inv (tree (w_shared w)) /\
  forall id f, w_fibers w !! id = Some f ->
    (forall h, handle (cells f) = Some h -> arena (tree (w_shared w)) !! entry_id h = Some h) /\
    (forall e k x, dependency_epoch (cells f) = Some e -> binding e !! k = Some x ->
       exists h, arena (tree (w_shared w)) !! pin_entry x = Some h /\ handle_id h = k /\
         generation h = pin_generation x).
Proof.
  intros Hr%reachable_tree. split; [apply Hr|]. intros id f Hf. destruct (ti_cells _ Hr id f Hf) as [H1 H2].
  split; [exact H1|]. intros e k x He. by apply H2.
Qed.
(** A fiber can be disposed and stay listed: when a load fails while a
    disposal is requested, the call that drives the load marks the fiber
    [Disposed], and the waiting [dispose] returns success without removing it
    from its plugin runtime. *)
Theorem dispose_leaves_fiber :
  exists tr w f, fiber_reachable false tr w /\ w_fibers w !! 1%N = Some f /\
    state (cells f) = Disposed /\ w_tasks w !! 2%N = Some (OnFiber 1%N (Returned Released)) /\
    fiber_count w (fiber_runtime f) = 1.
Proof.
  assert (Hr : run world_start abandon_script = Some (outcome abandon_script)) by (vm_compute; reflexivity).
  destruct (w_fibers (outcome abandon_script).2 !! 1%N) as [f|] eqn:Hf; [|by vm_compute in Hf].
  exists (outcome abandon_script).1, (outcome abandon_script).2, f.
  split; [by apply outcome_reachable|]. split; [done|].
  assert (Hs : (fun f => (state (cells f), fiber_runtime f)) <$> w_fibers (outcome abandon_script).2 !! 1%N =
    Some (Disposed, 1%N)) by (vm_compute; reflexivity).
  rewrite Hf in Hs. injection Hs as -> ->. split; [done|]. split; vm_compute; reflexivity.
Qed.

(** ** Witnesses *)
Definition loaded : list event * world := outcome load_script.
Definition disposed : list event * world := outcome dispose_script.
Lemma loaded_reachable c : fiber_reachable c loaded.1 loaded.2.
Proof. apply outcome_reachable. vm_compute. reflexivity. Qed.
Lemma disposed_reachable c : fiber_reachable c disposed.1 disposed.2.
Proof. apply outcome_reachable. vm_compute. reflexivity. Qed.
Lemma loaded_fiber :
  exists f, w_fibers loaded.2 !! 1%N = Some f /\ state (cells f) = Active /\ transition f = None /\
    is_Some (handle (cells f)).
Proof.
  destruct (w_fibers loaded.2 !! 1%N) as [f|] eqn:Hf; [|by vm_compute in Hf]. exists f. split; [reflexivity|].
  assert (Hs : (fun f => (state (cells f), transition f, bool_decide (is_Some (handle (cells f))))) <$> w_fibers loaded.2 !! 1%N =
    Some (Active, None, true)) by (vm_compute; reflexivity).
  rewrite Hf in Hs. injection Hs as Hs Ht Hh. apply bool_decide_eq_true in Hh. exact (conj Hs (conj Ht Hh)).
Qed.
Lemma disposed_fiber :
  exists f, w_fibers disposed.2 !! 1%N = Some f /\ state (cells f) = Disposed /\ transition f = None.
Proof.
  destruct (w_fibers disposed.2 !! 1%N) as [f|] eqn:Hf; [|by vm_compute in Hf]. exists f. split; [reflexivity|].
  assert (Hs : (fun f => (state (cells f), transition f)) <$> w_fibers disposed.2 !! 1%N =
    Some (Disposed, None)) by (vm_compute; reflexivity).
  rewrite Hf in Hs. injection Hs as Hs Ht. exact (conj Hs Ht).
Qed.
Lemma fiber_lifecycle_witness :
  exists f, w_fibers loaded.2 !! 1%N = Some f /\ transition f = None /\
    resting (fiber_capability f) (requests f) (cells f).
Proof.
  destruct loaded_fiber as (f & Hf & _ & Ht & _). exists f. split; [exact Hf|]. split; [exact Ht|].
  destruct (fiber_lifecycle loaded.1 loaded.2 1%N f (loaded_reachable false) Hf) as [Hr _]. rewrite Ht in Hr. exact Hr.
Defined.
Lemma disposed_is_final_witness :
  exists f f', w_fibers disposed.2 !! 1%N = Some f /\ state (cells f) = Disposed /\
    w_fibers (cancel disposed.2 2%N) !! 1%N = Some f' /\ cells f' = cells f.
Proof.
  destruct disposed_fiber as (f & Hf & Hs & _).
  destruct (disposed_is_final true disposed.1 disposed.2 [] (cancel disposed.2 2%N) 1%N f (disposed_reachable true)
    (step_cancel true disposed.2 2%N eq_refl) Hf Hs) as (f' & Hf' & Hc & _).
  exists f, f'. exact (conj Hf (conj Hs (conj Hf' Hc))).
Defined.
Lemma effects_run_once_witness :
  registered disposed.1 1%N = [0%N; 1%N] /\ registered disposed.1 1%N ≡ₚ ran disposed.1 1%N.
Proof.
  split; [vm_compute; reflexivity|]. destruct disposed_fiber as (f & Hf & Hs & Ht).
  destruct (effects_run_once disposed.1 disposed.2 1%N f (disposed_reachable false) Hf) as (_ & _ & _ & Hall).
  apply Hall; [exact Ht|]. rewrite Hs. discriminate.
Defined.
Lemma fibers_keep_tree_witness :
  exists f h, w_fibers loaded.2 !! 1%N = Some f /\ handle (cells f) = Some h /\
    arena (tree (w_shared loaded.2)) !! entry_id h = Some h.
Proof.
  destruct loaded_fiber as (f & Hf & _ & _ & [h Hh]). exists f, h. split; [exact Hf|]. split; [exact Hh|].
  destruct (fibers_keep_tree true loaded.1 loaded.2 (loaded_reachable true)) as [_ Hall].
  exact (proj1 (Hall 1%N f Hf) h Hh).
Defined.
