(* ===== verification/FiberOwners.v ===== *)
(** * Every publication of a fiber has one owner *)
From S2P Require Export FiberTree.
#[local] Open Scope string_scope.
#[local] Open Scope nat_scope.
#[local] Open Scope list_scope.

(** A fiber publishes coherently or not at all, whoever has its lock. *)
Lemma at_pc_whole cap q p c : holding p = true -> at_pc cap q p c -> coherent cap c \/ handle c = None.
Proof.
  assert (Hi : idle cap c -> coherent cap c \/ handle c = None).
  { intros [_ [?|[? _]]]%idle_unload; auto. }
  assert (Hr : resting cap q c -> coherent cap c \/ handle c = None).
  { intros [_ [?|[? _]]]%resting_unload; auto. }
  unfold at_pc, in_load, vacant. destruct p; try done; tauto.
Qed.
Lemma cells_whole w id f :
  life_inv w -> w_fibers w !! id = Some f -> coherent (fiber_capability f) (cells f) \/ handle (cells f) = None.
Proof.
  intros L Hf. destruct (transition f) as [t|] eqn:Ht.
  - destruct (li_held _ L id f t Hf Ht) as (p & _ & Hh & Hat). by eapply at_pc_whole.
  - pose proof (li_free _ L id f Hf Ht) as Hr. apply resting_unload in Hr as [_ [?|[? _]]]; auto.
Qed.

(** The owner of a publication: a fiber, or a call that is about to commit it. *)
Inductive owner := OfFiber (id : FiberId) | OfTask (t : TaskId).
Definition owns (w : world) (x : owner) (e : EntryId) : Prop :=
  match x with
  | OfFiber id => exists f h, w_fibers w !! id = Some f /\ handle (cells f) = Some h /\ entry_id h = e
  | OfTask t => exists id load h, task_pc w t id (Committing load h) /\ entry_id h = e
  end.
Definition single_owner (w : world) : Prop := forall x y e, owns w x e -> owns w y e -> x = y.

(** What a step does to the publications of its fiber and its call. *)
Lemma provide_value_fresh rt s d snap v rt' h :
  provide_value rt s d snap v = (rt', Ok h) -> entry_id h = next_entry_id rt.
Proof.
  unfold provide_value, publish_preconstructed. destruct (foldM _ _ _); [|done..].
  destruct (prepare_publication _ _ _ _ _ _) as [e| | |] eqn:Hp; [|done..]. intros [= _ <-].
  unfold prepare_publication in Hp. apply bind_Ok in Hp as (? & _ & H).
  apply bind_Ok in H as ([] & _ & H). apply bind_Ok in H as ([] & _ & H). apply bind_Ok in H as ([] & _ & H).
  apply bind_Ok in H as (? & _ & H). apply bind_Ok in H as (? & _ & H). by apply bind_Ok in H as (? & _ & [= <-]).
Qed.
Lemma step_pc_owner t s f p a s' f' p' :
  step_pc t s f p a = Some (s', f', p') ->
  (forall load h, p' = Committing load h -> entry_id h = next_entry_id (tree s)) /\
  (forall h, handle (cells f') = Some h -> handle (cells f) = Some h \/ exists load, p = Committing load h).
Proof.
  intros Hs. destruct p; cbn [step_pc] in Hs.
  all: try (outcomes Hs; split; intros; try done; auto; fail).
  - unfold publishing in Hs. destruct (provide_value _ _ _ _ _) as [rt [h|e| |]] eqn:Hp; cbn [fst snd] in Hs; [| |done..].
    + injection Hs as <- <- <-. split; [|by left]. intros load0 h0 [= _ <-]. by eapply provide_value_fresh.
    + unfold begin_discard in Hs. destruct e; injection Hs as <- <- <-; (split; [done|by left]).
  - injection Hs as <- <- <-. split; [done|]. intros h0 [= <-]. right. by exists load.
  - destruct (release_handle s f detached es) as [[s1 f1] es1] eqn:Hr.
    apply release_handle_cells in Hr as (c & -> & _ & [Hh _] & _).
    assert (Hh' : handle (cells f') = None) by (outcomes Hs; exact Hh).
    split; [intros load h ->; outcomes Hs|]. intros h. by rewrite Hh'.
Qed.

(** ** Every world *)
Lemma owned_below w x e : life_inv w -> tree_inv w -> owns w x e -> (e < next_entry_id (tree (w_shared w)))%N.
Proof.
  intros L I. assert (Ha : forall h, published (tree (w_shared w)) h -> (entry_id h < next_entry_id (tree (w_shared w)))%N).
  { intros h Hh. by apply (si_arena _ (proj1 (ti_system _ I))) in Hh as [_ ?]. }
  destruct x as [id|t]; cbn.
  - intros (f & h & Hf & Hh & <-). apply Ha. by apply (ti_cells _ I id f Hf).
  - intros (id & load & h & Hp & <-). destruct (li_holds _ L t id _ Hp eq_refl) as (f & Hf & _).
    apply Ha. exact (proj2 (ti_pc _ I t id _ f Hp Hf)).
Qed.
Lemma single_owner_frame w w' :
  single_owner w -> (forall id f', w_fibers w' !! id = Some f' -> handle (cells f') = None \/
    exists f, w_fibers w !! id = Some f /\ cells f' = cells f) ->
  (forall t id p, task_pc w' t id p -> task_pc w t id p \/ exists o, p = Called o) -> single_owner w'.
Proof.
  intros S Hf Ht. assert (Ho : forall x e, owns w' x e -> owns w x e).
  { intros [id|t] e; cbn.
    - intros (f' & h & Hid & Hh & <-). destruct (Hf id f' Hid) as [Hn|(f & Hid' & Hc)]; [congruence|].
      exists f, h. by rewrite <- Hc.
    - intros (id & load & h & [Hp|[o Ho]]%Ht & <-); [|done]. by exists id, load, h. }
  intros x y e Hx%Ho Hy%Ho. by eapply S.
Qed.
Lemma single_owner_advance w t a id p w' d :
  life_inv w -> tree_inv w -> single_owner w -> task_pc w t id p -> advance w t a = Some (w', d) -> single_owner w'.
Proof.
  intros L I S (k & Hk & Hp) Ha. unfold advance in Ha. rewrite Hk in Ha. cbn [mbind option_bind] in Ha.
  rewrite Hp in Ha. cbn [mbind option_bind fst snd] in Ha.
  destruct (w_fibers w !! id) as [f|] eqn:Hf; [|done]. cbn [mbind option_bind] in Ha.
  destruct (step_pc t (w_shared w) f p a) as [[[s f'] p']|] eqn:Hs; [|done]. injection Ha as <- _.
  apply step_pc_owner in Hs as [Hnew Hold]. set (w' := {| w_shared := s |}).
  assert (Horigin : forall x e, owns w' x e -> (x = OfTask t /\ e = next_entry_id (tree (w_shared w))) \/
    exists x0, owns w x0 e /\ (x0 = x /\ x <> OfTask t \/ x0 = OfTask t /\ x = OfFiber id)).
  { intros [id'|t'] e; cbn [owns w' w_fibers].
    - intros (f1 & h & [[<- <-]|[Hne Hf1]]%lookup_insert_Some & Hh & <-); right.
      + destruct (Hold h Hh) as [Hh0|[load ->]]; [exists (OfFiber id)|exists (OfTask t)].
        * split; [by exists f, h|]. left. by split.
        * split; [|by right]. exists id, load, h. split; [by exists k|done].
      + exists (OfFiber id'). split; [by exists f1, h|]. left. by split.
    - intros (id' & load & h & (k' & Hk' & Hq) & <-). cbn [w_tasks w'] in Hk'.
      apply lookup_insert_Some in Hk' as [[<- <-]|[Hne Hk']].
      + rewrite (retask_at _ _ _ _ Hp) in Hq. injection Hq as _ Hq. left. split; [done|]. by eapply Hnew.
      + right. exists (OfTask t'). split; [exists id', load, h; split; [by exists k'|done]|]. left. split; [done|]. congruence. }
  clearbody w'. intros x y e [[-> ->]|(x0 & Hx0 & Hx)]%Horigin [[-> Hy]|(y0 & Hy0 & Hy)]%Horigin.
  - done.
  - apply (owned_below _ _ _ L I) in Hy0. lia.
  - subst e. apply (owned_below _ _ _ L I) in Hx0. lia.
  - assert (x0 = y0) as -> by by eapply S. destruct Hx as [[-> ?]|[-> ->]], Hy as [[-> ?]|[? ->]]; congruence.
Qed.
Lemma step_single_owner w es w' :
  fiber_step false w es w' -> life_inv w -> tree_inv w -> single_owner w -> single_owner w'.
Proof.
  intros Hstep L I S.
  assert (Hsame : forall w0, w_fibers w0 = w_fibers w ->
    (forall t id p, task_pc w0 t id p -> task_pc w t id p \/ exists o, p = Called o) -> single_owner w0).
  { intros w0 E. apply single_owner_frame; [done|]. intros id f. rewrite E. intros Hf. right. by exists f. }
  destruct Hstep as [w rt l _|w r w' Hr|w id|w id cx cfg refusal w' i Hi|w t id o Ht Hf|
    w t runtime Ht|w t w' Hs|w t a k id p w' d Hk Hp Ha|w t Hc|w f Hf|w f l s Hf He|w id e l t Hh He|
    w id e l t cs Hh He].
  - apply Hsame; [done|by left].
  - unfold register_runtime in Hr. destruct (w_registry w !! _); [done|]. injection Hr as <-. apply Hsame; [done|by left].
  - apply Hsame; [done|by left].
  - unfold instantiate in Hi. apply bind_Ok in Hi as (r & _ & Hi).
    destruct (create_fiber w r cx cfg refusal) as [[w1 i1]| | |] eqn:Hc; [|done..]. injection Hi as -> ->.
    unfold create_fiber in Hc. destruct refusal; [done|]. apply bind_Ok in Hc as (n & _ & [= <- <-]).
    apply (single_owner_frame w); [done| |by left]. cbn.
    intros id' f' [[<- <-]|[_ Hf]]%lookup_insert_Some; [by left|right; by exists f'].
  - apply Hsame; [done|]. eapply called_tasks; [done|]. intros id' p [= <- <-]. by eexists.
  - destruct (sweep_on_shape w t runtime (set_iter (default ∅ (plugin_fibers (w_shared w) !! runtime))) []) as (_ & ? & ?).
    by apply Hsame.
  - unfold sweep_next in Hs. destruct (w_tasks w !! t) as [[|runtime f p rest es|]|]; try done.
    destruct p; try done. injection Hs as <-.
    match goal with |- single_owner (sweep_on _ _ _ _ ?e) =>
      destruct (sweep_on_shape w t runtime rest e) as (_ & ? & ?) end. by apply Hsame.
  - eapply single_owner_advance; [done|done|done|by exists k|done].
  - done.
  - apply (single_owner_frame w); [done| |by left]. cbn.
    intros id f' [[<- <-]|[_ Hf']]%lookup_insert_Some; right; [by exists f|by exists f'].
  - apply Hsame; [done|by left].
  - apply Hsame; [done|by left].
  - apply Hsame; [done|by left].
Qed.
Lemma reachable_single_owner tr w : fiber_reachable false tr w -> single_owner w.
Proof.
  induction 1 as [|tr w es w' Hr IH Hstep].
  - intros [id|t] y e; cbn; [intros (f & h & Hf & _); done|]. by intros (id & load & h & (k & Hk & _) & _).
  - eapply step_single_owner; [done|by eapply reachable_life|by eapply reachable_tree|done].
Qed.
