(* ===== verification/FiberLiveness.v ===== *)
(** * Every call returns

    A call that runs alone, against a host that answers, returns: disposals
    empty their frames, a reload unloads at most once, and a load that nothing
    disturbs is not stale. *)
From S2P Require Export Admission FiberEffects FiberSafety.
#[local] Open Scope string_scope.
#[local] Open Scope nat_scope.
#[local] Open Scope list_scope.

(** ** A load that nothing disturbs *)
Definition undisturbed {A} (r : result ScopeError A) : Prop :=
  returns r /\ forall c d, r <> Err (DependencyChanged c d).
Lemma undisturbed_bind {A B} (r : result ScopeError A) (f : A -> result ScopeError B) :
  undisturbed r -> (forall a, r = Ok a -> undisturbed (f a)) -> undisturbed (r ≫= f).
Proof. intros [Hr Hn] Hf. destruct r as [a|e| |]; [by apply Hf| |done..]. split; [done|]. intros c d [= ->]. by apply (Hn c d). Qed.
Lemma undisturbed_candidate g d : undisturbed (map_err ScopeError_from (validate_candidate g d)).
Proof.
  split; [apply validate_candidate_returns|]. intros c d' H.
  destruct (validate_candidate g d) as [?|e| |]; try discriminate H. destruct e; discriminate H.
Qed.
Lemma undisturbed_descendants rt s d xs : undisturbed (validate_descendants rt s d xs).
Proof.
  induction xs as [|x xs IH]; [done|]. cbn [validate_descendants]. destruct (_ || _); [done|].
  apply undisturbed_bind; [apply undisturbed_candidate|done].
Qed.
Lemma undisturbed_expectation rt s c x es : undisturbed (check_expectation_locked rt s c x es).
Proof.
  unfold check_expectation_locked. destruct (is_open rt s); cbn; [|done].
  destruct x, (es !! c); try done. by destruct (negb _).
Qed.
Lemma prepare_undisturbed rt s d snap v :
  resolve_dependencies rt s d = Ok snap -> (next_entry_id rt < u64_max)%N ->
  undisturbed (prepare_publication rt s d New snap v).
Proof.
  intros Hr Hn. unfold prepare_publication. rewrite Hr. cbn [mbind result_bind].
  pose proof (resolve_dependencies_spec rt s d) as Hs. rewrite Hr in Hs. destruct Hs as [Hdom _].
  rewrite (proj2 (foldM_checks _ _)).
  2:{ intros y Hy%elem_of_set_iter. apply check_current_Ok.
      destruct (in_domain _ _ _ Hdom Hy) as [h Hh]. by exists h, h. }
  cbn [mbind result_bind]. apply undisturbed_bind; [apply undisturbed_descendants|]. intros _ _. cbv zeta.
  apply undisturbed_bind; [apply undisturbed_expectation|]. intros _ _.
  apply undisturbed_bind; [apply undisturbed_candidate|]. intros _ _. cbn [mbind result_bind].
  rewrite (proj2 (checked_succ_Some (next_entry_id rt) _) (conj Hn eq_refl)). done.
Qed.
Lemma publish_undisturbed rt s d snap v :
  undisturbed (prepare_publication rt s d New snap v) -> undisturbed (publish_preconstructed rt s d New snap v).2.
Proof.
  unfold publish_preconstructed. intros [Hr Hn]. destruct (prepare_publication _ _ _ _ _ _) as [e|e| |]; [done| |done..].
  exact (conj I Hn).
Qed.
(** What a context resolves, its scope resolves too. *)
Lemma context_resolves rt c d snap :
  scope_inv rt -> chained c -> is_open rt (scope_of c) = true ->
  context_dependencies rt c d = Ok snap -> resolve_dependencies rt (scope_of c) d = Ok snap.
Proof.
  intros I Hc Ho Hd. pose proof (context_dependencies_spec rt c d) as Hs. rewrite Hd in Hs. destruct Hs as [Hdom Hs].
  pose proof (resolve_dependencies_spec rt (scope_of c) d) as Hr.
  destruct (resolve_dependencies rt (scope_of c) d) as [snap'|e| |]; try done.
  - destruct Hr as [Hdom' Hr]. f_equal. apply map_eq. intros k. destruct (snap !! k) as [h|] eqn:Hk.
    + apply Hr. apply Hs in Hk as [Hin Hk]. split; [done|]. by apply context_get_scope.
    + apply (not_in_domain snap' _ k Hdom'). rewrite <- Hdom. by apply not_elem_of_dom.
  - destruct Hr as (k & -> & Hin & Hk). rewrite <- Hdom in Hin. apply elem_of_dom in Hin as [h Hh].
    apply Hs in Hh as [_ Hh]. apply context_get_scope in Hh; [congruence|done..].
Qed.
Lemma provide_undisturbed rt c d snap v :
  scope_inv rt -> chained c -> (next_entry_id rt < u64_max)%N ->
  context_dependencies rt c d = Ok snap -> undisturbed (provide_value rt (scope_of c) d snap v).2.
Proof.
  intros I Hc Hn Hd. pose proof (context_dependencies_spec rt c d) as Hs. rewrite Hd in Hs. destruct Hs as [Hdom Hs].
  unfold provide_value. destruct (is_open rt (scope_of c)) eqn:Ho.
  - pose proof (context_resolves rt c d snap I Hc Ho Hd) as Hr.
    rewrite (proj2 (foldM_checks _ _)).
    2:{ intros k Hk%elem_of_set_iter. unfold check_snapshot.
        destruct (in_domain _ _ _ Hdom Hk) as [h Hh]. rewrite Hh. cbn [expect mbind result_bind].
        apply Hs in Hh as [_ Hh]. rewrite (context_get_scope rt c k h I Hc Ho Hh). cbn. by rewrite !N.eqb_refl. }
    by apply publish_undisturbed, prepare_undisturbed.
  - assert (Hg : forall k, get rt (scope_of c) k = None).
    { intros k. destruct (scope_of c) as [|n p]; [done|]. cbn. by rewrite Ho. }
    assert (Hl : forall l, (forall k, k ∈ l -> k ∈ def_dependencies d) -> match l with [] => True | k :: _ =>
      foldM (fun _ dep => check_snapshot rt (scope_of c) d snap dep) l tt = Err (MissingDependency (def_id d) k) end).
    { intros [|k l] Hl; [done|]. cbn [foldM].
      assert (Hk : check_snapshot rt (scope_of c) d snap k = Err (MissingDependency (def_id d) k)); [|by rewrite Hk].
      unfold check_snapshot. destruct (in_domain _ _ _ Hdom (Hl k ltac:(left))) as [h Hh]. rewrite Hh. cbn. by rewrite Hg. }
    specialize (Hl (set_iter (def_dependencies d)) ltac:(by intros k ?%elem_of_set_iter)).
    destruct (set_iter (def_dependencies d)) as [|k l] eqn:El; [|by rewrite Hl].
    cbn [foldM]. apply publish_undisturbed. unfold prepare_publication, resolve_dependencies. rewrite El. cbn [foldM mbind result_bind].
    apply undisturbed_bind; [apply undisturbed_descendants|]. intros _ _. cbv zeta.
    apply undisturbed_bind; [apply undisturbed_expectation|]. unfold check_expectation_locked. by rewrite Ho.
Qed.

(** ** Disposals get lighter *)
Definition scopes_weight (T : EffectScopes) : nat := length (flat (fun _ st => effects st) (stacks T)).
Fixpoint frames_weight (fs : list frame) : nat :=
  match fs with [] => 0 | f :: fs => 1 + 2 * length (todo f) + frames_weight fs end.
Definition disposal_weight (T : EffectScopes) (fs : list frame) : nat := 2 * scopes_weight T + frames_weight fs.
Lemma take_weight T s :
  scopes_weight (take_effects T s).1 + length (take_effects T s).2 = scopes_weight T.
Proof.
  unfold scopes_weight, take_effects, stack_of. cbn. destruct (stacks T !! s) as [st|] eqn:Hs; cbn.
  - pose proof (flat_insert (fun _ st => effects st) (stacks T) s {| effects := []; closed := true |} st Hs) as Hf.
    apply Permutation_length in Hf. rewrite !length_app in Hf. cbn in Hf. lia.
  - rewrite (flat_new (fun _ st => effects st) (stacks T) s _ Hs). cbn. lia.
Qed.
Lemma dispose_step_lighter T fs a T' fs' :
  dispose_step T fs a = Some (T', fs') -> disposal_weight T' fs' < disposal_weight T fs.
Proof.
  unfold dispose_step, disposal_weight. destruct fs as [|f rest]; [done|].
  destruct (last (todo f)) as [e|] eqn:Hl.
  - apply last_removelast in Hl. assert (Hlen : length (todo f) = S (length (removelast (todo f)))).
    { rewrite Hl at 1. rewrite length_app. cbn. lia. }
    destruct (disposer e) as [[d|s]|]; intros [= <- <-]; cbn [frames_weight todo record_outcome].
    + lia.
    + pose proof (take_weight T s) as Hw. unfold take_effects in Hw. cbn [fst snd take_effects todo] in *. lia.
    + lia.
  - destruct rest as [|parent rest]; [done|]. intros [= <- <-]. cbn [frames_weight todo record_outcome]. lia.
Qed.

Lemma release_handle_next s f d es s' f' es' :
  release_handle s f d es = (s', f', es') ->
  (scope_inv (tree s) -> scope_inv (tree s')) /\ next_entry_id (tree s') = next_entry_id (tree s).
Proof.
  unfold release_handle. intros Hr. set (x := match handle (cells f) with Some _ => _ | None => _ end) in Hr.
  assert (G : (scope_inv (tree s) -> scope_inv x.1) /\ next_entry_id x.1 = next_entry_id (tree s)).
  { unfold x. destruct (handle (cells f)) as [h|]; [|done]. destruct (was_detached d h); [done|].
    split; [intros I; by apply remove_local_tree|]. unfold remove_local, withdraw.
    destruct (negb _); [done|]. destruct (local_entries _ _ !! _); [|done]. destruct (negb _); [done|].
    apply set_entries_next. }
  destruct x as [rt [|e| |]]; injection Hr as <- <- <-; exact G.
Qed.

(** ** Calls that run alone *)
(** The host answers what it is asked. *)
Definition answers (p : pc) (a : answer) : Prop :=
  match p with
  | Called (Update _) => exists r, a = Validated r
  | Running _ _ => exists r, a = Produced r
  | Discarding _ _ fs | UnloadingEffects _ _ fs => is_Some (next_disposer fs) -> exists r, a = Disposal r
  | _ => True
  end.
Section alone.
Context (t : TaskId) (host : nat -> pc -> answer) (Q : shared -> CapabilityFiber -> returned -> Prop).
Hypothesis answering : forall n p, answers p (host n p).
(** The call returns, with [Q]. *)
Inductive ends : nat -> shared -> CapabilityFiber -> pc -> Prop :=
  | ends_returned n s f r : Q s f r -> ends n s f (Returned r)
  | ends_step n s f p s' f' p' :
      step_pc t s f p (host n p) = Some (s', f', p') -> ends (S n) s' f' p' -> ends n s f p.
Lemma ends_finish n s f p s1 f1 r :
  step_pc t s f p (host n p) = finish s1 f1 r -> Q s1 (with_transition f1 None) r -> ends n s f p.
Proof. intros Hs Hr. eapply ends_step; [exact Hs|]. by apply ends_returned. Qed.

(** A disposal is left with empty frames. *)
Lemma ends_disposing (mk : list frame -> pc) f s (fin : shared -> list EffectError -> progress) :
  (forall s fs a, step_pc t s f (mk fs) a = disposing s fs a (fun s fs => goto s f (mk fs)) (fin s)) ->
  (forall n fs, is_Some (next_disposer fs) -> exists r, host n (mk fs) = Disposal r) ->
  (forall n T es, exists s' f' p', fin (set_scopes T s) es = Some (s', f', p') /\ ends n s' f' p') ->
  forall n T fs, ends n (set_scopes T s) f (mk fs).
Proof.
  intros Hmk Hans Hfin n T fs. remember (disposal_weight T fs) as m eqn:Hm. revert n T fs Hm.
  induction (lt_wf m) as [m _ IH]. intros n T fs ->.
  assert (Hstep : exists a, step_pc t (set_scopes T s) f (mk fs) (host n (mk fs)) =
    match dispose_step T fs a with
    | Some (T', fs') => Some (set_scopes T' (set_scopes T s), f, mk fs')
    | None => fin (set_scopes T s) (disposal_errors fs)
    end).
  { rewrite Hmk. unfold disposing, goto. cbn [effect_scopes set_scopes]. destruct (next_disposer fs) as [d|] eqn:Hd.
    - destruct (Hans n fs) as [a ->]; [by eexists|]. by exists a.
    - by exists None. }
  destruct Hstep as [a Hstep]. destruct (dispose_step T fs a) as [[T' fs']|] eqn:Hds.
  - eapply ends_step; [exact Hstep|]. apply (IH (disposal_weight T' fs')); [by eapply dispose_step_lighter|done].
  - destruct (Hfin (S n) T (disposal_errors fs)) as (s' & f' & p' & Hf & He). rewrite Hf in Hstep. by eapply ends_step.
Qed.

(** *** Unloading *)
Lemma ends_unload s f d k :
  (forall n s1 c es, (scope_inv (tree s) -> scope_inv (tree s1)) ->
     next_entry_id (tree s1) = next_entry_id (tree s) -> state c = Pending -> vacant c ->
     (loading_binding (cells f) = None -> loading_binding c = None) ->
     exists s' f' p', after s1 (with_cells f c) k es = Some (s', f', p') /\ ends n s' f' p') ->
  forall n T fs, ends n (set_scopes T s) f (UnloadingEffects d k fs).
Proof.
  intros Hk. eapply (ends_disposing (UnloadingEffects d k) f s (fun s es => goto s f (Releasing d k es))); [done| |].
  - intros n fs Hd. by apply (answering n (UnloadingEffects d k fs)).
  - intros n T es. exists (set_scopes T s), f, (Releasing d k es). split; [done|].
    destruct (release_handle (set_scopes T s) f d es) as [[s1 f1] es1] eqn:Hr.
    pose proof (release_handle_next _ _ _ _ _ _ _ Hr) as [Hi Hn].
    apply release_handle_cells in Hr as Hc. destruct Hc as (c & -> & Hp & Hv & Hl).
    destruct (Hk (S n) s1 c es1 Hi Hn Hp Hv Hl) as (s' & f' & p' & Ha & He).
    eapply ends_step; [|exact He]. cbn [step_pc]. by rewrite Hr.
Qed.
(** *** Loading *)
Record ready (s : shared) (f : CapabilityFiber) : Prop := {
  rd_tree : scope_inv (tree s);
  rd_next : (next_entry_id (tree s) < u64_max)%N;
  rd_chain : chained (fiber_context f);
  rd_dispose : dispose_requested (requests f) = false;
  rd_force : force_reload (requests f) = false
}.
Hypothesis anything : forall s f r, Q s f r.
Lemma ends_discard s f force why :
  (forall n s1 es, exists s' f' p', after_discard s1 f force why es = Some (s', f', p') /\ ends n s' f' p') ->
  forall n T fs, ends n (set_scopes T s) f (Discarding force why fs).
Proof.
  intros Hk. eapply (ends_disposing (Discarding force why) f s (fun s es => after_discard s f force why es)); [done| |].
  - intros n fs Hd. by apply (answering n (Discarding force why fs)).
  - intros n T es. apply Hk.
Qed.
Lemma ends_failed s f force load why n :
  match why with Rejected _ | LoadFailed _ => True | _ => False end ->
  forall s' f' p', begin_discard s f force load why = Some (s', f', p') -> ends n s' f' p'.
Proof.
  intros Hw s' f' p' [= <- <- <-]. apply ends_discard. intros m s1 es.
  destruct why; try done; (eexists _, _, _; split; [reflexivity|]; by apply ends_returned).
Qed.
Lemma ends_pending n s f force :
  ready s f -> state (cells f) = Pending -> ends n s f (Resolving force).
Proof.
  intros R Hp. pose proof R as [I Hnext Hchain Hdis Hforce].
  pose proof (context_dependencies_spec (tree s) (fiber_context f) (fiber_capability f)) as Hspec.
  destruct (context_dependencies (tree s) (fiber_context f) (fiber_capability f)) as [deps|e| |] eqn:Hd; [| |done..].
  2:{ destruct Hspec as (k & -> & _). eapply ends_finish; [|apply anything]. cbn [step_pc]. unfold resolving. rewrite Hd, Hp. reflexivity. }
  eapply ends_step; [cbn [step_pc]; unfold resolving; rewrite Hd; reflexivity|].
  eapply ends_step; [cbn [step_pc]; unfold comparing; rewrite Hp, andb_false_r; reflexivity|].
  eapply ends_step; [cbn [step_pc]; rewrite Hdis; reflexivity|].
  eapply ends_step; [reflexivity|].
  match goal with |- ends _ ?s1 ?f1 (Running _ ?l) => set (s2 := s1); set (f2 := f1); set (load := l) end.
  destruct (answering (S (S (S (S n)))) (Running force load)) as [r Hr].
  eapply ends_step; [cbn [step_pc]; rewrite Hr; reflexivity|].
  eapply ends_step; [cbn [step_pc]; change (context_dependencies (tree s2) _ _) with
    (context_dependencies (tree s) (fiber_context f) (fiber_capability f)); rewrite Hd; reflexivity|].
  eapply ends_step; [cbn [step_pc]; change (requests f2) with (requests f); rewrite Hdis; reflexivity|].
  assert (Hstale : force_reload (requests f2) || bool_decide (Some (binding_of deps) <> Some (binding_of (load_dependencies load))) = false).
  { change (requests f2) with (requests f). rewrite Hforce. cbn [orb]. apply bool_decide_eq_false. intros Hne. by apply Hne. }
  destruct r as [reason|v].
  - eapply ends_step; [cbn [step_pc]; rewrite Hstale; reflexivity|].
    by eapply (ends_failed s2 f2 force load (LoadFailed reason)).
  - eapply ends_step; [cbn [step_pc]; rewrite Hstale; reflexivity|].
    pose proof (provide_undisturbed (tree s) (fiber_context f) (fiber_capability f) deps v I Hchain Hnext Hd) as [Hret Hun].
    destruct (provide_value (tree s) (scope_of (fiber_context f)) (fiber_capability f) deps v) as [rt [h|e| |]] eqn:Hpv;
      cbn [snd] in Hret, Hun; [| |done..].
    + eapply ends_step; [cbn [step_pc]; unfold publishing; change (provide_value (tree s2) _ _ _ _) with
        (provide_value (tree s) (scope_of (fiber_context f)) (fiber_capability f) deps v); rewrite Hpv; reflexivity|].
      eapply ends_finish; [reflexivity|apply anything].
    + assert (Hstep : forall a, step_pc t s2 f2 (Publishing force load v) a = begin_discard (set_tree rt s2) f2 force load (Rejected e)).
      { intros a. cbn [step_pc]. unfold publishing. change (provide_value (tree s2) _ _ _ _) with
          (provide_value (tree s) (scope_of (fiber_context f)) (fiber_capability f) deps v). rewrite Hpv. cbn [fst snd].
        destruct e; try done. by destruct (Hun capability dependency). }
      eapply ends_step; [rewrite Hstep; reflexivity|].
      by eapply (ends_failed (set_tree rt s2) f2 force load (Rejected e)).
Qed.
Lemma ends_reload s f force :
  ready s f -> forall n d s' f' p', begin_unload s f d (ToReload force) = Some (s', f', p') -> ends n s' f' p'.
Proof.
  intros R n d s' f' p' [= <- <- <-]. apply ends_unload. intros m s1 c es Hi Hn Hp _ _.
  eexists _, _, _. split; [reflexivity|]. pose proof R as [I Hnext Hchain Hdis Hforce].
  eapply ends_step; [cbn [step_pc requests with_cells]; rewrite Hdis; reflexivity|].
  apply ends_pending; [|exact Hp]. split; [by apply Hi|by rewrite Hn|done..].
Qed.
Lemma ends_quit s f k n :
  match k with ToReload _ => False | _ => True end ->
  forall d s' f' p', begin_unload s f d k = Some (s', f', p') -> ends n s' f' p'.
Proof.
  intros Hk d s' f' p' [= <- <- <-]. apply ends_unload. intros m s1 c es _ _ Hp _ _.
  destruct k; try done; (eexists _, _, _; split; [reflexivity|]; by apply ends_returned).
Qed.
Lemma ends_idle n s f force :
  ready s f -> idle (fiber_capability f) (cells f) -> ends n s f (Resolving force).
Proof.
  intros R Hi. assert (Hcases : state (cells f) = Pending \/ state (cells f) = Active \/ state (cells f) = Failed).
  { destruct Hi as [_ Hi]. destruct (state (cells f)); auto; done. }
  destruct Hcases as [Hp|Hs]; [by apply ends_pending|].
  pose proof (context_dependencies_spec (tree s) (fiber_context f) (fiber_capability f)) as Hspec.
  destruct (context_dependencies (tree s) (fiber_context f) (fiber_capability f)) as [deps|e| |] eqn:Hd; [| |done..].
  - eapply ends_step; [cbn [step_pc]; unfold resolving; rewrite Hd; reflexivity|].
    assert (Hstep : forall a, step_pc t s f (Comparing force deps) a = comparing s f force deps) by done.
    unfold comparing in Hstep. destruct (negb force && _ && _).
    + eapply ends_finish; [rewrite Hstep; reflexivity|apply anything].
    + destruct Hs as [Hs|Hs]; rewrite Hs in Hstep; (eapply ends_step; [rewrite Hstep; reflexivity|]);
        by eapply (ends_reload s f force R _ None).
  - destruct Hspec as (k & -> & _).
    assert (Hstep : forall a, step_pc t s f (Resolving force) a = resolving s f force) by done.
    unfold resolving in Hstep. rewrite Hd in Hstep. destruct (bool_decide (state (cells f) = Active)).
    + eapply ends_step; [rewrite Hstep; reflexivity|]. by eapply (ends_quit s f ToPending _ ltac:(done) None).
    + eapply ends_finish; [rewrite Hstep; reflexivity|apply anything].
Qed.
(** A fiber whose lock is free, among a tree that can take one more entry. *)
Record at_rest (s : shared) (f : CapabilityFiber) : Prop := {
  ar_tree : scope_inv (tree s);
  ar_next : (next_entry_id (tree s) < u64_max)%N;
  ar_chain : chained (fiber_context f);
  ar_rest : resting (fiber_capability f) (requests f) (cells f)
}.
Lemma ends_entering n s f force : at_rest s f -> ends n s f (Entering force).
Proof.
  intros [I Hnext Hchain Hrest].
  destruct (dispose_requested (requests f)) eqn:Hdis.
  { eapply ends_finish; [cbn [step_pc]; rewrite Hdis; reflexivity|apply anything]. }
  destruct (negb force && bool_decide (state (cells f) = Failed)) eqn:Hfail.
  { eapply ends_finish; [cbn [step_pc]; rewrite Hdis, Hfail; reflexivity|apply anything]. }
  eapply ends_step; [cbn [step_pc]; rewrite Hdis, Hfail; reflexivity|]. eapply ends_step; [reflexivity|].
  apply ends_idle; [by split|]. cbn [cells with_requests with_cells].
  destruct Hrest as [Hi|(_ & Hd & _)]; [|cbn in Hd; congruence].
  destruct (bool_decide (state (cells f) = Pending)); exact Hi.
Qed.
Lemma ends_waiting n s f o : at_rest s f -> transition f = None -> ends n s f (Waiting o).
Proof.
  intros R Ht. assert (Hstep : forall a, step_pc t s f (Waiting o) a = acquired s (with_transition f (Some t)) o).
  { intros a. cbn [step_pc]. by rewrite Ht. }
  assert (R' : at_rest s (with_transition f (Some t))) by (by destruct R; split).
  assert (Henter : forall force, acquired s (with_transition f (Some t)) o = goto s (with_transition f (Some t)) (Entering force) ->
    ends n s f (Waiting o)).
  { intros force Ha. eapply ends_step; [rewrite Hstep, Ha; reflexivity|]. by apply ends_entering. }
  assert (Hfin : forall r, acquired s (with_transition f (Some t)) o = finish s (with_transition f (Some t)) r -> ends n s f (Waiting o)).
  { intros r Ha. eapply ends_finish; [rewrite Hstep, Ha; reflexivity|apply anything]. }
  assert (Hquit : forall d k, match k with ToReload _ => False | _ => True end ->
    acquired s (with_transition f (Some t)) o = begin_unload s (with_transition f (Some t)) d k -> ends n s f (Waiting o)).
  { intros d k Hk Ha. eapply ends_step; [rewrite Hstep, Ha; reflexivity|]. by eapply (ends_quit s (with_transition f (Some t)) k _ Hk d). }
  unfold acquired in *. destruct o as [| |c| |d].
  - by apply (Henter false).
  - by apply (Henter true).
  - by apply (Henter false).
  - destruct (bool_decide _); [by eapply Hfin|by eapply (Hquit None ToDisposed)].
  - destruct (state (cells (with_transition f (Some t)))); first [by eapply Hfin|by eapply (Hquit d ToDeactivated)].
Qed.
(** Every call returns. *)
Lemma ends_called n s f o : at_rest s f -> transition f = None -> ends n s f (Called o).
Proof.
  assert (Hreq : forall s f q, at_rest s f -> requested_more (requests f) q -> at_rest s (with_requests f q)).
  { intros s0 f0 q [? ? ? Hr] Hq. split; [done..|]. by eapply resting_mono. }
  assert (Hrestart : forall n f, at_rest s f -> transition f = None -> ends n s f (Called Restart)).
  { intros m f0 R Ht. destruct (bool_decide (state (cells f0) = Disposed)) eqn:Hd.
    - eapply ends_step; [cbn [step_pc called]; rewrite Hd; reflexivity|]. apply ends_returned, anything.
    - eapply ends_step; [cbn [step_pc called]; rewrite Hd; reflexivity|].
      apply ends_waiting; [|done]. by apply Hreq; [|intros ?]. }
  intros R Ht. destruct o as [| |c| |d].
  - eapply ends_step; [reflexivity|]. by apply ends_waiting.
  - by apply Hrestart.
  - destruct (answering n (Called (Update c))) as [r Hr].
    destruct (bool_decide (state (cells f) = Disposed)) eqn:Hd.
    { eapply ends_step; [cbn [step_pc called]; rewrite Hd; reflexivity|]. apply ends_returned, anything. }
    destruct r as [reason|]; (eapply ends_step; [cbn [step_pc called]; rewrite Hd, Hr; reflexivity|]).
    + apply ends_returned, anything.
    + apply Hrestart; [|done]. by apply Hreq; [|intros ?].
  - eapply ends_step; [reflexivity|]. apply ends_waiting; [|done]. by apply Hreq; [|intros ?].
  - eapply ends_step; [reflexivity|]. apply ends_waiting; [|done]. by apply Hreq; [|intros ?].
Qed.
End alone.

(** *** A deactivated fiber *)
(** What a call for a withdrawal leaves. *)
Definition drained (f : CapabilityFiber) : Prop :=
  transition f = None /\ state (cells f) <> Active /\ handle (cells f) = None.
Section draining.
Context (t : TaskId) (host : nat -> pc -> answer).
Hypothesis answering : forall n p, answers p (host n p).
#[local] Abbreviation quiet := (fun (_ : shared) (f : CapabilityFiber) (r : returned) => drained f /\ exists x, r = Stable x).
Lemma ends_deactivate n s f d :
  resting (fiber_capability f) (requests f) (cells f) -> transition f = None ->
  ends t host quiet n s f (Called (Deactivate d)).
Proof.
  intros R Ht. set (f1 := with_transition (with_requests f (bump_epoch (requests f))) (Some t)).
  eapply ends_step; [reflexivity|].
  assert (Hstep : forall a, step_pc t s (with_requests f (bump_epoch (requests f))) (Waiting (Deactivate d)) a =
    acquired s f1 (Deactivate d)) by (intros a; cbn [step_pc transition with_requests]; by rewrite Ht).
  assert (Hfin : forall x, x <> Active -> acquired s f1 (Deactivate d) = finish s f1 (Stable x) -> state (cells f) = x ->
    handle (cells f) = None -> ends t host quiet (S n) s (with_requests f (bump_epoch (requests f))) (Waiting (Deactivate d))).
  { intros x Hx Ha Hs Hh. eapply ends_finish; [rewrite Hstep, Ha; reflexivity|]. split; [|by eexists].
    split_and!; [done| |done]. cbn. congruence. }
  assert (Hquit : acquired s f1 (Deactivate d) = begin_unload s f1 d ToDeactivated ->
    ends t host quiet (S n) s (with_requests f (bump_epoch (requests f))) (Waiting (Deactivate d))).
  { intros Ha. eapply ends_step; [rewrite Hstep, Ha; reflexivity|].
    apply ends_unload; [done|]. intros m s1 c es _ _ Hp [Hv _] _. eexists _, _, _. split; [reflexivity|].
    apply ends_returned. split; [|by eexists]. split_and!; [done| |done]. cbn. congruence. }
  unfold acquired in *. change (state (cells f1)) with (state (cells f)) in *.
  destruct R as [[_ Hi]|([Hs|Hs] & _ & [Hv _] & _)].
  - destruct (state (cells f)) eqn:Hs; try done; [apply (Hfin Pending); [done..|apply Hi]|by apply Hquit|by apply Hquit].
  - rewrite Hs in *. by apply (Hfin Disposed).
  - rewrite Hs in *. by apply (Hfin Loading).
Qed.
End draining.

(** ** Calls in a world *)
(** The task [t] advances, the host answering the [n]th question onwards. *)
Inductive advances (t : TaskId) (host : nat -> pc -> answer) : nat -> world -> list event -> nat -> world -> Prop :=
  | advances_done n w : advances t host n w [] n w
  | advances_step n w id p w1 d es m w2 :
      w_tasks w !! t = Some (OnFiber id p) -> advance w t (host n p) = Some (w1, d) ->
      advances t host (S n) w1 es m w2 ->
      advances t host n w ((Ran id <$> option_list d) ++ es) m w2.
Lemma advances_reachable c t host n w es m w' tr :
  advances t host n w es m w' -> fiber_reachable c tr w -> fiber_reachable c (tr ++ es) w'.
Proof.
  intros Ha. revert tr. induction Ha as [n w|n w id p w1 d es m w2 Ht Ha _ IH]; intros tr Hr; [by rewrite app_nil_r|].
  rewrite app_assoc. apply IH. eapply reach_step; [exact Hr|]. by eapply step_advance.
Qed.
(** A call on the fiber [id] by the task [t] touches no other fiber or task. *)
Record only_moved (t : TaskId) (id : FiberId) (w w' : world) : Prop := {
  om_fibers j : j <> id -> w_fibers w' !! j = w_fibers w !! j;
  om_tasks u : u <> t -> w_tasks w' !! u = w_tasks w !! u
}.
Lemma ends_world t host Q n s f p :
  ends t host Q n s f p -> forall w id,
  w_shared w = s -> w_tasks w !! t = Some (OnFiber id p) -> w_fibers w !! id = Some f ->
  exists es m w' f' r, advances t host n w es m w' /\ only_moved t id w w' /\
    Forall (fun e => exists d, e = Ran id d) es /\
    w_tasks w' !! t = Some (OnFiber id (Returned r)) /\ w_fibers w' !! id = Some f' /\ Q (w_shared w') f' r.
Proof.
  induction 1 as [n s f r Hq|n s f p s1 f1 p1 Hstep _ IH]; intros w id <- Ht Hf.
  { exists [], n, w, f, r. split_and!; [apply advances_done|by split|constructor|done..]. }
  assert (Ha : exists w1, advance w t (host n p) = Some (w1, disposer_of p) /\ w_shared w1 = s1 /\
    w_tasks w1 = <[t := OnFiber id p1]> (w_tasks w) /\ w_fibers w1 = <[id := f1]> (w_fibers w)).
  { unfold advance. rewrite Ht. cbn [mbind option_bind task_at fst snd]. rewrite Hf. cbn [mbind option_bind].
    rewrite Hstep. cbn [mbind option_bind]. eexists. by split_and!. }
  destruct Ha as (w1 & Ha & Hs1 & Ht1 & Hf1).
  destruct (IH w1 id Hs1) as (es & m & w' & f' & r & Hadv & [Hof Hot] & Hes & Hret & Hf' & Hq);
    [by rewrite Ht1, lookup_insert_eq|by rewrite Hf1, lookup_insert_eq|].
  exists ((Ran id <$> option_list (disposer_of p)) ++ es), m, w', f', r. split_and!; [by eapply advances_step| | |done..].
  - split; intros j Hj; [rewrite Hof, Hf1|rewrite Hot, Ht1]; by rewrite ?lookup_insert_ne.
  - apply Forall_app. split; [|done]. apply Forall_fmap. destruct (disposer_of p); cbn; repeat constructor; by eexists.
Qed.
(** A call that has returned has dropped its guard. *)
Lemma returned_unlocked t id w w' f f' r :
  life_inv w -> life_inv w' -> only_moved t id w w' ->
  w_fibers w !! id = Some f -> transition f = None ->
  w_tasks w' !! t = Some (OnFiber id (Returned r)) -> w_fibers w' !! id = Some f' -> transition f' = None.
Proof.
  intros L L' [_ Hot] Hf Htr Ht Hf'. destruct (transition f') as [u|] eqn:Hu; [|done].
  destruct (li_held w' L' id f' u Hf' Hu) as (p & Hp & Hh & _). destruct (decide (u = t)) as [->|Hne].
  - destruct Hp as (k & Hk & Hp). rewrite Ht in Hk. injection Hk as <-. by injection Hp as <-.
  - destruct Hp as (k & Hk & Hp). rewrite Hot in Hk by done.
    destruct (li_holds w L u id p) as (g & Hg & Htg); [by exists k|done|congruence].
Qed.
(** [call_alone] runs a call until it returns. *)
Fixpoint call_alone (t : TaskId) (host : nat -> pc -> answer) (fuel n : nat) (w : world) : option (world * returned) :=
  match w_tasks w !! t with
  | Some (OnFiber _ (Returned r)) => Some (w, r)
  | Some (OnFiber _ p) =>
      match fuel with
      | 0 => None
      | S fuel => x ← advance w t (host n p); call_alone t host fuel (S n) x.1
      end
  | _ => None
  end.
Lemma advance_running w t a id r : w_tasks w !! t = Some (OnFiber id (Returned r)) -> advance w t a = None.
Proof. intros Ht. unfold advance. rewrite Ht. cbn. by destruct (w_fibers w !! id). Qed.
Lemma advances_call_alone t host n w es m w' id r :
  advances t host n w es m w' -> w_tasks w' !! t = Some (OnFiber id (Returned r)) ->
  exists fuel, call_alone t host fuel n w = Some (w', r).
Proof.
  induction 1 as [n w|n w id1 p w1 d es m w2 Ht Ha _ IH]; intros Hr; [exists 0; cbn; by rewrite Hr|].
  destruct (IH Hr) as [fuel Hf]. exists (S fuel). cbn [call_alone]. rewrite Ht.
  destruct p; try (rewrite Ha; exact Hf). by erewrite advance_running in Ha.
Qed.
Lemma call_ends tr w id f t host o Q n :
  fiber_reachable false tr w -> w_fibers w !! id = Some f -> transition f = None -> w_tasks w !! t = None ->
  ends t host Q n (w_shared w) f (Called o) ->
  exists es m w' f' r, advances t host n (call w t id o) es m w' /\ fiber_reachable false (tr ++ es) w' /\
    Forall (fun e => exists d, e = Ran id d) es /\ only_moved t id w w' /\
    w_tasks w' !! t = Some (OnFiber id (Returned r)) /\ w_fibers w' !! id = Some f' /\ transition f' = None /\
    Q (w_shared w') f' r.
Proof.
  intros Hr Hf Htr Ht He.
  assert (Hrc : fiber_reachable false (tr ++ []) (call w t id o)) by (eapply reach_step; [exact Hr|by apply step_call]).
  rewrite app_nil_r in Hrc.
  destruct (ends_world t host Q n _ _ _ He (call w t id o) id) as (es & m & w' & f' & r & Ha & Hm & Hes & Hret & Hf' & Hq);
    [done|apply lookup_insert_eq|done|]. 
  assert (Hr' := advances_reachable false _ _ _ _ _ _ _ _ Ha Hrc).
  exists es, m, w', f', r. split_and!; [done|done|done| |done|done| |done].
  - destruct Hm as [Hof Hot]. split; [done|]. intros u Hu. rewrite Hot by done. by apply lookup_insert_ne.
  - eapply (returned_unlocked t id (call w t id o) w' f); [by eapply reachable_life..|done|done|done|done|done].
Qed.

(** C9: a call on a fiber whose lock is free returns when it runs alone.  Whatever
    led to the world, short of a dropped call, and whichever operation it is: if
    the host answers what it is asked, whatever it answers, the call asks for the
    lock, unloads, loads, publishes or gives up in finitely many steps, and when
    it has returned the lock is free again and no other fiber has moved.  The
    context of the fiber must be one that derivation builds ([chained]), and the
    tree must have an entry identity left. *)
Theorem call_returns tr w id f t host o :
  fiber_reachable false tr w -> w_fibers w !! id = Some f -> transition f = None -> w_tasks w !! t = None ->
  chained (fiber_context f) -> (next_entry_id (tree (w_shared w)) < u64_max)%N ->
  (forall n p, answers p (host n p)) ->
  exists fuel w' r f', call_alone t host fuel 0 (call w t id o) = Some (w', r) /\
    w_fibers w' !! id = Some f' /\ transition f' = None /\ forall j, j <> id -> w_fibers w' !! j = w_fibers w !! j.
Proof.
  intros Hr Hf Htr Ht Hchain Hnext Hhost.
  destruct (call_ends tr w id f t host o (fun _ _ _ => True) 0 Hr Hf Htr Ht)
    as (es & m & w' & f' & r & Ha & _ & _ & [Hof _] & Hret & Hf' & Htr' & _).
  { apply ends_called; [done|done| |done]. split; [|done|done|].
    - apply (ti_system _ (reachable_tree _ _ _ Hr)).
    - by apply (li_free _ (reachable_life _ _ Hr) id f). }
  destruct (advances_call_alone _ _ _ _ _ _ _ _ _ Ha Hret) as [fuel Hfuel]. by exists fuel, w', r, f'.
Qed.

(** A host that accepts every configuration, builds every value and disposes of
    every effect. *)
Definition obliging (n : nat) (p : pc) : answer :=
  match p with
  | Called _ => Validated None
  | Running _ _ => Produced (inr 7%N)
  | _ => Disposal None
  end.
Lemma obliging_answers n p : answers p (obliging n p).
Proof. destruct p as [o| | | | | | | | | | | | | | | | | | |]; try exact I; try (by eexists). destruct o; try exact I. by eexists. Qed.
Lemma call_returns_witness :
  exists fuel w' r f', call_alone 5%N obliging fuel 0 (call loaded.2 5%N 1%N Restart) = Some (w', r) /\
    w_fibers w' !! 1%N = Some f' /\ transition f' = None.
Proof.
  destruct loaded_fiber as (f & Hf & _ & Ht & _).
  assert (Hc : fiber_context <$> w_fibers loaded.2 !! 1%N = Some (from_scope [0])) by (vm_compute; reflexivity).
  rewrite Hf in Hc. injection Hc as Hc.
  destruct (call_returns loaded.1 loaded.2 1%N f 5%N obliging Restart (loaded_reachable false) Hf Ht)
    as (fuel & w' & r & f' & Hrun & Hf' & Ht' & _).
  - vm_compute. reflexivity.
  - rewrite Hc. exact (chained_from_scope [0]).
  - vm_compute. reflexivity.
  - exact obliging_answers.
  - exists fuel, w', r, f'. exact (conj Hrun (conj Hf' Ht')).
Defined.
