(* ===== verification/Reactive.v ===== *)
(** * The reactive runtime: [crates/capability-graph/src/reactive.rs]

    A coordinator watches fibers.  [reconcile] drives every fiber whose binding
    is no longer the current one, until none is left; a withdrawal drains the
    fibers that depend on the retired publication, dependents first.  A
    coordinator calls one fiber at a time and waits for it; its own progress is
    a [coordinator], one step of which runs between other steps of the world.
    A plan reads the cells of the fibers in one step. *)
From S2P Require Export Fiber.
#[local] Open Scope string_scope.
#[local] Open Scope nat_scope.
#[local] Open Scope list_scope.

(** ** Reports and errors *)
Record FiberReconcileError := { failed_fiber : FiberId; fiber_error : FiberError }.
Record FiberCleanupFailure := { unclean_fiber : FiberId; cleanup_failures : list EffectError }.
Record ReconcileReport := {
  driven : list FiberId;
  report_errors : list FiberReconcileError;
  report_cleanup : list FiberCleanupFailure;
  provider_finalized : bool
}.
Definition ReconcileReport_default : ReconcileReport :=
  {| driven := []; report_errors := []; report_cleanup := []; provider_finalized := false |}.
Definition is_success (r : ReconcileReport) : bool :=
  match report_errors r, report_cleanup r with [], [] => true | _, _ => false end.
Inductive ReactiveRuntimeError :=
  | ReactiveScope (e : ScopeError)
  | ReactiveRegistry (e : RegistryError)
  | DuplicateFiber (id : FiberId).
Definition ReactiveRuntimeError_display (e : ReactiveRuntimeError) : string :=
  match e with
  | ReactiveScope e => "reactive scope error: " +:+ ScopeError_display e
  | ReactiveRegistry e => "reactive registry error: " +:+ RegistryError_display e
  | DuplicateFiber id => "fiber FiberId(" +:+ pretty (id : N) +:+ ") is already watched"
  end.

(** ** The coordinator's fibers

    [live] are the fibers that someone still holds, whose weak references
    upgrade. *)
Record ReactiveRuntime := { reactive_context : CapabilityContext; watched : gset FiberId }.
Definition ReactiveRuntime_new (c : CapabilityContext) : ReactiveRuntime :=
  {| reactive_context := c; watched := ∅ |}.
Definition reactive_scope (r : ReactiveRuntime) : ScopeId := scope_of (reactive_context r).
Definition watch (live : gset FiberId) (r : ReactiveRuntime) (id : FiberId) :
  result ReactiveRuntimeError ReactiveRuntime :=
  if bool_decide (id ∈ watched r /\ id ∈ live) then Err (DuplicateFiber id)
  else Ok {| reactive_context := reactive_context r; watched := {[id]} ∪ watched r |}.
Definition reactive_instantiate (live : gset FiberId) (r : ReactiveRuntime) (w : world) (plugin : CapabilityId)
  (cfg : PluginConfig) (refusal : option string) :
  result ReactiveRuntimeError (ReactiveRuntime * world * FiberId) :=
  p ← map_err ReactiveRegistry (instantiate w plugin (reactive_context r) cfg refusal);
  r ← watch ({[p.2]} ∪ live) r p.2; Ok (r, p.1, p.2).
Definition reactive_provide (r : ReactiveRuntime) (rt : Runtime) (d : CapabilityDefinition)
  (construct : gmap CapabilityId CapabilityEntry -> string + CapabilityValue) :
  Runtime * result ScopeError CapabilityEntry := provide rt (reactive_scope r) d construct.
Definition reactive_replace (r : ReactiveRuntime) (rt : Runtime) (d : CapabilityDefinition) (expected : Generation)
  (construct : gmap CapabilityId CapabilityEntry -> string + CapabilityValue) :
  Runtime * result ScopeError CapabilityEntry := replace rt (reactive_scope r) d expected construct.
Definition snapshot_fibers (live : gset FiberId) (r : ReactiveRuntime) : ReactiveRuntime * list FiberId :=
  let kept := watched r ∩ live in
  ({| reactive_context := reactive_context r; watched := kept |}, set_iter kept).

(** ** Who depends on a publication *)
Record ProviderIdentity := {
  identity_capability : CapabilityId;
  identity_generation : Generation;
  identity_entry : EntryId
}.
#[export] Instance ProviderIdentity_eq_dec : EqDecision ProviderIdentity.
Proof. unfold EqDecision, Generation, EntryId. solve_decision. Defined.
#[export] Instance ProviderIdentity_countable : Countable ProviderIdentity.
Proof.
  apply (inj_countable' (fun i => (identity_capability i, (identity_generation i : N), (identity_entry i : N)))
    (fun x => {| identity_capability := x.1.1; identity_generation := x.1.2; identity_entry := x.2 |})).
  by intros [].
Defined.
Definition identity_of_handle (h : CapabilityEntry) : ProviderIdentity :=
  {| identity_capability := handle_id h; identity_generation := generation h; identity_entry := entry_id h |}.
Definition identity_of_pin (c : CapabilityId) (p : DependencyPin) : ProviderIdentity :=
  {| identity_capability := c; identity_generation := pin_generation p; identity_entry := pin_entry p |}.
(** The cells of the watched fibers, in the order of their names. *)
Abbreviation reading := (list (FiberId * FiberCells)).
Definition provider_identities (fs : reading) : gmap ProviderIdentity FiberId :=
  foldl (fun m x => match handle x.2 with Some h => <[identity_of_handle h := x.1]> m | None => m end) ∅ fs.
(** The free function [dependency_binding] of the coordinator. *)
Definition current_binding (c : FiberCells) : option DependencyBinding :=
  match dependency_binding c with Some b => Some b | None => loading_binding c end.
Definition binding_contains (b : DependencyBinding) (target : ProviderIdentity) : bool :=
  existsb (fun p => bool_decide (identity_of_pin p.1 p.2 = target)) (binding_iter b).
(** The first loop of [withdrawal_closure]. *)
Definition affected_directly (target : ProviderIdentity) (c : FiberCells) : bool :=
  match handle c with Some h => bool_decide (identity_of_handle h = target) | None => false end
  || match current_binding c with Some b => binding_contains b target | None => false end.
Definition closure_seed (fs : reading) (target : ProviderIdentity) : gset FiberId :=
  foldl (fun s x => if affected_directly target x.2 then {[x.1]} ∪ s else s) ∅ fs.
Definition depends_on_affected (identities : gmap ProviderIdentity FiberId) (affected : gset FiberId)
  (b : DependencyBinding) : bool :=
  existsb (fun p => match identities !! identity_of_pin p.1 p.2 with
                    | Some provider => bool_decide (provider ∈ affected)
                    | None => false
                    end) (binding_iter b).
(** One round over the fibers, and whether it found any. *)
Definition closure_visit (identities : gmap ProviderIdentity FiberId) (s : gset FiberId * bool)
  (x : FiberId * FiberCells) : gset FiberId * bool :=
  if bool_decide (x.1 ∈ s.1) then s
  else match current_binding x.2 with
  | None => s
  | Some b => if depends_on_affected identities s.1 b then ({[x.1]} ∪ s.1, true) else s
  end.
Fixpoint closure_loop (fuel : nat) (fs : reading) (identities : gmap ProviderIdentity FiberId)
  (affected : gset FiberId) : result Empty_set (gset FiberId) :=
  match fuel with
  | 0 => NoFuel
  | S fuel =>
      let p := foldl (closure_visit identities) (affected, false) fs in
      if p.2 then closure_loop fuel fs identities p.1 else Ok p.1
  end.
(** Every round but the last finds a fiber. *)
Definition closure_rounds (fs : reading) : nat := S (length fs).
Definition withdrawal_closure (fs : reading) (retired : CapabilityEntry)
  (identities : gmap ProviderIdentity FiberId) : result Empty_set (gset FiberId) :=
  closure_loop (closure_rounds fs) fs identities (closure_seed fs (identity_of_handle retired)).

(** ** In which order they are drained *)
Definition affected_bindings (fs : reading) (affected : gset FiberId) : gmap FiberId DependencyBinding :=
  foldl (fun m x =>
    if bool_decide (x.1 ∈ affected)
    then match current_binding x.2 with Some b => <[x.1 := b]> m | None => m end
    else m) ∅ fs.
(** The affected providers that a fiber pins. *)
Definition pinned_providers (identities : gmap ProviderIdentity FiberId) (affected : gset FiberId)
  (id : FiberId) (b : DependencyBinding) : list FiberId :=
  filter (fun provider => provider ∈ affected /\ provider <> id)
    (omap (fun p => identities !! identity_of_pin p.1 p.2) (binding_iter b)).
(** [visiting] is restored when a call returns, so it is passed down. *)
Fixpoint dependency_depth (fuel : nat) (id : FiberId) (bindings : gmap FiberId DependencyBinding)
  (affected : gset FiberId) (identities : gmap ProviderIdentity FiberId) (visiting : gset FiberId) :
  result Empty_set nat :=
  match fuel with
  | 0 => NoFuel
  | S fuel =>
      if bool_decide (id ∈ visiting) then Ok 0
      else match bindings !! id with
      | None => Ok 0
      | Some b =>
          foldM (fun deepest provider =>
            d ← dependency_depth fuel provider bindings affected identities ({[id]} ∪ visiting);
            Ok (Nat.max deepest (1 + d))) (pinned_providers identities affected id b) 0
      end
  end.
(** Every nested call but the last visits a new affected fiber. *)
Definition depth_fuel (affected : gset FiberId) : nat := 2 + size affected.
Definition deeper (x y : nat * FiberId) : Prop :=
  y.1 < x.1 \/ x.1 = y.1 /\ (x.2 <= y.2)%N.
#[export] Instance deeper_dec x y : Decision (deeper x y).
Proof. unfold deeper. apply _. Defined.
Definition withdrawal_order (fs : reading) (affected : gset FiberId)
  (identities : gmap ProviderIdentity FiberId) : result Empty_set (list FiberId) :=
  let bindings := affected_bindings fs affected in
  l ← foldM (fun l id =>
        d ← dependency_depth (depth_fuel affected) id bindings affected identities ∅;
        Ok (l ++ [(d, id)]))
      (filter (fun id => id ∈ fs.*1) (set_iter affected)) [];
  Ok (merge_sort deeper l).*2.
Definition withdrawal_plan (fs : reading) (retired : CapabilityEntry) : result Empty_set (list FiberId) :=
  let identities := provider_identities fs in
  affected ← withdrawal_closure fs retired identities;
  withdrawal_order fs affected identities.

(** ** Coordinated calls *)
Definition read_fibers (w : world) (ids : list FiberId) : reading :=
  omap (fun id => (fun f => (id, cells f)) <$> w_fibers w !! id) ids.
(** A coordinator between two of its steps. *)
Inductive coordinator :=
  (** [reconcile]: the fibers left of a round, and whether it drove any. *)
  | Round (queue : list FiberId) (drove : bool) (r : ReconcileReport)
  | Awaiting (t : TaskId) (id : FiberId) (queue : list FiberId) (r : ReconcileReport)
  (** [withdraw_and_reconcile]. *)
  | Asked (c : CapabilityId) (expected : Generation)
  | Withdrawing (c : CapabilityId) (expected : Generation)
  | Planning (retired : CapabilityEntry)
  | Draining (retired : CapabilityEntry) (queue : list FiberId) (r : ReconcileReport)
  | Quiescing (t : TaskId) (id : FiberId) (retired : CapabilityEntry) (queue : list FiberId) (r : ReconcileReport)
  | Finished (r : result ReactiveRuntimeError ReconcileReport).
(** The loop of [reconcile] starts with a fresh round. *)
Definition reconcile : coordinator := Round [] true ReconcileReport_default.
(** A provider is published and, unless that fails, a reconciliation starts, whose
    report is returned with the handle. *)
Definition then_reconcile (p : Runtime * result ScopeError CapabilityEntry) :
  Runtime * result ReactiveRuntimeError (CapabilityEntry * coordinator) :=
  (p.1, e ← map_err ReactiveScope p.2; Ok (e, reconcile)).
Definition provide_and_reconcile (r : ReactiveRuntime) (rt : Runtime) (d : CapabilityDefinition)
  (construct : gmap CapabilityId CapabilityEntry -> string + CapabilityValue) := then_reconcile (reactive_provide r rt d construct).
Definition replace_and_reconcile (r : ReactiveRuntime) (rt : Runtime) (d : CapabilityDefinition) (expected : Generation)
  (construct : gmap CapabilityId CapabilityEntry -> string + CapabilityValue) :=
  then_reconcile (reactive_replace r rt d expected construct).
Definition withdraw_and_reconcile (c : CapabilityId) (expected : Generation) : coordinator := Asked c expected.
Definition report_driven (id : FiberId) (r : ReconcileReport) : ReconcileReport :=
  {| driven := driven r ++ [id]; report_errors := report_errors r; report_cleanup := report_cleanup r;
     provider_finalized := provider_finalized r |}.
Definition report_error (id : FiberId) (x : returned) (r : ReconcileReport) : ReconcileReport :=
  match x with
  | Refused e => {| driven := driven r; report_errors := report_errors r ++ [{| failed_fiber := id; fiber_error := e |}];
                    report_cleanup := report_cleanup r; provider_finalized := provider_finalized r |}
  | _ => r
  end.
Definition append_cleanup_failure (w : world) (id : FiberId) (r : ReconcileReport) : ReconcileReport :=
  match w_fibers w !! id with
  | Some f =>
      match last_cleanup_errors (cells f) with
      | [] => r
      | es => {| driven := driven r; report_errors := report_errors r;
                 report_cleanup := report_cleanup r ++ [{| unclean_fiber := id; cleanup_failures := es |}];
                 provider_finalized := provider_finalized r |}
      end
  | None => r
  end.
Definition finalize (r : ReconcileReport) : ReconcileReport :=
  {| driven := driven r; report_errors := report_errors r; report_cleanup := report_cleanup r; provider_finalized := true |}.
Definition outcome_of (w : world) (t : TaskId) : option returned :=
  match w_tasks w !! t with Some (OnFiber _ (Returned x)) => Some x | _ => None end.
(** Whether a fiber still holds the retired publication. *)
Definition holds_retired (w : world) (id : FiberId) (retired : CapabilityEntry) : bool :=
  match w_fibers w !! id ≫= fun f => handle (cells f) with
  | Some h => bool_decide (identity_of_handle h = identity_of_handle retired)
  | None => false
  end.
(** One step of a coordinator; [t] names the call it makes, if it makes one.
    [None]: it waits for its call, or is finished. *)
Definition coordinator_step (live : gset FiberId) (t : TaskId) (w : world) (r : ReactiveRuntime) (k : coordinator) :
  option (world * ReactiveRuntime * coordinator) :=
  match k with
  | Round [] true rep => let p := snapshot_fibers live r in Some (w, p.1, Round p.2 false rep)
  | Round [] false rep => Some (w, r, Finished (Ok rep))
  | Round (id :: queue) drove rep =>
      match w_fibers w !! id with
      | Some f =>
          if needs_reconciliation (w_shared w) f
          then Some (call w t id Start, r, Awaiting t id queue (report_driven id rep))
          else Some (w, r, Round queue drove rep)
      | None => Some (w, r, Round queue drove rep)
      end
  | Awaiting t id queue rep =>
      x ← outcome_of w t;
      Some (w, r, Round queue true (append_cleanup_failure w id (report_error id x rep)))
  | Asked c expected =>
      Some (w, r, match get_local (tree (w_shared w)) (reactive_scope r) c with
                  | None => Finished (Ok (finalize ReconcileReport_default))
                  | Some _ => Withdrawing c expected
                  end)
  | Withdrawing c expected =>
      let p := withdraw (tree (w_shared w)) (reactive_scope r) c expected in
      match p.2 with
      | Ok retired => Some (with_shared (set_tree p.1 (w_shared w)) w, r, Planning retired)
      | Err e => Some (w, r, Finished (Err (ReactiveScope e)))
      | Panic _ | NoFuel => None
      end
  | Planning retired =>
      let p := snapshot_fibers live r in
      match withdrawal_plan (read_fibers w p.2) retired with
      | Ok order => Some (w, p.1, Draining retired order ReconcileReport_default)
      | _ => None
      end
  | Draining retired [] rep => Some (w, r, Finished (Ok (finalize rep)))
  | Draining retired (id :: queue) rep =>
      Some (call w t id (Deactivate (if holds_retired w id retired then Some retired else None)), r,
            Quiescing t id retired queue (report_driven id rep))
  | Quiescing t id retired queue rep =>
      x ← outcome_of w t;
      Some (w, r, Draining retired queue (append_cleanup_failure w id (report_error id x rep)))
  | Finished _ => None
  end.
(** The call a coordinator waits for. *)
Definition awaited (k : coordinator) : option TaskId :=
  match k with Awaiting t _ _ _ | Quiescing t _ _ _ _ => Some t | _ => None end.
(** A coordinator that runs alone: it and the calls it waits for, until it
    returns.  Its calls are named from [t] on, and the host answers. *)
Fixpoint coordinate (live : gset FiberId) (host : nat -> pc -> answer) (fuel n : nat) (t : TaskId) (w : world)
  (r : ReactiveRuntime) (k : coordinator) : option (world * result ReactiveRuntimeError ReconcileReport) :=
  match k with
  | Finished x => Some (w, x)
  | _ =>
      match fuel with
      | 0 => None
      | S fuel =>
          match coordinator_step live t w r k with
          | Some (w, r, k) => coordinate live host fuel n (N.succ t) w r k
          | None =>
              u ← awaited k; q ← w_tasks w !! u; x ← task_at q; y ← advance w u (host n x.2);
              coordinate live host fuel (S n) t y.1 r k
          end
      end
  end.
