(* ===== verification/ReactiveFacts.v ===== *)
(** * The plan of a withdrawal

    The closure is exactly the set of fibers that depend on the retired
    publication, directly or through others, and the order drains every
    dependent before its providers. *)
From S2P Require Export Reactive FiberTree Teardown.
#[local] Open Scope string_scope.
#[local] Open Scope nat_scope.
#[local] Open Scope list_scope.

(** ** The lists the plan goes through *)
Lemma existsb_map_iter {V} (f : CapabilityId * V -> bool) (b : gmap CapabilityId V) :
  existsb f (map_iter b) = true <-> exists k x, b !! k = Some x /\ f (k, x) = true.
Proof.
  rewrite existsb_exists. split.
  - intros ([k x] & Hin & Hf). exists k, x. split; [|done]. by apply elem_of_map_iter, list_elem_of_In.
  - intros (k & x & Hk & Hf). exists (k, x). split; [|done]. by apply list_elem_of_In, elem_of_map_iter.
Qed.
Definition pins (b : DependencyBinding) (i : ProviderIdentity) : Prop :=
  exists k x, b !! k = Some x /\ identity_of_pin k x = i.
Lemma binding_contains_true b i : binding_contains b i = true <-> pins b i.
Proof.
  unfold binding_contains, binding_iter. rewrite existsb_map_iter. unfold pins. cbn [fst snd].
  by setoid_rewrite bool_decide_eq_true.
Qed.

Section plan.
Context (fs : reading) (ids : gmap ProviderIdentity FiberId).
Hypothesis once : NoDup fs.*1.
Lemma reading_unique i c c' : (i, c) ∈ fs -> (i, c') ∈ fs -> c = c'.
Proof. intros H1 H2. by apply (NoDup_key fst) with (x := (i, c)) (y := (i, c')) in once as [=]. Qed.

(** [i] pins a publication that the plan attributes to the fiber [j]. *)
Definition depends (i j : FiberId) : Prop :=
  exists c b p, (i, c) ∈ fs /\ current_binding c = Some b /\ pins b p /\ ids !! p = Some j.
(** [i] made the publication or pins it. *)
Definition directly (target : ProviderIdentity) (i : FiberId) : Prop :=
  exists c, (i, c) ∈ fs /\ ((exists h, handle c = Some h /\ identity_of_handle h = target) \/
    exists b, current_binding c = Some b /\ pins b target).
Inductive affected (target : ProviderIdentity) : FiberId -> Prop :=
  | affected_seed i : directly target i -> affected target i
  | affected_dependent i j : depends i j -> affected target j -> affected target i.

Lemma affected_directly_true target c :
  affected_directly target c = true <->
  (exists h, handle c = Some h /\ identity_of_handle h = target) \/
  exists b, current_binding c = Some b /\ pins b target.
Proof.
  unfold affected_directly. rewrite orb_true_iff. f_equiv.
  - destruct (handle c) as [h|]; [|naive_solver]. rewrite bool_decide_eq_true. naive_solver.
  - destruct (current_binding c) as [b|]; [|naive_solver]. rewrite binding_contains_true. naive_solver.
Qed.
Lemma elem_of_closure_seed target i : i ∈ closure_seed fs target <-> directly target i.
Proof.
  unfold closure_seed, directly. clear once. assert (Hgen : forall s : gset FiberId, i ∈ foldl (fun s x =>
    if affected_directly target x.2 then {[x.1]} ∪ s else s) s fs <->
    i ∈ s \/ exists c, (i, c) ∈ fs /\ affected_directly target c = true).
  { induction fs as [|[j c] l IH]; intros s; cbn [foldl fst snd].
    - split; [by left|]. intros [?|(c & ?%elem_of_nil & _)]; done.
    - rewrite IH. setoid_rewrite elem_of_cons. destruct (affected_directly target c) eqn:Hc; split.
      + intros [[->%elem_of_singleton|Hi]%elem_of_union|(c0 & ? & ?)]; [right; exists c; auto|by left|right; exists c0; auto].
      + intros [?|(c0 & [[= -> ->]|?] & ?)]; [left; apply elem_of_union; by right| |right; by exists c0].
        left. apply elem_of_union. left. by apply elem_of_singleton.
      + intros [?|(c0 & ? & ?)]; [by left|right; exists c0; auto].
      + intros [?|(c0 & [[= -> ->]|?] & ?)]; [by left|congruence|right; by exists c0]. }
  rewrite Hgen. setoid_rewrite affected_directly_true. split; [by intros [?%elem_of_empty|?]|by right].
Qed.
Lemma depends_on_affected_true A b :
  depends_on_affected ids A b = true <-> exists p j, pins b p /\ ids !! p = Some j /\ j ∈ A.
Proof.
  unfold depends_on_affected, binding_iter, pins. rewrite existsb_map_iter. cbn [fst snd]. split.
  - intros (k & x & Hk & Hj). destruct (ids !! identity_of_pin k x) as [j|] eqn:E; [|done].
    apply bool_decide_eq_true in Hj. exists (identity_of_pin k x), j. split_and!; [|done|done]. by exists k, x.
  - intros (p & j & (k & x & Hk & <-) & Hj & Hin). exists k, x. rewrite Hj. split; [done|]. by apply bool_decide_eq_true.
Qed.

(** ** The closure *)
(** What a round over the fibers [l] makes of the set [A]. *)
Definition round_ok (A : gset FiberId) (l : reading) (p : gset FiberId * bool) : Prop :=
  A ⊆ p.1 /\ (forall i, i ∈ p.1 -> i ∈ A \/ i ∈ l.*1 /\ exists j, depends i j /\ j ∈ p.1) /\
  (forall P : FiberId -> Prop, (forall i, i ∈ A -> P i) -> (forall i j, depends i j -> P j -> P i) ->
     forall i, i ∈ p.1 -> P i) /\
  if p.2 then A ⊂ p.1
  else p.1 = A /\ forall i c b q j, (i, c) ∈ l -> current_binding c = Some b -> pins b q ->
     ids !! q = Some j -> j ∈ A -> i ∈ A.
Lemma closure_round l A :
  (forall x, x ∈ l -> x ∈ fs) -> round_ok A l (foldl (closure_visit ids) (A, false) l).
Proof.
  intros Hl. induction l as [|[i c] l IH] using rev_ind.
  { unfold round_ok. cbn. split_and!; [done|auto|auto|done|]. by intros i c b q j ?%elem_of_nil. }
  rewrite foldl_app. cbn [foldl]. specialize (IH ltac:(intros x Hx; apply Hl, elem_of_app; by left)).
  destruct (foldl (closure_visit ids) (A, false) l) as [B found].
  assert (Hic : (i, c) ∈ fs) by (apply Hl, elem_of_app; right; left).
  destruct IH as (H1 & H2 & H3 & H4). unfold closure_visit. cbn [fst snd] in *.
  assert (Hskip : (forall b q j, current_binding c = Some b -> pins b q -> ids !! q = Some j -> j ∈ B -> i ∈ B) ->
    round_ok A (l ++ [(i, c)]) (B, found)).
  { intros Hi. unfold round_ok. cbn [fst snd]. split_and!; [done| |done|].
    - intros k [?|[Hk ?]]%H2; [by left|]. right. split; [|done]. rewrite fmap_app. apply elem_of_app. by left.
    - destruct found; [done|]. destruct H4 as [-> H4]. split; [done|].
      intros k c' b q j [Hk|[= -> ->]%list_elem_of_singleton]%elem_of_app; [by eapply H4|by apply Hi]. }
  case_bool_decide as Hin; [by apply Hskip|].
  destruct (current_binding c) as [b|] eqn:Hb; [|by apply Hskip].
  destruct (depends_on_affected ids B b) eqn:Hd.
  - clear Hskip. apply depends_on_affected_true in Hd as (q & j & Hq & Hj & HjB).
    assert (Hij : depends i j) by (by exists c, b, q).
    unfold round_ok. cbn [fst snd]. split_and!; [set_solver| | |].
    + intros k [->%elem_of_singleton|Hk]%elem_of_union.
      * right. split; [rewrite fmap_app; apply elem_of_app; right; left|]. exists j. set_solver.
      * destruct (H2 k Hk) as [?|(Hkl & j' & ? & ?)]; [by left|]. right. split; [rewrite fmap_app; set_solver|].
        exists j'. set_solver.
    + intros P HA Hstep k [->%elem_of_singleton|Hk]%elem_of_union; [|by eapply H3].
      eapply Hstep; [done|]. by eapply H3.
    + destruct found; set_solver.
  - apply Hskip. intros b' q j [= <-] Hq Hj HjB. assert (Ht : depends_on_affected ids B b = true).
    { apply depends_on_affected_true. by exists q, j. } congruence.
Qed.
Lemma closure_loop_ok fuel target A :
  (forall i, i ∈ A -> affected target i) -> (forall i, directly target i -> i ∈ A) -> A ⊆ list_to_set fs.*1 ->
  length fs < fuel + size A ->
  exists B, closure_loop fuel fs ids A = Ok B /\ forall i, i ∈ B <-> affected target i.
Proof.
  revert A. induction fuel as [|fuel IH]; intros A HA Hs Hsub Hlt.
  { apply subseteq_size in Hsub. rewrite size_list_to_set in Hsub by done. rewrite length_fmap in Hsub. lia. }
  cbn [closure_loop]. destruct (closure_round fs A) as (H1 & H2 & H3 & H4); [done|].
  set (p := foldl (closure_visit ids) (A, false) fs) in *.
  assert (Hp : forall i, i ∈ p.1 -> affected target i).
  { apply H3; [done|]. intros i j ??. by eapply affected_dependent. }
  destruct p.2.
  - apply IH; [done|set_solver| |].
    + intros i Hi. destruct (H2 i Hi) as [?|[? _]]; [set_solver|]. by apply elem_of_list_to_set.
    + apply subset_size in H4. lia.
  - exists p.1. split; [done|]. intros i. split; [apply Hp|]. destruct H4 as [-> H4].
    induction 1 as [i Hi|i j (c & b & q & Hc & Hb & Hq & Hj) _ Haff]; [by apply Hs|by eapply H4].
Qed.
Lemma closure_exact retired :
  exists B, withdrawal_closure fs retired ids = Ok B /\
    forall i, i ∈ B <-> affected (identity_of_handle retired) i.
Proof.
  apply closure_loop_ok.
  - intros i Hi%elem_of_closure_seed. by apply affected_seed.
  - intros i Hi. by apply elem_of_closure_seed.
  - intros i (c & Hc & _)%elem_of_closure_seed. apply elem_of_list_to_set, list_elem_of_fmap. by exists (i, c).
  - unfold closure_rounds. lia.
Qed.
Lemma affected_reading target i : affected target i -> i ∈ fs.*1.
Proof.
  destruct 1 as [i (c & Hc & _)|i j (c & b & p & Hc & _) _]; apply list_elem_of_fmap; by exists (i, c).
Qed.
End plan.

(** ** Depths *)
Lemma foldM_agree {E S A} (f g : S -> A -> result E S) l s x y :
  (forall s a r1 r2, a ∈ l -> f s a = Ok r1 -> g s a = Ok r2 -> r1 = r2) ->
  foldM f l s = Ok x -> foldM g l s = Ok y -> x = y.
Proof.
  revert s. induction l as [|a l IH]; intros s Ha; [by intros [= ->] [= ->]|]. cbn [foldM].
  intros (s1 & H1 & H2)%bind_Ok (s2 & H3 & H4)%bind_Ok. assert (s2 = s1) as -> by (symmetry; eapply Ha; [left|done..]).
  eapply IH; [|done|done]. intros s0 b r1 r2 Hb. apply Ha. by right.
Qed.
Lemma foldM_max {E A} (f : A -> result E nat) l m x :
  foldM (fun m a => d ← f a; Ok (Nat.max m (1 + d))) l m = Ok x ->
  m <= x /\ forall a, a ∈ l -> exists d, f a = Ok d /\ d < x.
Proof.
  revert m. induction l as [|a l IH]; intros m; cbn [foldM].
  { intros [= <-]. split; [done|]. by intros a ?%elem_of_nil. }
  intros (m1 & (d & Hd & [= <-])%bind_Ok & Hl)%bind_Ok. destruct (IH _ Hl) as [Hle Hall]. split; [lia|].
  intros b [->|Hb]%elem_of_cons; [|by apply Hall]. exists d. split; [done|lia].
Qed.
Section depth.
Context (ids : gmap ProviderIdentity FiberId) (bs : gmap FiberId DependencyBinding) (A : gset FiberId).
Lemma elem_of_pinned_providers i b j :
  j ∈ pinned_providers ids A i b <-> (exists p, pins b p /\ ids !! p = Some j) /\ j ∈ A /\ j <> i.
Proof.
  unfold pinned_providers. rewrite list_elem_of_filter, list_elem_of_omap. split.
  - intros [? ([k x] & Hk & Hj)]. split; [|done]. exists (identity_of_pin k x). split; [|done].
    exists k, x. split; [|done]. by apply elem_of_map_iter.
  - intros [(p & (k & x & Hk & <-) & Hj) ?]. split; [done|]. exists (k, x). split; [|done]. by apply elem_of_map_iter.
Qed.
Lemma depth_returns fuel i V :
  i ∈ A -> V ⊆ A -> size (A ∖ V) + 2 <= fuel -> exists d, dependency_depth fuel i bs A ids V = Ok d.
Proof.
  revert i V. induction fuel as [|fuel IH]; intros i V Hi HV Hf; [lia|]. cbn [dependency_depth].
  case_bool_decide as Hin; [by exists 0|]. destruct (bs !! i) as [b|]; [|by exists 0].
  assert (Hret : returns (foldM (fun deepest provider =>
     d ← dependency_depth fuel provider bs A ids ({[i]} ∪ V); Ok (Nat.max deepest (1 + d)))
     (pinned_providers ids A i b) 0)).
  { apply foldM_returns_in. intros m j (_ & Hj & _)%elem_of_pinned_providers.
    destruct (IH j ({[i]} ∪ V)) as [d ->]; [done|set_solver| |done].
    assert (A ∖ ({[i]} ∪ V) ⊂ A ∖ V) as Hlt%subset_size; [|lia]. split.
    - intros x [? Hn]%elem_of_difference. apply elem_of_difference. split; [done|]. intros ?. apply Hn, elem_of_union. by right.
    - intros Hsub. assert (i ∈ A ∖ ({[i]} ∪ V)) as [_ Hn]%elem_of_difference by by apply Hsub, elem_of_difference.
      apply Hn, elem_of_union. left. by apply elem_of_singleton. }
  destruct (foldM _ _ _) as [d|[]| |]; [by exists d|done..].
Qed.

(** Where the pins descend, the guard against cycles never strikes. *)
Context (rank : FiberId -> N).
Hypothesis descends : forall i b j, bs !! i = Some b -> j ∈ pinned_providers ids A i b -> (rank j < rank i)%N.
Lemma depth_unique fuel1 : forall fuel2 i V1 V2 d1 d2,
  (forall x, x ∈ V1 \/ x ∈ V2 -> (rank i < rank x)%N) ->
  dependency_depth fuel1 i bs A ids V1 = Ok d1 -> dependency_depth fuel2 i bs A ids V2 = Ok d2 -> d1 = d2.
Proof.
  induction fuel1 as [|fuel1 IH]; intros [|fuel2] i V1 V2 d1 d2 HV; [done..|]. cbn [dependency_depth].
  rewrite !bool_decide_eq_false_2; [|intros Hi; specialize (HV i ltac:(auto)); lia..].
  destruct (bs !! i) as [b|] eqn:Hb; [|by intros [= <-] [= <-]].
  apply foldM_agree. intros m j r1 r2 Hj (e1 & H1 & [= <-])%bind_Ok (e2 & H2 & [= <-])%bind_Ok.
  assert (e1 = e2) as ->; [|done]. eapply IH; [|exact H1|exact H2].
  pose proof (descends i b j Hb Hj) as Hlt.
  intros x [[->%elem_of_singleton|Hx]%elem_of_union|[->%elem_of_singleton|Hx]%elem_of_union]; try done;
    (etransitivity; [exact Hlt|]); auto.
Qed.
Lemma depth_decreases i b j d :
  i ∈ A -> bs !! i = Some b -> j ∈ pinned_providers ids A i b ->
  dependency_depth (depth_fuel A) i bs A ids ∅ = Ok d ->
  exists d', dependency_depth (depth_fuel A) j bs A ids ∅ = Ok d' /\ d' < d.
Proof.
  intros Hi Hb Hj Hd. change (depth_fuel A) with (S (S (size A))) in Hd.
  remember (S (size A)) as n eqn:Hn. cbn [dependency_depth] in Hd.
  rewrite bool_decide_eq_false_2 in Hd by apply not_elem_of_empty. rewrite Hb in Hd.
  apply foldM_max in Hd as [_ Hall]. destruct (Hall j Hj) as (d' & Hd' & Hlt).
  apply elem_of_pinned_providers in Hj as Hj'. destruct Hj' as (_ & HjA & _).
  destruct (depth_returns (depth_fuel A) j ∅) as [d2 Hd2]; [done|apply empty_subseteq|unfold depth_fuel; rewrite difference_empty_L; lia|].
  exists d2. split; [done|]. assert (d2 = d') as ->; [|done].
  eapply depth_unique; [|exact Hd2|exact Hd']. intros x [?%elem_of_empty|[->%elem_of_singleton|?%elem_of_empty]%elem_of_union]; try done.
  by eapply descends.
Qed.
End depth.

(** ** The order *)
Lemma foldM_collect {E A B} (f : A -> result E B) l acc x :
  foldM (fun acc a => d ← f a; Ok (acc ++ [(d, a)])) l acc = Ok x ->
  exists y, x = acc ++ y /\ y.*2 = l /\ forall d a, (d, a) ∈ y -> f a = Ok d.
Proof.
  revert acc. induction l as [|a l IH]; intros acc; cbn [foldM].
  { intros [= <-]. exists []. rewrite app_nil_r. split_and!; [done|done|]. by intros d a ?%elem_of_nil. }
  intros (acc1 & (d & Hd & [= <-])%bind_Ok & Hl)%bind_Ok. destruct (IH _ Hl) as (y & -> & Hy & Hall).
  exists ((d, a) :: y). rewrite <- (assoc_L (++)). split_and!; [done|by cbn; rewrite Hy|].
  intros d' a' [[= -> ->]|?]%elem_of_cons; [done|by apply Hall].
Qed.
#[export] Instance deeper_total : Total deeper.
Proof.
  intros [d1 i1] [d2 i2]. unfold deeper. cbn. destruct (lt_eq_lt_dec d1 d2) as [[?| ->]|?]; [by right; left| |by left; left].
  destruct (N.le_ge_cases i1 i2); [left|right]; by right.
Qed.
#[export] Instance deeper_trans : Transitive deeper.
Proof. intros [d1 i1] [d2 i2] [d3 i3]. unfold deeper. cbn. intros [?|[-> ?]] [?|[-> ?]]; [left; lia|by left|by left|]. right. split; [done|]. by etransitivity. Qed.
Lemma StronglySorted_before {X} (R : X -> X -> Prop) l x y :
  StronglySorted R l -> x ∈ l -> y ∈ l -> x <> y -> ~ R y x -> before x y l.
Proof.
  intros Hs Hx Hy Hne Hr. apply list_elem_of_split in Hx as (l1 & l2 & ->).
  apply elem_of_app in Hy as [Hy|[->|Hy]%elem_of_cons]; [|done|].
  - exfalso. apply Hr. apply list_elem_of_split in Hy as (k1 & k2 & ->).
    rewrite <- (assoc_L (++)) in Hs. apply StronglySorted_app in Hs as (_ & _ & Hs).
    cbn in Hs. apply StronglySorted_inv in Hs as [_ Hf]. rewrite Forall_forall in Hf. apply Hf. apply elem_of_app. right. left.
  - exists (l1 ++ [x]), l2. rewrite <- (assoc_L (++)). split_and!; [done| |done]. apply elem_of_app. right. left.
Qed.

(** ** The tables of a plan *)
Lemma foldl_omap_insert {X K V} `{Countable K} (f : gmap K V -> X -> gmap K V) (g : X -> option (K * V)) l m :
  (forall m x, f m x = match g x with Some p => <[p.1 := p.2]> m | None => m end) ->
  foldl f m l = foldl (fun m p => <[p.1 := p.2]> m) m (omap g l).
Proof.
  intros Hf. revert m. induction l as [|x l IH]; intros m; [done|]. cbn. rewrite Hf. by destruct (g x); apply IH.
Qed.
Section tables.
Context (fs : reading).
Hypothesis once : NoDup fs.*1.
Lemma affected_bindings_lookup A i b :
  affected_bindings fs A !! i = Some b <-> i ∈ A /\ exists c, (i, c) ∈ fs /\ current_binding c = Some b.
Proof.
  set (g := fun x : FiberId * FiberCells =>
    if bool_decide (x.1 ∈ A) then (fun b => (x.1, b)) <$> current_binding x.2 else None).
  unfold affected_bindings. rewrite (foldl_omap_insert _ g).
  2: { intros m x. unfold g. case_bool_decide; [|done]. by destruct (current_binding x.2). }
  assert (Hg : forall p, p ∈ omap g fs <-> p.1 ∈ A /\ exists c, (p.1, c) ∈ fs /\ current_binding c = Some p.2).
  { intros [k v]. rewrite list_elem_of_omap. unfold g. cbn [fst snd]. split.
    - intros ([k' c] & Hin & Hp). cbn [fst snd] in Hp. case_bool_decide; [|done].
      destruct (current_binding c) as [b'|] eqn:Hb; [|done]. injection Hp as -> ->. split; [done|]. by exists c.
    - intros (HA & c & Hin & Hc). exists (k, c). split; [done|]. cbn [fst snd]. rewrite bool_decide_eq_true_2 by done. by rewrite Hc. }
  rewrite (foldl_insert_lookup fst snd); [|clear Hg|intros; apply lookup_empty].
  - rewrite lookup_empty. split.
    + intros [?|([k v] & (HA & c & Hin & Hc)%Hg & <- & ->)]; [done|]. split; [done|]. by exists c.
    + intros (HA & c & Hin & Hc). right. exists (i, b). split_and!; [|done|done]. apply Hg. split; [done|]. by exists c.
  - clear -once. induction fs as [|[k c] l IH]; [constructor|]. cbn in once. apply NoDup_cons in once as [Hk Hl].
    cbn. unfold g at 1. cbn [fst snd]. destruct (bool_decide (k ∈ A)); [|by apply IH].
    destruct (current_binding c) as [b'|]; [|by apply IH]. cbn. apply NoDup_cons. split; [|by apply IH].
    intros ([k' v] & -> & Hin)%list_elem_of_fmap. apply Hk. apply list_elem_of_omap in Hin as ([k2 c2] & Hin & Hg).
    unfold g in Hg. cbn [fst snd] in Hg. case_bool_decide; [|done]. destruct (current_binding c2); [|done].
    injection Hg as <- <-. apply list_elem_of_fmap. by exists (k2, c2).
Qed.
(** Different fibers hold different publications. *)
Definition distinct_handles : Prop := forall i j c d h h',
  (i, c) ∈ fs -> (j, d) ∈ fs -> handle c = Some h -> handle d = Some h' ->
  identity_of_handle h = identity_of_handle h' -> i = j.
Lemma provider_identities_lookup p i :
  distinct_handles ->
  provider_identities fs !! p = Some i <->
  exists c h, (i, c) ∈ fs /\ handle c = Some h /\ identity_of_handle h = p.
Proof.
  intros Hd. set (g := fun x : FiberId * FiberCells => (fun h => (identity_of_handle h, x.1)) <$> handle x.2).
  unfold provider_identities. rewrite (foldl_omap_insert _ g).
  2: { intros m x. unfold g. by destruct (handle x.2). }
  assert (Hg : forall (l : reading) q, q ∈ omap g l <-> exists c h, (q.2, c) ∈ l /\ handle c = Some h /\ identity_of_handle h = q.1).
  { intros l [q k]. rewrite list_elem_of_omap. unfold g. cbn [fst snd]. split.
    - intros ([k' c] & Hin & Hp). cbn [fst snd] in Hp. destruct (handle c) as [h|] eqn:Hh; [|done].
      injection Hp as <- <-. by exists c, h.
    - intros (c & h & Hin & Hh & <-). exists (k, c). split; [done|]. cbn [fst snd]. by rewrite Hh. }
  rewrite (foldl_insert_lookup fst snd); [| |intros; apply lookup_empty].
  - rewrite lookup_empty. split.
    + intros [?|([q k] & (c & h & Hin & Hh & <-)%Hg & <- & ->)]; [done|]. by exists c, h.
    + intros (c & h & Hin & Hh & <-). right. exists (identity_of_handle h, i). split_and!; [|done|done]. apply Hg. by exists c, h.
  - revert once Hd. unfold distinct_handles. generalize fs as l. intros l once Hd.
    induction l as [|[k c] l IH]; [constructor|]. cbn in once. apply NoDup_cons in once as [Hk Hl].
    specialize (IH Hl ltac:(intros; eapply Hd; [right|right|..]; done)).
    cbn. unfold g at 1. cbn [fst snd]. destruct (handle c) as [h|] eqn:Hh; [|done]. cbn. apply NoDup_cons. split; [|done].
    intros ([q k'] & Heq & (c' & h' & Hin & Hh' & Hq)%Hg)%list_elem_of_fmap. cbn [fst snd] in *. subst q.
    assert (k = k') as ->; [eapply (Hd k k' c c'); [left|right; done|done|done|congruence]|].
    apply Hk, list_elem_of_fmap. by exists (k', c').
Qed.
End tables.

(** ** The plan *)
Section planned.
Context (fs : reading) (rank : FiberId -> N).
Hypothesis once : NoDup fs.*1.
#[local] Abbreviation ids := (provider_identities fs).
Hypothesis descends : forall i j, depends fs ids i j -> (rank j < rank i)%N.
Lemma order_ok A :
  (forall i, i ∈ A -> i ∈ fs.*1) ->
  exists order, withdrawal_order fs A ids = Ok order /\ NoDup order /\ (forall i, i ∈ order <-> i ∈ A) /\
    forall i j, depends fs ids i j -> i ∈ A -> j ∈ A -> before i j order.
Proof.
  intros HA. set (bs := affected_bindings fs A). set (dd := fun i => dependency_depth (depth_fuel A) i bs A ids ∅).
  assert (Hdesc : forall i b j, bs !! i = Some b -> j ∈ pinned_providers ids A i b -> (rank j < rank i)%N).
  { intros i b j (Hi & c & Hc & Hb)%(affected_bindings_lookup fs once) ((p & Hp & Hj) & _)%elem_of_pinned_providers.
    apply descends. by exists c, b, p. }
  assert (Hret : forall i, i ∈ A -> exists d, dd i = Ok d).
  { intros i Hi. apply depth_returns; [done|apply empty_subseteq|]. unfold depth_fuel. rewrite difference_empty_L. lia. }
  set (L := filter (fun id => id ∈ fs.*1) (set_iter A)).
  assert (HL : forall i, i ∈ L <-> i ∈ A).
  { intros i. unfold L. rewrite list_elem_of_filter, elem_of_set_iter. naive_solver. }
  assert (HLd : NoDup L) by apply NoDup_filter, NoDup_set_iter.
  assert (Hok : is_Ok (foldM (fun l id => d ← dd id; Ok (l ++ [(d, id)])) L [])).
  { assert (Hr : returns (foldM (fun l id => d ← dd id; Ok (l ++ [(d, id)])) L [])).
    { apply foldM_returns_in. intros l i Hi%HL. by destruct (Hret i Hi) as [d ->]. }
    destruct (foldM _ _ _) as [l|[]| |]; [by exists l|done..]. }
  destruct Hok as [l Hl]. unfold withdrawal_order. fold bs. change (foldM _ _ _) with
    (foldM (fun l id => d ← dd id; Ok (l ++ [(d, id)])) L []). rewrite Hl. cbn [mbind result_bind].
  apply foldM_collect in Hl as (y & -> & Hy & Hd). cbn [app].
  assert (Hperm : (merge_sort deeper y).*2 ≡ₚ L) by (rewrite <- Hy; apply fmap_Permutation, merge_sort_Permutation).
  exists (merge_sort deeper y).*2. split; [done|]. split_and!; [by rewrite Hperm|intros i; by rewrite Hperm, HL|].
  intros i j Hij Hi Hj. destruct Hij as (c & b & p & Hc & Hb & Hp & Hpj).
  assert (Hrank : (rank j < rank i)%N) by (apply descends; by exists c, b, p).
  destruct (Hret i Hi) as [di Hdi].
  destruct (depth_decreases ids bs A rank Hdesc i b j di) as (dj & Hdj & Hlt); [done| | |exact Hdi|].
  { apply affected_bindings_lookup; [done|]. split; [done|]. by exists c. }
  { apply elem_of_pinned_providers. split_and!; [by exists p|done|]. intros ->. lia. }
  assert (Hin : forall k dk, k ∈ A -> dd k = Ok dk -> (dk, k) ∈ y).
  { intros k dk Hk Hdk. apply HL in Hk. rewrite <- Hy in Hk. apply list_elem_of_fmap in Hk as ([d k'] & -> & Hk).
    cbn [snd] in *. rewrite (Hd d k' Hk) in Hdk. by injection Hdk as <-. }
  destruct (StronglySorted_before deeper (merge_sort deeper y) (di, i) (dj, j)) as (l1 & l2 & Hm & H1 & H2).
  - apply StronglySorted_merge_sort; apply _.
  - rewrite merge_sort_Permutation. by apply Hin.
  - rewrite merge_sort_Permutation. by apply Hin.
  - intros [= _ ->]. lia.
  - unfold deeper. cbn. lia.
  - exists l1.*2, l2.*2. rewrite Hm, fmap_app. split_and!; [done|apply list_elem_of_fmap; by exists (di, i)|apply list_elem_of_fmap; by exists (dj, j)].
Qed.
Lemma plan_ok retired :
  exists order, withdrawal_plan fs retired = Ok order /\ NoDup order /\
    (forall i, i ∈ order <-> affected fs ids (identity_of_handle retired) i) /\
    forall i j, depends fs ids i j -> i ∈ order -> j ∈ order -> before i j order.
Proof.
  unfold withdrawal_plan. destruct (closure_exact fs ids once retired) as (B & -> & HB). cbn [mbind result_bind].
  destruct (order_ok B) as (order & Ho & Hn & Hin & Hb).
  { intros i Hi%HB. by eapply affected_reading. }
  exists order. split_and!; [done|done| |].
  - intros i. by rewrite Hin.
  - intros i j Hij Hi%Hin Hj%Hin. by apply Hb.
Qed.
End planned.
