(* ===== verification/ReactivePlan.v ===== *)
(** * The plan of a withdrawal, in terms of the world *)
From S2P Require Export ReactiveFacts FiberOwners.
#[local] Open Scope string_scope.
#[local] Open Scope nat_scope.
#[local] Open Scope list_scope.

(** Who publishes, and who holds on to, a publication. *)
Definition publishes (w : world) (i : FiberId) (p : ProviderIdentity) : Prop :=
  exists f h, w_fibers w !! i = Some f /\ handle (cells f) = Some h /\ identity_of_handle h = p.
Definition bound_to (w : world) (i : FiberId) (p : ProviderIdentity) : Prop :=
  exists f b, w_fibers w !! i = Some f /\ current_binding (cells f) = Some b /\ pins b p.
(** The watched fibers a withdrawal concerns: the publisher, those bound to the
    publication, and those bound to a publication of one of them. *)
Inductive concerned (w : world) (names : list FiberId) (p : ProviderIdentity) : FiberId -> Prop :=
  | concerned_directly i : i ∈ names -> publishes w i p \/ bound_to w i p -> concerned w names p i
  | concerned_through i j q :
      i ∈ names -> bound_to w i q -> publishes w j q -> concerned w names p j -> concerned w names p i.

Lemma elem_of_read_fibers w names i c :
  (i, c) ∈ read_fibers w names <-> i ∈ names /\ exists f, w_fibers w !! i = Some f /\ c = cells f.
Proof.
  unfold read_fibers. rewrite list_elem_of_omap. split.
  - intros (j & Hj & Hr). destruct (w_fibers w !! j) as [f|] eqn:Hf; [|done]. injection Hr as -> <-.
    split; [done|]. by exists f.
  - intros [Hi (f & Hf & ->)]. exists i. split; [done|]. by rewrite Hf.
Qed.
Lemma read_fibers_once w names : NoDup names -> NoDup (read_fibers w names).*1.
Proof.
  induction names as [|i l IH]; [intros _; constructor|]. intros [Hi Hl]%NoDup_cons. cbn.
  destruct (w_fibers w !! i) as [f|]; [|by apply IH]. cbn. apply NoDup_cons. split; [|by apply IH].
  intros ([j c] & -> & [Hj _]%elem_of_read_fibers)%list_elem_of_fmap. by apply Hi.
Qed.
Section reachable.
Context (tr : list event) (w : world) (names : list FiberId).
Hypothesis reachable : fiber_reachable false tr w.
Hypothesis once : NoDup names.
#[local] Abbreviation fs := (read_fibers w names).
#[local] Abbreviation ids := (provider_identities fs).
Lemma read_distinct : distinct_handles fs.
Proof.
  intros i j c d h h' (_ & f & Hf & ->)%elem_of_read_fibers (_ & f' & Hf' & ->)%elem_of_read_fibers Hh Hh' He.
  injection He as _ _ He.
  assert (OfFiber i = OfFiber j) as [= ->]; [|done].
  apply (reachable_single_owner _ _ reachable _ _ (entry_id h)); [by exists f, h|by exists f', h'].
Qed.
Lemma read_provider p j : ids !! p = Some j <-> j ∈ names /\ publishes w j p.
Proof.
  rewrite (provider_identities_lookup fs (read_fibers_once w names once) p j read_distinct). unfold publishes. split.
  - intros (c & h & (Hj & f & Hf & ->)%elem_of_read_fibers & Hh & Hp). split; [done|]. by exists f, h.
  - intros (Hj & f & h & Hf & Hh & Hp). exists (cells f), h. split_and!; [|done|done].
    apply elem_of_read_fibers. split; [done|]. by exists f.
Qed.
Lemma read_depends i j :
  depends fs ids i j <-> i ∈ names /\ j ∈ names /\ exists p, bound_to w i p /\ publishes w j p.
Proof.
  unfold depends, bound_to. split.
  - intros (c & b & p & (Hi & f & Hf & ->)%elem_of_read_fibers & Hb & Hp & [Hj Hpub]%read_provider).
    split_and!; [done|done|]. exists p. split; [|done]. by exists f, b.
  - intros (Hi & Hj & p & (f & b & Hf & Hb & Hp) & Hpub). exists (cells f), b, p. split_and!; [|done|done|by apply read_provider].
    apply elem_of_read_fibers. split; [done|]. by exists f.
Qed.
Lemma read_affected target i : affected fs ids target i <-> concerned w names target i.
Proof.
  split.
  - induction 1 as [i (c & (Hi & f & Hf & ->)%elem_of_read_fibers & Hd)|i j Hij _ IH].
    + apply concerned_directly; [done|]. destruct Hd as [(h & Hh & Hp)|(b & Hb & Hp)]; [left; by exists f, h|right; by exists f, b].
    + apply read_depends in Hij as (Hi & Hj & p & Hb & Hp). by eapply concerned_through.
  - induction 1 as [i Hi Hd|i j q Hi Hb Hp Hj IH].
    + apply affected_seed. destruct Hd as [(f & h & Hf & Hh & Hp)|(f & b & Hf & Hb & Hp)];
        (exists (cells f); split; [apply elem_of_read_fibers; split; [done|by exists f]|]); [left; by exists h|right; by exists b].
    + eapply affected_dependent; [|exact IH]. apply read_depends. split_and!; [done| |by exists q].
      by destruct Hj.
Qed.
(** A fiber is bound to older publications than its own. *)
Definition publication_rank (i : FiberId) : N :=
  match w_fibers w !! i ≫= fun f => handle (cells f) with
  | Some h => entry_id h
  | None => next_entry_id (tree (w_shared w))
  end.
Lemma rank_descends i j : depends fs ids i j -> (publication_rank j < publication_rank i)%N.
Proof.
  intros (_ & _ & p & (f & b & Hf & Hb & k & x & Hk & <-) & g & h & Hg & Hh & Hp)%read_depends.
  pose proof (reachable_life _ _ reachable) as L. pose proof (reachable_tree _ _ _ reachable) as I.
  pose proof (proj1 (ti_system _ I)) as S. cbn [sys_rt] in S.
  unfold publication_rank. rewrite Hf, Hg. cbn [mbind option_bind]. rewrite Hh.
  assert (Hpub : arena (tree (w_shared w)) !! entry_id h = Some h) by by apply (ti_cells _ I j g Hg).
  injection Hp as _ _ He. destruct (cells_whole w i f L Hf) as [(hf & e & Hhf & Hef & _ & Hpins)|Hn].
  - rewrite Hhf. unfold current_binding, dependency_binding in Hb. rewrite Hef in Hb. injection Hb as <-.
    assert (Hdep : dependencies hf !! k = Some (pin_entry x)) by (rewrite Hpins, lookup_fmap, Hk; done).
    assert (Hpf : arena (tree (w_shared w)) !! entry_id hf = Some hf) by by apply (ti_cells _ I i f Hf).
    destruct (si_pins _ S _ _ _ _ Hpf Hdep) as (_ & _ & _ & Hlt). by rewrite He.
  - rewrite Hn. apply (si_arena _ S) in Hpub. tauto.
Qed.
End reachable.

(** [order] names, once each, the watched fibers that a withdrawal concerns,
    every fiber before those whose publications it is bound to. *)
Record ordered_plan (w : world) (names : list FiberId) (p : ProviderIdentity) (order : list FiberId) : Prop := {
  plan_once : NoDup order;
  plan_concerns i : i ∈ order <-> concerned w names p i;
  plan_dependents_first i j q :
    i ∈ order -> j ∈ order -> bound_to w i q -> publishes w j q -> before i j order
}.
Lemma withdrawal_plan_exact tr w names retired :
  fiber_reachable false tr w -> NoDup names ->
  exists order, withdrawal_plan (read_fibers w names) retired = Ok order /\
    ordered_plan w names (identity_of_handle retired) order.
Proof.
  intros Hr Hn. destruct (plan_ok (read_fibers w names) (publication_rank w) (read_fibers_once w names Hn)
    (rank_descends tr w names Hr Hn) retired) as (order & Ho & Hnd & Hin & Hb).
  exists order. split; [done|]. split; [done| |].
  - intros i. rewrite Hin. by apply (read_affected tr).
  - intros i j p Hi Hj Hbi Hpj. apply Hb; [|done|done]. apply (read_depends tr); [done|done|].
    assert (Hnames : forall k, k ∈ order -> k ∈ names).
    { intros k Hk%Hin%affected_reading. apply list_elem_of_fmap in Hk as ([k' c] & -> & Hk). by apply elem_of_read_fibers in Hk as [? _]. }
    split_and!; [by apply Hnames|by apply Hnames|by exists p].
Qed.

Lemma concerned_watched w names p i : concerned w names p i -> i ∈ names.
Proof. by intros []. Qed.
Lemma concerned_frame w w' names p i : w_fibers w' = w_fibers w -> concerned w names p i -> concerned w' names p i.
Proof.
  intros Hf. assert (Hp : forall j q, publishes w j q -> publishes w' j q) by (unfold publishes; by rewrite Hf).
  assert (Hb : forall j q, bound_to w j q -> bound_to w' j q) by (unfold bound_to; by rewrite Hf).
  induction 1 as [i Hi Hd|i j q Hi Hq Hj _ IH]; [apply concerned_directly; naive_solver|].
  eapply concerned_through; [done|by apply Hb|by apply Hp|done].
Qed.
Lemma ordered_plan_frame w w' names p order :
  w_fibers w' = w_fibers w -> ordered_plan w names p order -> ordered_plan w' names p order.
Proof.
  intros Hf [Hn Hc Hb]. split; [done| |].
  - intros i. rewrite Hc. split; by apply concerned_frame.
  - intros i j q Hi Hj (f & b & H1 & H2 & H3) (g & h & G1 & G2 & G3). rewrite Hf in H1, G1.
    apply (Hb i j q); [done|done|by exists f, b|by exists g, h].
Qed.
