(* ===== verification/ReactiveSafety.v ===== *)
(** * What a withdrawal does to the fibers it concerns *)
From S2P Require Export FiberLiveness ReactivePlan.
#[local] Open Scope string_scope.
#[local] Open Scope nat_scope.
#[local] Open Scope list_scope.

(** ** A coordinator that runs alone *)
Section coordinating.
Context (live : gset FiberId) (host : nat -> pc -> answer).
Lemma coordinate_steps t w r k w1 r1 k1 n X :
  coordinator_step live t w r k = Some (w1, r1, k1) ->
  (exists fuel, coordinate live host fuel n (N.succ t) w1 r1 k1 = Some X) ->
  exists fuel, coordinate live host fuel n t w r k = Some X.
Proof. intros Hs [fuel Hf]. exists (S fuel). destruct k; try done; cbn [coordinate]; by rewrite Hs. Qed.
Lemma coordinate_finished t w r x n : exists fuel, coordinate live host fuel n t w r (Finished x) = Some (w, x).
Proof. by exists 0. Qed.
Lemma awaited_waits t w r k u id p :
  awaited k = Some u -> w_tasks w !! u = Some (OnFiber id p) -> (forall x, p <> Returned x) ->
  coordinator_step live t w r k = None.
Proof.
  intros Hk Ht Hp. assert (Ho : outcome_of w u = None) by (unfold outcome_of; rewrite Ht; destruct p; try done; by edestruct Hp).
  destruct k; try done; injection Hk as ->; cbn; by rewrite Ho.
Qed.
Lemma coordinate_call t r k u n w es m w' X :
  advances u host n w es m w' -> awaited k = Some u ->
  (exists fuel, coordinate live host fuel m t w' r k = Some X) ->
  exists fuel, coordinate live host fuel n t w r k = Some X.
Proof.
  intros Ha Hk. induction Ha as [n w|n w id p w1 d es m w2 Ht Ha _ IH]; [done|]. intros Hrest.
  destruct (IH Hrest) as [fuel Hf]. exists (S fuel).
  assert (Hw : coordinator_step live t w r k = None).
  { eapply awaited_waits; [done..|]. intros x ->. by erewrite advance_running in Ha. }
  destruct k; try done; cbn [coordinate]; rewrite Hw; injection Hk as ->; cbn [awaited mbind option_bind];
    rewrite Ht; cbn [mbind option_bind task_at snd]; rewrite Ha; exact Hf.
Qed.

(** *** Draining *)
(** The fibers whose last cleanup failed, as the report names them. *)
Definition unclean (w : world) (ids : list FiberId) : list FiberCleanupFailure :=
  omap (fun id => f ← w_fibers w !! id;
    match last_cleanup_errors (cells f) with
    | [] => None
    | es => Some {| unclean_fiber := id; cleanup_failures := es |}
    end) ids.
Lemma append_cleanup_unclean w id rep :
  append_cleanup_failure w id rep =
  {| driven := driven rep; report_errors := report_errors rep; report_cleanup := report_cleanup rep ++ unclean w [id];
     provider_finalized := provider_finalized rep |}.
Proof.
  unfold append_cleanup_failure, unclean. destruct rep as [dr er cl pf]. cbn [omap list_omap].
  destruct (w_fibers w !! id) as [f|]; cbn; [destruct (last_cleanup_errors (cells f))|]; by rewrite ?app_nil_r.
Qed.
Lemma unclean_frame w w' ids : (forall i, i ∈ ids -> w_fibers w' !! i = w_fibers w !! i) -> unclean w' ids = unclean w ids.
Proof.
  unfold unclean. induction ids as [|i ids IH]; [done|]. intros Hf. cbn [omap list_omap].
  rewrite (Hf i) by left. destruct (w_fibers w !! i ≫= _); rewrite IH; [done| |done|]; intros j Hj; apply Hf; by right.
Qed.
(** [es] are the effects of the fiber [id], run. *)
Definition cleanup_of (id : FiberId) (es : list event) : Prop := Forall (fun e => exists d, e = Ran id d) es.
Definition is_drained (w : world) (id : FiberId) : Prop := exists f, w_fibers w !! id = Some f /\ drained f.
Hypothesis answering : forall n p, answers p (host n p).
Lemma drain retired r queue : forall tr n t w rep,
  NoDup queue -> fiber_reachable false tr w -> (forall u, (t <= u)%N -> w_tasks w !! u = None) ->
  (forall i, i ∈ queue -> exists f, w_fibers w !! i = Some f /\ transition f = None) ->
  exists w' blocks,
    (exists fuel, coordinate live host fuel n t w r (Draining retired queue rep) =
      Some (w', Ok {| driven := driven rep ++ queue; report_errors := report_errors rep;
                      report_cleanup := report_cleanup rep ++ unclean w' queue; provider_finalized := true |})) /\
    fiber_reachable false (tr ++ concat blocks) w' /\ Forall2 cleanup_of queue blocks /\
    (forall i, i ∈ queue -> is_drained w' i) /\ (forall i, i ∉ queue -> w_fibers w' !! i = w_fibers w !! i).
Proof.
  induction queue as [|i queue IH]; intros tr n t w rep Hn Hr Hfresh Hfree.
  { exists w, []. rewrite !app_nil_r. split_and!; [|done|constructor| |done].
    - by exists 2.
    - by intros i Hi%elem_of_nil. }
  apply NoDup_cons in Hn as [Hi Hn]. destruct (Hfree i ltac:(left)) as (f & Hf & Htr).
  set (o := Deactivate (if holds_retired w i retired then Some retired else None)).
  destruct (call_ends tr w i f t host o _ n Hr Hf Htr (Hfresh t ltac:(lia)) (ends_deactivate t host answering n _ f _
      (li_free _ (reachable_life _ _ Hr) i f Hf Htr) Htr))
    as (es & m & w1 & f1 & x & Ha & Hr1 & Hes & [Hof Hot] & Hret & Hf1 & _ & Hdr & y & ->).
  destruct (IH (tr ++ es) m (N.succ (N.succ t)) w1
    (append_cleanup_failure w1 i (report_error i (Stable y) (report_driven i rep))))
    as (w' & blocks & Hrun & Hr' & Hb & Hall & Hframe); [done|done| | |].
  { intros u Hu. rewrite Hot by lia. apply Hfresh. lia. }
  { intros j Hj. assert (j <> i) by (by intros ->). rewrite Hof by done. apply Hfree. by right. }
  exists w', (es :: blocks). split_and!.
  - rewrite append_cleanup_unclean in Hrun. cbn [driven report_errors report_cleanup report_driven report_error] in Hrun.
    rewrite <- !app_assoc in Hrun. eapply coordinate_steps; [reflexivity|]. eapply (coordinate_call (N.succ t) r _ t); [exact Ha|done|].
    eapply coordinate_steps; [cbn [coordinator_step]; unfold outcome_of; rewrite Hret; reflexivity|].
    rewrite append_cleanup_unclean. cbn [driven report_errors report_cleanup report_driven report_error provider_finalized].
    assert (Hu : unclean w' (i :: queue) = unclean w1 [i] ++ unclean w' queue).
    { change (i :: queue) with ([i] ++ queue). rewrite <- (unclean_frame w1 w' [i]); [apply omap_app|].
      intros j ->%list_elem_of_singleton. by apply Hframe. }
    rewrite Hu. exact Hrun.
  - cbn [concat]. by rewrite app_assoc.
  - by constructor.
  - intros j [->|Hj]%elem_of_cons; [|by apply Hall]. exists f1. by rewrite Hframe.
  - intros j [Hj1 Hj2]%not_elem_of_cons. rewrite Hframe by done. by apply Hof.
Qed.
End coordinating.

(** The fibers a coordinator finds when it asks. *)
Definition names_of (live : gset FiberId) (r : ReactiveRuntime) : list FiberId := set_iter (watched r ∩ live).
(** What a withdrawal of the publication [retired] has done. *)
Record withdrawn (tr : list event) (w w' : world) (names : list FiberId) (retired : CapabilityEntry)
  (rep : ReconcileReport) : Prop := {
  wd_plan : ordered_plan w names (identity_of_handle retired) (driven rep);
  wd_drained i : i ∈ driven rep -> is_drained w' i;
  wd_others i : i ∉ driven rep -> w_fibers w' !! i = w_fibers w !! i;
  wd_cleanups : exists blocks, fiber_reachable false (tr ++ concat blocks) w' /\ Forall2 cleanup_of (driven rep) blocks;
  wd_unclean : report_cleanup rep = unclean w' (driven rep)
}.

(** C8: Withdrawing a provider drains exactly the fibers it concerns, dependents
    first, and then returns.  In a world without dropped calls, with the watched
    fibers' locks free, a host that answers and no one else moving,
    [withdraw_and_reconcile] returns.  If nothing is published under
    the capability it reports a finalized provider and changes nothing; if the
    scope refuses the withdrawal it returns that refusal and changes nothing.
    Otherwise it drives, once each, exactly the watched fibers that the retired
    publication concerns: its publisher, the fibers bound to it, and
    transitively those bound to what they publish, every fiber before the fibers
    whose publications it is bound to.  Afterwards none of them is active, holds
    a publication or holds its lock, and no other fiber has moved; the effects of
    the driven fibers were run one fiber after the other in that order; the
    report has no fiber error and lists every driven fiber whose cleanup
    failed. *)
Theorem withdrawal_drains tr w live r host t c expected :
  fiber_reachable false tr w -> (forall n p, answers p (host n p)) ->
  (forall u, (t <= u)%N -> w_tasks w !! u = None) ->
  (forall i, i ∈ watched r -> i ∈ live -> exists f, w_fibers w !! i = Some f /\ transition f = None) ->
  exists w' x,
    (exists fuel, coordinate live host fuel 0 t w r (withdraw_and_reconcile c expected) = Some (w', x)) /\
    match get_local (tree (w_shared w)) (reactive_scope r) c, (withdraw (tree (w_shared w)) (reactive_scope r) c expected).2 with
    | None, _ => x = Ok (finalize ReconcileReport_default) /\ w' = w
    | Some _, Err e => x = Err (ReactiveScope e) /\ w' = w
    | Some _, Ok retired =>
        exists rep, x = Ok rep /\ report_errors rep = [] /\ provider_finalized rep = true /\
          withdrawn tr w w' (names_of live r) retired rep
    | _, _ => False
    end.
Proof.
  intros Hr Hhost Hfresh Hfree.
  assert (Hstart : coordinator_step live t w r (Asked c expected) = Some (w, r,
    match get_local (tree (w_shared w)) (reactive_scope r) c with
    | None => Finished (Ok (finalize ReconcileReport_default))
    | Some _ => Withdrawing c expected
    end)) by done.
  destruct (get_local (tree (w_shared w)) (reactive_scope r) c) as [e|].
  2:{ exists w, (Ok (finalize ReconcileReport_default)). split; [|done].
      eapply coordinate_steps; [exact Hstart|apply coordinate_finished]. }
  pose proof (withdraw_cases (tree (w_shared w)) (reactive_scope r) c expected) as Hcases.
  assert (Hstep : fiber_step false w [] (with_pending (w_pending w) (with_shared (set_tree
    (withdraw (tree (w_shared w)) (reactive_scope r) c expected).1 (w_shared w)) w))) by (by apply step_tree, step_withdraw).
  destruct (withdraw (tree (w_shared w)) (reactive_scope r) c expected) as [rt [retired|er| |]] eqn:Hw;
    cbn [fst snd] in *; [| |done..].
  2:{ exists w, (Err (ReactiveScope er)). split; [|done]. eapply coordinate_steps; [exact Hstart|].
      eapply coordinate_steps; [cbn [coordinator_step]; rewrite Hw; reflexivity|apply coordinate_finished]. }
  set (w1 := with_shared (set_tree rt (w_shared w)) w) in *.
  assert (Hr1 : fiber_reachable false tr w1).
  { rewrite <- (app_nil_r tr). eapply reach_step; [exact Hr|]. by destruct w. }
  destruct (withdrawal_plan_exact tr w1 (names_of live r) retired Hr1 (NoDup_set_iter _)) as (order & Ho & Hplan).
  assert (Hnames : forall i, i ∈ order -> exists f, w_fibers w1 !! i = Some f /\ transition f = None).
  { intros i Hi%(plan_concerns _ _ _ _ Hplan)%concerned_watched%elem_of_set_iter.
    apply elem_of_intersection in Hi as [Hi Hl]. by apply Hfree. }
  destruct (drain live host Hhost retired {| reactive_context := reactive_context r; watched := watched r ∩ live |} order tr 0
    (N.succ (N.succ (N.succ t))) w1 ReconcileReport_default) as (w' & blocks & Hrun & Hr' & Hb & Hall & Hframe);
    [by apply Hplan|done|intros u Hu; apply Hfresh; lia|done|].
  eexists w', _. split.
  - eapply coordinate_steps; [exact Hstart|].
    eapply coordinate_steps; [cbn [coordinator_step]; rewrite Hw; reflexivity|].
    eapply coordinate_steps; [|exact Hrun]. cbn [coordinator_step fst snd]. unfold snapshot_fibers. cbn [snd fst].
    unfold names_of in Ho. fold w1. rewrite Ho. reflexivity.
  - eexists. split_and!; [reflexivity|done|done|]. split; cbn [driven report_cleanup].
    + exact (ordered_plan_frame w1 w _ _ _ eq_refl Hplan).
    + done.
    + done.
    + by exists blocks.
    + done.
Qed.

(** ** Witness: the loaded sample is withdrawn *)
Definition sample_coordinator : ReactiveRuntime := {| reactive_context := from_scope [0]; watched := {[1%N]} |}.
Lemma loaded_tasks u : (5 <= u)%N -> w_tasks loaded.2 !! u = None.
Proof.
  intros Hu. assert (Hall : bool_decide (map_Forall (fun u _ => (u < 5)%N) (w_tasks loaded.2)) = true) by (vm_compute; reflexivity).
  apply bool_decide_eq_true in Hall. apply eq_None_not_Some. intros [k Hk]. specialize (Hall u k Hk). cbn in Hall. lia.
Qed.
Lemma loaded_publishes :
  exists retired, (withdraw (tree (w_shared loaded.2)) (reactive_scope sample_coordinator) "p" 1%N).2 = Ok retired /\
    publishes loaded.2 1%N (identity_of_handle retired).
Proof.
  assert (Hw : match (withdraw (tree (w_shared loaded.2)) (reactive_scope sample_coordinator) "p" 1%N).2 with
    | Ok h => (fun f => identity_of_handle <$> handle (cells f)) <$> w_fibers loaded.2 !! 1%N = Some (Some (identity_of_handle h))
    | _ => False end) by (vm_compute; reflexivity).
  destruct (withdraw (tree (w_shared loaded.2)) (reactive_scope sample_coordinator) "p" 1%N).2 as [retired| | |]; try contradiction.
  exists retired. split; [reflexivity|]. destruct (w_fibers loaded.2 !! 1%N) as [f|] eqn:Hf; [|discriminate Hw].
  injection Hw as Hw. destruct (handle (cells f)) as [h|] eqn:Hh; [|discriminate Hw]. injection Hw as H1 H2 H3.
  exists f, h. split; [exact Hf|]. split; [exact Hh|]. unfold identity_of_handle. by rewrite H1, H2, H3.
Qed.
Lemma withdrawal_drains_witness :
  exists fuel w' rep,
    coordinate {[1%N]} obliging fuel 0 5%N loaded.2 sample_coordinator (withdraw_and_reconcile "p" 1%N) = Some (w', Ok rep) /\
    1%N ∈ driven rep /\ is_drained w' 1%N.
Proof.
  destruct (withdrawal_drains loaded.1 loaded.2 {[1%N]} sample_coordinator obliging 5%N "p" 1%N
    (loaded_reachable false) obliging_answers loaded_tasks) as (w' & x & [fuel Hrun] & Hx).
  { intros i Hi _. change (i ∈ ({[1%N]} : gset N)) in Hi. apply elem_of_singleton_1 in Hi. rewrite Hi. destruct loaded_fiber as (f & Hf & _ & Ht & _).
    exists f. exact (conj Hf Ht). }
  assert (Hl : bool_decide (is_Some (get_local (tree (w_shared loaded.2)) (reactive_scope sample_coordinator) "p")) = true)
    by (vm_compute; reflexivity).
  apply bool_decide_eq_true in Hl as [e He]. rewrite He in Hx.
  destruct loaded_publishes as (retired & Hw & Hp). rewrite Hw in Hx.
  destruct Hx as (rep & -> & _ & _ & Hd). exists fuel, w', rep. split; [exact Hrun|].
  assert (Hin : 1%N ∈ driven rep); [|exact (conj Hin (wd_drained _ _ _ _ _ _ Hd 1%N Hin))].
  apply (plan_concerns _ _ _ _ (wd_plan _ _ _ _ _ _ Hd)). apply concerned_directly; [|left; exact Hp].
  vm_compute. left.
Defined.
