(* ===== verification/RunDefinition.v ===== *)
(** * Declarative run definitions: [crates/runtime-core/src/definition.rs]

    The stable inputs a runtime is reconstructed from, their validation
    against the workflow and capability authorities, the canonical identity
    under which a run is stored, and the registry of capability factories.
    Newtypes of strings are represented by their text.  A factory, a closure of
    the host, is an opaque name. *)
From stdpp Require Export pretty.
From S2P Require Export WorkflowFacts Durable CapabilityGraphFacts.
#[local] Open Scope string_scope.
#[local] Open Scope nat_scope.
#[local] Open Scope list_scope.

Definition RUN_DEFINITION_FORMAT : string := "kernis-run-definition-v2".

(** ** Declarations *)
Definition DefinitionIdentity : Set := string.
#[export] Instance DefinitionIdentity_eq_dec : EqDecision DefinitionIdentity := String.eq_dec.
Record CapabilityRequirement := {
  required_capability_id : Id;
  required_identity : DefinitionIdentity
}.
#[export] Instance CapabilityRequirement_eq_dec : EqDecision CapabilityRequirement.
Proof. solve_decision. Defined.
Record CapabilityDeclaration := {
  declared_id : Id;
  declared_kind : string;
  declared_identity : DefinitionIdentity;
  declared_dependencies : list CapabilityRequirement
}.
#[export] Instance CapabilityDeclaration_eq_dec : EqDecision CapabilityDeclaration.
Proof. solve_decision. Defined.
Definition CapabilityDeclaration_new (id : Id) (kind : string) (i : DefinitionIdentity) :
  CapabilityDeclaration :=
  {| declared_id := id; declared_kind := kind; declared_identity := i;
     declared_dependencies := [] |}.
Definition declaration_depends_on (c : CapabilityDeclaration) (r : CapabilityRequirement) :
  CapabilityDeclaration :=
  {| declared_id := declared_id c; declared_kind := declared_kind c;
     declared_identity := declared_identity c;
     declared_dependencies := declared_dependencies c ++ [r] |}.
Definition implicit (r : CapabilityRequirement) : CapabilityDeclaration :=
  CapabilityDeclaration_new (required_capability_id r) "capability" (required_identity r).

Record EffectSpec := {
  spec_operation_id : OperationId;
  spec_semantics : EffectSemantics
}.
#[export] Instance EffectSpec_eq_dec : EqDecision EffectSpec.
Proof. solve_decision. Defined.
Record TaskDefinition := {
  td_id : Id;
  td_label : string;
  td_dependencies : list Id;
  td_required : list CapabilityRequirement;
  td_effect : option EffectSpec
}.
#[export] Instance TaskDefinition_eq_dec : EqDecision TaskDefinition.
Proof. solve_decision. Defined.
Definition TaskDefinition_new (id : Id) (label : string) : TaskDefinition :=
  {| td_id := id; td_label := label; td_dependencies := []; td_required := []; td_effect := None |}.
Definition task_depends_on (t : TaskDefinition) (d : Id) : TaskDefinition :=
  {| td_id := td_id t; td_label := td_label t; td_dependencies := td_dependencies t ++ [d];
     td_required := td_required t; td_effect := td_effect t |}.
Definition require_capability (t : TaskDefinition) (r : CapabilityRequirement) : TaskDefinition :=
  {| td_id := td_id t; td_label := td_label t; td_dependencies := td_dependencies t;
     td_required := td_required t ++ [r]; td_effect := td_effect t |}.
Definition with_effect (t : TaskDefinition) (o : OperationId) (s : EffectSemantics) : TaskDefinition :=
  {| td_id := td_id t; td_label := td_label t; td_dependencies := td_dependencies t;
     td_required := td_required t;
     td_effect := Some {| spec_operation_id := o; spec_semantics := s |} |}.

Record RunDefinition := {
  run_tasks : list TaskDefinition;
  run_capabilities : list CapabilityDeclaration
}.
Definition RunDefinition_new : RunDefinition := {| run_tasks := []; run_capabilities := [] |}.
Definition add_task (r : RunDefinition) (t : TaskDefinition) : RunDefinition :=
  {| run_tasks := run_tasks r ++ [t]; run_capabilities := run_capabilities r |}.
Definition add_capability (r : RunDefinition) (c : CapabilityDeclaration) : RunDefinition :=
  {| run_tasks := run_tasks r; run_capabilities := run_capabilities r ++ [c] |}.

Inductive DefinitionError :=
  | DefinitionDuplicateTask (id : Id)
  | DuplicateTaskConfiguration (id : Id)
  | DuplicateCapability (id : Id)
  | DuplicateTaskDependency (task dependency : Id)
  | DuplicateCapabilityDependency (capability dependency : Id)
  | DuplicateCapabilityRequirement (task capability : Id)
  | DefinitionUnknownTask (id : Id)
  | CapabilityIdentityMismatch (capability : Id) (expected actual : DefinitionIdentity)
  | DuplicateOperation (o : OperationId)
  | DefinitionWorkflow (e : WorkflowGraphError)
  | DefinitionCapabilityGraph (e : CapabilityGraphError)
  | InvalidDefinition (reason : string).
#[export] Instance DefinitionError_eq_dec : EqDecision DefinitionError.
Proof. solve_decision. Defined.

Definition DefinitionIdentity_new (value : string) : result DefinitionError DefinitionIdentity :=
  if trim_is_empty value then Err (InvalidDefinition "definition identity must not be empty")
  else Ok value.

(** ** Validation *)
Definition insert_task (tasks : gmap Id TaskDefinition) (t : TaskDefinition) :
  result DefinitionError (gmap Id TaskDefinition) :=
  match tasks !! td_id t with
  | Some _ => Err (DefinitionDuplicateTask (td_id t))
  | None => Ok (<[td_id t := t]> tasks)
  end.
Definition unique_tasks (ts : list TaskDefinition) :
  result DefinitionError (gmap Id TaskDefinition) := foldM insert_task ts ∅.
Definition insert_capability (cs : gmap Id CapabilityDeclaration) (c : CapabilityDeclaration) :
  result DefinitionError (gmap Id CapabilityDeclaration) :=
  match cs !! declared_id c with
  | Some _ => Err (DuplicateCapability (declared_id c))
  | None => Ok (<[declared_id c := c]> cs)
  end.
Definition unique_capabilities (cs : list CapabilityDeclaration) :
  result DefinitionError (gmap Id CapabilityDeclaration) := foldM insert_capability cs ∅.

Definition validate_identity (i : DefinitionIdentity) : result DefinitionError unit :=
  if trim_is_empty i then Err (InvalidDefinition "definition identity must not be empty") else Ok tt.

(** The three checks of one task: its dependencies, its requirements, its
    effect; the sets of what was seen are threaded as in the source. *)
Definition check_task_dependency (tasks : gmap Id TaskDefinition) (t : TaskDefinition)
  (seen : gset Id) (d : Id) : result DefinitionError (gset Id) :=
  if bool_decide (d ∈ seen) then Err (DuplicateTaskDependency (td_id t) d)
  else if bool_decide (is_Some (tasks !! d)) then Ok ({[d]} ∪ seen)
  else Err (DefinitionUnknownTask d).
Definition check_task_requirement (t : TaskDefinition) (seen : gset Id)
  (r : CapabilityRequirement) : result DefinitionError (gset Id) :=
  _ ← validate_identity (required_identity r);
  if bool_decide (required_capability_id r ∈ seen)
  then Err (DuplicateCapabilityRequirement (td_id t) (required_capability_id r))
  else Ok ({[required_capability_id r]} ∪ seen).
Definition check_task (tasks : gmap Id TaskDefinition) (operations : gset OperationId)
  (t : TaskDefinition) : result DefinitionError (gset OperationId) :=
  _ ← foldM (check_task_dependency tasks t) (td_dependencies t) ∅;
  _ ← foldM (check_task_requirement t) (td_required t) ∅;
  match td_effect t with
  | None => Ok operations
  | Some e =>
      if bool_decide (spec_operation_id e ∈ operations)
      then Err (DuplicateOperation (spec_operation_id e))
      else Ok ({[spec_operation_id e]} ∪ operations)
  end.
Definition validate_tasks (tasks : gmap Id TaskDefinition) : result DefinitionError unit :=
  _ ← foldM (check_task tasks) (map_values tasks) ∅; Ok tt.

Definition check_capability_dependency (c : CapabilityDeclaration) (seen : gset Id)
  (r : CapabilityRequirement) : result DefinitionError (gset Id) :=
  _ ← validate_identity (required_identity r);
  if bool_decide (required_capability_id r ∈ seen)
  then Err (DuplicateCapabilityDependency (declared_id c) (required_capability_id r))
  else Ok ({[required_capability_id r]} ∪ seen).
Definition check_capability (c : CapabilityDeclaration) : result DefinitionError unit :=
  _ ← validate_identity (declared_identity c);
  _ ← foldM (check_capability_dependency c) (declared_dependencies c) ∅; Ok tt.
Definition validate_capabilities (cs : gmap Id CapabilityDeclaration) : result DefinitionError unit :=
  foldM (fun _ c => check_capability c) (map_values cs) tt.

Definition all_requirements (tasks : gmap Id TaskDefinition)
  (cs : gmap Id CapabilityDeclaration) : list CapabilityRequirement :=
  (map_values tasks ≫= td_required) ++ (map_values cs ≫= declared_dependencies).
Definition materialize (cs : gmap Id CapabilityDeclaration) (r : CapabilityRequirement) :
  result DefinitionError (gmap Id CapabilityDeclaration) :=
  match cs !! required_capability_id r with
  | Some c =>
      if bool_decide (declared_identity c = required_identity r) then Ok cs
      else Err (CapabilityIdentityMismatch (required_capability_id r) (declared_identity c)
                  (required_identity r))
  | None => Ok (<[required_capability_id r := implicit r]> cs)
  end.
Definition materialize_implicit_capabilities (tasks : gmap Id TaskDefinition)
  (cs : gmap Id CapabilityDeclaration) : result DefinitionError (gmap Id CapabilityDeclaration) :=
  foldM materialize (all_requirements tasks cs) cs.

Definition workflow_mutations (tasks : gmap Id TaskDefinition) : list WorkflowMutation :=
  ((fun t => AddTask {| task_id := td_id t; label := td_label t |}) <$> map_values tasks)
  ++ (map_values tasks ≫= fun t => AddDependency (td_id t) <$> td_dependencies t).
Definition validate_workflow (tasks : gmap Id TaskDefinition) : result DefinitionError unit :=
  let mutations := workflow_mutations tasks in
  if bool_decide (mutations = []) then Ok tt
  else
    let workflow := WorkflowGraph_default in
    _ ← map_err DefinitionWorkflow (apply_batch workflow (topology_revision workflow) mutations).2;
    Ok tt.

Definition capability_definition (c : CapabilityDeclaration) : CapabilityDefinition :=
  foldl (fun d r => add_dependency d (required_capability_id r))
    (with_replay_identity (CapabilityDefinition_new (declared_id c) (declared_kind c))
       (declared_identity c))
    (declared_dependencies c).
Definition validate_capability_graph (cs : gmap Id CapabilityDeclaration) :
  result DefinitionError unit :=
  let graph := foldl (fun g c => (graph_insert g (capability_definition c)).1)
                 CapabilityGraph_default (map_values cs) in
  _ ← map_err DefinitionCapabilityGraph (resolve graph); Ok tt.

(** ** The canonical identity *)

(** The writers append to the text and return it. *)
Definition push_tag (canonical tag : string) : string := canonical +:+ "#" +:+ tag.
Definition push_count (canonical : string) (count : nat) : string :=
  canonical +:+ "[" +:+ pretty count +:+ "]".
Definition push_value (canonical value : string) : string :=
  canonical +:+ "%" +:+ pretty (String.length value) +:+ ":" +:+ value.
(** [sort_by] on the capability identifiers; they are distinct where this is
    called, so that any sort gives the same list. *)
Definition requirement_le (x y : CapabilityRequirement) : Prop :=
  ord_le (required_capability_id x) (required_capability_id y).
#[export] Instance requirement_le_dec : RelDecision requirement_le.
Proof. intros x y. unfold requirement_le. apply _. Defined.
Definition push_requirement (canonical : string) (r : CapabilityRequirement) : string :=
  push_value (push_value canonical (required_capability_id r)) (required_identity r).
Definition push_requirements (canonical : string) (rs : list CapabilityRequirement) : string :=
  let rs := merge_sort requirement_le rs in
  let canonical := push_count (push_tag canonical "requires") (length rs) in
  push_tag (foldl push_requirement canonical rs) "end".

Definition push_capability (canonical : string) (c : CapabilityDeclaration) : string :=
  let canonical := push_tag canonical "capability" in
  let canonical := push_value canonical (declared_id c) in
  let canonical := push_value canonical (declared_kind c) in
  let canonical := push_value canonical (declared_identity c) in
  push_requirements canonical (declared_dependencies c).
Definition semantics_tag (s : EffectSemantics) : string :=
  match s with Idempotent => "idempotent" | NonIdempotent => "non_idempotent" end.
Definition push_task (canonical : string) (t : TaskDefinition) : string :=
  let canonical := push_value (push_tag canonical "task") (td_id t) in
  let deps := merge_sort ord_le (td_dependencies t : list string) in
  let canonical := push_count (push_tag canonical "depends") (length deps) in
  let canonical := push_tag (foldl push_value canonical deps) "end" in
  let canonical := push_requirements canonical (td_required t) in
  let canonical := push_tag canonical "effect" in
  match td_effect t with
  | Some e =>
      push_tag (push_value (push_tag canonical "present") (spec_operation_id e))
        (semantics_tag (spec_semantics e))
  | None => push_tag canonical "absent"
  end.
Definition canonical_text (tasks : gmap Id TaskDefinition) (cs : gmap Id CapabilityDeclaration) :
  string :=
  let canonical := push_tag RUN_DEFINITION_FORMAT "capabilities" in
  let canonical := push_count canonical (length (map_values cs)) in
  let canonical := push_tag (foldl push_capability canonical (map_values cs)) "end" in
  let canonical := push_tag canonical "tasks" in
  let canonical := push_count canonical (length (map_values tasks)) in
  push_tag (foldl push_task canonical (map_values tasks)) "end".
Record ValidatedRunDefinition := {
  validated_tasks : gmap Id TaskDefinition;
  validated_capabilities : gmap Id CapabilityDeclaration;
  validated_identity : WorkflowReplayIdentity
}.

Section validated.
Context `{StoreFormat}.
Definition canonical_identity (tasks : gmap Id TaskDefinition)
  (cs : gmap Id CapabilityDeclaration) : result DefinitionError WorkflowReplayIdentity :=
  map_err (fun e => InvalidDefinition (StoreError_display e))
    (WorkflowReplayIdentity_new (canonical_text tasks cs)).

Definition validated (r : RunDefinition) : result DefinitionError ValidatedRunDefinition :=
  tasks ← unique_tasks (run_tasks r);
  cs ← unique_capabilities (run_capabilities r);
  _ ← validate_tasks tasks;
  _ ← validate_capabilities cs;
  cs ← materialize_implicit_capabilities tasks cs;
  _ ← validate_capabilities cs;
  _ ← validate_capability_graph cs;
  _ ← validate_workflow tasks;
  identity ← canonical_identity tasks cs;
  Ok {| validated_tasks := tasks; validated_capabilities := cs; validated_identity := identity |}.
Definition validate (r : RunDefinition) : result DefinitionError unit :=
  _ ← validated r; Ok tt.
Definition identity (r : RunDefinition) : result DefinitionError WorkflowReplayIdentity :=
  v ← validated r; Ok (validated_identity v).
End validated.

(** ** Factories *)
Definition CapabilityFactory : Set := N.
Definition FactoryKey : Set := Id * DefinitionIdentity.
Record FactoryRegistry := { factories : gmap FactoryKey CapabilityFactory }.
Definition FactoryRegistry_new : FactoryRegistry := {| factories := ∅ |}.
Inductive FactoryResolutionError :=
  | DuplicateDefinitionIdentity (capability : Id) (i : DefinitionIdentity)
  | InvalidDefinitionIdentity (i : string)
  | MissingFactory (capability : Id) (i : DefinitionIdentity)
  | FactoryConstructionFailed (capability : Id) (i : DefinitionIdentity) (reason : string).
Definition register_factory (f : FactoryRegistry) (c : Id) (i : DefinitionIdentity)
  (factory : CapabilityFactory) : FactoryRegistry * result FactoryResolutionError unit :=
  if trim_is_empty i then (f, Err (InvalidDefinitionIdentity i))
  else match factories f !! (c, i) with
  | Some _ => (f, Err (DuplicateDefinitionIdentity c i))
  | None => ({| factories := <[(c, i) := factory]> (factories f) |}, Ok tt)
  end.
Definition contains_factory (f : FactoryRegistry) (c : Id) (i : DefinitionIdentity) : bool :=
  bool_decide (is_Some (factories f !! (c, i))).
Definition validate_factory (f : FactoryRegistry) (c : CapabilityDeclaration) :
  result FactoryResolutionError unit :=
  if contains_factory f (declared_id c) (declared_identity c) then Ok tt
  else Err (MissingFactory (declared_id c) (declared_identity c)).
Definition validate_registry (f : FactoryRegistry) (v : ValidatedRunDefinition) :
  result FactoryResolutionError unit :=
  foldM (fun _ c => validate_factory f c) (map_values (validated_capabilities v)) tt.
Definition factory_for (f : FactoryRegistry) (c : Id) (i : DefinitionIdentity) :
  option CapabilityFactory := factories f !! (c, i).
