(* ===== verification/RunDefinitionFacts.v ===== *)
(** * Facts about the validation of run definitions *)
From S2P Require Export RunDefinition.
#[local] Open Scope string_scope.
#[local] Open Scope nat_scope.
#[local] Open Scope list_scope.

(** ** The parts of [validated] *)
Definition nonblank (s : string) : Prop := trim_is_empty s = false.
Lemma validate_identity_Ok i : validate_identity i = Ok tt <-> nonblank i.
Proof. unfold validate_identity, nonblank. by destruct (trim_is_empty i). Qed.

Definition requirement_ids (rs : list CapabilityRequirement) : list Id := required_capability_id <$> rs.

(** One task is as it should be, apart from its operation. *)
Definition task_ok (ids : gset Id) (t : TaskDefinition) : Prop :=
  NoDup (td_dependencies t) /\ (forall d, d ∈ td_dependencies t -> d ∈ ids) /\
  NoDup (requirement_ids (td_required t)) /\
  forall r, r ∈ td_required t -> nonblank (required_identity r).
Definition task_operation (t : TaskDefinition) : option OperationId :=
  spec_operation_id <$> td_effect t.
Lemma check_task_Ok tasks ops t ops' :
  check_task tasks ops t = Ok ops' <->
  task_ok (dom tasks) t /\ (forall o, task_operation t = Some o -> o ∉ ops) /\
  ops' = match task_operation t with Some o => {[o]} ∪ ops | None => ops end.
Proof.
  assert (Hdeps : is_Ok (foldM (check_task_dependency tasks t) (td_dependencies t) ∅) <->
    (forall d, d ∈ td_dependencies t -> d ∈ (dom tasks : gset Id)) /\ NoDup (td_dependencies t)).
  { rewrite (foldM_seen (fun d => d ∈ (dom tasks : gset Id)) Some).
    - rewrite omap_Some_fmap, list_fmap_id. set_solver.
    - intros s d s'. unfold check_task_dependency. rewrite elem_of_dom.
      repeat case_bool_decide; naive_solver. }
  assert (Hreqs : is_Ok (foldM (check_task_requirement t) (td_required t) ∅) <->
    (forall r, r ∈ td_required t -> nonblank (required_identity r)) /\
    NoDup (requirement_ids (td_required t))).
  { rewrite (foldM_seen (fun r => nonblank (required_identity r))
      (fun r => Some (required_capability_id r))).
    - rewrite omap_Some_fmap. set_solver.
    - intros s r s'. unfold check_task_requirement, validate_identity, nonblank.
      destruct (trim_is_empty _); cbn; [naive_solver|]. case_bool_decide; naive_solver. }
  unfold check_task, task_ok. split.
  - intros (s1 & H1 & H2)%bind_Ok. apply bind_Ok in H2 as (s2 & H2 & H3).
    destruct (proj1 Hdeps ltac:(by eexists)) as [? ?].
    destruct (proj1 Hreqs ltac:(by eexists)) as [? ?]. split; [by split_and!|].
    unfold task_operation. destruct (td_effect t) as [e|]; cbn; [|by simplify_eq].
    case_bool_decide; [done|]. simplify_eq. naive_solver.
  - intros [(H1 & H2 & H3 & H4) [Ho ->]].
    destruct (proj2 Hdeps (conj H2 H1)) as [s1 ->]. destruct (proj2 Hreqs (conj H4 H3)) as [s2 ->].
    cbn [mbind result_bind]. unfold task_operation in *. destruct (td_effect t) as [e|]; [|done].
    cbn in *. rewrite bool_decide_false; [done|]. by apply Ho.
Qed.
Lemma validate_tasks_Ok tasks :
  is_Ok (validate_tasks tasks) <->
  (forall t, t ∈ map_values tasks -> task_ok (dom tasks) t) /\
  NoDup (omap task_operation (map_values tasks)).
Proof.
  unfold validate_tasks. rewrite is_Ok_then.
  rewrite (foldM_seen (task_ok (dom tasks)) task_operation) by apply check_task_Ok.
  pose proof (is_Ok_ret (E := DefinitionError) tt). set_solver.
Qed.
Definition capability_ok (c : CapabilityDeclaration) : Prop :=
  nonblank (declared_identity c) /\ NoDup (requirement_ids (declared_dependencies c)) /\
  forall r, r ∈ declared_dependencies c -> nonblank (required_identity r).
Lemma validate_capabilities_Ok cs :
  is_Ok (validate_capabilities cs) <-> forall c, c ∈ map_values cs -> capability_ok c.
Proof.
  assert (Hone : forall c, is_Ok (check_capability c) <-> capability_ok c).
  { intros c. unfold check_capability, capability_ok.
    rewrite !is_Ok_then, is_Ok_unit, validate_identity_Ok.
    rewrite (foldM_seen (fun r => nonblank (required_identity r))
        (fun r => Some (required_capability_id r))).
    - rewrite omap_Some_fmap. pose proof (is_Ok_ret (E := DefinitionError) tt).
      unfold requirement_ids. set_solver.
    - intros s r s'. unfold check_capability_dependency, validate_identity, nonblank.
      destruct (trim_is_empty _); cbn; [naive_solver|]. case_bool_decide; naive_solver. }
  unfold validate_capabilities. rewrite foldM_each. by setoid_rewrite Hone.
Qed.

(** Implicit capabilities: one per requirement that names no declaration. *)
Definition consistent (cs : gmap Id CapabilityDeclaration) (rs : list CapabilityRequirement) : Prop :=
  (forall r c, r ∈ rs -> cs !! required_capability_id r = Some c ->
     declared_identity c = required_identity r) /\
  (forall r r', r ∈ rs -> r' ∈ rs -> required_capability_id r = required_capability_id r' ->
     cs !! required_capability_id r = None -> required_identity r = required_identity r').
Lemma consistent_nil cs : consistent cs [].
Proof. split; by intros * ?%elem_of_nil. Qed.
Lemma consistent_cons_declared cs r rs c :
  cs !! required_capability_id r = Some c ->
  consistent cs (r :: rs) <-> declared_identity c = required_identity r /\ consistent cs rs.
Proof.
  intros Ec. split.
  - intros [C1 C2]. split; [apply (C1 r); [left|done]|]. split.
    + intros r' c' Hin. apply C1. by right.
    + intros r1 r2 H1 H2. apply C2; by right.
  - intros [Hid [C1 C2]]. split.
    + intros r' c' [->|Hin]%elem_of_cons Hc; [congruence|by apply C1].
    + intros r1 r2 [->|H1]%elem_of_cons [->|H2]%elem_of_cons Heq Hn; try congruence. by apply C2.
Qed.
Lemma consistent_cons_implicit cs r rs :
  cs !! required_capability_id r = None ->
  consistent cs (r :: rs) <-> consistent (<[required_capability_id r := implicit r]> cs) rs.
Proof.
  intros Ec. split; intros [C1 C2].
  - split.
    + intros r' c Hin. rewrite lookup_insert_Some. intros [[Heq <-]|[_ Hc]].
      * apply (C2 r r'); [left|by right|done|done].
      * apply C1; [by right|done].
    + intros r1 r2 H1 H2 Heq [Hn _]%lookup_insert_None. apply C2; [by right|by right|done|done].
  - assert (Hsame : forall r', r' ∈ rs -> required_capability_id r' = required_capability_id r ->
      required_identity r' = required_identity r).
    { intros r' Hin Heq. symmetry. apply (C1 r' (implicit r) Hin). by rewrite Heq, lookup_insert_eq. }
    split.
    + intros r' c [->|Hin]%elem_of_cons Hc; [congruence|]. apply C1; [done|].
      rewrite lookup_insert_ne; [done|]. intros Heq. by rewrite <- Heq, Ec in Hc.
    + intros r1 r2 [->|H1]%elem_of_cons [->|H2]%elem_of_cons Heq Hn; [done|..].
      * symmetry. by apply Hsame.
      * by apply Hsame.
      * destruct (decide (required_capability_id r1 = required_capability_id r)) as [Hr1|Hr1].
        -- rewrite (Hsame r1), (Hsame r2); congruence.
        -- apply C2; try done. by rewrite lookup_insert_ne.
Qed.
Lemma materialize_spec rs cs :
  match foldM materialize rs cs with
  | Ok cs' => consistent cs rs /\
      (forall r, r ∈ rs -> exists c, cs' !! required_capability_id r = Some c /\
         declared_identity c = required_identity r) /\
      (forall k c, cs' !! k = Some c <-> cs !! k = Some c \/
         cs !! k = None /\ exists r, r ∈ rs /\ required_capability_id r = k /\ c = implicit r)
  | Err e => ~ consistent cs rs
  | _ => False
  end.
Proof.
  revert cs. induction rs as [|r rs IH]; intros cs; cbn [foldM].
  { split_and!; [apply consistent_nil|by intros ? ?%elem_of_nil|].
    intros k c. split; [by left|]. intros [?|(_ & r & Hr & _)]; [done|]. by apply elem_of_nil in Hr. }
  assert (Hm : materialize cs r = match cs !! required_capability_id r with
    | Some c => if bool_decide (declared_identity c = required_identity r) then Ok cs
                else Err (CapabilityIdentityMismatch (required_capability_id r) (declared_identity c)
                            (required_identity r))
    | None => Ok (<[required_capability_id r := implicit r]> cs) end) by done.
  rewrite Hm.
  destruct (cs !! required_capability_id r) as [c0|] eqn:Ec; [case_bool_decide as Hid|];
    cbn [mbind result_bind].
  - specialize (IH cs). pose proof (consistent_cons_declared _ r rs _ Ec) as Hiff.
    destruct (foldM materialize rs cs) as [cs'|e| |]; try done; [|tauto].
    destruct IH as (Hc & Hr & Hk). split; [by apply Hiff|]. split.
    + intros r' [->|Hin]%elem_of_cons; [|auto]. exists c0. split; [|done]. apply Hk. by left.
    + intros k c. rewrite Hk. setoid_rewrite elem_of_cons.
      split; [naive_solver|]. intros [?|(Hn & r' & [->|Hin] & Hk' & ->)]; [by left| |naive_solver].
      subst k. congruence.
  - rewrite (consistent_cons_declared _ _ _ _ Ec). tauto.
  - pose proof (consistent_cons_implicit _ r rs Ec) as Hiff.
    specialize (IH (<[required_capability_id r := implicit r]> cs)).
    destruct (foldM materialize rs _) as [cs'|e| |]; try done; [|by rewrite Hiff].
    destruct IH as (Hcons & Hr & Hk). split; [by apply Hiff|]. split.
    + intros r' [->|Hin]%elem_of_cons; [|auto]. exists (implicit r). split; [|done].
      apply Hk. left. by rewrite lookup_insert_eq.
    + intros k c. rewrite Hk, lookup_insert_Some, lookup_insert_None. setoid_rewrite elem_of_cons.
      split.
      * intros [[[<- <-]|[Hne Hc]]|((Hn & Hne) & r' & Hin & <- & ->)]; [right|by left|right].
        -- split; [done|]. exists r. split_and!; [by left|done|done].
        -- split; [done|]. exists r'. split_and!; [by right|done|done].
      * intros [Hc|(Hn & r' & [->|Hin] & <- & ->)].
        -- left. right. split; [|done]. intros Heq. by rewrite <- Heq, Ec in Hc.
        -- left. by left.
        -- destruct (decide (required_capability_id r = required_capability_id r')) as [Heq|Hne].
           ++ left. left. split; [done|]. unfold implicit. rewrite Heq. f_equal.
              apply (proj1 Hcons r' (implicit r) Hin). by rewrite <- Heq, lookup_insert_eq.
           ++ right. split; [done|]. by exists r'.
Qed.

(** ** The two topologies *)
Definition capability_needs (cs : gmap Id CapabilityDeclaration) (x y : Id) : Prop :=
  exists c, cs !! x = Some c /\ y ∈ requirement_ids (declared_dependencies c).
Definition task_needs (tasks : gmap Id TaskDefinition) (x y : Id) : Prop :=
  exists t, tasks !! x = Some t /\ y ∈ td_dependencies t.

Lemma capability_definition_spec c :
  def_id (capability_definition c) = declared_id c /\
  forall y, y ∈ def_dependencies (capability_definition c) <->
    y ∈ requirement_ids (declared_dependencies c).
Proof.
  unfold capability_definition.
  set (d0 := with_replay_identity _ _). assert (Hd0 : def_id d0 = declared_id c) by done.
  assert (Hdeps : def_dependencies d0 = ∅) by done.
  assert (Hf : forall rs d, def_id (foldl (fun d r => add_dependency d (required_capability_id r)) d rs)
      = def_id d /\
    forall y, y ∈ def_dependencies (foldl (fun d r => add_dependency d (required_capability_id r)) d rs)
      <-> y ∈ def_dependencies d \/ y ∈ requirement_ids rs).
  { induction rs as [|r rs IH]; intros d; cbn [foldl].
    - split; [done|]. intros y. unfold requirement_ids. cbn. rewrite elem_of_nil. tauto.
    - destruct (IH (add_dependency d (required_capability_id r))) as [-> Hy]. split; [done|].
      intros y. rewrite Hy. unfold requirement_ids. cbn. rewrite elem_of_cons. set_solver. }
  destruct (Hf (declared_dependencies c) d0) as [-> Hy]. split; [done|].
  intros y. rewrite Hy, Hdeps. set_solver.
Qed.
Lemma validate_capability_graph_Ok cs :
  (forall k c, cs !! k = Some c -> declared_id c = k) ->
  is_Ok (validate_capability_graph cs) <->
  (forall x y, capability_needs cs x y -> is_Some (cs !! y)) /\ acyclic (capability_needs cs).
Proof.
  intros Hkey. unfold validate_capability_graph.
  assert (Hg : foldl (fun g c => (graph_insert g (capability_definition c)).1)
      CapabilityGraph_default (map_values cs) =
    from_definitions (map_values (capability_definition <$> cs))).
  { rewrite map_values_fmap. unfold from_definitions. generalize CapabilityGraph_default.
    induction (map_values cs) as [|c l IH]; intros g; [done|]. cbn. apply IH. }
  rewrite Hg, is_Ok_then. set (g := from_definitions _).
  assert (Hdefs : definitions g = capability_definition <$> cs).
  { apply definitions_from_values. intros k d. rewrite lookup_fmap.
    intros (c & Hc & ->)%fmap_Some. rewrite (proj1 (capability_definition_spec c)). by apply Hkey. }
  assert (Hlook : forall k : Id, definitions g !! k = capability_definition <$> cs !! k).
  { intros k. rewrite Hdefs. apply lookup_fmap. }
  assert (Hneeds : forall x y, needs (definitions g) x y <-> capability_needs cs x y).
  { intros x y. unfold needs, capability_needs. rewrite Hlook. split.
    - intros (d & (c & Hc & ->)%fmap_Some & Hy). exists c. split; [done|].
      by apply capability_definition_spec.
    - intros (c & Hc & Hy). exists (capability_definition c). rewrite Hc. split; [done|].
      by apply capability_definition_spec. }
  assert (Hok : is_Ok (map_err DefinitionCapabilityGraph (resolve g)) <-> is_Ok (resolve g)).
  { destruct (resolve g); (split; [intros [? ?]|intros [? ?]]); try done; by eexists. }
  rewrite Hok, resolve_Ok_iff. unfold closed.
  assert (Hac : acyclic (needs (definitions g)) <-> acyclic (capability_needs cs)).
  { split; apply acyclic_subrel; intros a b; apply Hneeds. }
  assert (Hcl : (forall x y, needs (definitions g) x y -> is_Some (definitions g !! y)) <->
    (forall x y, capability_needs cs x y -> is_Some (cs !! y))).
  { split; intros Hc x y Hxy.
    - apply Hneeds, Hc in Hxy. rewrite Hlook in Hxy. by apply fmap_is_Some in Hxy.
    - apply Hneeds, Hc in Hxy. rewrite Hlook. by apply fmap_is_Some. }
  rewrite Hac, Hcl. pose proof (is_Ok_ret (E := DefinitionError) tt). tauto.
Qed.

(** *** The workflow of the tasks *)
Definition edge_of (m : Id * Id) : WorkflowMutation := AddDependency m.1 m.2.
Definition with_edges (t : WorkflowTopology) (es : list (Id * Id)) (x y : Id) : Prop :=
  WorkflowFacts.depends_on t x y \/ (x, y) ∈ es.
Lemma apply_edges g es :
  wf_topology (topology g) -> completed (facts g) = ∅ ->
  NoDup es -> (forall x y, (x, y) ∈ es -> is_Some (tasks (topology g) !! x) /\
    is_Some (tasks (topology g) !! y) /\ ~ WorkflowFacts.depends_on (topology g) x y) ->
  is_Ok (WorkflowGraph.apply_mutations g (edge_of <$> es)) <-> acyclic (with_edges (topology g) es).
Proof.
  revert g. induction es as [|[x y] es IH]; intros g Hwf Hc Hnd Hes; cbn [fmap list_fmap].
  { split; [|by eexists]. intros _. eapply acyclic_subrel; [|apply grounded_acyclic, Hwf].
    intros a b [Hab|Hab]; [exact Hab|by apply elem_of_nil in Hab]. }
  apply NoDup_cons in Hnd as [Hxy Hnd]. destruct (Hes x y) as (Hx & Hy & Hno); [left|].
  assert (Hiff : forall a b, with_edges (topology g) ((x, y) :: es) a b <->
    with_edges (topology (with_edge x y g)) es a b).
  { intros a b. unfold with_edges. rewrite depends_on_with_edge, elem_of_cons. naive_solver. }
  assert (Hac : acyclic (with_edges (topology g) ((x, y) :: es)) <->
    acyclic (with_edges (topology (with_edge x y g)) es)).
  { split; apply acyclic_subrel; intros a b; apply Hiff. }
  rewrite Hac. cbn [WorkflowGraph.apply_mutations edge_of fst snd].
  assert (Hcx : x ∉ completed (facts g)) by (rewrite Hc; set_solver).
  destruct (apply_mutation_dependency g x y Hwf Hx Hy Hcx Hno) as [[Heq Hed]|(g' & p & Heq & Hp)].
  - unfold edge_of. cbn [fst snd]. rewrite Heq. cbn [mbind result_bind]. apply IH; [|done|done|].
    + by apply wf_topology_with_edge.
    + intros a b Hab. destruct (Hes a b) as (Ha & Hb & Hn); [by right|]. split_and!; [done|done|].
      intros [Hd|[-> ->]]%depends_on_with_edge; [done|]. done.
  - unfold edge_of. cbn [fst snd]. rewrite Heq. cbn [mbind result_bind].
    split; [by intros [? ?]|]. intros Ha. exfalso. destruct (is_cycle_tc _ _ Hp) as [z Hz].
    revert z Hz. apply (acyclic_subrel _ (with_edges (topology (with_edge x y g)) es)); [|done].
    intros a b Hab. by left.
Qed.
Lemma apply_tasks g l ms :
  NoDup (task_id <$> l) -> (forall t, t ∈ l -> tasks (topology g) !! task_id t = None) ->
  WorkflowGraph.apply_mutations g ((AddTask <$> l) ++ ms) =
  WorkflowGraph.apply_mutations
    (with_tasks (foldl (fun m t => <[task_id t := t]> m) (tasks (topology g)) l) g) ms.
Proof.
  revert g. induction l as [|t l IH]; intros g Hnd Hnew; [by destruct g as [[]]|].
  cbn [fmap list_fmap app WorkflowGraph.apply_mutations foldl]. rewrite apply_mutation_task.
  assert (contains_task (topology g) (task_id t) = false) as ->.
  { destruct (contains_task _ _) eqn:E; [|done]. apply contains_task_spec in E.
    rewrite Hnew in E by left. by destruct E. }
  cbn [mbind result_bind]. cbn in Hnd. apply NoDup_cons in Hnd as [Ht Hnd]. rewrite IH; [done|done|].
  intros t' Ht'. cbn. rewrite lookup_insert_ne; [apply Hnew; by right|].
  intros Heq. apply Ht. rewrite Heq. by apply list_elem_of_fmap_2.
Qed.
(** A batch at the current revision is accepted with its operations. *)
Lemma apply_batch_accepts g ms :
  wf_graph g -> ms <> [] -> (topology_revision g <? u64_max)%N = true ->
  is_Ok (apply_batch g (topology_revision g) ms).2 <-> is_Ok (WorkflowGraph.apply_mutations g ms).
Proof.
  intros Hwf Hne Hlt%N.ltb_lt. unfold apply_batch.
  destruct (prepare_batch_cases g (topology_revision g) ms (wf_graph_topology _ Hwf))
    as [(c & r & g' & -> & _ & _ & _ & -> & _)|(e & He & _)]; [by split; intros _; eexists|].
  rewrite He. split; [by intros [? ?]|]. intros [c Hc]. exfalso. revert He. unfold prepare_batch.
  rewrite N.eqb_refl. cbn [negb]. destruct ms as [|m ms]; [done|].
  unfold Revision_checked_next. rewrite (proj2 (checked_succ_Some _ _) (conj Hlt eq_refl)).
  cbn [ok_or mbind result_bind]. rewrite Hc. cbn [mbind result_bind].
  destruct (apply_mutations_cases g (m :: ms) (wf_graph_topology _ Hwf)) as [(c' & Hc' & Hwfc & _)|[e' He']];
    [|congruence].
  rewrite Hc in Hc'. injection Hc' as <-.
  rewrite cycle_path_acyclic; [done|by apply wf_sources|apply grounded_acyclic, Hwfc].
Qed.

Definition insert_tasks (l : list Task) (m : gmap Id Task) : gmap Id Task :=
  foldl (fun m t => <[task_id t := t]> m) m l.
Lemma insert_tasks_elem l m k :
  is_Some (insert_tasks l m !! k) <-> is_Some (m !! k) \/ k ∈ (task_id <$> l).
Proof.
  revert m. induction l as [|t l IH]; intros m; [cbn; rewrite elem_of_nil; tauto|].
  change (insert_tasks (t :: l) m) with (insert_tasks l (<[task_id t := t]> m)).
  rewrite IH, fmap_cons, elem_of_cons, lookup_insert_is_Some.
  destruct (decide (task_id t = k)); naive_solver.
Qed.
Lemma insert_tasks_keys l m :
  (forall k t, m !! k = Some t -> task_id t = k) ->
  forall k t, insert_tasks l m !! k = Some t -> task_id t = k.
Proof.
  revert m. induction l as [|t l IH]; intros m Hm; [done|]. apply IH.
  intros k x [[<- <-]|[_ Hx]]%lookup_insert_Some; [done|by apply Hm].
Qed.

(** The edges the batch adds. *)
Definition task_edges (ts : list TaskDefinition) : list (Id * Id) :=
  ts ≫= fun t => pair (td_id t) <$> td_dependencies t.
Lemma task_edges_mutations ts :
  (ts ≫= fun t => AddDependency (td_id t) <$> td_dependencies t) = edge_of <$> task_edges ts.
Proof.
  unfold task_edges. induction ts as [|t ts IH]; [done|].
  rewrite !bind_cons, fmap_app, IH. f_equal. by rewrite <- list_fmap_compose.
Qed.
Lemma elem_of_task_edges ts x y :
  (x, y) ∈ task_edges ts <-> exists t, t ∈ ts /\ td_id t = x /\ y ∈ td_dependencies t.
Proof.
  unfold task_edges. rewrite list_elem_of_bind. split.
  - intros (t & (d & Heq & Hd)%list_elem_of_fmap & Ht). injection Heq as -> ->. by exists t.
  - intros (t & Ht & <- & Hy). exists t. split; [by apply list_elem_of_fmap_2|done].
Qed.
Section workflow.
Context (tasks : gmap Id TaskDefinition).
Hypothesis Hkey : forall k t, tasks !! k = Some t -> td_id t = k.
Hypothesis Hok : forall t, t ∈ map_values tasks -> task_ok (dom tasks) t.

Lemma td_ids_NoDup : NoDup (td_id <$> map_values tasks).
Proof. apply NoDup_map_values_by. intros k1 k2 t1 t2 H1%Hkey H2%Hkey. congruence. Qed.
Lemma elem_of_td_ids k : k ∈ (td_id <$> map_values tasks) <-> is_Some (tasks !! k).
Proof.
  rewrite list_elem_of_fmap. split.
  - intros (t & -> & (k' & Ht)%elem_of_map_values). apply Hkey in Ht as Hk. rewrite Hk. by exists t.
  - intros [t Ht]. exists t. split; [symmetry; by apply Hkey|]. apply elem_of_map_values. by exists k.
Qed.
Lemma task_edges_needs x y : (x, y) ∈ task_edges (map_values tasks) <-> task_needs tasks x y.
Proof.
  rewrite elem_of_task_edges. unfold task_needs. split.
  - intros (t & (k & Ht)%elem_of_map_values & <- & Hy). exists t.
    apply Hkey in Ht as Hk. by rewrite Hk.
  - intros (t & Ht & Hy). exists t. split_and!; [|by apply Hkey|done].
    apply elem_of_map_values. by exists x.
Qed.
Lemma task_edges_NoDup : NoDup (task_edges (map_values tasks)).
Proof.
  unfold task_edges. apply NoDup_bind.
  - intros t1 t2 [x y] (k1 & H1)%elem_of_map_values (k2 & H2)%elem_of_map_values
      (d1 & E1 & _)%list_elem_of_fmap (d2 & E2 & _)%list_elem_of_fmap.
    injection E1 as E1 _. injection E2 as E2 _. apply Hkey in H1 as K1, H2 as K2. congruence.
  - intros t Ht. apply NoDup_fmap_2; [by intros a b [= ->]|]. by apply Hok.
  - eapply NoDup_fmap_1, td_ids_NoDup.
Qed.
Lemma validate_workflow_Ok : is_Ok (validate_workflow tasks) <-> acyclic (task_needs tasks).
Proof.
  unfold validate_workflow, workflow_mutations. rewrite task_edges_mutations.
  rewrite (list_fmap_compose (fun t => {| task_id := td_id t; label := td_label t |}) AddTask).
  set (ts := (fun t => {| task_id := td_id t; label := td_label t |}) <$> map_values tasks).
  set (es := task_edges (map_values tasks)). cbv zeta.
  assert (Hids : task_id <$> ts = td_id <$> map_values tasks)
    by (unfold ts; by rewrite <- list_fmap_compose).
  set (g1 := with_tasks (insert_tasks ts ∅) WorkflowGraph_default).
  assert (Hnodeps : forall x y, ~ WorkflowFacts.depends_on (topology g1) x y).
  { intros x y (ds & Hds & _). cbn in Hds. by rewrite lookup_empty in Hds. }
  assert (Hwf : wf_topology (topology g1)).
  { split.
    - cbn. apply insert_tasks_keys. intros k t. by rewrite lookup_empty.
    - intros x y Hxy. by apply Hnodeps in Hxy.
    - intros x ds Hds. cbn in Hds. by rewrite lookup_empty in Hds.
    - intros x. constructor. intros y Hy. by apply Hnodeps in Hy. }
  assert (Hlook : forall k, is_Some (WorkflowGraph.tasks (topology g1) !! k) <-> is_Some (tasks !! k)).
  { intros k. cbn. rewrite insert_tasks_elem, Hids, elem_of_td_ids, lookup_empty. split; [|by right].
    by intros [[? ?]|?]. }
  assert (Hms : WorkflowGraph.apply_mutations WorkflowGraph_default ((AddTask <$> ts) ++ (edge_of <$> es))
    = WorkflowGraph.apply_mutations g1 (edge_of <$> es)).
  { rewrite apply_tasks; [done|rewrite Hids; apply td_ids_NoDup|]. intros t _. apply lookup_empty. }
  assert (Hedges : is_Ok (WorkflowGraph.apply_mutations g1 (edge_of <$> es)) <->
    acyclic (task_needs tasks)).
  { rewrite apply_edges; [|done|done|apply task_edges_NoDup|].
    - split; apply acyclic_subrel; intros x y Hxy; unfold with_edges, es in *.
      + right. by apply task_edges_needs.
      + destruct Hxy as [Hxy|Hxy]; [by apply Hnodeps in Hxy|by apply task_edges_needs].
    - intros x y (t & Ht & Hy)%task_edges_needs. rewrite !Hlook. split_and!; [by exists t| |apply Hnodeps].
      apply elem_of_dom, (Hok t); [|done]. apply elem_of_map_values. by exists x. }
  case_bool_decide as Hempty.
  - split; [|intros _; by eexists]. intros _. apply Hedges.
    apply app_eq_nil in Hempty as [_ ->]. by eexists.
  - rewrite is_Ok_then, <- Hedges, <- Hms. set (ms := (AddTask <$> ts) ++ (edge_of <$> es)) in *.
    rewrite <- (apply_batch_accepts WorkflowGraph_default ms wf_graph_default Hempty eq_refl).
    pose proof (is_Ok_ret (E := DefinitionError) tt).
    destruct (apply_batch _ _ ms).2; (split; [intros [[? ?] ?]|intros [? ?]; split]); try done; by eexists.
Qed.
End workflow.

(** ** Every check returns *)
Lemma validate_identity_returns i : returns (validate_identity i).
Proof. unfold validate_identity. by destruct (trim_is_empty i). Qed.
Lemma validate_tasks_returns ts : returns (validate_tasks ts).
Proof.
  unfold validate_tasks, check_task. apply returns_then; [|done]. apply foldM_returns_all.
  intros s t. apply returns_then; [|apply returns_then].
  - apply foldM_returns_all. intros s' d. unfold check_task_dependency. by repeat case_bool_decide.
  - apply foldM_returns_all. intros s' q. unfold check_task_requirement.
    apply returns_then; [apply validate_identity_returns|]. by case_bool_decide.
  - destruct (td_effect t); [|done]. by case_bool_decide.
Qed.
Lemma validate_capabilities_returns cs : returns (validate_capabilities cs).
Proof.
  unfold validate_capabilities, check_capability. apply foldM_returns_all. intros [] c.
  apply returns_then; [apply validate_identity_returns|]. apply returns_then; [|done].
  apply foldM_returns_all. intros s' q. unfold check_capability_dependency.
  apply returns_then; [apply validate_identity_returns|]. by case_bool_decide.
Qed.
Lemma validate_capability_graph_returns cs : returns (validate_capability_graph cs).
Proof.
  unfold validate_capability_graph. cbv zeta. apply returns_then; [|done]. apply returns_map_err.
  set (g := foldl _ _ _). pose proof (resolve_cases g) as Hr. by destruct (resolve g).
Qed.
Lemma validate_workflow_returns ts : returns (validate_workflow ts).
Proof.
  unfold validate_workflow. cbv zeta. case_bool_decide; [done|]. apply returns_then; [|done].
  apply returns_map_err.
  destruct (apply_batch_cases WorkflowGraph_default (topology_revision WorkflowGraph_default)
    (workflow_mutations ts) wf_graph_default) as [(? & ? & ? & -> & _)|[e ->]]; done.
Qed.

(** ** What [validated] accepts *)
Definition run_requirements (r : RunDefinition) : list CapabilityRequirement :=
  (run_tasks r ≫= td_required) ++ (run_capabilities r ≫= declared_dependencies).
(** Every place that names a capability, with the identity it gives it. *)
Definition mentions (r : RunDefinition) : list (Id * DefinitionIdentity) :=
  ((fun c => (declared_id c, declared_identity c)) <$> run_capabilities r)
  ++ ((fun q => (required_capability_id q, required_identity q)) <$> run_requirements r).
Record definition_ok (r : RunDefinition) : Prop := {
  ok_task_ids : NoDup (td_id <$> run_tasks r);
  ok_capability_ids : NoDup (declared_id <$> run_capabilities r);
  ok_tasks : forall t, t ∈ run_tasks r -> task_ok (list_to_set (td_id <$> run_tasks r)) t;
  ok_operations : NoDup (omap task_operation (run_tasks r));
  ok_capabilities : forall c, c ∈ run_capabilities r -> capability_ok c;
  ok_mentions : forall k i j, (k, i) ∈ mentions r -> (k, j) ∈ mentions r -> i = j;
  ok_workflow : acyclic (fun x y => exists t, t ∈ run_tasks r /\ td_id t = x /\ y ∈ td_dependencies t);
  ok_capability_graph : acyclic (fun x y => exists c, c ∈ run_capabilities r /\ declared_id c = x /\
    y ∈ requirement_ids (declared_dependencies c))
}.
