(* ===== verification/IdentityEncoding.v ===== *)
(** * The canonical identity determines the definition

    The tokens of the canonical identity are self-delimiting, so the text
    determines what was written: two validated definitions have the same
    identity exactly when they declare the same capabilities and tasks, up to
    labels and the order of lists. *)
From S2P Require Export RunDefinition.
#[local] Open Scope string_scope.
#[local] Open Scope nat_scope.
#[local] Open Scope list_scope.

(** ** Strings *)
Lemma string_app_assoc (a b c : string) : a +:+ (b +:+ c) = (a +:+ b) +:+ c.
Proof. induction a as [|x a IH]; [done|]. change (String x (a +:+ (b +:+ c)) = String x ((a +:+ b) +:+ c)). by rewrite IH. Qed.
Lemma string_app_empty (a : string) : a +:+ "" = a.
Proof. induction a as [|x a IH]; [done|]. change (String x (a +:+ "") = String x a). by rewrite IH. Qed.
Lemma string_app_cons x (a b : string) : String x a +:+ b = String x (a +:+ b).
Proof. done. Qed.
Lemma string_app_cancel (a b c : string) : a +:+ b = a +:+ c -> b = c.
Proof. apply (inj (String.append a)). Qed.
Lemma string_app_length_cancel (a b r s : string) :
  String.length a = String.length b -> a +:+ r = b +:+ s -> a = b /\ r = s.
Proof.
  revert b. induction a as [|x a IH]; intros [|y b] Hl Heq; try done.
  rewrite !string_app_cons in Heq. injection Heq as -> Heq. injection Hl as Hl.
  by destruct (IH b Hl Heq) as [-> ->].
Qed.

(** ** Decimal numbers end at the first character that is no digit *)
Definition is_digit (a : Ascii.ascii) : bool :=
  let n := Ascii.N_of_ascii a in (48 <=? n)%N && (n <=? 57)%N.
Fixpoint all_digits (s : string) : bool :=
  match s with EmptyString => true | String a s => is_digit a && all_digits s end.
Lemma pretty_N_char_digit n : is_digit (pretty_N_char n) = true.
Proof. unfold pretty_N_char. by repeat case_match. Qed.
Lemma pretty_N_go_digits n s : all_digits s = true -> all_digits (pretty_N_go n s) = true.
Proof.
  revert s. induction (N.lt_wf_0 n) as [n _ IH]. intros s Hs.
  destruct (decide (n = 0)%N) as [->|Hn]; [by rewrite pretty_N_go_0|].
  rewrite pretty_N_go_step by lia. apply IH; [apply N.div_lt; lia|].
  cbn [all_digits]. by rewrite pretty_N_char_digit, Hs.
Qed.
Lemma pretty_digits (n : nat) : all_digits (pretty n) = true.
Proof.
  unfold pretty, pretty_nat, pretty, pretty_N. case_decide; [done|]. by apply pretty_N_go_digits.
Qed.
Lemma digits_delimited a b c r s :
  all_digits a = true -> all_digits b = true -> is_digit c = false ->
  a +:+ String c r = b +:+ String c s -> a = b /\ r = s.
Proof.
  intros Ha Hb Hc. revert b Hb. induction a as [|x a IH]; intros [|y b] Hb Heq.
  - injection Heq as ->. done.
  - rewrite string_app_cons in Heq. injection Heq as -> _. cbn in Hb. by rewrite Hc in Hb.
  - rewrite string_app_cons in Heq. injection Heq as -> _. cbn in Ha. by rewrite Hc in Ha.
  - rewrite !string_app_cons in Heq. injection Heq as -> Heq. cbn in Ha, Hb.
    apply andb_true_iff in Ha as [_ Ha], Hb as [_ Hb]. by destruct (IH Ha b Hb Heq) as [-> ->].
Qed.

(** ** Self-delimiting encodings *)
Definition self_delimiting {A} (enc : A -> string) : Prop :=
  forall x y r s, enc x +:+ r = enc y +:+ s -> x = y /\ r = s.
Definition enc_value (v : string) : string := "%" +:+ pretty (String.length v) +:+ ":" +:+ v.
Definition enc_count (n : nat) : string := "[" +:+ pretty n +:+ "]".
Fixpoint enc_all {A} (enc : A -> string) (l : list A) : string :=
  match l with [] => "" | x :: l => enc x +:+ enc_all enc l end.
Definition enc_counted {A} (enc : A -> string) (l : list A) : string :=
  enc_count (length l) +:+ enc_all enc l.

Lemma sd_count : self_delimiting enc_count.
Proof.
  intros n m r s Heq. unfold enc_count in Heq. rewrite !string_app_cons in Heq. injection Heq as Heq.
  change ("" +:+ ?x) with x in Heq. rewrite <- !string_app_assoc in Heq.
  apply digits_delimited in Heq as [Hn Hr]; [|apply pretty_digits|apply pretty_digits|done].
  split; [by apply (inj pretty) in Hn|done].
Qed.
Lemma sd_value : self_delimiting enc_value.
Proof.
  intros v w r s Heq. unfold enc_value in Heq. rewrite !string_app_cons in Heq. injection Heq as Heq.
  change ("" +:+ ?x) with x in Heq. rewrite <- !string_app_assoc in Heq.
  apply digits_delimited in Heq as [Hn Hr]; [|apply pretty_digits|apply pretty_digits|done].
  apply (inj pretty) in Hn. change ("" +:+ ?x) with x in Hr. rewrite <- ?string_app_assoc in Hr.
  by apply string_app_length_cancel.
Qed.
Definition enc_pair {A B} (e : A -> string) (f : B -> string) (p : A * B) : string :=
  e p.1 +:+ f p.2.
Lemma sd_pair {A B} (e : A -> string) (f : B -> string) :
  self_delimiting e -> self_delimiting f -> self_delimiting (enc_pair e f).
Proof.
  intros He Hf [a b] [a' b'] r s Heq. unfold enc_pair in Heq. cbn in Heq. rewrite <- !string_app_assoc in Heq.
  apply He in Heq as [-> Heq]. by apply Hf in Heq as [-> ->].
Qed.
Lemma sd_prefix {A} (t : string) (e : A -> string) :
  self_delimiting e -> self_delimiting (fun x => t +:+ e x).
Proof.
  intros He x y r s Heq. rewrite <- !string_app_assoc in Heq.
  by apply string_app_cancel, He in Heq.
Qed.
Lemma sd_suffix {A} (t : string) (e : A -> string) :
  self_delimiting e -> self_delimiting (fun x => e x +:+ t).
Proof.
  intros He x y r s Heq. rewrite <- !string_app_assoc in Heq.
  apply He in Heq as [-> Heq]. by apply string_app_cancel in Heq.
Qed.
Lemma sd_all {A} (e : A -> string) l l' r s :
  self_delimiting e -> length l = length l' -> enc_all e l +:+ r = enc_all e l' +:+ s ->
  l = l' /\ r = s.
Proof.
  intros He. revert l'. induction l as [|x l IH]; intros [|y l'] Hl Heq; try done.
  cbn [enc_all] in Heq. rewrite <- !string_app_assoc in Heq. apply He in Heq as [-> Heq].
  injection Hl as Hl. by destruct (IH l' Hl Heq) as [-> ->].
Qed.
Lemma sd_counted {A} (e : A -> string) : self_delimiting e -> self_delimiting (enc_counted e).
Proof.
  intros He l l' r s Heq. unfold enc_counted in Heq. rewrite <- !string_app_assoc in Heq.
  apply sd_count in Heq as [Hl Heq]. by apply (sd_all e) in Heq.
Qed.
Lemma sd_ext {A} (e f : A -> string) : (forall x, e x = f x) -> self_delimiting f -> self_delimiting e.
Proof. intros Hef Hf x y r s. rewrite !Hef. apply Hf. Qed.
Lemma sd_injective {A} (e : A -> string) x y : self_delimiting e -> e x = e y -> x = y.
Proof. intros He Heq. apply (He x y "" ""). by rewrite Heq. Qed.

(** ** The encodings of the parts, after their lists are sorted *)
Definition sorted_requirements (rs : list CapabilityRequirement) : list CapabilityRequirement :=
  merge_sort requirement_le rs.
Definition enc_requirement (q : CapabilityRequirement) : string :=
  enc_value (required_capability_id q) +:+ enc_value (required_identity q).
Definition enc_requirements (rs : list CapabilityRequirement) : string :=
  "#requires" +:+ (enc_counted enc_requirement rs +:+ "#end").
Definition enc_depends (ds : list string) : string :=
  "#depends" +:+ (enc_counted enc_value ds +:+ "#end").
Definition enc_effect (e : option EffectSpec) : string :=
  match e with
  | None => "#absent"
  | Some e => "#present" +:+ (enc_value (spec_operation_id e) +:+ ("#" +:+ semantics_tag (spec_semantics e)))
  end.
(** What the identity keeps of a declaration and of a task. *)
Definition capability_shape (c : CapabilityDeclaration) :
  string * (string * (string * list CapabilityRequirement)) :=
  (declared_id c, (declared_kind c, (declared_identity c, sorted_requirements (declared_dependencies c)))).
Definition task_shape (t : TaskDefinition) :
  string * (list string * (list CapabilityRequirement * option EffectSpec)) :=
  (td_id t, (merge_sort ord_le (td_dependencies t : list string),
     (sorted_requirements (td_required t), td_effect t))).
Definition enc_capability (s : string * (string * (string * list CapabilityRequirement))) : string :=
  "#capability" +:+ (enc_value s.1 +:+ (enc_value s.2.1 +:+ (enc_value s.2.2.1 +:+ enc_requirements s.2.2.2))).
Definition enc_task (s : string * (list string * (list CapabilityRequirement * option EffectSpec))) : string :=
  "#task" +:+ (enc_value s.1 +:+ (enc_depends s.2.1 +:+ (enc_requirements s.2.2.1 +:+
    ("#effect" +:+ enc_effect s.2.2.2)))).
Definition enc_body (s : list (string * (string * (string * list CapabilityRequirement))) *
  list (string * (list string * (list CapabilityRequirement * option EffectSpec)))) : string :=
  "#capabilities" +:+ (enc_counted enc_capability s.1 +:+
    ("#end#tasks" +:+ (enc_counted enc_task s.2 +:+ "#end"))).

Lemma foldl_push {A} (push : string -> A -> string) (enc : A -> string) l s :
  (forall s x, push s x = s +:+ enc x) -> foldl push s l = s +:+ enc_all enc l.
Proof.
  intros Hp. revert s. induction l as [|x l IH]; intros s; [symmetry; apply string_app_empty|].
  cbn [foldl enc_all]. by rewrite IH, Hp, string_app_assoc.
Qed.
Lemma push_requirement_form s q : push_requirement s q = s +:+ enc_requirement q.
Proof. unfold push_requirement, push_value, enc_requirement. by rewrite <- string_app_assoc. Qed.
Lemma push_requirements_form s rs :
  push_requirements s rs = s +:+ enc_requirements (sorted_requirements rs).
Proof.
  unfold push_requirements. cbv zeta.
  rewrite (foldl_push _ _ _ _ push_requirement_form).
  unfold push_tag, push_count, enc_requirements, enc_counted, enc_count. by rewrite <- !string_app_assoc.
Qed.
Lemma push_capability_form s c : push_capability s c = s +:+ enc_capability (capability_shape c).
Proof.
  unfold push_capability. cbv zeta. rewrite push_requirements_form.
  unfold push_tag, push_value, enc_capability, enc_value. cbn [fst snd capability_shape].
  by rewrite <- !string_app_assoc.
Qed.
Lemma push_task_form s t : push_task s t = s +:+ enc_task (task_shape t).
Proof.
  unfold push_task. cbv zeta. rewrite push_requirements_form.
  rewrite (foldl_push push_value enc_value) by done.
  unfold enc_task, enc_depends, enc_counted, enc_count. cbn [fst snd task_shape].
  destruct (td_effect t) as [e|]; unfold push_tag, push_count, push_value, enc_effect, enc_value;
    by rewrite <- !string_app_assoc.
Qed.
Lemma enc_all_fmap {A B} (f : A -> B) (e : B -> string) l :
  enc_all (fun x => e (f x)) l = enc_all e (f <$> l).
Proof. induction l as [|x l IH]; [done|]. cbn. by rewrite IH. Qed.
Lemma canonical_text_form ts cs :
  canonical_text ts cs = RUN_DEFINITION_FORMAT +:+
    enc_body (capability_shape <$> map_values cs, task_shape <$> map_values ts).
Proof.
  unfold canonical_text. cbv zeta.
  rewrite (foldl_push _ _ _ _ push_capability_form), (foldl_push _ _ _ _ push_task_form).
  rewrite (enc_all_fmap capability_shape enc_capability), (enc_all_fmap task_shape enc_task).
  unfold push_tag, push_count, enc_body, enc_counted, enc_count. cbn [fst snd].
  rewrite !length_fmap, <- !string_app_assoc.
  generalize (enc_all enc_task (task_shape <$> map_values ts)).
  generalize (enc_all enc_capability (capability_shape <$> map_values cs)).
  generalize (pretty (length (map_values ts))) (pretty (length (map_values cs))).
  generalize RUN_DEFINITION_FORMAT. intros f a b x y. reflexivity.
Qed.
Lemma canonical_text_not_blank ts cs : trim_is_empty (canonical_text ts cs) = false.
Proof. by rewrite canonical_text_form. Qed.

(** ** They determine what they encode *)
Lemma sd_requirement : self_delimiting enc_requirement.
Proof.
  intros [i v] [j w] r s Heq. unfold enc_requirement in Heq. cbn in Heq.
  rewrite <- !string_app_assoc in Heq. apply sd_value in Heq as [-> Heq].
  by apply sd_value in Heq as [-> ->].
Qed.
Lemma sd_requirements : self_delimiting enc_requirements.
Proof. apply sd_prefix, sd_suffix, sd_counted, sd_requirement. Qed.
Lemma sd_depends : self_delimiting enc_depends.
Proof. apply sd_prefix, sd_suffix, sd_counted, sd_value. Qed.
Lemma sd_effect : self_delimiting enc_effect.
Proof.
  intros [[o e]|] [[p f]|] r s Heq; unfold enc_effect in Heq; [|done|done|].
  - cbn [spec_operation_id spec_semantics] in Heq. rewrite <- !string_app_assoc in Heq.
    apply string_app_cancel, sd_value in Heq as [-> Heq].
    by destruct e, f; [apply string_app_cancel, string_app_cancel in Heq as ->| | |
      apply string_app_cancel, string_app_cancel in Heq as ->].
  - by apply string_app_cancel in Heq as ->.
Qed.
Lemma sd_capability : self_delimiting enc_capability.
Proof.
  apply (sd_prefix "#capability"
    (enc_pair enc_value (enc_pair enc_value (enc_pair enc_value enc_requirements)))).
  repeat apply sd_pair; [apply sd_value..|apply sd_requirements].
Qed.
Lemma sd_task : self_delimiting enc_task.
Proof.
  apply (sd_prefix "#task" (enc_pair enc_value (enc_pair enc_depends (enc_pair enc_requirements
    (fun e => "#effect" +:+ enc_effect e))))).
  repeat apply sd_pair; [apply sd_value|apply sd_depends|apply sd_requirements|].
  apply sd_prefix, sd_effect.
Qed.
Lemma sd_body : self_delimiting enc_body.
Proof.
  apply (sd_prefix "#capabilities" (enc_pair (enc_counted enc_capability)
    (fun ts => "#end#tasks" +:+ (enc_counted enc_task ts +:+ "#end")))).
  apply sd_pair; [apply sd_counted, sd_capability|].
  apply sd_prefix, sd_suffix, sd_counted, sd_task.
Qed.
(** The text determines the lists of shapes. *)
Lemma canonical_text_inj ts cs ts' cs' :
  canonical_text ts cs = canonical_text ts' cs' ->
  capability_shape <$> map_values cs = capability_shape <$> map_values cs' /\
  task_shape <$> map_values ts = task_shape <$> map_values ts'.
Proof.
  rewrite !canonical_text_form. intros Heq%string_app_cancel.
  apply (sd_injective _ _ _ sd_body) in Heq. by injection Heq.
Qed.
