(* ===== verification/RunValidation.v ===== *)
(** * Validation of run definitions is exact, and the identity is canonical

    [validated] accepts exactly the definitions that are well formed as a
    whole, and the identity it computes determines what the definition
    declares, up to labels and the order in which lists are written. *)
From S2P Require Export DurableStoreFacts RunDefinitionFacts IdentityEncoding.
#[local] Open Scope string_scope.
#[local] Open Scope nat_scope.
#[local] Open Scope list_scope.

(** ** The maps of unique declarations *)
Section keyed_list.
Context {A : Type} (key : A -> Id) (l : list A) (m : gmap Id A).
Hypothesis Hnd : NoDup (key <$> l).
Hypothesis Hm : forall k a, m !! k = Some a <-> a ∈ l /\ key a = k.

Lemma keyed_lookup k a : m !! k = Some a -> key a = k.
Proof. by intros [_ ?]%Hm. Qed.
Lemma keyed_values : map_values m ≡ₚ l.
Proof.
  apply NoDup_Permutation.
  - apply (NoDup_fmap_1 key), NoDup_map_values_by.
    intros k1 k2 a b H1%keyed_lookup H2%keyed_lookup. congruence.
  - by eapply NoDup_fmap_1.
  - intros a. rewrite elem_of_map_values. split.
    + by intros [k [? _]%Hm].
    + intros Ha. exists (key a). by apply Hm.
Qed.
Lemma keyed_dom : dom m = list_to_set (key <$> l).
Proof.
  apply set_eq. intros k. rewrite elem_of_dom, elem_of_list_to_set, list_elem_of_fmap. split.
  - intros [a [Ha <-]%Hm]. by exists a.
  - intros (a & -> & Ha). exists a. by apply Hm.
Qed.
End keyed_list.

Lemma insert_task_Ok m t m' :
  insert_task m t = Ok m' <-> True /\ m !! td_id t = None /\ m' = <[td_id t := t]> m.
Proof. unfold insert_task. destruct (m !! td_id t); naive_solver. Qed.
Lemma insert_capability_Ok m c m' :
  insert_capability m c = Ok m' <-> True /\ m !! declared_id c = None /\ m' = <[declared_id c := c]> m.
Proof. unfold insert_capability. destruct (m !! declared_id c); naive_solver. Qed.
Lemma unique_tasks_spec ts :
  match unique_tasks ts with
  | Ok m => NoDup (td_id <$> ts) /\ forall k t, m !! k = Some t <-> t ∈ ts /\ td_id t = k
  | Err _ => ~ NoDup (td_id <$> ts)
  | _ => False
  end.
Proof.
  pose proof (foldM_unique_Ok td_id id insert_task ts insert_task_Ok) as Hok. unfold unique_tasks.
  assert (Hret : returns (foldM insert_task ts ∅))
    by (apply foldM_returns_all; intros s a; unfold insert_task; by destruct (s !! _)).
  destruct (foldM insert_task ts ∅) as [m|e| |] eqn:E; try done.
  - apply (foldM_unique td_id id insert_task ts m insert_task_Ok) in E as [Hnd Hm]. split; [done|].
    intros k t. rewrite Hm. unfold id. naive_solver.
  - by intros [? ?]%Hok.
Qed.
Lemma unique_capabilities_spec cs :
  match unique_capabilities cs with
  | Ok m => NoDup (declared_id <$> cs) /\ forall k c, m !! k = Some c <-> c ∈ cs /\ declared_id c = k
  | Err _ => ~ NoDup (declared_id <$> cs)
  | _ => False
  end.
Proof.
  pose proof (foldM_unique_Ok declared_id id insert_capability cs insert_capability_Ok) as Hok.
  unfold unique_capabilities.
  assert (Hret : returns (foldM insert_capability cs ∅))
    by (apply foldM_returns_all; intros s a; unfold insert_capability; by destruct (s !! _)).
  destruct (foldM insert_capability cs ∅) as [m|e| |] eqn:E; try done.
  - apply (foldM_unique declared_id id insert_capability cs m insert_capability_Ok) in E as [Hnd Hm].
    split; [done|]. intros k t. rewrite Hm. unfold id. naive_solver.
  - by intros [? ?]%Hok.
Qed.

(** ** One check at a time *)
Section checks.
Context (r : RunDefinition) (ts : gmap Id TaskDefinition) (cs : gmap Id CapabilityDeclaration).
Hypothesis Hnt : NoDup (td_id <$> run_tasks r).
Hypothesis Ht : forall k t, ts !! k = Some t <-> t ∈ run_tasks r /\ td_id t = k.
Hypothesis Hnc : NoDup (declared_id <$> run_capabilities r).
Hypothesis Hc : forall k c, cs !! k = Some c <-> c ∈ run_capabilities r /\ declared_id c = k.

Lemma task_values : map_values ts ≡ₚ run_tasks r.
Proof. by apply (keyed_values td_id). Qed.
Lemma capability_values : map_values cs ≡ₚ run_capabilities r.
Proof. by apply (keyed_values declared_id). Qed.
Lemma all_requirements_spec q : q ∈ all_requirements ts cs <-> q ∈ run_requirements r.
Proof. unfold all_requirements, run_requirements. by rewrite task_values, capability_values. Qed.
Lemma tasks_checked :
  is_Ok (validate_tasks ts) <->
  (forall t, t ∈ run_tasks r -> task_ok (list_to_set (td_id <$> run_tasks r)) t) /\
  NoDup (omap task_operation (run_tasks r)).
Proof.
  rewrite validate_tasks_Ok, task_values. setoid_rewrite task_values.
  by rewrite (keyed_dom td_id (run_tasks r) ts Ht).
Qed.
Lemma capabilities_checked :
  is_Ok (validate_capabilities cs) <-> forall c, c ∈ run_capabilities r -> capability_ok c.
Proof. rewrite validate_capabilities_Ok. by setoid_rewrite capability_values. Qed.

Lemma elem_of_mentions k i :
  (k, i) ∈ mentions r <-> (exists c, cs !! k = Some c /\ declared_identity c = i) \/
    (exists q, q ∈ run_requirements r /\ required_capability_id q = k /\ required_identity q = i).
Proof.
  unfold mentions. rewrite elem_of_app, !list_elem_of_fmap. split.
  - intros [(c & [= -> ->] & Hin)|(q & [= -> ->] & Hin)]; [left|right].
    + exists c. split; [by apply Hc|done].
    + by exists q.
  - intros [(c & [Hin <-]%Hc & <-)|(q & Hin & <- & <-)]; [left; by exists c|right; by exists q].
Qed.
Lemma consistent_mentions :
  consistent cs (all_requirements ts cs) <->
  forall k i j, (k, i) ∈ mentions r -> (k, j) ∈ mentions r -> i = j.
Proof.
  unfold consistent. setoid_rewrite all_requirements_spec. split.
  - intros [C1 C2] k i j Hi Hj. apply elem_of_mentions in Hi, Hj.
    destruct Hi as [(c & Hi & <-)|(q & Hi & <- & <-)], Hj as [(c' & Hj & <-)|(q' & Hj & Hk & <-)].
    + congruence.
    + apply C1; [done|by rewrite Hk].
    + symmetry. by apply C1.
    + destruct (cs !! required_capability_id q) as [c|] eqn:E.
      * rewrite <- (C1 q c Hi E). apply C1; [done|by rewrite Hk].
      * by apply C2.
  - intros Hall. split.
    + intros q c Hq Hl. eapply Hall; apply elem_of_mentions; [left; by exists c|right; by exists q].
    + intros q q' Hq Hq' Heq _. eapply Hall; apply elem_of_mentions; right; [by exists q|by exists q'].
Qed.

Lemma materialized_cases :
  match materialize_implicit_capabilities ts cs with
  | Ok cs' => (forall k i j, (k, i) ∈ mentions r -> (k, j) ∈ mentions r -> i = j) /\
      (forall q, q ∈ run_requirements r -> exists c,
         cs' !! required_capability_id q = Some c /\ declared_identity c = required_identity q) /\
      (forall k c, cs' !! k = Some c <-> cs !! k = Some c \/
         (cs !! k = None /\
          exists q, q ∈ run_requirements r /\ required_capability_id q = k /\ c = implicit q))
  | Err _ => ~ (forall k i j, (k, i) ∈ mentions r -> (k, j) ∈ mentions r -> i = j)
  | _ => False
  end.
Proof.
  unfold materialize_implicit_capabilities. pose proof consistent_mentions as Hmen.
  pose proof (materialize_spec (all_requirements ts cs) cs) as Hm.
  destruct (foldM materialize _ cs) as [cs'|e| |]; try done; [|by rewrite <- Hmen].
  destruct Hm as (Hcons & Hreq & Hk). split; [by apply Hmen|]. split.
  - intros q Hq. by apply Hreq, all_requirements_spec.
  - intros k c. rewrite Hk. by setoid_rewrite all_requirements_spec.
Qed.

(** The map with the implicit capabilities. *)
Context (cs' : gmap Id CapabilityDeclaration).
Hypothesis Hreq : forall q, q ∈ run_requirements r -> exists c,
  cs' !! required_capability_id q = Some c /\ declared_identity c = required_identity q.
Hypothesis Hc' : forall k c, cs' !! k = Some c <-> cs !! k = Some c \/
  (cs !! k = None /\
  exists q, q ∈ run_requirements r /\ required_capability_id q = k /\ c = implicit q).

Lemma materialized_key k c : cs' !! k = Some c -> declared_id c = k.
Proof. by intros [[_ ?]%Hc|(_ & q & _ & <- & ->)]%Hc'. Qed.
Lemma capability_needs_materialized x y :
  capability_needs cs' x y <-> exists c, c ∈ run_capabilities r /\ declared_id c = x /\
    y ∈ requirement_ids (declared_dependencies c).
Proof.
  unfold capability_needs. split.
  - intros (c & [[Hin <-]%Hc|(_ & q & _ & _ & ->)]%Hc' & Hy); [by exists c|].
    by apply elem_of_nil in Hy.
  - intros (c & Hin & <- & Hy). exists c. split; [|done]. apply Hc'. left. by apply Hc.
Qed.
Lemma materialized_checked :
  (forall t, t ∈ run_tasks r -> task_ok (list_to_set (td_id <$> run_tasks r)) t) ->
  (forall c, c ∈ run_capabilities r -> capability_ok c) -> is_Ok (validate_capabilities cs').
Proof.
  intros Htok Hcok. apply validate_capabilities_Ok.
  intros c [k [[Hin _]%Hc|(_ & q & Hq & _ & ->)]%Hc']%elem_of_map_values; [by apply Hcok|].
  split_and!; [|constructor|by intros ? ?%elem_of_nil]. cbn.
  unfold run_requirements in Hq. apply elem_of_app in Hq as [Hq|Hq];
    apply list_elem_of_bind in Hq as (a & Hq & Ha).
  - apply (Htok a Ha), Hq.
  - apply (Hcok a Ha), Hq.
Qed.
Lemma capability_graph_checked :
  is_Ok (validate_capability_graph cs') <->
  acyclic (fun x y => exists c, c ∈ run_capabilities r /\ declared_id c = x /\
    y ∈ requirement_ids (declared_dependencies c)).
Proof.
  rewrite (validate_capability_graph_Ok _ materialized_key). split.
  - intros [_ Hac]. revert Hac. apply acyclic_subrel. intros x y. apply capability_needs_materialized.
  - intros Hac. split; [|revert Hac; apply acyclic_subrel; intros x y; apply capability_needs_materialized].
    intros x y (c & Hin & _ & (q & -> & Hq)%list_elem_of_fmap)%capability_needs_materialized.
    destruct (Hreq q) as (c' & Hq' & _); [|by exists c'].
    unfold run_requirements. apply elem_of_app. right. apply list_elem_of_bind. by exists c.
Qed.
Lemma workflow_checked :
  (forall t, t ∈ run_tasks r -> task_ok (list_to_set (td_id <$> run_tasks r)) t) ->
  is_Ok (validate_workflow ts) <->
  acyclic (fun x y => exists t, t ∈ run_tasks r /\ td_id t = x /\ y ∈ td_dependencies t).
Proof.
  clear Hnt Hnc Hc Hreq Hc'. intros Htok. rewrite validate_workflow_Ok.
  - assert (Hn : forall x y, task_needs ts x y <->
      exists t, t ∈ run_tasks r /\ td_id t = x /\ y ∈ td_dependencies t).
    { intros x y. unfold task_needs. setoid_rewrite Ht. naive_solver. }
    split; apply acyclic_subrel; intros x y; apply Hn.
  - by intros k t [_ ?]%Ht.
  - intros t Hin. rewrite (keyed_dom td_id (run_tasks r) ts Ht). apply Htok.
    apply elem_of_map_values in Hin as [k [Hin _]%Ht]. done.
Qed.
End checks.

Section accepted.
Context `{StoreFormat}.

(** What a validated definition holds. *)
Definition holds (r : RunDefinition) (v : ValidatedRunDefinition) : Prop :=
  (forall k t, validated_tasks v !! k = Some t <-> t ∈ run_tasks r /\ td_id t = k) /\
  (forall k c, validated_capabilities v !! k = Some c <->
     (c ∈ run_capabilities r /\ declared_id c = k) \/
     (~ k ∈ (declared_id <$> run_capabilities r) /\
      exists q, q ∈ run_requirements r /\ required_capability_id q = k /\ c = implicit q)) /\
  validated_identity v = canonical_text (validated_tasks v) (validated_capabilities v).

Lemma canonical_identity_Ok ts cs : canonical_identity ts cs = Ok (canonical_text ts cs).
Proof.
  unfold canonical_identity, WorkflowReplayIdentity_new. by rewrite canonical_text_not_blank.
Qed.
#[local] Ltac refused := right; eexists; split; [done|]; intros [].
Lemma validated_cases r :
  (exists v, validated r = Ok v /\ definition_ok r /\ holds r v) \/
  (exists e, validated r = Err e /\ ~ definition_ok r).
Proof.
  unfold validated.
  pose proof (unique_tasks_spec (run_tasks r)) as Ht.
  destruct (unique_tasks (run_tasks r)) as [ts|e| |]; try done; cbn [mbind result_bind];
    [destruct Ht as [Hnt Ht]|by refused].
  pose proof (unique_capabilities_spec (run_capabilities r)) as Hc.
  destruct (unique_capabilities (run_capabilities r)) as [cs|e| |]; try done; cbn [mbind result_bind];
    [destruct Hc as [Hnc Hc]|by refused].
  destruct (returned_cases _ _ (validate_tasks_returns ts) (tasks_checked r ts Hnt Ht))
    as [(? & -> & Htok & Hops)|(e & -> & Hn)]; cbn [mbind result_bind]; [|refused; by apply Hn].
  destruct (returned_cases _ _ (validate_capabilities_returns cs) (capabilities_checked r cs Hnc Hc))
    as [(? & -> & Hcok)|(e & -> & Hn)]; cbn [mbind result_bind]; [|refused; by apply Hn].
  pose proof (materialized_cases r ts cs Hnt Ht Hnc Hc) as Hm.
  destruct (materialize_implicit_capabilities ts cs) as [cs'|e| |]; try done;
    cbn [mbind result_bind]; [destruct Hm as (Hmen & Hreq & Hc')|by refused].
  destruct (materialized_checked r cs Hc cs' Hc' Htok Hcok) as [? ->]. cbn [mbind result_bind].
  destruct (returned_cases _ _ (validate_capability_graph_returns cs')
    (capability_graph_checked r cs Hc cs' Hreq Hc')) as [(? & -> & Hgraph)|(e & -> & Hn)];
    cbn [mbind result_bind]; [|by refused].
  destruct (returned_cases _ _ (validate_workflow_returns ts) (workflow_checked r ts Ht Htok))
    as [(? & -> & Hwork)|(e & -> & Hn)]; cbn [mbind result_bind]; [|by refused].
  rewrite canonical_identity_Ok. cbn [mbind result_bind]. left. eexists.
  split; [done|]. split; [by split|]. split; [done|]. split; [|done].
  intros k c. rewrite Hc', Hc. unfold validated_capabilities.
  assert (Hnone : cs !! k = None <-> k ∉ (declared_id <$> run_capabilities r)).
  { rewrite eq_None_not_Some. split; intros Hn Hin; apply Hn.
    - apply list_elem_of_fmap in Hin as (c' & -> & Hin). exists c'. by apply Hc.
    - destruct Hin as [c' [Hin <-]%Hc]. by apply list_elem_of_fmap_2. }
  tauto.
Qed.

(** C36: validation is exact.  It always returns, and it succeeds exactly on the
    definitions that are well formed as a whole: distinct task, capability and
    operation identifiers, task dependencies that are distinct tasks of the
    definition, distinct requirements per declaration, no blank identity, one
    identity per capability wherever it is mentioned, and acyclic task and
    capability dependencies.  A validated definition holds the tasks declared,
    the capabilities declared together with one implicit capability per
    requirement that names no declaration, and the canonical text of both. *)
Theorem validated_exact r :
  returns (validated r) /\
  (is_Ok (validated r) <-> definition_ok r) /\
  (forall v, validated r = Ok v -> holds r v).
Proof.
  destruct (validated_cases r) as [(v & -> & Hok & Hh)|(e & -> & Hn)].
  - split_and!; [done| |by intros v' [= <-]]. split; [done|by eexists].
  - split_and!; [done| |done]. split; [by intros [? ?]|done].
Qed.
End accepted.

(** ** The canonical identity *)

#[export] Instance requirement_le_transitive : Transitive requirement_le.
Proof. intros x y z. unfold requirement_le. apply transitivity. Qed.
#[export] Instance requirement_le_total : Total requirement_le.
Proof. intros x y. unfold requirement_le. apply (total ord_le). Qed.
Lemma NoDup_requirement_ids rs x y :
  NoDup (requirement_ids rs) -> x ∈ rs -> y ∈ rs ->
  required_capability_id x = required_capability_id y -> x = y.
Proof.
  unfold requirement_ids. intros Hnd Hx Hy Heq.
  apply list_elem_of_lookup in Hx as [i Hi], Hy as [j Hj].
  assert (i = j) as <-; [|congruence].
  eapply NoDup_lookup; [exact Hnd|by rewrite list_lookup_fmap, Hi|].
  by rewrite list_lookup_fmap, Hj, Heq.
Qed.
(** Lists with distinct identifiers sort to the same list when they are
    permutations of each other. *)
Lemma sorted_requirements_Permutation rs rs' :
  NoDup (requirement_ids rs) ->
  sorted_requirements rs = sorted_requirements rs' <-> rs ≡ₚ rs'.
Proof.
  intros Hnd. unfold sorted_requirements. split.
  - intros Heq. by rewrite <- (merge_sort_Permutation requirement_le rs),
      <- (merge_sort_Permutation requirement_le rs'), Heq.
  - intros Hp. apply (StronglySorted_unique_strong requirement_le).
    + intros x y Hx Hy Hxy Hyx. rewrite merge_sort_Permutation in Hx.
      rewrite merge_sort_Permutation, <- Hp in Hy.
      apply (NoDup_requirement_ids rs); [done..|]. by apply (anti_symm ord_le).
    + apply StronglySorted_merge_sort; apply _.
    + apply StronglySorted_merge_sort; apply _.
    + by rewrite !merge_sort_Permutation.
Qed.
Lemma sorted_dependencies_Permutation (ds ds' : list string) :
  merge_sort ord_le ds = merge_sort ord_le ds' <-> ds ≡ₚ ds'.
Proof.
  split.
  - intros Heq. by rewrite <- (merge_sort_Permutation ord_le ds),
      <- (merge_sort_Permutation ord_le ds'), Heq.
  - intros Hp. apply (StronglySorted_unique ord_le);
      [apply StronglySorted_merge_sort; apply _..|]. by rewrite !merge_sort_Permutation.
Qed.

(** Keyed maps whose values have the same shapes in key order have the same
    shapes key by key. *)
Lemma shapes_agree {A B} (key : A -> Id) (bkey : B -> Id) (shape : A -> B) (m m' : gmap Id A) :
  (forall a, bkey (shape a) = key a) ->
  (forall k a, m !! k = Some a -> key a = k) -> (forall k a, m' !! k = Some a -> key a = k) ->
  shape <$> map_values m = shape <$> map_values m' <-> shape <$> m = shape <$> m'.
Proof.
  intros Hs Hm Hm'. split; [|rewrite <- !map_values_fmap; congruence].
  assert (Hhalf : forall (m1 m2 : gmap Id A) k a,
    (forall k a, m1 !! k = Some a -> key a = k) -> (forall k a, m2 !! k = Some a -> key a = k) ->
    shape <$> map_values m1 = shape <$> map_values m2 ->
    m1 !! k = Some a -> exists a', m2 !! k = Some a' /\ shape a' = shape a).
  { intros m1 m2 k a H1 H2 Heq Ha.
    assert (Hin : shape a ∈ shape <$> map_values m2).
    { rewrite <- Heq. apply list_elem_of_fmap_2, elem_of_map_values. by exists k. }
    apply list_elem_of_fmap in Hin as (a' & Hsh & [k' Hk']%elem_of_map_values).
    exists a'. split; [|done].
    assert (k' = k) as <-; [|done]. rewrite <- (H1 k a Ha), <- (H2 _ _ Hk'). congruence. }
  intros Heq. apply map_eq. intros k. rewrite !lookup_fmap.
  destruct (m !! k) as [a|] eqn:Ea.
  - destruct (Hhalf m m' k a Hm Hm' Heq Ea) as (a' & -> & Hsh). cbn; by rewrite Hsh.
  - destruct (m' !! k) as [a'|] eqn:Ea'; [|done].
    destruct (Hhalf m' m k a' Hm' Hm (eq_sym Heq) Ea') as (a & Ha & _). congruence.
Qed.

(** Two validated definitions that declare the same things: the same
    identifiers, kinds, identities and effects, and the same dependencies and
    requirements whatever their order.  Labels do not count. *)
Definition same_capability (c c' : CapabilityDeclaration) : Prop :=
  declared_id c = declared_id c' /\ declared_kind c = declared_kind c' /\
  declared_identity c = declared_identity c' /\ declared_dependencies c ≡ₚ declared_dependencies c'.
Definition same_task (t t' : TaskDefinition) : Prop :=
  td_id t = td_id t' /\ td_dependencies t ≡ₚ td_dependencies t' /\
  td_required t ≡ₚ td_required t' /\ td_effect t = td_effect t'.
Definition same_declarations (v v' : ValidatedRunDefinition) : Prop :=
  (forall k, option_Forall2 same_capability (validated_capabilities v !! k) (validated_capabilities v' !! k)) /\
  (forall k, option_Forall2 same_task (validated_tasks v !! k) (validated_tasks v' !! k)).

Lemma capability_shape_same c c' :
  NoDup (requirement_ids (declared_dependencies c)) ->
  capability_shape c = capability_shape c' <-> same_capability c c'.
Proof.
  intros Hnd. pose proof (sorted_requirements_Permutation _ (declared_dependencies c') Hnd) as Hp.
  unfold same_capability. rewrite <- Hp. unfold capability_shape. split; [by intros [= -> -> -> ->]|].
  by intros (-> & -> & -> & ->).
Qed.
Lemma task_shape_same t t' :
  NoDup (requirement_ids (td_required t)) -> task_shape t = task_shape t' <-> same_task t t'.
Proof.
  intros Hnd. pose proof (sorted_requirements_Permutation _ (td_required t') Hnd) as Hp.
  pose proof (sorted_dependencies_Permutation (td_dependencies t) (td_dependencies t')) as Hd.
  unfold same_task. rewrite <- Hp. unfold task_shape. split.
  - intros [= -> H2 -> ->]. split_and!; [done| |done|done]. by apply Hd.
  - intros (-> & H2 & -> & ->). apply Hd in H2. by do 2 f_equal.
Qed.
(** Shapes agree key by key exactly when the values do. *)
Lemma shapes_same {A B} (shape : A -> B) (R : A -> A -> Prop) (m m' : gmap Id A) :
  (forall k a a', m !! k = Some a -> shape a = shape a' <-> R a a') ->
  shape <$> m = shape <$> m' <-> forall k, option_Forall2 R (m !! k) (m' !! k).
Proof.
  intros HR. split.
  - intros Heq k. assert (Hk : shape <$> m !! k = shape <$> m' !! k) by (rewrite <- !lookup_fmap; by rewrite Heq).
    destruct (m !! k) as [a|] eqn:E, (m' !! k) as [a'|]; cbn in Hk; try done; constructor.
    injection Hk as Hk. by apply (HR k).
  - intros Hall. apply map_eq. intros k. rewrite !lookup_fmap. specialize (Hall k).
    destruct (m !! k) as [a|] eqn:E, (m' !! k) as [a'|]; inversion Hall; subst; [|done].
    cbn. f_equal. by apply (HR k).
Qed.

Section identities.
Context `{StoreFormat}.

Lemma validated_spec r v : validated r = Ok v -> definition_ok r /\ holds r v.
Proof.
  intros Hv. destruct (validated_cases r) as [(v' & Hv' & Hok & Hh)|(e & He & _)]; [|congruence].
  rewrite Hv' in Hv. by injection Hv as <-.
Qed.
Lemma holds_task_key r v k t : holds r v -> validated_tasks v !! k = Some t -> td_id t = k.
Proof. intros (Ht & _) [_ ?]%Ht. done. Qed.
Lemma holds_capability_key r v k c :
  holds r v -> validated_capabilities v !! k = Some c -> declared_id c = k.
Proof. intros (_ & Hc & _) [[_ ?]|(_ & q & _ & <- & ->)]%Hc; done. Qed.
Lemma holds_requirements r v :
  definition_ok r -> holds r v ->
  (forall (k : Id) c, validated_capabilities v !! k = Some c ->
     NoDup (requirement_ids (declared_dependencies c))) /\
  (forall (k : Id) t, validated_tasks v !! k = Some t -> NoDup (requirement_ids (td_required t))).
Proof.
  intros Hok (Ht & Hc & _). split.
  - intros k c [[Hin _]|(_ & q & _ & _ & ->)]%Hc; [by apply (ok_capabilities _ Hok)|constructor].
  - intros k t [Hin _]%Ht. by apply (ok_tasks _ Hok).
Qed.

(** C35: the canonical identity is exact.  Two definitions that validate have
    the same identity exactly when they declare the same things: every
    capability with its kind, identity and requirements, and every task with
    its dependencies, requirements and effect, whatever the order of the lists
    and the labels.  No two different declarations are ever confused. *)
Theorem identity_exact r r' v v' :
  validated r = Ok v -> validated r' = Ok v' ->
  validated_identity v = validated_identity v' <-> same_declarations v v'.
Proof.
  intros [Hok Hh]%validated_spec [Hok' Hh']%validated_spec.
  destruct (holds_requirements _ _ Hok Hh) as [Hc Ht].
  assert (Hkey : forall k c, validated_capabilities v !! k = Some c -> declared_id c = k)
    by (intros k c; by eapply holds_capability_key).
  assert (Hkey' : forall k c, validated_capabilities v' !! k = Some c -> declared_id c = k)
    by (intros k c; by eapply holds_capability_key).
  assert (Htkey : forall k t, validated_tasks v !! k = Some t -> td_id t = k)
    by (intros k t; by eapply holds_task_key).
  assert (Htkey' : forall k t, validated_tasks v' !! k = Some t -> td_id t = k)
    by (intros k t; by eapply holds_task_key).
  rewrite (proj2 (proj2 Hh)), (proj2 (proj2 Hh')). unfold same_declarations.
  rewrite <- (shapes_same capability_shape same_capability)
    by (intros k a a' Ha; apply capability_shape_same; by eapply Hc).
  rewrite <- (shapes_same task_shape same_task)
    by (intros k a a' Ha; apply task_shape_same; by eapply Ht).
  rewrite <- (shapes_agree declared_id fst capability_shape) by done.
  rewrite <- (shapes_agree td_id fst task_shape) by done.
  split; [apply canonical_text_inj|]. intros [H1 H2]. rewrite !canonical_text_form.
  f_equal. f_equal. f_equal; [exact H1|exact H2].
Qed.
End identities.

(** ** Concrete definitions *)
#[local] Existing Instance sample_format.
Definition requirement (c i : string) : CapabilityRequirement :=
  {| required_capability_id := c; required_identity := i |}.
(** The definition of the golden test of the documented grammar. *)
Definition shaped : RunDefinition :=
  add_task (add_task
    (add_capability RunDefinition_new
      (declaration_depends_on (CapabilityDeclaration_new "store" "provider" "store-v1")
         (requirement "clock" "clock-v1")))
    (TaskDefinition_new "read" "read"))
    (with_effect (require_capability (task_depends_on (TaskDefinition_new "write" "w") "read")
       (requirement "store" "store-v1")) "op-1" NonIdempotent).
Definition sample_validated (r : RunDefinition) : ValidatedRunDefinition :=
  match validated r with
  | Ok v => v
  | _ => {| validated_tasks := ∅; validated_capabilities := ∅; validated_identity := "" |}
  end.
Example shaped_golden_bytes :
  identity shaped = Ok ("kernis-run-definition-v2#capabilities[2]#capability%5:clock%10:capability" +:+
    "%8:clock-v1#requires[0]#end#capability%5:store%8:provider%8:store-v1" +:+
    "#requires[1]%5:clock%8:clock-v1#end#end#tasks[2]#task%4:read#depends[0]#end" +:+
    "#requires[0]#end#effect#absent#task%5:write#depends[1]%4:read#end#requires[1]" +:+
    "%5:store%8:store-v1#end#effect#present%4:op-1#non_idempotent#end").
Proof. vm_compute. reflexivity. Qed.
(** The same definition with its tasks in another order and other labels. *)
Definition reordered : RunDefinition :=
  {| run_tasks := (fun t => {| td_id := td_id t; td_label := "other"; td_dependencies := td_dependencies t;
       td_required := td_required t; td_effect := td_effect t |}) <$> rev (run_tasks shaped);
     run_capabilities := run_capabilities shaped |}.
Lemma shaped_validates : validated shaped = Ok (sample_validated shaped).
Proof. vm_compute. reflexivity. Qed.
Lemma reordered_validates : validated reordered = Ok (sample_validated reordered).
Proof. vm_compute. reflexivity. Qed.
Lemma validated_exact_witness :
  definition_ok shaped /\ holds shaped (sample_validated shaped).
Proof.
  destruct (validated_exact shaped) as (_ & Hiff & Hh). split; [|exact (Hh _ shaped_validates)].
  apply Hiff. exists (sample_validated shaped). exact shaped_validates.
Defined.
Lemma identity_exact_witness :
  same_declarations (sample_validated shaped) (sample_validated reordered).
Proof.
  apply (proj1 (identity_exact shaped reordered _ _ shaped_validates reordered_validates)).
  vm_compute. reflexivity.
Defined.
