(* ===== verification/Composition.v ===== *)
(** * Composition planning: [crates/runtime-composition/src/definition.rs],
    [registration.rs], [config.rs], [error.rs] and the planning half of
    [plan.rs]

    Stable module declarations, their process-local registrations, and the
    builder that validates a set of modules and merges it into one run
    definition and one factory registry.  Closures of the host (factories,
    validators, lifecycle hooks) are opaque names.  [Arc<PluginRuntime>] is the
    identity of the shared object with its immutable definition; planning reads
    nothing else of it. *)
From S2P Require Export Plugin RunDefinition.
#[local] Open Scope string_scope.
#[local] Open Scope nat_scope.
#[local] Open Scope list_scope.

(** ** Declarations *)
Record ConfigRequirement := { config_key : Id; config_required : bool }.
Record ReactiveCapabilityDeclaration := {
  reactive_capability_id : Id;
  reactive_kind : string;
  reactive_identity : DefinitionIdentity
}.
Inductive CapabilityOwnership := DeclarativeOwner | ReactiveOwner.
#[export] Instance CapabilityOwnership_eq_dec : EqDecision CapabilityOwnership.
Proof. solve_decision. Defined.
Inductive CapabilityContribution :=
  | Declarative (d : CapabilityDeclaration)
  | Reactive (d : ReactiveCapabilityDeclaration).
Definition contribution_id (c : CapabilityContribution) : Id :=
  match c with Declarative d => declared_id d | Reactive d => reactive_capability_id d end.
Definition contribution_identity (c : CapabilityContribution) : DefinitionIdentity :=
  match c with Declarative d => declared_identity d | Reactive d => reactive_identity d end.
Definition contribution_kind (c : CapabilityContribution) : string :=
  match c with Declarative d => declared_kind d | Reactive d => reactive_kind d end.
Definition contribution_ownership (c : CapabilityContribution) : CapabilityOwnership :=
  match c with Declarative _ => DeclarativeOwner | Reactive _ => ReactiveOwner end.
Record ModuleDefinition := {
  module_id : Id;
  module_dependencies : list Id;
  module_tasks : list TaskDefinition;
  module_capabilities : list CapabilityContribution;
  config_requirements : list ConfigRequirement
}.
Definition ModuleDefinition_new (id : Id) : ModuleDefinition :=
  {| module_id := id; module_dependencies := []; module_tasks := []; module_capabilities := [];
     config_requirements := [] |}.
Definition module_depends_on (m : ModuleDefinition) (d : Id) : ModuleDefinition :=
  {| module_id := module_id m; module_dependencies := module_dependencies m ++ [d];
     module_tasks := module_tasks m; module_capabilities := module_capabilities m;
     config_requirements := config_requirements m |}.
Definition module_with_task (m : ModuleDefinition) (t : TaskDefinition) : ModuleDefinition :=
  {| module_id := module_id m; module_dependencies := module_dependencies m;
     module_tasks := module_tasks m ++ [t]; module_capabilities := module_capabilities m;
     config_requirements := config_requirements m |}.
Definition with_capability (m : ModuleDefinition) (c : CapabilityContribution) : ModuleDefinition :=
  {| module_id := module_id m; module_dependencies := module_dependencies m;
     module_tasks := module_tasks m; module_capabilities := module_capabilities m ++ [c];
     config_requirements := config_requirements m |}.
Definition with_declarative_capability (m : ModuleDefinition) (d : CapabilityDeclaration) :
  ModuleDefinition := with_capability m (Declarative d).
Definition with_reactive_capability (m : ModuleDefinition) (c : Id) (kind : string)
  (i : DefinitionIdentity) : ModuleDefinition :=
  with_capability m (Reactive {| reactive_capability_id := c; reactive_kind := kind;
                                 reactive_identity := i |}).
Definition with_config (m : ModuleDefinition) (r : ConfigRequirement) : ModuleDefinition :=
  {| module_id := module_id m; module_dependencies := module_dependencies m;
     module_tasks := module_tasks m; module_capabilities := module_capabilities m;
     config_requirements := config_requirements m ++ [r] |}.
Definition requiring_config (m : ModuleDefinition) (key : Id) : ModuleDefinition :=
  with_config m {| config_key := key; config_required := true |}.
Definition with_optional_config (m : ModuleDefinition) (key : Id) : ModuleDefinition :=
  with_config m {| config_key := key; config_required := false |}.

(** ** Registrations *)
Definition LifecycleHook : Set := N.
Record FactoryContribution := {
  factory_capability : Id;
  factory_identity : DefinitionIdentity;
  contributed_factory : CapabilityFactory
}.
Record PluginContribution := { plugin : PluginRuntime; plugin_config : PluginConfig }.
Record ModuleRegistration := {
  definition : ModuleDefinition;
  factory_contributions : list FactoryContribution;
  plugins : list PluginContribution;
  on_activate : option LifecycleHook;
  on_dispose : option LifecycleHook
}.
Definition ModuleRegistration_new (d : ModuleDefinition) : ModuleRegistration :=
  {| definition := d; factory_contributions := []; plugins := []; on_activate := None;
     on_dispose := None |}.
Definition with_factory (r : ModuleRegistration) (c : Id) (i : DefinitionIdentity)
  (f : CapabilityFactory) : ModuleRegistration :=
  {| definition := definition r;
     factory_contributions := factory_contributions r ++
       [{| factory_capability := c; factory_identity := i; contributed_factory := f |}];
     plugins := plugins r; on_activate := on_activate r; on_dispose := on_dispose r |}.
Definition plugin_with_config (r : ModuleRegistration) (p : PluginRuntime) (c : PluginConfig) :
  ModuleRegistration :=
  {| definition := definition r; factory_contributions := factory_contributions r;
     plugins := plugins r ++ [{| plugin := p; plugin_config := c |}];
     on_activate := on_activate r; on_dispose := on_dispose r |}.
Definition with_plugin (r : ModuleRegistration) (p : PluginRuntime) : ModuleRegistration :=
  plugin_with_config r p "".
Definition set_on_activate (r : ModuleRegistration) (h : LifecycleHook) : ModuleRegistration :=
  {| definition := definition r; factory_contributions := factory_contributions r;
     plugins := plugins r; on_activate := Some h; on_dispose := on_dispose r |}.
Definition set_on_dispose (r : ModuleRegistration) (h : LifecycleHook) : ModuleRegistration :=
  {| definition := definition r; factory_contributions := factory_contributions r;
     plugins := plugins r; on_activate := on_activate r; on_dispose := Some h |}.

(** ** Host configuration *)
Record HostConfig := { config_values : gmap Id string }.
Definition HostConfig_new : HostConfig := {| config_values := ∅ |}.
Definition config_provide (c : HostConfig) (key : Id) (value : string) : HostConfig :=
  {| config_values := <[key := value]> (config_values c) |}.
Definition config_get (c : HostConfig) (key : Id) : option string := config_values c !! key.
Definition config_contains (c : HostConfig) (key : Id) : bool :=
  bool_decide (is_Some (config_values c !! key)).

(** ** Errors *)
Inductive CapabilityConflictReason :=
  | UnownedRequirement
  | RequiredOnReactiveSlot (m : Id)
  | RequirementIdentityMismatch (required declared : DefinitionIdentity).
Inductive FactoryConflictReason :=
  | UndeclaredSlot
  | FactoryOnReactiveSlot (m : Id)
  | FactoryIdentityMismatch (declared : DefinitionIdentity)
  | DuplicateFactory (m previous : Id)
  | MissingSlotFactory
  | InvalidFactoryIdentity.
Inductive PluginConflictReason :=
  | DuplicateRegistration (m previous : Id)
  | SlotAlreadyClaimed (m previous : Id)
  | UnownedPublication
  | StaticSlotCollision (m : Id)
  | DefinitionMismatch (detail : string).
(** [CompositionError]: the variants of planning and of the check of the host
    configuration; those of activation are in [Assembly]. *)
Inductive CompositionError :=
  | DuplicateModule (m : Id)
  | MissingModuleDependency (m dependency : Id)
  | ModuleDependencyCycle (cycle : list Id)
  | DuplicateTaskContribution (task m previous : Id)
  | DuplicateCapabilityOwnership (capability m previous : Id)
  | CapabilityDefinitionConflict (capability : Id) (reason : CapabilityConflictReason)
  | MissingCapabilityPlugin (capability m : Id)
  | CapabilityPluginConflict (p : Id) (reason : PluginConflictReason)
  | ConfigurationConflict (key m previous : Id)
  | MissingConfiguration (m key : Id)
  | FactoryConflict (capability : Id) (i : DefinitionIdentity) (reason : FactoryConflictReason)
  | InvalidMergedDefinition (source : DefinitionError).

(** ** The builder *)
Abbreviation Modules := (gmap Id ModuleRegistration).
Record CompositionBuilder := { builder_modules : Modules }.
Definition CompositionBuilder_new : CompositionBuilder := {| builder_modules := ∅ |}.
Definition register_module (b : CompositionBuilder) (r : ModuleRegistration) :
  result CompositionError CompositionBuilder :=
  let id := module_id (definition r) in
  match builder_modules b !! id with
  | Some _ => Err (DuplicateModule id)
  | None => Ok {| builder_modules := <[id := r]> (builder_modules b) |}
  end.
Record CapabilitySlot := {
  slot_module : Id;
  slot_ownership : CapabilityOwnership;
  slot_identity : DefinitionIdentity;
  slot_kind : string
}.
Abbreviation Slots := (gmap Id CapabilitySlot).

(** ** Validation

    A [for (id, module) in modules] loop runs over [map_iter]: in identifier
    order.  Nested loops thread the accumulator through both. *)
Definition check_module_dependency (modules : Modules) (m d : Id) : result CompositionError unit :=
  if bool_decide (is_Some (modules !! d)) then Ok tt else Err (MissingModuleDependency m d).
Definition validate_dependencies (modules : Modules) : result CompositionError unit :=
  foldM (fun _ (x : Id * ModuleRegistration) =>
    foldM (fun _ d => check_module_dependency modules x.1 d)
      (module_dependencies (definition x.2)) tt) (map_iter modules) tt.

(** *** Kahn's order with the identifier as the tie-breaker *)
Definition dependency_sets (modules : Modules) : gmap Id (gset Id) :=
  (fun r => list_to_set (module_dependencies (definition r))) <$> modules.
(** The edges in the order of the two loops that count them. *)
Definition dependency_edges (deps : gmap Id (gset Id)) : list (Id * Id) :=
  map_iter deps ≫= fun x => pair x.1 <$> set_iter x.2.
Definition count_edge (indegree : gmap Id nat) (e : Id * Id) : gmap Id nat :=
  <[e.1 := S (default 0 (indegree !! e.1))]> indegree.
Definition record_dependent (dependents : gmap Id (gset Id)) (e : Id * Id) : gmap Id (gset Id) :=
  <[e.2 := {[e.1]} ∪ default ∅ (dependents !! e.2)]> dependents.
Record kahn := { indegree : gmap Id nat; ready : gset Id; emitted : list Id }.
(** [*counter -= 1] on a [usize], which must not go below zero. *)
Definition release (k : kahn) (dependent : Id) : result CompositionError kahn :=
  counter ← expect (indegree k !! dependent) "dependents are registered modules";
  match counter with
  | O => Panic "attempt to subtract with overflow"
  | S n =>
      Ok {| indegree := <[dependent := n]> (indegree k);
            ready := if n =? 0 then {[dependent]} ∪ ready k else ready k;
            emitted := emitted k |}
  end.
Fixpoint kahn_loop (fuel : nat) (dependents : gmap Id (gset Id)) (k : kahn) :
  result CompositionError kahn :=
  match head (set_iter (ready k)) with
  | None => Ok k
  | Some m =>
      match fuel with
      | O => NoFuel
      | S fuel =>
          let k := {| indegree := indegree k; ready := ready k ∖ {[m]}; emitted := emitted k ++ [m] |} in
          k ← foldM release (set_iter (default ∅ (dependents !! m))) k;
          kahn_loop fuel dependents k
      end
  end.
(** The walk along remaining dependencies that exhibits a cycle; [positions]
    records where each module lies on the path. *)
Fixpoint cycle_walk (fuel : nat) (deps : gmap Id (gset Id)) (remaining : gset Id) (path : list Id)
  (positions : gmap Id nat) (cursor : Id) : result CompositionError (list Id) :=
  match positions !! cursor with
  | Some position => Err (ModuleDependencyCycle (drop position path ++ [cursor]))
  | None =>
      match fuel with
      | O => NoFuel
      | S fuel =>
          ds ← expect (deps !! cursor) "cycle members are registered modules";
          next ← expect (find (fun d => bool_decide (d ∈ remaining)) (set_iter ds))
                   "a cycle member always retains a remaining dependency";
          cycle_walk fuel deps remaining (path ++ [cursor])
            (<[cursor := length path]> positions) next
      end
  end.
Definition deterministic_order (modules : Modules) : result CompositionError (list Id) :=
  let deps := dependency_sets modules in
  let edges := dependency_edges deps in
  let dependents := foldl record_dependent ∅ edges in
  let indegree := foldl count_edge ((fun _ => 0) <$> modules) edges in
  let ready := list_to_set (fst <$> filter (fun x => x.2 = 0) (map_iter indegree)) in
  k ← kahn_loop (length (map_keys modules)) dependents
        {| indegree := indegree; ready := ready; emitted := [] |};
  if length (emitted k) =? length (map_keys modules) then Ok (emitted k)
  else
    let remaining := list_to_set (filter (fun m => m ∉ emitted k) (map_keys modules)) in
    cursor ← expect (head (set_iter remaining)) "a non-empty cycle set always exists";
    cycle_walk (length (map_keys modules)) deps remaining [] ∅ cursor.

(** *** Ownership of tasks and slots *)
Definition claim_task (m : Id) (owners : gmap Id Id) (t : TaskDefinition) :
  result CompositionError (gmap Id Id) :=
  match owners !! td_id t with
  | Some previous => Err (DuplicateTaskContribution (td_id t) m previous)
  | None => Ok (<[td_id t := m]> owners)
  end.
Definition validate_task_contributions (modules : Modules) : result CompositionError unit :=
  _ ← foldM (fun owners (x : Id * ModuleRegistration) =>
        foldM (claim_task x.1) (module_tasks (definition x.2)) owners) (map_iter modules) ∅;
  Ok tt.
Definition slot_of (m : Id) (c : CapabilityContribution) : CapabilitySlot :=
  {| slot_module := m; slot_ownership := contribution_ownership c;
     slot_identity := contribution_identity c; slot_kind := contribution_kind c |}.
Definition claim_slot (m : Id) (slots : Slots) (c : CapabilityContribution) :
  result CompositionError Slots :=
  match slots !! contribution_id c with
  | Some previous => Err (DuplicateCapabilityOwnership (contribution_id c) m (slot_module previous))
  | None => Ok (<[contribution_id c := slot_of m c]> slots)
  end.
Definition validate_capability_slots (modules : Modules) : result CompositionError Slots :=
  foldM (fun slots (x : Id * ModuleRegistration) =>
    foldM (claim_slot x.1) (module_capabilities (definition x.2)) slots) (map_iter modules) ∅.

(** *** Requirements *)
Definition validate_requirement (slots : Slots) (q : CapabilityRequirement) :
  result CompositionError unit :=
  let c := required_capability_id q in
  match slots !! c with
  | None => Err (CapabilityDefinitionConflict c UnownedRequirement)
  | Some slot =>
      if bool_decide (slot_ownership slot = ReactiveOwner)
      then Err (CapabilityDefinitionConflict c (RequiredOnReactiveSlot (slot_module slot)))
      else if bool_decide (slot_identity slot <> required_identity q)
      then Err (CapabilityDefinitionConflict c
                  (RequirementIdentityMismatch (required_identity q) (slot_identity slot)))
      else Ok tt
  end.
Definition contribution_requirements (c : CapabilityContribution) : list CapabilityRequirement :=
  match c with Declarative d => declared_dependencies d | Reactive _ => [] end.
Definition validate_module_requirements (slots : Slots) (d : ModuleDefinition) :
  result CompositionError unit :=
  _ ← foldM (fun _ t => foldM (fun _ q => validate_requirement slots q) (td_required t) tt)
        (module_tasks d) tt;
  foldM (fun _ c => foldM (fun _ q => validate_requirement slots q) (contribution_requirements c) tt)
    (module_capabilities d) tt.
Definition validate_requirements (modules : Modules) (slots : Slots) : result CompositionError unit :=
  foldM (fun _ r => validate_module_requirements slots (definition r)) (map_values modules) tt.

(** *** Factories *)
Definition contributes_factory (c : Id) (i : DefinitionIdentity) (r : ModuleRegistration) : bool :=
  existsb (fun f => bool_decide (factory_capability f = c) && bool_decide (factory_identity f = i))
    (factory_contributions r).
Definition first_factory_owner (modules : Modules) (c : Id) (i : DefinitionIdentity) :
  result CompositionError Id :=
  expect (fst <$> find (fun x => contributes_factory c i x.2) (map_iter modules))
    "a duplicate factory always has an owning module".
Definition validate_factory_slot (slots : Slots) (f : FactoryContribution) :
  result CompositionError unit :=
  let c := factory_capability f in let i := factory_identity f in
  if trim_is_empty i then Err (FactoryConflict c i InvalidFactoryIdentity)
  else match slots !! c with
  | None => Err (FactoryConflict c i UndeclaredSlot)
  | Some slot =>
      if bool_decide (slot_ownership slot = ReactiveOwner)
      then Err (FactoryConflict c i (FactoryOnReactiveSlot (slot_module slot)))
      else if bool_decide (slot_identity slot <> i)
      then Err (FactoryConflict c i (FactoryIdentityMismatch (slot_identity slot)))
      else Ok tt
  end.
Definition add_factory (modules : Modules) (slots : Slots) (m : Id) (fs : FactoryRegistry)
  (f : FactoryContribution) : result CompositionError FactoryRegistry :=
  _ ← validate_factory_slot slots f;
  match register_factory fs (factory_capability f) (factory_identity f) (contributed_factory f) with
  | (fs, Ok _) => Ok fs
  | _ =>
      previous ← first_factory_owner modules (factory_capability f) (factory_identity f);
      Err (FactoryConflict (factory_capability f) (factory_identity f) (DuplicateFactory m previous))
  end.
Definition check_slot_factory (fs : FactoryRegistry) (x : Id * CapabilitySlot) :
  result CompositionError unit :=
  if bool_decide (slot_ownership x.2 = DeclarativeOwner)
     && negb (contains_factory fs x.1 (slot_identity x.2))
  then Err (FactoryConflict x.1 (slot_identity x.2) MissingSlotFactory) else Ok tt.
Definition validate_factories (modules : Modules) (slots : Slots) :
  result CompositionError FactoryRegistry :=
  fs ← foldM (fun fs (x : Id * ModuleRegistration) =>
         foldM (add_factory modules slots x.1) (factory_contributions x.2) fs)
         (map_iter modules) FactoryRegistry_new;
  _ ← foldM (fun _ x => check_slot_factory fs x) (map_iter slots) tt;
  Ok fs.

(** *** Plugins *)
Definition contribution_plugin (p : PluginContribution) : PluginDefinition :=
  plugin_definition (plugin p).
Definition contributes_plugin (p : Id) (r : ModuleRegistration) : bool :=
  existsb (fun c => bool_decide (plugin_id (contribution_plugin c) = p)) (plugins r).
Definition first_plugin_owner (modules : Modules) (p : Id) : result CompositionError Id :=
  expect (fst <$> find (fun x => contributes_plugin p x.2) (map_iter modules))
    "a duplicate plugin always has an owning module".
Record plugin_claims := { plugin_owners : gset Id; reactive_claims : gmap Id Id }.
Definition claim_reactive_slot (m p : Id) (capability : CapabilityDefinition) (slot : CapabilitySlot)
  (claims : gmap Id Id) : result CompositionError (gmap Id Id) :=
  match claims !! def_id capability with
  | Some previous => Err (CapabilityPluginConflict p (SlotAlreadyClaimed m previous))
  | None =>
      if bool_decide (def_kind capability <> slot_kind slot)
      then Err (CapabilityPluginConflict p (DefinitionMismatch
                  ("plugin kind " +:+ def_kind capability +:+ " differs from slot kind "
                   +:+ slot_kind slot)))
      else if bool_decide (replay_identity capability <> slot_identity slot)
      then Err (CapabilityPluginConflict p (DefinitionMismatch
                  ("plugin replay identity " +:+ replay_identity capability
                   +:+ " differs from slot identity " +:+ slot_identity slot)))
      else Ok (<[def_id capability := m]> claims)
  end.
Definition check_plugin (modules : Modules) (slots : Slots) (m : Id) (s : plugin_claims)
  (c : PluginContribution) : result CompositionError plugin_claims :=
  let p := plugin_id (contribution_plugin c) in
  let capability := plugin_capability (contribution_plugin c) in
  if bool_decide (p ∈ plugin_owners s)
  then
    previous ← first_plugin_owner modules p;
    Err (CapabilityPluginConflict p (DuplicateRegistration m previous))
  else
    _ ← foldM (fun _ (d : Id) => if bool_decide (is_Some (slots !! d)) then Ok tt
                          else Err (CapabilityDefinitionConflict d UnownedRequirement))
          (set_iter (def_dependencies capability)) tt;
    match slots !! (def_id capability : Id) with
    | None => Err (CapabilityPluginConflict p UnownedPublication)
    | Some slot =>
        if bool_decide (slot_ownership slot = DeclarativeOwner)
        then Err (CapabilityPluginConflict p (StaticSlotCollision (slot_module slot)))
        else
          claims ← claim_reactive_slot m p capability slot (reactive_claims s);
          Ok {| plugin_owners := {[p]} ∪ plugin_owners s; reactive_claims := claims |}
    end.
Definition check_slot_plugin (claims : gmap Id Id) (x : Id * CapabilitySlot) :
  result CompositionError unit :=
  if bool_decide (slot_ownership x.2 = ReactiveOwner) && negb (bool_decide (is_Some (claims !! x.1)))
  then Err (MissingCapabilityPlugin x.1 (slot_module x.2)) else Ok tt.
Definition validate_plugins (modules : Modules) (slots : Slots) : result CompositionError unit :=
  s ← foldM (fun s (x : Id * ModuleRegistration) => foldM (check_plugin modules slots x.1) (plugins x.2) s)
        (map_iter modules) {| plugin_owners := ∅; reactive_claims := ∅ |};
  foldM (fun _ x => check_slot_plugin (reactive_claims s) x) (map_iter slots) tt.

(** *** Configuration *)
Definition note_config (m : Id) (noted : gmap Id (Id * bool)) (r : ConfigRequirement) :
  result CompositionError (gmap Id (Id * bool)) :=
  let noted' := <[config_key r := (m, config_required r)]> noted in
  match noted !! config_key r with
  | Some (previous, required) =>
      if negb (Bool.eqb required (config_required r))
      then Err (ConfigurationConflict (config_key r) m previous) else Ok noted'
  | None => Ok noted'
  end.
Definition validate_configuration (modules : Modules) : result CompositionError unit :=
  _ ← foldM (fun noted (x : Id * ModuleRegistration) =>
        foldM (note_config x.1) (config_requirements (definition x.2)) noted) (map_iter modules) ∅;
  Ok tt.
(** The check of the host's values that opens an activation. *)
Definition check_host_config (c : HostConfig) (m : Id) (r : ConfigRequirement) :
  result CompositionError unit :=
  if config_required r && negb (config_contains c (config_key r))
  then Err (MissingConfiguration m (config_key r)) else Ok tt.
Definition validate_host_config (modules : Modules) (c : HostConfig) : result CompositionError unit :=
  foldM (fun _ (x : Id * ModuleRegistration) =>
    foldM (fun _ r => check_host_config c x.1 r) (config_requirements (definition x.2)) tt)
    (map_iter modules) tt.

(** ** The plan *)
Definition add_module_tasks (modules : Modules) (d : RunDefinition) (m : Id) :
  result CompositionError RunDefinition :=
  r ← expect (modules !! m) "modules[module_id]";
  Ok (foldl add_task d (module_tasks (definition r))).
Definition declared_capabilities (modules : Modules) : gmap Id CapabilityDeclaration :=
  foldl (fun ds c => match c with Declarative d => <[declared_id d := d]> ds | Reactive _ => ds end)
    ∅ (map_values modules ≫= fun r => module_capabilities (definition r)).
Definition add_slot_capability (declarations : gmap Id CapabilityDeclaration) (d : RunDefinition)
  (c : Id) : RunDefinition :=
  match declarations !! c with Some declaration => add_capability d declaration | None => d end.
Record CompositionPlan := {
  plan_modules : Modules;
  plan_order : list Id;
  plan_definition : RunDefinition;
  plan_factories : FactoryRegistry;
  plan_slots : Slots
}.

Section build.
Context `{StoreFormat}.
Definition merge_definition (modules : Modules) (order : list Id) (slots : Slots) :
  result CompositionError RunDefinition :=
  d ← foldM (add_module_tasks modules) order RunDefinition_new;
  let d := foldl (add_slot_capability (declared_capabilities modules)) d (map_keys slots) in
  _ ← map_err InvalidMergedDefinition (validate d);
  Ok d.
Definition build (b : CompositionBuilder) : result CompositionError CompositionPlan :=
  let modules := builder_modules b in
  _ ← validate_dependencies modules;
  order ← deterministic_order modules;
  slots ← validate_capability_slots modules;
  _ ← validate_task_contributions modules;
  _ ← validate_requirements modules slots;
  factories ← validate_factories modules slots;
  _ ← validate_plugins modules slots;
  _ ← validate_configuration modules;
  definition ← merge_definition modules order slots;
  Ok {| plan_modules := modules; plan_order := order; plan_definition := definition;
        plan_factories := factories; plan_slots := slots |}.
End build.
