(* ===== verification/CompositionOrder.v ===== *)
(** * The activation order of a composition is the least topological order

    Kahn's loop as the source runs it: counters, a ready set, the smallest
    ready identifier first.  Its invariant relates the counters to the modules
    emitted so far; the walk over the rest exhibits a cycle. *)
From S2P Require Export Composition.
#[local] Open Scope string_scope.
#[local] Open Scope nat_scope.
#[local] Open Scope list_scope.

(** ** The counters and the reverse edges *)
Lemma count_edges (es : list (Id * Id)) (m : gmap Id nat) k :
  is_Some (m !! k) ->
  foldl count_edge m es !! k = (fun n => n + length (filter (fun e => e.1 = k) es)) <$> m !! k.
Proof.
  revert m. induction es as [|e es IH]; intros m [n Hn]; cbn [foldl].
  { rewrite Hn. cbn. by rewrite Nat.add_0_r. }
  unfold count_edge at 2. rewrite filter_cons. destruct (decide (e.1 = k)) as [He|He].
  - rewrite He, IH by (rewrite lookup_insert_eq; by eexists). rewrite lookup_insert_eq, Hn. cbn.
    f_equal. lia.
  - rewrite IH by (rewrite lookup_insert_ne by done; by eexists). by rewrite lookup_insert_ne.
Qed.
Lemma recorded_dependents (es : list (Id * Id)) (m : gmap Id (gset Id)) x y :
  x ∈ default ∅ (foldl record_dependent m es !! y) <-> x ∈ default ∅ (m !! y) \/ (x, y) ∈ es.
Proof.
  revert m. induction es as [|[a b] es IH]; intros m; cbn [foldl]; [rewrite elem_of_nil; tauto|].
  rewrite IH, elem_of_cons. unfold record_dependent. cbn [fst snd].
  destruct (decide (b = y)) as [->|Hne].
  - rewrite lookup_insert_eq. cbn. set_solver.
  - rewrite lookup_insert_ne by done. naive_solver.
Qed.
Lemma edges_of_source (l : list (Id * gset Id)) k s :
  NoDup l.*1 -> (k, s) ∈ l ->
  length (filter (fun e => e.1 = k) (l ≫= fun x => pair x.1 <$> set_iter x.2)) = size s.
Proof.
  assert (Hall : forall (k : Id) (X : gset Id), filter (fun e => e.1 = k) (pair k <$> set_iter X) = pair k <$> set_iter X).
  { intros k' X. induction (set_iter X) as [|a l' IH]; [done|]. rewrite fmap_cons, filter_cons.
    rewrite decide_True by done. by rewrite IH. }
  assert (Hnone : forall (k k' : Id) (X : gset Id), k' <> k -> filter (fun e => e.1 = k) (pair k' <$> set_iter X) = []).
  { intros k1 k2 X Hne. induction (set_iter X) as [|a l' IH]; [done|]. rewrite fmap_cons, filter_cons.
    by rewrite decide_False. }
  assert (Hskip : forall l : list (Id * gset Id), k ∉ l.*1 ->
    filter (fun e => e.1 = k) (l ≫= fun x => pair x.1 <$> set_iter x.2) = []).
  { intros l0. induction l0 as [|[k' s'] l0 IH]; intros Hk; [done|]. rewrite bind_cons, filter_app. cbn [fst snd].
    cbn in Hk. apply not_elem_of_cons in Hk as [Hne Hk]. rewrite Hnone by done. by apply IH. }
  induction l as [|[k' s'] l IH]; intros Hnd Hin; [by apply elem_of_nil in Hin|].
  cbn in Hnd. apply NoDup_cons in Hnd as [Hk Hnd]. rewrite bind_cons, filter_app, length_app. cbn [fst snd].
  apply elem_of_cons in Hin as [[= -> ->]|Hin].
  - rewrite Hall, Hskip by done. rewrite length_fmap, length_set_iter. cbn. lia.
  - rewrite Hnone, IH; [done|done|done|]. intros ->. apply Hk. by apply (list_elem_of_fmap_2 fst) in Hin.
Qed.
Lemma release_loop l k :
  NoDup l -> (forall x, x ∈ l -> exists n, indegree k !! x = Some (S n)) ->
  exists k', foldM release l k = Ok k' /\ emitted k' = emitted k /\
    (forall x, indegree k' !! x = if bool_decide (x ∈ l) then pred <$> indegree k !! x else indegree k !! x) /\
    (forall x, x ∈ ready k' <-> x ∈ ready k \/ x ∈ l /\ indegree k !! x = Some 1).
Proof.
  revert k. induction l as [|a l IH]; intros k Hnd Hpos.
  { exists k. split_and!; try done. intros x. rewrite elem_of_nil. tauto. }
  apply NoDup_cons in Hnd as [Ha Hnd]. destruct (Hpos a) as [n Hn]; [left|].
  set (k1 := {| indegree := <[a := n]> (indegree k);
    ready := if n =? 0 then {[a]} ∪ ready k else ready k; emitted := emitted k |}).
  assert (Hr : release k a = Ok k1) by (unfold release; by rewrite Hn).
  cbn [foldM]. rewrite Hr. cbn [mbind result_bind].
  destruct (IH k1 Hnd) as (k' & -> & Hem & Hin & Hre).
  { intros x Hx. cbn. rewrite lookup_insert_ne by (by intros ->). apply Hpos. by right. }
  exists k'. split_and!; [done|done|..].
  - intros x. rewrite Hin. cbn. destruct (decide (a = x)) as [<-|Hne].
    + rewrite (bool_decide_false (a ∈ l)) by done. rewrite bool_decide_true by left.
      by rewrite lookup_insert_eq, Hn.
    + rewrite lookup_insert_ne by done. rewrite (bool_decide_ext (x ∈ a :: l) (x ∈ l)); [done|].
      rewrite elem_of_cons. naive_solver.
  - intros x. rewrite Hre, elem_of_cons. cbn. destruct (decide (a = x)) as [<-|Hne].
    + rewrite lookup_insert_eq, Hn. destruct (Nat.eqb_spec n 0); set_solver.
    + rewrite lookup_insert_ne by done. destruct (n =? 0); set_solver.
Qed.

Section order.
Context (modules : Modules).

(** [module_needs x y]: [x] declares the dependency [y]. *)
Definition module_needs (x y : Id) : Prop :=
  exists r, modules !! x = Some r /\ y ∈ module_dependencies (definition r).
#[local] Abbreviation deps := (dependency_sets modules).
Definition needed (x : Id) : gset Id := default ∅ (deps !! x).

Lemma elem_of_needed x y : y ∈ needed x <-> module_needs x y.
Proof.
  unfold needed, dependency_sets, module_needs. rewrite lookup_fmap.
  destruct (modules !! x) as [r|]; cbn -[list_to_set]; [rewrite elem_of_list_to_set|]; set_solver.
Qed.
Lemma deps_lookup x : is_Some (modules !! x) -> deps !! x = Some (needed x).
Proof. unfold needed, dependency_sets. rewrite lookup_fmap. by intros [r ->]. Qed.
Lemma elem_of_edges x y : (x, y) ∈ dependency_edges deps <-> module_needs x y.
Proof.
  unfold dependency_edges. rewrite list_elem_of_bind. split.
  - intros ([k s] & (d & [= -> ->] & Hd)%list_elem_of_fmap & Hin%elem_of_map_iter). cbn in *.
    rewrite elem_of_set_iter in Hd. apply elem_of_needed. unfold needed. by rewrite Hin.
  - intros Hxy. exists (x, needed x). split.
    + apply list_elem_of_fmap_2. cbn. by rewrite elem_of_set_iter, elem_of_needed.
    + apply elem_of_map_iter, deps_lookup. destruct Hxy as (r & -> & _). by eexists.
Qed.
Lemma edge_count x :
  is_Some (modules !! x) -> length (filter (fun e => e.1 = x) (dependency_edges deps)) = size (needed x).
Proof.
  intros Hx. apply edges_of_source.
  - rewrite map_iter_keys. apply NoDup_map_keys.
  - by apply elem_of_map_iter, deps_lookup.
Qed.

(** Which modules still wait for others. *)
Definition waiting (done : list Id) (x : Id) : gset Id := needed x ∖ list_to_set done.
Lemma elem_of_waiting done x y : y ∈ waiting done x <-> module_needs x y /\ y ∉ done.
Proof. unfold waiting. by rewrite elem_of_difference, elem_of_needed, elem_of_list_to_set. Qed.
Definition free (done : list Id) (x : Id) : Prop :=
  is_Some (modules !! x) /\ (x ∉ done) /\ forall y, module_needs x y -> y ∈ done.
(** Each module of the order is the smallest that was free when it was
    chosen. *)
Definition least_first (l : list Id) : Prop :=
  forall i x, l !! i = Some x ->
    free (take i l) x /\ forall y, free (take i l) y -> ord_le x y.
Record kahn_ok (k : kahn) : Prop := {
  ka_count x n : indegree k !! x = Some n <-> is_Some (modules !! x) /\ n = size (waiting (emitted k) x);
  ka_ready x : x ∈ ready k <-> free (emitted k) x;
  ka_least : least_first (emitted k)
}.

Lemma waiting_empty done x : size (waiting done x) = 0 <-> forall y, module_needs x y -> y ∈ done.
Proof.
  rewrite size_empty_iff, elem_of_equiv_empty. setoid_rewrite elem_of_waiting. split.
  - intros Hn y Hy. destruct (decide (y ∈ done)) as [|Hd]; [done|]. destruct (Hn y). by split.
  - intros Hall y [Hy Hd]. by apply Hd, Hall.
Qed.
Lemma least_first_snoc l x :
  least_first l -> free l x -> (forall y, free l y -> ord_le x y) -> least_first (l ++ [x]).
Proof.
  intros Hl Hx Hmin i y Hy. apply lookup_app_Some in Hy as [Hy|[Hi Hy]].
  - rewrite take_app_le by (apply lookup_lt_Some in Hy; lia). by apply Hl.
  - apply list_lookup_singleton_Some in Hy as [Hz <-]. assert (i = length l) as -> by lia.
    by rewrite take_app_length.
Qed.
Lemma least_first_closed l x y : least_first l -> x ∈ l -> module_needs x y -> y ∈ l.
Proof.
  intros Hl [i Hi]%list_elem_of_lookup Hxy. destruct (Hl i x Hi) as ((_ & _ & Hd) & _).
  apply Hd, elem_of_take in Hxy as (j & Hj & _). by eapply list_elem_of_lookup_2.
Qed.
Lemma least_first_NoDup l : least_first l -> NoDup l.
Proof.
  intros Hl. apply NoDup_alt. intros i j x Hi Hj.
  destruct (Nat.lt_trichotomy i j) as [Hlt|[->|Hlt]]; [|done|]; exfalso.
  - destruct (Hl j x Hj) as ((_ & Hn & _) & _). apply Hn, elem_of_take. by exists i.
  - destruct (Hl i x Hi) as ((_ & Hn & _) & _). apply Hn, elem_of_take. by exists j.
Qed.
Lemma least_first_registered l x : least_first l -> x ∈ l -> is_Some (modules !! x).
Proof. intros Hl [i Hi]%list_elem_of_lookup. by destruct (Hl i x Hi) as ((? & _) & _). Qed.
Lemma least_first_dependencies l : least_first l -> dependencies_first module_needs l.
Proof.
  intros Hl i x y Hi Hxy. destruct (Hl i x Hi) as ((_ & _ & Hd) & _).
  apply Hd, elem_of_take in Hxy as (j & ? & ?); [|done..]. by exists j.
Qed.

(** *** One round of the loop *)
Lemma waiting_snoc done m x : waiting (done ++ [m]) x = waiting done x ∖ {[m]}.
Proof.
  apply set_eq. intros y. rewrite elem_of_difference, !elem_of_waiting, elem_of_app, elem_of_singleton,
    list_elem_of_singleton. tauto.
Qed.
Lemma size_waiting_snoc done m x :
  m ∈ waiting done x -> size (waiting done x) = S (size (waiting (done ++ [m]) x)).
Proof.
  intros Hm. rewrite waiting_snoc, size_difference by set_solver. rewrite size_singleton.
  assert (size (waiting done x) <> 0) by (rewrite size_empty_iff; set_solver). lia.
Qed.
Lemma kahn_step (dependents : gmap Id (gset Id)) k m :
  kahn_ok k -> (forall x y, x ∈ default ∅ (dependents !! y) <-> module_needs x y) ->
  free (emitted k) m -> (forall y, free (emitted k) y -> ord_le m y) ->
  exists k', foldM release (set_iter (default ∅ (dependents !! m)))
      {| indegree := indegree k; ready := ready k ∖ {[m]}; emitted := emitted k ++ [m] |} = Ok k' /\
    emitted k' = emitted k ++ [m] /\ kahn_ok k'.
Proof.
  intros [Hc Hr Hl] Hdep Hfree Hmin. set (l := set_iter (default ∅ (dependents !! m))).
  assert (Hel : forall x, x ∈ l <-> module_needs x m) by (intros x; unfold l; by rewrite elem_of_set_iter).
  assert (Hw : forall x, x ∈ l -> m ∈ waiting (emitted k) x).
  { intros x Hx. apply elem_of_waiting. split; [by apply Hel|apply Hfree]. }
  assert (Hreg : forall x y, module_needs x y -> is_Some (modules !! x)) by (intros x y (r & ? & _); by exists r).
  destruct (release_loop l {| indegree := indegree k; ready := ready k ∖ {[m]}; emitted := emitted k ++ [m] |})
    as (k' & -> & Hem & Hin & Hre); cbn in *.
  { apply NoDup_set_iter. }
  { intros x Hx. exists (size (waiting (emitted k ++ [m]) x)). apply Hc.
    split; [by eapply Hreg, Hel|]. symmetry. by apply size_waiting_snoc, Hw. }
  exists k'. split_and!; [done|done|]. split.
  - intros x n. rewrite Hin, Hem. case_bool_decide as Hx.
    + rewrite fmap_Some. setoid_rewrite Hc. rewrite (size_waiting_snoc _ _ _ (Hw x Hx)). split.
      * intros (n' & [? ->] & ->). done.
      * intros [? ->]. eexists. split; [split; [done|reflexivity]|done].
    + rewrite Hc, waiting_snoc. assert (waiting (emitted k) x ∖ {[m]} = waiting (emitted k) x) as ->; [|done].
      apply set_eq. intros y. rewrite elem_of_difference, elem_of_singleton, elem_of_waiting.
      split; [tauto|]. intros [Hy ?]. split; [done|]. intros ->. by apply Hx, Hel.
  - intros x. rewrite Hre, Hem, elem_of_difference, elem_of_singleton, Hr, Hc. unfold free.
    setoid_rewrite elem_of_app. setoid_rewrite list_elem_of_singleton. split.
    + intros [[(? & ? & Hd) Hne]|(Hx & Hs & Hone)].
      * split_and!; [done|naive_solver|]. intros y Hy. left. by apply Hd.
      * rewrite (size_waiting_snoc _ _ _ (Hw x Hx)) in Hone. injection Hone as Hone.
        symmetry in Hone. rewrite waiting_empty in Hone. setoid_rewrite elem_of_app in Hone.
        setoid_rewrite list_elem_of_singleton in Hone. split_and!; [done| |done].
        apply Hel in Hx. intros [Hxe| ->].
        -- destruct Hfree as (_ & Hn & _). by apply Hn, (least_first_closed _ x m).
        -- destruct Hfree as (_ & Hn & Hd). by apply Hn, Hd.
    + intros (Hs & Hn & Hd). destruct (decide (x ∈ l)) as [Hx|Hx].
      * right. split_and!; [done|done|]. rewrite (size_waiting_snoc _ _ _ (Hw x Hx)). f_equal.
        symmetry. apply waiting_empty. intros y Hy. rewrite elem_of_app, list_elem_of_singleton. by apply Hd.
      * left. split_and!; [done|naive_solver| |naive_solver]. intros y Hy.
        destruct (Hd y Hy) as [|Heq]; [done|]. subst y. by destruct Hx; apply Hel.
  - rewrite Hem. by apply least_first_snoc.
Qed.

Lemma emitted_short k m :
  kahn_ok k -> m ∈ ready k -> length (emitted k) < length (map_keys modules).
Proof.
  intros Hk Hm. pose proof (ka_least _ Hk) as Hl. apply (ka_ready _ Hk) in Hm as (Hreg & Hn & _).
  assert (Hnd : NoDup (m :: emitted k)) by (constructor; [done|by apply least_first_NoDup]).
  apply (submseteq_length (m :: emitted k)), NoDup_submseteq; [done|].
  intros x [->|Hx]%elem_of_cons; apply elem_of_map_keys; [done|by eapply least_first_registered].
Qed.
Lemma kahn_loop_ends (dependents : gmap Id (gset Id)) fuel k :
  (forall x y, x ∈ default ∅ (dependents !! y) <-> module_needs x y) ->
  kahn_ok k -> fuel + length (emitted k) = length (map_keys modules) ->
  exists k', kahn_loop fuel dependents k = Ok k' /\ kahn_ok k' /\ ready k' = ∅.
Proof.
  intros Hdep. revert k. induction fuel as [|fuel IH]; intros k Hk Hfuel; cbn [kahn_loop];
    (destruct (head (set_iter (ready k))) as [m|] eqn:Em;
      [|exists k; split_and!; [done|done|by apply head_set_iter_None]]);
    apply head_set_iter in Em as [Hm Hmin]; pose proof (emitted_short k m Hk Hm) as Hshort; [lia|].
  destruct (kahn_step dependents k m Hk Hdep) as (k' & -> & Hem & Hk').
  - by apply (ka_ready _ Hk).
  - intros y Hy%(ka_ready _ Hk). by apply Hmin.
  - cbn [mbind result_bind]. apply IH; [done|]. rewrite Hem, length_app. cbn. lia.
Qed.
(** The state the loop starts from. *)
Definition kahn_start : kahn :=
  let indegree := foldl count_edge ((fun _ => 0) <$> modules) (dependency_edges deps) in
  {| indegree := indegree;
     ready := list_to_set (fst <$> filter (fun x => x.2 = 0) (map_iter indegree)); emitted := [] |}.
Lemma start_count x n :
  indegree kahn_start !! x = Some n <-> is_Some (modules !! x) /\ n = size (waiting [] x).
Proof.
  cbn. assert (Hw : waiting [] x = needed x) by (unfold waiting; set_solver). rewrite Hw.
  destruct (modules !! x) as [r|] eqn:Ex.
  - rewrite count_edges by (rewrite lookup_fmap, Ex; by eexists). rewrite lookup_fmap, Ex. cbn.
    rewrite edge_count by (rewrite Ex; by eexists). split; [intros [= <-]|intros [_ ->]]; [split|]; [by eexists|done|done].
  - split; [|by intros [[? ?] _]]. intros Hn. exfalso.
    assert (Hsrc : forall es, (forall e, e ∈ es -> is_Some (modules !! e.1)) ->
      forall m : gmap Id nat, m !! x = None -> foldl count_edge m es !! x = None).
    { induction es as [|e es IH]; intros Hes m Hm; [done|]. apply IH; [intros e' He'; apply Hes; by right|].
      unfold count_edge. rewrite lookup_insert_ne; [done|]. intros Heq.
      destruct (Hes e) as [r Hr]; [left|]. rewrite Heq, Ex in Hr. done. }
    rewrite Hsrc in Hn; [done| |by rewrite lookup_fmap, Ex].
    intros [a b] (r & Hr & _)%elem_of_edges. by exists r.
Qed.
Lemma kahn_start_ok : kahn_ok kahn_start.
Proof.
  split; [apply start_count| |by intros i x Hi].
  intros x. unfold kahn_start at 1. cbn [ready]. rewrite elem_of_list_to_set, list_elem_of_fmap. split.
  - intros ([k n] & -> & [Hz Hin]%list_elem_of_filter). cbn in Hz. subst n.
    apply elem_of_map_iter, start_count in Hin as [Hreg Hz]. symmetry in Hz.
    rewrite waiting_empty in Hz. split_and!; [done|apply not_elem_of_nil|done].
  - intros (Hreg & _ & Hd). exists (x, 0). split; [done|]. apply list_elem_of_filter. split; [done|].
    apply elem_of_map_iter, start_count. split; [done|]. symmetry. by apply waiting_empty.
Qed.

(** *** The walk along the remaining modules *)
Lemma cycle_walk_ends fuel (remaining : gset Id) path positions cursor :
  (forall x, x ∈ remaining -> exists y, y ∈ remaining /\ module_needs x y) ->
  (forall x, x ∈ remaining -> is_Some (modules !! x)) ->
  NoDup path -> (forall x, x ∈ path -> x ∈ remaining) -> cursor ∈ remaining ->
  (forall x i, positions !! x = Some i <-> path !! i = Some x) ->
  chain module_needs path -> (forall z, last path = Some z -> module_needs z cursor) ->
  fuel + length path = length (map_keys modules) ->
  exists p, cycle_walk fuel deps remaining path positions cursor = Err (ModuleDependencyCycle p) /\
    is_cycle module_needs p.
Proof.
  intros Hnext Hreg. revert path positions cursor.
  induction fuel as [|fuel IH]; intros path positions cursor Hnd Hpath Hcur Hpos Hchain Hlast Hfuel;
    cbn [cycle_walk];
    (destruct (positions !! cursor) as [i|] eqn:Ei;
      [apply Hpos in Ei; eexists; split; [done|]; by apply chain_close|]);
    assert (Hfresh : cursor ∉ path)
      by (intros [i Hi]%list_elem_of_lookup; apply Hpos in Hi; congruence);
    assert (Hshort : length path < length (map_keys modules)).
  1,3: apply (submseteq_length (cursor :: path)), NoDup_submseteq;
    [by constructor|intros x [->|Hx]%elem_of_cons; apply elem_of_map_keys; auto].
  { lia. }
  rewrite deps_lookup by auto. cbn [expect mbind result_bind].
  destruct (find (fun d => bool_decide (d ∈ remaining)) (set_iter (needed cursor))) as [next|] eqn:Ef.
  - apply find_some in Ef as [Hin Hrem%bool_decide_eq_true]. apply list_elem_of_In in Hin.
    rewrite elem_of_set_iter, elem_of_needed in Hin. cbn [expect mbind result_bind]. apply IH.
    + apply NoDup_app. split_and!; [done| |apply NoDup_singleton]. intros x Hx ->%list_elem_of_singleton. done.
    + intros x [Hx|Hx%list_elem_of_singleton]%elem_of_app; [auto|by subst].
    + done.
    + intros x i. rewrite lookup_insert_Some, lookup_app_Some, list_lookup_singleton_Some, Hpos. split.
      * intros [[<- <-]|[Hne Hi]]; [right|by left]. split; [lia|]. split; [lia|done].
      * intros [Hi|(Hle & H0 & <-)]; [right|left; split; [done|lia]].
        split; [|done]. intros ->. by apply Hfresh, list_elem_of_lookup_2 with i.
    + destruct (last path) as [z|] eqn:Hz; [by eapply chain_snoc_last; [|done|apply Hlast]|].
      apply last_None in Hz. by rewrite Hz.
    + intros z. rewrite last_snoc. by intros [= <-].
    + rewrite length_app. cbn. lia.
  - exfalso. destruct (Hnext cursor Hcur) as (y & Hy & Hxy).
    assert (Hin : y ∈ set_iter (needed cursor)) by (by rewrite elem_of_set_iter, elem_of_needed).
    apply list_elem_of_In in Hin. pose proof (find_none _ _ Ef y Hin) as Hn. cbn in Hn.
    by apply bool_decide_eq_false in Hn.
Qed.

(** *** The order *)
Definition modules_closed : Prop := forall x y, module_needs x y -> is_Some (modules !! y).

Lemma deterministic_order_cases :
  modules_closed ->
  match deterministic_order modules with
  | Ok order => least_first order /\ forall x, x ∈ order <-> is_Some (modules !! x)
  | Err e => exists p, e = ModuleDependencyCycle p /\ is_cycle module_needs p
  | _ => False
  end.
Proof.
  intros Hclosed. unfold deterministic_order. cbv zeta.
  assert (Hdep : forall x y,
    x ∈ default ∅ (foldl record_dependent ∅ (dependency_edges deps) !! y) <-> module_needs x y).
  { intros x y. rewrite recorded_dependents, lookup_empty, elem_of_edges. set_solver. }
  destruct (kahn_loop_ends _ (length (map_keys modules)) kahn_start Hdep kahn_start_ok)
    as (k & Heq & Hk & Hempty); [cbn; lia|].
  unfold kahn_start in Heq. cbv zeta in Heq. rewrite Heq. cbn [mbind result_bind].
  pose proof (ka_least _ Hk) as Hl. pose proof (least_first_NoDup _ Hl) as Hnd.
  assert (Hsub : forall x, x ∈ emitted k -> x ∈ map_keys modules)
    by (intros x Hx; by apply elem_of_map_keys, (least_first_registered (emitted k))).
  destruct (Nat.eqb_spec (length (emitted k)) (length (map_keys modules))) as [Hlen|Hlen].
  - split; [done|]. intros x. split; [by intros Hx%Hsub%elem_of_map_keys|].
    intros Hx%elem_of_map_keys.
    assert (Hp : emitted k ≡ₚ map_keys modules) by (apply submseteq_length_Permutation;
      [by apply NoDup_submseteq|lia]).
    by rewrite Hp.
  - set (remaining := list_to_set (filter (fun m => m ∉ emitted k) (map_keys modules)) : gset Id).
    assert (Hrem : forall x, x ∈ remaining <-> is_Some (modules !! x) /\ x ∉ emitted k).
    { intros x. unfold remaining. rewrite elem_of_list_to_set, list_elem_of_filter, elem_of_map_keys. tauto. }
    assert (Hnext : forall x, x ∈ remaining -> exists y, y ∈ remaining /\ module_needs x y).
    { intros x [Hx Hn]%Hrem. assert (Hw : size (waiting (emitted k) x) <> 0).
      { rewrite waiting_empty. intros Hd.
        assert (Hin : x ∈ ready k) by (by apply (ka_ready _ Hk)). rewrite Hempty in Hin. set_solver. }
      rewrite size_empty_iff in Hw. apply set_choose in Hw as [y [Hy Hny]%elem_of_waiting].
      exists y. split; [|done]. apply Hrem. split; [by apply (Hclosed x)|done]. }
    destruct (head (set_iter remaining)) as [cursor|] eqn:Ec; cbn [expect mbind result_bind].
    + apply head_set_iter in Ec as [Hcur _].
      destruct (cycle_walk_ends (length (map_keys modules)) remaining [] ∅ cursor) as (p & -> & Hp);
        try done; [by intros x [? _]%Hrem|by apply NoDup_nil_2|by intros x ?%elem_of_nil|].
      by exists p.
    + apply head_set_iter_None in Ec. destruct Hlen.
      apply Permutation_length, NoDup_Permutation; [done|apply NoDup_map_keys|]. intros x.
      split; [apply Hsub|]. intros Hx%elem_of_map_keys. destruct (decide (x ∈ emitted k)) as [|Hn]; [done|].
      assert (Hin : x ∈ remaining) by (by apply Hrem). rewrite Ec in Hin. set_solver.
Qed.
(** There is one such order. *)
Lemma least_first_unique l l' :
  least_first l -> least_first l' -> (forall x, x ∈ l <-> x ∈ l') -> l = l'.
Proof.
  intros Hl Hl' Hel. assert (Hlen : length l = length l').
  { by apply Permutation_length, NoDup_Permutation; [apply least_first_NoDup..|]. }
  assert (Htake : forall n, n <= length l -> take n l = take n l').
  { induction n as [|n IH]; intros Hn; [by rewrite !take_0|].
    destruct (lookup_lt_is_Some_2 l n) as [x Hx]; [lia|].
    destruct (lookup_lt_is_Some_2 l' n) as [y Hy]; [lia|].
    rewrite (take_S_r _ _ _ Hx), (take_S_r _ _ _ Hy), IH by lia. do 2 f_equal.
    destruct (Hl n x Hx) as [Hfx Hmx], (Hl' n y Hy) as [Hfy Hmy]. rewrite <- IH in Hfy, Hmy by lia.
    apply (anti_symm ord_le); auto. }
  rewrite <- (firstn_all l), <- (firstn_all l'), <- Hlen. by apply Htake.
Qed.
End order.
