(* ===== verification/CompositionFacts.v ===== *)
(** * Planning a composition is exact

    [build] accepts exactly the sets of modules that fit together, and the
    plan holds what the modules contributed. *)
From S2P Require Export CompositionOrder RunValidation.
#[local] Open Scope string_scope.
#[local] Open Scope nat_scope.
#[local] Open Scope list_scope.

(** ** What the modules contribute *)
Section contributions.
Context (modules : Modules).

(** The items of every module, with the module, in identifier order. *)
Definition items {B} (h : ModuleRegistration -> list B) : list (Id * B) :=
  map_iter modules ≫= fun x => pair x.1 <$> h x.2.
Lemma elem_of_items {B} (h : ModuleRegistration -> list B) m b :
  (m, b) ∈ items h <-> exists r, modules !! m = Some r /\ b ∈ h r.
Proof.
  unfold items. rewrite list_elem_of_bind. split.
  - intros ([k r] & (b' & [= -> ->] & Hb)%list_elem_of_fmap & Hin%elem_of_map_iter). by exists r.
  - intros (r & Hr%elem_of_map_iter & Hb). exists (m, r). split; [by apply list_elem_of_fmap_2|done].
Qed.
Lemma items_loop {E B S} (g : Id -> S -> B -> result E S) (h : ModuleRegistration -> list B) s :
  foldM (fun s (x : Id * ModuleRegistration) => foldM (g x.1) (h x.2) s) (map_iter modules) s =
  foldM (fun s p => g p.1 s p.2) (items h) s.
Proof. apply (foldM_bind g fst (fun x => h x.2)). Qed.

Lemma items_each {E B} (g : Id -> B -> result E unit) (h : ModuleRegistration -> list B) :
  is_Ok (foldM (fun _ (x : Id * ModuleRegistration) => foldM (fun _ b => g x.1 b) (h x.2) tt)
    (map_iter modules) tt) <-> forall m b, (m, b) ∈ items h -> is_Ok (g m b).
Proof.
  rewrite (foldM_each (fun x => foldM (fun _ b => g x.1 b) (h x.2) tt)). setoid_rewrite elem_of_items. split.
  - intros Hall m b (r & Hr & Hb). specialize (Hall (m, r)). rewrite foldM_each in Hall.
    apply Hall; [by apply elem_of_map_iter|done].
  - intros Hall [m r] Hr%elem_of_map_iter. apply foldM_each. intros b Hb. apply Hall. by exists r.
Qed.

Definition contributes (c : CapabilityContribution) : Prop :=
  exists m, (m, c) ∈ items (fun r => module_capabilities (definition r)).
Definition required (q : CapabilityRequirement) : Prop :=
  exists m r, modules !! m = Some r /\
    ((exists t, t ∈ module_tasks (definition r) /\ q ∈ td_required t) \/
     (exists c, c ∈ module_capabilities (definition r) /\ q ∈ contribution_requirements c)).
(** A declarative slot of the identity a client names. *)
Definition owned (c : Id) (i : DefinitionIdentity) : Prop :=
  exists d, contributes (Declarative d) /\ declared_id d = c /\ declared_identity d = i.
(** A reactive slot a plugin may publish. *)
Definition publishable (d : CapabilityDefinition) : Prop :=
  exists c, contributes (Reactive c) /\ reactive_capability_id c = def_id d /\
    reactive_kind c = def_kind d /\ reactive_identity c = replay_identity d.
#[local] Abbreviation all_tasks := (items (fun r => module_tasks (definition r))).
#[local] Abbreviation all_slots := (items (fun r => module_capabilities (definition r))).
#[local] Abbreviation all_factories := (items factory_contributions).
#[local] Abbreviation all_plugins := (items plugins).
#[local] Abbreviation all_config := (items (fun r => config_requirements (definition r))).
Definition published (p : Id * PluginContribution) : CapabilityDefinition :=
  plugin_capability (contribution_plugin p.2).
Definition factory_key (f : Id * FactoryContribution) : FactoryKey :=
  (factory_capability f.2, factory_identity f.2).

(** ** Each check, exactly *)
Lemma dependencies_checked : is_Ok (validate_dependencies modules) <-> modules_closed modules.
Proof.
  unfold validate_dependencies. rewrite (items_each (check_module_dependency modules) (fun r => module_dependencies (definition r))).
  unfold modules_closed, module_needs, check_module_dependency. split.
  - intros Hall x y (r & Hr & Hy). destruct (Hall x y) as [[] Hok]; [apply elem_of_items; by exists r|].
    by case_bool_decide.
  - intros Hcl x y (r & Hr & Hy)%elem_of_items. exists tt. rewrite bool_decide_true; [done|].
    apply (Hcl x). by exists r.
Qed.
Lemma tasks_checked_unique :
  is_Ok (validate_task_contributions modules) <-> NoDup ((fun x => td_id x.2) <$> all_tasks).
Proof.
  unfold validate_task_contributions. rewrite is_Ok_then, (items_loop claim_task (fun r => module_tasks (definition r))).
  assert (Hf : forall (m : gmap Id Id) (a : Id * TaskDefinition) m', claim_task a.1 m a.2 = Ok m' <->
    True /\ m !! td_id a.2 = None /\ m' = <[td_id a.2 := a.1]> m).
  { intros m a m'. unfold claim_task. destruct (m !! td_id a.2); naive_solver. }
  split.
  - intros [[m' Hm] _].
    by apply (foldM_unique (fun x => td_id x.2) fst _ _ _ Hf) in Hm as [? _].
  - intros Hnd. split; [|apply is_Ok_ret]. by apply (foldM_unique_Ok (fun x => td_id x.2) fst _ _ Hf).
Qed.
Lemma slots_checked slots :
  validate_capability_slots modules = Ok slots ->
  NoDup ((fun x => contribution_id x.2) <$> all_slots) /\
  forall k s, slots !! k = Some s <->
    exists m c, (m, c) ∈ all_slots /\ contribution_id c = k /\ s = slot_of m c.
Proof.
  unfold validate_capability_slots.
  rewrite (items_loop claim_slot (fun r => module_capabilities (definition r))). intros Hs.
  apply (foldM_unique (fun x => contribution_id x.2) (fun x => slot_of x.1 x.2)) in Hs as [Hnd Hs].
  - split; [done|]. intros k s. rewrite Hs. split; [intros ([m c] & ?); by exists m, c|intros (m & c & ?)].
    by exists (m, c).
  - intros m a m'. unfold claim_slot. destruct (m !! contribution_id a.2); naive_solver.
Qed.
Lemma slots_accepted :
  NoDup ((fun x => contribution_id x.2) <$> all_slots) -> is_Ok (validate_capability_slots modules).
Proof.
  unfold validate_capability_slots.
  rewrite (items_loop claim_slot (fun r => module_capabilities (definition r))).
  apply (foldM_unique_Ok (fun x => contribution_id x.2) (fun x => slot_of x.1 x.2)).
  intros m a m'. unfold claim_slot. destruct (m !! contribution_id a.2); naive_solver.
Qed.

(** *** Against the slot table *)
Section slots.
Context (slots : Slots).
Hypothesis Hslots : forall k s, slots !! k = Some s <->
  exists m c, (m, c) ∈ all_slots /\ contribution_id c = k /\ s = slot_of m c.

Lemma slot_owned k i :
  (exists s, slots !! k = Some s /\ slot_ownership s = DeclarativeOwner /\ slot_identity s = i) <-> owned k i.
Proof.
  unfold owned, contributes. split.
  - intros (s & (m & [d|d] & Hin & Hk & ->)%Hslots & Ho & <-); [|done]. exists d. split_and!; [by exists m|done|done].
  - intros (d & [m Hin] & <- & <-). exists (slot_of m (Declarative d)). split_and!; [|done|done].
    apply Hslots. by exists m, (Declarative d).
Qed.
Lemma slot_exists k : is_Some (slots !! k) <-> exists c, contributes c /\ contribution_id c = k.
Proof.
  split.
  - intros [s (m & c & Hin & Hk & _)%Hslots]. exists c. split; [by exists m|done].
  - intros (c & [m Hin] & Hk). exists (slot_of m c). apply Hslots. by exists m, c.
Qed.
Lemma validate_requirement_Ok q :
  is_Ok (validate_requirement slots q) <-> owned (required_capability_id q) (required_identity q).
Proof.
  rewrite <- slot_owned. unfold validate_requirement. cbv zeta.
  destruct (slots !! required_capability_id q) as [s|].
  - case_bool_decide as Ho.
    + split; [by intros [? ?]|]. intros (? & [= <-] & Hd & _). by rewrite Ho in Hd.
    + assert (Hd : slot_ownership s = DeclarativeOwner) by (by destruct (slot_ownership s)).
      case_bool_decide as Hi; [split; [by intros [? ?]|by intros (? & [= <-] & _ & ?)]|].
      split; [|by eexists]. intros _. exists s. split_and!; [done|done|].
      by destruct (decide (slot_identity s = required_identity q)).
  - split; [by intros [? ?]|by intros (? & ? & _)].
Qed.
Lemma requirements_checked :
  is_Ok (validate_requirements modules slots) <->
  forall q, required q -> owned (required_capability_id q) (required_identity q).
Proof.
  unfold validate_requirements. rewrite (foldM_each (fun r => validate_module_requirements slots (definition r))).
  setoid_rewrite elem_of_map_values. unfold validate_module_requirements. setoid_rewrite is_Ok_then.
  setoid_rewrite (foldM_each (fun t => foldM (fun _ q => validate_requirement slots q) (td_required t) tt)).
  setoid_rewrite (foldM_each (fun c => foldM (fun _ q => validate_requirement slots q) (contribution_requirements c) tt)).
  setoid_rewrite (foldM_each (validate_requirement slots)). setoid_rewrite validate_requirement_Ok.
  unfold required. split.
  - intros Hall q (m & r & Hr & [(t & Ht & Hq)|(c & Hc & Hq)]); destruct (Hall r ltac:(by exists m)); eauto.
  - intros Hall r [m Hr]. split; intros; apply Hall; exists m, r; eauto 6.
Qed.

(** *** Factories *)
Definition factory_good (f : Id * FactoryContribution) : Prop :=
  nonblank (factory_identity f.2) /\ owned (factory_capability f.2) (factory_identity f.2).
Lemma validate_factory_slot_Ok m f :
  is_Ok (validate_factory_slot slots f) <-> factory_good (m, f).
Proof.
  unfold factory_good. cbn [snd]. rewrite <- slot_owned. unfold validate_factory_slot, nonblank. cbv zeta.
  destruct (trim_is_empty _); [split; [by intros [? ?]|by intros [? _]]|].
  destruct (slots !! factory_capability f) as [s|].
  - case_bool_decide as Ho.
    + split; [by intros [? ?]|]. intros (_ & ? & [= <-] & Hd & _). by rewrite Ho in Hd.
    + assert (Hd : slot_ownership s = DeclarativeOwner) by (by destruct (slot_ownership s)).
      case_bool_decide as Hi; [split; [by intros [? ?]|by intros (_ & ? & [= <-] & _ & ?)]|].
      split; [|by eexists]. intros _. split; [done|]. exists s. split_and!; [done|done|].
      by destruct (decide (slot_identity s = factory_identity f)).
  - split; [by intros [? ?]|by intros (_ & ? & ? & _)].
Qed.
Definition record_factory (fs : FactoryRegistry) (f : Id * FactoryContribution) : FactoryRegistry :=
  {| factories := <[factory_key f := contributed_factory f.2]> (factories fs) |}.
Lemma add_factory_Ok fs f fs' :
  add_factory modules slots f.1 fs f.2 = Ok fs' <->
  factory_good f /\ factories fs !! factory_key f = None /\ fs' = record_factory fs f.
Proof.
  unfold add_factory. rewrite bind_Ok.
  assert (Hreg : nonblank (factory_identity f.2) ->
    register_factory fs (factory_capability f.2) (factory_identity f.2) (contributed_factory f.2) =
    match factories fs !! factory_key f with
    | Some _ => (fs, Err (DuplicateDefinitionIdentity (factory_capability f.2) (factory_identity f.2)))
    | None => (record_factory fs f, Ok tt) end).
  { unfold register_factory, nonblank, record_factory, factory_key. by intros ->. }
  pose proof (validate_factory_slot_Ok f.1 f.2) as Hgood. rewrite <- surjective_pairing in Hgood. split.
  - intros ([] & Hok & Hr). assert (Hg : factory_good f) by (apply Hgood; by exists tt).
    rewrite Hreg in Hr by apply Hg. split; [done|].
    destruct (factories fs !! factory_key f); [|by injection Hr as <-].
    by apply bind_Ok in Hr as (? & _ & ?).
  - intros (Hg & Hn & ->). destruct (proj2 Hgood Hg) as [[] Hok]. exists tt. split; [done|].
    rewrite Hreg by apply Hg. by rewrite Hn.
Qed.
Lemma add_factory_returns m fs f : (m, f) ∈ all_factories -> returns (add_factory modules slots m fs f).
Proof.
  intros (r & Hr & Hf)%elem_of_items. unfold add_factory. apply returns_bind.
  { unfold validate_factory_slot. cbv zeta. destruct (trim_is_empty _), (slots !! factory_capability f); repeat case_bool_decide; done. }
  intros _ _. assert (Hown : returns (first_factory_owner modules (factory_capability f) (factory_identity f))).
  { unfold first_factory_owner.
    destruct (find _ (map_iter modules)) as [x|] eqn:E; [done|]. exfalso.
    assert (Hin : (m, r) ∈ map_iter modules) by (by apply elem_of_map_iter).
    apply list_elem_of_In in Hin. pose proof (find_none _ _ E (m, r) Hin) as Hn. cbn in Hn.
    unfold contributes_factory in Hn. apply not_true_iff_false in Hn. apply Hn, existsb_exists.
    exists f. split; [by apply list_elem_of_In|]. by rewrite !bool_decide_true. }
  destruct (register_factory _ _ _ _) as [fs' [|e| |]]; try done; apply returns_bind; done.
Qed.
Lemma recorded_factories l k v :
  NoDup (factory_key <$> l) ->
  factories (foldl record_factory FactoryRegistry_new l) !! k = Some v <->
  exists a, a ∈ l /\ factory_key a = k /\ v = contributed_factory a.2.
Proof.
  intros Hnd. assert (Heq : forall fs, factories (foldl record_factory fs l) =
    foldl (fun m a => <[factory_key a := contributed_factory a.2]> m) (factories fs) l).
  { clear Hnd. induction l as [|a l IH]; intros fs; [done|]. cbn [foldl]. by rewrite IH. }
  rewrite Heq, foldl_insert_lookup; [|done|intros; apply lookup_empty].
  cbn. rewrite lookup_empty. naive_solver.
Qed.
(** Every declarative slot is constructed by one factory. *)
Definition factories_complete : Prop :=
  forall d, contributes (Declarative d) ->
    exists f, f ∈ all_factories /\ factory_key f = (declared_id d, declared_identity d).
Lemma check_slot_factories fs :
  NoDup (factory_key <$> all_factories) -> fs = foldl record_factory FactoryRegistry_new all_factories ->
  is_Ok (foldM (fun _ x => check_slot_factory fs x) (map_iter slots) tt) <-> factories_complete.
Proof.
  intros Hnd ->. rewrite (foldM_each (check_slot_factory _)). unfold factories_complete. split.
  - intros Hall d [m Hin]. specialize (Hall (declared_id d, slot_of m (Declarative d))).
    destruct Hall as [[] Hok]; [apply elem_of_map_iter, Hslots; by exists m, (Declarative d)|].
    unfold check_slot_factory, contains_factory in Hok. cbn [fst snd] in Hok.
    destruct (bool_decide (is_Some (factories _ !! _))) eqn:E; [|done].
    apply bool_decide_eq_true in E as [v (a & Ha & Hk & _)%recorded_factories]; [|done]. by exists a.
  - intros Hall [k s] Hin%elem_of_map_iter. exists tt. unfold check_slot_factory, contains_factory.
    cbn [fst snd]. case_bool_decide as Ho; [|done]. apply Hslots in Hin as (m & [d|d] & Hin & <- & ->); [|done].
    destruct (Hall d) as (f & Hf & Hk); [by exists m|]. rewrite bool_decide_true; [done|].
    exists (contributed_factory f.2). apply recorded_factories; [done|]. by exists f.
Qed.
Lemma factories_checked :
  match validate_factories modules slots with
  | Ok fs => ((forall f, f ∈ all_factories -> factory_good f) /\ NoDup (factory_key <$> all_factories) /\
       factories_complete) /\
      forall k v, factories fs !! k = Some v <->
        exists a, a ∈ all_factories /\ factory_key a = k /\ v = contributed_factory a.2
  | Err _ => ~ ((forall f, f ∈ all_factories -> factory_good f) /\
       NoDup (factory_key <$> all_factories) /\ factories_complete)
  | _ => False
  end.
Proof.
  unfold validate_factories. rewrite (items_loop (add_factory modules slots) factory_contributions).
  assert (Hret : returns (foldM (fun s p => add_factory modules slots p.1 s p.2) all_factories FactoryRegistry_new)).
  { apply foldM_returns_in. intros s [m f] Hin. by apply add_factory_returns. }
  assert (Hloop : forall fs, foldM (fun s p => add_factory modules slots p.1 s p.2) all_factories FactoryRegistry_new = Ok fs <->
    (forall f, f ∈ all_factories -> factory_good f) /\ NoDup (factory_key <$> all_factories) /\
    fs = foldl record_factory FactoryRegistry_new all_factories).
  { intros fs. rewrite (foldM_claims factory_good (fun s a => factories s !! factory_key a = None)
      (fun a b => factory_key a <> factory_key b) record_factory).
    - rewrite StronglySorted_distinct. split; [tauto|]. intros (? & ? & ?). by split_and!.
    - apply add_factory_Ok.
    - intros fs' x b Ha. cbn. by rewrite lookup_insert_None. }
  destruct (foldM _ all_factories FactoryRegistry_new) as [fs|e| |]; try done; cbn [mbind result_bind].
  - destruct (proj1 (Hloop fs) eq_refl) as (Hg & Hnd & Hfs).
    pose proof (check_slot_factories fs Hnd Hfs) as Hcomplete.
    assert (Hret2 : returns (foldM (fun _ x => check_slot_factory fs x) (map_iter slots) tt)).
    { apply foldM_returns_all. intros [] x. unfold check_slot_factory. by destruct (_ && _). }
    destruct (returned_cases _ _ Hret2 Hcomplete) as [([] & -> & Hc)|(e & -> & Hn)]; cbn [mbind result_bind]; [|tauto].
    split; [done|]. intros k v. subst fs. by apply recorded_factories.
  - intros (Hg & Hnd & _). by pose proof (proj2 (Hloop _) (conj Hg (conj Hnd eq_refl))).
Qed.

(** *** Plugins *)
Definition plugin_good (p : Id * PluginContribution) : Prop :=
  (forall d, d ∈ def_dependencies (published p) -> exists c, contributes c /\ contribution_id c = d) /\
  publishable (published p).
Definition plugin_key (p : Id * PluginContribution) : Id := plugin_id (contribution_plugin p.2).
Definition publication (p : Id * PluginContribution) : Id := def_id (published p).
Definition plugin_fresh (s : plugin_claims) (p : Id * PluginContribution) : Prop :=
  (plugin_key p ∉ plugin_owners s) /\ reactive_claims s !! publication p = None.
Definition record_plugin (s : plugin_claims) (p : Id * PluginContribution) : plugin_claims :=
  {| plugin_owners := {[plugin_key p]} ∪ plugin_owners s;
     reactive_claims := <[publication p := p.1]> (reactive_claims s) |}.
Lemma publishable_slot (d : CapabilityDefinition) :
  publishable d <-> exists s, slots !! (def_id d : Id) = Some s /\ slot_ownership s = ReactiveOwner /\
    slot_kind s = def_kind d /\ slot_identity s = replay_identity d.
Proof.
  unfold publishable, contributes. split.
  - intros (c & [m Hin] & Hk & Hkind & Hid). exists (slot_of m (Reactive c)). split_and!; try done.
    apply Hslots. by exists m, (Reactive c).
  - intros (s & (m & [c|c] & Hin & Hk & ->)%Hslots & Ho & Hkind & Hid); [done|].
    exists c. split_and!; try done. by exists m.
Qed.
Lemma plugin_dependencies_Ok (X : gset Id) :
  is_Ok (foldM (fun _ (d : Id) => if bool_decide (is_Some (slots !! d)) then Ok tt
     else Err (CapabilityDefinitionConflict d UnownedRequirement)) (set_iter X) tt) <->
  forall d, d ∈ X -> exists c, contributes c /\ contribution_id c = d.
Proof.
  rewrite (foldM_each (fun d => if bool_decide (is_Some (slots !! d)) then Ok tt
    else Err (CapabilityDefinitionConflict d UnownedRequirement))).
  setoid_rewrite elem_of_set_iter. setoid_rewrite <- slot_exists. split.
  - intros Hall d Hd. destruct (Hall d Hd) as [[] Hok]. by case_bool_decide.
  - intros Hall d Hd. exists tt. rewrite bool_decide_true; [done|by apply Hall].
Qed.
Lemma claim_reactive_slot_Ok m p d s claims claims' :
  claim_reactive_slot m p d s claims = Ok claims' <->
  claims !! (def_id d : Id) = None /\ slot_kind s = def_kind d /\ slot_identity s = replay_identity d /\
  claims' = <[(def_id d : Id) := m]> claims.
Proof.
  unfold claim_reactive_slot. destruct (claims !! _); [naive_solver|]. repeat case_bool_decide; naive_solver congruence.
Qed.
Lemma check_plugin_Ok s p s' :
  check_plugin modules slots p.1 s p.2 = Ok s' <->
  plugin_good p /\ plugin_fresh s p /\ s' = record_plugin s p.
Proof.
  unfold check_plugin, plugin_good, plugin_fresh, record_plugin, plugin_key, publication, published. cbv zeta.
  set (d := plugin_capability (contribution_plugin p.2)).
  pose proof (plugin_dependencies_Ok (def_dependencies d)) as Hdeps. rewrite publishable_slot.
  case_bool_decide as Hown.
  { split; [by intros (? & _ & ?)%bind_Ok|]. by intros (_ & [? _] & _). }
  rewrite bind_Ok. split.
  - intros ([] & Hd & Hs). assert (Hdok := proj1 Hdeps ltac:(by exists tt)).
    destruct (slots !! (def_id d : Id)) as [sl|] eqn:Esl; [|done].
    case_bool_decide as Ho; [done|]. apply bind_Ok in Hs as (claims & Hc & [= <-]).
    apply claim_reactive_slot_Ok in Hc as (Hn & Hk & Hi & ->). split_and!; try done.
    exists sl. split_and!; try done. by destruct (slot_ownership sl).
  - intros ((Hdok & sl & Esl & Ho & Hk & Hi) & (_ & Hn) & ->). destruct (proj2 Hdeps Hdok) as [[] Hd].
    exists tt. split; [exact Hd|]. rewrite Esl, bool_decide_false by (by rewrite Ho).
    rewrite (proj2 (claim_reactive_slot_Ok p.1 (plugin_id (contribution_plugin p.2)) d sl
      (reactive_claims s) _) (conj Hn (conj Hk (conj Hi eq_refl)))). done.
Qed.
Lemma check_plugin_returns m s p : (m, p) ∈ all_plugins -> returns (check_plugin modules slots m s p).
Proof.
  intros (r & Hr & Hp)%elem_of_items. unfold check_plugin. cbv zeta.
  assert (Hown : returns (first_plugin_owner modules (plugin_id (contribution_plugin p)))).
  { unfold first_plugin_owner. destruct (find _ (map_iter modules)) as [x|] eqn:E; [done|]. exfalso.
    assert (Hin : (m, r) ∈ map_iter modules) by (by apply elem_of_map_iter).
    apply list_elem_of_In in Hin. pose proof (find_none _ _ E (m, r) Hin) as Hn. cbn in Hn.
    unfold contributes_plugin in Hn. apply not_true_iff_false in Hn. apply Hn, existsb_exists.
    exists p. split; [by apply list_elem_of_In|]. by rewrite bool_decide_true. }
  case_bool_decide; [by apply returns_bind|]. apply returns_then.
  { apply foldM_returns_all. intros _ d. by case_bool_decide. }
  destruct (slots !! _) as [sl|]; [|done]. case_bool_decide; [done|]. apply returns_bind; [|done].
  unfold claim_reactive_slot. destruct (reactive_claims s !! _); [done|]. by repeat case_bool_decide.
Qed.
(** Every reactive slot is published by a plugin. *)
Definition plugins_complete : Prop :=
  forall c, contributes (Reactive c) -> exists p, p ∈ all_plugins /\ publication p = reactive_capability_id c.
Definition plugins_start : plugin_claims := {| plugin_owners := ∅; reactive_claims := ∅ |}.
Lemma recorded_claims l k :
  is_Some (reactive_claims (foldl record_plugin plugins_start l) !! k) <-> k ∈ (publication <$> l).
Proof.
  assert (Hg : forall s, is_Some (reactive_claims (foldl record_plugin s l) !! k) <->
    is_Some (reactive_claims s !! k) \/ k ∈ (publication <$> l)).
  { induction l as [|p l IH]; intros s; cbn [foldl]; [set_solver|].
    rewrite IH, fmap_cons, elem_of_cons. cbn [reactive_claims record_plugin]. rewrite lookup_insert_is_Some.
    destruct (decide (publication p = k)); naive_solver. }
  rewrite Hg. cbn. rewrite lookup_empty. split; [by intros [[? ?]|?]|by right].
Qed.
Lemma check_slot_plugins :
  is_Ok (foldM (fun _ x => check_slot_plugin (reactive_claims (foldl record_plugin plugins_start all_plugins)) x)
    (map_iter slots) tt) <-> plugins_complete.
Proof.
  rewrite (foldM_each (check_slot_plugin _)). unfold plugins_complete. split.
  - intros Hall c [m Hin]. specialize (Hall (reactive_capability_id c, slot_of m (Reactive c))).
    destruct Hall as [[] Hok]; [apply elem_of_map_iter, Hslots; by exists m, (Reactive c)|].
    unfold check_slot_plugin in Hok. cbn [fst snd] in Hok.
    destruct (bool_decide (is_Some _)) eqn:E; [|done].
    apply bool_decide_eq_true, recorded_claims, list_elem_of_fmap in E as (p & -> & Hp). by exists p.
  - intros Hall [k s] Hin%elem_of_map_iter. exists tt. unfold check_slot_plugin. cbn [fst snd].
    case_bool_decide as Ho; [|done]. apply Hslots in Hin as (m & [c|c] & Hin & <- & ->); [done|].
    destruct (Hall c) as (p & Hp & Hk); [by exists m|]. rewrite bool_decide_true; [done|].
    apply recorded_claims. cbn. rewrite <- Hk. by apply list_elem_of_fmap_2.
Qed.
Lemma plugins_checked :
  (is_Ok (validate_plugins modules slots) <->
   (forall p, p ∈ all_plugins -> plugin_good p) /\ NoDup (plugin_key <$> all_plugins) /\
   NoDup (publication <$> all_plugins) /\ plugins_complete) /\
  returns (validate_plugins modules slots).
Proof.
  unfold validate_plugins. rewrite (items_loop (check_plugin modules slots) plugins).
  assert (Hloop : forall s, foldM (fun s p => check_plugin modules slots p.1 s p.2) all_plugins plugins_start = Ok s <->
    (forall p, p ∈ all_plugins -> plugin_good p) /\ NoDup (plugin_key <$> all_plugins) /\
    NoDup (publication <$> all_plugins) /\ s = foldl record_plugin plugins_start all_plugins).
  { intros s. rewrite (foldM_claims plugin_good plugin_fresh
      (fun a b => plugin_key a <> plugin_key b /\ publication a <> publication b) record_plugin).
    - rewrite StronglySorted_and, !StronglySorted_distinct.
      split; [tauto|]. intros (? & ? & ? & ?). by split_and!.
    - apply check_plugin_Ok.
    - intros s' x b Hx. unfold plugin_fresh. cbn [plugin_owners reactive_claims record_plugin].
      rewrite lookup_insert_None. set_solver. }
  change {| plugin_owners := ∅; reactive_claims := ∅ |} with plugins_start.
  split; [|apply returns_bind].
  - rewrite is_Ok_bind. setoid_rewrite Hloop. rewrite <- check_slot_plugins. split.
    + intros (s & (? & ? & ? & ->) & ?). done.
    + intros (? & ? & ? & ?). eexists. by split_and!.
  - apply foldM_returns_in. intros s [m p] Hin. by apply check_plugin_returns.
  - intros s _. apply foldM_returns_all. intros [] x. unfold check_slot_plugin. by destruct (_ && _).
Qed.
End slots.

(** *** Configuration *)
Definition config_agrees (a b : Id * ConfigRequirement) : Prop :=
  config_key a.2 = config_key b.2 -> config_required a.2 = config_required b.2.
Definition config_fresh (noted : gmap Id (Id * bool)) (a : Id * ConfigRequirement) : Prop :=
  forall x, noted !! config_key a.2 = Some x -> x.2 = config_required a.2.
Lemma note_config_Ok noted a noted' :
  note_config a.1 noted a.2 = Ok noted' <->
  True /\ config_fresh noted a /\ noted' = <[config_key a.2 := (a.1, config_required a.2)]> noted.
Proof.
  unfold note_config, config_fresh. cbv zeta. destruct (noted !! config_key a.2) as [[m b]|].
  - destruct b, (config_required a.2); cbn; naive_solver.
  - naive_solver.
Qed.
Lemma config_checked :
  (is_Ok (validate_configuration modules) <->
   forall a b, a ∈ all_config -> b ∈ all_config -> config_agrees a b) /\
  returns (validate_configuration modules).
Proof.
  unfold validate_configuration.
  rewrite (items_loop note_config (fun r => config_requirements (definition r))).
  assert (Hss : forall l : list (Id * ConfigRequirement), StronglySorted config_agrees l <->
    forall a b, a ∈ l -> b ∈ l -> config_agrees a b).
  { induction l as [|x l IH]; [split; [by intros _ ? ? ?%elem_of_nil|constructor]|]. split.
    - intros [Hs Hall]%StronglySorted_inv a b. rewrite Forall_forall in Hall.
      intros [->|Ha]%elem_of_cons [->|Hb]%elem_of_cons; [done|by apply Hall| |by apply IH].
      intros Heq. symmetry. by apply Hall.
    - intros Hall. constructor; [apply IH; intros; apply Hall; by right|].
      apply Forall_forall. intros y Hy. apply Hall; [left|by right]. }
  assert (Hloop : forall n, foldM (fun s p => note_config p.1 s p.2) all_config ∅ = Ok n <->
    (forall a b, a ∈ all_config -> b ∈ all_config -> config_agrees a b) /\
    n = foldl (fun noted a => <[config_key a.2 := (a.1, config_required a.2)]> noted) ∅ all_config).
  { intros n. rewrite (foldM_claims (fun _ => True) config_fresh config_agrees
      (fun noted a => <[config_key a.2 := (a.1, config_required a.2)]> noted)).
    - rewrite Hss. split; [tauto|]. intros [? ?]. by split_and!.
    - apply note_config_Ok.
    - intros noted a b Ha. unfold config_fresh, config_agrees in *.
      destruct (decide (config_key a.2 = config_key b.2)) as [Heq|Hne].
      + rewrite Heq, lookup_insert_eq in *. split; [|naive_solver].
        intros Hb. specialize (Hb _ eq_refl). cbn in Hb. split; [|done]. intros x Hx.
        rewrite <- Hb. by apply Ha.
      + rewrite lookup_insert_ne by done. naive_solver. }
  split.
  - rewrite is_Ok_then. split.
    + intros [[n Hn%Hloop] _]. apply Hn.
    + intros Hall. split; [|apply is_Ok_ret]. eexists. by apply Hloop.
  - apply returns_then; [|done]. apply foldM_returns_all. intros n a. unfold note_config. cbv zeta.
    destruct (n !! _) as [[]|]; [by destruct (negb _)|done].
Qed.

(** *** The merged definition *)
Definition tasks_of (m : Id) : list TaskDefinition :=
  match modules !! m with Some r => module_tasks (definition r) | None => [] end.
Definition merged (order : list Id) (slots : Slots) : RunDefinition :=
  {| run_tasks := order ≫= tasks_of;
     run_capabilities := omap (fun c => declared_capabilities modules !! c) (map_keys slots) |}.
Lemma merge_definition_spec `{StoreFormat} order slots :
  (forall x, x ∈ order -> is_Some (modules !! x)) ->
  merge_definition modules order slots =
  (_ ← map_err InvalidMergedDefinition (validate (merged order slots)); Ok (merged order slots)).
Proof.
  intros Hreg. unfold merge_definition.
  assert (Htasks : forall l d, (forall x, x ∈ l -> is_Some (modules !! x)) ->
    foldM (add_module_tasks modules) l d =
    Ok {| run_tasks := run_tasks d ++ (l ≫= tasks_of); run_capabilities := run_capabilities d |}).
  { assert (Hadd : forall ts d, foldl add_task d ts =
      {| run_tasks := run_tasks d ++ ts; run_capabilities := run_capabilities d |}).
    { induction ts as [|t ts IH]; intros d; cbn [foldl]; [rewrite app_nil_r; by destruct d|].
      rewrite IH. cbn. by rewrite <- (assoc_L (++)). }
    induction l as [|x l IH]; intros d Hl; [cbn; rewrite app_nil_r; by destruct d|].
    destruct (Hl x) as [r Hr]; [left|].
    assert (Hx : add_module_tasks modules d x = Ok (foldl add_task d (module_tasks (definition r))))
      by (unfold add_module_tasks; by rewrite Hr).
    assert (Hts : tasks_of x = module_tasks (definition r)) by (unfold tasks_of; by rewrite Hr).
    cbn [foldM]. rewrite Hx. cbn [mbind result_bind]. rewrite IH by (intros y Hy; apply Hl; by right).
    rewrite Hadd, bind_cons, Hts. cbn [run_tasks run_capabilities]. by rewrite <- (assoc_L (++)). }
  rewrite Htasks by done. cbn [mbind result_bind run_tasks run_capabilities].
  assert (Hcaps : forall l d, foldl (add_slot_capability (declared_capabilities modules)) d l =
    {| run_tasks := run_tasks d;
       run_capabilities := run_capabilities d ++ omap (fun c => declared_capabilities modules !! c) l |}).
  { induction l as [|c l IH]; intros d; cbn [foldl]; [cbn; rewrite app_nil_r; by destruct d|].
    rewrite IH. cbn [omap list_omap]. unfold add_slot_capability.
    destruct (declared_capabilities modules !! c); [|done]. cbn. by rewrite <- (assoc_L (++)). }
  rewrite Hcaps. cbn [run_tasks run_capabilities RunDefinition_new app]. done.
Qed.

(** *** The composition as a whole *)
Definition slot_table (slots : Slots) : Prop :=
  forall k s, slots !! k = Some s <->
    exists m c, (m, c) ∈ all_slots /\ contribution_id c = k /\ s = slot_of m c.
Definition activation_order (order : list Id) : Prop :=
  least_first modules order /\ forall x, x ∈ order <-> is_Some (modules !! x).
Record composition_ok : Prop := {
  ok_module_dependencies : modules_closed modules;
  ok_module_order : acyclic (module_needs modules);
  ok_slot_owners : NoDup ((fun x => contribution_id x.2) <$> all_slots);
  ok_task_owners : NoDup ((fun x => td_id x.2) <$> all_tasks);
  ok_requirements : forall q, required q -> owned (required_capability_id q) (required_identity q);
  ok_factories : (forall f, f ∈ all_factories -> factory_good f) /\
    NoDup (factory_key <$> all_factories) /\ factories_complete;
  ok_plugins : (forall p, p ∈ all_plugins -> plugin_good p) /\ NoDup (plugin_key <$> all_plugins) /\
    NoDup (publication <$> all_plugins) /\ plugins_complete;
  ok_config : forall a b, a ∈ all_config -> b ∈ all_config -> config_agrees a b;
  ok_definition : forall order slots, activation_order order -> slot_table slots ->
    definition_ok (merged order slots)
}.
Record plan_holds (p : CompositionPlan) : Prop := {
  ph_modules : plan_modules p = modules;
  ph_order : activation_order (plan_order p);
  ph_slots : slot_table (plan_slots p);
  ph_definition : plan_definition p = merged (plan_order p) (plan_slots p);
  ph_validates : definition_ok (plan_definition p);
  ph_factories k v : factories (plan_factories p) !! k = Some v <->
    exists a, a ∈ all_factories /\ factory_key a = k /\ v = contributed_factory a.2
}.
Lemma slot_table_unique slots slots' : slot_table slots -> slot_table slots' -> slots = slots'.
Proof. intros H1 H2. apply map_eq. intros k. apply option_eq. intros s. by rewrite (H1 k s), (H2 k s). Qed.
Lemma activation_order_unique order order' :
  activation_order order -> activation_order order' -> order = order'.
Proof. intros [L1 E1] [L2 E2]. apply (least_first_unique modules); [done|done|]. intros x. by rewrite (E1 x), (E2 x). Qed.
Lemma order_cases :
  modules_closed modules ->
  (exists order, deterministic_order modules = Ok order /\ activation_order order /\
     acyclic (module_needs modules)) \/
  (exists p, deterministic_order modules = Err (ModuleDependencyCycle p) /\ is_cycle (module_needs modules) p).
Proof.
  intros Hcl. pose proof (deterministic_order_cases modules Hcl) as Hc.
  destruct (deterministic_order modules) as [order|e| |]; try done.
  - left. exists order. destruct Hc as [Hl Hel]. split_and!; [done|by split|].
    apply grounded_acyclic. apply (grounded_all_sources _ (fun x => is_Some (modules !! x))).
    + intros x Hx%Hel. eapply dependencies_first_grounded; [by apply least_first_dependencies|done].
    + intros x y (r & ? & _). by exists r.
    + intros x. destruct (modules !! x); [by left; eexists|right; by intros [? ?]].
  - right. by destruct Hc as (p & -> & ?); exists p.
Qed.
Lemma validate_merged `{StoreFormat} order slots :
  returns (validate (merged order slots)) /\
  (is_Ok (validate (merged order slots)) <-> definition_ok (merged order slots)).
Proof.
  unfold validate. destruct (validated_cases (merged order slots)) as [(v & -> & Hok & _)|(e & -> & Hn)]; cbn.
  - split; [done|]. split; [done|by eexists].
  - split; [done|]. split; [by intros [? ?]|done].
Qed.
(** *** Every check returns *)
Lemma validate_dependencies_returns : returns (validate_dependencies modules).
Proof.
  apply foldM_returns_all. intros [] x. apply foldM_returns_all. intros [] d.
  unfold check_module_dependency. by case_bool_decide.
Qed.
Lemma validate_capability_slots_returns : returns (validate_capability_slots modules).
Proof.
  apply foldM_returns_all. intros s x. apply foldM_returns_all. intros s' c.
  unfold claim_slot. by destruct (s' !! _).
Qed.
Lemma validate_task_contributions_returns : returns (validate_task_contributions modules).
Proof.
  apply returns_then; [|done]. apply foldM_returns_all. intros s x. apply foldM_returns_all.
  intros s' t. unfold claim_task. by destruct (s' !! _).
Qed.
Lemma validate_requirements_returns slots : returns (validate_requirements modules slots).
Proof.
  assert (Hone : forall q, returns (validate_requirement slots q)).
  { intros q. unfold validate_requirement. cbv zeta. destruct (slots !! _); [|done]. by repeat case_bool_decide. }
  apply foldM_returns_all. intros [] r. apply returns_then; apply foldM_returns_all; intros [] x;
    apply foldM_returns_all; intros [] q; apply Hone.
Qed.

#[local] Ltac rejected := right; eexists; split; [done|]; intros [].
#[local] Ltac checked Hret Hiff H :=
  destruct (returned_cases _ _ Hret Hiff) as [(? & -> & H)|(? & -> & ?)];
    cbn [mbind result_bind map_err]; [|by rejected].
Lemma build_cases `{StoreFormat} :
  (exists p, build {| builder_modules := modules |} = Ok p /\ composition_ok /\ plan_holds p) \/
  (exists e, build {| builder_modules := modules |} = Err e /\ ~ composition_ok).
Proof.
  unfold build. cbv zeta. cbn [builder_modules].
  checked validate_dependencies_returns dependencies_checked Hdeps.
  destruct (order_cases Hdeps) as [(order & -> & Horder & Hac)|(p & -> & Hp)]; cbn [mbind result_bind];
    [|rejected; by eapply acyclic_no_cycle].
  pose proof validate_capability_slots_returns as Hret.
  destruct (validate_capability_slots modules) as [slots|e| |] eqn:Eslots; try done; cbn [mbind result_bind];
    [|rejected; by destruct slots_accepted as [? ?]; [|congruence]].
  apply slots_checked in Eslots as [Hnd Htable].
  checked validate_task_contributions_returns tasks_checked_unique Htasks.
  checked (validate_requirements_returns slots) (requirements_checked slots Htable) Hreq.
  pose proof (factories_checked slots Htable) as Hfac.
  destruct (validate_factories modules slots) as [fs|e| |]; try done; cbn [mbind result_bind]; [|by rejected].
  destruct Hfac as [Hfac Hfs], (plugins_checked slots Htable) as [Hplug Hplug'].
  checked Hplug' Hplug Hplugins. destruct config_checked as [Hconf Hconf']. checked Hconf' Hconf Hconfig.
  rewrite merge_definition_spec by (intros y Hy; by apply Horder).
  destruct (validate_merged order slots) as [Hdef' Hdef].
  destruct (returned_cases _ _ Hdef' Hdef) as [([] & -> & Hok)|(e & -> & Hn)]; cbn [mbind result_bind map_err].
  - left. eexists. split; [done|]. split; [|by split]. split; try done.
    intros order' slots' Ho Hs. by rewrite (activation_order_unique order' order), (slot_table_unique slots' slots).
  - right. eexists. split; [done|]. intros Hok. by apply Hn, (ok_definition Hok).
Qed.
End contributions.
