(* ===== verification/CompositionPlan.v ===== *)
(** * What a composition plan guarantees

    The theorems about [build]: it is exact, its order is the least
    topological one, and a plan can be activated with its own factories. *)
From S2P Require Export CompositionFacts.
#[local] Open Scope string_scope.
#[local] Open Scope nat_scope.
#[local] Open Scope list_scope.

(** ** The capabilities of the merged definition *)
Definition declarative (c : CapabilityContribution) : option CapabilityDeclaration :=
  match c with Declarative d => Some d | Reactive _ => None end.
Section merged.
Context (modules : Modules).
#[local] Abbreviation all_slots := (items modules (fun r => module_capabilities (definition r))).

Lemma items_values {B} (h : ModuleRegistration -> list B) :
  snd <$> items modules h = map_values modules ≫= h.
Proof.
  unfold items, map_values. induction (map_iter modules) as [|[m r] l IH]; [done|].
  rewrite bind_cons, fmap_cons, bind_cons, fmap_app. cbn [fst snd]. rewrite <- IH. f_equal.
  rewrite <- list_fmap_compose. by rewrite list_fmap_id.
Qed.
Lemma declared_capabilities_lookup k d :
  NoDup ((fun x => contribution_id x.2) <$> all_slots) ->
  declared_capabilities modules !! k = Some d <->
  contributes modules (Declarative d) /\ declared_id d = k.
Proof.
  change (fun x => contribution_id x.2) with (contribution_id ∘ snd (A := Id)).
  rewrite (list_fmap_compose snd contribution_id), items_values. intros Hnd.
  assert (Hin : forall c, contributes modules c <->
    c ∈ (map_values modules ≫= fun r => module_capabilities (definition r))).
  { intros c. rewrite <- items_values, list_elem_of_fmap. unfold contributes. split.
    - intros [m Hm]. by exists (m, c).
    - intros ([m c'] & -> & Hm). by exists m. }
  rewrite Hin. unfold declared_capabilities. clear Hin. revert Hnd.
  generalize (map_values modules ≫= fun r => module_capabilities (definition r)) as l. intros l Hnd.
  assert (Hfold : forall m : gmap Id CapabilityDeclaration,
    foldl (fun ds c => match c with Declarative d => <[declared_id d := d]> ds | Reactive _ => ds end) m l =
    foldl (fun ds d => <[declared_id d := id d]> ds) m (omap declarative l)).
  { clear Hnd. induction l as [|[c|c] l IH]; intros m; [done|..]; cbn; apply IH. }
  assert (Hsub : NoDup (declared_id <$> omap declarative l)).
  { clear Hfold. induction l as [|c l IH]; [constructor|]. cbn in Hnd. apply NoDup_cons in Hnd as [Hc Hnd].
    destruct c as [c|c]; cbn; [|by apply IH]. constructor; [|by apply IH].
    intros (x & Hx & (y & Hy & Heq)%list_elem_of_omap)%list_elem_of_fmap. apply Hc.
    apply list_elem_of_fmap. exists y. split; [|done]. destruct y; [|done]. injection Heq as ->. done. }
  rewrite Hfold, foldl_insert_lookup by (try done; intros; apply lookup_empty). rewrite lookup_empty.
  setoid_rewrite list_elem_of_omap. unfold id. split.
  - intros [?|(a & ([c|c] & Hc & [= <-]) & <- & ->)]; [done|]. done.
  - intros [Hd <-]. right. exists d. split_and!; [|done|done]. by exists (Declarative d).
Qed.
Lemma merged_capabilities order slots d :
  NoDup ((fun x => contribution_id x.2) <$> all_slots) -> slot_table modules slots ->
  d ∈ run_capabilities (merged modules order slots) <-> contributes modules (Declarative d).
Proof.
  intros Hnd Htable. cbn. rewrite list_elem_of_omap. split.
  - by intros (k & _ & [? _]%declared_capabilities_lookup).
  - intros Hd. exists (declared_id d). split; [|by apply declared_capabilities_lookup].
    apply elem_of_map_keys. destruct Hd as [m Hd]. exists (slot_of m (Declarative d)).
    apply Htable. by exists m, (Declarative d).
Qed.
Lemma merged_requirements order slots q :
  NoDup ((fun x => contribution_id x.2) <$> all_slots) -> slot_table modules slots ->
  q ∈ run_requirements (merged modules order slots) -> required modules q.
Proof.
  intros Hnd Htable. unfold run_requirements. rewrite elem_of_app, !list_elem_of_bind.
  intros [(t & Hq & Ht)|(d & Hq & Hd)].
  - cbn in Ht. apply list_elem_of_bind in Ht as (m & Ht & _). unfold tasks_of in Ht.
    destruct (modules !! m) as [r|] eqn:Er; [|by apply elem_of_nil in Ht]. exists m, r. split; [done|].
    left. by exists t.
  - apply merged_capabilities in Hd as [m Hd]; [|done..]. apply elem_of_items in Hd as (r & Hr & Hd).
    exists m, r. split; [done|]. right. by exists (Declarative d).
Qed.
End merged.

Section plan.
Context `{StoreFormat}.

(** C37: planning is exact.  It always returns, without a panic in any of its
    scans, and it succeeds exactly when the modules fit together: their
    dependencies are registered and acyclic, every task, slot, plugin and
    publication has one owner, every requirement, factory and plugin matches
    the slot it names, every slot has its factory or its plugin, modules agree
    on the configuration they share, and the merged definition is well
    formed.  The plan then holds the modules, their activation order, the slot
    table, the merged definition and exactly the contributed factories. *)
Theorem build_exact modules :
  returns (build {| builder_modules := modules |}) /\
  (is_Ok (build {| builder_modules := modules |}) <-> composition_ok modules) /\
  (forall p, build {| builder_modules := modules |} = Ok p -> plan_holds modules p /\
     forall d, d ∈ run_capabilities (plan_definition p) <-> contributes modules (Declarative d)).
Proof.
  destruct (build_cases modules) as [(p & -> & Hok & Hp)|(e & -> & Hn)].
  - split; [done|]. split; [by split; [|eexists]|]. intros p' [= <-]. split; [done|]. intros d.
    rewrite (ph_definition _ _ Hp). apply merged_capabilities; [apply Hok|apply Hp].
  - split_and!; [done| |done]. split; [by intros [? ?]|done].
Qed.

(** C38: the activation order is the least topological order.  When every
    dependency is registered the computation returns: either with the one
    listing of all modules in which each module comes after its dependencies
    and is the smallest of those that could come next, or with a closed walk of
    real dependencies, and which of the two depends on acyclicity alone. *)
Theorem deterministic_order_exact modules :
  modules_closed modules ->
  (forall order, deterministic_order modules = Ok order <->
     acyclic (module_needs modules) /\ activation_order modules order) /\
  (forall e, deterministic_order modules = Err e ->
     exists p, e = ModuleDependencyCycle p /\ is_cycle (module_needs modules) p) /\
  returns (deterministic_order modules).
Proof.
  intros Hcl. destruct (order_cases modules Hcl) as [(order & Heq & Ho & Hac)|(p & Heq & Hp)]; rewrite Heq.
  - split_and!; [|done|done]. intros order'. split; [by intros [= <-]|].
    intros [_ Ho']. by rewrite (activation_order_unique modules order order').
  - split_and!; [|intros e [= <-]; by exists p|done].
    intros order. split; [done|]. intros [Hac _]. by destruct (acyclic_no_cycle _ _ Hac Hp).
Qed.

(** C39: a plan can be activated with its own factories.  The merged definition
    of every accepted composition validates, materialises no capability that a
    module did not declare, and finds a factory for each of its capabilities
    in the merged registry. *)
Theorem plan_constructible modules p :
  build {| builder_modules := modules |} = Ok p ->
  exists v, validated (plan_definition p) = Ok v /\
    validate_registry (plan_factories p) v = Ok tt /\
    forall k c, validated_capabilities v !! k = Some c -> contributes modules (Declarative c).
Proof.
  intros Hb. destruct (build_cases modules) as [(p' & Hb' & Hok & Hp)|(e & He & _)]; [|congruence].
  rewrite Hb in Hb'. injection Hb' as <-.
  destruct (validated_cases (plan_definition p)) as [(v & Hv & _ & Hh)|(e & _ & Hn)];
    [|by destruct Hn; apply Hp].
  exists v. split; [done|]. pose proof (ok_slot_owners _ Hok) as Hnd. pose proof (ph_slots _ _ Hp) as Htable.
  assert (Hcaps : forall k c, validated_capabilities v !! k = Some c -> contributes modules (Declarative c)).
  { intros k c Hc. apply Hh in Hc. rewrite (ph_definition _ _ Hp) in Hc.
    destruct Hc as [[Hc _]|(Hn & q & Hq & <- & _)]; [by eapply merged_capabilities|]. exfalso.
    apply merged_requirements in Hq; [|done..]. destruct (ok_requirements _ Hok q Hq) as (d & Hd & Hid & _).
    apply Hn. rewrite <- Hid. apply list_elem_of_fmap_2. by apply merged_capabilities. }
  split; [|done]. apply is_Ok_unit. unfold validate_registry.
  rewrite (foldM_each (validate_factory (plan_factories p))).
  intros c [k Hc]%elem_of_map_values. apply Hcaps in Hc. exists tt. unfold validate_factory, contains_factory.
  rewrite bool_decide_true; [done|]. destruct (ok_factories _ Hok) as (_ & _ & Hcomplete).
  destruct (Hcomplete c Hc) as (f & Hf & Hk). exists (contributed_factory f.2).
  apply (ph_factories _ _ Hp). by exists f.
Qed.
End plan.

(** ** Concrete compositions *)
#[local] Existing Instance sample_format.
(** A module that owns a store, one that publishes a feed over it with a
    plugin, and one whose task uses the store. *)
Definition store_module : ModuleRegistration :=
  with_factory (ModuleRegistration_new (requiring_config (with_declarative_capability
    (ModuleDefinition_new "store") (CapabilityDeclaration_new "db" "database" "db-v1")) "url"))
    "db" "db-v1" 1%N.
Definition feed_plugin : PluginRuntime :=
  {| plugin_object := 1%N;
     plugin_definition := {| plugin_id := "feeder";
       plugin_capability := add_dependency (with_replay_identity
         (CapabilityDefinition_new "feed" "stream") "feed-v1") "db";
       plugin_factory := 1%N; plugin_validator := 1%N |} |}.
Definition feed_module : ModuleRegistration :=
  with_plugin (ModuleRegistration_new (module_depends_on (with_reactive_capability
    (ModuleDefinition_new "feed") "feed" "stream" "feed-v1") "store")) feed_plugin.
Definition app_module : ModuleRegistration :=
  ModuleRegistration_new (module_with_task (module_depends_on (module_depends_on
    (ModuleDefinition_new "app") "store") "feed")
    (require_capability (TaskDefinition_new "load" "Load") (requirement "db" "db-v1"))).
Definition sample_modules : Modules :=
  match
    (b ← register_module CompositionBuilder_new app_module;
     b ← register_module b store_module;
     register_module b feed_module)
  with Ok b => builder_modules b | _ => ∅ end.
Definition sample_plan : CompositionPlan :=
  match build {| builder_modules := sample_modules |} with
  | Ok p => p
  | _ => {| plan_modules := ∅; plan_order := []; plan_definition := RunDefinition_new;
            plan_factories := FactoryRegistry_new; plan_slots := ∅ |}
  end.
Lemma sample_builds : build {| builder_modules := sample_modules |} = Ok sample_plan.
Proof. vm_compute. reflexivity. Qed.
Example sample_order : plan_order sample_plan = ["store"; "feed"; "app"].
Proof. vm_compute. reflexivity. Qed.
Lemma build_exact_witness :
  composition_ok sample_modules /\ plan_holds sample_modules sample_plan.
Proof.
  destruct (build_exact sample_modules) as (_ & Hiff & Hp). split.
  - apply Hiff. exists sample_plan. exact sample_builds.
  - exact (proj1 (Hp _ sample_builds)).
Defined.
Lemma sample_closed : modules_closed sample_modules.
Proof. apply dependencies_checked. exists tt. vm_compute. reflexivity. Qed.
Lemma deterministic_order_exact_witness :
  acyclic (module_needs sample_modules) /\ activation_order sample_modules ["store"; "feed"; "app"].
Proof.
  apply (proj1 (deterministic_order_exact sample_modules sample_closed)). vm_compute. reflexivity.
Defined.
Lemma plan_constructible_witness :
  exists v, validated (plan_definition sample_plan) = Ok v /\
    validate_registry (plan_factories sample_plan) v = Ok tt /\
    forall k c, validated_capabilities v !! k = Some c -> contributes sample_modules (Declarative c).
Proof. exact (plan_constructible sample_modules sample_plan sample_builds). Defined.
