(* ===== verification/Loader.v ===== *)
(** * The module loader: [crates/runtime-loader/src/reference.rs], [error.rs],
    [catalog.rs], [resolve.rs]

    Exact module references with their textual form, the catalog of entries,
    and the resolution of root references: breadth-first closure, cycle
    classification, construction.  A registration factory is a closure of the
    host; it is a name, and what a call returns is given by an oracle that sees
    every call made before. *)
From S2P Require Export Composition.
#[local] Open Scope string_scope.
#[local] Open Scope nat_scope.
#[local] Open Scope list_scope.

(** ** Errors *)
Definition ModuleVersion : Set := string.
(** [ModuleReference], a struct with derived (lexicographic) order. *)
Abbreviation ModuleReference := (Id * string)%type.
Definition reference_id (r : ModuleReference) : Id := r.1.
Definition reference_version (r : ModuleReference) : ModuleVersion := r.2.
Definition ModuleFactoryError : Set := string.
Inductive InvalidReferenceReason := BlankModuleId | BlankVersion | ReservedVersionDelimiter.
Inductive IncompatibleEntryReason :=
  | ProducedIdentityMismatch (actual : Id)
  | DeclaredDependenciesDisagree (declared produced : list Id).
Inductive LoaderError :=
  | InvalidReference (value : string) (reason : InvalidReferenceReason)
  | DuplicateCatalogEntry (r : ModuleReference)
  | DuplicateRootReference (r : ModuleReference)
  | MissingReference (requested : ModuleReference) (required_by : option ModuleReference)
      (path : list ModuleReference)
  | DependencyCycle (path : list ModuleReference)
  | IncompatibleEntry (r : ModuleReference) (reason : IncompatibleEntryReason)
  | RegistrationConstructionFailed (r : ModuleReference) (source : ModuleFactoryError).
Definition InvalidReferenceReason_display (r : InvalidReferenceReason) : string :=
  match r with
  | BlankModuleId => "module id must not be empty"
  | BlankVersion => "module version must not be empty"
  | ReservedVersionDelimiter => "'@' is reserved as the ModuleReference version delimiter"
  end.

(** ** References *)
(** The character [@]. *)
Definition at_sign : Ascii.ascii := Eval cbv in Ascii.ascii_of_N 64.
(** [value.contains('@')] and [value.rsplit_once('@')]. *)
Fixpoint contains_at (s : string) : bool :=
  match s with
  | EmptyString => false
  | String c s => bool_decide (c = at_sign) || contains_at s
  end.
Fixpoint rsplit_once (s : string) : option (string * string) :=
  match s with
  | EmptyString => None
  | String c s =>
      match rsplit_once s with
      | Some (a, b) => Some (String c a, b)
      | None => if bool_decide (c = at_sign) then Some ("", s) else None
      end
  end.
Definition ModuleVersion_new (value : string) : result LoaderError ModuleVersion :=
  if trim_is_empty value then Err (InvalidReference value BlankVersion)
  else if contains_at value then Err (InvalidReference value ReservedVersionDelimiter)
  else Ok value.
Definition ModuleReference_new (id version : string) : result LoaderError ModuleReference :=
  parsed_id ← map_err (fun _ => InvalidReference id BlankModuleId) (Id_new id);
  version ← ModuleVersion_new version;
  Ok (parsed_id, version).
Definition ModuleReference_display (r : ModuleReference) : string :=
  Id_display (reference_id r) +:+ "@" +:+ reference_version r.
(** [Deserialize for ModuleReference]: [input] is the outcome of
    [String::deserialize], [custom] is [serde::de::Error::custom], and
    [display] the text of a loader error (it quotes values with [Debug]). *)
Definition ModuleReference_deserialize {DE} (custom : string -> DE) (display : LoaderError -> string)
  (input : result DE string) : result DE ModuleReference :=
  value ← input;
  parts ← ok_or (rsplit_once value) (custom "module reference must have the form id@version");
  map_err (fun e => custom (display e)) (ModuleReference_new parts.1 parts.2).

(** ** The catalog *)
Definition FactoryName : Set := N.
Record CatalogEntry := {
  entry_reference : ModuleReference;
  entry_dependencies : list ModuleReference;
  entry_factory : FactoryName
}.
Definition CatalogEntry_new (r : ModuleReference) (f : FactoryName) : CatalogEntry :=
  {| entry_reference := r; entry_dependencies := []; entry_factory := f |}.
Definition entry_depends_on (e : CatalogEntry) (d : ModuleReference) : CatalogEntry :=
  {| entry_reference := entry_reference e; entry_dependencies := entry_dependencies e ++ [d];
     entry_factory := entry_factory e |}.
Definition entry_depends_on_all (e : CatalogEntry) (ds : list ModuleReference) : CatalogEntry :=
  {| entry_reference := entry_reference e; entry_dependencies := entry_dependencies e ++ ds;
     entry_factory := entry_factory e |}.
Record ModuleCatalog := { entries : gmap ModuleReference CatalogEntry }.
Definition ModuleCatalog_new : ModuleCatalog := {| entries := ∅ |}.
Definition catalog_register (c : ModuleCatalog) (e : CatalogEntry) : result LoaderError ModuleCatalog :=
  match entries c !! entry_reference e with
  | Some _ => Err (DuplicateCatalogEntry (entry_reference e))
  | None => Ok {| entries := <[entry_reference e := e]> (entries c) |}
  end.
Definition catalog_get (c : ModuleCatalog) (r : ModuleReference) : option CatalogEntry := entries c !! r.
Definition catalog_contains (c : ModuleCatalog) (r : ModuleReference) : bool :=
  bool_decide (is_Some (entries c !! r)).
Definition references (c : ModuleCatalog) : list ModuleReference := map_keys (entries c).

(** ** Phase 1: the closure of the roots *)
Record Discovered := { required_by : option ModuleReference; discovered_path : list ModuleReference }.
Fixpoint first_duplicate (l : list ModuleReference) : option ModuleReference :=
  match l with
  | x :: ((y :: _) as t) => if bool_decide (x = y) then Some x else first_duplicate t
  | _ => None
  end.
Definition collect_roots (roots : list ModuleReference) : result LoaderError (gset ModuleReference) :=
  let sorted := merge_sort ord_le roots in
  match first_duplicate sorted with
  | Some r => Err (DuplicateRootReference r)
  | None => Ok (list_to_set sorted)
  end.
Definition sorted_dependencies (e : CatalogEntry) : list ModuleReference :=
  merge_sort ord_le (entry_dependencies e).
Record closure := {
  resolved : gmap ModuleReference Discovered;
  missing : gmap ModuleReference Discovered;
  next : gmap ModuleReference Discovered
}.
(** [map.entry(key).or_insert(value)] *)
Definition or_insert (m : gmap ModuleReference Discovered) (r : ModuleReference) (d : Discovered) :
  gmap ModuleReference Discovered :=
  match m !! r with Some _ => m | None => <[r := d]> m end.
Definition discover (r : ModuleReference) (d : Discovered) (s : closure) (dependency : ModuleReference) :
  closure :=
  if bool_decide (is_Some (resolved s !! dependency)) then s
  else {| resolved := resolved s; missing := missing s;
          next := or_insert (next s) dependency
            {| required_by := Some r; discovered_path := discovered_path d ++ [dependency] |} |}.
Definition expand (catalog : ModuleCatalog) (s : closure) (x : ModuleReference * Discovered) : closure :=
  if bool_decide (is_Some (resolved s !! x.1)) then s
  else match catalog_get catalog x.1 with
  | None => {| resolved := resolved s; missing := or_insert (missing s) x.1 x.2; next := next s |}
  | Some entry =>
      foldl (discover x.1 x.2)
        {| resolved := <[x.1 := x.2]> (resolved s); missing := missing s; next := next s |}
        (sorted_dependencies entry)
  end.
Fixpoint close (fuel : nat) (catalog : ModuleCatalog)
  (done absent frontier : gmap ModuleReference Discovered) :
  result LoaderError (gmap ModuleReference Discovered * gmap ModuleReference Discovered) :=
  if bool_decide (frontier = ∅) then Ok (done, absent)
  else match fuel with
  | O => NoFuel
  | S fuel =>
      let s := foldl (expand catalog) {| resolved := done; missing := absent; next := ∅ |}
                 (map_iter frontier) in
      close fuel catalog (resolved s) (missing s) (next s)
  end.

(** ** Phase 2: cycles of the closed reference graph *)
Record trail := {
  finished : gset ModuleReference;
  trail_path : list ModuleReference;
  on_path : gmap ModuleReference nat
}.
(** [iter().enumerate().min_by_key(|(_, r)| r)]: the first least element. *)
Fixpoint smallest_index (l : list ModuleReference) : option nat :=
  match l with
  | [] => None
  | x :: t =>
      match smallest_index t with
      | None => Some 0
      | Some i =>
          match t !! i with
          | Some y => if bool_decide (ord_le x y) then Some 0 else Some (S i)
          | None => Some 0
          end
      end
  end.
Definition rotate_to_smallest (cycle : list ModuleReference) : result LoaderError (list ModuleReference) :=
  smallest ← expect (smallest_index cycle) "a detected cycle is never empty";
  Ok (drop smallest cycle ++ take smallest cycle).
Definition report_cycle (cycle : list ModuleReference) : result LoaderError trail :=
  cycle ← rotate_to_smallest cycle;
  first ← expect (head cycle) "cycle[0]";
  Err (DependencyCycle (cycle ++ [first])).
Fixpoint visit_reference (fuel : nat) (closed : gmap ModuleReference Discovered)
  (catalog : ModuleCatalog) (s : trail) (r : ModuleReference) : result LoaderError trail :=
  match fuel with
  | O => NoFuel
  | S fuel =>
      if bool_decide (r ∈ finished s) then Ok s
      else match on_path s !! r with
      | Some position => report_cycle (drop position (trail_path s))
      | None =>
          entry ← expect (catalog_get catalog r) "the resolved closure only contains catalog entries";
          s ← foldM (fun s d => if bool_decide (is_Some (closed !! d))
                                then visit_reference fuel closed catalog s d else Ok s)
                (sorted_dependencies entry)
                {| finished := finished s; trail_path := trail_path s ++ [r];
                   on_path := <[r := length (trail_path s)]> (on_path s) |};
          Ok {| finished := {[r]} ∪ finished s; trail_path := vec_pop (trail_path s);
                on_path := delete r (on_path s) |}
      end
  end.
(** One nested visit per reference of the closure, and one that finds a mark. *)
Definition visit_reference_fuel (closed : gmap ModuleReference Discovered) : nat :=
  S (length (map_keys closed)).
Definition detect_cycles (roots : gset ModuleReference) (closed : gmap ModuleReference Discovered)
  (catalog : ModuleCatalog) : result LoaderError unit :=
  _ ← foldM (fun s r => if bool_decide (r ∈ finished s) then Ok s
             else visit_reference (visit_reference_fuel closed) closed catalog s r)
        (set_iter roots) {| finished := ∅; trail_path := []; on_path := ∅ |};
  Ok tt.

Definition root_discoveries (roots : gset ModuleReference) : gmap ModuleReference Discovered :=
  set_to_map (fun r => (r, {| required_by := None; discovered_path := [r] |})) roots.
(** Every round but the last resolves a new entry of the catalog. *)
Definition close_fuel (catalog : ModuleCatalog) : nat := S (S (length (references catalog))).
Definition resolve_graph (catalog : ModuleCatalog) (roots : gset ModuleReference) :
  result LoaderError (gmap ModuleReference Discovered) :=
  p ← close (close_fuel catalog) catalog ∅ ∅ (root_discoveries roots);
  match head (map_iter p.2) with
  | Some (requested, d) => Err (MissingReference requested (required_by d) (discovered_path d))
  | None => _ ← detect_cycles roots p.1 catalog; Ok p.1
  end.

(** ** Phase 3: construction *)
Record ResolvedEntry := { resolved_reference : ModuleReference; registration : ModuleRegistration }.
Definition ResolvedModules : Type := list ResolvedEntry.
Definition check_registration (r : ModuleReference) (e : CatalogEntry) (m : ModuleRegistration) :
  result LoaderError unit :=
  let produced_id := module_id (definition m) in
  if bool_decide (produced_id <> reference_id r)
  then Err (IncompatibleEntry r (ProducedIdentityMismatch produced_id))
  else
    let declared := list_to_set (reference_id <$> entry_dependencies e) : gset Id in
    let produced := list_to_set (module_dependencies (definition m)) : gset Id in
    if bool_decide (declared <> produced)
    then Err (IncompatibleEntry r (DeclaredDependenciesDisagree (set_iter declared) (set_iter produced)))
    else Ok tt.

Section construct.
(** [call log f]: what a call of the factory [f] returns after the calls [log]. *)
Context (call : list FactoryName -> FactoryName -> result ModuleFactoryError ModuleRegistration).

(** The calls made are kept whatever the outcome. *)
Fixpoint construct (catalog : ModuleCatalog) (refs : list ModuleReference) (log : list FactoryName)
  (built : ResolvedModules) : list FactoryName * result LoaderError ResolvedModules :=
  match refs with
  | [] => (log, Ok built)
  | r :: refs =>
      match catalog_get catalog r with
      | None => (log, Panic "the resolved closure only contains catalog entries")
      | Some entry =>
          let log' := log ++ [entry_factory entry] in
          match map_err (RegistrationConstructionFailed r) (call log (entry_factory entry)) with
          | Ok m =>
              match check_registration r entry m with
              | Ok _ => construct catalog refs log'
                          (built ++ [{| resolved_reference := r; registration := m |}])
              | Err e => (log', Err e)
              | Panic s => (log', Panic s)
              | NoFuel => (log', NoFuel)
              end
          | Err e => (log', Err e)
          | Panic s => (log', Panic s)
          | NoFuel => (log', NoFuel)
          end
      end
  end.
(** [RuntimeLoader::resolve] *)
Definition load (catalog : ModuleCatalog) (roots : list ModuleReference) (log : list FactoryName) :
  list FactoryName * result LoaderError ResolvedModules :=
  match (roots ← collect_roots roots; resolve_graph catalog roots) with
  | Ok closed => construct catalog (map_keys closed) log []
  | Err e => (log, Err e)
  | Panic s => (log, Panic s)
  | NoFuel => (log, NoFuel)
  end.
End construct.

(** ** The handoff to the composition *)
Definition into_composition_builder (ms : ResolvedModules) : result CompositionError CompositionBuilder :=
  foldM (fun b e => register_module b (registration e)) ms CompositionBuilder_new.
Definition compose `{StoreFormat} (ms : ResolvedModules) : result CompositionError CompositionPlan :=
  b ← into_composition_builder ms; build b.
