(* ===== verification/LoaderFacts.v ===== *)
(** * Facts about the resolution of references *)
From S2P Require Export Loader.
#[local] Open Scope string_scope.
#[local] Open Scope nat_scope.
#[local] Open Scope list_scope.

Section closure.
Context (catalog : ModuleCatalog) (roots : gset ModuleReference).

(** [declares x y]: the entry of [x] declares the dependency [y]. *)
Definition declares (x y : ModuleReference) : Prop :=
  exists e, entries catalog !! x = Some e /\ y ∈ entry_dependencies e.
Definition registered (x : ModuleReference) : Prop := is_Some (entries catalog !! x).
(** What the roots need, directly or not. *)
Definition requested (x : ModuleReference) : Prop := exists r, r ∈ roots /\ rtc declares r x.
(** A discovery carries a walk from a root, and the declaring entry. *)
Definition discovery_ok (x : ModuleReference) (d : Discovered) : Prop :=
  (exists r l, r ∈ roots /\ discovered_path d = r :: l /\ chain declares (r :: l)) /\
  last (discovered_path d) = Some x /\
  required_by d = last (removelast (discovered_path d)).
Definition discoveries_ok (m : gmap ModuleReference Discovered) : Prop :=
  forall x d, m !! x = Some d -> discovery_ok x d.

Lemma chain_rtc (l : list ModuleReference) x y :
  chain declares (x :: l) -> last (x :: l) = Some y -> rtc declares x y.
Proof.
  revert x. induction l as [|z l IH]; intros x Hc Hl.
  - injection Hl as ->. done.
  - destruct Hc as [Hxz Hc]. eapply rtc_l; [done|]. by apply IH.
Qed.
Lemma discovery_requested x d : discovery_ok x d -> requested x.
Proof.
  intros ((r & l & Hr & Hp & Hc) & Hl & _). exists r. split; [done|]. rewrite Hp in Hl.
  by eapply chain_rtc.
Qed.
Lemma discovery_step r d y :
  discovery_ok r d -> declares r y ->
  discovery_ok y {| required_by := Some r; discovered_path := discovered_path d ++ [y] |}.
Proof.
  intros ((r0 & l & Hr & Hp & Hc) & Hl & _) Hy. unfold discovery_ok. cbn. rewrite removelast_last, last_snoc.
  split_and!; [|done|done]. exists r0, (l ++ [y]). split_and!; [done|by rewrite Hp|].
  rewrite Hp in Hl. by apply (chain_snoc_last declares (r0 :: l) r y).
Qed.

(** The members of the three maps, and of what is left of a frontier. *)
Definition seen (s : closure) (x : ModuleReference) : Prop :=
  is_Some (resolved s !! x) \/ is_Some (missing s !! x) \/ is_Some (next s !! x).
Record closing (s : closure) (left : list ModuleReference) : Prop := {
  cl_resolved : discoveries_ok (resolved s);
  cl_missing : discoveries_ok (missing s);
  cl_next : discoveries_ok (next s);
  cl_registered x : is_Some (resolved s !! x) -> registered x;
  cl_absent x : is_Some (missing s !! x) -> ~ registered x;
  cl_roots x : x ∈ roots -> seen s x \/ x ∈ left;
  cl_closed x y : is_Some (resolved s !! x) -> declares x y -> seen s y \/ y ∈ left
}.

Lemma or_insert_lookup m r d x v :
  or_insert m r d !! x = Some v -> m !! x = Some v \/ x = r /\ v = d.
Proof.
  unfold or_insert. destruct (m !! r) eqn:E; [by left|].
  intros [[<- <-]|[_ ?]]%lookup_insert_Some; [by right|by left].
Qed.
Lemma or_insert_is_Some m r d x : is_Some (or_insert m r d !! x) <-> is_Some (m !! x) \/ x = r.
Proof.
  unfold or_insert. destruct (m !! r) as [v|] eqn:E.
  - split; [by left|]. intros [?| ->]; [done|by eexists].
  - rewrite lookup_insert_is_Some. destruct (decide (r = x)); naive_solver.
Qed.

(** The dependencies of a resolved entry join the next frontier. *)
Lemma discover_all r d ds s :
  foldl (discover r d) s ds =
  {| resolved := resolved s; missing := missing s; next := next (foldl (discover r d) s ds) |} /\
  (forall x, is_Some (next (foldl (discover r d) s ds) !! x) <->
     is_Some (next s !! x) \/ x ∈ ds /\ ~ is_Some (resolved s !! x)) /\
  (discovery_ok r d -> (forall x, x ∈ ds -> declares r x) -> discoveries_ok (next s) ->
     discoveries_ok (next (foldl (discover r d) s ds))).
Proof.
  revert s. induction ds as [|y ds IH]; intros s; cbn [foldl].
  { split_and!; [by destruct s| |done]. intros x. rewrite elem_of_nil. tauto. }
  destruct (IH (discover r d s y)) as (Heq & Hel & Hok).
  assert (Hres : resolved (discover r d s y) = resolved s) by (unfold discover; by case_bool_decide).
  assert (Hmis : missing (discover r d s y) = missing s) by (unfold discover; by case_bool_decide).
  assert (Hnext : forall x, is_Some (next (discover r d s y) !! x) <->
    is_Some (next s !! x) \/ x = y /\ ~ is_Some (resolved s !! y)).
  { intros x. unfold discover. case_bool_decide; cbn; [tauto|]. rewrite or_insert_is_Some. tauto. }
  split_and!.
  - rewrite Heq at 1. by rewrite Hres, Hmis.
  - intros x. rewrite Hel, Hnext, Hres, elem_of_cons. naive_solver.
  - intros Hd Hds Hs. apply Hok; [done|intros x Hx; apply Hds; by right|].
    intros x v Hx. unfold discover in Hx. case_bool_decide; [by apply Hs|]. cbn in Hx.
    apply or_insert_lookup in Hx as [Hx|[-> ->]]; [by apply Hs|].
    apply discovery_step; [done|apply Hds; left].
Qed.
Lemma elem_of_sorted_dependencies e y : y ∈ sorted_dependencies e <-> y ∈ entry_dependencies e.
Proof. unfold sorted_dependencies. by rewrite merge_sort_Permutation. Qed.

#[local] Ltac settle H Hs :=
  destruct H as [?|[->|?]%elem_of_cons]; [left; by apply Hs|by left|by right].
Lemma expand_ok s x d left :
  closing s (x :: left) -> discovery_ok x d -> closing (expand catalog s (x, d)) left.
Proof.
  intros [Hr Hm Hn Hreg Habs Hroots Hcl] Hd. unfold expand. cbn [fst snd].
  case_bool_decide as Hin.
  { split; try done.
    - intros z Hz. destruct (Hroots z Hz) as [?|[->|?]%elem_of_cons]; [by left|left; by left|by right].
    - intros z y Hz Hy. destruct (Hcl z y Hz Hy) as [?|[->|?]%elem_of_cons]; [by left|left; by left|by right]. }
  unfold catalog_get. destruct (entries catalog !! x) as [e|] eqn:Ee.
  - set (s1 := {| resolved := <[x:=d]> (resolved s); missing := missing s; next := next s |}).
    destruct (discover_all x d (sorted_dependencies e) s1) as (Heq & Hel & Hok).
    assert (Hdecl : forall y, y ∈ sorted_dependencies e <-> declares x y).
    { intros y. rewrite elem_of_sorted_dependencies. unfold declares. rewrite Ee. naive_solver. }
    assert (Hseen : forall z, seen s z -> seen (foldl (discover x d) s1 (sorted_dependencies e)) z).
    { intros z. rewrite Heq. unfold seen. cbn. rewrite Hel. cbn. rewrite lookup_insert_is_Some'. tauto. }
    assert (Hx : seen (foldl (discover x d) s1 (sorted_dependencies e)) x).
    { rewrite Heq. left. cbn. rewrite lookup_insert_eq. by eexists. }
    split.
    + rewrite Heq. cbn. intros z v [[<- <-]|[_ Hz]]%lookup_insert_Some; [done|by apply Hr].
    + rewrite Heq. cbn. done.
    + apply Hok; [done|by intros y ?%Hdecl|done].
    + rewrite Heq. cbn. intros z [<-|Hz]%lookup_insert_is_Some'; [by eexists|by apply Hreg].
    + rewrite Heq. cbn. done.
    + intros z Hz. settle (Hroots z Hz) Hseen.
    + intros z y Hz Hy. rewrite Heq in Hz. cbn in Hz. apply lookup_insert_is_Some' in Hz as [<-|Hz].
      * left. destruct (decide (is_Some (resolved s1 !! y))) as [Hy1|Hy1].
        -- rewrite Heq. by left.
        -- rewrite Heq. right; right. cbn. apply Hel. right. split; [by apply Hdecl|done].
      * settle (Hcl z y Hz Hy) Hseen.
  - assert (Hseen : forall z, seen s z -> seen {| resolved := resolved s; missing := or_insert (missing s) x d;
      next := next s |} z).
    { intros z. unfold seen. cbn. rewrite or_insert_is_Some. tauto. }
    assert (Hx : seen {| resolved := resolved s; missing := or_insert (missing s) x d; next := next s |} x).
    { right. left. cbn. rewrite or_insert_is_Some. by right. }
    split; cbn; try done.
    + intros z v [Hz|[-> ->]]%or_insert_lookup; [by apply Hm|done].
    + intros z [Hz| ->]%or_insert_is_Some; [by apply Habs|]. unfold registered. rewrite Ee. by intros [? ?].
    + intros z Hz. settle (Hroots z Hz) Hseen.
    + intros z y Hz Hy. settle (Hcl z y Hz Hy) Hseen.
Qed.

(** *** Rounds *)
Definition unresolved (done : gmap ModuleReference Discovered) : nat :=
  size ((dom (entries catalog) : gset ModuleReference) ∖ dom done).
(** A step keeps what is resolved; it leaves the next frontier as it was or
    resolves an entry. *)
Definition progress (s s' : closure) : Prop :=
  (forall x, is_Some (resolved s !! x) -> is_Some (resolved s' !! x)) /\
  (next s' = next s \/ exists x, registered x /\ ~ is_Some (resolved s !! x) /\ is_Some (resolved s' !! x)).
Lemma progress_trans s1 s2 s3 : progress s1 s2 -> progress s2 s3 -> progress s1 s3.
Proof.
  intros [Ka [N1|(x & ? & ? & ?)]] [Kb [N2|(y & ? & Hy & ?)]]; (split; [auto|]).
  - left. congruence.
  - right. exists y. split_and!; [done|by intros ?%Ka|done].
  - right. exists x. split_and!; [done|done|auto].
  - right. exists x. split_and!; [done|done|auto].
Qed.
Lemma expand_progress s x : progress s (expand catalog s x).
Proof.
  unfold expand. case_bool_decide as Hin; [by split; [|left]|]. unfold catalog_get.
  destruct (entries catalog !! x.1) as [e|] eqn:Ee; [|by split; [|left]].
  set (s1 := {| resolved := _; missing := _; next := _ |}).
  destruct (discover_all x.1 x.2 (sorted_dependencies e) s1) as (-> & _). split; cbn.
  - intros z Hz. rewrite lookup_insert_is_Some'. by right.
  - right. exists x.1. split_and!; [by eexists|done|]. rewrite lookup_insert_eq. by eexists.
Qed.
Lemma round_ok l s :
  closing s l.*1 -> (forall x d, (x, d) ∈ l -> discovery_ok x d) ->
  closing (foldl (expand catalog) s l) [] /\ progress s (foldl (expand catalog) s l).
Proof.
  revert s. induction l as [|[x d] l IH]; intros s Hs Hl; cbn [foldl].
  { split; [done|]. by split; [|left]. }
  destruct (IH (expand catalog s (x, d))) as [H1 H2].
  - apply expand_ok; [done|apply Hl; left].
  - intros y v Hy. apply Hl. by right.
  - split; [done|]. by eapply progress_trans; [apply expand_progress|].
Qed.
Lemma unresolved_progress s s' :
  progress s s' -> next s' <> next s -> unresolved (resolved s') < unresolved (resolved s).
Proof.
  intros [Hmono [?|(x & Hx & Hn & Hs)]] Hne; [done|]. unfold unresolved. apply subset_size. split.
  - intros y. rewrite !elem_of_difference, !elem_of_dom. intros [? Hy]. split; [done|]. intros Hy'. by apply Hy, Hmono.
  - intros Hsub. assert (Hin : x ∈ (dom (entries catalog) : gset ModuleReference) ∖ dom (resolved s))
      by (rewrite elem_of_difference, !elem_of_dom; done).
    apply Hsub in Hin. rewrite elem_of_difference, !elem_of_dom in Hin. tauto.
Qed.
(** The loop ends with the whole closure. *)
Lemma close_ok fuel done absent frontier :
  closing {| resolved := done; missing := absent; next := frontier |} [] ->
  frontier = ∅ \/ unresolved done < fuel ->
  exists closed' absent', close fuel catalog done absent frontier = Ok (closed', absent') /\
    closing {| resolved := closed'; missing := absent'; next := ∅ |} [].
Proof.
  revert done absent frontier. induction fuel as [|fuel IH]; intros done absent frontier Hs Hfuel; cbn [close];
    (case_bool_decide as Hf; [subst; by exists done, absent|]); destruct Hfuel as [?|Hfuel]; try easy.
  set (s0 := {| resolved := done; missing := absent; next := ∅ |}).
  destruct (round_ok (map_iter frontier) s0) as [Hs1 Hp].
  - destruct Hs as [Hr Hm Hn Hreg Habs Hroots Hcl].
    assert (Hleft : forall x, seen {| resolved := done; missing := absent; next := frontier |} x ->
      seen s0 x \/ x ∈ (map_iter frontier).*1).
    { intros x [?|[?|?]]; [left; by left|left; right; by left|right]. rewrite map_iter_keys.
      by apply elem_of_map_keys. }
    split; cbn; try easy.
    + intros x Hx. apply Hleft. by destruct (Hroots x Hx) as [?|?%elem_of_nil].
    + intros x y Hx Hy. apply Hleft. by destruct (Hcl x y Hx Hy) as [?|?%elem_of_nil].
  - intros x d Hx%elem_of_map_iter. by apply (cl_next _ _ Hs).
  - set (s1 := foldl (expand catalog) s0 (map_iter frontier)) in *. apply IH.
    + by destruct s1.
    + destruct (decide (next s1 = ∅)) as [?|Hne]; [by left|right].
      pose proof (unresolved_progress s0 s1 Hp Hne) as Hlt. cbn in Hlt. lia.
Qed.

Lemma root_discoveries_lookup r d :
  root_discoveries roots !! r = Some d <->
  r ∈ roots /\ d = {| required_by := None; discovered_path := [r] |}.
Proof.
  unfold root_discoveries. rewrite lookup_set_to_map by done. split.
  - intros (r' & Hr & [= <- <-]). done.
  - intros [Hr ->]. by exists r.
Qed.
Lemma closing_start :
  closing {| resolved := ∅; missing := ∅; next := root_discoveries roots |} [].
Proof.
  split; unfold discoveries_ok, seen; cbn; try (intros *; rewrite lookup_empty; try done; by intros [? ?]).
  - intros x d [Hx ->]%root_discoveries_lookup. unfold discovery_ok. cbn. split_and!; [|done|done].
    by exists x, [].
  - intros x Hx. left. right. right. eexists. by apply root_discoveries_lookup.
Qed.
Lemma closed_requested closed' absent' x :
  closing {| resolved := closed'; missing := absent'; next := ∅ |} [] ->
  (is_Some (closed' !! x) <-> requested x /\ registered x) /\
  (is_Some (absent' !! x) <-> requested x /\ ~ registered x).
Proof.
  intros [Hr Hm _ Hreg Habs Hroots Hcl]. cbn in *.
  assert (Hall : requested x -> is_Some (closed' !! x) \/ is_Some (absent' !! x)).
  { assert (Hseen : forall y, seen {| resolved := closed'; missing := absent'; next := ∅ |} y ->
      is_Some (closed' !! y) \/ is_Some (absent' !! y)).
    { intros y [?|[?|?]]; [by left|by right|]. cbn in *. rewrite lookup_empty in *. by destruct H as [? ?]. }
    intros (r & Hin & Hrx). revert Hrx. apply (rtc_ind_r (fun y => is_Some (closed' !! y) \/ is_Some (absent' !! y)) r).
    - destruct (Hroots r Hin) as [?|?%elem_of_nil]; [|done]. by apply Hseen.
    - intros y z _ Hyz [Hy|Hy].
      + destruct (Hcl y z Hy Hyz) as [?|?%elem_of_nil]; [|done]. by apply Hseen.
      + destruct (Habs y Hy). destruct Hyz as (e & ? & _). by eexists. }
  split; (split; [intros [d Hd]|intros [Hq Hx]]).
  - split; [by eapply discovery_requested, Hr|by apply Hreg; eexists].
  - destruct (Hall Hq) as [?|Hb]; [done|]. by destruct (Habs x Hb).
  - split; [by eapply discovery_requested, Hm|by apply Habs; eexists].
  - destruct (Hall Hq) as [Hb|?]; [|done]. by destruct Hx; apply Hreg.
Qed.
End closure.

(** ** Cycles *)

Lemma smallest_index_spec l :
  l <> [] -> exists i x, smallest_index l = Some i /\ l !! i = Some x /\ forall y, y ∈ l -> ord_le x y.
Proof.
  induction l as [|a l IH]; [done|]. intros _. cbn [smallest_index]. destruct l as [|b l].
  { exists 0, a. split_and!; [done|done|]. by intros y ->%list_elem_of_singleton. }
  destruct IH as (i & x & Hi & Hx & Hmin); [done|]. rewrite Hi, Hx. case_bool_decide as Hle.
  - exists 0, a. split_and!; [done|done|]. intros y [->|Hy]%elem_of_cons; [done|].
    etransitivity; [exact Hle|by apply Hmin].
  - exists (S i), x. split_and!; [done|done|]. intros y [->|Hy]%elem_of_cons; [|by apply Hmin].
    by destruct (total ord_le a x).
Qed.
(** A closed walk is reported from its least element. *)
Definition least_cycle (R : relation ModuleReference) (p : list ModuleReference) : Prop :=
  is_cycle R p /\ forall x y, head p = Some x -> y ∈ p -> ord_le x y.
Lemma report_cycle_spec (R : relation ModuleReference) x l :
  chain R (x :: l ++ [x]) ->
  exists p, report_cycle (x :: l) = Err (DependencyCycle p) /\ least_cycle R p /\ forall y, y ∈ p -> y ∈ x :: l.
Proof.
  intros Hc. unfold report_cycle, rotate_to_smallest.
  destruct (smallest_index_spec (x :: l)) as (i & y & -> & Hy & Hmin); [done|]. cbn [expect mbind result_bind].
  apply list_elem_of_split_length in Hy as (l1 & l2 & Hl & ->).
  rewrite Hl, drop_app_length, take_app_length. cbn [app head expect mbind result_bind].
  eexists. split; [done|]. split_and!; [split| ].
  - exists y, (l2 ++ l1). split; [done|]. destruct l1 as [|x' l1].
    + rewrite app_nil_r. by injection Hl as <- <-.
    + injection Hl as <- ->. rewrite <- (assoc_L (++)) in Hc. cbn in Hc.
      rewrite <- !(assoc_L (++)). cbn. by apply is_cycle_rotate.
  - intros z w [= <-] Hw. apply Hmin. rewrite Hl. set_solver.
  - intros w Hw. rewrite ?Hl. set_solver.
Qed.

Section cycles.
Context (catalog : ModuleCatalog) (closed : gmap ModuleReference Discovered).
Hypothesis Hreg : forall x, is_Some (closed !! x) -> registered catalog x.
Hypothesis Hclosed : forall x y, is_Some (closed !! x) -> declares catalog x y -> is_Some (closed !! y).
#[local] Abbreviation declares := (declares catalog).

Record trail_ok (s : trail) : Prop := {
  to_position x i : on_path s !! x = Some i <-> trail_path s !! i = Some x;
  to_chain : chain declares (trail_path s);
  to_path x : x ∈ trail_path s -> is_Some (closed !! x);
  to_finished x : x ∈ finished s -> is_Some (closed !! x) /\ grounded declares x
}.
Definition unvisited (s : trail) : nat :=
  size ((dom closed : gset ModuleReference) ∖ (finished s ∪ list_to_set (trail_path s))).
Record walked (s s' : trail) (rs : list ModuleReference) : Prop := {
  wa_ok : trail_ok s';
  wa_path : trail_path s' = trail_path s;
  wa_on_path : on_path s' = on_path s;
  wa_finished x : x ∈ finished s -> x ∈ finished s';
  wa_all x : x ∈ rs -> x ∈ finished s'
}.
Definition reported_cycle (p : list ModuleReference) : Prop :=
  least_cycle declares p /\ forall x, x ∈ p -> is_Some (closed !! x).
Definition walk_post (s : trail) (rs : list ModuleReference) (r : result LoaderError trail) : Prop :=
  match r with
  | Ok s' => walked s s' rs
  | Err e => exists p, e = DependencyCycle p /\ reported_cycle p
  | _ => False
  end.

Lemma trail_unvisited_mono s s' :
  trail_path s' = trail_path s -> (forall x, x ∈ finished s -> x ∈ finished s') ->
  unvisited s' <= unvisited s.
Proof. intros Hp Hf. unfold unvisited. rewrite Hp. apply subseteq_size. set_solver. Qed.
Lemma unvisited_push s r op :
  is_Some (closed !! r) -> r ∉ finished s -> r ∉ trail_path s ->
  unvisited {| finished := finished s; trail_path := trail_path s ++ [r]; on_path := op |} < unvisited s.
Proof.
  intros Hr Hf Hp. unfold unvisited. cbn [finished trail_path]. apply subset_size. rewrite list_to_set_app_L.
  split; [set_solver|]. intros Hsub.
  assert (Hin : r ∈ (dom closed : gset ModuleReference) ∖ (finished s ∪ list_to_set (trail_path s))).
  { rewrite elem_of_difference, elem_of_dom, elem_of_union, elem_of_list_to_set. tauto. }
  apply Hsub in Hin. set_solver.
Qed.
Lemma not_on_path s r : trail_ok s -> on_path s !! r = None -> r ∉ trail_path s.
Proof. intros Hs Hn [i Hi]%list_elem_of_lookup. apply (to_position _ Hs) in Hi. congruence. Qed.
Lemma trail_push s r :
  trail_ok s -> is_Some (closed !! r) -> on_path s !! r = None ->
  (forall z, last (trail_path s) = Some z -> declares z r) ->
  trail_ok {| finished := finished s; trail_path := trail_path s ++ [r];
              on_path := <[r := length (trail_path s)]> (on_path s) |}.
Proof.
  intros Hs Hr Hn Hlast. pose proof (not_on_path s r Hs Hn) as Hnp.
  destruct Hs as [Hpos Hc Hp Hf]. split; cbn; [| | |done].
  - intros x i. rewrite lookup_insert_Some, lookup_app_Some, list_lookup_singleton_Some, Hpos. split.
    + intros [[<- <-]|[Hne Hi]]; [right|by left]. split; [done|]. split; [lia|done].
    + intros [Hi|(Hle & Hz & <-)]; [right|left; split; [done|lia]].
      split; [|done]. intros ->. by apply Hnp, list_elem_of_lookup_2 with i.
  - destruct (last (trail_path s)) as [z|] eqn:Hz.
    + eapply chain_snoc_last; eauto.
    + apply last_None in Hz. by rewrite Hz.
  - intros x [Hx|Hx%list_elem_of_singleton]%elem_of_app; [auto|by subst].
Qed.
Lemma report_on_path s r i :
  trail_ok s -> on_path s !! r = Some i -> (forall z, last (trail_path s) = Some z -> declares z r) ->
  exists p, report_cycle (drop i (trail_path s)) = Err (DependencyCycle p) /\ reported_cycle p.
Proof.
  intros Hs Hi Hlast. apply (to_position _ Hs) in Hi.
  destruct (chain_close declares (trail_path s) i r (to_chain _ Hs) Hi Hlast) as (x & mid & Heq & Hc).
  rewrite (drop_S _ _ _ Hi) in *. cbn in Heq. injection Heq as <- Heq.
  apply app_inj_tail in Heq as [<- _]. destruct (report_cycle_spec _ _ _ Hc) as (p & -> & Hp & Hin).
  exists p. split; [done|]. split; [exact Hp|]. intros y Hy%Hin. apply (to_path _ Hs).
  rewrite <- (drop_S _ _ _ Hi) in Hy. apply list_elem_of_lookup in Hy as [k Hk]. rewrite lookup_drop in Hk.
  by eapply list_elem_of_lookup_2.
Qed.

Lemma walk_dependencies v r ds s n :
  (forall s d, trail_ok s -> is_Some (closed !! d) -> unvisited s <= n ->
     (forall z, last (trail_path s) = Some z -> declares z d) -> walk_post s [d] (v s d)) ->
  trail_ok s -> unvisited s <= n -> last (trail_path s) = Some r ->
  (forall d, d ∈ ds -> declares r d /\ is_Some (closed !! d)) ->
  walk_post s ds (foldM (fun s d => if bool_decide (is_Some (closed !! d)) then v s d else Ok s) ds s).
Proof.
  intros Hv. revert s. induction ds as [|d ds IH]; intros s Hs Hn Hlast Hds; cbn [foldM].
  { split; try done. by intros x ?%elem_of_nil. }
  destruct (Hds d) as [Hrd Hd]; [left|]. rewrite bool_decide_true by done.
  pose proof (Hv s d Hs Hd Hn ltac:(intros z Hz; rewrite Hlast in Hz; by injection Hz as <-)) as Hpost.
  destruct (v s d) as [s1|e| |]; try done. cbn [walk_post mbind result_bind] in *.
  destruct Hpost as [Hs1 Hp1 Ho1 Hf1 Ha1].
  specialize (IH s1 Hs1 ltac:(pose proof (trail_unvisited_mono s s1 Hp1 Hf1); lia)). rewrite Hp1 in IH.
  specialize (IH Hlast ltac:(intros x Hx; apply Hds; by right)).
  destruct (foldM _ ds s1) as [s2|e| |]; [|exact IH|destruct IH|destruct IH].
  destruct IH as [Hs2 Hp2 Ho2 Hf2 Ha2].
  split; [exact Hs2|by rewrite Hp2, Hp1|by rewrite Ho2, Ho1|auto|].
  intros x [->|Hx]%elem_of_cons; [|auto]. apply Hf2, Ha1. by left.
Qed.
Lemma visit_reference_ok fuel s r :
  trail_ok s -> is_Some (closed !! r) -> unvisited s < fuel ->
  (forall z, last (trail_path s) = Some z -> declares z r) ->
  walk_post s [r] (visit_reference fuel closed catalog s r).
Proof.
  revert s r. induction fuel as [|fuel IH]; intros s r Hs Hr Hfuel Hlast; [lia|]. cbn [visit_reference].
  case_bool_decide as Hf.
  { split; try done. by intros x ->%list_elem_of_singleton. }
  destruct (on_path s !! r) as [i|] eqn:Eo.
  { destruct (report_on_path s r i Hs Eo Hlast) as (p & -> & Hp). by exists p. }
  destruct (Hreg r Hr) as [e He]. unfold catalog_get. rewrite He. cbn [expect mbind result_bind].
  pose proof (trail_push s r Hs Hr Eo Hlast) as Hs1.
  pose proof (unvisited_push s r (<[r := length (trail_path s)]> (on_path s)) Hr Hf (not_on_path s r Hs Eo)) as Hlt.
  set (s1 := {| finished := finished s; trail_path := trail_path s ++ [r]; on_path := _ |}) in *.
  pose proof (walk_dependencies (visit_reference fuel closed catalog) r (sorted_dependencies e) s1 (unvisited s1))
    as Hdeps.
  specialize (Hdeps ltac:(intros s' d Hs' Hd Hn'; apply IH; [done|done|lia]) Hs1 (Nat.le_refl _) ltac:(apply last_snoc)).
  specialize (Hdeps ltac:(intros d Hd%elem_of_sorted_dependencies; assert (declares r d) by (by exists e);
    split; [done|by apply (Hclosed r)])).
  clear IH. destruct (foldM _ _ s1) as [s2|err| |]; [|exact Hdeps|destruct Hdeps|destruct Hdeps].
  cbn [walk_post mbind result_bind] in *. destruct Hdeps as [[Q1 Q2 Q3 Q4] Hp2 Ho2 Hf2 Ha2].
  assert (Hpop : vec_pop (trail_path s2) = trail_path s) by (rewrite Hp2; apply vec_pop_snoc).
  assert (Hdel : delete r (on_path s2) = on_path s) by (rewrite Ho2; by apply delete_insert_id).
  split; cbn [finished trail_path on_path]; [|done|done|..].
  - destruct Hs as [P1 P2 P3 P4]. split; cbn [finished trail_path on_path]; rewrite ?Hpop, ?Hdel; [done|done|done|].
    intros x [->%elem_of_singleton|Hx]%elem_of_union; [|by apply Q4]. split; [done|].
    constructor. intros y (e' & He' & Hy). rewrite He in He'. injection He' as <-.
    apply Q4, Ha2. by apply elem_of_sorted_dependencies.
  - intros x Hx. apply elem_of_union. right. by apply Hf2.
  - intros x ->%list_elem_of_singleton. set_solver.
Qed.

Lemma walk_roots rs s :
  trail_ok s -> trail_path s = [] -> (forall r, r ∈ rs -> is_Some (closed !! r)) ->
  walk_post s rs (foldM (fun s r => if bool_decide (r ∈ finished s) then Ok s
    else visit_reference (visit_reference_fuel closed) closed catalog s r) rs s).
Proof.
  revert s. induction rs as [|r rs IH]; intros s Hs Hp Hrs; cbn [foldM].
  { split; try done. by intros x ?%elem_of_nil. }
  assert (Hone : walk_post s [r] (if bool_decide (r ∈ finished s) then Ok s
    else visit_reference (visit_reference_fuel closed) closed catalog s r)).
  { case_bool_decide as Hf.
    - split; [exact Hs|done|done|done|]. by intros x ->%list_elem_of_singleton.
    - apply visit_reference_ok; [done|apply Hrs; left| |by rewrite Hp].
      unfold visit_reference_fuel, unvisited, map_keys. rewrite length_set_iter.
      apply Nat.lt_succ_r, subseteq_size. set_solver. }
  destruct (if bool_decide (r ∈ finished s) then _ else _) as [s1|e| |]; try exact Hone.
  destruct Hone as [Hs1 Hp1 Ho1 Hf1 Ha1]. cbn [mbind result_bind].
  specialize (IH s1 Hs1 ltac:(by rewrite Hp1) ltac:(intros x Hx; apply Hrs; by right)).
  destruct (foldM _ rs s1) as [s2|e| |]; try exact IH. destruct IH as [Hs2 Hp2 Ho2 Hf2 Ha2].
  split; [exact Hs2|by rewrite Hp2, Hp1|by rewrite Ho2, Ho1|auto|].
  intros x [->|Hx]%elem_of_cons; [|auto]. apply Hf2, Ha1. by left.
Qed.
Lemma detect_cycles_cases (roots : gset ModuleReference) :
  (forall r, r ∈ roots -> is_Some (closed !! r)) ->
  match detect_cycles roots closed catalog with
  | Ok _ => forall r, r ∈ roots -> grounded declares r
  | Err e => exists p, e = DependencyCycle p /\ reported_cycle p
  | _ => False
  end.
Proof.
  intros Hroots. unfold detect_cycles.
  set (s0 := {| finished := ∅; trail_path := []; on_path := ∅ |}).
  assert (Hs0 : trail_ok s0).
  { split; cbn; [|done|by intros x ?%elem_of_nil|set_solver]. intros x i. by rewrite lookup_empty. }
  pose proof (walk_roots (set_iter roots) s0 Hs0 eq_refl) as Hw.
  specialize (Hw ltac:(intros r; rewrite elem_of_set_iter; apply Hroots)).
  destruct (foldM _ (set_iter roots) s0) as [s1|e| |]; try exact Hw. cbn [mbind result_bind].
  intros r Hr. apply (to_finished _ (wa_ok _ _ _ Hw)), (wa_all _ _ _ Hw). by rewrite elem_of_set_iter.
Qed.
End cycles.

(** ** The reference graph as a whole *)
Section graph.
Context (catalog : ModuleCatalog) (roots : gset ModuleReference).

Lemma close_result :
  exists closed absent, close (close_fuel catalog) catalog ∅ ∅ (root_discoveries roots) = Ok (closed, absent) /\
    closing catalog roots {| resolved := closed; missing := absent; next := ∅ |} [].
Proof.
  apply close_ok; [apply closing_start|]. right. unfold close_fuel, unresolved, references, map_keys.
  rewrite length_set_iter. apply Nat.lt_lt_succ_r, Nat.lt_succ_r, subseteq_size. set_solver.
Qed.
Lemma head_map_iter (m : gmap ModuleReference Discovered) :
  match head (map_iter m) with
  | Some (x, d) => m !! x = Some d /\ forall y, is_Some (m !! y) -> ord_le x y
  | None => m = ∅
  end.
Proof.
  destruct (map_iter m) as [|[x d] l] eqn:E; cbn.
  - apply map_eq. intros k. rewrite lookup_empty. destruct (m !! k) as [d|] eqn:Ek; [|done].
    apply elem_of_map_iter in Ek. rewrite E in Ek. by apply elem_of_nil in Ek.
  - split; [apply elem_of_map_iter; rewrite E; left|]. intros y Hy%elem_of_map_keys.
    assert (Hh : head (set_iter (dom m : gset ModuleReference)) = Some x).
    { change (head (map_keys m) = Some x). rewrite <- map_iter_keys, E. done. }
    apply head_set_iter in Hh as [_ Hmin]. apply Hmin. unfold map_keys in Hy. by rewrite elem_of_set_iter in Hy.
Qed.
Lemma resolve_graph_cases :
  match resolve_graph catalog roots with
  | Ok closed =>
      (forall x, is_Some (closed !! x) <-> requested catalog roots x) /\
      (forall x, requested catalog roots x -> registered catalog x) /\
      (forall x, requested catalog roots x -> grounded (declares catalog) x) /\
      discoveries_ok catalog roots closed
  | Err (MissingReference x by_ path) =>
      requested catalog roots x /\ ~ registered catalog x /\
      (forall y, requested catalog roots y -> ~ registered catalog y -> ord_le x y) /\
      discovery_ok catalog roots x {| required_by := by_; discovered_path := path |}
  | Err (DependencyCycle p) =>
      (forall x, requested catalog roots x -> registered catalog x) /\ least_cycle (declares catalog) p /\
      (forall x, x ∈ p -> requested catalog roots x)
  | _ => False
  end.
Proof.
  unfold resolve_graph. destruct close_result as (closed & absent & -> & Hc). cbn [mbind result_bind fst snd].
  assert (Hmem := fun x => closed_requested catalog roots closed absent x Hc).
  pose proof (head_map_iter absent) as Hhead. destruct (head (map_iter absent)) as [[x d]|].
  - destruct Hhead as [Hx Hmin]. destruct (proj1 (proj2 (Hmem x)) (mk_is_Some _ _ Hx)) as [Hq Hn].
    split_and!; [done|done| |].
    + intros y Hy Hny. apply Hmin. by apply (Hmem y).
    + pose proof (cl_missing _ _ _ _ Hc x d Hx) as Hd. by destruct d.
  - subst absent.
    assert (Hreg : forall x, requested catalog roots x -> registered catalog x).
    { intros x Hx. destruct (decide (registered catalog x)) as [|Hn]; [done|].
      destruct (proj2 (proj2 (Hmem x)) (conj Hx Hn)) as [v Hv]. cbn in Hv. by rewrite lookup_empty in Hv. }
    assert (Hin : forall x, is_Some (closed !! x) <-> requested catalog roots x).
    { intros x. rewrite (proj1 (Hmem x)). split; [by intros [? _]|by intros Hx; split; [|apply Hreg]]. }
    assert (Hstep : forall x y, requested catalog roots x -> declares catalog x y -> requested catalog roots y).
    { intros x y (r & Hr & Hrx) Hxy. exists r. split; [done|]. by eapply rtc_r. }
    pose proof (detect_cycles_cases catalog closed) as Hd.
    specialize (Hd ltac:(intros x Hx; by apply Hreg, Hin)).
    specialize (Hd ltac:(intros x y Hx Hxy; apply Hin; apply Hin in Hx; by eapply Hstep)).
    specialize (Hd roots ltac:(intros r Hr; apply Hin; by exists r)).
    destruct (detect_cycles roots closed catalog) as [u|e| |]; [| |exact Hd|exact Hd]; cbn [mbind result_bind].
    + split_and!; [done|done| |apply (cl_resolved _ _ _ _ Hc)].
      intros x (r & Hr & Hrx). specialize (Hd r Hr). clear Hr. induction Hrx as [x|x y z Hxy _ IH]; [done|].
      apply IH. by apply Acc_inv with x.
    + destruct Hd as (p & -> & Hp & Hpc). split_and!; [done|done|]. intros x Hx. by apply Hin, Hpc.
Qed.
End graph.
