(* ===== verification/LoaderPlan.v ===== *)
(** * What the loader guarantees

    The textual form of references, the exactness of the resolution, its
    independence from the orders of its inputs, the construction, and the
    handoff to the composition. *)
From S2P Require Export LoaderFacts CompositionPlan.
#[local] Open Scope string_scope.
#[local] Open Scope nat_scope.
#[local] Open Scope list_scope.

(** ** References and their text *)
Definition valid_reference (r : ModuleReference) : Prop :=
  valid_id (reference_id r) /\ trim_is_empty (reference_version r) = false /\
  contains_at (reference_version r) = false.

Lemma append_cons c (a b : string) : String c a +:+ b = String c (a +:+ b).
Proof. reflexivity. Qed.
Lemma append_at b : "@" +:+ b = String at_sign b.
Proof. reflexivity. Qed.
Lemma contains_at_app a b : contains_at (a +:+ b) = contains_at a || contains_at b.
Proof. induction a as [|c a IH]; [done|]. rewrite append_cons. cbn. by rewrite IH, orb_assoc. Qed.
Lemma rsplit_once_None s : rsplit_once s = None <-> contains_at s = false.
Proof.
  induction s as [|c s IH]; [done|]. cbn. destruct (rsplit_once s) as [[a b]|].
  - split; [done|]. intros [_ Hs]%orb_false_iff. by apply IH in Hs.
  - rewrite (proj1 IH eq_refl), orb_false_r. by case_bool_decide.
Qed.
(** The split is at the last delimiter. *)
Lemma rsplit_once_Some s a b :
  rsplit_once s = Some (a, b) <-> s = a +:+ "@" +:+ b /\ contains_at b = false.
Proof.
  rewrite append_at. revert a. induction s as [|c s IH]; intros a.
  { split; [done|]. intros [Hs _]. by destruct a. }
  cbn [rsplit_once].
  assert (Hhead : String c s = a +:+ String at_sign b <->
    (a = "" /\ c = at_sign /\ s = b) \/ exists a', a = String c a' /\ s = a' +:+ String at_sign b).
  { destruct a as [|c' a].
    - split; [intros [= -> ->]; by left|]. intros [(_ & -> & ->)|(a' & ? & _)]; done.
    - rewrite append_cons. split; [intros [= -> ->]; right; by exists a|].
      intros [(? & _)|(a' & [= -> ->] & ->)]; done. }
  rewrite Hhead. destruct (rsplit_once s) as [[a' b']|] eqn:E.
  - split.
    + intros [= <- <-]. destruct (proj1 (IH a') eq_refl) as [Hs Hb]. split; [|done]. right. by exists a'.
    + intros [[(-> & -> & ->)|(a1 & -> & Hs)] Hb].
      * apply rsplit_once_None in Hb. congruence.
      * pose proof (proj2 (IH a1) (conj Hs Hb)) as Heq. by injection Heq as -> ->.
  - apply rsplit_once_None in E as Hn. case_bool_decide as Hc.
    + split; [intros [= <- <-]; split; [by left|done]|].
      intros [[(-> & -> & ->)|(a1 & -> & Hs)] Hb]; [done|]. by discriminate (proj2 (IH a1) (conj Hs Hb)).
    + split; [done|].
      intros [[(-> & -> & ->)|(a1 & -> & Hs)] Hb]; [done|]. by discriminate (proj2 (IH a1) (conj Hs Hb)).
Qed.
Lemma ModuleVersion_new_Ok v w :
  ModuleVersion_new v = Ok w <-> w = v /\ trim_is_empty v = false /\ contains_at v = false.
Proof.
  unfold ModuleVersion_new. destruct (trim_is_empty v); [naive_solver|]. destruct (contains_at v); naive_solver.
Qed.
Lemma ModuleReference_new_Ok i v r :
  ModuleReference_new i v = Ok r <-> r = (i, v) /\ valid_reference r.
Proof.
  unfold ModuleReference_new, Id_new, valid_reference, valid_id, reference_id, reference_version.
  destruct (trim_is_empty i) eqn:Ei; cbn.
  { split; [done|]. intros [-> [Hi _]]. cbn in Hi. congruence. }
  rewrite bind_Ok. setoid_rewrite ModuleVersion_new_Ok. split.
  - intros (w & (-> & ? & ?) & [= <-]). done.
  - intros [-> (? & ? & ?)]. by exists v.
Qed.

(** The textual form of module references is bijective.  Whatever a
    deserializer delivers, a text decodes to a reference exactly when the
    reference is valid (neither part blank, no delimiter in the version) and the
    text is its display form: every valid reference survives the round trip,
    every accepted text prints back to itself, and two references never share a
    text.  Construction accepts exactly the valid parts. *)
Theorem reference_roundtrip {DE} (custom : string -> DE) (display : LoaderError -> string) :
  (forall s r, ModuleReference_deserialize custom display (Ok s) = Ok r <->
     valid_reference r /\ s = ModuleReference_display r) /\
  (forall r r', valid_reference r -> valid_reference r' ->
     ModuleReference_display r = ModuleReference_display r' -> r = r') /\
  (forall i v r, ModuleReference_new i v = Ok r <-> r = (i, v) /\ valid_reference r).
Proof.
  assert (Hdec : forall s r, ModuleReference_deserialize custom display (Ok s) = Ok r <->
     valid_reference r /\ s = ModuleReference_display r).
  { intros s [i v]. unfold ModuleReference_deserialize. cbn [mbind result_bind].
    change (ModuleReference_display (i, v)) with (i +:+ "@" +:+ v). split.
    - destruct (rsplit_once s) as [[a b]|] eqn:E; [|done]. cbn. intros Hr.
      destruct (ModuleReference_new a b) as [r'| | |] eqn:En; try done. injection Hr as ->.
      apply ModuleReference_new_Ok in En as [[= -> ->] Hv]. apply rsplit_once_Some in E as [-> _]. done.
    - intros [Hv Hs]. assert (rsplit_once s = Some (i, v)) as ->.
      { apply rsplit_once_Some. split; [done|]. apply Hv. }
      cbn. assert (ModuleReference_new i v = Ok (i, v)) as ->; [|done]. by apply ModuleReference_new_Ok. }
  split_and!; [exact Hdec| |apply ModuleReference_new_Ok].
  intros r r' Hr Hr' Heq.
  assert (H1 := proj2 (Hdec _ r) (conj Hr eq_refl)). assert (H2 := proj2 (Hdec _ r') (conj Hr' eq_refl)).
  rewrite Heq in H1. congruence.
Qed.

(** ** The resolution of a graph *)
Section graph.
Context (catalog : ModuleCatalog) (roots : gset ModuleReference).

(** C40: the resolution is exact.  It always returns: with the whole closure of
    the roots, each reference with a walk of declared dependencies from a root,
    exactly when every requested reference has an entry and none of them depends
    on itself; with the least reference that has no entry, its requester and a
    walk to it, when there is one; and otherwise with a closed walk of requested
    references, told from its least element. *)
Theorem resolve_graph_exact :
  returns (resolve_graph catalog roots) /\
  (is_Ok (resolve_graph catalog roots) <->
     forall x, requested catalog roots x -> registered catalog x /\ ~ tc (declares catalog) x x) /\
  (forall closed, resolve_graph catalog roots = Ok closed ->
     (forall x, is_Some (closed !! x) <-> requested catalog roots x) /\ discoveries_ok catalog roots closed) /\
  (forall x by_ path, resolve_graph catalog roots = Err (MissingReference x by_ path) ->
     requested catalog roots x /\ ~ registered catalog x /\
     (forall y, requested catalog roots y -> ~ registered catalog y -> ord_le x y) /\
     discovery_ok catalog roots x {| required_by := by_; discovered_path := path |}) /\
  (forall e, resolve_graph catalog roots = Err e ->
     (exists x by_ path, e = MissingReference x by_ path) \/
     exists p, e = DependencyCycle p /\ least_cycle (declares catalog) p /\
       (forall x, x ∈ p -> requested catalog roots x) /\
       forall x, requested catalog roots x -> registered catalog x).
Proof.
  pose proof (resolve_graph_cases catalog roots) as Hc.
  destruct (resolve_graph catalog roots) as [closed|e| |]; [| |destruct Hc|destruct Hc].
  - destruct Hc as (Hin & Hreg & Hg & Hd). split_and!; [exact I| |by intros ? [= <-]|by intros ???|by intros ?].
    split; [|by intros _; exists closed]. intros _ x Hx. split; [by apply Hreg|]. by apply grounded_tc, Hg.
  - destruct e as [| | |x by_ path|p| |]; try (destruct Hc).
    + destruct H0 as (Hn & Hmin & Hd). split_and!; [exact I| |by intros ?|by intros ??? [= <- <- <-]|].
      * split; [by intros [? ?]|]. intros Hall. by destruct Hn; apply Hall.
      * intros e [= <-]. left. by exists x, by_, path.
    + destruct H0 as ([Hp Hmin] & Hq). split_and!; [exact I| |by intros ?|by intros ???|].
      * split; [by intros [? ?]|]. intros Hall. exfalso. destruct Hp as (x & mid & -> & Hch).
        apply (Hall x); [apply Hq; left|]. by eapply chain_tc.
      * intros e [= <-]. right. by exists p.
Qed.
End graph.

(** ** Construction *)
Section construct.
Context (call : list FactoryName -> FactoryName -> result ModuleFactoryError ModuleRegistration).
Context (catalog : ModuleCatalog).

(** The factories of references, in order. *)
Definition factories_of (refs : list ModuleReference) : list FactoryName :=
  omap (fun r => entry_factory <$> entries catalog !! r) refs.
(** A registration agrees with its entry. *)
Definition agrees (r : ModuleReference) (e : CatalogEntry) (m : ModuleRegistration) : Prop :=
  module_id (definition m) = reference_id r /\
  forall d, d ∈ module_dependencies (definition m) <-> d ∈ reference_id <$> entry_dependencies e.
(** [constructed log refs ms]: one call for each reference, in order, each
    after the calls before it, and each result accepted. *)
Fixpoint constructed (log : list FactoryName) (refs : list ModuleReference) (ms : ResolvedModules) : Prop :=
  match refs, ms with
  | [], [] => True
  | r :: refs, m :: ms => exists e, entries catalog !! r = Some e /\ resolved_reference m = r /\
      call log (entry_factory e) = Ok (registration m) /\ agrees r e (registration m) /\
      constructed (log ++ [entry_factory e]) refs ms
  | _, _ => False
  end.
(** The call of [r] is the one that failed, or whose result was refused. *)
Definition refused (log : list FactoryName) (r : ModuleReference) (err : LoaderError) : Prop :=
  exists e, entries catalog !! r = Some e /\
    ((exists source, call log (entry_factory e) = Err source /\ err = RegistrationConstructionFailed r source) \/
     (exists m, call log (entry_factory e) = Ok m /\ ~ agrees r e m /\
        exists reason, err = IncompatibleEntry r reason)).

Lemma check_registration_cases r e m :
  (check_registration r e m = Ok tt /\ agrees r e m) \/
  (exists reason, check_registration r e m = Err (IncompatibleEntry r reason) /\ ~ agrees r e m).
Proof.
  unfold check_registration, agrees. case_bool_decide as Hid.
  { right. eexists. split; [done|]. by intros [? _]. }
  case_bool_decide as Hd.
  - right. eexists. split; [done|]. intros [_ Hall]. apply Hd. apply set_eq. intros d.
    rewrite !elem_of_list_to_set. symmetry. apply Hall.
  - left. split; [done|]. split; [done|]. intros d. rewrite set_eq in Hd.
    specialize (Hd d). rewrite !elem_of_list_to_set in Hd. by symmetry.
Qed.
Lemma factories_of_cons r refs e :
  entries catalog !! r = Some e -> factories_of (r :: refs) = entry_factory e :: factories_of refs.
Proof. intros He. unfold factories_of. cbn. by rewrite He. Qed.
Lemma construct_cases refs log built :
  (forall r, r ∈ refs -> registered catalog r) -> (forall log f, returns (call log f)) ->
  (exists ms, construct call catalog refs log built = (log ++ factories_of refs, Ok (built ++ ms)) /\
     constructed log refs ms) \/
  (exists done_ r rest ms err,
     construct call catalog refs log built = (log ++ factories_of (done_ ++ [r]), Err err) /\
     refs = done_ ++ r :: rest /\ constructed log done_ ms /\ refused (log ++ factories_of done_) r err).
Proof.
  intros Hreg Hcall. revert log built. induction refs as [|r refs IH]; intros log built.
  { left. exists []. unfold factories_of. cbn. by rewrite !app_nil_r. }
  destruct (Hreg r) as [e He]; [left|]. cbn [construct]. unfold catalog_get. rewrite He.
  pose proof (factories_of_cons r [] e He) as Hone.
  pose proof (Hcall log (entry_factory e)) as Hr.
  destruct (call log (entry_factory e)) as [m|source| |] eqn:Ec; [| |destruct Hr..]; cbn [map_err].
  - destruct (check_registration_cases r e m) as [[-> Hag]|(reason & -> & Hn)].
    + destruct (IH ltac:(intros x Hx; apply Hreg; by right) (log ++ [entry_factory e])
        (built ++ [{| resolved_reference := r; registration := m |}]))
        as [(ms & -> & Hms)|(d & r' & rest & ms & err & -> & -> & Hms & Hrf)].
      * left. exists ({| resolved_reference := r; registration := m |} :: ms).
        rewrite (factories_of_cons r refs e He), <- !(assoc_L (++)). split; [done|]. exists e. done.
      * right. exists (r :: d), r', rest, ({| resolved_reference := r; registration := m |} :: ms), err.
        rewrite <- !(assoc_L (++)) in *. split_and!; [|done|by exists e|].
        -- cbn [app]. rewrite (factories_of_cons r _ e He). done.
        -- rewrite (factories_of_cons r _ e He). done.
    + right. exists [], r, refs, [], (IncompatibleEntry r reason). split_and!; [|done|done|].
      * cbn [app]. by rewrite Hone.
      * exists e. split; [done|]. right. exists m. unfold factories_of. cbn. rewrite app_nil_r. eauto.
  - right. exists [], r, refs, [], (RegistrationConstructionFailed r source). split_and!; [|done|done|].
    * cbn [app]. by rewrite Hone.
    * exists e. split; [done|]. left. exists source. unfold factories_of. cbn. by rewrite app_nil_r.
Qed.
End construct.

(** *** Roots *)
Lemma first_duplicate_None l :
  StronglySorted ord_le l -> first_duplicate l = None <-> NoDup l.
Proof.
  induction l as [|x l IH]; [split; [constructor|done]|]. intros [Hs Hall]%StronglySorted_inv.
  destruct l as [|y l]; [split; [intros _; apply NoDup_singleton|done]|]. cbn [first_duplicate].
  case_bool_decide as Hxy.
  - subst y. split; [done|]. intros [Hn _]%NoDup_cons. by destruct Hn; left.
  - rewrite IH by done. split; [|by intros [_ ?]%NoDup_cons]. intros Hnd. constructor; [|done].
    intros [->|Hx]%elem_of_cons; [done|]. apply Hxy.
    apply StronglySorted_inv in Hs as [_ Hy]. rewrite Forall_forall in Hy, Hall.
    apply (anti_symm ord_le); [apply Hall; left|by apply Hy].
Qed.
Lemma first_duplicate_Some l r :
  StronglySorted ord_le l -> first_duplicate l = Some r -> r ∈ l /\ ~ NoDup l.
Proof.
  intros Hs Hd. split.
  - clear Hs. induction l as [|x l IH]; [done|]. destruct l as [|y l]; [done|]. cbn [first_duplicate] in Hd.
    case_bool_decide; [injection Hd as ->; left|right; by apply IH].
  - rewrite <- first_duplicate_None by done. by rewrite Hd.
Qed.
Lemma collect_roots_cases roots :
  (NoDup roots /\ collect_roots roots = Ok (list_to_set roots)) \/
  (~ NoDup roots /\ exists r, r ∈ roots /\ collect_roots roots = Err (DuplicateRootReference r)).
Proof.
  unfold collect_roots. pose proof (StronglySorted_merge_sort ord_le roots) as Hs.
  pose proof (merge_sort_Permutation ord_le roots) as Hp.
  destruct (first_duplicate (merge_sort ord_le roots)) as [r|] eqn:E.
  - right. apply first_duplicate_Some in E as [Hr Hnd]; [|done]. rewrite Hp in Hr, Hnd. split; [done|]. by exists r.
  - left. rewrite first_duplicate_None, Hp in E by done. split; [done|]. f_equal. apply set_eq. intros x.
    by rewrite !elem_of_list_to_set, Hp.
Qed.
Lemma collect_roots_permuted roots roots' :
  roots ≡ₚ roots' -> collect_roots roots = collect_roots roots'.
Proof.
  intros Hp. unfold collect_roots.
  assert (merge_sort ord_le roots = merge_sort ord_le roots') as ->; [|done].
  apply (StronglySorted_unique ord_le); [apply StronglySorted_merge_sort; apply _..|].
  by rewrite !merge_sort_Permutation.
Qed.

(** *** Loops that register under fresh keys *)
Section records.
Context {E A K V S : Type} `{Countable K} (key : A -> K) (val : A -> V) (duplicate : A -> E)
  (put : gmap K V -> S) (f : S -> A -> result E S).
Definition records_fresh : Prop := forall m a, f (put m) a =
  match m !! key a with Some _ => Err (duplicate a) | None => Ok (put (<[key a := val a]> m)) end.

Lemma foldM_records l :
  records_fresh ->
  (exists m, foldM f l (put ∅) = Ok (put m) /\ NoDup (key <$> l) /\
     forall k v, m !! k = Some v <-> exists a, a ∈ l /\ key a = k /\ v = val a) \/
  (exists a, a ∈ l /\ foldM f l (put ∅) = Err (duplicate a) /\ ~ NoDup (key <$> l)).
Proof.
  intros Hf. set (g := fun (m : gmap K V) a =>
    match m !! key a with Some _ => Err (duplicate a) | None => Ok (<[key a := val a]> m) end).
  assert (Hg : forall m a m', g m a = Ok m' <-> True /\ m !! key a = None /\ m' = <[key a := val a]> m).
  { intros m a m'. unfold g. destruct (m !! key a); naive_solver. }
  assert (Hfg : forall m, foldM f l (put m) = (m' ← foldM g l m; Ok (put m')) /\
    ((exists m', foldM g l m = Ok m') \/ exists a, a ∈ l /\ foldM g l m = Err (duplicate a))).
  { assert (Hgm : forall m a, g m a = match m !! key a with Some _ => Err (duplicate a)
      | None => Ok (<[key a := val a]> m) end) by done.
    clearbody g. clear Hg. induction l as [|a l IH]; intros m; cbn [foldM]; [by split; [|left; eexists]|].
    rewrite Hf, Hgm. destruct (m !! key a); cbn [mbind result_bind].
    - split; [done|]. right. exists a. split; [left|done].
    - destruct (IH (<[key a:=val a]> m)) as [-> [Ho|(b & Hb & Herr)]]; (split; [done|]); [by left|].
      right. exists b. split; [by right|done]. }
  destruct (Hfg ∅) as [-> [[m Hm]|(a & Ha & Herr)]].
  - left. exists m. rewrite Hm. split; [done|]. by eapply foldM_unique.
  - right. exists a. rewrite Herr. split_and!; [done|done|]. intros Hnd.
    destruct (foldM_unique_Ok key val g l Hg Hnd) as [m Hm]. congruence.
Qed.
End records.

(** ** The whole of a load *)
Section load.
Context (call : list FactoryName -> FactoryName -> result ModuleFactoryError ModuleRegistration).

(** A load calls each factory once, in reference order, and calls none
    before the whole graph is accepted.  Duplicate roots and every failure of
    the resolution leave the calls untouched.  After that the factories of the
    closure run in the order of their references, one call each: a success has
    called them all and holds, in that order, exactly the registrations they
    returned, each agreeing with its entry; a failure is that of the last call
    made, the earlier ones having been accepted. *)
Theorem load_calls catalog roots log :
  (forall log f, returns (call log f)) ->
  (NoDup roots <-> is_Ok (collect_roots roots)) /\
  returns (load call catalog roots log).2 /\
  (forall e, (rs ← collect_roots roots; resolve_graph catalog rs) = Err e ->
     load call catalog roots log = (log, Err e)) /\
  (forall closed, (rs ← collect_roots roots; resolve_graph catalog rs) = Ok closed ->
     (exists ms, load call catalog roots log = (log ++ factories_of catalog (map_keys closed), Ok ms) /\
        constructed call catalog log (map_keys closed) ms) \/
     (exists done_ r rest ms err,
        load call catalog roots log = (log ++ factories_of catalog (done_ ++ [r]), Err err) /\
        map_keys closed = done_ ++ r :: rest /\ constructed call catalog log done_ ms /\
        refused call catalog (log ++ factories_of catalog done_) r err)).
Proof.
  intros Hcall. split.
  { destruct (collect_roots_cases roots) as [[? ->]|(? & r & _ & ->)]; [by split; [eexists|]|].
    by split; [|intros [? ?]]. }
  unfold load. destruct (collect_roots_cases roots) as [[_ ->]|(_ & r & _ & ->)]; cbn [mbind result_bind];
    [|by split_and!; [|intros e [= <-]|]].
  pose proof (resolve_graph_cases catalog (list_to_set roots)) as Hg.
  destruct (resolve_graph catalog (list_to_set roots)) as [closed|e| |]; [| |destruct Hg..];
    [|by split_and!; [|intros e' [= <-]|]].
  destruct Hg as (Hin & Hreg & _).
  pose proof (construct_cases call catalog (map_keys closed) log []) as Hc.
  specialize (Hc ltac:(intros r Hr%elem_of_map_keys; by apply Hreg, Hin) Hcall).
  split_and!; [|done|].
  - destruct Hc as [(ms & -> & _)|(d & r & rest & ms & err & -> & _)]; exact I.
  - by intros closed' [= <-].
Qed.

Lemma catalog_register_fresh :
  records_fresh entry_reference id (fun e => DuplicateCatalogEntry (entry_reference e)) Build_ModuleCatalog
    catalog_register.
Proof. by intros m a. Qed.
(** A load does not depend on the order of its inputs.  Registering the
    same entries in another order succeeds as well and gives the same catalog,
    and from it the same roots in another order give the same calls and the
    same outcome, errors included; what is registered is exactly the entries,
    under their references, and a catalog refuses a second entry for one. *)
Theorem load_order_independent es es' roots roots' c log :
  es ≡ₚ es' -> roots ≡ₚ roots' -> foldM catalog_register es ModuleCatalog_new = Ok c ->
  foldM catalog_register es' ModuleCatalog_new = Ok c /\
  load call c roots log = load call c roots' log /\
  NoDup (entry_reference <$> es) /\
  forall r e, catalog_get c r = Some e <-> e ∈ es /\ entry_reference e = r.
Proof.
  intros Hes Hroots Hc.
  destruct (foldM_records _ _ _ _ _ es catalog_register_fresh) as [(m & Hm & Hnd & Hel)|(a & _ & Herr & _)];
    [|unfold ModuleCatalog_new in Hc; congruence].
  assert (Hcm : c = {| entries := m |}) by (unfold ModuleCatalog_new in Hc; congruence).
  destruct (foldM_records _ _ _ _ _ es' catalog_register_fresh) as [(m' & Hm' & _ & Hel')|(a & _ & _ & Hnd')];
    [|by destruct Hnd'; rewrite <- Hes].
  assert (m' = m) as ->.
  { apply map_eq. intros k. apply option_eq. intros v. rewrite Hel, Hel'. by setoid_rewrite Hes. }
  subst c. split_and!; [done| |done|].
  - unfold load. by rewrite (collect_roots_permuted roots roots').
  - intros r e. unfold catalog_get. cbn. rewrite Hel. unfold id. naive_solver.
Qed.
End load.

(** ** The handoff *)
Section handoff.
Context (call : list FactoryName -> FactoryName -> result ModuleFactoryError ModuleRegistration).
Context (catalog : ModuleCatalog) (roots : list ModuleReference).

Lemma constructed_spec log refs ms :
  constructed call catalog log refs ms ->
  resolved_reference <$> ms = refs /\
  forall m, m ∈ ms -> exists e, entries catalog !! resolved_reference m = Some e /\
    agrees (resolved_reference m) e (registration m).
Proof.
  revert log ms. induction refs as [|r refs IH]; intros log [|m ms]; try done.
  - intros _. split; [done|]. by intros m ?%elem_of_nil.
  - intros (e & He & <- & _ & Hag & Hms). destruct (IH _ _ Hms) as [<- Hall]. split; [done|].
    intros m' [->|Hm]%elem_of_cons; [by exists e|by apply Hall].
Qed.
Lemma loaded_spec log log' ms :
  (forall log f, returns (call log f)) -> load call catalog roots log = (log', Ok ms) ->
  exists closed, resolve_graph catalog (list_to_set roots) = Ok closed /\
    resolved_reference <$> ms = map_keys closed /\
    forall m, m ∈ ms -> exists e, entries catalog !! resolved_reference m = Some e /\
      agrees (resolved_reference m) e (registration m).
Proof.
  intros Hcall. unfold load. destruct (collect_roots_cases roots) as [[_ ->]|(_ & r & _ & ->)];
    cbn [mbind result_bind]; [|done].
  pose proof (resolve_graph_cases catalog (list_to_set roots)) as Hg.
  destruct (resolve_graph catalog (list_to_set roots)) as [closed|e| |]; try done.
  destruct Hg as (Hin & Hreg & _). intros Hl. exists closed. split; [done|].
  destruct (construct_cases call catalog (map_keys closed) log []) as [(ms' & Heq & Hms)|(d & r & rest & ms' & err & Heq & _)].
  - intros r Hr%elem_of_map_keys. by apply Hreg, Hin.
  - done.
  - assert (ms = ms') as -> by (rewrite Heq in Hl; by injection Hl). by eapply constructed_spec.
  - rewrite Heq in Hl. discriminate.
Qed.
Definition produced_module (m : ResolvedEntry) : Id := module_id (definition (registration m)).
Lemma register_module_fresh :
  records_fresh produced_module registration (fun m => DuplicateModule (produced_module m))
    Build_CompositionBuilder (fun b e => register_module b (registration e)).
Proof. by intros m a. Qed.

(** Needs between the produced modules are needs between their references. *)
Lemma handoff_needs log log' ms modules :
  (forall log f, returns (call log f)) -> load call catalog roots log = (log', Ok ms) ->
  NoDup (produced_module <$> ms) ->
  (forall k r, modules !! k = Some r <-> exists m, m ∈ ms /\ produced_module m = k /\ r = registration m) ->
  (forall m, m ∈ ms -> produced_module m = reference_id (resolved_reference m)) /\
  (forall x y m, module_needs modules x y -> m ∈ ms -> produced_module m = x -> exists m', m' ∈ ms /\
     produced_module m' = y /\ declares catalog (resolved_reference m) (resolved_reference m')) /\
  forall m, m ∈ ms -> grounded (declares catalog) (resolved_reference m).
Proof.
  intros Hcall Hl Hnd Hmod. destruct (loaded_spec log log' ms Hcall Hl) as (closed & Hres & Hrefs & Hms).
  pose proof (resolve_graph_cases catalog (list_to_set roots)) as Hg. rewrite Hres in Hg.
  destruct Hg as (Hin & _ & Hground & _).
  assert (Hid : forall m, m ∈ ms -> produced_module m = reference_id (resolved_reference m)).
  { intros m Hm. by destruct (Hms m Hm) as (e & _ & Hag & _). }
  assert (Href : forall r, requested catalog (list_to_set roots) r <-> exists m, m ∈ ms /\ resolved_reference m = r).
  { intros r. rewrite <- Hin, <- elem_of_map_keys, <- Hrefs, list_elem_of_fmap. naive_solver. }
  split_and!; [done| |].
  - intros x y m (r & Hr & Hy) Hm Hx. apply Hmod in Hr as (m1 & Hm1 & Hx1 & ->).
    assert (m1 = m) as -> by (by apply (NoDup_key produced_module ms); [done..|congruence]).
    destruct (Hms m Hm) as (e & He & _ & Hdeps). apply Hdeps in Hy as (d & -> & Hd)%list_elem_of_fmap.
    assert (Hdecl : declares catalog (resolved_reference m) d) by (by exists e).
    assert (Hq : requested catalog (list_to_set roots) d).
    { destruct (proj2 (Href (resolved_reference m)) (ex_intro _ m (conj Hm eq_refl))) as (r0 & Hr0 & Hr).
      exists r0. split; [done|]. by eapply rtc_r. }
    apply Href in Hq as (m' & Hm' & <-). exists m'. split_and!; [done|by apply Hid|done].
  - intros m Hm. apply Hground, Href. by exists m.
Qed.
Lemma handoff_acyclic log log' ms modules :
  (forall log f, returns (call log f)) -> load call catalog roots log = (log', Ok ms) ->
  NoDup (produced_module <$> ms) ->
  (forall k r, modules !! k = Some r <-> exists m, m ∈ ms /\ produced_module m = k /\ r = registration m) ->
  acyclic (module_needs modules).
Proof.
  intros Hcall Hl Hnd Hmod x Hx.
  destruct (handoff_needs log log' ms modules Hcall Hl Hnd Hmod) as (_ & Hneeds & Hground).
  assert (Htc : forall x y, tc (module_needs modules) x y -> forall m, m ∈ ms -> produced_module m = x ->
    exists m', m' ∈ ms /\ produced_module m' = y /\
      tc (declares catalog) (resolved_reference m) (resolved_reference m')).
  { clear x Hx. induction 1 as [x y Hxy|x y z Hxy _ IH]; intros m Hm Hx.
    - destruct (Hneeds x y m Hxy Hm Hx) as (m' & ? & ? & ?). exists m'. by split_and!; [| |apply tc_once].
    - destruct (Hneeds x y m Hxy Hm Hx) as (m' & Hm' & Hy & ?). destruct (IH m' Hm' Hy) as (m2 & ? & ? & ?).
      exists m2. split_and!; [done|done|]. by eapply tc_l. }
  assert (exists m, m ∈ ms /\ produced_module m = x) as (m & Hm & Hmx).
  { assert (Hneed : exists y, module_needs modules x y) by (inversion Hx; eauto).
    destruct Hneed as (y & r & (m & ? & ? & _)%Hmod & _). by exists m. }
  destruct (Htc x x Hx m Hm Hmx) as (m' & Hm' & Hmx' & Hcyc).
  assert (m' = m) as -> by (by apply (NoDup_key produced_module ms); [done..|congruence]).
  by apply (grounded_tc _ _ (Hground m Hm)).
Qed.
(** What the loader hands over can be ordered.  After a successful load the
    only failure of the handoff is that two requested references name the same
    module (in two versions); otherwise every module dependency of the builder
    is registered and acyclic, so the planner never reports a missing or cyclic
    module dependency and computes an activation order. *)
Theorem load_plannable log log' ms :
  (forall log f, returns (call log f)) -> load call catalog roots log = (log', Ok ms) ->
  (is_Ok (into_composition_builder ms) <-> NoDup (reference_id <$> (resolved_reference <$> ms))) /\
  (forall e, into_composition_builder ms = Err e -> exists r, r ∈ resolved_reference <$> ms /\
     e = DuplicateModule (reference_id r)) /\
  (forall b, into_composition_builder ms = Ok b ->
     (forall m, m ∈ ms -> builder_modules b !! reference_id (resolved_reference m) = Some (registration m)) /\
     validate_dependencies (builder_modules b) = Ok tt /\
     exists order, deterministic_order (builder_modules b) = Ok order /\
       activation_order (builder_modules b) order).
Proof.
  intros Hcall Hl. destruct (loaded_spec log log' ms Hcall Hl) as (closed & _ & Hrefs & Hms).
  assert (Hid : forall m, m ∈ ms -> produced_module m = reference_id (resolved_reference m)).
  { intros m Hm. by destruct (Hms m Hm) as (e & _ & Hag & _). }
  assert (Hkeys : produced_module <$> ms = reference_id <$> (resolved_reference <$> ms)).
  { rewrite <- list_fmap_compose. apply list_fmap_ext. intros i m Hi. apply Hid. by eapply list_elem_of_lookup_2. }
  unfold into_composition_builder.
  destruct (foldM_records _ _ _ _ _ ms register_module_fresh) as [(modules & Heq & Hnd & Hmod)|(a & Ha & Heq & Hnd)];
    change CompositionBuilder_new with {| builder_modules := ∅ |}; rewrite Heq; rewrite Hkeys in Hnd.
  - split_and!; [by split; [|eexists]|by intros ?|]. intros b [= <-]. cbn [builder_modules].
    rewrite <- Hkeys in Hnd.
    destruct (handoff_needs log log' ms modules Hcall Hl Hnd Hmod) as (_ & Hneeds & Hground).
    assert (Hclosed : modules_closed modules).
    { intros x y Hxy. pose proof Hxy as (r & (m & Hm & Hx & _)%Hmod & _).
      destruct (Hneeds x y m Hxy Hm Hx) as (m' & Hm' & <- & _). eexists. apply Hmod. by exists m'. }
    split_and!.
    + intros m Hm. apply Hmod. exists m. by rewrite (Hid m Hm).
    + apply is_Ok_unit. by apply dependencies_checked.
    + destruct (order_cases modules Hclosed) as [(order & -> & Ho & _)|(p & _ & Hp)]; [by exists order|].
      destruct (acyclic_no_cycle _ _ (handoff_acyclic log log' ms modules Hcall Hl Hnd Hmod) Hp).
  - split_and!; [by split; [intros [? ?]|]| |by intros ?]. intros e [= <-].
    exists (resolved_reference a). split; [by apply list_elem_of_fmap_2|]. by rewrite <- (Hid a Ha).
Qed.
End handoff.

(** ** A concrete catalog

    Entries for the modules of the sample composition; the factories are told
    apart by their names. *)
Definition store_ref : ModuleReference := ("store", "2").
Definition feed_ref : ModuleReference := ("org@feed", "1").
Definition app_ref : ModuleReference := ("app", "1").
Definition loaded_feed : ModuleRegistration :=
  ModuleRegistration_new (module_depends_on (ModuleDefinition_new "org@feed") "store").
Definition loaded_app : ModuleRegistration :=
  ModuleRegistration_new (module_depends_on (module_depends_on (ModuleDefinition_new "app") "org@feed") "store").
Definition sample_entries : list CatalogEntry :=
  [entry_depends_on_all (CatalogEntry_new app_ref 3%N) [store_ref; feed_ref];
   CatalogEntry_new store_ref 1%N;
   entry_depends_on (CatalogEntry_new feed_ref 2%N) store_ref].
Definition sample_catalog : ModuleCatalog :=
  match foldM catalog_register sample_entries ModuleCatalog_new with Ok c => c | _ => ModuleCatalog_new end.
Definition sample_call (log : list FactoryName) (f : FactoryName) : result ModuleFactoryError ModuleRegistration :=
  if bool_decide (f = 1%N) then Ok store_module
  else if bool_decide (f = 2%N) then Ok loaded_feed
  else if bool_decide (f = 3%N) then Ok loaded_app else Err "unknown factory".
Lemma sample_call_returns log f : returns (sample_call log f).
Proof. unfold sample_call. by repeat case_bool_decide. Qed.
Definition sample_loaded : ResolvedModules :=
  [{| resolved_reference := app_ref; registration := loaded_app |};
   {| resolved_reference := feed_ref; registration := loaded_feed |};
   {| resolved_reference := store_ref; registration := store_module |}].
Example sample_load :
  load sample_call sample_catalog [app_ref] [] = ([3; 2; 1]%N, Ok sample_loaded).
Proof. vm_compute. reflexivity. Qed.
Example missing_store :
  resolve_graph {| entries := delete store_ref (entries sample_catalog) |} {[ app_ref ]} =
  Err (MissingReference store_ref (Some app_ref) [app_ref; store_ref]).
Proof. vm_compute. reflexivity. Qed.
Example cyclic_feed :
  resolve_graph {| entries := <[store_ref := entry_depends_on (CatalogEntry_new store_ref 1%N) feed_ref]>
    (entries sample_catalog) |} {[ app_ref ]} = Err (DependencyCycle [feed_ref; store_ref; feed_ref]).
Proof. vm_compute. reflexivity. Qed.
Lemma load_calls_witness : returns (load sample_call sample_catalog [app_ref; store_ref] []).2.
Proof. exact (proj1 (proj2 (load_calls sample_call sample_catalog [app_ref; store_ref] [] sample_call_returns))). Defined.
Lemma load_order_independent_witness :
  load sample_call sample_catalog [app_ref; store_ref] [] = load sample_call sample_catalog [store_ref; app_ref] [].
Proof.
  apply (load_order_independent sample_call sample_entries (reverse sample_entries) [app_ref; store_ref]
    [store_ref; app_ref] sample_catalog []).
  - symmetry. apply reverse_Permutation.
  - apply perm_swap.
  - vm_compute. reflexivity.
Defined.
Lemma load_plannable_witness : is_Ok (into_composition_builder sample_loaded).
Proof.
  apply (load_plannable sample_call sample_catalog [app_ref] [] [3; 2; 1]%N sample_loaded sample_call_returns sample_load).
  apply (bool_decide_unpack _). vm_compute. reflexivity.
Defined.
