(* ===== verification/RuntimeErrors.v ===== *)
(** * Errors of the coordinator: [crates/runtime-core/src/lib.rs]

    The errors of a coordinator over the other authorities, and the texts they
    display, those of the definitions and workflows they contain included. *)
From S2P Require Export Reactive RunDefinition ExecutionStream JournalView.
#[local] Open Scope string_scope.
#[local] Open Scope nat_scope.
#[local] Open Scope list_scope.

(** ** Texts of the errors below *)
Definition WorkflowGraphError_display (e : WorkflowGraphError) : string :=
  match e with
  | WorkflowGraph.UnknownTask id => "unknown task: " +:+ Id_display id
  | DuplicateTask id => "duplicate task identity: " +:+ Id_display id
  | DuplicateDependency t d => "duplicate dependency: " +:+ Id_display t +:+ " already depends on " +:+ Id_display d
  | WorkflowGraph.Cycle path => "workflow dependency cycle: " +:+ String.concat " -> " (Id_display <$> path)
  | CompletedTaskMutation id =>
      "completed task cannot have its definition or prerequisites changed: " +:+ Id_display id
  | TaskAlreadyCompleted id => "task is already completed: " +:+ Id_display id
  | IncompletePrerequisite t d =>
      "cannot complete " +:+ Id_display t +:+ "; prerequisite is incomplete: " +:+ Id_display d
  | RevisionConflict e a =>
      "workflow topology revision conflict: expected " +:+ pretty (Revision_get e) +:+ ", actual " +:+ pretty (Revision_get a)
  | EmptyMutationBatch => "workflow mutation batch is empty"
  | RevisionExhausted c => "workflow topology revision exhausted at " +:+ pretty (Revision_get c)
  | ReplayRevisionMismatch e a =>
      "workflow replay revision mismatch: expected " +:+ pretty (Revision_get e) +:+ ", record has " +:+ pretty (Revision_get a)
  end.
Definition DefinitionError_display (e : DefinitionError) : string :=
  match e with
  | DefinitionDuplicateTask id => "duplicate task identity: " +:+ Id_display id
  | DuplicateTaskConfiguration id => "duplicate task configuration: " +:+ Id_display id
  | DuplicateCapability id => "duplicate capability identity: " +:+ Id_display id
  | DuplicateTaskDependency t d => "task " +:+ Id_display t +:+ " declares duplicate dependency " +:+ Id_display d
  | DuplicateCapabilityDependency c d =>
      "capability " +:+ Id_display c +:+ " declares duplicate dependency " +:+ Id_display d
  | DuplicateCapabilityRequirement t c =>
      "task " +:+ Id_display t +:+ " declares capability " +:+ Id_display c +:+ " more than once"
  | DefinitionUnknownTask id => "unknown task in definition: " +:+ Id_display id
  | CapabilityIdentityMismatch c e a =>
      "capability " +:+ Id_display c +:+ " identity mismatch: declaration " +:+ e +:+ ", requirement " +:+ a
  | DuplicateOperation o => "duplicate logical operation identity: " +:+ OperationId_display o
  | DefinitionWorkflow e => "workflow definition error: " +:+ WorkflowGraphError_display e
  | DefinitionCapabilityGraph e => "capability definition error: " +:+ CapabilityGraphError_display e
  | InvalidDefinition reason => "invalid run definition: " +:+ reason
  end.
(** [string_debug] is Rust's quoted form of a string. *)
Definition FactoryResolutionError_display (string_debug : string -> string) (e : FactoryResolutionError) : string :=
  match e with
  | DuplicateDefinitionIdentity c i =>
      "factory already registered for capability " +:+ Id_display c +:+ " definition " +:+ i
  | InvalidDefinitionIdentity i => "factory definition identity is empty: " +:+ string_debug i
  | MissingFactory c i => "missing factory for capability " +:+ Id_display c +:+ " definition " +:+ i
  | FactoryConstructionFailed c i reason =>
      "factory for capability " +:+ Id_display c +:+ " definition " +:+ i +:+ " failed: " +:+ reason
  end.
Definition SequenceError_display (e : SequenceError) : string :=
  match e with
  | SE_Exhausted sid s => "sequence exhausted for stream " +:+ Id_display sid +:+ " after " +:+ pretty (Sequence_get s)
  end.

(** ** Observations *)
Inductive RuntimeEvent :=
  | TaskStarted (run_id : RunId) (task_id : Id) (attempt_id : AttemptId)
  | TaskProgress (task_id : Id) (progress : N)
  | TaskCompleted (run_id : RunId) (task_id : Id) (attempt_id : AttemptId)
  | Telemetry (message : string).

(** ** Errors *)
Inductive ReconstructionError :=
  | ReconstructionGraph (e : CapabilityGraphError)
  | CapabilityPublication (capability_id : Id) (e : ScopeError)
  | ReconstructionInvariantViolation (reason : string).
Definition ReconstructionError_display (e : ReconstructionError) : string :=
  match e with
  | ReconstructionGraph e => "capability graph reconstruction error: " +:+ CapabilityGraphError_display e
  | CapabilityPublication c e =>
      "failed to publish reconstructed capability " +:+ Id_display c +:+ ": " +:+ ScopeError_display e
  | ReconstructionInvariantViolation reason => "reconstruction invariant violation: " +:+ reason
  end.
Inductive LegacyMutationOperation := ConfigureTask | ApplyWorkflowMutation.
Definition LegacyMutationOperation_display (o : LegacyMutationOperation) : string :=
  match o with ConfigureTask => "configure_task" | ApplyWorkflowMutation => "apply_workflow_mutation" end.
Inductive RuntimeError :=
  | RuntimeDefinition (e : DefinitionError)
  | RuntimeFactory (e : FactoryResolutionError)
  | RuntimeReconstruction (e : ReconstructionError)
  | RuntimeWorkflow (e : WorkflowGraphError)
  | RuntimeCapability (e : ScopeError)
  | RuntimeJournal (e : JournalError)
  | RuntimeStore (e : StoreError)
  | RuntimeStream (e : SequenceError)
  | RuntimeUnknownTask (task_id : Id)
  | MissingCapability (task_id capability_id : Id)
  | CapabilityReplayMismatch (task_id capability_id : Id)
  | WorkflowReplayIdentityMismatch (expected : WorkflowReplayIdentity) (actual : option WorkflowReplayIdentity)
  | DefinitionMismatch (expected : WorkflowReplayIdentity) (actual : option WorkflowReplayIdentity)
  | LegacyDefinitionIdentityUnsupported (durable_identity : WorkflowReplayIdentity) (supported_format : string)
  | DeclarativeMutationUnsupported (o : LegacyMutationOperation)
  | PrecompletedWorkflow (task_id : Id)
  | AttemptIdExhausted
  | CancelledBeforeDispatch (task_id : Id)
  | CancelledAfterDispatch (task_id : Id) (operation_id : OperationId)
  | ReconciliationRequired (operation_id : OperationId)
  | OutcomeAlreadyKnown (operation_id : OperationId)
  | ProgressBackpressure
  | ExecutionBackpressure (item : StreamItem RuntimeEvent).
Definition identity_or_none (i : option WorkflowReplayIdentity) : string := default "none" i.
Definition RuntimeError_display `{StoreFormat} (string_debug : string -> string) (e : RuntimeError) : string :=
  match e with
  | RuntimeDefinition e => "definition error: " +:+ DefinitionError_display e
  | RuntimeFactory e => "factory resolution error: " +:+ FactoryResolutionError_display string_debug e
  | RuntimeReconstruction e => "reconstruction error: " +:+ ReconstructionError_display e
  | RuntimeWorkflow e => "workflow error: " +:+ WorkflowGraphError_display e
  | RuntimeCapability e => "capability error: " +:+ ScopeError_display e
  | RuntimeJournal e => "journal error: " +:+ JournalError_display e
  | RuntimeStore e => "durable store error: " +:+ StoreError_display e
  | RuntimeStream e => "stream error: " +:+ SequenceError_display e
  | RuntimeUnknownTask t => "unknown task: " +:+ Id_display t
  | MissingCapability t c => "task " +:+ Id_display t +:+ " requires unavailable capability " +:+ Id_display c
  | CapabilityReplayMismatch t c =>
      "task " +:+ Id_display t +:+ " capability " +:+ Id_display c +:+ " does not match its durable replay identity"
  | WorkflowReplayIdentityMismatch e a =>
      "workflow replay identity mismatch: expected " +:+ e +:+ ", durable state has " +:+ identity_or_none a
  | DefinitionMismatch e a =>
      "run definition identity mismatch: expected " +:+ e +:+ ", durable state has " +:+ identity_or_none a
  | LegacyDefinitionIdentityUnsupported d s =>
      "durable run definition identity " +:+ d +:+ " uses the ambiguous legacy " +:+
      "format and cannot authorize restore or migration; only " +:+ s +:+ " is " +:+
      "accepted, and a legacy run needs an authorized migration from its trusted " +:+
      "original definition (ADR 0008)"
  | DeclarativeMutationUnsupported o =>
      "legacy mutation " +:+ LegacyMutationOperation_display o +:+ " is unsupported for a declarative runtime"
  | PrecompletedWorkflow t => "workflow supplied with non-durable completion fact for task " +:+ Id_display t
  | AttemptIdExhausted => "task attempt identity exhausted"
  | CancelledBeforeDispatch t => "task " +:+ Id_display t +:+ " was cancelled before dispatch"
  | CancelledAfterDispatch t o =>
      "task " +:+ Id_display t +:+ " was cancelled after dispatch of " +:+ OperationId_display o
  | ReconciliationRequired o => "effect " +:+ OperationId_display o +:+ " requires reconciliation"
  | OutcomeAlreadyKnown o => "effect " +:+ OperationId_display o +:+ " already has a known outcome"
  | ProgressBackpressure => "progress stream is backpressured"
  | ExecutionBackpressure _ => "execution stream is backpressured"
  end.
