(* ===== verification/RuntimeCore.v ===== *)
(** * The coordinator: [crates/runtime-core/src/lib.rs]

    A [Runtime] owns a durable store and coordinates the workflow, the journal,
    the capability context and the observation streams of one run.  An
    operation on [&mut self] is a function from the runtime to the new runtime
    and its outcome; it keeps the state it has reached when it fails.  [tree] is
    the scope tree, which the host and its plugins change between operations. *)
From S2P Require Export RuntimeErrors.
#[local] Open Scope string_scope.
#[local] Open Scope nat_scope.
#[local] Open Scope list_scope.

(** ** Attempts, configurations and results *)
Record CapabilityPin := {
  cp_capability_id : Id;
  cp_generation : Generation;
  cp_entry_id : EntryId;
  cp_replay_identity : CapabilityReplayIdentity;
  cp_handle : CapabilityEntry
}.
Record TaskAttempt := {
  ta_run_id : RunId;
  ta_task_id : Id;
  ta_attempt_id : AttemptId;
  ta_operation_id : option OperationId;
  capability_pins : list CapabilityPin
}.
Definition attempt_capability (a : TaskAttempt) (c : Id) : option CapabilityPin :=
  snd <$> list_find (fun pin => cp_capability_id pin = c) (capability_pins a).
Record TaskConfig := { required_capabilities : gmap Id (option string); config_effect : option EffectSpec }.
Definition TaskConfig_new : TaskConfig := {| required_capabilities := ∅; config_effect := None |}.
Definition config_require (c : TaskConfig) (id : Id) : TaskConfig :=
  {| required_capabilities :=
       match required_capabilities c !! id with
       | Some _ => required_capabilities c
       | None => <[id := None]> (required_capabilities c)
       end;
     config_effect := config_effect c |}.
Definition config_require_identity (c : TaskConfig) (id : Id) (i : string) : TaskConfig :=
  {| required_capabilities := <[id := Some i]> (required_capabilities c); config_effect := config_effect c |}.
Definition config_with_effect (c : TaskConfig) (o : OperationId) (s : EffectSemantics) : TaskConfig :=
  {| required_capabilities := required_capabilities c;
     config_effect := Some {| spec_operation_id := o; spec_semantics := s |} |}.
Definition config_required (c : TaskConfig) : list Id := map_keys (required_capabilities c).

Inductive StepResult :=
  | Completed (task_id : Id) (attempt_id : AttemptId)
  | EffectPending (task_id : Id) (attempt_id : AttemptId) (operation_id : OperationId)
  | Blocked (task_id : Id) (operation_id : option OperationId) (a : RecoveryAction)
  | Idle.
Inductive Cancellation :=
  | NotDispatched (task_id : Id)
  | AlreadyDispatched (task_id : Id) (operation_id : OperationId) (attempt_id : AttemptId).
Inductive IdentityProvenance := LegacyLiveObject | DeclarativeDefinition.
#[export] Instance IdentityProvenance_eq_dec : EqDecision IdentityProvenance.
Proof. solve_decision. Defined.

(** ** The state *)
Record RuntimeStreams := {
  execution_sequencer : StreamSequencer;
  progress_sequencer : StreamSequencer;
  telemetry_sequencer : StreamSequencer;
  execution_events : LosslessBuffer RuntimeEvent;
  progress_events : CoalescingBuffer Id RuntimeEvent;
  telemetry_events : LossyBuffer RuntimeEvent
}.
Record Runtime (S : Type) := {
  runtime_run_id : RunId;
  workflow : WorkflowGraph;
  capability_runtime : ReactiveRuntime;
  journal : DurableJournal;
  store : S;
  store_revision : StoreRevision;
  identity_provenance : IdentityProvenance;
  task_configs : gmap Id TaskConfig;
  runtime_attempts : list TaskAttempt;
  pending_started : option (TaskAttempt * StreamItem RuntimeEvent);
  cancelled : gset Id;
  next_attempt_number : N;
  streams : RuntimeStreams
}.
Arguments runtime_run_id {S} _.
Arguments workflow {S} _.
Arguments capability_runtime {S} _.
Arguments journal {S} _.
Arguments store {S} _.
Arguments store_revision {S} _.
Arguments identity_provenance {S} _.
Arguments task_configs {S} _.
Arguments runtime_attempts {S} _.
Arguments pending_started {S} _.
Arguments cancelled {S} _.
Arguments next_attempt_number {S} _.
Arguments streams {S} _.

(** *** Field assignments *)
Section fields.
Context {S : Type}.
Implicit Types r : Runtime S.
Definition set_facts w j cs p c r : Runtime S :=
  {| runtime_run_id := runtime_run_id r; workflow := w; capability_runtime := capability_runtime r; journal := j;
     store := store r; store_revision := store_revision r; identity_provenance := p; task_configs := cs;
     runtime_attempts := runtime_attempts r; pending_started := pending_started r; cancelled := c;
     next_attempt_number := next_attempt_number r; streams := streams r |}.
Definition set_workflow w r := set_facts w (journal r) (task_configs r) (identity_provenance r) (cancelled r) r.
Definition set_journal j r := set_facts (workflow r) j (task_configs r) (identity_provenance r) (cancelled r) r.
Definition set_configs cs r := set_facts (workflow r) (journal r) cs (identity_provenance r) (cancelled r) r.
Definition set_provenance p r := set_facts (workflow r) (journal r) (task_configs r) p (cancelled r) r.
Definition set_cancelled c r := set_facts (workflow r) (journal r) (task_configs r) (identity_provenance r) c r.
Definition set_store st rev r : Runtime S :=
  {| runtime_run_id := runtime_run_id r; workflow := workflow r; capability_runtime := capability_runtime r;
     journal := journal r; store := st; store_revision := rev; identity_provenance := identity_provenance r;
     task_configs := task_configs r; runtime_attempts := runtime_attempts r; pending_started := pending_started r;
     cancelled := cancelled r; next_attempt_number := next_attempt_number r; streams := streams r |}.
Definition set_attempts l p n r : Runtime S :=
  {| runtime_run_id := runtime_run_id r; workflow := workflow r; capability_runtime := capability_runtime r;
     journal := journal r; store := store r; store_revision := store_revision r;
     identity_provenance := identity_provenance r; task_configs := task_configs r; runtime_attempts := l;
     pending_started := p; cancelled := cancelled r; next_attempt_number := n; streams := streams r |}.
Definition push_attempt a r :=
  set_attempts (runtime_attempts r ++ [a]) (pending_started r) (next_attempt_number r) r.
Definition set_pending p r := set_attempts (runtime_attempts r) p (next_attempt_number r) r.
Definition set_next n r := set_attempts (runtime_attempts r) (pending_started r) n r.
Definition set_streams t r : Runtime S :=
  {| runtime_run_id := runtime_run_id r; workflow := workflow r; capability_runtime := capability_runtime r;
     journal := journal r; store := store r; store_revision := store_revision r;
     identity_provenance := identity_provenance r; task_configs := task_configs r;
     runtime_attempts := runtime_attempts r; pending_started := pending_started r; cancelled := cancelled r;
     next_attempt_number := next_attempt_number r; streams := t |}.
End fields.
Definition set_execution q b (t : RuntimeStreams) : RuntimeStreams :=
  {| execution_sequencer := q; progress_sequencer := progress_sequencer t;
     telemetry_sequencer := telemetry_sequencer t; execution_events := b; progress_events := progress_events t;
     telemetry_events := telemetry_events t |}.
Definition set_progress q b (t : RuntimeStreams) : RuntimeStreams :=
  {| execution_sequencer := execution_sequencer t; progress_sequencer := q;
     telemetry_sequencer := telemetry_sequencer t; execution_events := execution_events t; progress_events := b;
     telemetry_events := telemetry_events t |}.
Definition set_telemetry q b (t : RuntimeStreams) : RuntimeStreams :=
  {| execution_sequencer := execution_sequencer t; progress_sequencer := progress_sequencer t;
     telemetry_sequencer := q; execution_events := execution_events t; progress_events := progress_events t;
     telemetry_events := b |}.

(** ** Operations, as a state and error monad *)
Definition op (S A : Type) : Type := Runtime S -> Runtime S * result RuntimeError A.
#[export] Instance op_ret {S} : MRet (op S) := fun A a r => (r, Ok a).
#[export] Instance op_bind {S} : MBind (op S) := fun A B k m r =>
  let '(r, x) := m r in
  match x with
  | Ok a => k a r
  | Err e => (r, Err e)
  | Panic p => (r, Panic p)
  | NoFuel => (r, NoFuel)
  end.
Definition lift {S E A} (into : E -> RuntimeError) (x : result E A) : op S A := fun r => (r, map_err into x).
Definition reads {S A} (f : Runtime S -> result RuntimeError A) : op S A := fun r => (r, f r).
Definition fail {S A} (e : RuntimeError) : op S A := fun r => (r, Err e).
Definition gets {S A} (f : Runtime S -> A) : op S A := fun r => (r, Ok (f r)).
Definition modify {S} (f : Runtime S -> Runtime S) : op S unit := fun r => (f r, Ok tt).
(** [expect] and [unreachable!]. *)
Definition expecting {S E A} (x : result E A) (site : string) : op S A := fun r =>
  (r, match x with Ok a => Ok a | Err _ => Panic site | Panic p => Panic p | NoFuel => NoFuel end).
Definition unreachable {S A} (site : string) : op S A := fun r => (r, Panic site).

(** The same for a state of another type: [k] runs on the state and value of a
    success. *)
Definition and_then {X E A B} (p : X * result E A) (k : X -> A -> X * result E B) : X * result E B :=
  match p.2 with
  | Ok a => k p.1 a
  | Err e => (p.1, Err e)
  | Panic site => (p.1, Panic site)
  | NoFuel => (p.1, NoFuel)
  end.

Section operations.
Context {S : Type} `{DS : DurableStore S}.
Implicit Types r : Runtime S.

(** ** Durable commits and observations *)
Definition send_commit (k : IdempotencyKey) (ms : list DurableMutation) : op S StoreRevision := fun r =>
    let '(st, x) := commit (store r)
      {| request_run_id := runtime_run_id r; expected_revision := store_revision r; idempotency_key := k;
         request_mutations := ms |} in
    match x with
    | Ok res => (set_store st (result_revision res) r, Ok (result_revision res))
    | Err e => (set_store st (store_revision r) r, Err (RuntimeStore e))
    | Panic p => (set_store st (store_revision r) r, Panic p)
    | NoFuel => (set_store st (store_revision r) r, NoFuel)
    end.
Definition commit_durable (key : string) (ms : list DurableMutation) : op S StoreRevision :=
  k ← lift RuntimeStore (IdempotencyKey_new key); send_commit k ms.
Definition emit_execution (e : RuntimeEvent) : op S (StreamItem RuntimeEvent) := fun r =>
  let '(q, x) := emit (execution_sequencer (streams r)) e in
  (set_streams (set_execution q (execution_events (streams r)) (streams r)) r, map_err RuntimeStream x).
Definition enqueue_execution (item : StreamItem RuntimeEvent) : op S unit := fun r =>
  let '(b, x) := lossless_try_push (execution_events (streams r)) item in
  (set_streams (set_execution (execution_sequencer (streams r)) b (streams r)) r,
   map_err (fun e => match e with Backpressure item => ExecutionBackpressure item end) x).
Definition emit_completed (t : Id) (a : AttemptId) : op S unit :=
  run ← gets runtime_run_id; item ← emit_execution (TaskCompleted run t a); enqueue_execution item.
Definition emit_progress (t : Id) (progress : N) : op S unit := fun r =>
  let '(q, x) := emit (progress_sequencer (streams r)) (TaskProgress t progress) in
  match x with
  | Ok item =>
      let '(b, y) := coalescing_try_push (progress_events (streams r)) {| ks_key := t; ks_item := item |} in
      (set_streams (set_progress q b (streams r)) r, map_err (fun _ => ProgressBackpressure) y)
  | Err e => (set_streams (set_progress q (progress_events (streams r)) (streams r)) r, Err (RuntimeStream e))
  | Panic p => (r, Panic p)
  | NoFuel => (r, NoFuel)
  end.
Definition emit_telemetry (message : string) : op S unit := fun r =>
  let '(q, x) := emit (telemetry_sequencer (streams r)) (Telemetry message) in
  match x with
  | Ok item => (set_streams (set_telemetry q (lossy_push (telemetry_events (streams r)) item).1 (streams r)) r, Ok tt)
  | Err e => (set_streams (set_telemetry q (telemetry_events (streams r)) (streams r)) r, Err (RuntimeStream e))
  | Panic p => (r, Panic p)
  | NoFuel => (r, NoFuel)
  end.
(** [drain_lossless], [drain_coalescing], [drain_lossy] on the buffers: a pop
    for every item, and one that finds none. *)
Fixpoint drain {B I} (pop : B -> B * option I) (fuel : nat) (b : B) : B * result Empty_set (list I) :=
  match fuel with
  | 0 => (b, NoFuel)
  | Datatypes.S fuel =>
      match pop b with
      | (b, None) => (b, Ok [])
      | (b, Some i) => let '(b, l) := drain pop fuel b in (b, cons i <$> l)
      end
  end.
Definition drain_lossless {T} (b : LosslessBuffer T) := drain lossless_pop (1 + length (ll_items b)) b.
Definition drain_coalescing {K T} (b : CoalescingBuffer K T) := drain coalescing_pop (1 + length (cb_items b)) b.
Definition drain_lossy {T} (b : LossyBuffer T) := drain lossy_pop (1 + length (ly_items b)) b.
Definition drain_execution_events r : Runtime S * result Empty_set (list (StreamItem RuntimeEvent)) :=
  let '(b, l) := drain_lossless (execution_events (streams r)) in
  (set_streams (set_execution (execution_sequencer (streams r)) b (streams r)) r, l).
Definition drain_progress_events r : Runtime S * result Empty_set (list (KeyedStreamItem Id RuntimeEvent)) :=
  let '(b, l) := drain_coalescing (progress_events (streams r)) in
  (set_streams (set_progress (progress_sequencer (streams r)) b (streams r)) r, l).
Definition drain_telemetry_events r : Runtime S * result Empty_set (list (StreamItem RuntimeEvent)) :=
  let '(b, l) := drain_lossy (telemetry_events (streams r)) in
  (set_streams (set_telemetry (telemetry_sequencer (streams r)) b (streams r)) r, l).
(** A pending start is retried in the place of [item]. *)
Definition retry_execution_event (item : StreamItem RuntimeEvent) : op S unit := fun r =>
  match pending_started r with
  | Some (a, pending) =>
      match enqueue_execution pending (set_pending None r) with
      | (r, Ok _) => (push_attempt a r, Ok tt)
      | (r, Err e) => (set_pending (Some (a, pending)) r, Err e)
      | x => x
      end
  | None => enqueue_execution item r
  end.

(** ** Workflow identity *)
Definition append_identity_part (canonical value : string) : string :=
  canonical +:+ ":" +:+ pretty (String.length value) +:+ ":" +:+ value.
Definition append_requirement (canonical : string) (c : Id * option string) : string :=
  let canonical := append_identity_part (append_identity_part canonical "capability") (Id_as_str c.1) in
  match c.2 with
  | Some i => append_identity_part (append_identity_part canonical "specified") i
  | None => append_identity_part canonical "unspecified"
  end.
Definition append_task (configs : gmap Id TaskConfig) (canonical : string) (t : Task) : string :=
  let canonical := append_identity_part canonical "task" in
  let canonical := append_identity_part canonical (Id_as_str (WorkflowGraph.task_id t)) in
  let canonical := append_identity_part canonical (label t) in
  let canonical := append_identity_part canonical "config" in
  match configs !! WorkflowGraph.task_id t with
  | Some config =>
      let canonical := foldl append_requirement canonical (map_iter (required_capabilities config)) in
      match config_effect config with
      | Some e =>
          let canonical := append_identity_part (append_identity_part canonical "effect")
            (OperationId_as_str (spec_operation_id e)) in
          append_identity_part canonical
            match spec_semantics e with Idempotent => "idempotent" | NonIdempotent => "non-idempotent" end
      | None => append_identity_part canonical "no-effect"
      end
  | None => append_identity_part canonical "no-effect"
  end.
Definition legacy_workflow_replay_identity (w : WorkflowGraph) (configs : gmap Id TaskConfig) :
  result StoreError WorkflowReplayIdentity :=
  let canonical := append_identity_part "kernis-workflow-replay-v1" "tasks" in
  let canonical := foldl (append_task configs) canonical (topology_tasks (topology w)) in
  let canonical := append_identity_part canonical "edges" in
  WorkflowReplayIdentity_new
    (foldl (fun c e => append_identity_part (append_identity_part c (Id_as_str e.1)) (Id_as_str e.2)) canonical
       (topology_edges (topology w))).
Definition commit_workflow_identity (i : WorkflowReplayIdentity) : op S StoreRevision :=
  rev ← gets store_revision;
  commit_durable ("workflow-identity:" +:+ pretty (StoreRevision_get rev) +:+ ":" +:+ i)
    [RecordWorkflowReplayIdentity i].
Definition ensure_legacy_mutation_allowed (o : LegacyMutationOperation) : op S unit :=
  p ← gets identity_provenance;
  if bool_decide (p = DeclarativeDefinition) then fail (DeclarativeMutationUnsupported o) else mret tt.
Definition configure_task (t : Id) (config : TaskConfig) : op S unit :=
  _ ← ensure_legacy_mutation_allowed ConfigureTask;
  w ← gets workflow;
  match graph_task w t with
  | None => fail (RuntimeUnknownTask t)
  | Some _ =>
      configs ← gets (fun r => <[t := config]> (task_configs r));
      i ← lift RuntimeStore (legacy_workflow_replay_identity w configs);
      _ ← commit_workflow_identity i;
      modify (set_configs configs)
  end.
Definition apply_workflow_mutation (expected : Revision) (batch : MutationBatch) : op S WorkflowMutationRecord :=
  _ ← ensure_legacy_mutation_allowed ApplyWorkflowMutation;
  w ← gets workflow;
  let '(candidate, x) := apply_batch w expected batch in
  record ← lift RuntimeWorkflow x;
  configs ← gets task_configs;
  i ← lift RuntimeStore (legacy_workflow_replay_identity candidate configs);
  _ ← commit_workflow_identity i;
  _ ← modify (set_workflow candidate);
  mret record.

(** ** Capability pins *)
Definition capture_pin (tree : Scope.Runtime) (c : CapabilityContext) (t : Id) (pins : list CapabilityPin)
  (required : Id * option string) : result RuntimeError (list CapabilityPin) :=
  h ← ok_or (context_get tree tree c required.1) (MissingCapability t required.1);
  _ ← match required.2 with
      | Some i =>
          if bool_decide (i <> replay_identity (definition h)) then Err (CapabilityReplayMismatch t required.1)
          else Ok tt
      | None => Ok tt
      end;
  Ok (pins ++ [{| cp_capability_id := required.1; cp_generation := generation h; cp_entry_id := entry_id h;
       cp_replay_identity := {| capability_id := required.1; definition_identity := replay_identity (definition h) |};
       cp_handle := h |}]).
(** The pins are those that were admitted. *)
Definition pins_expected (expected : list CapabilityReplayIdentity) (pins : list CapabilityPin) : bool :=
  let by_id := foldl (fun m i => <[capability_id i := i]> m) (∅ : gmap Id CapabilityReplayIdentity) expected in
  (size by_id =? length pins) &&
  forallb (fun p => bool_decide (by_id !! cp_capability_id p = Some (cp_replay_identity p))) pins.
Definition mismatched_capability (expected : list CapabilityReplayIdentity) (pins : list CapabilityPin) : Id :=
  match pins with
  | p :: _ => cp_capability_id p
  | [] => default "durable-capability-mismatch" (head (set_iter (list_to_set (capability_id <$> expected) : gset Id)))
  end.
Definition capture_capability_pins (tree : Scope.Runtime) (t : Id) (expected : option (list CapabilityReplayIdentity))
  r : result RuntimeError (list CapabilityPin) :=
  let required := match task_configs r !! t with
                  | Some config => map_iter (required_capabilities config)
                  | None => []
                  end in
  pins ← foldM (capture_pin tree (reactive_context (capability_runtime r)) t) required [];
  match expected with
  | Some expected =>
      if pins_expected expected pins then Ok pins
      else Err (CapabilityReplayMismatch t (mismatched_capability expected pins))
  | None => Ok pins
  end.

(** ** Attempts *)
Definition owns_attempt (t : Id) (o : option OperationId) (a : TaskAttempt) : Prop :=
  ta_task_id a = t /\ ta_operation_id a = o.
#[export] Instance owns_attempt_dec t o a : Decision (owns_attempt t o a) := ltac:(unfold owns_attempt; apply _).
Definition attempt_for_task r (t : Id) (o : option OperationId) : option AttemptId :=
  match pending_started r with
  | Some (a, _) => if decide (owns_attempt t o a) then Some (ta_attempt_id a) else ta_attempt_id <$> last (filter (owns_attempt t o) (runtime_attempts r))
  | None => ta_attempt_id <$> last (filter (owns_attempt t o) (runtime_attempts r))
  end.
Definition pending_attempt r (t : Id) (o : OperationId) : option AttemptId := attempt_for_task r t (Some o).
Definition attempt_name (run : RunId) (n : N) : string := RunId_display run +:+ "-attempt-" +:+ pretty n.
Definition admission_of (a : TaskAttempt) : AttemptAdmission :=
  {| admission_run_id := ta_run_id a; admission_task_id := ta_task_id a; admission_attempt_id := ta_attempt_id a;
     admission_operation_id := ta_operation_id a; capabilities := cp_replay_identity <$> capability_pins a |}.
(** A start whose observation finds the stream full is left pending. *)
Definition record_started (a : TaskAttempt) (item : StreamItem RuntimeEvent) : op S AttemptId := fun r =>
  match enqueue_execution item r with
  | (r, Ok _) => (push_attempt a r, Ok (ta_attempt_id a))
  | (r, Err (ExecutionBackpressure item)) => (set_pending (Some (a, item)) r, Err (ExecutionBackpressure item))
  | (r, Err e) => (r, Err e)
  | (r, Panic p) => (r, Panic p)
  | (r, NoFuel) => (r, NoFuel)
  end.
Definition begin_attempt (tree : Scope.Runtime) (t : Id) (o : option OperationId) : op S AttemptId :=
  pins ← reads (capture_capability_pins tree t None);
  run ← gets runtime_run_id;
  n ← gets next_attempt_number;
  a ← expecting (AttemptId_new (attempt_name run n)) "generated attempt identity is non-empty";
  let attempt := {| ta_run_id := run; ta_task_id := t; ta_attempt_id := a; ta_operation_id := o;
                    capability_pins := pins |} in
  _ ← commit_durable ("admit:" +:+ AttemptId_display a) [AdmitAttempt (admission_of attempt)];
  n ← lift id (ok_or (checked_succ n) AttemptIdExhausted);
  _ ← modify (set_next n);
  item ← emit_execution (TaskStarted run t a);
  record_started attempt item.
Definition attempt_or_begin (tree : Scope.Runtime) (t : Id) (o : option OperationId) : op S AttemptId :=
  existing ← gets (fun r => attempt_for_task r t o);
  match existing with Some a => mret a | None => begin_attempt tree t o end.
Definition complete_task (t : Id) (a : AttemptId) : op S unit :=
  w ← gets workflow;
  let '(candidate, x) := complete w t in
  _ ← lift RuntimeWorkflow x;
  _ ← commit_durable ("completion:" +:+ Id_display t +:+ ":" +:+ AttemptId_display a)
        [RecordCompletion {| completion_task_id := t; completion_attempt_id := a |}];
  _ ← modify (set_workflow candidate);
  emit_completed t a.

(** ** Effects *)
Definition record_effect_intent (t : Id) (o : OperationId) (s : EffectSemantics) : op S unit :=
  w ← gets workflow;
  match graph_task w t with
  | None => fail (RuntimeUnknownTask t)
  | Some _ =>
      if WorkflowGraph.is_completed w t then fail (RuntimeWorkflow (TaskAlreadyCompleted t))
      else
        let i := {| intent_task_id := t; intent_operation_id := o; semantics := s |} in
        j ← gets journal;
        candidate ← lift RuntimeJournal (persist_intent j i);
        _ ← commit_durable ("intent:" +:+ OperationId_display o) [RecordIntent i];
        modify (set_journal candidate)
  end.
Definition record_dispatch (o : OperationId) (a : AttemptId) : op S AttemptId :=
  let d := {| dispatch_operation_id := o; dispatch_attempt_id := a |} in
  j ← gets journal;
  candidate ← lift RuntimeJournal (persist_dispatch j d);
  _ ← commit_durable ("dispatch:" +:+ AttemptId_display a) [RecordDispatch d];
  _ ← modify (set_journal candidate);
  mret a.
Definition dispatch_effect (tree : Scope.Runtime) (o : OperationId) : op S AttemptId :=
  j ← gets journal;
  i ← lift RuntimeJournal (journal_intent j o);
  let state := journal_state j o in
  c ← gets cancelled;
  if bool_decide (intent_task_id i ∈ c)
  then match state with
       | OutcomeUnknown => fail (CancelledAfterDispatch (intent_task_id i) o)
       | _ => fail (CancelledBeforeDispatch (intent_task_id i))
       end
  else
    a ← match state with
        | Prepared => attempt_or_begin tree (intent_task_id i) (Some o)
        | OutcomeUnknown =>
            if bool_decide (semantics i = NonIdempotent) then fail (ReconciliationRequired o)
            else begin_attempt tree (intent_task_id i) (Some o)
        | OutcomeKnown _ => fail (OutcomeAlreadyKnown o)
        | NotPrepared => unreachable "intent lookup proved prepared"
        end;
    record_dispatch o a.
Definition record_effect_outcome (o : OperationId) (a : AttemptId) (x : KnownEffectOutcome) : op S unit :=
  let record := {| outcome_operation_id := o; outcome_attempt_id := a; outcome := x |} in
  j ← gets journal;
  candidate ← lift RuntimeJournal (persist_outcome j record);
  _ ← commit_durable ("outcome:" +:+ AttemptId_display a) [RecordOutcome record];
  modify (set_journal candidate).
Definition recover (o : OperationId) : op S RecoveryDecision :=
  d ← reads (fun r => map_err RuntimeJournal (classify_recovery (workflow r) (journal r) o));
  if bool_decide (action d = CompleteWithoutReexecution)
  then
    j ← gets journal;
    i ← lift RuntimeJournal (journal_intent j o);
    record ← lift id (expect (known_outcome j o) "complete decision requires a known outcome");
    w ← gets workflow;
    _ ← if WorkflowGraph.is_completed w (intent_task_id i) then mret tt
        else complete_task (intent_task_id i) (outcome_attempt_id record);
    mret d
  else mret d.
Definition cancel_task (t : Id) : op S Cancellation :=
  w ← gets workflow;
  match graph_task w t with
  | None => fail (RuntimeUnknownTask t)
  | Some _ =>
      j ← gets journal;
      run ← gets runtime_run_id;
      let o := journal_operation_for_task j t in
      a ← gets (fun r => o ← o; attempt_for_task r t (Some o));
      let dispatched := o ← o; journal_latest_dispatch j o in
      _ ← commit_durable ("cancel:" +:+ Id_display t)
            [RecordCancellation {| cancellation_run_id := run; cancellation_task_id := t;
               cancellation_operation_id := o; cancellation_attempt_id := a |}];
      c ← gets cancelled;
      _ ← modify (set_cancelled ({[t]} ∪ c));
      mret match o, dispatched with
           | Some o, Some d => AlreadyDispatched t o (dispatch_attempt_id d)
           | _, _ => NotDispatched t
           end
  end.

(** ** The scheduler *)
Definition ensure_configured_effect (t : Id) : op S (option (OperationId * EffectSemantics)) :=
  j ← gets journal;
  match journal_operation_for_task j t with
  | Some o => i ← lift RuntimeJournal (journal_intent j o); mret (Some (o, semantics i))
  | None =>
      configs ← gets task_configs;
      match configs !! t ≫= config_effect with
      | None => mret None
      | Some e =>
          _ ← record_effect_intent t (spec_operation_id e) (spec_semantics e);
          mret (Some (spec_operation_id e, spec_semantics e))
      end
  end.
Definition step_effect (tree : Scope.Runtime) (t : Id) (o : OperationId) : op S StepResult :=
  j ← gets journal;
  match journal_state j o with
  | Prepared => a ← attempt_or_begin tree t (Some o); mret (EffectPending t a o)
  | OutcomeUnknown =>
      d ← reads (fun r => map_err RuntimeJournal (classify_recovery (workflow r) (journal r) o));
      mret (Blocked t (Some o) (action d))
  | OutcomeKnown Succeeded =>
      record ← lift id (expect (known_outcome j o) "known success has outcome");
      _ ← complete_task t (outcome_attempt_id record);
      mret (Completed t (outcome_attempt_id record))
  | OutcomeKnown Failed => mret (Blocked t (Some o) ObserveFailure)
  | NotPrepared => unreachable "configured effect is persisted"
  end.
Definition step_task (tree : Scope.Runtime) (t : Id) : op S StepResult :=
  operation ← ensure_configured_effect t;
  match operation with
  | None =>
      a ← attempt_or_begin tree t None;
      _ ← complete_task t a;
      mret (Completed t a)
  | Some (o, _) => step_effect tree t o
  end.
(** The first ready task that is not cancelled. *)
Definition next_ready r : option Id := head (filter (fun t => t ∉ cancelled r) (ready_tasks (workflow r))).
Definition step (tree : Scope.Runtime) : op S StepResult := fun r =>
  match pending_started r with
  | Some (_, item) => (r, Err (ExecutionBackpressure item))
  | None => match next_ready r with Some t => step_task tree t r | None => (r, Ok Idle) end
  end.
Fixpoint run_rounds (fuel : nat) (tree : Scope.Runtime) (results : list StepResult) : op S (list StepResult) :=
  match fuel with
  | 0 => fun r => (r, NoFuel)
  | Datatypes.S fuel =>
      x ← step tree;
      match x with
      | Completed _ _ => run_rounds fuel tree (results ++ [x])
      | _ => mret (results ++ [x])
      end
  end.
(** Every round but the last completes a task. *)
Definition run_fuel r : nat := 1 + size (tasks (topology (workflow r))).
Definition run_until_blocked (tree : Scope.Runtime) : op S (list StepResult) := fun r =>
  run_rounds (run_fuel r) tree [] r.

(** ** Assembly *)
Definition streams_new : result RuntimeError RuntimeStreams :=
  let sequencer v := expect (match Id_new v with Ok id => Some (StreamSequencer_new id) | _ => None end)
                       "static stream identity is non-empty" in
  let buffer {B} (b : result BufferError B) site := expect (match b with Ok b => Some b | _ => None end) site in
  execution ← sequencer "runtime-events";
  progress ← sequencer "runtime-progress";
  telemetry ← sequencer "runtime-telemetry";
  events ← buffer (LosslessBuffer_new 128) "runtime event capacity is nonzero";
  updates ← buffer (CoalescingBuffer_new 8) "runtime progress capacity is nonzero";
  samples ← buffer (LossyBuffer_new 1) "runtime telemetry capacity is nonzero";
  Ok {| execution_sequencer := execution; progress_sequencer := progress; telemetry_sequencer := telemetry;
        execution_events := events; progress_events := updates; telemetry_events := samples |}.
Definition build (run : RunId) (w : WorkflowGraph) (scope : ScopeId) (configs : gmap Id TaskConfig)
  (j : DurableJournal) (st : S) (rev : StoreRevision) : result RuntimeError (Runtime S) :=
  t ← streams_new;
  Ok {| runtime_run_id := run; workflow := w; capability_runtime := ReactiveRuntime_new (from_scope scope); journal := j;
        store := st; store_revision := rev; identity_provenance := LegacyLiveObject; task_configs := configs;
        runtime_attempts := []; pending_started := None; cancelled := ∅; next_attempt_number := 1%N; streams := t |}.
Definition ensure_unfinished_workflow (w : WorkflowGraph) : result RuntimeError unit :=
  match completion_log w with [] => Ok tt | c :: _ => Err (PrecompletedWorkflow (cr_task_id c)) end.
Definition collect_task_config (w : WorkflowGraph) (configs : gmap Id TaskConfig) (c : Id * TaskConfig) :
  result RuntimeError (gmap Id TaskConfig) :=
  match graph_task w c.1 with None => Err (RuntimeUnknownTask c.1) | Some _ => Ok (<[c.1 := c.2]> configs) end.
Definition collect_task_configs (w : WorkflowGraph) (configs : list (Id * TaskConfig)) :
  result RuntimeError (gmap Id TaskConfig) := foldM (collect_task_config w) configs ∅.
Definition config_of (t : TaskDefinition) : TaskConfig :=
  let config := foldl (fun c q => config_require_identity c (required_capability_id q) (required_identity q))
                  TaskConfig_new (td_required t) in
  match td_effect t with
  | Some e => config_with_effect config (spec_operation_id e) (spec_semantics e)
  | None => config
  end.
Definition runtime_inputs (v : ValidatedRunDefinition) : result RuntimeError (WorkflowGraph * gmap Id TaskConfig) :=
  let configs := foldl (fun m t => <[td_id t := config_of t]> m) ∅ (map_values (validated_tasks v)) in
  let mutations := workflow_mutations (validated_tasks v) in
  let w := WorkflowGraph_default in
  if bool_decide (mutations = []) then Ok (w, configs)
  else
    let '(w, x) := apply_batch w (topology_revision w) mutations in
    _ ← map_err RuntimeWorkflow x; Ok (w, configs).

(** *** Capabilities of a declarative run

    [host_calls] are the capabilities whose factories were called, and [build_value]
    is what the factories answer, a function of the calls before. *)
Record host := { host_tree : Scope.Runtime; host_calls : list Id }.
Definition publish_declared (build_value : list Id -> CapabilityFactory -> gmap CapabilityId CapabilityEntry -> string + CapabilityValue)
  (scope : ScopeId) (c : CapabilityDeclaration) (f : CapabilityFactory) (h : host) : host * result RuntimeError unit :=
  let d := capability_definition c in
  let calls := match publish_plan (host_tree h) scope d New with
               | Ok _ => host_calls h ++ [declared_id c]
               | _ => host_calls h
               end in
  let '(tree, x) := provide (host_tree h) scope d (build_value (host_calls h) f) in
  ({| host_tree := tree; host_calls := calls |},
   match x with
   | Ok _ => Ok tt
   | Err (ConstructionFailed _ reason) =>
       Err (RuntimeFactory (FactoryConstructionFailed (declared_id c) (declared_identity c) reason))
   | Err e => Err (RuntimeReconstruction (CapabilityPublication (declared_id c) e))
   | Panic p => Panic p
   | NoFuel => NoFuel
   end).
Fixpoint publish_all (build_value : list Id -> CapabilityFactory -> gmap CapabilityId CapabilityEntry -> string + CapabilityValue)
  (v : ValidatedRunDefinition) (fs : FactoryRegistry) (scope : ScopeId) (order : list Id) (h : host) :
  host * result RuntimeError unit :=
  match order with
  | [] => (h, Ok tt)
  | id :: order =>
      match validated_capabilities v !! id with
      | None => (h, Err (RuntimeReconstruction (ReconstructionInvariantViolation
                   ("resolved unknown capability " +:+ Id_display id))))
      | Some c =>
          match factory_for fs (declared_id c) (declared_identity c) with
          | None => (h, Err (RuntimeReconstruction (ReconstructionInvariantViolation
                       ("prevalidated factory disappeared for capability " +:+ Id_display (declared_id c)
                        +:+ " definition " +:+ declared_identity c))))
          | Some f =>
              and_then (publish_declared build_value scope c f h) (fun h _ => publish_all build_value v fs scope order h)
          end
      end
  end.
(** The scope is a new root, the [n]th. *)
Definition reconstruct_scope (build_value : list Id -> CapabilityFactory -> gmap CapabilityId CapabilityEntry -> string + CapabilityValue)
  (v : ValidatedRunDefinition) (fs : FactoryRegistry) (n : nat) (h : host) : host * result RuntimeError ScopeId :=
  let graph := foldl (fun g c => (graph_insert g (capability_definition c)).1)
                 CapabilityGraph_default (map_values (validated_capabilities v)) in
  and_then (h, map_err (fun e => RuntimeReconstruction (ReconstructionGraph e)) (resolve graph)) (fun h resolution =>
  let h := {| host_tree := root (host_tree h) n; host_calls := host_calls h |} in
  and_then (publish_all build_value v fs [n] (construction_order resolution) h) (fun h _ => (h, Ok [n]))).

(** ** Starting *)
(** A fresh run, or one that was created and never written to. *)
Definition create_or_adopt (run : RunId) (st : S) : S * result RuntimeError StoreRevision :=
  match create_run st run with
  | (st, Err (RunAlreadyExists existing)) =>
      let '(st, x) := load_run st run in
      and_then (st, map_err RuntimeStore x) (fun st state =>
      (st, if is_pristine_bootstrap state then Ok StoreRevision_INITIAL
           else Err (RuntimeStore (RunAlreadyExists existing))))
  | (st, x) => (st, map_err RuntimeStore x)
  end.
(** The store is returned beside the outcome: a durable store outlives the
    runtime that fails to start. *)
Definition started : Type := S * result RuntimeError (Runtime S).
Definition start_with_identity (run : RunId) (w : WorkflowGraph) (scope : ScopeId) (configs : gmap Id TaskConfig)
  (i : WorkflowReplayIdentity) (p : IdentityProvenance) (st : S) : started :=
  and_then (st, ensure_unfinished_workflow w) (fun st _ =>
  and_then (create_or_adopt run st) (fun st created =>
  and_then (st, map_err RuntimeStore (IdempotencyKey_new "workflow-replay-identity")) (fun st k =>
  let '(st, x) := commit st (CommitRequest_single run created k (RecordWorkflowReplayIdentity i)) in
  and_then (st, map_err RuntimeStore x) (fun st res =>
  (st, r ← build run w scope configs DurableJournal_new st (result_revision res); Ok (set_provenance p r)))))).
Definition start_inputs (w : WorkflowGraph) (configs : list (Id * TaskConfig)) :
  result RuntimeError (gmap Id TaskConfig * WorkflowReplayIdentity) :=
  _ ← ensure_unfinished_workflow w;
  configs ← collect_task_configs w configs;
  i ← map_err RuntimeStore (legacy_workflow_replay_identity w configs);
  Ok (configs, i).
Definition start_run_with_store (run : RunId) (w : WorkflowGraph) (scope : ScopeId) (configs : list (Id * TaskConfig))
  (st : S) : started :=
  and_then (st, start_inputs w configs) (fun st x =>
  start_with_identity run w scope x.1 x.2 LegacyLiveObject st).

(** ** Restoring *)
Definition replay_error (e : WorkflowGraphError) : StoreInvariant :=
  match e with
  | WorkflowGraph.UnknownTask t => CompletionUnknownTask t
  | IncompletePrerequisite t d => CompletionPrerequisiteMismatch t d
  | TaskAlreadyCompleted t => CompletionReplayRejected (Some t) "task completion was replayed twice"
  | other => CompletionReplayRejected None (WorkflowGraphError_display other)
  end.
Definition replay_workflow (supplied : WorkflowGraph) (completions : list Durable.CompletionRecord) :
  result RuntimeError WorkflowGraph :=
  map_err (fun e => RuntimeStore (InvariantViolation (replay_error e)))
    (replay_with_facts (mutation_log supplied) ((fun c => {| cr_task_id := completion_task_id c |}) <$> completions)).
(** One admitted attempt, its pins captured again. *)
Definition restore_attempt (tree : Scope.Runtime) r (x : AttemptAdmission) : result RuntimeError (Runtime S) :=
  pins ← capture_capability_pins tree (admission_task_id x) (Some (capabilities x)) r;
  Ok (push_attempt {| ta_run_id := admission_run_id x; ta_task_id := admission_task_id x;
        ta_attempt_id := admission_attempt_id x; ta_operation_id := admission_operation_id x;
        capability_pins := pins |} r).
(** [count() as u64 + 1] *)
Definition next_attempt_after (n : nat) : N := ((N.of_nat n mod 2 ^ 64 + 1) mod 2 ^ 64)%N.
Definition restore_loaded (tree : Scope.Runtime) (run : RunId) (w : WorkflowGraph) (scope : ScopeId)
  (configs : gmap Id TaskConfig) (st : S) (p : IdentityProvenance) (state : DurableRunState) :
  result RuntimeError (Runtime S) :=
  w ← replay_workflow w (completion_history state);
  j ← map_err RuntimeJournal (from_durable_state state);
  r ← build run w scope configs j st (revision state);
  let r := set_cancelled (list_to_set (cancellation_task_id <$> cancellations_iter state)) (set_provenance p r) in
  r ← foldM (restore_attempt tree) (attempts state) r;
  Ok (set_next (next_attempt_after (length (attempts state))) r).
Definition load_of (run : RunId) (st : S) : S * result RuntimeError DurableRunState :=
  let '(st, x) := load_run st run in (st, map_err RuntimeStore x).
Definition restore_run (tree : Scope.Runtime) (run : RunId) (w : WorkflowGraph) (scope : ScopeId)
  (configs : list (Id * TaskConfig)) (st : S) : started :=
  and_then (st, _ ← ensure_unfinished_workflow w; collect_task_configs w configs) (fun st configs =>
  and_then (load_of run st) (fun st state =>
  (st, i ← map_err RuntimeStore (legacy_workflow_replay_identity w configs);
       if bool_decide (workflow_replay_identity state <> Some i)
       then Err (WorkflowReplayIdentityMismatch i (workflow_replay_identity state))
       else restore_loaded tree run w scope configs st LegacyLiveObject state))).
Definition durable_state r : Runtime S * result RuntimeError DurableRunState :=
  let '(st, x) := load_of (runtime_run_id r) (store r) in (set_store st (store_revision r) r, x).

(** *** The identity gate *)
Definition LEGACY_RUN_DEFINITION_FORMAT_V1 : string := "kernis-run-definition-v1".
Definition is_legacy_run_definition_identity (i : string) : bool :=
  String.eqb i LEGACY_RUN_DEFINITION_FORMAT_V1 || String.prefix (LEGACY_RUN_DEFINITION_FORMAT_V1 +:+ ":") i.
Definition ensure_restorable_definition_identity (computed : WorkflowReplayIdentity)
  (durable : option WorkflowReplayIdentity) : result RuntimeError unit :=
  match durable with
  | None => Err (DefinitionMismatch computed None)
  | Some durable =>
      if is_legacy_run_definition_identity durable
      then Err (LegacyDefinitionIdentityUnsupported durable RUN_DEFINITION_FORMAT)
      else if bool_decide (durable <> computed) then Err (DefinitionMismatch computed (Some durable))
      else Ok tt
  end.

(** *** Declarative runs *)
Section declarative.
Context `{SF : StoreFormat}.
Context (build_value : list Id -> CapabilityFactory -> gmap CapabilityId CapabilityEntry -> string + CapabilityValue).
Definition preflight (d : RunDefinition) (fs : FactoryRegistry) : result RuntimeError ValidatedRunDefinition :=
  v ← map_err RuntimeDefinition (validated d);
  _ ← map_err RuntimeFactory (validate_registry fs v);
  Ok v.
(** Inputs and scope; [n] numbers the new root. *)
Definition reconstruct (v : ValidatedRunDefinition) (fs : FactoryRegistry) (n : nat) (h : host) :
  host * result RuntimeError (WorkflowGraph * gmap Id TaskConfig * ScopeId) :=
  and_then (h, runtime_inputs v) (fun h x =>
  and_then (reconstruct_scope build_value v fs n h) (fun h scope => (h, Ok (x, scope)))).
Definition start_from_definition_with_store (run : RunId) (d : RunDefinition) (fs : FactoryRegistry) (n : nat) (h : host)
  (st : S) : (host * S) * result RuntimeError (Runtime S) :=
  and_then (h, st, preflight d fs) (fun '(h, st) v =>
  let '(h, x) := reconstruct v fs n h in
  and_then (h, st, x) (fun '(h, st) '(w, configs, scope) =>
  let '(st, r) := start_with_identity run w scope configs (validated_identity v) DeclarativeDefinition st in
  (h, st, r))).
Definition restore_from_definition (run : RunId) (d : RunDefinition) (fs : FactoryRegistry) (n : nat) (h : host) (st : S) :
  (host * S) * result RuntimeError (Runtime S) :=
  and_then (h, st, preflight d fs) (fun '(h, st) v =>
  let '(st, x) := load_of run st in
  and_then (h, st, x) (fun '(h, st) state =>
  and_then (h, st, ensure_restorable_definition_identity (validated_identity v) (workflow_replay_identity state))
    (fun '(h, st) _ =>
  let '(h, x) := reconstruct v fs n h in
  and_then (h, st, x) (fun '(h, st) '(w, configs, scope) =>
  (h, st, restore_loaded (host_tree h) run w scope configs st DeclarativeDefinition state))))).
End declarative.
End operations.
Arguments op : clear implicits.
Arguments started : clear implicits.
