(* ===== verification/RuntimeView.v ===== *)
(** * What a runtime knows of its durable run

    The journal a runtime keeps in memory is the one [from_durable_state]
    rebuilds from the durable facts, before and after every mutation the
    runtime commits; and a mutation in the ledger of a run has taken effect. *)
From S2P Require Export RuntimeCore.
#[local] Open Scope string_scope.
#[local] Open Scope nat_scope.
#[local] Open Scope list_scope.

(** ** A journal is determined by what it answers *)
Definition tidy (j : DurableJournal) : Prop := forall o, operation_attempts j !! o <> Some [].
Lemma persist_tidy j f j' : tidy j -> persist j f = Ok j' -> tidy j'.
Proof.
  intros Ht. destruct f as [i|x|x]; simpl; unfold persist_intent, persist_dispatch, persist_outcome;
    repeat case_match; try done; intros [= <-]; try done.
  intros o. simpl. intros [[_ Hl]|[_ Hl]]%lookup_insert_Some; [by destruct (default _ _)|by apply (Ht o)].
Qed.
Lemma persist_all_tidy fs j : persist_all fs = Ok j -> tidy j.
Proof.
  apply (foldM_invariant tidy); [intros ? ? ? _; apply persist_tidy|]. by intros o.
Qed.
Lemma journal_determined fs fs' j j' :
  journal_of_log fs j -> journal_of_log fs' j' -> tidy j -> tidy j' ->
  (forall o, log_intent fs o = log_intent fs' o) -> (forall t, log_owner fs t = log_owner fs' t) ->
  log_dispatches fs = log_dispatches fs' -> log_outcomes fs = log_outcomes fs' -> j = j'.
Proof.
  intros J J' Ht Ht' Hi Ho Hd Hr.
  assert (journal_intents j = journal_intents j') as E1.
  { apply map_eq. intros o. by rewrite (jl_intents _ _ J), (jl_intents _ _ J'). }
  assert (journal_task_operations j = journal_task_operations j') as E2.
  { apply map_eq. intros t. by rewrite (jl_owners _ _ J), (jl_owners _ _ J'). }
  assert (journal_dispatches j = journal_dispatches j') as E3.
  { apply map_eq. intros a. by rewrite (jl_dispatches _ _ J), (jl_dispatches _ _ J'), Hd. }
  assert (operation_attempts j = operation_attempts j') as E4.
  { apply map_eq. intros o. specialize (Ht o). specialize (Ht' o).
    pose proof (jl_attempts _ _ J o) as Ha. pose proof (jl_attempts _ _ J' o) as Ha'.
    rewrite Hd, <- Ha' in Ha.
    destruct (operation_attempts j !! o) as [[|]|], (operation_attempts j' !! o) as [[|]|]; naive_solver. }
  assert (journal_outcomes j = journal_outcomes j') as E5.
  { apply map_eq. intros a. rewrite (jl_outcomes _ _ J), (jl_outcomes _ _ J'). unfold log_outcome. by rewrite Hr. }
  destruct j, j'; simpl in *; congruence.
Qed.

(** ** The journal of a run, one mutation later *)
Lemma from_durable_state_same d d' :
  intents d' = intents d -> dispatch_history d' = dispatch_history d ->
  outcome_history d' = outcome_history d -> from_durable_state d' = from_durable_state d.
Proof. unfold from_durable_state, intents_iter. by intros -> -> ->. Qed.

Lemma log_intent_snoc fs f o :
  log_intent (fs ++ [f]) o =
  match log_intent fs o with
  | Some i => Some i
  | None => match f with
            | FactIntent i => if decide (intent_operation_id i = o) then Some i else None
            | _ => None
            end
  end.
Proof.
  unfold log_intent. rewrite log_intents_snoc. destruct f; rewrite ?app_nil_r; try by case_match.
  by rewrite head_filter_snoc.
Qed.
Lemma log_owner_snoc fs f t :
  log_owner (fs ++ [f]) t =
  match log_owner fs t with
  | Some o => Some o
  | None => match f with
            | FactIntent i => if decide (intent_task_id i = t) then Some (intent_operation_id i) else None
            | _ => None
            end
  end.
Proof.
  unfold log_owner. rewrite log_intents_snoc. destruct f; rewrite ?app_nil_r; try by case_match.
  rewrite head_filter_snoc. destruct (head _); [done|]. by destruct (decide _).
Qed.

Section one_more.
Context (d : DurableRunState) (L : lineage d) (j : DurableJournal) (Hj : from_durable_state d = Ok j).

Lemma view_log : journal_of_log (durable_facts d) j.
Proof. destruct (from_durable_state_Ok d L) as (x & Hx & J). congruence. Qed.
Lemma view_intents o : journal_intents j !! o = intents d !! o.
Proof. rewrite (jl_intents _ _ view_log). by apply log_intent_run. Qed.
Lemma view_owners t : journal_task_operations j !! t = task_operations d !! t.
Proof. rewrite (jl_owners _ _ view_log). by apply log_owner_run. Qed.
Lemma view_dispatches a : journal_dispatches j !! a = dispatches d !! a.
Proof.
  rewrite (jl_dispatches _ _ view_log). unfold durable_facts. rewrite log_dispatches_mixed.
  symmetry. apply L.
Qed.
Lemma view_outcomes a : journal_outcomes j !! a = outcomes d !! a.
Proof. rewrite (jl_outcomes _ _ view_log), log_outcome_run by done. done. Qed.
Lemma view_tidy : tidy j.
Proof. rewrite from_durable_state_facts in Hj. by eapply persist_all_tidy. Qed.

(** The fact [f] persisted in memory and the mutation that makes it durable. *)
Lemma view_after f d' j' :
  lineage d' -> persist j f = Ok j' ->
  (forall o, log_intent (durable_facts d ++ [f]) o = intents d' !! o) ->
  (forall t, log_owner (durable_facts d ++ [f]) t = task_operations d' !! t) ->
  log_dispatches (durable_facts d ++ [f]) = dispatch_history d' ->
  log_outcomes (durable_facts d ++ [f]) = outcome_history d' -> from_durable_state d' = Ok j'.
Proof.
  intros L' Hp Hi Ho Hd Hr. destruct (from_durable_state_Ok d' L') as (x & Hx & J).
  rewrite Hx. f_equal. eapply (journal_determined _ (durable_facts d ++ [f])); [exact J| | | | | | |].
  - destruct f; [eapply journal_of_log_intent|eapply journal_of_log_dispatch|eapply journal_of_log_outcome];
      first [apply view_log|exact Hp].
  - rewrite from_durable_state_facts in Hx. by eapply persist_all_tidy.
  - eapply persist_tidy; [apply view_tidy|exact Hp].
  - intros o. rewrite Hi. unfold durable_facts. by rewrite log_intent_run.
  - intros t. rewrite Ho. unfold durable_facts. by rewrite log_owner_run.
  - rewrite Hd. unfold durable_facts. by rewrite log_dispatches_mixed.
  - rewrite Hr. unfold durable_facts. by rewrite log_outcomes_mixed.
Qed.
Lemma log_dispatches_next f :
  log_dispatches (durable_facts d ++ [f]) =
  dispatch_history d ++ match f with FactDispatch x => [x] | _ => [] end.
Proof. rewrite log_dispatches_snoc. unfold durable_facts. by rewrite log_dispatches_mixed. Qed.
Lemma log_outcomes_next f :
  log_outcomes (durable_facts d ++ [f]) =
  outcome_history d ++ match f with FactOutcome x => [x] | _ => [] end.
Proof. rewrite log_outcomes_snoc. unfold durable_facts. by rewrite log_outcomes_mixed. Qed.
Lemma log_intent_facts o : log_intent (durable_facts d) o = intents d !! o.
Proof. unfold durable_facts. by rewrite log_intent_run. Qed.
Lemma log_owner_facts t : log_owner (durable_facts d) t = task_operations d !! t.
Proof. unfold durable_facts. by rewrite log_owner_run. Qed.

Lemma view_intent i j' d' :
  persist_intent j i = Ok j' -> apply_mutation d (RecordIntent i) = Ok d' -> from_durable_state d' = Ok j'.
Proof.
  intros Hp Ha. pose proof (lineage_apply _ _ _ L Ha) as L'.
  assert (Hok : is_Ok (persist_intent j i)) by by exists j'.
  apply (persist_intent_Ok _ _ view_log) in Hok as [Hni Hno].
  rewrite log_intent_facts in Hni. rewrite log_owner_facts in Hno.
  apply apply_mutation_Ok in Ha. inversion Ha; subst; [|congruence].
  apply (view_after (FactIntent i)); rewrite ?log_dispatches_next, ?log_outcomes_next, ?app_nil_r; try done.
  - intros o. rewrite log_intent_snoc, log_intent_facts. simpl.
    case_decide; simplify_map_eq; [done|by destruct (_ !! o)].
  - intros t. rewrite log_owner_snoc, log_owner_facts. simpl.
    case_decide; simplify_map_eq; [done|by destruct (_ !! t)].
Qed.
Lemma view_dispatch x j' d' :
  persist_dispatch j x = Ok j' -> apply_mutation d (RecordDispatch x) = Ok d' -> from_durable_state d' = Ok j'.
Proof.
  intros Hp Ha. pose proof (lineage_apply _ _ _ L Ha) as L'.
  apply apply_mutation_Ok in Ha. inversion Ha; subst.
  apply (view_after (FactDispatch x)); rewrite ?log_dispatches_next, ?log_outcomes_next, ?app_nil_r; try done.
  - intros o. rewrite log_intent_snoc, log_intent_facts. simpl. by destruct (_ !! o).
  - intros t. rewrite log_owner_snoc, log_owner_facts. simpl. by destruct (_ !! t).
Qed.
Lemma view_outcome x j' d' :
  persist_outcome j x = Ok j' -> apply_mutation d (RecordOutcome x) = Ok d' -> from_durable_state d' = Ok j'.
Proof.
  intros Hp Ha. pose proof (lineage_apply _ _ _ L Ha) as L'.
  pose proof view_outcomes as Ho. apply apply_mutation_Ok in Ha. inversion Ha; simplify_eq.
  - apply (view_after (FactOutcome x)); rewrite ?log_dispatches_next, ?log_outcomes_next, ?app_nil_r; try done.
    + intros o. rewrite log_intent_snoc, log_intent_facts. simpl. by destruct (_ !! o).
    + intros t. rewrite log_owner_snoc, log_owner_facts. simpl. by destruct (_ !! t).
  - assert (j' = j) as ->; [|done]. unfold persist_outcome in Hp. rewrite Ho in Hp.
    repeat case_match; simplify_eq; done.
Qed.
End one_more.

(** ** The ledger has taken effect *)
Definition recorded (d : DurableRunState) (m : DurableMutation) : Prop :=
  match m with
  | RecordWorkflowReplayIdentity _ => True
  | AdmitAttempt a => admissions d !! admission_attempt_id a = Some a
  | RecordIntent i => intents d !! intent_operation_id i = Some i
  | RecordCancellation c => cancellations d !! cancellation_task_id c = Some c
  | RecordDispatch x => dispatches d !! dispatch_attempt_id x = Some x
  | RecordOutcome x => exists y, outcomes d !! outcome_attempt_id x = Some y /\ outcome y = outcome x
  | RecordCompletion c => completions d !! completion_task_id c = Some c
  end.
Lemma recorded_apply d m d' : apply_mutation d m = Ok d' -> recorded d' m.
Proof. intros Hm%apply_mutation_Ok. destruct Hm; simpl; simplify_map_eq; eauto. Qed.
Lemma recorded_extends d d' m : DurableStoreFacts.extends d d' -> recorded d m -> recorded d' m.
Proof.
  intros He. destruct He, m; simpl; try done; try (intros; by eapply lookup_weaken).
  intros (y & Hy & ?). exists y. split; [by eapply lookup_weaken|done].
Qed.
Lemma recorded_apply_all d ms d' m : apply_mutations d ms = Ok d' -> m ∈ ms -> recorded d' m.
Proof.
  unfold apply_mutations. revert d'. induction ms as [|x ms IH] using rev_ind; intros d'.
  { by intros _ ?%elem_of_nil. }
  rewrite foldM_snoc. intros (d1 & H1 & H2)%bind_Ok [Hm|Hm%list_elem_of_singleton]%elem_of_app.
  - eapply recorded_extends; [by eapply extends_apply|by apply IH].
  - subst. by eapply recorded_apply.
Qed.
Lemma ledger_recorded `{StoreFormat} r d k ms rev m :
  committed r d -> idempotency d !! k = Some (ms, rev) -> m ∈ ms -> recorded d m.
Proof.
  induction 1 as [|d q d' res Hd IH Hk Hm Hc].
  { simpl. by rewrite lookup_empty. }
  pose proof (extends_commit _ _ _ _ Hc) as He.
  apply commit_run_Some in Hc as (Hnew & _ & _ & _ & c & b & Hc & _ & ->).
  pose proof (apply_mutations_keeps _ _ _ Hc) as (_ & _ & _ & Hid). cbn. rewrite Hid.
  intros [[<- [= <- _]]|[_ Hi]]%lookup_insert_Some Hin.
  - eapply (recorded_apply_all _ _ _ m Hc) in Hin. exact Hin.
  - eapply recorded_extends; [exact He|]. by apply IH.
Qed.
