(* ===== verification/RuntimeLife.v ===== *)
(** * The store a runtime writes to, and the invariant of a live runtime

    [StoreContract] is what a durable store promises to the coordinator: seen
    from one run it is a cell that holds the state of the run, its operations
    are the pure operations of that state, and a failing backend has applied
    the operation or not.  [coherent] ties a live runtime to the state the
    store holds; [wp] follows an operation through its commits. *)
From S2P Require Export RuntimeView.
From S2P Require IdentityEncoding.
#[local] Open Scope string_scope.
#[local] Open Scope nat_scope.
#[local] Open Scope list_scope.

#[export] Existing Instance extends_po.

(** ** The contract of a store *)

(** The operations on what is held of one run. *)
Definition run_create (run : RunId) (o : option DurableRunState) : option DurableRunState * result StoreError StoreRevision :=
  match o with
  | Some _ => (o, Err (RunAlreadyExists run))
  | None => (Some (DurableRunState_new run), Ok StoreRevision_INITIAL)
  end.
Definition run_load (run : RunId) (o : option DurableRunState) : option DurableRunState * result StoreError DurableRunState :=
  (o, ok_or o (RunNotFound run)).
Definition run_commit `{StoreFormat} (q : CommitRequest) (o : option DurableRunState) :
  option DurableRunState * result StoreError CommitResult :=
  if bool_decide (request_mutations q = []) then (o, Err EmptyCommit)
  else match o with
  | None => (o, Err (RunNotFound (request_run_id q)))
  | Some s =>
      match commit_run s q with
      | Ok (Some s', res) => (Some s', Ok res)
      | Ok (None, res) => (o, Ok res)
      | Err e => (o, Err e)
      | Panic p => (o, Panic p)
      | NoFuel => (o, NoFuel)
      end
  end.
(** An operation either has the outcome of the pure one, or fails in the
    backend and leaves the state before or the state after. *)
Definition meets {S A} (holds : S -> option DurableRunState -> Prop) (o : option DurableRunState)
  (pure : option DurableRunState * result StoreError A) (out : S * result StoreError A) : Prop :=
  (out.2 = pure.2 /\ holds out.1 pure.1) \/
  exists e, out.2 = Err e /\ backend_error e /\ (holds out.1 o \/ holds out.1 pure.1).
Class StoreContract (S : Type) `{DurableStore S, StoreFormat} := {
  holds : RunId -> S -> option DurableRunState -> Prop;
  holds_committed run st d : holds run st (Some d) -> committed run d;
  holds_unique run st o o' : holds run st o -> holds run st o' -> o = o';
  create_meets run st o : holds run st o -> meets (holds run) o (run_create run o) (create_run st run);
  load_meets run st o : holds run st o -> meets (holds run) o (run_load run o) (load_run st run);
  commit_meets st q o : holds (request_run_id q) st o -> trim_is_empty (idempotency_key q) = false ->
    meets (holds (request_run_id q)) o (run_commit q o) (commit st q)
}.

(** ** The idempotency keys of a coordinator *)
Definition bootstrap_key : string := "workflow-replay-identity".
Definition commit_key (rev : StoreRevision) (m : DurableMutation) : string :=
  match m with
  | RecordWorkflowReplayIdentity i => "workflow-identity:" +:+ pretty (StoreRevision_get rev) +:+ ":" +:+ i
  | AdmitAttempt a => "admit:" +:+ AttemptId_display (admission_attempt_id a)
  | RecordIntent i => "intent:" +:+ OperationId_display (intent_operation_id i)
  | RecordCancellation c => "cancel:" +:+ Id_display (cancellation_task_id c)
  | RecordDispatch x => "dispatch:" +:+ AttemptId_display (dispatch_attempt_id x)
  | RecordOutcome x => "outcome:" +:+ AttemptId_display (outcome_attempt_id x)
  | RecordCompletion c =>
      "completion:" +:+ Id_display (completion_task_id c) +:+ ":" +:+ AttemptId_display (completion_attempt_id c)
  end.
Definition keyed (rev : StoreRevision) (k : IdempotencyKey) (m : DurableMutation) : Prop :=
  k = commit_key rev m \/ k = bootstrap_key /\ exists i, m = RecordWorkflowReplayIdentity i.
Lemma pretty_N_digits (n : N) : IdentityEncoding.all_digits (pretty n) = true.
Proof.
  unfold pretty, pretty_N. case_decide; [done|]. by apply IdentityEncoding.pretty_N_go_digits.
Qed.
Lemma identity_key_revision rev rev' i m :
  commit_key rev m = commit_key rev' (RecordWorkflowReplayIdentity i) -> rev = rev'.
Proof.
  destruct m; try discriminate. unfold commit_key. intros H%(inj (String.append _)).
  apply IdentityEncoding.digits_delimited in H as [H _]; [|apply pretty_N_digits|apply pretty_N_digits|done].
  by apply (inj pretty) in H.
Qed.

(** ** The order of a run that only coordinators wrote to *)
Record orderly (d : DurableRunState) : Prop := {
  or_keys k ms rev : idempotency d !! k = Some (ms, rev) -> exists m, ms = [m] /\ keyed (rev - 1)%N k m;
  or_names i a : admission_history d !! i = Some a ->
    admission_attempt_id a = attempt_name (run_id d) (N.of_nat (i + 1));
  or_room : (N.of_nat (length (admission_history d)) <= revision d - 1)%N;
  or_once o i : intents d !! o = Some i -> semantics i = NonIdempotent -> length (dispatches_of d o) <= 1
}.
Definition orderly_mutation (d : DurableRunState) (m : DurableMutation) : Prop :=
  match m with
  | AdmitAttempt a =>
      (0 < revision d)%N /\
      admission_attempt_id a = attempt_name (run_id d) (N.of_nat (length (admission_history d) + 1))
  | RecordDispatch x =>
      forall i, intents d !! dispatch_operation_id x = Some i -> semantics i = NonIdempotent ->
        dispatches_of d (dispatch_operation_id x) = []
  | _ => True
  end.
Lemma orderly_new run : orderly (DurableRunState_new run).
Proof.
  split; cbn; [|done|lia|].
  - intros k ms rev. by rewrite lookup_empty.
  - intros o i. by rewrite lookup_empty.
Qed.
Lemma orderly_append d k m c e :
  orderly d -> lineage d -> apply_mutation d m = Ok c -> orderly_mutation d m -> keyed (revision d) k m ->
  entry_revision e = (revision d + 1)%N -> entry_key e = k -> entry_mutations e = [m] ->
  orderly (append_commit e c).
Proof.
  intros [Hks Hn Hr Ho] L Hm Hk Hkey He Hek Hem.
  pose proof (apply_mutation_keeps _ _ _ Hm) as (Hrun & Hrev & _ & Hid).
  assert (Hkeys : forall k' ms rev, idempotency (append_commit e c) !! k' = Some (ms, rev) ->
    exists m, ms = [m] /\ keyed (rev - 1)%N k' m).
  { intros k' ms rev. cbn. rewrite Hid, He, Hek, Hem. intros [[<- [= <- <-]]|[_ Hi]]%lookup_insert_Some; [|by eapply Hks].
    exists m. by rewrite N.add_sub. }
  assert (Hroom : (N.of_nat (length (admission_history d)) <= revision d + 1 - 1)%N) by lia.
  apply apply_mutation_Ok in Hm.
  destruct Hm; (split; [exact Hkeys|..]); clear Hkeys; cbn in *; rewrite ?He; try done.
  - intros i x [Hx|[Hi Hx]]%lookup_app_Some; [by apply Hn|]. apply list_lookup_singleton_Some in Hx as [Hi0 <-].
    destruct Hk as [_ ->]. repeat f_equal. lia.
  - rewrite length_app. simpl. lia.
  - intros o i' [[<- <-]|[_ Hi]]%lookup_insert_Some Hs; [|by eapply Ho].
    unfold dispatches_of. cbn. change (length (dispatches_of d (intent_operation_id i)) <= 1).
    destruct (dispatches_of d (intent_operation_id i)) as [|x l] eqn:Ex; [simpl; lia|].
    assert (Hx : x ∈ dispatches_of d (intent_operation_id i)) by (rewrite Ex; by left).
    apply list_elem_of_filter in Hx as [Hxo Hx]. apply (li_dispatch _ L) in Hx as (i0 & _ & Hi0 & _). congruence.
  - intros o i' Hi Hs. unfold dispatches_of. cbn. rewrite filter_app, length_app.
    change (filter _ (dispatch_history d)) with (dispatches_of d o). rewrite filter_cons, filter_nil.
    case_decide as Hd; [|rewrite Nat.add_0_r; by eapply Ho].
    subst o. rewrite (Hk _ Hi Hs). simpl. lia.
Qed.
Lemma identity_key_fresh `{StoreFormat} run d i :
  committed run d -> orderly d ->
  idempotency d !! commit_key (revision d) (RecordWorkflowReplayIdentity i) = None.
Proof.
  intros Hc Ho. apply eq_None_not_Some. intros [[ms rev] Hi].
  destruct (or_keys _ Ho _ _ _ Hi) as (m & -> & [Hk|[Hk _]]); [|discriminate Hk].
  apply eq_sym, identity_key_revision in Hk. pose proof (proj2 (committed_inv _ _ Hc)) as I.
  apply (ledger_index _ _ I) in Hi as (e & [n Hn]%list_elem_of_lookup & _ & [= _ ->]).
  rewrite (ledger_revisions _ _ I _ _ Hn) in Hk. apply lookup_lt_Some in Hn.
  rewrite (ledger_length _ _ I) in Hk. lia.
Qed.
Lemma committed_initial `{StoreFormat} run d : committed run d -> revision d = 0%N -> d = DurableRunState_new run.
Proof.
  destruct 1 as [|d q d' res Hd Hk Hm Hc]; [done|].
  apply commit_run_Some in Hc as (_ & _ & _ & _ & c & b & _ & _ & ->). cbn. lia.
Qed.

(** ** Live runtimes *)
Definition lost (e : RuntimeError) : bool :=
  match e with RuntimeStore e => negb (bool_decide (kind e = KindDomain)) | _ => false end.

Section live.
Context {S : Type} {DS : DurableStore S} {SF : StoreFormat} {SL : StoreFormatLaws} {C : StoreContract S}.
Implicit Types r : Runtime S.

Definition owns (d : DurableRunState) (a : TaskAttempt) : Prop :=
  exists x, admissions d !! ta_attempt_id a = Some x /\ admission_task_id x = ta_task_id a /\
    admission_operation_id x = ta_operation_id a.
(** The recorded identity is that of the live workflow and configuration. *)
Definition identified r (d : DurableRunState) : Prop :=
  identity_provenance r = LegacyLiveObject -> exists i,
    legacy_workflow_replay_identity (workflow r) (task_configs r) = Ok i /\ workflow_replay_identity d = Some i.
Definition configured r : Prop :=
  identity_provenance r = LegacyLiveObject -> (dom (task_configs r) : gset Id) ⊆ dom (tasks (topology (workflow r))).
Record coherent r (d : DurableRunState) : Prop := {
  co_identity : identified r d;
  co_configs : configured r;
  co_holds : holds (runtime_run_id r) (store r) (Some d);
  co_revision : store_revision r = revision d;
  co_started : (0 < revision d)%N;
  co_orderly : orderly d;
  co_journal : from_durable_state d = Ok (journal r);
  co_completed : cr_task_id <$> completion_log (workflow r) = completion_task_id <$> completion_history d;
  co_workflow : workflow_reachable (workflow r);
  co_cancelled : cancelled r = dom (cancellations d);
  co_next : next_attempt_number r = N.of_nat (length (admission_history d) + 1);
  co_attempts a : a ∈ runtime_attempts r -> owns d a;
  co_pending a i : pending_started r = Some (a, i) -> owns d a
}.
Section coherent_facts.
Context r d (Hc : coherent r d).
Lemma coherent_committed : committed (runtime_run_id r) d.
Proof. eapply holds_committed, Hc. Qed.
Lemma coherent_lineage : lineage d.
Proof. eapply committed_inv, coherent_committed. Qed.
Lemma coherent_run : run_id d = runtime_run_id r.
Proof. eapply ledger_run, committed_inv, coherent_committed. Qed.
End coherent_facts.
Lemma coherent_streams r d t : coherent r d -> coherent (set_streams t r) d.
Proof. by intros []. Qed.

(** A failed operation leaves a coherent runtime, unless the backend failed:
    then only what the store holds is known. *)
Definition settled (d0 : DurableRunState) (e : RuntimeError) r : Prop :=
  exists d, DurableStoreFacts.extends d0 d /\
    if lost e then holds (runtime_run_id r) (store r) (Some d) /\ orderly d else coherent r d.
Definition wp {A} (d0 : DurableRunState) (m : op S A) (r : Runtime S) (Q : A -> Runtime S -> Prop) : Prop :=
  match m r with
  | (r', Ok a) => Q a r'
  | (r', Err e) => settled d0 e r'
  | _ => False
  end.
(** [r] is coherent with a later state of the run. *)
Definition live (d0 : DurableRunState) r (d : DurableRunState) : Prop := DurableStoreFacts.extends d0 d /\ coherent r d.
Definition arrives (d0 : DurableRunState) r : Prop := exists d, live d0 r d.

Lemma wp_ret {A} d0 (a : A) r (Q : A -> Runtime S -> Prop) : Q a r -> wp d0 (mret a) r Q.
Proof. done. Qed.
Lemma wp_bind {A B} d0 (m : op S A) (k : A -> op S B) r Q :
  wp d0 m r (fun a r' => wp d0 (k a) r' Q) -> wp d0 (m ≫= k) r Q.
Proof. unfold wp, mbind, op_bind. by destruct (m r) as [r' [a|e|p|]]. Qed.
Lemma wp_mono {A} d0 (m : op S A) r (Q Q' : A -> Runtime S -> Prop) :
  wp d0 m r Q -> (forall a r', Q a r' -> Q' a r') -> wp d0 m r Q'.
Proof. unfold wp. destruct (m r) as [r' [a|e|p|]]; auto. Qed.
Lemma wp_gets {A} d0 (f : Runtime S -> A) r (Q : A -> Runtime S -> Prop) : Q (f r) r -> wp d0 (gets f) r Q.
Proof. done. Qed.
Lemma wp_modify d0 (f : Runtime S -> Runtime S) r (Q : unit -> Runtime S -> Prop) : Q tt (f r) -> wp d0 (modify f) r Q.
Proof. done. Qed.
Lemma wp_fail {A} d0 e r d (Q : A -> Runtime S -> Prop) : live d0 r d -> lost e = false -> wp d0 (fail e) r Q.
Proof. intros [He Hc] Hl. exists d. by rewrite Hl. Qed.
Lemma wp_lift {A E} d0 (into : E -> RuntimeError) (x : result E A) r d (Q : A -> Runtime S -> Prop) :
  live d0 r d -> returns x -> (forall e, x = Err e -> lost (into e) = false) -> (forall a, x = Ok a -> Q a r) ->
  wp d0 (lift into x) r Q.
Proof.
  intros [He Hc] Hx Hl HQ. unfold wp, lift. destruct x as [a|e|p|]; simpl; try done; [by apply HQ|].
  exists d. by rewrite Hl.
Qed.
Lemma wp_reads {A} d0 (f : Runtime S -> result RuntimeError A) r d (Q : A -> Runtime S -> Prop) :
  live d0 r d -> returns (f r) -> (forall e, f r = Err e -> lost e = false) -> (forall a, f r = Ok a -> Q a r) ->
  wp d0 (reads f) r Q.
Proof.
  intros [He Hc] Hx Hl HQ. unfold wp, reads. destruct (f r) as [a|e|p|]; simpl; try done; [by apply HQ|].
  exists d. by rewrite Hl.
Qed.

(** *** One commit *)
Inductive commits (d : DurableRunState) (k : IdempotencyKey) (m : DurableMutation) : DurableRunState -> Prop :=
  | commits_fresh c e : apply_mutation d m = Ok c -> idempotency d !! k = None ->
      entry_revision e = (revision d + 1)%N -> entry_key e = k -> entry_mutations e = [m] ->
      (revision d < u64_max)%N ->
      commits d k m (append_commit e c)
  | commits_replay rev : idempotency d !! k = Some ([m], rev) -> commits d k m d.
Lemma run_commit_single d q m :
  request_mutations q = [m] -> expected_revision q = revision d ->
  match run_commit q (Some d) with
  | (o, Ok res) => exists d', o = Some d' /\ commits d (idempotency_key q) m d' /\ result_revision res = revision d'
  | (o, Err e) => o = Some d /\ kind e = KindDomain
  | _ => False
  end.
Proof.
  intros Hq He. unfold run_commit. rewrite Hq. rewrite bool_decide_false by done.
  pose proof (commit_run_returns d q) as Hret.
  destruct (commit_run d q) as [[[d'|] res]|e|p|] eqn:Ec; try done.
  - pose proof Ec as Ec'. apply commit_run_Some in Ec as (Hi & _ & Hlt & -> & c & b & Hc & _ & ->).
    eexists. split; [done|]. split; [|done].
    rewrite Hq in Hc. unfold apply_mutations in Hc. cbn in Hc. apply bind_Ok in Hc as (c' & Hc & [= ->]).
    by eapply commits_fresh; rewrite <- ?Hq.
  - apply commit_run_None in Ec as (rev & Hi & ->). eexists. split; [done|]. split; [|done].
    rewrite Hq in Hi. by eapply commits_replay.
  - split; [done|]. apply commit_run_domain in Ec. done.
Qed.
Lemma commits_extends d k m d' : commits d k m d' -> lineage d ->
  (forall rev, idempotency d !! k = Some ([m], rev) -> recorded d m) ->
  DurableStoreFacts.extends d d' /\ lineage d' /\ recorded d' m /\ (revision d <= revision d')%N.
Proof.
  intros Hc L Hr. destruct Hc as [c e Hm Hi He Hk Hms Hlt|rev Hi]; [|split_and!; [done|done|by eapply Hr|done]].
  pose proof (apply_mutation_keeps _ _ _ Hm) as (Hrun & Hrev & Hled & Hid).
  split; [|split; [|split]].
  - destruct (extends_apply _ _ _ Hm). split; cbn; try done; try lia.
    + rewrite Hled. by apply prefix_app_r.
    + rewrite Hid. by apply insert_subseteq; rewrite Hk.
  - by eapply lineage_append_commit, lineage_apply.
  - apply recorded_apply in Hm. by destruct m.
  - cbn. lia.
Qed.
Lemma commits_orderly d k m d' :
  commits d k m d' -> lineage d -> orderly d -> orderly_mutation d m -> keyed (revision d) k m -> orderly d'.
Proof. intros Hc L Ho Hm Hk. destruct Hc; [by eapply orderly_append|done]. Qed.
Lemma coherent_commits r d k m d' :
  coherent r d -> commits d k m d' -> orderly_mutation d m -> keyed (revision d) k m ->
  DurableStoreFacts.extends d d' /\ lineage d' /\ recorded d' m /\ orderly d' /\ (revision d <= revision d')%N.
Proof.
  intros Hc Hm Ho Hk. pose proof (coherent_lineage _ _ Hc) as L.
  destruct (commits_extends _ _ _ _ Hm L) as (He & L' & Hr & Hle).
  { intros rev Hi. eapply ledger_recorded; [by eapply coherent_committed|exact Hi|by left]. }
  split_and!; try done. eapply commits_orderly; [done..|apply Hc|done|done].
Qed.

Lemma wp_commit d0 key m r d (Q : StoreRevision -> Runtime S -> Prop) :
  live d0 r d -> trim_is_empty key = false -> orderly_mutation d m -> keyed (revision d) key m ->
  (forall st d', commits d key m d' -> holds (runtime_run_id r) st (Some d') ->
     Q (revision d') (set_store st (revision d') r)) ->
  wp d0 (commit_durable key [m]) r Q.
Proof.
  intros [He Hc] Hk Hm Hkey HQ. unfold commit_durable, IdempotencyKey_new. rewrite Hk.
  apply wp_bind. unfold wp at 1, lift. cbn [map_err]. unfold wp, send_commit.
  set (q := {| request_run_id := runtime_run_id r; expected_revision := store_revision r;
               idempotency_key := key; request_mutations := [m] |}).
  pose proof (run_commit_single d q m eq_refl (co_revision _ _ Hc)) as Hs.
  pose proof (commit_meets (store r) q (Some d) (co_holds _ _ Hc) Hk) as Hw. unfold meets in Hw.
  change (request_run_id q) with (runtime_run_id r) in Hw. change (idempotency_key q) with key in Hs.
  destruct (run_commit q (Some d)) as [o x]. destruct (commit (store r) q) as [st y]. cbn in Hw.
  destruct Hw as [[-> Hh]|(e & -> & Hb & Hh)].
  - destruct x as [res|e|p|]; try done.
    + destruct Hs as (d' & -> & Hd' & ->). by apply HQ.
    + destruct Hs as [-> Hd]. exists d. split; [done|]. simpl. rewrite bool_decide_true by done. simpl.
      rewrite (co_revision _ _ Hc). destruct Hc; split; done.
  - assert (Hd : exists d', o = Some d' /\ DurableStoreFacts.extends d d' /\ orderly d').
    { destruct x as [res|e'|p|]; try done.
      - destruct Hs as (d' & -> & Hd' & _). exists d'.
        by destruct (coherent_commits _ _ _ _ _ Hc Hd' Hm Hkey) as (? & _ & _ & ? & _).
      - destruct Hs as [-> _]. exists d. split_and!; [done..|apply Hc]. }
    destruct Hd as (d' & -> & Hd' & Ho').
    assert (lost (RuntimeStore e) = true) as Hl.
    { simpl. by rewrite bool_decide_false. }
    unfold settled. rewrite Hl. simpl. destruct Hh as [Hh|Hh]; [exists d|exists d']; split_and!; try done.
    + apply Hc.
    + by etransitivity.
Qed.

(** *** The view follows the commit *)
Section view_follows.
Context (d0 : DurableRunState) r d (Hl : live d0 r d) (st : S) (k : IdempotencyKey) (d' : DurableRunState).
Context (Hst : holds (runtime_run_id r) st (Some d')).

Lemma live_next m r' :
  commits d k m d' -> orderly_mutation d m -> keyed (revision d) k m ->
  runtime_run_id r' = runtime_run_id r -> store r' = st -> store_revision r' = revision d' ->
  from_durable_state d' = Ok (journal r') ->
  cr_task_id <$> completion_log (workflow r') = completion_task_id <$> completion_history d' ->
  workflow_reachable (workflow r') -> identified r' d' -> configured r' -> cancelled r' = dom (cancellations d') ->
  next_attempt_number r' = N.of_nat (length (admission_history d') + 1) ->
  runtime_attempts r' = runtime_attempts r -> pending_started r' = pending_started r -> live d0 r' d'.
Proof.
  intros Hc Ho Hkey Hrun Hs Hrev Hj Hw Hwf Hi Hcf Hcan Hn Ha Hp. destruct Hl as [He Hco].
  destruct (coherent_commits _ _ _ _ _ Hco Hc Ho Hkey) as (He' & _ & _ & Ho' & Hle).
  split; [by etransitivity|]. pose proof (co_started _ _ Hco).
  assert (Hown : forall a, owns d a -> owns d' a).
  { intros a (x & Hx & ?). exists x. split; [|done]. eapply lookup_weaken; [done|apply He']. }
  split; rewrite ?Hrun, ?Hs, ?Ha, ?Hp; try done; [lia|..].
  - intros a Hin. by apply Hown, (co_attempts _ _ Hco).
  - intros a i Hin. by eapply Hown, (co_pending _ _ Hco).
Qed.
End view_follows.
End live.
