(* ===== verification/RuntimeOps.v ===== *)
(** * Every operation of the coordinator keeps the runtime coherent

    One lemma per operation, in the weakest-precondition style of
    [RuntimeLife]: from a coherent runtime the operation neither panics nor
    runs out of fuel, and it ends coherent with a later durable state, or with
    a backend failure. *)
From Stdlib Require Import ZifyBool.
From S2P Require Export RuntimeLife WorkflowFacts.
#[local] Open Scope string_scope.
#[local] Open Scope nat_scope.
#[local] Open Scope list_scope.

(** ** Names and keys are not blank *)
Lemma trim_cons a b c s :
  trim_is_empty (String a (String b (String c s))) =
  if ws1 (Ascii.N_of_ascii a) then trim_is_empty (String b (String c s))
  else if ws2 (Ascii.N_of_ascii a) (Ascii.N_of_ascii b) then trim_is_empty (String c s)
  else if ws3 (Ascii.N_of_ascii a) (Ascii.N_of_ascii b) (Ascii.N_of_ascii c) then trim_is_empty s else false.
Proof. done. Qed.
Lemma trim_visible s c t : (33 <= Ascii.N_of_ascii c < 128)%N -> trim_is_empty (s +:+ String c t) = false.
Proof.
  intros Hc. assert (Hn : forall n, String.length s < n -> trim_is_empty (s +:+ String c t) = false);
    [|apply (Hn (1 + String.length s)); lia].
  intros n. revert s. induction n as [|n IH]; intros s Hs; [lia|].
  assert (ws1 (Ascii.N_of_ascii c) = false) as W1 by (unfold ws1; lia).
  assert (forall a, ws2 a (Ascii.N_of_ascii c) = false) as W2 by (intros a; unfold ws2; lia).
  assert (forall a b, ws3 a b (Ascii.N_of_ascii c) = false) as W3 by (intros a b; unfold ws3; lia).
  assert (forall a b, ws3 a (Ascii.N_of_ascii c) b = false) as W4 by (intros a b; unfold ws3; lia).
  assert (forall b, ws2 (Ascii.N_of_ascii c) b = false) as W5 by (intros b; unfold ws2; lia).
  assert (forall a b, ws3 (Ascii.N_of_ascii c) a b = false) as W6 by (intros a b; unfold ws3; lia).
  assert (forall a s, String a s +:+ String c t = String a (s +:+ String c t)) as App by done.
  assert ("" +:+ String c t = String c t) as Nil by done.
  destruct s as [|a1 [|a2 [|a3 s]]]; rewrite ?App, ?Nil.
  4: { rewrite trim_cons, <- !App. rewrite !IH by (cbn in Hs |- *; lia). repeat case_match; congruence. }
  all: destruct t as [|b [|b' t]]; cbn; rewrite ?W1, ?W2, ?W3, ?W4, ?W5, ?W6; repeat case_match; congruence.
Qed.
Lemma attempt_name_visible run n : AttemptId_new (attempt_name run n) = Ok (attempt_name run n).
Proof.
  unfold AttemptId_new, Id_new.
  assert (trim_is_empty (attempt_name run n) = false) as ->; [|done].
  apply (trim_visible run (Ascii.ascii_of_N 45) ("attempt-" +:+ pretty n)). cbn. lia.
Qed.
Lemma attempt_name_inj run n m : attempt_name run n = attempt_name run m -> n = m.
Proof. unfold attempt_name. intros H. apply (inj (String.append _)), (inj (String.append _)) in H. by apply (inj pretty). Qed.

(** ** What a mutation leaves alone *)
Lemma commits_frame d k m d' :
  commits d k m d' ->
  match m with RecordIntent _ | RecordDispatch _ | RecordOutcome _ => True
             | _ => from_durable_state d' = from_durable_state d end /\
  match m with RecordCompletion _ => True | _ => completion_history d' = completion_history d end /\
  match m with RecordCancellation _ => True | _ => cancellations d' = cancellations d end /\
  match m with AdmitAttempt _ => True | _ => admission_history d' = admission_history d end /\
  match m with RecordWorkflowReplayIdentity _ => True
             | _ => workflow_replay_identity d' = workflow_replay_identity d end.
Proof.
  intros Hc. destruct Hc as [c e Hm _ _ _ _ _|rev _]; [|by destruct m].
  apply apply_mutation_Ok in Hm. by destruct Hm.
Qed.

Section operations.
Context {S : Type} {DS : DurableStore S} {SF : StoreFormat} {SL : StoreFormatLaws} {C : StoreContract S}.
Implicit Types r : Runtime S.

Lemma live_refl r d : coherent r d -> live d r d.
Proof. done. Qed.
Lemma live_streams d0 r d t : live d0 r d -> live d0 (set_streams t r) d.
Proof. intros [? ?]. split; [done|]. by apply coherent_streams. Qed.

(** ** Observations *)
Lemma wp_emit_execution d0 e r d (Q : StreamItem RuntimeEvent -> Runtime S -> Prop) :
  live d0 r d -> (forall item t, Q item (set_streams t r)) -> wp d0 (emit_execution e) r Q.
Proof.
  intros Hl HQ. unfold wp, emit_execution, emit. destruct (sq_exhausted _).
  - exists d. by apply live_streams.
  - apply HQ.
Qed.
Lemma enqueue_cases r item :
  exists t, enqueue_execution item r = (set_streams t r, Ok tt) \/
    enqueue_execution item r = (set_streams t r, Err (ExecutionBackpressure item)).
Proof.
  unfold enqueue_execution, lossless_try_push. destruct (_ =? _); eexists; first [by right|by left].
Qed.
Lemma wp_enqueue d0 item r d (Q : unit -> Runtime S -> Prop) :
  live d0 r d -> (forall t, Q tt (set_streams t r)) -> wp d0 (enqueue_execution item) r Q.
Proof.
  intros Hl HQ. unfold wp. destruct (enqueue_cases r item) as (t & [->| ->]); [apply HQ|].
  exists d. by apply live_streams.
Qed.
Lemma wp_emit_completed d0 t a r d (Q : unit -> Runtime S -> Prop) :
  live d0 r d -> (forall t, Q tt (set_streams t r)) -> wp d0 (emit_completed t a) r Q.
Proof.
  intros Hl HQ. apply wp_bind, wp_gets, wp_bind. eapply wp_emit_execution; [done|]. intros item t1.
  eapply wp_enqueue; [by apply live_streams|]. intros t2. apply (HQ t2).
Qed.

(** ** Committing *)
Lemma legacy_identity_topology w w' cs :
  topology w' = topology w -> legacy_workflow_replay_identity w' cs = legacy_workflow_replay_identity w cs.
Proof. unfold legacy_workflow_replay_identity. by intros ->. Qed.
Lemma identified_same r d r' d' :
  coherent r d -> workflow_replay_identity d' = workflow_replay_identity d ->
  identity_provenance r' = identity_provenance r -> topology (workflow r') = topology (workflow r) ->
  task_configs r' = task_configs r -> identified r' d'.
Proof.
  intros Hc Hd Hp Hw Hcs. unfold identified. rewrite Hd, Hp, Hcs, (legacy_identity_topology _ _ _ Hw). apply Hc.
Qed.
Lemma wp_record_effect_intent d0 t o s r d :
  live d0 r d ->
  wp d0 (record_effect_intent t o s) r (fun _ r' => exists d', live d0 r' d' /\
    journal_task_operations (journal r') !! t = Some o /\
    workflow r' = workflow r /\ cancelled r' = cancelled r /\ pending_started r' = pending_started r).
Proof.
  intros Hl. pose proof Hl as [He Hc]. unfold record_effect_intent. apply wp_bind, wp_gets.
  destruct (graph_task (workflow r) t); [|by eapply wp_fail].
  destruct (WorkflowGraph.is_completed _ _); [by eapply wp_fail|].
  apply wp_bind, wp_gets, wp_bind. set (i := {| intent_task_id := t |}).
  eapply wp_lift; [done|apply (persist_returns _ (FactIntent i))|done|]. intros j' Hj.
  apply wp_bind. eapply wp_commit; [done|done|done|by left|]. intros st d' Hd Hst. apply wp_modify.
  pose proof (commits_frame _ _ _ _ Hd) as (_ & Hcomp & Hcan & Hadm & Hid).
  exists d'. split.
  - eapply live_next; try done; try (by left); try (by eapply identified_same); cbn -[from_durable_state]; rewrite ?Hcomp, ?Hcan, ?Hadm; try apply Hc.
    destruct Hd as [c e Hm _ _ _ _ _|rev Hi].
    + change (from_durable_state c = Ok j'). eapply view_intent; try done; [by eapply coherent_lineage|apply Hc].
    + exfalso. apply (ledger_recorded _ _ _ _ _ (RecordIntent i) (coherent_committed _ _ Hc)) in Hi; [|by left].
      cbn in Hi. unfold persist_intent in Hj. cbn in Hj.
      rewrite (view_intents _ (coherent_lineage _ _ Hc) _ (co_journal _ _ Hc)), Hi in Hj.
      by rewrite bool_decide_true in Hj.
  - split_and!; try done. unfold persist_intent in Hj. cbn.
    case_bool_decide; [done|]. case_match; [done|]. injection Hj as <-. cbn. by rewrite lookup_insert_eq.
Qed.

(** ** Attempts *)
Definition owned (d : DurableRunState) (t : Id) (o : option OperationId) (a : AttemptId) : Prop :=
  exists x, admissions d !! a = Some x /\ admission_task_id x = t /\ admission_operation_id x = o.
Lemma live_push d0 r d a : live d0 r d -> owns d a -> live d0 (push_attempt a r) d.
Proof.
  intros [He []] Ha. split; [done|]. split; try done.
  intros x [Hx|Hx%list_elem_of_singleton]%elem_of_app; [auto|by subst].
Qed.
Lemma live_pending d0 r d p :
  live d0 r d -> (forall a i, p = Some (a, i) -> owns d a) -> live d0 (set_pending p r) d.
Proof. intros [He []] Ha. split; [done|]. by split. Qed.
Lemma capture_pin_outcome tree c t pins q :
  returns (capture_pin tree c t pins q) /\ forall e, capture_pin tree c t pins q = Err e -> lost e = false.
Proof.
  unfold capture_pin. destruct (context_get _ _ _ _) as [h|]; cbn; [|split; [done|by intros e [= <-]]].
  destruct q.2 as [i|]; [case_bool_decide|]; cbn; split; try done; by intros e [= <-].
Qed.
Lemma capture_outcome tree t x r :
  returns (capture_capability_pins tree t x r) /\ forall e, capture_capability_pins tree t x r = Err e -> lost e = false.
Proof.
  unfold capture_capability_pins. cbv zeta. set (l := match task_configs r !! t with Some _ => _ | None => _ end).
  assert (Hr : returns (foldM (capture_pin tree (reactive_context (capability_runtime r)) t) l [])).
  { apply foldM_returns_all. intros. apply capture_pin_outcome. }
  assert (Hl : forall e, foldM (capture_pin tree (reactive_context (capability_runtime r)) t) l [] = Err e -> lost e = false).
  { intros e (pins & q & He)%foldM_Err. by eapply capture_pin_outcome. }
  destruct (foldM _ _ _) as [pins|e|p|]; cbn; try done.
  destruct x as [x|]; [|done]. destruct (pins_expected _ _); [done|]. split; [done|]. by intros e [= <-].
Qed.

Lemma attempt_for_task_owned r d t o a :
  coherent r d -> attempt_for_task r t o = Some a -> owned d t o a.
Proof.
  intros Hc.
  assert (Hlast : ta_attempt_id <$> last (filter (owns_attempt t o) (runtime_attempts r)) = Some a -> owned d t o a).
  { intros (x & Hx & ->)%fmap_Some. apply last_filter_Some in Hx as [Hx [<- <-]].
    destruct (co_attempts _ _ Hc _ Hx) as (y & ? & ? & ?). by exists y. }
  unfold attempt_for_task. destruct (pending_started r) as [[x i]|] eqn:Hp; [|done].
  destruct (decide _) as [[<- <-]|]; [|done]. intros [= <-].
  destruct (co_pending _ _ Hc _ _ Hp) as (y & ? & ? & ?). by exists y.
Qed.
Lemma next_name_fresh r d : coherent r d -> admissions d !! attempt_name (run_id d) (next_attempt_number r) = None.
Proof.
  intros Hc. pose proof (coherent_lineage _ _ Hc) as L. rewrite (co_next _ _ Hc).
  rewrite (li_admissions _ L). apply head_filter_None. intros x [i Hi]%list_elem_of_lookup Hx.
  rewrite (or_names _ (co_orderly _ _ Hc) _ _ Hi) in Hx. apply attempt_name_inj in Hx.
  apply lookup_lt_Some in Hi. lia.
Qed.
Record frame r r' : Prop := {
  fr_journal : journal r' = journal r;
  fr_workflow : workflow r' = workflow r;
  fr_cancelled : cancelled r' = cancelled r
}.
Lemma frame_refl r : frame r r.
Proof. done. Qed.

Lemma wp_record_started d0 a item r d :
  live d0 r d -> owns d a ->
  wp d0 (record_started a item) r (fun x r' => x = ta_attempt_id a /\ live d0 r' d /\ frame r r').
Proof.
  intros Hl Ha. unfold wp, record_started. destruct (enqueue_cases r item) as (t & [->| ->]).
  - split_and!; [done|by apply live_push; [apply live_streams|]|done].
  - exists d. apply live_pending; [by apply live_streams|]. by intros ? ? [= <- _].
Qed.
Lemma wp_begin_attempt d0 tree t o r d :
  live d0 r d ->
  wp d0 (begin_attempt tree t o) r (fun a r' => exists d', live d0 r' d' /\ owned d' t o a /\ frame r r').
Proof.
  intros Hl. pose proof Hl as [He Hc]. pose proof (co_started _ _ Hc) as H0.
  pose proof (co_orderly _ _ Hc) as Ho. pose proof (or_room _ Ho) as Hroom.
  unfold begin_attempt. apply wp_bind. destruct (capture_outcome tree t None r) as [Hcap Hlost].
  eapply wp_reads; [done..|]. intros pins _. apply wp_bind, wp_gets, wp_bind, wp_gets, wp_bind.
  unfold wp at 1, expecting. rewrite attempt_name_visible. cbn [fst snd].
  set (n := next_attempt_number r). set (a := {| ta_run_id := runtime_run_id r |}).
  assert (Hn : n = N.of_nat (length (admission_history d) + 1)) by apply Hc.
  apply wp_bind. eapply wp_commit; [exact Hl|done| |by left|].
  { cbn. split; [done|]. by rewrite (coherent_run _ _ Hc), Hn. }
  intros st d' Hd Hst. pose proof (commits_frame _ _ _ _ Hd) as (Hj & Hcomp & Hcan & _ & Hid).
  pose proof (next_name_fresh _ _ Hc) as Hfresh. rewrite (coherent_run _ _ Hc) in Hfresh.
  assert (Hadm : admission_history d' = admission_history d ++ [admission_of a] /\
                 admissions d' !! ta_attempt_id a = Some (admission_of a) /\ (n < u64_max)%N).
  { destruct Hd as [c e Hm _ _ _ _ Hlt|rev Hi].
    - apply apply_mutation_Ok in Hm. inversion Hm; subst. cbn. split_and!; [done|by rewrite lookup_insert_eq|].
      rewrite Hn. lia.
    - exfalso. apply (ledger_recorded _ _ _ _ _ (AdmitAttempt (admission_of a)) (coherent_committed _ _ Hc)) in Hi;
        [|by left]. discriminate (eq_trans (eq_sym Hfresh) Hi). }
  destruct Hadm as (Hadm & Hown & Hlt).
  apply wp_bind. unfold wp at 1, lift, checked_succ. rewrite (proj2 (N.ltb_lt _ _) Hlt). cbn [ok_or map_err].
  apply wp_bind, wp_modify.
  set (r1 := set_next (n + 1)%N (set_store st (revision d') r)).
  assert (Hl1 : live d0 r1 d').
  { eapply (live_next d0 r d Hl st); try done; try (by left); try (by eapply identified_same); cbn -[from_durable_state]; rewrite ?Hcomp, ?Hcan, ?Hj; try apply Hc.
    - split; [done|]. by rewrite (coherent_run _ _ Hc), Hn.
    - rewrite Hadm, length_app, Hn. cbn. lia. }
  apply wp_bind. eapply wp_emit_execution; [exact Hl1|]. intros item s.
  eapply wp_mono; [eapply wp_record_started; [by apply live_streams|]|].
  - by exists (admission_of a).
  - intros x r' (-> & Hl' & Hf). exists d'. split_and!; [done| |].
    + by exists (admission_of a).
    + destruct Hf. by split.
Qed.
Lemma wp_attempt_or_begin d0 tree t o r d :
  live d0 r d ->
  wp d0 (attempt_or_begin tree t o) r (fun a r' => exists d', live d0 r' d' /\ owned d' t o a /\ frame r r').
Proof.
  intros Hl. unfold attempt_or_begin. apply wp_bind, wp_gets.
  destruct (attempt_for_task r t o) as [a|] eqn:Ea; [|by eapply wp_begin_attempt].
  apply wp_ret. exists d. split_and!; [done| |done]. eapply attempt_for_task_owned; [apply Hl|done].
Qed.

(** ** Completions *)
Lemma completed_log r d t : coherent r d ->
  t ∈ WorkflowGraph.completed (facts (workflow r)) <-> is_Some (completions d !! t).
Proof.
  intros Hc. pose proof (coherent_lineage _ _ Hc) as L.
  pose proof (workflow_reachable_wf _ (co_workflow _ _ Hc)) as Hwf.
  rewrite (wf_log_completed _ (wf_graph_logs _ Hwf)), (co_completed _ _ Hc), (li_completions _ L).
  rewrite list_elem_of_fmap. split.
  - intros (c & -> & Hin). exists c. apply (head_filter_key completion_task_id); [apply L|done].
  - intros [c [Hin <-]%head_filter_Some]. by exists c.
Qed.
Lemma completed_graph_reachable g t : workflow_reachable g -> ready g t -> workflow_reachable (completed_graph t g).
Proof.
  intros Hg Ht. unfold workflow_reachable. eapply rtc_r; [exact Hg|].
  replace (completed_graph t g) with (complete g t).1 by by rewrite complete_ready. constructor.
Qed.
Lemma wp_complete_task d0 t a r d :
  live d0 r d ->
  wp d0 (complete_task t a) r (fun _ r' => exists d', live d0 r' d' /\
    ready (workflow r) t /\ workflow r' = completed_graph t (workflow r) /\ cancelled r' = cancelled r /\
    journal r' = journal r).
Proof.
  intros Hl. pose proof Hl as [He Hc]. unfold complete_task. apply wp_bind, wp_gets.
  destruct (complete_not_ready (workflow r) t) as [[Hr ->]|[_ [e ->]]]; apply wp_bind.
  2:{ eapply wp_lift; [done..| |done]. by intros e' [= <-]. }
  unfold wp at 1, lift. cbn [map_err]. apply wp_bind.
  assert (Hnc : completions d !! t = None).
  { destruct Hr as (_ & Hr & _). rewrite (completed_log _ _ _ Hc) in Hr. by apply eq_None_not_Some. }
  eapply wp_commit; [done|done|done|by left|]. intros st d' Hd Hst.
  pose proof (commits_frame _ _ _ _ Hd) as (Hj & _ & Hcan & Hadm & Hid).
  assert (Hcomp : completion_history d' = completion_history d ++ [{| completion_task_id := t; completion_attempt_id := a |}]).
  { destruct Hd as [c e Hm _ _ _ _ _|rev Hi].
    - apply apply_mutation_Ok in Hm. inversion Hm; subst; [done|]. simpl in *. congruence.
    - apply (ledger_recorded _ _ _ _ _ (RecordCompletion {| completion_task_id := t; completion_attempt_id := a |})
        (coherent_committed _ _ Hc)) in Hi; [|by left]. simpl in Hi. congruence. }
  apply wp_bind, wp_modify. set (r1 := set_workflow (completed_graph t (workflow r)) (set_store st (revision d') r)).
  assert (Hl1 : live d0 r1 d').
  { eapply (live_next d0 r d Hl st); try done; try (by left); try (by eapply identified_same); cbn -[from_durable_state completion_log]; rewrite ?Hadm, ?Hcan, ?Hj; try apply Hc.
    - rewrite Hcomp, fmap_app, <- (co_completed _ _ Hc). unfold completion_log at 1. cbn. by rewrite fmap_app.
    - apply completed_graph_reachable; [apply Hc|done]. }
  eapply wp_emit_completed; [done|]. intros t'. exists d'. split_and!; [by apply live_streams|done..].
Qed.

(** ** Effects *)
Section journal_of_run.
Context r d (Hc : coherent r d).
Let L : lineage d := coherent_lineage r d Hc.
Lemma run_view : journal_of_log (durable_facts d) (journal r).
Proof. apply (view_log d L _ (co_journal _ _ Hc)). Qed.
Lemma run_state o : journal_state (journal r) o = effect_state d o.
Proof. rewrite (journal_state_log _ _ run_view). apply (log_state_run d L). Qed.
Lemma run_intent o : journal_intent (journal r) o = ok_or (intents d !! o) (UnknownOperation o).
Proof. unfold journal_intent. by rewrite (view_intents d L _ (co_journal _ _ Hc)). Qed.
Lemma run_owner t : journal_task_operations (journal r) !! t = task_operations d !! t.
Proof. apply (view_owners d L _ (co_journal _ _ Hc)). Qed.
Lemma run_latest o : journal_latest_dispatch (journal r) o = latest_dispatch d o.
Proof. rewrite (journal_latest_dispatch_log _ _ run_view). apply log_latest_run. Qed.
Lemma effect_prepared o : effect_state d o = Prepared -> dispatches_of d o = [].
Proof.
  unfold effect_state. case_bool_decide; cbn; [|done]. unfold latest_dispatch.
  destruct (last (dispatches_of d o)) as [x|] eqn:Ex; [by case_match|]. by apply last_None in Ex.
Qed.
End journal_of_run.
Lemma wp_record_dispatch d0 o a r d :
  live d0 r d ->
  (forall i, intents d !! o = Some i -> semantics i = NonIdempotent -> dispatches_of d o = []) ->
  wp d0 (record_dispatch o a) r (fun _ r' => exists d', live d0 r' d' /\ workflow r' = workflow r).
Proof.
  intros Hl Hn. pose proof Hl as [He Hc]. unfold record_dispatch. apply wp_bind, wp_gets, wp_bind.
  set (x := {| dispatch_operation_id := o |}).
  eapply wp_lift; [done|apply (persist_returns _ (FactDispatch x))|done|]. intros j' Hj. apply wp_bind.
  eapply wp_commit; [done|done|exact Hn|by left|]. intros st d' Hd Hst.
  pose proof (commits_frame _ _ _ _ Hd) as (_ & Hcomp & Hcan & Hadm & Hid).
  apply wp_bind, wp_modify, wp_ret. exists d'. split; [|done].
  eapply live_next; try done; try (by left); try (by eapply identified_same); cbn -[from_durable_state]; rewrite ?Hcomp, ?Hcan, ?Hadm; try apply Hc.
  destruct Hd as [c e Hm _ _ _ _ _|rev Hi].
  - change (from_durable_state c = Ok j'). eapply view_dispatch; try done; [by eapply coherent_lineage|apply Hc].
  - exfalso. apply (ledger_recorded _ _ _ _ _ (RecordDispatch x) (coherent_committed _ _ Hc)) in Hi; [|by left].
    cbn in Hi. unfold persist_dispatch in Hj. cbn in Hj.
    rewrite (view_dispatches _ (coherent_lineage _ _ Hc) _ (co_journal _ _ Hc)), Hi in Hj.
    case_bool_decide; [|done]. by rewrite bool_decide_true in Hj.
Qed.
Lemma wp_dispatch_effect d0 tree o r d :
  live d0 r d ->
  wp d0 (dispatch_effect tree o) r (fun _ r' => exists d', live d0 r' d' /\ workflow r' = workflow r).
Proof.
  intros Hl. pose proof Hl as [He Hc]. unfold dispatch_effect. apply wp_bind, wp_gets, wp_bind.
  rewrite (run_intent _ _ Hc). destruct (intents d !! o) as [i|] eqn:Ei.
  2:{ eapply wp_lift; [done..| |done]. by intros e [= <-]. }
  unfold wp at 1, lift. cbn [ok_or map_err]. apply wp_bind, wp_gets. rewrite (run_state _ _ Hc).
  case_bool_decide. { destruct (effect_state d o); by eapply wp_fail. }
  apply wp_bind. destruct (effect_state d o) eqn:Es.
  - unfold effect_state in Es. rewrite bool_decide_true in Es by (rewrite Ei; by eexists). cbn in Es.
    repeat case_match; done.
  - eapply wp_mono; [by eapply wp_attempt_or_begin|]. intros a r' (d' & Hl' & _ & Hf). pose proof Hl' as [He' Hc'].
    eapply wp_mono; [eapply wp_record_dispatch; [exact Hl'|]|].
    + intros i' _ _. apply effect_prepared. by rewrite <- (run_state _ _ Hc'), (fr_journal _ _ Hf), (run_state _ _ Hc).
    + intros x r2 (d2 & ? & ->). exists d2. split; [done|]. by apply Hf.
  - by eapply wp_fail.
  - case_bool_decide as Hsem; [by eapply wp_fail|].
    eapply wp_mono; [by eapply wp_begin_attempt|]. intros a r' (d' & Hl' & _ & Hf). pose proof Hl' as [He' Hc'].
    eapply wp_mono; [eapply wp_record_dispatch; [exact Hl'|]|].
    + intros i' Hi' Hs'. exfalso. pose proof (run_intent _ _ Hc' o) as Hj.
      rewrite (fr_journal _ _ Hf), (run_intent _ _ Hc), Ei, Hi' in Hj. cbn in Hj. congruence.
    + intros x r2 (d2 & ? & ->). exists d2. split; [done|]. by apply Hf.
Qed.
Lemma wp_record_effect_outcome d0 o a x r d :
  live d0 r d ->
  wp d0 (record_effect_outcome o a x) r (fun _ r' => exists d', live d0 r' d' /\ workflow r' = workflow r).
Proof.
  intros Hl. pose proof Hl as [He Hc]. unfold record_effect_outcome. apply wp_bind, wp_gets, wp_bind.
  set (y := {| outcome_operation_id := o |}).
  eapply wp_lift; [done|apply (persist_returns _ (FactOutcome y))|done|]. intros j' Hj. apply wp_bind.
  eapply wp_commit; [done|done|done|by left|]. intros st d' Hd Hst.
  pose proof (commits_frame _ _ _ _ Hd) as (_ & Hcomp & Hcan & Hadm & Hid).
  apply wp_modify. exists d'. split; [|done].
  eapply live_next; try done; try (by left); try (by eapply identified_same); cbn -[from_durable_state]; rewrite ?Hcomp, ?Hcan, ?Hadm; try apply Hc.
  destruct Hd as [c e Hm _ _ _ _ _|rev Hi].
  - change (from_durable_state c = Ok j'). eapply view_outcome; try done; [by eapply coherent_lineage|apply Hc].
  - apply (ledger_recorded _ _ _ _ _ (RecordOutcome y) (coherent_committed _ _ Hc)) in Hi; [|by left].
    destruct Hi as (z & Hz & Ho). rewrite (co_journal _ _ Hc). f_equal.
    unfold persist_outcome in Hj. cbn in Hz, Ho, Hj.
    rewrite (view_outcomes _ (coherent_lineage _ _ Hc) _ (co_journal _ _ Hc)), Hz in Hj.
    case_bool_decide; [|done]. cbn in Hj. case_match; [|done]. case_bool_decide; [|done]. cbn in Hj.
    rewrite bool_decide_true in Hj by done. by injection Hj.
Qed.
Lemma complete_decision_known fs j w o d :
  journal_of_log fs j -> classify_recovery w j o = Ok d -> action d = CompleteWithoutReexecution ->
  is_Some (known_outcome j o).
Proof.
  intros J. rewrite (classify_recovery_policy _ _ _ _ J), (known_outcome_log _ _ J).
  destruct (log_intent fs o) as [i|]; [|done]. intros [= <-]. unfold recovery_policy.
  destruct (graph_task w _); [|done]. destruct (log_latest fs o) as [x|]; [|by case_match].
  destruct (log_outcome fs _) as [y|] eqn:Ey; cbn; [by rewrite Ey|]. repeat case_match; done.
Qed.
(** What is completed stays so, and nothing else changes. *)
Record completes (w w' : WorkflowGraph) : Prop := {
  cs_topology : topology w' = topology w;
  cs_completed : WorkflowGraph.completed (facts w) ⊆ WorkflowGraph.completed (facts w')
}.
Lemma completes_refl w : completes w w.
Proof. by split. Qed.
Lemma completes_trans w1 w2 w3 : completes w1 w2 -> completes w2 w3 -> completes w1 w3.
Proof. intros [] []. split; [congruence|set_solver]. Qed.
(** The task of an effect known to have succeeded is completed, if the
    workflow has it. *)
Definition settled_effect (j : DurableJournal) (w : WorkflowGraph) (o : OperationId) : Prop :=
  forall i, journal_intents j !! o = Some i -> journal_state j o = OutcomeKnown Succeeded ->
    is_Some (graph_task w (intent_task_id i)) -> intent_task_id i ∈ WorkflowGraph.completed (facts w).
Lemma decision_settled fs j w o x :
  journal_of_log fs j -> classify_recovery w j o = Ok x -> action x <> CompleteWithoutReexecution -> settled_effect j w o.
Proof.
  intros J. rewrite (classify_recovery_policy _ _ _ _ J). intros Hx Ha i Hi Hs [t Ht].
  rewrite (jl_intents _ _ J) in Hi. rewrite Hi in Hx. rewrite (journal_state_log _ _ J) in Hs. unfold log_state in Hs.
  rewrite Hi in Hs. injection Hx as <-. revert Ha. unfold recovery_policy. rewrite Ht.
  destruct (log_latest fs o) as [y|]; [|done]. destruct (log_outcome fs _) as [z|]; [|done].
  injection Hs as Hs. cbn. rewrite Hs. destruct (WorkflowGraph.is_completed w _) eqn:E; [|done].
  intros _. by apply is_completed_spec.
Qed.
Lemma wp_recover d0 o r d :
  live d0 r d -> wp d0 (recover o) r (fun _ r' => arrives d0 r' /\ journal r' = journal r /\
    completes (workflow r) (workflow r') /\ settled_effect (journal r) (workflow r') o).
Proof.
  intros Hl. pose proof Hl as [He Hc]. unfold recover. apply wp_bind.
  pose proof (classify_recovery_policy (workflow r) _ _ o (run_view _ _ Hc)) as Hcl.
  eapply wp_reads; [done| | |].
  { rewrite Hcl. by destruct (log_intent _ _). }
  { rewrite Hcl. destruct (log_intent _ _); [done|]. by intros e [= <-]. }
  intros x Hx. assert (Hx' : classify_recovery (workflow r) (journal r) o = Ok x).
  { revert Hx. cbn. destruct (classify_recovery _ _ _); cbn; congruence. }
  case_bool_decide as Ha.
  2:{ apply wp_ret. split; [by exists d|]. split_and!; [done|apply completes_refl|].
      eapply decision_settled; [by apply run_view|done|done]. }
  apply wp_bind, wp_gets, wp_bind. rewrite (run_intent _ _ Hc).
  destruct (intents d !! o) as [i|] eqn:Ei.
  2:{ eapply wp_lift; [done..| |done]. by intros e [= <-]. }
  unfold wp at 1, lift. cbn [ok_or map_err].
  destruct (complete_decision_known _ _ (workflow r) _ _ (run_view _ _ Hc) Hx' Ha) as [y Hy].
  apply wp_bind. unfold wp at 1, lift. rewrite Hy. cbn [expect map_err].
  assert (Hset : forall w, intent_task_id i ∈ WorkflowGraph.completed (facts w) -> settled_effect (journal r) w o).
  { intros w Hin i' Hi'. pose proof (run_intent _ _ Hc o) as Hj. unfold journal_intent in Hj. rewrite Hi', Ei in Hj.
    cbn in Hj. by injection Hj as ->. }
  apply wp_bind, wp_gets. apply wp_bind. destruct (WorkflowGraph.is_completed _ _) eqn:Ec.
  { split; [by exists d|]. split_and!; [done|apply completes_refl|]. by apply Hset, is_completed_spec. }
  eapply wp_mono; [by eapply wp_complete_task|]. intros [] r' (d' & ? & _ & Hw & _ & Hj).
  split; [by exists d'|]. split; [done|]. rewrite Hw. split; [split; cbn; [done|set_solver]|]. apply Hset. cbn. set_solver.
Qed.
Lemma wp_cancel_task d0 t r d :
  live d0 r d -> wp d0 (cancel_task t) r (fun _ r' => arrives d0 r').
Proof.
  intros Hl. pose proof Hl as [He Hc]. unfold cancel_task. apply wp_bind, wp_gets.
  destruct (graph_task _ _); [|by eapply wp_fail].
  apply wp_bind, wp_gets, wp_bind, wp_gets, wp_bind, wp_gets, wp_bind.
  set (c := {| cancellation_run_id := runtime_run_id r |}).
  eapply wp_commit; [done|done|done|by left|]. intros st d' Hd Hst.
  pose proof (commits_frame _ _ _ _ Hd) as (Hj & Hcomp & _ & Hadm & Hid).
  apply wp_bind, wp_gets, wp_bind, wp_modify, wp_ret. exists d'.
  assert (Hcan : dom (cancellations d') = {[t]} ∪ dom (cancellations d)).
  { destruct Hd as [c' e Hm _ _ _ _ _|rev Hi].
    - apply apply_mutation_Ok in Hm. inversion Hm; subst; cbn; [by rewrite dom_insert_L|].
      enough (t ∈ dom (cancellations c')) by set_solver. apply elem_of_dom. by exists c.
    - apply (ledger_recorded _ _ _ _ _ (RecordCancellation c) (coherent_committed _ _ Hc)) in Hi; [|by left].
      enough (t ∈ dom (cancellations d)) by set_solver. apply elem_of_dom. by exists c. }
  eapply live_next; try done; try (by left); try (by eapply identified_same); cbn -[from_durable_state]; rewrite ?Hcomp, ?Hadm, ?Hj; try apply Hc.
  by rewrite Hcan, (co_cancelled _ _ Hc).
Qed.

(** ** The workflow and its configuration *)
Lemma wp_commit_workflow_identity d0 i w cs r d (Q : StoreRevision -> Runtime S -> Prop) :
  live d0 r d -> legacy_workflow_replay_identity w cs = Ok i -> workflow_reachable w ->
  completion_log w = completion_log (workflow r) ->
  (identity_provenance r = LegacyLiveObject -> (dom cs : gset Id) ⊆ dom (tasks (topology w))) ->
  (forall st d', live d0 (set_facts w (journal r) cs (identity_provenance r) (cancelled r) (set_store st (revision d') r)) d' ->
     Q (revision d') (set_store st (revision d') r)) ->
  wp d0 (commit_workflow_identity i) r Q.
Proof.
  intros Hl Hi Hw Hlog Hcs HQ. pose proof Hl as [He Hc]. apply wp_bind, wp_gets.
  rewrite (co_revision _ _ Hc). eapply wp_commit; [done|done|done|by left|].
  intros st d' Hd Hst. pose proof (commits_frame _ _ _ _ Hd) as (Hj & Hcomp & Hcan & Hadm & _). apply HQ.
  eapply (live_next d0 r d Hl st); try done; try (by left); cbn -[from_durable_state];
    rewrite ?Hcomp, ?Hcan, ?Hadm, ?Hj, ?Hlog; try apply Hc.
  intros _. exists i. split; [done|].
  destruct Hd as [c e Hm _ _ _ _ _|rev Hk].
  - apply apply_mutation_Ok in Hm. by inversion Hm.
  - pose proof (identity_key_fresh _ _ i (coherent_committed _ _ Hc) (co_orderly _ _ Hc)) as Hf.
    discriminate (eq_trans (eq_sym Hf) Hk).
Qed.
Lemma wp_ensure_legacy d0 o r d (Q : unit -> Runtime S -> Prop) :
  live d0 r d -> Q tt r -> wp d0 (ensure_legacy_mutation_allowed o) r Q.
Proof. intros Hl HQ. apply wp_bind, wp_gets. case_bool_decide; [by eapply wp_fail|done]. Qed.
Lemma legacy_identity_outcome w cs :
  returns (legacy_workflow_replay_identity w cs) /\
  forall e, legacy_workflow_replay_identity w cs = Err e -> lost (RuntimeStore e) = false.
Proof.
  unfold legacy_workflow_replay_identity, WorkflowReplayIdentity_new. cbv zeta. case_match; [|done].
  split; [done|]. by intros e [= <-].
Qed.
Lemma wp_configure_task d0 t c r d :
  live d0 r d -> wp d0 (configure_task t c) r (fun _ r' => arrives d0 r').
Proof.
  intros Hl. apply wp_bind. eapply wp_ensure_legacy; [done|]. apply wp_bind, wp_gets.
  destruct (graph_task _ _) as [x|] eqn:Ht; [|by eapply wp_fail]. apply wp_bind, wp_gets, wp_bind.
  eapply wp_lift; [done|apply legacy_identity_outcome|by eapply legacy_identity_outcome|]. intros i Hi.
  apply wp_bind. eapply wp_commit_workflow_identity; [done|exact Hi|apply Hl|done| |].
  { intros Hp. rewrite dom_insert_L. pose proof (co_configs _ _ (proj2 Hl) Hp).
    assert (t ∈ dom (tasks (topology (workflow r)))) by (apply elem_of_dom; by exists x). set_solver. }
  intros st d' Hl'. apply wp_modify. by exists d'.
Qed.
Lemma wp_apply_workflow_mutation d0 rev b r d :
  live d0 r d -> wp d0 (apply_workflow_mutation rev b) r (fun _ r' => arrives d0 r').
Proof.
  intros Hl. pose proof Hl as [He Hc]. apply wp_bind. eapply wp_ensure_legacy; [done|]. apply wp_bind, wp_gets.
  pose proof (workflow_reachable_wf _ (co_workflow _ _ Hc)) as Hwf.
  assert (Hr : workflow_reachable (apply_batch (workflow r) rev b).1).
  { eapply rtc_r; [apply Hc|constructor]. }
  destruct (apply_batch_cases (workflow r) rev b Hwf) as [(c & x & g & Hb & _ & _ & _ & _ & Hext & [_ Hg] & _)|[e Hb]];
    rewrite Hb in *; apply wp_bind.
  2:{ eapply wp_lift; [done..| |done]. by intros ? [= <-]. }
  unfold wp at 1, lift. cbn [map_err]. apply wp_bind, wp_gets, wp_bind.
  eapply wp_lift; [done|apply legacy_identity_outcome|by eapply legacy_identity_outcome|]. intros i Hi.
  apply wp_bind. eapply wp_commit_workflow_identity; [done|exact Hi|done|by rewrite Hg| |].
  { intros Hp. pose proof (co_configs _ _ Hc Hp) as Hcs. rewrite Hg. cbn. etransitivity; [exact Hcs|].
    apply subseteq_dom, Hext. }
  intros st d' Hl'. apply wp_bind, wp_modify, wp_ret. by exists d'.
Qed.

(** ** Observations again *)
Lemma wp_retry d0 item r d :
  live d0 r d -> wp d0 (retry_execution_event item) r (fun _ r' => arrives d0 r').
Proof.
  intros Hl. unfold wp, retry_execution_event. destruct (pending_started r) as [[a i]|] eqn:Hp.
  - assert (Ha : owns d a) by (eapply (co_pending _ _ (proj2 Hl)); exact Hp).
    assert (Hl1 : live d0 (set_pending None r) d) by by apply live_pending.
    destruct (enqueue_cases (set_pending None r) i) as (t & [->| ->]); exists d.
    + apply live_push; [by apply live_streams|done].
    + apply live_pending; [by apply live_streams|]. by intros ? ? [= <- _].
  - destruct (enqueue_cases r item) as (t & [->| ->]); exists d; by apply live_streams.
Qed.
Lemma wp_emit_progress d0 t n r d :
  live d0 r d -> wp d0 (emit_progress t n) r (fun _ r' => arrives d0 r').
Proof.
  intros Hl. unfold wp, emit_progress, emit. destruct (sq_exhausted _); [exists d; by apply live_streams|].
  unfold coalescing_try_push. repeat case_match; simplify_eq/=; exists d; by apply live_streams.
Qed.
Lemma wp_emit_telemetry d0 m r d :
  live d0 r d -> wp d0 (emit_telemetry m) r (fun _ r' => arrives d0 r').
Proof.
  intros Hl. unfold wp, emit_telemetry, emit. destruct (sq_exhausted _); exists d; by apply live_streams.
Qed.

(** ** The scheduler *)
Definition advance (x : StepResult) (w w' : WorkflowGraph) : Prop :=
  match x with Completed t _ => ready w t /\ w' = completed_graph t w | _ => w' = w end.
Lemma wp_ensure_configured_effect d0 t r d :
  live d0 r d ->
  wp d0 (ensure_configured_effect t) r (fun x r' => exists d', live d0 r' d' /\ workflow r' = workflow r /\
    cancelled r' = cancelled r /\ forall o s, x = Some (o, s) -> task_operations d' !! t = Some o).
Proof.
  intros Hl. pose proof Hl as [He Hc]. apply wp_bind, wp_gets. unfold journal_operation_for_task.
  rewrite (run_owner _ _ Hc). destruct (task_operations d !! t) as [o|] eqn:Eo.
  - apply wp_bind. rewrite (run_intent _ _ Hc).
    destruct (li_owner _ (coherent_lineage _ _ Hc) _ _ Eo) as (i & Hi & _). rewrite Hi.
    exists d. split_and!; try done. by intros ? ? [= <- <-].
  - apply wp_bind, wp_gets. destruct (task_configs r !! t ≫= config_effect) as [e|]; [|by exists d].
    apply wp_bind. eapply wp_mono; [by eapply wp_record_effect_intent|].
    intros [] r' (d' & Hl' & Hj & Hw & Hcan & _). exists d'. split_and!; try done.
    intros o s [= <- <-]. by rewrite <- (run_owner _ _ (proj2 Hl')).
Qed.
Lemma wp_step_effect d0 tree t o r d :
  live d0 r d -> task_operations d !! t = Some o ->
  wp d0 (step_effect tree t o) r (fun x r' => exists d', live d0 r' d' /\ advance x (workflow r) (workflow r') /\
    cancelled r' = cancelled r).
Proof.
  intros Hl Ht. pose proof Hl as [He Hc]. apply wp_bind, wp_gets.
  destruct (li_owner _ (coherent_lineage _ _ Hc) _ _ Ht) as (i & Hi & _).
  destruct (journal_state (journal r) o) as [| |[|]|] eqn:Ej.
  - exfalso. revert Ej. rewrite (run_state _ _ Hc). unfold effect_state. rewrite bool_decide_true by by exists i.
    cbn. repeat case_match; done.
  - apply wp_bind. eapply wp_mono; [by eapply wp_attempt_or_begin|]. intros a r' (d' & Hl' & _ & []).
    apply wp_ret. by exists d'.
  - apply wp_bind. assert (Hk : is_Some (known_outcome (journal r) o)).
    { unfold journal_state in Ej. destruct (negb _); [done|].
      destruct (known_outcome (journal r) o); [by eexists|]. by destruct (journal_latest_dispatch _ _). }
    destruct Hk as [y Hy]. unfold wp at 1, lift. rewrite Hy. cbn [expect map_err].
    apply wp_bind. eapply wp_mono; [by eapply wp_complete_task|].
    intros [] r' (d' & ? & ? & ? & ? & _). apply wp_ret. by exists d'.
  - by exists d.
  - apply wp_bind.
    pose proof (classify_recovery_policy (workflow r) _ _ o (run_view _ _ Hc)) as Hcl.
    eapply wp_reads; [done| | |].
    { rewrite Hcl. by destruct (log_intent _ _). }
    { rewrite Hcl. destruct (log_intent _ _); [done|]. by intros e [= <-]. }
    intros x _. apply wp_ret. by exists d.
Qed.
Lemma advance_same x w w' w1 : w1 = w -> advance x w1 w' -> advance x w w'.
Proof. by intros ->. Qed.
Lemma wp_step_task d0 tree t r d :
  live d0 r d ->
  wp d0 (step_task tree t) r (fun x r' => exists d', live d0 r' d' /\ advance x (workflow r) (workflow r') /\
    cancelled r' = cancelled r).
Proof.
  intros Hl. apply wp_bind. eapply wp_mono; [by eapply wp_ensure_configured_effect|].
  intros x r1 (d1 & Hl1 & Hw1 & Hcan1 & Ho). destruct x as [[o s]|].
  - eapply wp_mono; [eapply wp_step_effect; [exact Hl1|by eapply Ho]|].
    intros x r2 (d2 & ? & Ha & Hcan2). exists d2. split_and!; [done|by eapply advance_same|congruence].
  - apply wp_bind. eapply wp_mono; [by eapply wp_attempt_or_begin|]. intros a r2 (d2 & Hl2 & _ & [_ Hw2 Hcan2]).
    apply wp_bind. eapply wp_mono; [by eapply wp_complete_task|].
    intros [] r3 (d3 & Hl3 & Hr & Hw & Hcan3 & _). apply wp_ret. exists d3.
    assert (workflow r2 = workflow r) as Hw' by congruence. rewrite Hw' in Hr, Hw.
    split; [done|]. split; [done|congruence].
Qed.
Lemma wp_step d0 tree r d :
  live d0 r d ->
  wp d0 (step tree) r (fun x r' => exists d', live d0 r' d' /\ advance x (workflow r) (workflow r') /\
    cancelled r' = cancelled r).
Proof.
  intros Hl. unfold wp, step. destruct (pending_started r) as [[a i]|]; [by exists d|].
  destruct (next_ready r) as [t|]; [|by exists d]. by apply (wp_step_task _ tree t _ _ Hl).
Qed.

(** *** The rounds of [run_until_blocked] *)
Definition incomplete (w : WorkflowGraph) : nat :=
  size ((dom (tasks (topology w)) : gset Id) ∖ WorkflowGraph.completed (facts w)).
Lemma incomplete_completed w t : ready w t -> incomplete (completed_graph t w) < incomplete w.
Proof.
  intros ([x Ht] & Hn & _). unfold incomplete. apply subset_size. cbn. apply elem_of_dom_2 in Ht. set_solver.
Qed.
(** The tasks [ts] complete one after the other, and [x] ends the rounds. *)
Inductive rounds_done : list StepResult -> WorkflowGraph -> WorkflowGraph -> Prop :=
  | rounds_last x w : (forall t a, x <> Completed t a) -> rounds_done [x] w w
  | rounds_next t a l w w' : ready w t -> rounds_done l (completed_graph t w) w' ->
      rounds_done (Completed t a :: l) w w'.
Lemma wp_run_rounds d0 fuel tree results r d :
  live d0 r d -> incomplete (workflow r) < fuel ->
  wp d0 (run_rounds fuel tree results) r (fun l r' => arrives d0 r' /\
    exists l', l = results ++ l' /\ rounds_done l' (workflow r) (workflow r')).
Proof.
  revert results r d. induction fuel as [|fuel IH]; intros results r d Hl Hf; [lia|].
  cbn [run_rounds]. apply wp_bind. eapply wp_mono; [by eapply wp_step|].
  intros x r1 (d1 & Hl1 & Ha & _). destruct x; cbn in Ha.
  1: { destruct Ha as [Hr Hw]. eapply wp_mono; [eapply IH; [exact Hl1|]|].
    - rewrite Hw. pose proof (incomplete_completed _ _ Hr). lia.
    - intros l r2 (Harr & l' & -> & Hd). split; [done|]. eexists. rewrite <- (assoc_L (++)). split; [done|].
      rewrite Hw in Hd. by constructor. }
  all: apply wp_ret; split; [by exists d1|]; eexists; split; [done|]; rewrite Ha; by constructor.
Qed.
Lemma run_fuel_enough r : incomplete (workflow r) < run_fuel r.
Proof.
  unfold incomplete, run_fuel. rewrite <- (size_dom (D := gset Id)). apply le_n_S, subseteq_size. set_solver.
Qed.
Lemma wp_run_until_blocked d0 tree r d :
  live d0 r d ->
  wp d0 (run_until_blocked tree) r (fun l r' => arrives d0 r' /\ rounds_done l (workflow r) (workflow r')).
Proof.
  intros Hl. unfold run_until_blocked.
  pose proof (wp_run_rounds d0 (run_fuel r) tree [] r d Hl (run_fuel_enough r)) as Hw.
  unfold wp in *. destruct (run_rounds _ _ _ _) as [r' [l|e|p|]]; try done.
  destruct Hw as (? & l' & -> & ?). done.
Qed.
End operations.
