(* ===== verification/RuntimeRestart.v ===== *)
(** * Starting and restoring a run

    A run that starts is coherent with the state its first commit leaves, and
    so is a run that is restored; what restoring rebuilds is determined by the
    durable state. *)
From S2P Require Export RuntimeOps.
#[local] Open Scope string_scope.
#[local] Open Scope nat_scope.
#[local] Open Scope list_scope.

(** ** Replaying a workflow *)
Lemma erase_facts_fresh g : workflow_reachable g -> completion_log g = [] -> erase_facts g = g.
Proof.
  intros Hg Hl. pose proof (wf_graph_logs _ (workflow_reachable_wf _ Hg)) as Hw.
  assert (Hc : WorkflowGraph.completed (facts g) = ∅).
  { apply set_eq. intros x. rewrite (wf_log_completed _ Hw), Hl. set_solver. }
  unfold completion_log in Hl. unfold erase_facts, with_facts, ExecutionFacts_default.
  destruct g as [? [? ?] ? ?]. cbn in *. by subst.
Qed.
Lemma replay_completions_grow l g g' :
  workflow_reachable g -> foldM replay_completion l g = Ok g' ->
  workflow_reachable g' /\ topology g' = topology g /\ mutation_log g' = mutation_log g /\
  completion_log g' = completion_log g ++ l.
Proof.
  revert g. induction l as [|c l IH]; intros g Hg; cbn [foldM].
  { intros [= <-]. by rewrite app_nil_r. }
  intros (g1 & Hc & Hl)%bind_Ok. unfold replay_completion in Hc.
  destruct (complete_not_ready g (cr_task_id c)) as [[Hr Heq]|[_ [e Heq]]]; rewrite Heq in Hc; [|done].
  injection Hc as <-. destruct (IH _ (completed_graph_reachable _ _ Hg Hr) Hl) as (? & -> & -> & ->).
  split_and!; try done. unfold completion_log at 1. cbn. rewrite <- (assoc_L (++)). by destruct c.
Qed.
(** The supplied workflow is unfinished; what comes back is the workflow with
    the durable completions. *)
Lemma replay_workflow_Ok w cs w' :
  workflow_reachable w -> completion_log w = [] -> replay_workflow w cs = Ok w' ->
  workflow_reachable w' /\ topology w' = topology w /\ mutation_log w' = mutation_log w /\
  cr_task_id <$> completion_log w' = completion_task_id <$> cs.
Proof.
  intros Hw Hl. unfold replay_workflow, replay_with_facts.
  destruct (workflow_reachable_replays w Hw) as [-> _]. cbn [mbind result_bind].
  rewrite (erase_facts_fresh w Hw Hl).
  destruct (foldM _ _ _) as [g|e|p|] eqn:Hf; try done. intros [= <-].
  destruct (replay_completions_grow _ _ _ Hw Hf) as (? & ? & ? & ->). split_and!; try done.
  rewrite Hl, app_nil_l, <- list_fmap_compose. done.
Qed.
Lemma replay_completion_returns g c : workflow_reachable g -> returns (replay_completion g c).
Proof.
  intros _. unfold replay_completion.
  destruct (complete_not_ready g (cr_task_id c)) as [[_ ->]|[_ [e ->]]]; done.
Qed.
Lemma replay_workflow_returns w cs : workflow_reachable w -> returns (replay_workflow w cs).
Proof.
  intros Hw. unfold replay_workflow, replay_with_facts. apply returns_map_err.
  destruct (workflow_reachable_replays w Hw) as [-> _]. cbn [mbind result_bind].
  apply foldM_returns_all. intros g c. unfold replay_completion.
  destruct (complete_not_ready g (cr_task_id c)) as [[_ ->]|[_ [e ->]]]; done.
Qed.
(** A live workflow comes back exactly. *)
Lemma replay_workflow_live g w cs :
  workflow_reachable g -> workflow_reachable w -> completion_log w = [] -> mutation_log w = mutation_log g ->
  cr_task_id <$> completion_log g = completion_task_id <$> cs -> replay_workflow w cs = Ok g.
Proof.
  intros Hg Hw Hl Hm Hcs. unfold replay_workflow, replay_with_facts. rewrite Hm.
  destruct (workflow_reachable_replays g Hg) as [-> Hr]. cbn [mbind result_bind].
  assert ((fun c => {| cr_task_id := completion_task_id c |}) <$> cs = completion_log g) as ->; [|by rewrite Hr].
  clear -Hcs. revert Hcs. generalize (completion_log g). induction cs as [|c cs IH]; intros [|[x] l]; try done.
  rewrite !fmap_cons. intros [= -> Hl]. f_equal. by apply IH.
Qed.

(** ** Restored attempts *)
Definition restored (x : AttemptAdmission) (a : TaskAttempt) : Prop :=
  ta_run_id a = admission_run_id x /\ ta_task_id a = admission_task_id x /\
  ta_attempt_id a = admission_attempt_id x /\ ta_operation_id a = admission_operation_id x.
Section restart.
Context {S : Type} {DS : DurableStore S} {SF : StoreFormat} {SL : StoreFormatLaws} {C : StoreContract S}.
Implicit Types r : Runtime S.

Lemma capture_same tree t x r r' :
  task_configs r' = task_configs r -> capability_runtime r' = capability_runtime r ->
  capture_capability_pins tree t x r' = capture_capability_pins tree t x r.
Proof. unfold capture_capability_pins. by intros -> ->. Qed.
Lemma restore_attempts_Ok tree l r r' :
  foldM (restore_attempt tree) l r = Ok r' ->
  exists as_, r' = set_attempts (runtime_attempts r ++ as_) (pending_started r) (next_attempt_number r) r /\
    Forall2 restored l as_.
Proof.
  revert r. induction l as [|x l IH]; intros r; cbn [foldM].
  { intros [= <-]. exists []. rewrite app_nil_r. split; [by destruct r|constructor]. }
  intros (r1 & H1 & H2)%bind_Ok. unfold restore_attempt in H1. apply bind_Ok in H1 as (pins & _ & [= <-]).
  destruct (IH _ H2) as (as_ & -> & Has). eexists (_ :: as_). split.
  - unfold push_attempt, set_attempts. cbn. by rewrite <- (assoc_L (++)).
  - by constructor.
Qed.
Lemma restore_attempts_outcome tree l r :
  returns (foldM (restore_attempt tree) l r) /\
  forall e, foldM (restore_attempt tree) l r = Err e -> lost e = false.
Proof.
  split.
  - apply foldM_returns_all. intros r1 x. unfold restore_attempt. apply returns_bind; [apply capture_outcome|done].
  - intros e (r1 & x & He)%foldM_Err. unfold restore_attempt in He.
    apply bind_Err in He as [He|(? & _ & He)]; [by eapply capture_outcome|done].
Qed.
(** Every attempt is restored when its capabilities are as admitted. *)
Lemma restore_attempts_captured tree l r :
  (forall x, x ∈ l -> is_Ok (capture_capability_pins tree (admission_task_id x) (Some (capabilities x)) r)) ->
  is_Ok (foldM (restore_attempt tree) l r).
Proof.
  revert r. induction l as [|x l IH]; intros r Hx; [by eexists|]. cbn [foldM].
  destruct (Hx x) as [pins Hp]; [by left|]. 
  assert (exists r1, restore_attempt tree r x = Ok r1 /\ task_configs r1 = task_configs r /\
    capability_runtime r1 = capability_runtime r) as (r1 & -> & Hcs & Hcr).
  { unfold restore_attempt. rewrite Hp. by eexists. }
  cbn [mbind result_bind]. apply IH. intros y Hy. erewrite capture_same by done. apply Hx. by right.
Qed.

(** ** Restoring from a loaded state *)
Lemma build_Ok run w scope cs j (st : S) rev :
  exists t, build run w scope cs j st rev =
    Ok {| runtime_run_id := run; workflow := w; capability_runtime := ReactiveRuntime_new (from_scope scope);
          journal := j; store := st; store_revision := rev; identity_provenance := LegacyLiveObject;
          task_configs := cs; runtime_attempts := []; pending_started := None; cancelled := ∅;
          next_attempt_number := 1%N; streams := t |}.
Proof.
  unfold build. destruct streams_new as [t| | |] eqn:E; [by exists t|exfalso; vm_compute in E; discriminate E..].
Qed.
Lemma next_attempt_after_small n : (N.of_nat n < u64_max)%N -> next_attempt_after n = N.of_nat (n + 1).
Proof.
  intros Hn. unfold next_attempt_after, u64_max in *. rewrite (N.mod_small (N.of_nat n)) by lia.
  rewrite N.mod_small by lia. lia.
Qed.
(** What a restored runtime is made of. *)
Record rebuilt (run : RunId) (w : WorkflowGraph) (scope : ScopeId) (cs : gmap Id TaskConfig) (st : S)
  (p : IdentityProvenance) (d : DurableRunState) (r : Runtime S) : Prop := {
  rb_run : runtime_run_id r = run;
  rb_workflow : replay_workflow w (completion_history d) = Ok (workflow r);
  rb_scope : capability_runtime r = ReactiveRuntime_new (from_scope scope);
  rb_journal : from_durable_state d = Ok (journal r);
  rb_store : store r = st;
  rb_revision : store_revision r = revision d;
  rb_provenance : identity_provenance r = p;
  rb_configs : task_configs r = cs;
  rb_attempts : Forall2 restored (admission_history d) (runtime_attempts r);
  rb_pending : pending_started r = None;
  rb_cancelled : cancelled r = dom (cancellations d);
  rb_next : next_attempt_number r = next_attempt_after (length (admission_history d))
}.
Lemma cancelled_dom d : lineage d ->
  list_to_set (cancellation_task_id <$> cancellations_iter d) = (dom (cancellations d) : gset Id).
Proof.
  intros L. apply set_eq. intros t. rewrite elem_of_list_to_set, list_elem_of_fmap, elem_of_dom. split.
  - intros (c & -> & (k & Hc)%elem_of_map_values). exists c.
    destruct (li_cancellation _ L _ _ Hc) as [-> _]. done.
  - intros [c Hc]. exists c. destruct (li_cancellation _ L _ _ Hc) as [<- _]. split; [done|].
    apply elem_of_map_values. eauto.
Qed.
Lemma restore_loaded_outcome tree run w scope cs st p d :
  workflow_reachable w -> completion_log w = [] -> lineage d ->
  match restore_loaded tree run w scope cs st p d with
  | Ok r => rebuilt run w scope cs st p d r
  | Err e => lost e = false
  | _ => False
  end.
Proof.
  intros Hw Hl L. unfold restore_loaded.
  pose proof (replay_workflow_returns w (completion_history d) Hw) as Hret.
  destruct (replay_workflow w (completion_history d)) as [g|e|s|] eqn:Hg; try done.
  2:{ revert Hg. unfold replay_workflow. destruct (replay_with_facts _ _); cbn; try done. by intros [= <-]. }
  cbn [mbind result_bind]. destruct (from_durable_state_Ok d L) as (j & Hj & _). rewrite Hj.
  cbn [map_err mbind result_bind].
  destruct (build_Ok run g scope cs j st (revision d)) as [t ->]. cbn [mbind result_bind].
  set (r0 := set_cancelled _ _).
  pose proof (restore_attempts_outcome tree (attempts d) r0) as [Hr Hlost].
  destruct (foldM (restore_attempt tree) (attempts d) r0) as [r1|e|s|] eqn:Hf; try done; [|by apply Hlost].
  destruct (restore_attempts_Ok _ _ _ _ Hf) as (as_ & -> & Has). cbn [mbind result_bind].
  split; try done. cbn. by apply cancelled_dom.
Qed.
Lemma rebuilt_coherent run w scope cs st p d r :
  rebuilt run w scope cs st p d r -> workflow_reachable w -> completion_log w = [] ->
  holds run st (Some d) -> orderly d -> (0 < revision d)%N ->
  (p = LegacyLiveObject -> (dom cs : gset Id) ⊆ dom (tasks (topology w))) ->
  (p = LegacyLiveObject -> exists i, legacy_workflow_replay_identity w cs = Ok i /\ workflow_replay_identity d = Some i) ->
  coherent r d.
Proof.
  intros [] Hw Hl Hh Ho H0 Hcs Hi.
  pose proof (holds_committed _ _ _ Hh) as Hc. destruct (committed_inv _ _ Hc) as [L I].
  destruct (replay_workflow_Ok _ _ _ Hw Hl rb_workflow0) as (Hw' & Ht & _ & Hlog).
  split; try done.
  - unfold identified. rewrite rb_provenance0, rb_configs0, (legacy_identity_topology _ _ _ Ht). done.
  - unfold configured. by rewrite rb_provenance0, rb_configs0, Ht.
  - by rewrite rb_run0, rb_store0.
  - rewrite rb_next0. apply next_attempt_after_small. pose proof (or_room _ Ho).
    pose proof (ledger_bound _ _ I). unfold u64_ok in *. lia.
  - intros a [i Ha]%list_elem_of_lookup. destruct (Forall2_lookup_r _ _ _ _ _ rb_attempts0 Ha) as (x & Hx & _ & H2 & H3 & H4).
    exists x. rewrite H3. split_and!; [|done..]. apply list_elem_of_lookup_2 in Hx.
    rewrite (li_admissions _ L). apply (head_filter_key admission_attempt_id); [apply L|done].
  - intros a i. by rewrite rb_pending0.
Qed.

(** ** Starting *)

(** What a store may hold of a run no runtime is alive for. *)
Definition rests (run : RunId) (st : S) : Prop :=
  exists o, holds run st o /\ forall d, o = Some d -> orderly d.
Lemma rests_None run st : holds run st None -> rests run st.
Proof. by exists None. Qed.
Lemma rests_Some run st d : holds run st (Some d) -> orderly d -> rests run st.
Proof. intros Hh Ho. exists (Some d). split; [done|]. by intros ? [= <-]. Qed.
Lemma pristine_initial d : is_pristine_bootstrap d = true -> revision d = 0%N.
Proof. unfold is_pristine_bootstrap. rewrite !andb_true_iff. intros H. by apply N.eqb_eq, H. Qed.
Lemma create_or_adopt_outcome run st :
  rests run st ->
  let '(st', x) := create_or_adopt run st in
  match x with
  | Ok rev => rev = 0%N /\ holds run st' (Some (DurableRunState_new run))
  | Err _ => rests run st'
  | _ => False
  end.
Proof.
  intros (o & Hh & Ho). unfold create_or_adopt.
  pose proof (create_meets run st o Hh) as Hm. unfold meets in Hm.
  destruct (create_run st run) as [st1 x]. cbn in Hm. destruct Hm as [[-> Hh1]|(e & -> & Hb & Hh1)].
  - destruct o as [d|]; cbn in *; [|done].
    pose proof (load_meets run st1 (Some d) Hh1) as Hm. unfold meets in Hm.
    destruct (load_run st1 run) as [st2 y]. cbn in Hm. destruct Hm as [[-> Hh2]|(e & -> & Hb & Hh2)]; cbn.
    + destruct (is_pristine_bootstrap d) eqn:Hp.
      * split; [done|]. by rewrite <- (committed_initial _ _ (holds_committed _ _ _ Hh2) (pristine_initial _ Hp)).
      * eapply rests_Some; [done|by apply Ho].
    + eapply rests_Some; [by destruct Hh2|by apply Ho].
  - assert (rests run st1) as Hr.
    { destruct Hh1 as [Hh1|Hh1]; [by exists o|]. destruct o as [d|]; cbn in Hh1.
      - eapply rests_Some; [done|by apply Ho].
      - eapply rests_Some; [done|apply orderly_new]. }
    by destruct e.
Qed.
Definition alive (run : RunId) r : Prop := runtime_run_id r = run /\ exists d, coherent r d.
Definition started_well (run : RunId) (x : S * result RuntimeError (Runtime S)) : Prop :=
  match x with (_, Ok r) => alive run r | (st, Err _) => rests run st | _ => False end.
Lemma start_with_identity_outcome run w scope cs i p st :
  rests run st -> workflow_reachable w ->
  (p = LegacyLiveObject -> legacy_workflow_replay_identity w cs = Ok i /\ (dom cs : gset Id) ⊆ dom (tasks (topology w))) ->
  started_well run (start_with_identity run w scope cs i p st).
Proof.
  intros Hr Hw Hp. unfold start_with_identity, ensure_unfinished_workflow, and_then.
  destruct (completion_log w) as [|c l] eqn:Hlog; cbn [fst snd]; [|done].
  pose proof (create_or_adopt_outcome run st Hr) as Hc.
  destruct (create_or_adopt run st) as [st1 [rev|e|s|]]; cbn [fst snd]; try done. destruct Hc as [-> Hh].
  change (IdempotencyKey_new "workflow-replay-identity") with (Ok (E := StoreError) bootstrap_key). cbn [map_err fst snd].
  set (q := CommitRequest_single _ _ _ _). set (d := DurableRunState_new run) in *.
  pose proof (run_commit_single d q (RecordWorkflowReplayIdentity i) eq_refl eq_refl) as Hs.
  pose proof (commit_meets st1 q (Some d) Hh eq_refl) as Hm. unfold meets in Hm.
  change (request_run_id q) with run in Hm. change (idempotency_key q) with bootstrap_key in Hs.
  assert (Hnext : forall d', commits d bootstrap_key (RecordWorkflowReplayIdentity i) d' ->
    exists c e, Durable.apply_mutation d (RecordWorkflowReplayIdentity i) = Ok c /\ d' = append_commit e c /\
      entry_revision e = 1%N /\ orderly d').
  { intros d' Hd. pose proof (orderly_new run) as Ho. pose proof (proj1 (committed_inv _ _ (committed_new run))) as L.
    assert (orderly d') by (eapply commits_orderly; [done..|right; by eauto]).
    destruct Hd as [c e Hm' _ He _ _ _|rev Hi]; [by exists c, e|]. cbn in Hi. by rewrite lookup_empty in Hi. }
  destruct (run_commit q (Some d)) as [o x]. destruct (commit st1 q) as [st2 y]. cbn in Hm.
  destruct Hm as [[-> Hh2]|(e & -> & Hb & Hh2)]; cbn [fst snd].
  - destruct x as [res|e|s|]; cbn [map_err fst snd]; try done.
    + destruct Hs as (d' & -> & Hd' & Hres). destruct (Hnext _ Hd') as (c & e & Hc & -> & He & Ho).
      destruct (build_Ok run w scope cs DurableJournal_new st2 (result_revision res)) as [t ->]. cbn.
      split; [done|]. exists (append_commit e c). apply apply_mutation_Ok in Hc. inversion Hc; subst.
      split; try done; cbn.
      * intros Hl. exists i. split; [by apply Hp|done].
      * intros Hl. by apply Hp.
      * by rewrite He.
      * by rewrite Hlog.
      * intros a Ha. by apply elem_of_nil in Ha.
    + destruct Hs as [-> _]. eapply rests_Some; [done|apply orderly_new].
  - destruct Hh2 as [Hh2|Hh2]; [eapply rests_Some; [done|apply orderly_new]|].
    destruct x as [res|e'|s|]; try done.
    + destruct Hs as (d' & -> & Hd' & _). destruct (Hnext _ Hd') as (c & e' & _ & _ & _ & Ho).
      by eapply rests_Some.
    + destruct Hs as [-> _]. eapply rests_Some; [done|apply orderly_new].
Qed.

(** ** The public entry points *)
Lemma collect_task_configs_Ok w configs cs :
  collect_task_configs w configs = Ok cs -> (dom cs : gset Id) ⊆ dom (tasks (topology w)).
Proof.
  unfold collect_task_configs. apply (foldM_invariant (fun cs : gmap Id TaskConfig =>
    (dom cs : gset Id) ⊆ dom (tasks (topology w)))); [|by rewrite dom_empty_L].
  intros m c m' _ Hm. unfold collect_task_config, graph_task, topology_task.
  destruct (tasks (topology w) !! c.1) as [t|] eqn:Ht; [|done]. intros [= <-]. rewrite dom_insert_L.
  apply elem_of_dom_2 in Ht. set_solver.
Qed.
Lemma collect_returns w configs : returns (collect_task_configs w configs).
Proof. apply foldM_returns_all. intros m c. unfold collect_task_config. by destruct (graph_task _ _). Qed.
Lemma start_run_with_store_outcome run w scope configs st :
  rests run st -> workflow_reachable w ->
  started_well run (start_run_with_store run w scope configs st).
Proof.
  intros Hr Hw. pose proof (collect_returns w configs) as Hcol. unfold start_run_with_store, start_inputs, ensure_unfinished_workflow, and_then. cbn [fst snd].
  destruct (completion_log w) as [|c l]; [|done]. cbn [mbind result_bind].
  destruct (collect_task_configs w configs) as [cs|e|s|] eqn:Hcs; try done. cbn [mbind result_bind].
  pose proof (legacy_identity_outcome w cs) as [Hret _].
  destruct (legacy_workflow_replay_identity w cs) as [i|e|s|] eqn:Hi; try done. cbn.
  apply start_with_identity_outcome; [done..|]. intros _. split; [done|]. by eapply collect_task_configs_Ok.
Qed.
Lemma load_of_outcome run st :
  rests run st ->
  let '(st', x) := load_of run st in
  match x with
  | Ok d => holds run st' (Some d) /\ orderly d
  | Err _ => rests run st'
  | _ => False
  end.
Proof.
  intros (o & Hh & Ho). unfold load_of. pose proof (load_meets run st o Hh) as Hm. unfold meets in Hm.
  destruct (load_run st run) as [st1 x]. cbn in Hm. destruct Hm as [[-> Hh1]|(e & -> & Hb & Hh1)]; cbn.
  - destruct o as [d|]; cbn; [split; [done|by apply Ho]|by apply rests_None].
  - destruct Hh1 as [Hh1|Hh1]; by exists o.
Qed.
Lemma identity_started run st d i :
  holds run st (Some d) -> workflow_replay_identity d = Some i -> (0 < revision d)%N.
Proof.
  intros Hh Hi. destruct (decide (revision d = 0%N)) as [H0|]; [|lia].
  by rewrite (committed_initial _ _ (holds_committed _ _ _ Hh) H0) in Hi.
Qed.
Lemma restore_loaded_well tree run w scope cs st p d i :
  holds run st (Some d) -> orderly d -> workflow_replay_identity d = Some i ->
  workflow_reachable w -> completion_log w = [] ->
  (p = LegacyLiveObject -> legacy_workflow_replay_identity w cs = Ok i /\ (dom cs : gset Id) ⊆ dom (tasks (topology w))) ->
  started_well run (st, restore_loaded tree run w scope cs st p d).
Proof.
  intros Hh Ho Hi Hw Hl Hp. destruct (committed_inv _ _ (holds_committed _ _ _ Hh)) as [L _].
  pose proof (restore_loaded_outcome tree run w scope cs st p d Hw Hl L) as Hr.
  destruct (restore_loaded _ _ _ _ _ _ _ _) as [r|e|s|]; try done; [|by eapply rests_Some].
  split; [apply Hr|]. exists d. eapply rebuilt_coherent; try done.
  - by eapply identity_started.
  - intros Hleg. by apply Hp.
  - intros Hleg. exists i. split; [by apply Hp|done].
Qed.
Lemma restore_run_outcome tree run w scope configs st :
  rests run st -> workflow_reachable w ->
  started_well run (restore_run tree run w scope configs st).
Proof.
  intros Hr Hw. pose proof (collect_returns w configs) as Hcol. unfold restore_run, ensure_unfinished_workflow, and_then. cbn [fst snd].
  destruct (completion_log w) as [|c l] eqn:Hl; [|done]. cbn [mbind result_bind].
  destruct (collect_task_configs w configs) as [cs|e|s|] eqn:Hcs; try done. cbn [fst snd].
  pose proof (load_of_outcome run st Hr) as Hlo. destruct (load_of run st) as [st1 [d|e|s|]]; try done.
  destruct Hlo as [Hh Ho]. cbn [fst snd].
  pose proof (legacy_identity_outcome w cs) as [Hret _].
  destruct (legacy_workflow_replay_identity w cs) as [i|e|s|] eqn:Hi; cbn [map_err mbind result_bind];
    try done; [|by eapply rests_Some].
  case_bool_decide as Hne; [by eapply rests_Some|].
  eapply restore_loaded_well; try done. intros _. split; [done|]. by eapply collect_task_configs_Ok.
Qed.
Lemma runtime_inputs_Ok v w cs :
  runtime_inputs v = Ok (w, cs) -> workflow_reachable w /\ completion_log w = [].
Proof.
  unfold runtime_inputs. case_bool_decide; [intros [= <- _]; split; [apply rtc_refl|done]|].
  pose proof (workflow_reachable_wf _ (rtc_refl _ _ : workflow_reachable WorkflowGraph_default)) as Hwf.
  set (ms := workflow_mutations _) in *. set (rev := topology_revision _).
  assert (Hr : workflow_reachable (apply_batch WorkflowGraph_default rev ms).1) by (apply rtc_once; constructor).
  destruct (apply_batch_cases WorkflowGraph_default rev ms Hwf)
    as [(c & x & g & Hb & _ & _ & _ & _ & _ & [_ Hg] & _)|[e Hb]]; rewrite Hb in *; [|done].
  cbn. intros [= <- _]. split; [exact Hr|]. by rewrite Hg.
Qed.
Definition declared_well (run : RunId) (x : host * S * result RuntimeError (Runtime S)) : Prop :=
  match x with (_, _, Ok r) => alive run r | (_, st, _) => rests run st end.
Lemma start_from_definition_outcome build_value run d fs n h st :
  rests run st -> declared_well run (start_from_definition_with_store build_value run d fs n h st).
Proof.
  intros Hr. unfold start_from_definition_with_store, and_then. cbn [fst snd].
  destruct (preflight d fs) as [v|e|s|]; try done.
  unfold reconstruct, and_then. cbn [fst snd].
  destruct (runtime_inputs v) as [[w cs]|e|s|] eqn:Hin; cbn [fst snd]; try done.
  destruct (runtime_inputs_Ok _ _ _ Hin) as [Hw Hl].
  destruct (reconstruct_scope build_value v fs n h) as [h' [scope|e|s|]]; cbn [fst snd]; try done.
  pose proof (start_with_identity_outcome run w scope cs (validated_identity v) DeclarativeDefinition st Hr Hw
    ltac:(done)) as Hs.
  by destruct (start_with_identity _ _ _ _ _ _ _) as [st' [r|e|s|]].
Qed.
Lemma restore_from_definition_outcome build_value run d fs n h st :
  rests run st -> declared_well run (restore_from_definition build_value run d fs n h st).
Proof.
  intros Hr. unfold restore_from_definition, and_then. cbn [fst snd].
  destruct (preflight d fs) as [v|e|s|]; try done.
  pose proof (load_of_outcome run st Hr) as Hlo. destruct (load_of run st) as [st1 [state|e|s|]]; try done.
  destruct Hlo as [Hh Ho]. cbn [fst snd].
  unfold ensure_restorable_definition_identity.
  destruct (workflow_replay_identity state) as [i|] eqn:Hi; [|by eapply rests_Some].
  destruct (is_legacy_run_definition_identity i); [by eapply rests_Some|].
  case_bool_decide; [by eapply rests_Some|]. cbn [fst snd].
  unfold reconstruct, and_then. cbn [fst snd].
  destruct (runtime_inputs v) as [[w cs]|e|s|] eqn:Hin; cbn [fst snd]; try by eapply rests_Some.
  destruct (runtime_inputs_Ok _ _ _ Hin) as [Hw Hl].
  destruct (reconstruct_scope build_value v fs n h) as [h' [scope|e|s|]]; cbn [fst snd]; try by eapply rests_Some.
  pose proof (restore_loaded_well (host_tree h') run w scope cs st1 DeclarativeDefinition state i Hh Ho Hi Hw Hl
    ltac:(done)) as Hs.
  by destruct (restore_loaded _ _ _ _ _ _ _ _).
Qed.
End restart.
