(* ===== verification/RuntimeStores.v ===== *)
(** * Both stores keep the contract of the coordinator

    [StoreContract] for the in-memory store and for the file store over any
    backend that keeps the laws of [Physical]. *)
From S2P Require Export RuntimeLife PhysicalFacts.
#[local] Open Scope string_scope.
#[local] Open Scope list_scope.

(** ** In memory *)
Section memory.
Context `{SF : StoreFormat}.
Definition memory_holds (run : RunId) (st : InMemoryDurableStore) (o : option DurableRunState) : Prop :=
  store_reachable st /\ runs st !! run = o.
Lemma memory_holds_committed run st d : memory_holds run st (Some d) -> committed run d.
Proof. intros [Hst Hd]. by eapply reachable_committed. Qed.
Lemma memory_holds_unique run st o o' : memory_holds run st o -> memory_holds run st o' -> o = o'.
Proof. by intros [_ <-] [_ <-]. Qed.
Lemma memory_create_pure run st :
  (memory_create_run st run).2 = (run_create run (runs st !! run)).2 /\
  runs (memory_create_run st run).1 !! run = (run_create run (runs st !! run)).1.
Proof.
  unfold memory_create_run. destruct (runs st !! run) as [d|] eqn:Hd.
  - by rewrite bool_decide_true by by eexists.
  - rewrite bool_decide_false by by intros []. cbn. by rewrite lookup_insert_eq.
Qed.
Lemma memory_commit_pure st q :
  (memory_commit st q).2 = (run_commit q (runs st !! request_run_id q)).2 /\
  runs (memory_commit st q).1 !! request_run_id q = (run_commit q (runs st !! request_run_id q)).1.
Proof.
  unfold memory_commit, run_commit. case_bool_decide; [done|].
  destruct (runs st !! request_run_id q) as [d|] eqn:Hd; [|done].
  destruct (commit_run d q) as [[[d'|] res]|e|p|]; try done. cbn. by rewrite lookup_insert_eq.
Qed.
Lemma memory_create_meets run st o :
  memory_holds run st o -> meets (memory_holds run) o (run_create run o) (create_run st run).
Proof.
  intros [Hst <-]. left. destruct (memory_create_pure run st) as [H1 H2]. split; [exact H1|].
  split; [|exact H2]. eapply rtc_r; [exact Hst|constructor].
Qed.
Lemma memory_load_meets run st o :
  memory_holds run st o -> meets (memory_holds run) o (run_load run o) (load_run st run).
Proof. intros [Hst <-]. by left. Qed.
Lemma memory_commit_meets st q o :
  memory_holds (request_run_id q) st o -> trim_is_empty (idempotency_key q) = false ->
  meets (memory_holds (request_run_id q)) o (run_commit q o) (commit st q).
Proof.
  intros [Hst <-] Hk. left. destruct (memory_commit_pure st q) as [H1 H2]. split; [exact H1|].
  split; [|exact H2]. eapply rtc_r; [exact Hst|by constructor].
Qed.
#[export] Instance memory_contract : StoreContract InMemoryDurableStore := {
  holds := memory_holds;
  holds_committed := memory_holds_committed;
  holds_unique := memory_holds_unique;
  create_meets := memory_create_meets;
  load_meets := memory_load_meets;
  commit_meets := memory_commit_meets
}.
End memory.

(** ** In a file *)
Section file.
Context `{SF : StoreFormat, SnapshotFormat, !StoreFormatLaws, !SnapshotFormatLaws}.
Context {W : Type} `{Redb W, RedbView W, !RedbLaws W}.

Definition file_holds (run : RunId) (w : W) (o : option DurableRunState) : Prop :=
  exists m, represents w m /\ memory_holds run m o.
Lemma file_holds_committed run w d : file_holds run w (Some d) -> committed run d.
Proof. intros (m & _ & Hm). by eapply memory_holds_committed. Qed.
Lemma file_holds_unique run w o o' : file_holds run w o -> file_holds run w o' -> o = o'.
Proof.
  intros (m & (t & Ht & Hm) & _ & <-) (m' & (t' & Ht' & Hm') & _ & <-).
  rewrite Ht in Ht'. injection Ht' as <-. specialize (Hm run). specialize (Hm' run).
  destruct (runs m !! run) as [s|], (runs m' !! run) as [s'|].
  - destruct Hm as (bs & Hs & Hb), Hm' as (bs' & Hs' & Hb'). rewrite Hb in Hb'. injection Hb' as <-.
    apply decode_encode in Hs, Hs'. congruence.
  - destruct Hm as (bs & _ & Hb). rewrite Hb in Hm'. discriminate Hm'.
  - destruct Hm' as (bs & _ & Hb). rewrite Hb in Hm. discriminate Hm.
  - reflexivity.
Qed.
Lemma encode_state_outcome s :
  (exists bs, encode_state s = Ok bs) \/ (exists e, encode_state s = Err e /\ backend_error e).
Proof.
  unfold encode_state, persisted_snapshot, validate_persisted.
  destruct (match workflow_replay_identity s with Some i => trim_is_empty i | None => false end);
    [right; by eexists|].
  destruct (existsb _ _); [right; by eexists|].
  destruct (replay_outcome (run_id s) (commit_ledger s)) as [[c ->]|[m ->]]; [|right; by eexists].
  cbn [mbind result_bind]. match goal with |- context [if ?b then _ else _] => destruct b end; [right; by eexists|].
  cbn [mbind result_bind]. destruct (snapshot_to_allocvec _); [right|left]; by eexists.
Qed.
(** The last revision has no row: the write is refused. *)
Lemma commit_refused w m q s s' res e :
  represents w m -> store_reachable m -> runs m !! request_run_id q = Some s -> request_mutations q <> [] ->
  commit_run s q = Ok (Some s', res) -> encode_state s' = Err e ->
  refines w m m (Err e) (file_commit q w).
Proof.
  intros Hrep Hm Es Hmt Ec Henc. pose proof Hrep as (t & Ht & Hrows).
  unfold file_commit. rewrite bool_decide_false by done.
  apply refines_scope, refines_open; [done|]. intros w1 Hq1.
  apply (refines_transaction _ _ _ _ _ t); [done..|]. intros w2 Hq2 Hp2.
  rewrite (represents_row _ _ _ _ Hrep Ht), Es.
  rewrite bool_decide_true by by eapply reachable_run_id.
  unfold mbind at 1, io_mbind at 1, io_bind at 1, io_result at 1.
  unfold mbind at 1, io_mbind at 1, io_bind at 1, io_result at 1. rewrite Ec.
  unfold mbind at 1, io_mbind at 1, io_bind at 1, io_result at 1. rewrite Henc.
  by apply refines_quiet.
Qed.
Lemma refines_meets {A} run w m m' (expected : result StoreError A) (out : W * result StoreError A) o o' :
  refines w m m' expected out -> memory_holds run m o -> memory_holds run m' o' ->
  meets (file_holds run) o (o', expected) out.
Proof.
  intros [_ [[Hx Hr]|(e & Hx & Hb & _ & Hr)]] Hm Hm'; [left|right].
  - split; [done|]. by exists m'.
  - exists e. split_and!; [done..|]. destruct Hr; [left|right]; eexists; done.
Qed.
Lemma file_create_meets run w o :
  file_holds run w o -> meets (file_holds run) o (run_create run o) (create_run w run).
Proof.
  intros (m & Hrep & Hst & <-). destruct (memory_create_pure run m) as [Ha Hb].
  rewrite (surjective_pairing (run_create _ _)), <- Ha, <- Hb.
  eapply refines_meets; [by apply create_refines|done|]. split; [|done]. eapply rtc_r; [exact Hst|constructor].
Qed.
Lemma file_load_meets run w o :
  file_holds run w o -> meets (file_holds run) o (run_load run o) (load_run w run).
Proof.
  intros (m & Hrep & Hst & <-).
  exact (refines_meets run w m m _ _ _ _ (load_refines w m run Hrep Hst) (conj Hst eq_refl) (conj Hst eq_refl)).
Qed.
Lemma unwritable_or_not m q :
  (forall s s' res, runs m !! request_run_id q = Some s -> commit_run s q = Ok (Some s', res) ->
     exists bs, encode_state s' = Ok bs) \/
  (exists s s' res e, runs m !! request_run_id q = Some s /\ commit_run s q = Ok (Some s', res) /\
     encode_state s' = Err e /\ backend_error e).
Proof.
  destruct (runs m !! request_run_id q) as [s|]; [|by left].
  destruct (commit_run s q) as [[[s'|] res]|e|p|] eqn:Ec; try (left; intros; simplify_eq; congruence).
  destruct (encode_state_outcome s') as [[bs Hbs]|(e & He & Hb)].
  - left. intros ? ? ? [= <-] Hc. rewrite Ec in Hc. injection Hc as <- <-. by exists bs.
  - right. by exists s, s', res, e.
Qed.
Lemma file_commit_meets w q o :
  file_holds (request_run_id q) w o -> trim_is_empty (idempotency_key q) = false ->
  meets (file_holds (request_run_id q)) o (run_commit q o) (commit w q).
Proof.
  intros (m & Hrep & Hst & <-) Hk. destruct (memory_commit_pure m q) as [Ha Hb].
  assert (Hmeets : refines w m (memory_commit m q).1 (memory_commit m q).2 (file_commit q w) ->
    meets (file_holds (request_run_id q)) (runs m !! request_run_id q)
      (run_commit q (runs m !! request_run_id q)) (commit w q)).
  { intros Hr. rewrite (surjective_pairing (run_commit _ _)), <- Ha, <- Hb. eapply refines_meets; [exact Hr|done|].
    split; [|done]. eapply rtc_r; [exact Hst|by constructor]. }
  destruct (decide (request_mutations q = [])) as [Hmt|Hmt].
  { apply Hmeets. unfold file_commit, memory_commit. rewrite bool_decide_true by done.
    by apply refines_quiet; [done|apply quiet_refl|..]. }
  destruct (unwritable_or_not m q) as [Henc|(s & s' & res & e & Es & Ec & Henc & Hbe)].
  { by apply Hmeets, commit_refines_encoded. }
  right. destruct (commit_refused _ _ _ _ _ _ _ Hrep Hst Es Hmt Ec Henc) as [_ [[Hx Hr]|(x & Hx & Hbx & _ & Hr)]].
  - exists e. split_and!; [done..|]. left. by exists m.
  - exists x. split_and!; [done..|]. left. exists m. by destruct Hr.
Qed.
#[export] Instance file_contract : StoreContract W := {
  holds := file_holds;
  holds_committed := file_holds_committed;
  holds_unique := file_holds_unique;
  create_meets := file_create_meets;
  load_meets := file_load_meets;
  commit_meets := file_commit_meets
}.
End file.
