(* ===== verification/RuntimeCalls.v ===== *)
(** * The life of a run: starts, calls, failures, restarts

    The public calls of [Runtime], and the histories of one run: a host starts
    or restores it, calls the live runtime in any order, loses it when the
    backend fails or the process dies, and restores it again.  Every state a
    history reaches is coherent. *)
From S2P Require Export RuntimeRestart.
#[local] Open Scope string_scope.
#[local] Open Scope nat_scope.
#[local] Open Scope list_scope.

Section calls.
Context {S : Type} {DS : DurableStore S} {SF : StoreFormat} {SL : StoreFormatLaws} {C : StoreContract S}.
Implicit Types r : Runtime S.

(** ** Calls *)
Inductive call :=
  | CallConfigure (t : Id) (c : TaskConfig)
  | CallMutate (rev : Revision) (b : MutationBatch)
  | CallIntent (t : Id) (o : OperationId) (s : EffectSemantics)
  | CallDispatch (tree : Scope.Runtime) (o : OperationId)
  | CallOutcome (o : OperationId) (a : AttemptId) (x : KnownEffectOutcome)
  | CallRecover (o : OperationId)
  | CallCancel (t : Id)
  | CallStep (tree : Scope.Runtime)
  | CallRun (tree : Scope.Runtime)
  | CallProgress (t : Id) (n : N)
  | CallTelemetry (m : string)
  | CallRetry (item : StreamItem RuntimeEvent)
  | CallDrainExecution
  | CallDrainProgress
  | CallDrainTelemetry
  | CallDurableState.
Definition forget {A} (m : op S A) : op S unit := _ ← m; mret tt.
(** A drain has no error. *)
Definition drained {A} (m : Runtime S -> Runtime S * result Empty_set A) : op S unit :=
  fun r => let '(r, x) := m r in (r, map_err (fun e : Empty_set => match e with end) ((fun _ => tt) <$> x)).
Definition run_call (c : call) : op S unit :=
  match c with
  | CallConfigure t c => configure_task t c
  | CallMutate rev b => forget (apply_workflow_mutation rev b)
  | CallIntent t o s => record_effect_intent t o s
  | CallDispatch tree o => forget (dispatch_effect tree o)
  | CallOutcome o a x => record_effect_outcome o a x
  | CallRecover o => forget (recover o)
  | CallCancel t => forget (cancel_task t)
  | CallStep tree => forget (step tree)
  | CallRun tree => forget (run_until_blocked tree)
  | CallProgress t n => emit_progress t n
  | CallTelemetry m => emit_telemetry m
  | CallRetry item => retry_execution_event item
  | CallDrainExecution => drained drain_execution_events
  | CallDrainProgress => drained drain_progress_events
  | CallDrainTelemetry => drained drain_telemetry_events
  | CallDurableState => forget durable_state
  end.

(** *** Drains empty their buffer, oldest item first *)
Lemma drain_all {B I} (items : B -> list I) (pop : B -> B * option I) fuel b :
  (forall b, match items b with
             | [] => pop b = (b, None)
             | i :: l => exists b', pop b = (b', Some i) /\ items b' = l
             end) ->
  length (items b) < fuel -> exists b', drain pop fuel b = (b', Ok (items b)) /\ items b' = [].
Proof.
  intros Hpop. revert b. induction fuel as [|fuel IH]; intros b Hf; [lia|]. cbn [drain].
  pose proof (Hpop b) as Hb. destruct (items b) as [|i l] eqn:Hi.
  - rewrite Hb. by exists b.
  - destruct Hb as (b' & -> & Hl). destruct (IH b') as (b2 & -> & Hb2); [rewrite Hl; cbn in Hf; lia|].
    exists b2. split; [|done]. cbn. by rewrite Hl.
Qed.
Lemma drain_lossless_all {T} (b : LosslessBuffer T) :
  exists b', drain_lossless b = (b', Ok (ll_items b)) /\ ll_items b' = [].
Proof.
  apply drain_all; [|lia]. intros x. unfold lossless_pop. destruct (ll_items x); [done|]. by eexists.
Qed.
Lemma drain_coalescing_all {K T} (b : CoalescingBuffer K T) :
  exists b', drain_coalescing b = (b', Ok (cb_items b)) /\ cb_items b' = [].
Proof.
  apply drain_all; [|lia]. intros x. unfold coalescing_pop. destruct (cb_items x); [done|]. by eexists.
Qed.
Lemma drain_lossy_all {T} (b : LossyBuffer T) :
  exists b', drain_lossy b = (b', Ok (ly_items b)) /\ ly_items b' = [].
Proof.
  apply drain_all; [|lia]. intros x. unfold lossy_pop. destruct (ly_items x); [done|]. by eexists.
Qed.
Lemma wp_drained {A} d0 (m : Runtime S -> Runtime S * result Empty_set A) r d :
  live d0 r d -> (exists t l, m r = (set_streams t r, Ok l)) -> wp d0 (drained m) r (fun _ r' => arrives d0 r').
Proof.
  intros Hl (t & l & Hm). unfold wp, drained. rewrite Hm. cbn. exists d. by apply live_streams.
Qed.
Lemma wp_forget {A} d0 (m : op S A) r (Q : A -> Runtime S -> Prop) :
  wp d0 m r Q -> (forall a r', Q a r' -> arrives d0 r') -> wp d0 (forget m) r (fun _ r' => arrives d0 r').
Proof. intros Hm HQ. apply wp_bind. eapply wp_mono; [exact Hm|]. intros a r' Ha. by apply (HQ a). Qed.
Lemma wp_durable_state d0 r d : live d0 r d -> wp d0 durable_state r (fun _ r' => arrives d0 r').
Proof.
  intros [He Hc]. unfold wp, durable_state, load_of.
  pose proof (load_meets (runtime_run_id r) (store r) (Some d) (co_holds _ _ Hc)) as Hm. unfold meets in Hm.
  destruct (load_run (store r) (runtime_run_id r)) as [st x]. cbn in Hm.
  destruct Hm as [[-> Hh]|(e & -> & Hb & Hh)]; cbn [map_err].
  - exists d. split; [done|]. destruct Hc; by split.
  - exists d. split; [done|]. simpl. rewrite bool_decide_false by done. simpl.
    split; [by destruct Hh|apply Hc].
Qed.
Lemma wp_call d0 c r d : live d0 r d -> wp d0 (run_call c) r (fun _ r' => arrives d0 r').
Proof.
  intros Hl. destruct c; cbn [run_call].
  - by eapply wp_configure_task.
  - eapply wp_forget; [by eapply wp_apply_workflow_mutation|done].
  - eapply wp_mono; [by eapply wp_record_effect_intent|]. intros _ r' (d' & ? & _). by exists d'.
  - eapply wp_forget; [by eapply wp_dispatch_effect|]. intros _ r' (d' & ? & _). by exists d'.
  - eapply wp_mono; [by eapply wp_record_effect_outcome|]. intros _ r' (d' & ? & _). by exists d'.
  - eapply wp_forget; [by eapply wp_recover|by intros _ r' [? _]].
  - eapply wp_forget; [by eapply wp_cancel_task|done].
  - eapply wp_forget; [by eapply wp_step|]. intros _ r' (d' & ? & _). by exists d'.
  - eapply wp_forget; [by eapply wp_run_until_blocked|]. by intros _ r' [? _].
  - by eapply wp_emit_progress.
  - by eapply wp_emit_telemetry.
  - by eapply wp_retry.
  - eapply wp_drained; [done|]. unfold drain_execution_events.
    destruct (drain_lossless_all (execution_events (streams r))) as (b & -> & _). eauto.
  - eapply wp_drained; [done|]. unfold drain_progress_events.
    destruct (drain_coalescing_all (progress_events (streams r))) as (b & -> & _). eauto.
  - eapply wp_drained; [done|]. unfold drain_telemetry_events.
    destruct (drain_lossy_all (telemetry_events (streams r))) as (b & -> & _). eauto.
  - eapply wp_forget; [by eapply wp_durable_state|done].
Qed.

(** ** Histories *)

(** Between the calls of its host a run has a live runtime or only its store. *)
Inductive life := Up (r : Runtime S) | Down (st : S).
Inductive event :=
  | StartRun (w : WorkflowGraph) (scope : ScopeId) (configs : list (Id * TaskConfig))
  | StartDefinition (build_value : list Id -> CapabilityFactory -> gmap CapabilityId CapabilityEntry -> string + CapabilityValue)
      (d : RunDefinition) (fs : FactoryRegistry) (n : nat) (h : host)
  | RestoreRun (tree : Scope.Runtime) (w : WorkflowGraph) (scope : ScopeId) (configs : list (Id * TaskConfig))
  | RestoreDefinition (build_value : list Id -> CapabilityFactory -> gmap CapabilityId CapabilityEntry -> string + CapabilityValue)
      (d : RunDefinition) (fs : FactoryRegistry) (n : nat) (h : host)
  | HostCalls (c : call)
  | ProcessDies.
Definition settle {X} (x : X * result RuntimeError (Runtime S)) (st : S) : life :=
  match x.2 with Ok r => Up r | _ => Down st end.
(** A runtime whose backend failed is given up: the store may be ahead of it. *)
Definition after_call (x : Runtime S * result RuntimeError unit) : life :=
  match x.2 with
  | Ok _ => Up x.1
  | Err e => if lost e then Down (store x.1) else Up x.1
  | _ => Down (store x.1)
  end.
Definition happens (run : RunId) (e : event) (l : life) : life :=
  match l, e with
  | Down st, StartRun w scope configs =>
      let x := start_run_with_store run w scope configs st in settle x x.1
  | Down st, StartDefinition build_value d fs n h =>
      let x := start_from_definition_with_store build_value run d fs n h st in settle x x.1.2
  | Down st, RestoreRun tree w scope configs =>
      let x := restore_run tree run w scope configs st in settle x x.1
  | Down st, RestoreDefinition build_value d fs n h =>
      let x := restore_from_definition build_value run d fs n h st in settle x x.1.2
  | Up r, HostCalls c => after_call (run_call c r)
  | Up r, ProcessDies => Down (store r)
  | l, _ => l
  end.
(** A supplied workflow is one its API can build. *)
Definition event_ok (e : event) : Prop :=
  match e with StartRun w _ _ | RestoreRun _ w _ _ => workflow_reachable w | _ => True end.
(** The store is shared: others may use it for other runs in between. *)
Inductive life_step (run : RunId) : life -> life -> Prop :=
  | step_event e l : event_ok e -> life_step run l (happens run e l)
  | step_others_down st st' : (forall o, holds run st o -> holds run st' o) -> life_step run (Down st) (Down st')
  | step_others_up r st : (forall o, holds run (store r) o -> holds run st o) ->
      life_step run (Up r) (Up (set_store st (store_revision r) r)).
Definition history (run : RunId) (l : life) : Prop :=
  exists st, holds run st None /\ rtc (life_step run) (Down st) l.

Definition sound (run : RunId) (l : life) : Prop :=
  match l with Up r => alive run r | Down st => rests run st end.
Lemma settled_run d0 e r : settled d0 e r -> runtime_run_id r = run_id d0.
Proof.
  intros (d & He & Hd). rewrite <- (ex_run _ _ He). destruct (lost e).
  - symmetry. eapply ledger_run, committed_inv, holds_committed, Hd.
  - symmetry. by apply coherent_run.
Qed.
Lemma arrives_alive d0 r : arrives d0 r -> alive (run_id d0) r.
Proof.
  intros (d & He & Hc). split; [|by exists d]. by rewrite <- (ex_run _ _ He), (coherent_run _ _ Hc).
Qed.
Lemma call_outcome c r d :
  coherent r d ->
  match run_call c r with
  | (r', Ok _) => arrives d r'
  | (r', Err e) => settled d e r'
  | _ => False
  end.
Proof. intros Hc. apply (wp_call d c r d). by apply live_refl. Qed.
Lemma after_call_sound c r d : coherent r d -> sound (runtime_run_id r) (after_call (run_call c r)).
Proof.
  intros Hc. pose proof (call_outcome c r d Hc) as Ho. rewrite <- (coherent_run _ _ Hc).
  destruct (run_call c r) as [r' [a|e|p|]]; try done; unfold after_call; cbn.
  - by apply arrives_alive.
  - pose proof (settled_run _ _ _ Ho) as Hrun. destruct Ho as (d' & He & Hd'). destruct (lost e); cbn.
    + rewrite <- Hrun. eapply rests_Some; apply Hd'.
    + split; [done|]. by exists d'.
Qed.
Lemma alive_rests run r : alive run r -> rests run (store r).
Proof. intros [<- [d Hc]]. eapply rests_Some; apply Hc. Qed.
Lemma happens_sound run e l : event_ok e -> sound run l -> sound run (happens run e l).
Proof.
  intros He Hl. destruct l as [r|st]; cbn in Hl.
  - destruct e; try done; cbn.
    + destruct Hl as [<- [d Hc]]. by eapply after_call_sound.
    + by apply alive_rests.
  - destruct e as [w scope configs|bv d fs n h|tree w scope configs|bv d fs n h|c|]; cbn; try done.
    + pose proof (start_run_with_store_outcome run w scope configs st Hl He) as Hs.
      unfold settle. by destruct (start_run_with_store _ _ _ _ _) as [st' [r|x|p|]].
    + pose proof (start_from_definition_outcome bv run d fs n h st Hl) as Hs.
      unfold settle. by destruct (start_from_definition_with_store _ _ _ _ _ _ _) as [[h' st'] [r|x|p|]].
    + pose proof (restore_run_outcome tree run w scope configs st Hl He) as Hs.
      unfold settle. by destruct (restore_run _ _ _ _ _ _) as [st' [r|x|p|]].
    + pose proof (restore_from_definition_outcome bv run d fs n h st Hl) as Hs.
      unfold settle. by destruct (restore_from_definition _ _ _ _ _ _ _) as [[h' st'] [r|x|p|]].
Qed.
Lemma coherent_store r d st : coherent r d -> holds (runtime_run_id r) st (Some d) ->
  coherent (set_store st (store_revision r) r) d.
Proof. intros [] Hst. by split. Qed.
Lemma step_sound run l l' : life_step run l l' -> sound run l -> sound run l'.
Proof.
  intros Hs. destruct Hs as [e l He|st st' Hst|r st Hst].
  - by apply happens_sound.
  - intros (o & Hh & Ho). exists o. auto.
  - intros [<- [d Hc]]. split; [done|]. exists d. apply coherent_store; [done|]. apply Hst, Hc.
Qed.
Lemma history_sound run l : history run l -> sound run l.
Proof.
  intros (st & Hst & Hl). revert Hl. apply (rtc_invariant (life_step run) (sound run)).
  - by apply rests_None.
  - intros l1 l2 _ Hl Hs. by eapply step_sound.
Qed.
Lemma history_step run l l' : history run l -> life_step run l l' -> history run l'.
Proof. intros (st & Hst & Hl) Hs. exists st. split; [done|]. by eapply rtc_r. Qed.
End calls.
