(* ===== verification/RuntimeSafety.v ===== *)
(** * What the coordinator guarantees over the life of a run

    A restart rebuilds the live runtime exactly; a non-idempotent effect is
    dispatched at most once; every call returns; the identity of a declarative
    run is checked before anything is built or written. *)
From S2P Require Export RuntimeStores RuntimeCalls.
#[local] Open Scope string_scope.
#[local] Open Scope nat_scope.
#[local] Open Scope list_scope.

Section safety.
Context {S : Type} {DS : DurableStore S} {SF : StoreFormat} {SL : StoreFormatLaws} {C : StoreContract S}.
Implicit Types r : Runtime S.

(** ** A restart *)
Lemma collect_map_iter w (cs : gmap Id TaskConfig) :
  (dom cs : gset Id) ⊆ dom (tasks (topology w)) -> collect_task_configs w (map_iter cs) = Ok cs.
Proof.
  intros Hcs. unfold collect_task_configs.
  assert (Hl : forall l m, (forall c, c ∈ l -> cs !! c.1 = Some c.2) ->
    foldM (collect_task_config w) l m = Ok (foldl (fun m (c : Id * TaskConfig) => <[c.1 := c.2]> m) m l)).
  { induction l as [|c l IH]; intros m Hc; [done|]. cbn [foldM foldl].
    assert (is_Some (tasks (topology w) !! c.1)) as [t Ht].
    { apply elem_of_dom, Hcs, elem_of_dom. exists c.2. apply Hc. by left. }
    assert (collect_task_config w m c = Ok (<[c.1 := c.2]> m)) as ->
      by (unfold collect_task_config, graph_task, topology_task; by rewrite Ht).
    cbn [mbind result_bind].
    apply IH. intros x Hx. apply Hc. by right. }
  rewrite Hl by (intros [k v] Hc; by apply elem_of_map_iter). f_equal. apply map_eq. intros k. apply option_eq. intros v.
  rewrite (foldl_insert_lookup fst snd); [|rewrite map_iter_keys; apply NoDup_map_keys|done].
  rewrite lookup_empty. split.
  - intros [|([k' v'] & Hc & <- & ->)]; [done|]. by apply elem_of_map_iter.
  - intros Hk. right. exists (k, v). split; [by apply elem_of_map_iter|done].
Qed.
Lemma unfinished_twin g w :
  workflow_reachable g -> workflow_reachable w -> completion_log w = [] -> mutation_log w = mutation_log g ->
  topology w = topology g.
Proof.
  intros Hg Hw Hl Hm. destruct (workflow_reachable_replays g Hg) as [H1 _], (workflow_reachable_replays w Hw) as [H2 _].
  rewrite Hm, H1 in H2. by injection H2.
Qed.
(** All that two runtimes of one run can differ in is what they observed of
    it, their memory of attempts and their store handle. *)
Record same_run (d : DurableRunState) r r' : Prop := {
  sr_run : runtime_run_id r' = runtime_run_id r;
  sr_workflow : workflow r' = workflow r;
  sr_scope : capability_runtime r' = capability_runtime r;
  sr_journal : journal r' = journal r;
  sr_revision : store_revision r' = store_revision r;
  sr_provenance : identity_provenance r' = identity_provenance r;
  sr_configs : task_configs r' = task_configs r;
  sr_cancelled : cancelled r' = cancelled r;
  sr_next : next_attempt_number r' = next_attempt_number r;
  sr_pending : pending_started r' = None;
  sr_attempts : Forall2 restored (attempts d) (runtime_attempts r');
  sr_kept a : a ∈ runtime_attempts r \/ (exists i, pending_started r = Some (a, i)) ->
    exists a', a' ∈ runtime_attempts r' /\ ta_attempt_id a' = ta_attempt_id a /\
      ta_task_id a' = ta_task_id a /\ ta_operation_id a' = ta_operation_id a
}.
Lemma rebuilt_same w scope st d r r' :
  coherent r d -> workflow_reachable w -> completion_log w = [] -> mutation_log w = mutation_log (workflow r) ->
  capability_runtime r = ReactiveRuntime_new (from_scope scope) -> identity_provenance r = LegacyLiveObject ->
  rebuilt (runtime_run_id r) w scope (task_configs r) st LegacyLiveObject d r' -> same_run d r r'.
Proof.
  intros Hc Hw Hl Hm Hscope Hp [].
  pose proof (replay_workflow_live (workflow r) w (completion_history d) (co_workflow _ _ Hc) Hw Hl Hm
    (co_completed _ _ Hc)) as Hwf.
  pose proof (coherent_lineage _ _ Hc) as L.
  split; try congruence; try done.
  - pose proof (co_journal _ _ Hc). congruence.
  - rewrite rb_revision. symmetry. apply Hc.
  - rewrite rb_cancelled. symmetry. apply Hc.
  - rewrite rb_next, (co_next _ _ Hc). apply next_attempt_after_small.
    pose proof (or_room _ (co_orderly _ _ Hc)). pose proof (co_started _ _ Hc).
    pose proof (ledger_bound _ _ (proj2 (committed_inv _ _ (coherent_committed _ _ Hc)))). unfold u64_ok in *. lia.
  - intros a Ha. assert (owns d a) as (x & Hx & Ht & Ho).
    { destruct Ha as [Ha|[i Ha]]; [by apply (co_attempts _ _ Hc)|by eapply (co_pending _ _ Hc)]. }
    rewrite (li_admissions _ L) in Hx. apply head_filter_Some in Hx as [[i Hi]%list_elem_of_lookup Hxa].
    destruct (Forall2_lookup_l _ _ _ _ _ rb_attempts Hi) as (a' & Ha' & _ & H2 & H3 & H4).
    exists a'. split_and!; [by eapply list_elem_of_lookup_2|congruence..].
Qed.
Lemma restore_loaded_captured tree run w scope cs (st : S) p d r :
  workflow_reachable w -> completion_log w = [] -> lineage d ->
  replay_workflow w (completion_history d) = Ok (workflow r) ->
  task_configs r = cs -> capability_runtime r = ReactiveRuntime_new (from_scope scope) ->
  (forall x, x ∈ attempts d -> is_Ok (capture_capability_pins tree (admission_task_id x) (Some (capabilities x)) r)) ->
  is_Ok (restore_loaded tree run w scope cs st p d).
Proof.
  intros Hw Hl L Hwf Hcs Hscope Hx. unfold restore_loaded. rewrite Hwf. cbn [mbind result_bind].
  destruct (from_durable_state_Ok d L) as (j & Hj & _). rewrite Hj. cbn [map_err mbind result_bind].
  destruct (build_Ok run (workflow r) scope cs j st (revision d)) as [t ->]. cbn [mbind result_bind].
  set (r0 := set_cancelled _ _).
  destruct (restore_attempts_captured tree (attempts d) r0) as [r1 ->]; [|by eexists].
  intros x Hin. erewrite capture_same; [by apply Hx|by rewrite Hcs|by rewrite Hscope].
Qed.

(** C2: a restart is exact.  At any point of the life of a run of live
    objects, restore it from its store with an unfinished workflow of the same
    history and the configuration in force.  Unless the backend fails, the
    identity check passes, the store is as it was, and the restored runtime
    has the workflow, journal, store revision, cancellations, attempt counter
    and configuration of the live one, and every attempt ever admitted; it is
    refused only for a capability, never when every admitted attempt finds
    the capabilities it was admitted with. *)
Theorem restart_exact (run : RunId) r (tree : Scope.Runtime) (w : WorkflowGraph) (scope : ScopeId)
  (Hh : history run (Up r)) (Hp : identity_provenance r = LegacyLiveObject)
  (Hscope : capability_runtime r = ReactiveRuntime_new (from_scope scope))
  (Hw : workflow_reachable w) (Hm : mutation_log w = mutation_log (workflow r)) (Hl : completion_log w = []) :
  exists d, holds run (store r) (Some d) /\
  let '(st, x) := restore_run tree run w scope (map_iter (task_configs r)) (store r) in
  (exists e, x = Err (RuntimeStore e) /\ backend_error e) \/
  (holds run st (Some d) /\
   (forall r', x = Ok r' -> same_run d r r') /\
   ((forall a, a ∈ attempts d -> is_Ok (capture_capability_pins tree (admission_task_id a) (Some (capabilities a)) r)) ->
      is_Ok x) /\
   returns x).
Proof.
  destruct (history_sound _ _ Hh) as [<- [d Hc]]. exists d. split; [apply Hc|].
  pose proof (coherent_lineage _ _ Hc) as L.
  pose proof (unfinished_twin _ _ (co_workflow _ _ Hc) Hw Hl Hm) as Ht.
  unfold restore_run, ensure_unfinished_workflow, and_then, load_of. rewrite Hl. cbn [fst snd mbind result_bind].
  rewrite collect_map_iter by (rewrite Ht; by apply Hc). cbn [fst snd].
  pose proof (load_meets (runtime_run_id r) (store r) (Some d) (co_holds _ _ Hc)) as Hmeets. unfold meets in Hmeets.
  destruct (load_run (store r) (runtime_run_id r)) as [st x]. cbn in Hmeets.
  destruct Hmeets as [[-> Hst]|(e & -> & Hb & _)]; [|left; by exists e]. right. cbn [map_err fst snd].
  destruct (co_identity _ _ Hc Hp) as (i & Hi & Hid).
  rewrite (legacy_identity_topology _ _ _ Ht), Hi. cbn [map_err mbind result_bind].
  rewrite bool_decide_false by (by rewrite Hid; intros []).
  pose proof (restore_loaded_outcome tree (runtime_run_id r) w scope (task_configs r) st LegacyLiveObject d Hw Hl L) as Ho.
  split; [done|]. split; [|split].
  - intros r' Hr'. rewrite Hr' in Ho. by eapply rebuilt_same.
  - intros Hx. eapply restore_loaded_captured; try done.
    apply replay_workflow_live; [apply Hc|done|done|done|apply Hc].
  - by destruct (restore_loaded _ _ _ _ _ _ _ _).
Qed.

(** ** Effects that must not be repeated *)
Definition store_of (l : life) : S := match l with Up r => store r | Down st => st end.
Lemma sound_held run l d : sound run l -> holds run (store_of l) (Some d) ->
  orderly d /\ forall r, l = Up r -> coherent r d.
Proof.
  destruct l as [r|st]; cbn.
  - intros [<- [d' Hc]] Hh. pose proof (holds_unique _ _ _ _ Hh (co_holds _ _ Hc)) as [= ->].
    split; [apply Hc|]. by intros ? [= <-].
  - intros (o & Hh & Ho) Hh'. pose proof (holds_unique _ _ _ _ Hh' Hh) as <-. split; [by apply Ho|done].
Qed.

(** C3: a non-idempotent effect is dispatched at most once in the life of a
    run, however its host starts, calls, loses and restarts it: the store
    never holds two dispatches of it, and once it holds one, a live runtime
    refuses to dispatch the effect again and writes nothing. *)
Theorem non_idempotent_once (run : RunId) (l : life) (d : DurableRunState) (o : OperationId) (i : EffectIntent)
  (Hh : history run l) (Hd : holds run (store_of l) (Some d))
  (Hi : intents d !! o = Some i) (Hs : semantics i = NonIdempotent) :
  length (dispatches_of d o) <= 1 /\
  forall r tree, l = Up r -> dispatches_of d o <> [] -> exists e,
    dispatch_effect tree o r = (r, Err e) /\
    (e = ReconciliationRequired o \/ e = OutcomeAlreadyKnown o \/
     e = CancelledAfterDispatch (intent_task_id i) o \/ e = CancelledBeforeDispatch (intent_task_id i)).
Proof.
  destruct (sound_held _ _ _ (history_sound _ _ Hh) Hd) as [Ho Hc]. split; [by eapply or_once|].
  intros r tree Hr Hne. pose proof (Hc _ Hr) as Hco.
  assert (Hst : effect_state d o <> Prepared /\ effect_state d o <> NotPrepared).
  { split; [by intros ?%effect_prepared|]. unfold effect_state. rewrite bool_decide_true by by eexists. cbn.
    by repeat case_match. }
  unfold dispatch_effect, gets, lift, fail, mbind, op_bind. cbv beta iota zeta.
  rewrite (run_intent _ _ Hco), Hi, (run_state _ _ Hco). cbn [ok_or map_err].
  case_bool_decide; destruct (effect_state d o); try (by destruct Hst); try (eexists; split; [done|auto]; fail).
  rewrite bool_decide_true by done. eexists; split; [done|auto].
Qed.

(** ** Calls *)

(** C32: no call of a live runtime panics, loops or runs out of anything but
    its backend.  At any point of the life of a run every public call
    returns; [run_until_blocked] completes ready tasks one after the other,
    each of them ready when its turn comes, and stops at the first result
    that is not a completion. *)
Theorem calls_return (run : RunId) r (Hh : history run (Up r)) :
  (forall c, returns (run_call c r).2) /\
  (forall tree, returns (run_until_blocked tree r).2 /\
     forall l, (run_until_blocked tree r).2 = Ok l ->
       rounds_done l (workflow r) (workflow (run_until_blocked tree r).1)).
Proof.
  destruct (history_sound _ _ Hh) as [<- [d Hc]]. split.
  - intros c. pose proof (call_outcome c r d Hc) as Ho. by destruct (run_call c r) as [r' [a|e|p|]].
  - intros tree. pose proof (wp_run_until_blocked d tree r d (live_refl _ _ Hc)) as Hw. unfold wp in Hw.
    destruct (run_until_blocked tree r) as [r' [l|e|p|]]; try done. split; [done|].
    intros l' [= <-]. apply Hw.
Qed.

(** ** The gate of declarative runs *)

(** C33: a declarative run is restored only under its own identity.  When the
    loaded run carries no identity, a legacy one, or one that differs from the
    definition's, the restore fails with the error that says so before any
    scope is built, any factory is called or anything is written: the host is
    untouched.  A runtime is returned only when the identities agree. *)
Theorem restore_gate
  (build_value : list Id -> CapabilityFactory -> gmap CapabilityId CapabilityEntry -> string + CapabilityValue)
  (run : RunId) (d : RunDefinition) (fs : FactoryRegistry) (n : nat) (h : host) (st : S) (v : ValidatedRunDefinition)
  (Hv : preflight d fs = Ok v) :
  match load_run st run with
  | (st', Ok state) =>
      match workflow_replay_identity state with
      | None =>
          restore_from_definition build_value run d fs n h st =
            (h, st', Err (DefinitionMismatch (validated_identity v) None))
      | Some i =>
          if is_legacy_run_definition_identity i
          then restore_from_definition build_value run d fs n h st =
                 (h, st', Err (LegacyDefinitionIdentityUnsupported i RUN_DEFINITION_FORMAT))
          else i <> validated_identity v ->
               restore_from_definition build_value run d fs n h st =
                 (h, st', Err (DefinitionMismatch (validated_identity v) (Some i)))
      end
  | (st', Err e) => restore_from_definition build_value run d fs n h st = (h, st', Err (RuntimeStore e))
  | _ => True
  end /\
  (forall r h' st', restore_from_definition build_value run d fs n h st = (h', st', Ok r) ->
     exists state, (load_run st run).2 = Ok state /\ workflow_replay_identity state = Some (validated_identity v)).
Proof.
  unfold restore_from_definition, load_of, ensure_restorable_definition_identity, and_then.
  rewrite Hv. cbn [fst snd]. destruct (load_run st run) as [st' [state|e|p|]]; cbn [map_err fst snd]; try done.
  destruct (workflow_replay_identity state) as [i|] eqn:Hi; [|done].
  destruct (is_legacy_run_definition_identity i); [done|]. case_bool_decide as Hne.
  - cbn [fst snd]. done.
  - split; [done|]. intros r h' st2 _. exists state. split; [done|]. by rewrite Hi, Hne.
Qed.
End safety.

(** ** A run on which the theorems are exercised

    Two tasks over the in-memory store; the second owns an effect that must
    not be repeated.  The host runs it, dispatches the effect, and dies. *)
#[local] Existing Instance sample_format.
#[local] Existing Instance sample_format_laws.
Definition coordinated : WorkflowGraph := (apply_batch WorkflowGraph_default 0%N sample_batch).1.
Definition coordinated_configs : list (Id * TaskConfig) :=
  [("b", config_with_effect TaskConfig_new "op" NonIdempotent)].
Definition coordinated_events : list event :=
  [StartRun coordinated [0] coordinated_configs; HostCalls (CallRun Runtime_start); HostCalls (CallDispatch Runtime_start "op")].
Definition coordinated_after (n : nat) : life (S := InMemoryDurableStore) :=
  foldl (fun l e => happens "run" e l) (Down InMemoryDurableStore_new) (take n coordinated_events).
Lemma coordinated_reachable : workflow_reachable coordinated.
Proof. apply rtc_once. constructor. Qed.
Lemma coordinated_history n : history "run" (coordinated_after n).
Proof.
  exists InMemoryDurableStore_new. split; [split; [apply rtc_refl|apply lookup_empty]|].
  unfold coordinated_after.
  assert (Hok : Forall event_ok (take n coordinated_events)).
  { apply Forall_take. repeat constructor. apply coordinated_reachable. }
  revert Hok. generalize (Down InMemoryDurableStore_new : life). generalize (take n coordinated_events).
  intros es. induction es as [|e es IH]; intros l Hes; [reflexivity|].
  apply Forall_cons in Hes as [He Hes]. cbn [foldl]. eapply rtc_l; [by apply step_event|by apply IH].
Qed.
Definition up (l : life (S := InMemoryDurableStore)) (P : Runtime InMemoryDurableStore -> Prop) : Prop :=
  match l with Up r => P r | Down _ => False end.
Definition returned {E A} (x : result E A) : bool := match x with Ok _ => true | _ => false end.
Lemma returned_Ok {E A} (x : result E A) : returned x = true -> exists a, x = Ok a.
Proof. destruct x; try done. by eexists. Qed.
Lemma coordinated_up : up (coordinated_after 3) (fun r =>
  identity_provenance r = LegacyLiveObject /\ capability_runtime r = ReactiveRuntime_new (from_scope [0]) /\
  mutation_log coordinated = mutation_log (workflow r) /\
  returned (restore_run Runtime_start "run" coordinated [0] (map_iter (task_configs r)) (store r)).2 = true /\
  match runs (store r) !! ("run" : RunId) with
  | Some d => length (dispatches_of d "op") = 1 /\
      intents d !! "op" = Some {| intent_task_id := "b"; intent_operation_id := "op"; semantics := NonIdempotent |}
  | None => False
  end).
Proof. vm_compute. repeat split; reflexivity. Qed.

Lemma restart_exact_witness :
  up (coordinated_after 3) (fun r => exists d r', holds "run" (store r) (Some d) /\
    (restore_run Runtime_start "run" coordinated [0] (map_iter (task_configs r)) (store r)).2 = Ok r' /\
    same_run d r r').
Proof.
  pose proof coordinated_up as Hup. pose proof (coordinated_history 3) as Hh.
  destruct (coordinated_after 3) as [r|st]; [|exact Hup]. cbn [up] in *.
  destruct Hup as (Hp & Hs & Hm & [r' Hr']%returned_Ok & _).
  destruct (restart_exact "run" r Runtime_start coordinated [0] Hh Hp Hs coordinated_reachable Hm eq_refl)
    as (d & Hd & Hx).
  exists d, r'. split; [exact Hd|split; [exact Hr'|]].
  destruct (restore_run Runtime_start "run" coordinated [0] (map_iter (task_configs r)) (store r)) as [st x].
  cbn [snd] in Hr'. subst x. destruct Hx as [(e & He & _)|(_ & Hsame & _)]; [discriminate He|].
  exact (Hsame r' eq_refl).
Defined.

Lemma non_idempotent_once_witness :
  up (coordinated_after 3) (fun r => exists d, holds "run" (store r) (Some d) /\
    length (dispatches_of d "op") <= 1 /\ exists e, dispatch_effect Runtime_start "op" r = (r, Err e)).
Proof.
  pose proof coordinated_up as Hup. pose proof (coordinated_history 3) as Hh.
  destruct (coordinated_after 3) as [r|st]; [|exact Hup]. cbn [up] in *.
  destruct Hup as (_ & _ & _ & _ & Hup).
  destruct (runs (store r) !! ("run" : RunId)) as [d|] eqn:Hd; [|destruct Hup]. destruct Hup as [Hone Hi].
  assert (Hne : dispatches_of d "op" <> []) by (intros Hnil; rewrite Hnil in Hone; discriminate Hone).
  assert (Hholds : holds "run" (store r) (Some d)).
  { destruct (history_sound _ _ Hh) as [Hrun [d' Hc]]. pose proof (co_holds _ _ Hc) as Hst.
    rewrite Hrun in Hst. destruct Hst as [Hst _]. split; [exact Hst|exact Hd]. }
  destruct (non_idempotent_once "run" (Up r) d "op" _ Hh Hholds Hi eq_refl) as [Hlen Hagain].
  exists d. split; [exact Hholds|split; [exact Hlen|]].
  destruct (Hagain r Runtime_start eq_refl Hne) as (e & He & _). exists e. exact He.
Defined.

Lemma calls_return_witness :
  up (coordinated_after 1) (fun r => forall l, (run_until_blocked Runtime_start r).2 = Ok l ->
    rounds_done l (workflow r) (workflow (run_until_blocked Runtime_start r).1)).
Proof.
  pose proof (coordinated_history 1) as Hh.
  assert (Hup : up (coordinated_after 1) (fun _ => True)) by (vm_compute; exact I).
  destruct (coordinated_after 1) as [r|st]; [|exact Hup]. cbn [up].
  destruct (calls_return "run" r Hh) as [_ Hrun]. destruct (Hrun Runtime_start) as [_ Hl]. exact Hl.
Defined.

(** The same run, asked for by a definition it was not made from. *)
Definition declared_elsewhere : RunDefinition := add_task RunDefinition_new (TaskDefinition_new "a" "A").
Lemma restore_gate_witness :
  let h := {| host_tree := Runtime_start; host_calls := [] |} in
  up (coordinated_after 3) (fun r => exists e,
    restore_from_definition (fun _ _ _ => inl "unused") "run" declared_elsewhere FactoryRegistry_new 1 h (store r) =
      (h, store r, Err e)).
Proof.
  destruct (returned_Ok (preflight declared_elsewhere FactoryRegistry_new)) as [v Hv]; [vm_compute; reflexivity|].
  assert (Hup : up (coordinated_after 3) (fun r => match runs (store r) !! ("run" : RunId), preflight declared_elsewhere FactoryRegistry_new with
    | Some d, Ok v => exists i, workflow_replay_identity d = Some i /\ is_legacy_run_definition_identity i = false /\
        i <> validated_identity v
    | _, _ => False
    end)).
  { vm_compute. eexists. split; [reflexivity|split; [reflexivity|discriminate]]. }
  cbv zeta. destruct (coordinated_after 3) as [r|st]; [|exact Hup]. cbn [up] in *.
  rewrite Hv in Hup. destruct (runs (store r) !! ("run" : RunId)) as [d|] eqn:Hd; [|destruct Hup].
  destruct Hup as (i & Hi & Hleg & Hne).
  assert (Hload : load_run (store r) "run" = (store r, Ok d)) by (cbn; unfold memory_load_run; by rewrite Hd).
  pose proof (restore_gate (fun _ _ _ => inl "unused") "run" declared_elsewhere FactoryRegistry_new 1
    {| host_tree := Runtime_start; host_calls := [] |} (store r) v Hv) as [Hgate _].
  rewrite Hload, Hi, Hleg in Hgate. eexists. exact (Hgate Hne).
Defined.
