(* ===== verification/Driver.v ===== *)
(** * The asynchronous driver: [crates/runtime-core/src/async_driver.rs]

    One task owns a [Runtime] and an effect dispatcher and serves the commands
    that handles put in its mailbox; each command has a response cell.  The
    functions below are the bodies between two accesses of something shared;
    [act] interleaves them with handles, with callers that poll their responses
    and with the loss of the owner at any await.  What a dispatcher answers is
    an argument of the step in which its future resolves. *)
From S2P Require Export RuntimeCore.
#[local] Open Scope string_scope.
#[local] Open Scope nat_scope.
#[local] Open Scope list_scope.

(** ** Requests, results and errors *)
Inductive EffectDispatchError := UnknownOutcome (reason : string).
Definition EffectDispatchError_reason (e : EffectDispatchError) : string :=
  match e with UnknownOutcome reason => reason end.
Definition EffectDispatchError_display (e : EffectDispatchError) : string :=
  match e with UnknownOutcome reason => "external effect outcome is unknown: " +:+ reason end.
Record EffectDispatchRequest := {
  rq_run_id : RunId;
  rq_task_id : Id;
  rq_operation_id : OperationId;
  rq_attempt_id : AttemptId;
  rq_semantics : EffectSemantics
}.
Inductive DriveResult :=
  | Step (s : StepResult)
  | EffectCompleted (request : EffectDispatchRequest) (outcome : KnownEffectOutcome)
  | EffectUnknown (request : EffectDispatchRequest) (e : EffectDispatchError)
  | Backpressured (item : StreamItem RuntimeEvent).
Inductive ShutdownStatus :=
  | Clean
  | PendingDispatch (operation_id : OperationId)
  | PendingUnknown (operation_id : OperationId)
  | PendingReconciliation (operation_id : OperationId)
  | ObservedFailure (operation_id : OperationId).
Inductive DriverError :=
  | OwnerDropped
  | ShuttingDown
  | DriverRuntime (e : RuntimeError)
  | AttemptLineageMismatch (operation_id : OperationId) (expected : AttemptId) (actual : option AttemptId).
Definition DriverError_display `{StoreFormat} (string_debug : string -> string) (e : DriverError) : string :=
  match e with
  | OwnerDropped => "runtime driver owner was dropped"
  | ShuttingDown => "runtime driver is shutting down"
  | DriverRuntime e => "runtime driver command failed: " +:+ RuntimeError_display string_debug e
  | AttemptLineageMismatch o expected actual =>
      "attempt lineage mismatch for " +:+ OperationId_display o +:+ ": expected " +:+ AttemptId_display expected
      +:+ ", got " +:+ default "none" (AttemptId_display <$> actual)
  end.
Inductive DriverOwnerState := OwnerRunning | OwnerShutdown | OwnerIsDropped.

(** ** The owner of a runtime *)
Record RuntimeDriver (S : Type) := {
  driver_runtime : Runtime S;
  pending_lifecycle : option (StreamItem RuntimeEvent)
}.
Arguments driver_runtime {S} _.
Arguments pending_lifecycle {S} _.
Arguments Build_RuntimeDriver {S} _ _.

Section owner.
Context {S : Type} `{DS : DurableStore S}.
Implicit Types d : RuntimeDriver S.

Definition set_lifecycle (i : option (StreamItem RuntimeEvent)) d : RuntimeDriver S :=
  {| driver_runtime := driver_runtime d; pending_lifecycle := i |}.
Definition on_runtime {A} (m : Runtime S -> Runtime S * A) d : RuntimeDriver S * A :=
  let '(r, x) := m (driver_runtime d) in ({| driver_runtime := r; pending_lifecycle := pending_lifecycle d |}, x).

(** ** Lifecycle items that found the stream full *)
Definition retry_pending_lifecycle d : RuntimeDriver S * result RuntimeError unit :=
  match pending_lifecycle d with
  | None => (d, Ok tt)
  | Some item =>
      match on_runtime (retry_execution_event item) (set_lifecycle None d) with
      | (d, Ok _) => (d, Ok tt)
      | (d, Err (ExecutionBackpressure item)) => (set_lifecycle (Some item) d, Err (ExecutionBackpressure item))
      | (d, Err e) => (set_lifecycle (Some item) d, Err e)
      | x => x
      end
  end.
Definition runtime_error (e : RuntimeError) d : RuntimeDriver S * DriverError :=
  (match e with ExecutionBackpressure item => set_lifecycle (Some item) d | _ => d end, DriverRuntime e).
Definition drive_runtime_error (e : RuntimeError) d : RuntimeDriver S * result DriverError DriveResult :=
  match e with
  | ExecutionBackpressure item => (set_lifecycle (Some item) d, Ok (Backpressured item))
  | e => (d, Err (DriverRuntime e))
  end.
(** [map_err(|error| self.runtime_error(error))] *)
Definition rejected {A} (p : RuntimeDriver S * result RuntimeError A) : RuntimeDriver S * result DriverError A :=
  match p with
  | (d, Ok a) => (d, Ok a)
  | (d, Err e) => let '(d, e) := runtime_error e d in (d, Err e)
  | (d, Panic site) => (d, Panic site)
  | (d, NoFuel) => (d, NoFuel)
  end.

(** ** Dispatching an effect: before and after the external call *)
Definition retained_attempt (r : Runtime S) (t : Id) (o : OperationId) : option AttemptId :=
  ta_attempt_id <$> last (filter (owns_attempt t (Some o)) (runtime_attempts r)).
Definition check_lineage (o : OperationId) (expected actual : option AttemptId) : result DriverError unit :=
  match expected with
  | Some e => if bool_decide (actual <> Some e) then Err (AttemptLineageMismatch o e actual) else Ok tt
  | None => Ok tt
  end.
Definition prepare_dispatch (tree : Scope.Runtime) (o : OperationId) (expected : option AttemptId) d :
  RuntimeDriver S * result DriverError EffectDispatchRequest :=
  and_then (rejected (retry_pending_lifecycle d)) (fun d _ =>
  and_then (rejected (d, map_err RuntimeJournal (journal_intent (journal (driver_runtime d)) o))) (fun d intent =>
  and_then (d, check_lineage o expected (retained_attempt (driver_runtime d) (intent_task_id intent) o)) (fun d _ =>
  and_then (rejected (on_runtime (dispatch_effect tree o) d)) (fun d a =>
  and_then (d, check_lineage o expected (Some a)) (fun d _ =>
  (d, Ok {| rq_run_id := runtime_run_id (driver_runtime d); rq_task_id := intent_task_id intent;
            rq_operation_id := o; rq_attempt_id := a; rq_semantics := semantics intent |})))))).
Definition settle_dispatch (q : EffectDispatchRequest) (x : EffectDispatchError + KnownEffectOutcome) d :
  RuntimeDriver S * result DriverError DriveResult :=
  match x with
  | inr outcome =>
      and_then (rejected (on_runtime (record_effect_outcome (rq_operation_id q) (rq_attempt_id q) outcome) d)) (fun d _ =>
      (d, Ok (EffectCompleted q outcome)))
  | inl e => (d, Ok (EffectUnknown q e))
  end.

(** ** Commands *)
(** A step of the scheduler; [inr] is an effect that has to be dispatched. *)
Definition drive_once (tree : Scope.Runtime) d : RuntimeDriver S * result DriverError (DriveResult + EffectDispatchRequest) :=
  let observe p := let '(d, x) := p in (d, inl <$> x) in
  match retry_pending_lifecycle d with
  | (d, Err e) => observe (drive_runtime_error e d)
  | (d, Panic site) => (d, Panic site)
  | (d, NoFuel) => (d, NoFuel)
  | (d, Ok _) =>
      match on_runtime (step tree) d with
      | (d, Err e) => observe (drive_runtime_error e d)
      | (d, Panic site) => (d, Panic site)
      | (d, NoFuel) => (d, NoFuel)
      | (d, Ok (EffectPending _ a o)) => let '(d, x) := prepare_dispatch tree o (Some a) d in (d, inr <$> x)
      | (d, Ok s) => (d, Ok (inl (Step s)))
      end
  end.
Definition recover_now (o : OperationId) d : RuntimeDriver S * result DriverError RecoveryDecision :=
  and_then (rejected (retry_pending_lifecycle d)) (fun d _ => rejected (on_runtime (recover o) d)).
Definition cancel_now (t : Id) d : RuntimeDriver S * result DriverError Cancellation :=
  rejected (on_runtime (cancel_task t) d).

(** ** Shutdown *)
Definition outcome_is_known (x : RecoveredEffectState) : bool :=
  match x with OutcomeKnown _ => true | _ => false end.
Definition known_outcomes (s : DurableRunState) : list OperationId :=
  filter (fun o => outcome_is_known (effect_state s o) = true) (set_iter (operation_ids s)).
Fixpoint recover_all (os : list OperationId) d : RuntimeDriver S * result DriverError unit :=
  match os with
  | [] => (d, Ok tt)
  | o :: os => and_then (rejected (on_runtime (recover o) d)) (fun d _ => recover_all os d)
  end.
(** The loop of [classify_shutdown] with its three variables. *)
Fixpoint classify_operations (s : DurableRunState) (os : list OperationId)
  (pending_dispatch pending_unknown observed_failure : option OperationId) : ShutdownStatus :=
  match os with
  | [] =>
      match pending_unknown, pending_dispatch, observed_failure with
      | Some o, _, _ => PendingUnknown o
      | None, Some o, _ => PendingDispatch o
      | None, None, Some o => ObservedFailure o
      | None, None, None => Clean
      end
  | o :: os =>
      let first x := match x with Some _ => x | None => Some o end in
      match intent s o with
      | None => classify_operations s os pending_dispatch pending_unknown observed_failure
      | Some i =>
          match effect_state s o with
          | Prepared =>
              if is_cancelled s (intent_task_id i)
              then classify_operations s os pending_dispatch pending_unknown observed_failure
              else classify_operations s os (first pending_dispatch) pending_unknown observed_failure
          | OutcomeUnknown =>
              if bool_decide (semantics i = NonIdempotent) then PendingReconciliation o
              else classify_operations s os pending_dispatch (first pending_unknown) observed_failure
          | OutcomeKnown Failed => classify_operations s os pending_dispatch pending_unknown (first observed_failure)
          | OutcomeKnown Succeeded | NotPrepared =>
              classify_operations s os pending_dispatch pending_unknown observed_failure
          end
      end
  end.
Definition classify_shutdown (s : DurableRunState) : ShutdownStatus :=
  classify_operations s (set_iter (operation_ids s)) None None None.
Definition shutdown_now d : RuntimeDriver S * result DriverError ShutdownStatus :=
  and_then (rejected (retry_pending_lifecycle d)) (fun d _ =>
  and_then (rejected (on_runtime durable_state d)) (fun d state =>
  and_then (recover_all (known_outcomes state) d) (fun d _ =>
  match pending_lifecycle d with
  | Some item => rejected (d, Err (ExecutionBackpressure item))
  | None => and_then (rejected (on_runtime durable_state d)) (fun d state => (d, Ok (classify_shutdown state)))
  end))).
End owner.

(** ** Responses *)
Inductive DriverResponse :=
  | OfDrive (x : DriveResult)
  | OfRecover (x : RecoveryDecision)
  | OfCancel (x : Cancellation)
  | OfExecution (l : list (StreamItem RuntimeEvent))
  | OfProgress (l : list (KeyedStreamItem Id RuntimeEvent))
  | OfTelemetry (l : list (StreamItem RuntimeEvent))
  | OfShutdown (x : ShutdownStatus).
Definition Reply : Type := DriverError + DriverResponse.
(** [ready] is what the future has returned to its caller, who polls it no
    more; [response_waker] is the waker of a caller that waits. *)
Record ResponseState := { response_result : option Reply; response_waker : bool; ready : option Reply }.
Definition response_channel : ResponseState := {| response_result := None; response_waker := false; ready := None |}.
Definition response_complete (x : Reply) (c : ResponseState) : ResponseState :=
  match response_result c with
  | Some _ => c
  | None => {| response_result := Some x; response_waker := false; ready := ready c |}
  end.
(** [Drop]; it also runs at the end of [complete], which consumes the sender. *)
Definition sender_drop (c : ResponseState) : ResponseState :=
  {| response_result := Some (default (inl OwnerDropped) (response_result c)); response_waker := false; ready := ready c |}.
Definition response_poll (c : ResponseState) : ResponseState :=
  match ready c, response_result c with
  | Some _, _ => c
  | None, Some x => {| response_result := None; response_waker := response_waker c; ready := Some x |}
  | None, None => {| response_result := None; response_waker := true; ready := None |}
  end.

(** ** The mailbox *)
Inductive Request :=
  | Wake
  | DispatchEffect (operation_id : OperationId)
  | Recover (operation_id : OperationId)
  | CancelTask (task_id : Id)
  | DrainExecutionEvents
  | DrainProgressEvents
  | DrainTelemetryEvents
  | Shutdown.
(** [reply] is the position of the response cell. *)
Record DriverCommand := { request : Request; reply : nat }.
Record MailboxState := {
  commands : list DriverCommand;
  mailbox_closed : bool;
  owner_dropped : bool;
  mailbox_waker : bool;
  shutdown_execution_events : list (StreamItem RuntimeEvent);
  shutdown_progress_events : list (KeyedStreamItem Id RuntimeEvent);
  shutdown_telemetry_events : list (StreamItem RuntimeEvent)
}.
Definition CommandMailbox_new : MailboxState :=
  {| commands := []; mailbox_closed := false; owner_dropped := false; mailbox_waker := false;
     shutdown_execution_events := []; shutdown_progress_events := []; shutdown_telemetry_events := [] |}.
Definition set_queue (cs : list DriverCommand) (waker : bool) (m : MailboxState) : MailboxState :=
  {| commands := cs; mailbox_closed := mailbox_closed m; owner_dropped := owner_dropped m; mailbox_waker := waker;
     shutdown_execution_events := shutdown_execution_events m;
     shutdown_progress_events := shutdown_progress_events m;
     shutdown_telemetry_events := shutdown_telemetry_events m |}.
Definition set_final es ps ts (m : MailboxState) : MailboxState :=
  {| commands := commands m; mailbox_closed := mailbox_closed m; owner_dropped := owner_dropped m;
     mailbox_waker := mailbox_waker m; shutdown_execution_events := es; shutdown_progress_events := ps;
     shutdown_telemetry_events := ts |}.
(** The command is refused, or queued and the waker taken. *)
Definition mailbox_submit (c : DriverCommand) (m : MailboxState) : option MailboxState :=
  if mailbox_closed m then None else Some (set_queue (commands m ++ [c]) false m).
Inductive next_command := NextIs (c : DriverCommand) | NextNone | NextPending.
Definition mailbox_next (m : MailboxState) : MailboxState * next_command :=
  match commands m with
  | c :: cs => (set_queue cs (mailbox_waker m) m, NextIs c)
  | [] => if mailbox_closed m then (m, NextNone) else (set_queue [] true m, NextPending)
  end.
Definition owner_state (m : MailboxState) : DriverOwnerState :=
  if owner_dropped m then OwnerIsDropped else if mailbox_closed m then OwnerShutdown else OwnerRunning.
(** Closing; the pending commands are drained. *)
Definition mailbox_close es ps ts (m : MailboxState) : MailboxState * list DriverCommand :=
  ({| commands := []; mailbox_closed := true; owner_dropped := owner_dropped m; mailbox_waker := false;
      shutdown_execution_events := es; shutdown_progress_events := ps; shutdown_telemetry_events := ts |}, commands m).
Definition owner_guard_drop (m : MailboxState) : MailboxState * list DriverCommand :=
  if mailbox_closed m then (m, [])
  else ({| commands := []; mailbox_closed := true; owner_dropped := true; mailbox_waker := false;
           shutdown_execution_events := shutdown_execution_events m;
           shutdown_progress_events := shutdown_progress_events m;
           shutdown_telemetry_events := shutdown_telemetry_events m |}, commands m).
Definition take_shutdown_execution_events (m : MailboxState) : MailboxState * option (list (StreamItem RuntimeEvent)) :=
  if mailbox_closed m
  then (set_final [] (shutdown_progress_events m) (shutdown_telemetry_events m) m, Some (shutdown_execution_events m))
  else (m, None).
Definition take_shutdown_progress_events (m : MailboxState) : MailboxState * option (list (KeyedStreamItem Id RuntimeEvent)) :=
  if mailbox_closed m
  then (set_final (shutdown_execution_events m) [] (shutdown_telemetry_events m) m, Some (shutdown_progress_events m))
  else (m, None).
Definition take_shutdown_telemetry_events (m : MailboxState) : MailboxState * option (list (StreamItem RuntimeEvent)) :=
  if mailbox_closed m
  then (set_final (shutdown_execution_events m) (shutdown_progress_events m) [] m, Some (shutdown_telemetry_events m))
  else (m, None).
Definition final_reply {A} (f : A -> DriverResponse) (p : MailboxState * option A) : MailboxState * Reply :=
  (p.1, match p.2 with Some l => inr (f l) | None => inl ShuttingDown end).
Definition complete_after_close (c : DriverCommand) (m : MailboxState) : MailboxState * Reply :=
  if owner_dropped m then (m, inl OwnerDropped)
  else match request c with
  | DrainExecutionEvents => final_reply OfExecution (take_shutdown_execution_events m)
  | DrainProgressEvents => final_reply OfProgress (take_shutdown_progress_events m)
  | DrainTelemetryEvents => final_reply OfTelemetry (take_shutdown_telemetry_events m)
  | _ => (m, inl ShuttingDown)
  end.

(** ** The owner's loop *)
(** What serving a command comes to before the owner awaits again. *)
Inductive served (S : Type) :=
  | Replies (d : RuntimeDriver S) (x : Reply)
  | Dispatches (d : RuntimeDriver S) (q : EffectDispatchRequest)
  | Stops (d : RuntimeDriver S) (status : ShutdownStatus) (es : list (StreamItem RuntimeEvent))
      (ps : list (KeyedStreamItem Id RuntimeEvent)) (ts : list (StreamItem RuntimeEvent))
  | Panics (d : RuntimeDriver S).
Arguments Replies {S} _ _.
Arguments Dispatches {S} _ _.
Arguments Stops {S} _ _ _ _ _.
Arguments Panics {S} _.

(** [Polling]: the owner's task is about to poll the mailbox; [Parked]: it has
    found it empty; [AwaitingEffect]: the external effect [q] is in progress for a
    command; [Stopping], [Refusing]: the rest of a successful shutdown, the
    status is sent; [DriverExited]: [run] has returned its [DriverExit]; [Unwinds]:
    the owner is being dropped, with the command in its hands; [Drains]: its
    guard refuses the commands that were queued; [Gone]. *)
Inductive phase (S : Type) :=
  | Polling (d : RuntimeDriver S)
  | Parked (d : RuntimeDriver S)
  | AwaitingEffect (d : RuntimeDriver S) (c : DriverCommand) (q : EffectDispatchRequest)
  | Stopping (d : RuntimeDriver S) (status : ShutdownStatus) (es : list (StreamItem RuntimeEvent))
      (ps : list (KeyedStreamItem Id RuntimeEvent)) (ts : list (StreamItem RuntimeEvent))
  | Refusing (d : RuntimeDriver S) (status : ShutdownStatus) (cs : list DriverCommand)
  | DriverExited (r : Runtime S) (status : ShutdownStatus)
  | Unwinds (st : S) (c : option DriverCommand)
  | Drains (st : S) (cs : list DriverCommand)
  | Gone (st : S).
Arguments Polling {S} _.
Arguments Parked {S} _.
Arguments AwaitingEffect {S} _ _ _.
Arguments Stopping {S} _ _ _ _ _.
Arguments Refusing {S} _ _ _.
Arguments DriverExited {S} _ _.
Arguments Unwinds {S} _ _.
Arguments Drains {S} _ _.
Arguments Gone {S} _.

(** [late] are the commands that handles found the mailbox closed to, [spent]
    the cells whose sender is still to be dropped after its [complete].  The
    history: [answers] are the replies sent, [dispatched] the calls of the
    dispatcher. *)
Record driver_world (S : Type) := {
  mailbox : MailboxState;
  cells : list ResponseState;
  owner : phase S;
  late : list DriverCommand;
  spent : list nat;
  answers : list (DriverCommand * Reply);
  dispatched : list EffectDispatchRequest
}.
Arguments mailbox {S} _.
Arguments cells {S} _.
Arguments owner {S} _.
Arguments late {S} _.
Arguments spent {S} _.
Arguments answers {S} _.
Arguments dispatched {S} _.
Arguments Build_driver_world {S} _ _ _ _ _ _ _.

Section machine.
Context {S : Type} `{DS : DurableStore S}.
Implicit Types (d : RuntimeDriver S) (w : driver_world S).

Definition settled_as {A} (k : RuntimeDriver S -> A -> served S) (p : RuntimeDriver S * result DriverError A) : served S :=
  match p with
  | (d, Ok a) => k d a
  | (d, Err e) => Replies d (inl e)
  | (d, _) => Panics d
  end.
Definition replies {A} (f : A -> DriverResponse) : RuntimeDriver S * result DriverError A -> served S :=
  settled_as (fun d a => Replies d (inr (f a))).
(** A drain has no error of its own. *)
Definition drains {A} (m : Runtime S -> Runtime S * result Empty_set A) d : RuntimeDriver S * result DriverError A :=
  let '(d, x) := on_runtime m d in (d, map_err (fun e : Empty_set => match e with end) x).
Definition serve (tree : Scope.Runtime) (q : Request) d : served S :=
  match q with
  | Wake =>
      settled_as (fun d x => match x with inl x => Replies d (inr (OfDrive x)) | inr q => Dispatches d q end)
        (drive_once tree d)
  | DispatchEffect o => settled_as Dispatches (prepare_dispatch tree o None d)
  | Recover o => replies OfRecover (recover_now o d)
  | CancelTask t => replies OfCancel (cancel_now t d)
  | DrainExecutionEvents => replies OfExecution (drains drain_execution_events d)
  | DrainProgressEvents => replies OfProgress (drains drain_progress_events d)
  | DrainTelemetryEvents => replies OfTelemetry (drains drain_telemetry_events d)
  | Shutdown =>
      settled_as (fun d status =>
      settled_as (fun d es =>
      settled_as (fun d ps =>
      settled_as (fun d ts => Stops d status es ps ts) (drains drain_telemetry_events d))
        (drains drain_progress_events d))
        (drains drain_execution_events d))
        (shutdown_now d)
  end.

(** ** Steps of the world *)
Definition with_owner (p : phase S) w : driver_world S :=
  {| mailbox := mailbox w; cells := cells w; owner := p; late := late w; spent := spent w; answers := answers w;
     dispatched := dispatched w |}.
Definition with_mailbox (m : MailboxState) w : driver_world S :=
  {| mailbox := m; cells := cells w; owner := owner w; late := late w; spent := spent w; answers := answers w;
     dispatched := dispatched w |}.
Definition with_cells (l : list ResponseState) (s : list nat) w : driver_world S :=
  {| mailbox := mailbox w; cells := l; owner := owner w; late := late w; spent := s; answers := answers w;
     dispatched := dispatched w |}.
Definition with_late (l : list DriverCommand) w : driver_world S :=
  {| mailbox := mailbox w; cells := cells w; owner := owner w; late := l; spent := spent w; answers := answers w;
     dispatched := dispatched w |}.
(** [complete] up to the drop of the sender. *)
Definition answer (c : DriverCommand) (x : Reply) w : driver_world S :=
  {| mailbox := mailbox w; cells := alter (response_complete x) (reply c) (cells w); owner := owner w; late := late w;
     spent := spent w ++ [reply c]; answers := answers w ++ [(c, x)]; dispatched := dispatched w |}.
(** The sender is dropped without an answer. *)
Definition abandon (c : DriverCommand) w : driver_world S :=
  {| mailbox := mailbox w; cells := alter sender_drop (reply c) (cells w); owner := owner w; late := late w;
     spent := spent w; answers := answers w ++ [(c, inl OwnerDropped)]; dispatched := dispatched w |}.
Definition call_dispatcher (q : EffectDispatchRequest) w : driver_world S :=
  {| mailbox := mailbox w; cells := cells w; owner := owner w; late := late w; spent := spent w; answers := answers w;
     dispatched := dispatched w ++ [q] |}.
Definition answer_after_close (c : DriverCommand) w : driver_world S :=
  let '(m, x) := complete_after_close c (mailbox w) in answer c x (with_mailbox m w).
Definition proceed (c : DriverCommand) (x : served S) w : driver_world S :=
  match x with
  | Replies d x => with_owner (Polling d) (answer c x w)
  | Dispatches d q => with_owner (AwaitingEffect d c q) (call_dispatcher q w)
  | Stops d status es ps ts => with_owner (Stopping d status es ps ts) (answer c (inr (OfShutdown status)) w)
  | Panics d => with_owner (Unwinds (store (driver_runtime d)) (Some c)) w
  end.
Definition submit (q : Request) w : driver_world S :=
  let c := {| request := q; reply := length (cells w) |} in
  let w := with_cells (cells w ++ [response_channel]) (spent w) w in
  match mailbox_submit c (mailbox w) with
  | None => with_late (late w ++ [c]) w
  | Some m =>
      let woken := match owner w with Parked d => if mailbox_waker (mailbox w) then Polling d else Parked d | p => p end in
      with_owner woken (with_mailbox m w)
  end.
Definition poll_owner (tree : Scope.Runtime) d w : driver_world S :=
  match mailbox_next (mailbox w) with
  | (m, NextIs c) => proceed c (serve tree (request c) d) (with_mailbox m w)
  | (m, NextNone) => with_owner (Unwinds (store (driver_runtime d)) None) (with_mailbox m w)
  | (m, NextPending) => with_owner (Parked d) (with_mailbox m w)
  end.

Inductive move :=
  | Submits (q : Request)
  | Late (i : nat)
  | Polls (n : nat)
  | SenderDrops (i : nat)
  | OwnerPolled (tree : Scope.Runtime)
  | EffectReturns (x : EffectDispatchError + KnownEffectOutcome)
  | OwnerContinues
  | OwnerLost.
(** A move that is not enabled changes nothing.  [OwnerPolled] may come without a
    wake-up; the owner is lost at an await, or by a panic of the dispatcher. *)
Definition act (m : move) w : driver_world S :=
  match m, owner w with
  | Submits q, _ => submit q w
  | Late i, _ =>
      match late w !! i with
      | Some c => answer_after_close c (with_late (delete i (late w)) w)
      | None => w
      end
  | Polls n, _ => with_cells (alter response_poll n (cells w)) (spent w) w
  | SenderDrops i, _ =>
      match spent w !! i with
      | Some n => with_cells (alter sender_drop n (cells w)) (delete i (spent w)) w
      | None => w
      end
  | OwnerPolled tree, (Polling d | Parked d) => poll_owner tree d w
  | EffectReturns x, AwaitingEffect d c q => proceed c (replies OfDrive (settle_dispatch q x d)) w
  | OwnerContinues, Stopping d status es ps ts =>
      let '(m, cs) := mailbox_close es ps ts (mailbox w) in with_owner (Refusing d status cs) (with_mailbox m w)
  | OwnerContinues, Refusing d status (c :: cs) => answer_after_close c (with_owner (Refusing d status cs) w)
  | OwnerContinues, Refusing d status [] => with_owner (DriverExited (driver_runtime d) status) w
  | OwnerContinues, Unwinds st (Some c) => abandon c (with_owner (Unwinds st None) w)
  | OwnerContinues, Unwinds st None =>
      let '(m, cs) := owner_guard_drop (mailbox w) in with_owner (Drains st cs) (with_mailbox m w)
  | OwnerContinues, Drains st (c :: cs) => answer c (inl OwnerDropped) (with_owner (Drains st cs) w)
  | OwnerContinues, Drains st [] => with_owner (Gone st) w
  | OwnerLost, (Polling d | Parked d) => with_owner (Unwinds (store (driver_runtime d)) None) w
  | OwnerLost, AwaitingEffect d c q => with_owner (Unwinds (store (driver_runtime d)) (Some c)) w
  | _, _ => w
  end.
(** [RuntimeDriver::new] *)
Definition driver_new (r : Runtime S) : driver_world S :=
  {| mailbox := CommandMailbox_new; cells := []; owner := Polling {| driver_runtime := r; pending_lifecycle := None |};
     late := []; spent := []; answers := []; dispatched := [] |}.
Definition moves : list move -> driver_world S -> driver_world S := fun ms w => foldl (fun w m => act m w) w ms.
End machine.
