(* ===== verification/DriverMailbox.v ===== *)
(** * Commands and responses of the driver

    [board] relates the response cells to the commands that wait for an answer
    and to the replies sent; [moored] relates the mailbox to what the owner is
    doing.  Every move keeps both, and from every world the owner's own moves
    answer what is left. *)
From S2P Require Export Driver.
#[local] Open Scope string_scope.
#[local] Open Scope nat_scope.
#[local] Open Scope list_scope.

(** ** Response cells *)
Definition empty_cell (s : ResponseState) : Prop := response_result s = None /\ ready s = None.
(** The reply is in the cell until the caller has it. *)
Definition carries (x : Reply) (s : ResponseState) : Prop :=
  (ready s = None /\ response_result s = Some x) \/ ready s = Some x.
Definition answered (l : list (DriverCommand * Reply)) : list nat := (fun a => reply a.1) <$> l.
Record board (cs : list ResponseState) (open : list nat) (l : list (DriverCommand * Reply)) (sp : list nat) : Prop := {
  bd_once : open ++ answered l ≡ₚ seq 0 (length cs);
  bd_open n : n ∈ open -> exists s, cs !! n = Some s /\ empty_cell s;
  bd_answered c x : (c, x) ∈ l -> exists s, cs !! reply c = Some s /\ carries x s;
  bd_woken n s : cs !! n = Some s -> response_waker s = true -> empty_cell s;
  bd_spent n : n ∈ sp -> n ∈ answered l
}.
Lemma board_permutation cs open open' l sp : open ≡ₚ open' -> board cs open l sp -> board cs open' l sp.
Proof.
  intros Hp []. split; try done.
  - by rewrite <- Hp.
  - intros n. rewrite <- Hp. auto.
Qed.
Lemma board_bound cs open l sp n : board cs open l sp -> n ∈ open ++ answered l <-> n < length cs.
Proof. intros []. rewrite bd_once0, elem_of_seq. lia. Qed.
Lemma board_distinct cs open l sp : board cs open l sp -> NoDup (open ++ answered l).
Proof. intros []. rewrite bd_once0. apply NoDup_seq. Qed.
Lemma elem_of_answered l n : n ∈ answered l <-> exists c x, (c, x) ∈ l /\ reply c = n.
Proof.
  unfold answered. rewrite list_elem_of_fmap. split.
  - intros ([c x] & -> & H). by exists c, x.
  - intros (c & x & H & <-). by exists (c, x).
Qed.

Lemma board_submit cs open l sp :
  board cs open l sp -> board (cs ++ [response_channel]) (open ++ [length cs]) l sp.
Proof.
  intros B. pose proof (fun n => board_bound _ _ _ _ n B) as Hb. destruct B. split.
  - rewrite length_app, seq_app. cbn. rewrite <- bd_once0. solve_Permutation.
  - intros n [Hn|Hn%list_elem_of_singleton]%elem_of_app; [|subst n].
    + destruct (bd_open0 n Hn) as (s & Hs & He). exists s. split; [by apply lookup_app_l_Some|done].
    + exists response_channel. by rewrite lookup_app_r, Nat.sub_diag.
  - intros c x Hin. destruct (bd_answered0 c x Hin) as (s & Hs & He). exists s. split; [by apply lookup_app_l_Some|done].
  - intros n s [Hs|[_ Hs]]%lookup_app_Some; [by eapply bd_woken0|].
    by apply list_lookup_singleton_Some in Hs as [_ <-].
  - done.
Qed.

(** A change of one cell. *)
Lemma board_alter cs open l sp open' l' sp' n f :
  board cs open l sp -> open' ++ answered l' ≡ₚ open ++ answered l ->
  (forall k, k ∈ open' -> k ∈ open /\ (k = n -> forall s, cs !! n = Some s -> empty_cell s -> empty_cell (f s))) ->
  (forall c x, (c, x) ∈ l' -> ((c, x) ∈ l /\ (reply c = n -> forall s, cs !! n = Some s -> carries x s -> carries x (f s))) \/
     (n ∈ open /\ reply c = n /\ forall s, cs !! n = Some s -> empty_cell s -> carries x (f s))) ->
  (forall s, cs !! n = Some s -> (response_waker s = true -> empty_cell s) ->
     response_waker (f s) = true -> empty_cell (f s)) ->
  (forall k, k ∈ sp' -> k ∈ answered l') ->
  board (alter f n cs) open' l' sp'.
Proof.
  intros [] Hp Ho Hl Hw Hs. split.
  - by rewrite Hp, length_alter.
  - intros k Hk. destruct (Ho k Hk) as [Hk' Hf]. destruct (bd_open0 k Hk') as (s & Hcs & He).
    destruct (decide (k = n)) as [->|Hne].
    + exists (f s). rewrite list_lookup_alter_eq, Hcs. split; [done|by apply Hf].
    + exists s. by rewrite list_lookup_alter_ne.
  - intros c x Hin. destruct (Hl c x Hin) as [[Hin' Hf]|(Hno & <- & Hf)].
    + destruct (bd_answered0 c x Hin') as (s & Hcs & Hc). destruct (decide (reply c = n)) as [Hn|Hne].
      * exists (f s). rewrite Hn, list_lookup_alter_eq. rewrite Hn in Hcs. rewrite Hcs. split; [done|by apply Hf].
      * exists s. by rewrite list_lookup_alter_ne.
    + destruct (bd_open0 _ Hno) as (s & Hcs & He). exists (f s). rewrite list_lookup_alter_eq, Hcs. split; [done|by apply Hf].
  - intros k s. destruct (decide (k = n)) as [->|Hne].
    + rewrite list_lookup_alter_eq. destruct (cs !! n) as [s0|] eqn:E; [|done]. intros [= <-].
      apply Hw; [done|]. exact (bd_woken0 _ _ E).
    + rewrite list_lookup_alter_ne by done. apply bd_woken0.
  - done.
Qed.
Lemma board_answer_with f cs open l sp c x sp' :
  (forall s, empty_cell s -> carries x (f s) /\ response_waker (f s) = false) ->
  (forall k, k ∈ sp' -> k = reply c \/ k ∈ sp) ->
  board cs (reply c :: open) l sp -> board (alter f (reply c) cs) open (l ++ [(c, x)]) sp'.
Proof.
  intros Hf Hsp B. pose proof (board_distinct _ _ _ _ B) as Hd.
  assert (Hni : (reply c ∉ open) /\ (reply c ∉ answered l)).
  { cbn in Hd. apply NoDup_cons in Hd as [Hd _]. rewrite elem_of_app in Hd. naive_solver. }
  eapply board_alter; [exact B|..].
  - unfold answered. rewrite fmap_app. cbn. solve_Permutation.
  - intros k Hk. split; [by right|]. intros ->. by destruct Hni.
  - intros c' x' [Hin|[= -> ->]%list_elem_of_singleton]%elem_of_app.
    + left. split; [done|]. intros Hn. destruct Hni as [_ []]. apply elem_of_answered. eauto.
    + right. split; [by left|]. split; [done|]. intros s _ He. by apply Hf.
  - intros s Hs _. destruct (bd_open _ _ _ _ B (reply c)) as (s' & Hs' & He); [by left|].
    rewrite Hs in Hs'. injection Hs' as <-. destruct (Hf _ He) as [_ ->]. done.
  - intros k [->|Hk]%Hsp; apply elem_of_answered.
    + exists c, x. split; [|done]. apply elem_of_app. right. by left.
    + apply (bd_spent _ _ _ _ B), elem_of_answered in Hk as (c' & x' & Hin & <-).
      exists c', x'. split; [|done]. apply elem_of_app. by left.
Qed.
Lemma board_answer cs open l sp c x :
  board cs (reply c :: open) l sp ->
  board (alter (response_complete x) (reply c) cs) open (l ++ [(c, x)]) (sp ++ [reply c]).
Proof.
  apply board_answer_with.
  - intros s [Hr Hy]. unfold response_complete. rewrite Hr. split; [by left|done].
  - intros k [Hk|Hk%list_elem_of_singleton]%elem_of_app; auto.
Qed.
Lemma board_abandon cs open l sp c :
  board cs (reply c :: open) l sp ->
  board (alter sender_drop (reply c) cs) open (l ++ [(c, inl OwnerDropped)]) sp.
Proof.
  apply board_answer_with; [|auto].
  intros s [Hr Hy]. unfold sender_drop. rewrite Hr. split; [by left|done].
Qed.
Lemma board_poll cs open l sp n : board cs open l sp -> board (alter response_poll n cs) open l sp.
Proof.
  intros B. eapply board_alter; [exact B|done|..].
  - intros k Hk. split; [done|]. intros -> s Hs [Hr Hy]. unfold response_poll. by rewrite Hy, Hr.
  - intros c x Hin. left. split; [done|]. intros _ s _ [[Hy Hr]|Hy]; unfold response_poll; rewrite Hy, ?Hr; by right.
  - intros s Hs Hw. unfold response_poll. destruct (ready s) as [y|] eqn:Hy; [done|].
    destruct (response_result s) eqn:Hr; [|done]. cbn. intros Hw'. by apply Hw in Hw' as [Hr' _]; congruence.
  - apply B.
Qed.
(** The drop that ends [complete] is not seen by a caller. *)
Lemma board_drop cs open l sp n sp' :
  n ∈ sp -> (forall k, k ∈ sp' -> k ∈ sp) -> board cs open l sp -> board (alter sender_drop n cs) open l sp'.
Proof.
  intros Hn Hsp B. pose proof (board_distinct _ _ _ _ B) as Hd.
  apply (bd_spent _ _ _ _ B) in Hn as Ha.
  eapply board_alter; [exact B|done|..].
  - intros k Hk. split; [done|]. intros ->. exfalso. apply NoDup_app in Hd as (_ & Hd & _). by apply (Hd n).
  - intros c x Hin. left. split; [done|]. intros _ s _ [[Hy Hr]|Hy]; unfold sender_drop; [left|by right].
    by rewrite Hr.
  - done.
  - intros k Hk. by apply B, Hsp.
Qed.

(** ** Commands *)
Section wiring.
Context {S : Type} {DS : DurableStore S}.
Implicit Types (d : RuntimeDriver S) (w : driver_world S).

Definition in_hand (p : phase S) : list DriverCommand :=
  match p with
  | AwaitingEffect _ c _ | Unwinds _ (Some c) => [c]
  | Refusing _ _ cs | Drains _ cs => cs
  | _ => []
  end.
(** The commands that wait for an answer. *)
Definition waiting w : list DriverCommand := in_hand (owner w) ++ commands (mailbox w) ++ late w.
Definition drives (q : Request) : bool := match q with Wake | DispatchEffect _ => true | _ => false end.
(** The response has the type its command asks for. *)
Definition suits (q : Request) (x : Reply) : bool :=
  match x with
  | inl _ => true
  | inr y =>
      match y, q with
      | OfDrive _, (Wake | DispatchEffect _) | OfRecover _, Recover _ | OfCancel _, CancelTask _
      | OfExecution _, DrainExecutionEvents | OfProgress _, DrainProgressEvents
      | OfTelemetry _, DrainTelemetryEvents | OfShutdown _, Shutdown => true
      | _, _ => false
      end
  end.
(** The status [run] stops with, and whether the owner was lost. *)
Definition stopped_with (p : phase S) : option ShutdownStatus :=
  match p with Stopping _ s _ _ _ | Refusing _ s _ | DriverExited _ s => Some s | _ => None end.
Definition lost_owner (p : phase S) : bool := match p with Unwinds _ _ | Drains _ _ | Gone _ => true | _ => false end.
Definition closes (p : phase S) : bool :=
  match p with Refusing _ _ _ | DriverExited _ _ | Drains _ _ | Gone _ => true | _ => false end.
(** What a reply says of the owner. *)
Definition explained (p : phase S) (x : Reply) : Prop :=
  match x with
  | inl OwnerDropped => lost_owner p = true
  | inl ShuttingDown => closes p = true /\ is_Some (stopped_with p)
  | inr (OfShutdown s) => stopped_with p = Some s
  | _ => True
  end.
Record steady w : Prop := {
  st_closed : mailbox_closed (mailbox w) = closes (owner w);
  st_dropped : owner_dropped (mailbox w) = closes (owner w) && lost_owner (owner w);
  st_queue : mailbox_closed (mailbox w) = true -> commands (mailbox w) = [];
  st_parked d : owner w = Parked d -> commands (mailbox w) = [] /\ mailbox_waker (mailbox w) = true;
  st_awaiting d c q : owner w = AwaitingEffect d c q -> drives (request c) = true
}.
(** While the mailbox is open commands are answered in the order in which they
    were submitted. *)
Record moored w : Prop := {
  mo_board : board (cells w) (reply <$> waiting w) (answers w) (spent w);
  mo_order : mailbox_closed (mailbox w) = false ->
    late w = [] /\ answered (answers w) ++ (reply <$> waiting w) = seq 0 (length (cells w));
  mo_steady : steady w;
  mo_replies c x : (c, x) ∈ answers w -> suits (request c) x = true /\ explained (owner w) x
}.

(** ** One answer, and none *)
Lemma moored_quiet w w' :
  moored w -> steady w' -> cells w' = cells w -> answers w' = answers w -> spent w' = spent w ->
  late w' = late w -> waiting w' ≡ₚ waiting w ->
  (mailbox_closed (mailbox w') = false -> mailbox_closed (mailbox w) = false /\ waiting w' = waiting w) ->
  (forall x, explained (owner w) x -> explained (owner w') x) -> moored w'.
Proof.
  intros [B O _ R] Hs Hc Ha Hsp Hl Hw Ho He. split; rewrite ?Hc, ?Ha, ?Hsp, ?Hl; try done.
  - eapply board_permutation; [|exact B]. by rewrite Hw.
  - intros [Hcl ->]%Ho. by apply O.
  - intros c x [? ?]%R. auto.
Qed.
Lemma moored_reply w w' c x (f : ResponseState -> ResponseState) sp' :
  moored w -> steady w' -> waiting w ≡ₚ c :: waiting w' ->
  (mailbox_closed (mailbox w') = false -> mailbox_closed (mailbox w) = false /\ late w' = [] /\ waiting w = c :: waiting w') ->
  (forall cs open l sp, sp = spent w -> board cs (reply c :: open) l sp -> board (alter f (reply c) cs) open (l ++ [(c, x)]) sp') ->
  cells w' = alter f (reply c) (cells w) -> answers w' = answers w ++ [(c, x)] -> spent w' = sp' ->
  suits (request c) x = true -> explained (owner w') x ->
  (forall x, explained (owner w) x -> explained (owner w') x) -> moored w'.
Proof.
  intros [B O _ R] Hs Hw Ho Hf Hc Ha Hsp Hx He Hm. split; rewrite ?Hc, ?Ha, ?Hsp; try done.
  - apply (Hf _ _ _ (spent w)); [done|]. eapply board_permutation; [|exact B]. by rewrite Hw.
  - intros (Hcl & Hl & Hq)%Ho. split; [done|]. destruct (O Hcl) as [_ Hseq].
    rewrite length_alter, <- Hseq, Hq. unfold answered. rewrite fmap_app. cbn. by rewrite <- app_assoc.
  - intros c' x' [Hin|[= -> ->]%list_elem_of_singleton]%elem_of_app; [|done].
    destruct (R _ _ Hin). auto.
Qed.
Lemma moored_answer w w' c x :
  moored w -> steady w' -> waiting w ≡ₚ c :: waiting w' ->
  (mailbox_closed (mailbox w') = false -> mailbox_closed (mailbox w) = false /\ late w' = [] /\ waiting w = c :: waiting w') ->
  cells w' = alter (response_complete x) (reply c) (cells w) -> answers w' = answers w ++ [(c, x)] ->
  spent w' = spent w ++ [reply c] -> suits (request c) x = true -> explained (owner w') x ->
  (forall x, explained (owner w) x -> explained (owner w') x) -> moored w'.
Proof.
  intros M Hs Hw Ho Hc Ha Hsp. eapply moored_reply; try done. intros cs open l sp ->. apply board_answer.
Qed.

(** ** What the owner replies *)
(** Errors of the command itself, not of the life of the owner. *)
Definition own_error (e : DriverError) : bool := match e with OwnerDropped | ShuttingDown => false | _ => true end.
Definition blames {A} (p : RuntimeDriver S * result DriverError A) : Prop :=
  forall e, p.2 = Err e -> own_error e = true.
Lemma blames_then {A B} (p : RuntimeDriver S * result DriverError A) (k : RuntimeDriver S -> A -> RuntimeDriver S * result DriverError B) :
  blames p -> (forall d a, blames (k d a)) -> blames (and_then p k).
Proof.
  intros Hp Hk. unfold and_then. destruct p as [d [a|e|site|]]; try done; [apply Hk|].
  intros e' [= <-]. by apply Hp.
Qed.
Lemma blames_rejected {A} (p : RuntimeDriver S * result RuntimeError A) : blames (rejected p).
Proof. destruct p as [d [a|e|site|]]; try done. by intros e' [= <-]. Qed.
Lemma blames_lineage d o e a : blames (d, check_lineage o e a).
Proof. unfold check_lineage. destruct e; [case_bool_decide|]; try done. by intros e' [= <-]. Qed.
Lemma blames_prepare tree o e d : blames (prepare_dispatch tree o e d).
Proof. repeat first [apply blames_then; [apply blames_rejected || apply blames_lineage|intros ? ?]|done]. Qed.
Lemma blames_settle q x d : blames (settle_dispatch q x d).
Proof. destruct x; [done|]. apply blames_then; [apply blames_rejected|done]. Qed.
Lemma blames_drive_error e d : blames (drive_runtime_error e d).
Proof. destruct e; intros e' H; by inversion H. Qed.
Lemma blames_drive tree d : blames (drive_once tree d).
Proof.
  unfold drive_once. destruct (retry_pending_lifecycle d) as [d1 [[]|e|site|]]; try done.
  - destruct (on_runtime (step tree) d1) as [d2 [s|e|site|]]; try done.
    + destruct s; try done. pose proof (blames_prepare tree operation_id (Some attempt_id) d2) as Hb.
      destruct (prepare_dispatch _ _ _ _) as [d3 [|e'| |]]; try done. intros e'' [= <-]. by apply Hb.
    + pose proof (blames_drive_error e d2) as Hb. destruct (drive_runtime_error e d2) as [d3 [|e'| |]]; try done.
      intros e'' [= <-]. by apply Hb.
  - pose proof (blames_drive_error e d1) as Hb. destruct (drive_runtime_error e d1) as [d3 [|e'| |]]; try done.
    intros e'' [= <-]. by apply Hb.
Qed.
Lemma blames_recover_all os d : blames (recover_all os d).
Proof.
  revert d. induction os as [|o os IH]; intros d; [done|]. apply blames_then; [apply blames_rejected|intros ? _; apply IH].
Qed.
Lemma blames_shutdown d : blames (shutdown_now d).
Proof.
  apply blames_then; [apply blames_rejected|intros ? _]. apply blames_then; [apply blames_rejected|intros ? state].
  apply blames_then; [apply blames_recover_all|intros d' _]. destruct (pending_lifecycle d'); [apply blames_rejected|].
  by apply blames_then; [apply blames_rejected|].
Qed.
Lemma blames_drains {A} (m : Runtime S -> Runtime S * result Empty_set A) d : blames (drains m d).
Proof. unfold drains. by destruct (on_runtime m d) as [d' [| | |]]. Qed.

Definition fair_reply (q : Request) (x : served S) : Prop :=
  match x with
  | Replies _ (inl e) => own_error e = true
  | Replies _ (inr y) => suits q (inr y) = true /\ (forall s, y <> OfShutdown s)
  | Dispatches _ _ => drives q = true
  | Stops _ _ _ _ _ => q = Shutdown
  | Panics _ => True
  end.
Lemma fair_settled {A} q (k : RuntimeDriver S -> A -> served S) p :
  blames p -> (forall d a, fair_reply q (k d a)) -> fair_reply q (settled_as k p).
Proof. intros Hp Hk. destruct p as [d [a|e|site|]]; cbn; [apply Hk|by apply Hp|done|done]. Qed.
Lemma serve_fair tree q d : fair_reply q (serve tree q d).
Proof.
  destruct q; cbn [serve]; unfold replies.
  - apply fair_settled; [apply blames_drive|]. intros d' [x|x]; done.
  - by apply fair_settled; [apply blames_prepare|].
  - apply fair_settled; [|done]. apply blames_then; [apply blames_rejected|intros; apply blames_rejected].
  - by apply fair_settled; [apply blames_rejected|].
  - by apply fair_settled; [apply blames_drains|].
  - by apply fair_settled; [apply blames_drains|].
  - by apply fair_settled; [apply blames_drains|].
  - do 3 (apply fair_settled; [apply blames_shutdown || apply blames_drains|intros ? ?]).
    by apply fair_settled; [apply blames_drains|].
Qed.

(** ** Every move keeps the invariant *)
Lemma explained_before p p' x :
  lost_owner p = false -> stopped_with p = None -> explained p x -> explained p' x.
Proof. intros Hl Hs. destruct x as [[]|[]]; cbn; rewrite ?Hl, ?Hs; try done. by intros [_ []]. Qed.
Lemma explained_after p p' x :
  (lost_owner p = true -> lost_owner p' = true) -> (closes p = true -> closes p' = true) ->
  (forall s, stopped_with p = Some s -> stopped_with p' = Some s) -> explained p x -> explained p' x.
Proof.
  intros Hl Hc Hs. destruct x as [[]|[]]; cbn; try done; auto.
  intros [? [s ?]]. split; [auto|]. exists s. auto.
Qed.
Lemma complete_after_close_mailbox c m m' x : complete_after_close c m = (m', x) ->
  mailbox_closed m' = mailbox_closed m /\ owner_dropped m' = owner_dropped m /\ commands m' = commands m /\
  mailbox_waker m' = mailbox_waker m.
Proof.
  unfold complete_after_close, final_reply, take_shutdown_execution_events, take_shutdown_progress_events,
    take_shutdown_telemetry_events.
  destruct (owner_dropped m) eqn:Ho; [by intros [= <- _]|].
  destruct (request c), (mailbox_closed m) eqn:Hcl; cbn; intros [= <- _]; cbn; auto.
Qed.
Lemma complete_after_close_reply c m m' x : complete_after_close c m = (m', x) -> mailbox_closed m = true ->
  suits (request c) x = true /\
  match x with
  | inl OwnerDropped => owner_dropped m = true
  | inl ShuttingDown => owner_dropped m = false
  | inl _ | inr (OfShutdown _) => False
  | _ => True
  end.
Proof.
  unfold complete_after_close, final_reply, take_shutdown_execution_events, take_shutdown_progress_events,
    take_shutdown_telemetry_events.
  destruct (owner_dropped m) eqn:Ho; [by intros [= _ <-]|].
  destruct (request c), (mailbox_closed m) eqn:Hcl; cbn; intros [= _ <-]; cbn; auto; done.
Qed.
(** A command is refused: [w0] is the world with [c] taken out. *)
Lemma moored_refuse w w0 c :
  moored w -> mailbox_closed (mailbox w) = true -> waiting w ≡ₚ c :: waiting w0 ->
  mailbox w0 = mailbox w -> cells w0 = cells w -> answers w0 = answers w -> spent w0 = spent w ->
  lost_owner (owner w0) = lost_owner (owner w) -> closes (owner w0) = closes (owner w) ->
  stopped_with (owner w0) = stopped_with (owner w) -> moored (answer_after_close c w0).
Proof.
  intros M Hcl Hw Hm Hc Ha Hsp Hl Hcs Hst. unfold answer_after_close. rewrite Hm.
  destruct (complete_after_close c (mailbox w)) as [m x] eqn:E.
  pose proof (complete_after_close_mailbox _ _ _ _ E) as (E1 & E2 & E3 & E4).
  pose proof (complete_after_close_reply _ _ _ _ E Hcl) as [Hx Hr].
  destruct (mo_steady _ M) as [S1 S2 S3 S4 S5]. rewrite Hcl in S1.
  eapply (moored_answer w _ c x M); cbn; rewrite ?Hc, ?Ha, ?Hsp; try done.
  - split; cbn; rewrite ?E1, ?E2, ?E3, ?E4, ?Hl, ?Hcs; try done.
    + congruence.
    + intros d Hd. rewrite Hd in Hcs. cbn in Hcs. congruence.
    + intros d c' q Hd. rewrite Hd in Hcs. cbn in Hcs. congruence.
  - rewrite Hw. unfold waiting. cbn. by rewrite E3, Hm.
  - rewrite E1. congruence.
  - rewrite <- S1 in S2. cbn in S2. destruct x as [[]|[]]; cbn; try done; rewrite ?Hl, ?Hcs, ?Hst, <- ?S1.
    + congruence.
    + split; [done|]. rewrite S2 in Hr. destruct (owner w); try done; by eexists.
  - intros y. apply explained_after; rewrite ?Hl, ?Hcs, ?Hst; auto.
Qed.
Lemma moored_submit q w : moored w -> moored (submit q w).
Proof.
  intros M. pose proof M as [B O St R]. destruct St as [S1 S2 S3 S4 S5].
  assert (B' : board (cells w ++ [response_channel]) ((reply <$> waiting w) ++ [length (cells w)]) (answers w) (spent w))
    by by apply board_submit.
  unfold submit. cbv zeta. cbn [with_cells mailbox owner late]. unfold mailbox_submit.
  destruct (mailbox_closed (mailbox w)) eqn:Hcl.
  - split; cbn; try done.
    + eapply board_permutation; [|exact B']. unfold waiting. cbn. rewrite !fmap_app. cbn. solve_Permutation.
    + congruence.
    + by split; cbn; rewrite ?Hcl.
  - destruct (O eq_refl) as [Hl Hseq].
    set (p := match owner w with Parked d => _ | p => p end).
    assert (Hp : in_hand p = in_hand (owner w) /\ lost_owner p = lost_owner (owner w) /\ closes p = closes (owner w) /\
      stopped_with p = stopped_with (owner w) /\ (forall d, p <> Parked d) /\
      (forall d c q, p = AwaitingEffect d c q -> owner w = p)).
    { subst p. destruct (owner w) eqn:Ho; try done. destruct (S4 d eq_refl) as [_ ->]. done. }
    destruct Hp as (P1 & P2 & P3 & P4 & P5 & P6).
    split; cbn.
    + eapply board_permutation; [|exact B']. unfold waiting. cbn. rewrite P1, !fmap_app. cbn. solve_Permutation.
    + intros _. split; [done|]. rewrite length_app, seq_app, <- Hseq. cbn. unfold waiting. cbn.
      rewrite P1, Hl, !app_nil_r, !fmap_app. cbn. by rewrite <- !app_assoc.
    + split; cbn; rewrite ?Hcl, ?P2, ?P3; try done.
      * intros d Hd. by destruct (P5 d).
      * intros d c q' Hd. rewrite <- (P6 _ _ _ Hd) in Hd. by eapply S5.
    + intros c x Hin. destruct (R c x Hin) as [? He]. split; [done|]. revert He.
      apply explained_after; rewrite ?P2, ?P3, ?P4; auto.
Qed.
(** The owner goes on after a command it holds, while the mailbox is open. *)
Lemma moored_proceed w w0 c x :
  moored w -> closes (owner w) = false -> lost_owner (owner w) = false -> stopped_with (owner w) = None ->
  waiting w = c :: waiting (with_owner (Gone (store (driver_runtime match x with Replies d _ | Dispatches d _ | Stops d _ _ _ _ | Panics d => d end))) w0) ->
  mailbox_closed (mailbox w0) = false -> owner_dropped (mailbox w0) = false ->
  cells w0 = cells w -> answers w0 = answers w -> spent w0 = spent w -> late w0 = late w ->
  fair_reply (request c) x -> moored (proceed c x w0).
Proof.
  intros M Hcs Hlo Hst Hw Hcl Hdr Hc Ha Hsp Hla Hf. pose proof (mo_steady _ M) as [S1 _ _ _ _]. rewrite Hcs in S1.
  assert (Hlw : late w = []) by by apply M.
  assert (He : forall p y, explained (owner w) y -> explained p y) by (intros; by eapply explained_before).
  destruct x as [d x|d q|d s es ps ts|d]; cbn [proceed].
  - eapply (moored_answer w _ c x M); cbn; rewrite ?Hc, ?Ha, ?Hsp; try done.
    + by split; cbn; rewrite ?Hcl, ?Hdr.
    + by rewrite Hw.
    + intros _. split_and!; [done|congruence|exact Hw].
    + destruct x as [e|y]; [done|]. by destruct Hf.
    + destruct x as [[]|[]]; cbn in Hf |- *; try done. by destruct Hf as [_ Hf]; destruct (Hf x).
    + intros y. apply He.
  - eapply (moored_quiet w _ M); cbn; try done.
    + split; cbn; rewrite ?Hcl, ?Hdr; try done. by intros d' c' q' [= _ <- _].
    + by rewrite Hw.
    + intros y. apply He.
  - subst. eapply (moored_answer w _ c _ M); cbn; rewrite ?Hc, ?Ha, ?Hsp; try done.
    + by split; cbn; rewrite ?Hcl, ?Hdr.
    + by rewrite Hw.
    + intros _. split_and!; [done|congruence|exact Hw].
    + cbn in Hf. by rewrite Hf.
    + intros y. apply He.
  - eapply (moored_quiet w _ M); cbn; try done.
    + by split; cbn; rewrite ?Hcl, ?Hdr.
    + by rewrite Hw.
    + intros y. apply He.
Qed.

(** The conditions of [moored_quiet] and its companions, in a known phase. *)
Ltac moor Ho :=
  first
    [ done
    | split; cbn; by intuition congruence
    | unfold waiting; cbn; by rewrite ?Ho
    | intros _; repeat split; unfold waiting; cbn; by rewrite ?Ho
    | intros x; rewrite ?Ho; first [by apply explained_before | by apply explained_after] ].
Lemma moored_owner_polled tree d w :
  moored w -> owner w = Polling d \/ owner w = Parked d -> moored (poll_owner tree d w).
Proof.
  intros M Ho. pose proof (mo_steady _ M) as [S1 S2 S3 S4 S5].
  assert (Hn : closes (owner w) = false /\ lost_owner (owner w) = false /\ stopped_with (owner w) = None /\
    in_hand (owner w) = []) by by destruct Ho as [-> | ->].
  destruct Hn as (N1 & N2 & N3 & N4). rewrite N1 in S1, S2.
  unfold poll_owner, mailbox_next. destruct (commands (mailbox w)) as [|c cs] eqn:Hq.
  - rewrite S1. assert (Hw : waiting (with_owner (Parked d) (with_mailbox (set_queue [] true (mailbox w)) w)) = waiting w).
    { unfold waiting. cbn. by rewrite N4, Hq. }
    eapply (moored_quiet w _ M); try done.
    + by rewrite Hw.
    + intros x. by apply explained_before.
  - eapply (moored_proceed w); try done; [|apply serve_fair].
    unfold waiting. cbn. by rewrite N4, Hq.
Qed.
Lemma moored_effect_returns x d c q w :
  moored w -> owner w = AwaitingEffect d c q -> moored (proceed c (replies OfDrive (settle_dispatch q x d)) w).
Proof.
  intros M Ho. pose proof (mo_steady _ M) as [S1 S2 S3 S4 S5]. rewrite Ho in S1, S2. cbn in S1, S2.
  eapply (moored_proceed w); rewrite ?Ho; try done.
  - unfold waiting. cbn. by rewrite Ho.
  - apply fair_settled; [apply blames_settle|]. intros d' y. cbn.
    specialize (S5 _ _ _ Ho). by destruct (request c).
Qed.
Lemma moored_continues w : moored w -> moored (act OwnerContinues w).
Proof.
  intros M. pose proof (mo_steady _ M) as [S1 S2 S3 S4 S5]. unfold act.
  destruct (owner w) as [d|d|d c q|d s es ps ts|d s [|c cs]|r s|st [c|]|st [|c cs]|st] eqn:Ho; try done; cbn in S1, S2.
  - eapply (moored_quiet w _ M); cbn; moor Ho.
  - eapply (moored_quiet w _ M); cbn; moor Ho.
  - eapply (moored_refuse w _ c M); cbn; rewrite ?Ho; try done. unfold waiting. cbn. by rewrite Ho.
  - eapply (moored_reply w _ c (inl OwnerDropped) sender_drop (spent w) M); cbn; try moor Ho.
    + intros _. split; [done|]. split; [by apply M|]. unfold waiting. cbn. by rewrite Ho.
    + intros cs open l sp ->. apply board_abandon.
  - unfold owner_guard_drop. rewrite S1. eapply (moored_quiet w _ M); cbn; moor Ho.
  - eapply (moored_quiet w _ M); cbn; moor Ho.
  - eapply (moored_answer w _ c _ M); cbn; moor Ho.
Qed.
Lemma moored_owner_lost w : moored w -> moored (act OwnerLost w).
Proof.
  intros M. pose proof (mo_steady _ M) as [S1 S2 S3 S4 S5]. unfold act.
  destruct (owner w) as [d|d|d c q| | | | | |] eqn:Ho; try done; cbn in S1, S2;
    eapply (moored_quiet w _ M); cbn; moor Ho.
Qed.
Lemma act_moored m w : moored w -> moored (act m w).
Proof.
  intros M. destruct m as [q|i|n|i|tree|x| |].
  - by apply moored_submit.
  - cbn. destruct (late w !! i) as [c|] eqn:Hi; [|done].
    assert (Hcl : mailbox_closed (mailbox w) = true).
    { apply not_false_iff_true. intros [Hl _]%(mo_order _ M). by rewrite Hl in Hi. }
    eapply (moored_refuse w _ c M); try done. unfold waiting. cbn.
    trans (in_hand (owner w) ++ commands (mailbox w) ++ c :: delete i (late w)); [|solve_Permutation].
    by do 2 apply Permutation_app_head; apply delete_Permutation.
  - destruct M as [B O St R]. split; cbn; try done.
    + by apply board_poll.
    + intros H. rewrite length_alter. by apply O.
    + by destruct St.
  - cbn. destruct (spent w !! i) as [n|] eqn:Hi; [|done]. destruct M as [B O St R]. split; cbn; try done.
    + eapply board_drop; [by eapply list_elem_of_lookup_2| |exact B]. intros k. apply list_elem_of_delete_inv.
    + intros H. rewrite length_alter. by apply O.
    + by destruct St.
  - cbn. destruct (owner w) eqn:Ho; try done; eapply moored_owner_polled; eauto.
  - cbn. destruct (owner w) eqn:Ho; try done. by eapply moored_effect_returns.
  - by apply moored_continues.
  - by apply moored_owner_lost.
Qed.
Lemma moored_new r : moored (driver_new r).
Proof.
  split; cbn; [split; cbn|done|by split|].
  - done.
  - by intros n ?%elem_of_nil.
  - by intros c x ?%elem_of_nil.
  - done.
  - by intros n ?%elem_of_nil.
  - by intros c x ?%elem_of_nil.
Qed.
Lemma moves_moored ms w : moored w -> moored (moves ms w).
Proof. revert w. induction ms as [|m ms IH]; intros w M; [done|]. by apply IH, act_moored. Qed.

(** ** The owner's own moves answer what is left *)
Definition internal (m : move) : Prop :=
  match m with Late _ | OwnerPolled _ | EffectReturns _ | OwnerContinues => True | _ => False end.
Definition rank (p : phase S) : nat :=
  match p with AwaitingEffect _ _ _ => 3 | Stopping _ _ _ _ _ | Unwinds _ _ => 2 | Refusing _ _ _ | Drains _ _ => 1 | _ => 0 end.
Definition backlog w : nat :=
  8 * (length (commands (mailbox w)) + length (late w)) + 2 * length (in_hand (owner w)) + rank (owner w).
Lemma backlog_proceed c x w :
  backlog (proceed c x w) <= 8 * (length (commands (mailbox w)) + length (late w)) + 5 /\
  ((forall d q, x <> Dispatches d q) -> backlog (proceed c x w) <= 8 * (length (commands (mailbox w)) + length (late w)) + 4).
Proof.
  unfold backlog. destruct x as [d x|d q|d s es ps ts|d]; cbn [proceed with_owner answer call_dispatcher mailbox late owner];
    (split; [cbn; lia|]); intros Hd; try (cbn; lia). by destruct (Hd d q).
Qed.
Lemma backlog_refuse c w : backlog (answer_after_close c w) = backlog w.
Proof.
  unfold answer_after_close. destruct (complete_after_close c (mailbox w)) as [m x] eqn:E.
  apply complete_after_close_mailbox in E as (_ & _ & E & _). unfold backlog. cbn. by rewrite E.
Qed.
Lemma internal_progress w :
  moored w -> waiting w <> [] -> exists m, internal m /\ backlog (act m w) < backlog w.
Proof.
  intros M Hw. pose proof (mo_steady _ M) as [S1 S2 S3 S4 S5].
  destruct (late w) as [|c l] eqn:Hl.
  2:{ exists (Late 0). split; [done|]. unfold act. rewrite Hl. cbn [lookup list_lookup delete list_delete].
      rewrite backlog_refuse. unfold backlog. cbn. rewrite Hl. cbn. lia. }
  unfold waiting in Hw. rewrite Hl, app_nil_r in Hw.
  assert (Hpoll : forall d, owner w = Polling d \/ owner w = Parked d ->
    exists m, internal m /\ backlog (act m w) < backlog w).
  { intros d Ho. exists (OwnerPolled Runtime_start). split; [done|].
    assert (Ha : act (OwnerPolled Runtime_start) w = poll_owner Runtime_start d w) by (cbn; by destruct Ho as [-> | ->]).
    rewrite Ha. unfold poll_owner, mailbox_next.
    assert (Hh : in_hand (owner w) = []) by by destruct Ho as [-> | ->]. rewrite Hh in Hw.
    destruct (commands (mailbox w)) as [|c cs] eqn:Hq; [done|].
    destruct (backlog_proceed c (serve Runtime_start (request c) d) (with_mailbox (set_queue cs (mailbox_waker (mailbox w)) (mailbox w)) w)) as [Hb _].
    cbn in Hb. unfold backlog at 2. rewrite Hq. cbn. lia. }
  destruct (owner w) as [d|d|d c q|d s es ps ts|d s [|c cs]|r s|st [c|]|st [|c cs]|st] eqn:Ho; eauto;
    try (by rewrite S3 in Hw).
  - exists (EffectReturns (inl (UnknownOutcome ""))). split; [done|]. unfold act. rewrite Ho.
    destruct (backlog_proceed c (replies OfDrive (d, Ok (EffectUnknown q (UnknownOutcome "")))) w) as [_ Hb].
    unfold backlog at 2. rewrite Ho. cbn in Hb |- *. specialize (Hb ltac:(done)). lia.
  - exists OwnerContinues. split; [done|]. unfold act. rewrite Ho. unfold backlog. cbn. rewrite Ho. cbn in *.
    destruct (commands (mailbox w)); [done|]. cbn. lia.
  - exists OwnerContinues. split; [done|]. unfold act. rewrite Ho. rewrite backlog_refuse. unfold backlog. cbn. rewrite Ho. cbn. lia.
  - exists OwnerContinues. split; [done|]. unfold act. rewrite Ho. unfold backlog. cbn. rewrite Ho. cbn. lia.
  - exists OwnerContinues. split; [done|]. unfold act. rewrite Ho. unfold owner_guard_drop. rewrite S1. unfold backlog. cbn. rewrite Ho.
    cbn in *. destruct (commands (mailbox w)); [done|]. cbn. lia.
  - exists OwnerContinues. split; [done|]. unfold act. rewrite Ho. unfold backlog. cbn. rewrite Ho. cbn. lia.
Qed.
Lemma internal_answers_all w : moored w -> exists ms, Forall internal ms /\ waiting (moves ms w) = [].
Proof.
  remember (backlog w) as n eqn:Hn. revert w Hn. induction (lt_wf n) as [n _ IH]. intros w -> M.
  destruct (waiting w) as [|c l] eqn:Hw; [by exists []|].
  destruct (internal_progress w M) as (m & Hm & Hlt); [by rewrite Hw|].
  destruct (IH _ Hlt (act m w) eq_refl) as (ms & Hms & Hd); [by apply act_moored|].
  exists (m :: ms). by split; [constructor|].
Qed.
End wiring.
