(* ===== verification/DriverStream.v ===== *)
(** * The execution stream of a driver

    [tidy] says that everything the runtime has emitted was handed out or is in
    the buffer; an operation that fails because the buffer is full owes exactly
    the item its error carries, and the driver keeps that item until a retry
    puts it in its place. *)
From S2P Require Export DriverMailbox.
From S2P Require RuntimeCalls.
#[local] Open Scope string_scope.
#[local] Open Scope nat_scope.
#[local] Open Scope list_scope.

(** ** The items a sequencer has stamped *)
Lemma items_from_snoc {T} sid k (ps : list T) p :
  items_from sid k (ps ++ [p]) = items_from sid k ps ++ [item_at sid (k + N.of_nat (length ps)) p].
Proof.
  revert k. induction ps as [|x ps IH]; intros k; cbn; [by rewrite N.add_0_r|].
  rewrite IH. by replace (k + 1 + N.of_nat (length ps))%N with (k + N.pos (Pos.of_succ_nat (length ps)))%N by lia.
Qed.
Definition emitted (q : StreamSequencer) (l : list (StreamItem RuntimeEvent)) : Prop :=
  exists sid ps, l = items_from sid 0 ps /\ q = sequencer_at sid (N.of_nat (length ps)) /\ (N.of_nat (length ps) <= u64_max)%N.
Lemma emitted_emit q l e :
  emitted q l ->
  match emit q e with
  | (q', Ok i) => emitted q' (l ++ [i])
  | (q', Err _) => q' = q
  | _ => False
  end.
Proof.
  intros (sid & ps & -> & -> & Hl). unfold emit. cbn.
  destruct (N.ltb_spec (N.of_nat (length ps)) u64_max) as [Hlt|Hge]; cbn; [|done].
  exists sid, (ps ++ [e]). rewrite items_from_snoc, length_app. cbn.
  split; [done|]. split; [|lia]. unfold Sequence_checked_next, checked_succ, sequencer_at.
  replace (N.of_nat (length ps + 1)) with (N.of_nat (length ps) + 1)%N by lia.
  destruct (N.ltb_spec (N.of_nat (length ps) + 1) u64_max); cbn; [done|]. f_equal. lia.
Qed.

Section stream.
Context {S : Type} {DS : DurableStore S}.
Implicit Types (r : Runtime S) (d : RuntimeDriver S) (w : driver_world S).
Implicit Types seen owed : list (StreamItem RuntimeEvent).

Definition streamed seen owed r : Prop :=
  emitted (execution_sequencer (streams r)) (seen ++ ll_items (execution_events (streams r)) ++ owed).
Definition tidy seen r : Prop := pending_started r = None /\ streamed seen [] r.
(** One item is owed; a start that is pending is that item. *)
Definition owes seen i r : Prop := streamed seen [i] r /\ forall a j, pending_started r = Some (a, j) -> j = i.

(** ** Operations that leave the stream alone *)
Definition full (e : RuntimeError) : bool := match e with ExecutionBackpressure _ => true | _ => false end.
Definition still {A} (m : op S A) : Prop := forall r,
  streams (m r).1 = streams r /\ pending_started (m r).1 = pending_started r /\
  forall e, (m r).2 = Err e -> full e = false.
Lemma still_bind {A B} (m : op S A) (k : A -> op S B) : still m -> (forall a, still (k a)) -> still (m ≫= k).
Proof.
  intros Hm Hk r. unfold mbind, op_bind. destruct (Hm r) as (H1 & H2 & H3). destruct (m r) as [r' [a|e|p|]]; cbn in *; try done.
  - destruct (Hk a r') as (K1 & K2 & K3). split_and!; [congruence..|exact K3].
  - split_and!; [done..|]. intros e' [= <-]. by apply H3.
Qed.
Lemma still_ret {A} (a : A) : still (mret a).
Proof. by intros r. Qed.
Lemma still_gets {A} (f : Runtime S -> A) : still (gets f).
Proof. by intros r. Qed.
Lemma still_modify f : (forall r, streams (f r) = streams r /\ pending_started (f r) = pending_started r) -> still (modify f).
Proof. intros Hf r. destruct (Hf r). by split_and!. Qed.
Lemma still_lift {E A} (into : E -> RuntimeError) (x : result E A) :
  (forall e, x = Err e -> full (into e) = false) -> still (lift into x).
Proof.
  intros Hx r. split_and!; [done..|]. unfold lift. destruct x; cbn; try done. intros e' [= <-]. by apply Hx.
Qed.
Lemma still_fail {A} e : full e = false -> still (A := A) (fail e).
Proof. intros He r. split_and!; [done..|]. by intros e' [= <-]. Qed.
Lemma still_expecting {E A} (x : result E A) site : still (expecting x site).
Proof. intros r. split_and!; [done..|]. by destruct x. Qed.
Lemma still_unreachable {A} site : still (A := A) (unreachable site).
Proof. by intros r. Qed.
Lemma still_reads {A} (f : Runtime S -> result RuntimeError A) :
  (forall r e, f r = Err e -> full e = false) -> still (reads f).
Proof. intros Hf r. split_and!; [done..|]. apply Hf. Qed.
Lemma still_commit key ms : still (commit_durable key ms).
Proof.
  apply still_bind; [by apply still_lift|]. intros k r. unfold send_commit.
  destruct (commit _ _) as [st [x|e|p|]]; split_and!; try done. by intros e' [= <-].
Qed.
End stream.

Section stream_operations.
Context {S : Type} {DS : DurableStore S}.
Implicit Types (r : Runtime S) (d : RuntimeDriver S) (w : driver_world S).
Implicit Types seen owed : list (StreamItem RuntimeEvent).

Ltac quiet :=
  repeat first
    [ progress intros
    | apply still_commit
    | apply still_bind
    | apply still_ret | apply still_gets | apply still_expecting | apply still_unreachable
    | apply still_fail; done
    | apply still_modify; done
    | apply still_lift; done
    | case_match
    | done ].
Lemma still_record_effect_intent t o s : still (record_effect_intent (S := S) t o s).
Proof. unfold record_effect_intent. quiet. Qed.
Lemma still_record_dispatch o a : still (record_dispatch (S := S) o a).
Proof. unfold record_dispatch. quiet. Qed.
Lemma still_record_effect_outcome o a x : still (record_effect_outcome (S := S) o a x).
Proof. unfold record_effect_outcome. quiet. Qed.
Lemma still_cancel_task t : still (cancel_task (S := S) t).
Proof. unfold cancel_task. quiet. Qed.
Lemma still_ensure_configured_effect t : still (ensure_configured_effect (S := S) t).
Proof. unfold ensure_configured_effect. quiet. Qed.
Lemma still_durable_state : still (durable_state (S := S)).
Proof.
  intros r. unfold durable_state, load_of. destruct (load_run _ _) as [st [x|e|p|]]; split_and!; try done.
  by intros e' [= <-].
Qed.

(** ** Operations that emit *)
Definition flows {A} (m : op S A) : Prop := forall seen r, tidy seen r ->
  match m r with
  | (r', Ok _) => tidy seen r'
  | (r', Err (ExecutionBackpressure i)) => owes seen i r'
  | (r', Err _) => tidy seen r'
  | _ => True
  end.
Lemma flows_still {A} (m : op S A) : still m -> flows m.
Proof.
  intros Hm seen r [Hp Hs]. destruct (Hm r) as (H1 & H2 & H3).
  destruct (m r) as [r' [a|e|p|]]; cbn in *; try done; unfold tidy, streamed; rewrite ?H1, ?H2; [done|].
  specialize (H3 e eq_refl). by destruct e.
Qed.
Lemma flows_bind {A B} (m : op S A) (k : A -> op S B) : flows m -> (forall a, flows (k a)) -> flows (m ≫= k).
Proof.
  intros Hm Hk seen r Ht. specialize (Hm seen r Ht). unfold mbind, op_bind.
  destruct (m r) as [r' [a|e|p|]]; try done. by apply Hk.
Qed.
Lemma streamed_emit seen r e : streamed seen [] r ->
  match emit_execution (S := S) e r with
  | (r', Ok i) => streamed seen [i] r' /\ pending_started r' = pending_started r
  | (r', Err x) => streamed seen [] r' /\ pending_started r' = pending_started r /\ full x = false
  | _ => False
  end.
Proof.
  unfold streamed, emit_execution. intros Hs. pose proof (emitted_emit _ _ e Hs) as He.
  destruct (emit (execution_sequencer (streams r)) e) as [q [i|x|p|]]; cbn; try done.
  - by rewrite app_nil_r, <- app_assoc in He.
  - by subst q.
Qed.
Lemma streamed_enqueue seen r i : streamed seen [i] r ->
  match enqueue_execution (S := S) i r with
  | (r', Ok _) => streamed seen [] r' /\ pending_started r' = pending_started r
  | (r', Err x) => x = ExecutionBackpressure i /\ streamed seen [i] r' /\ pending_started r' = pending_started r
  | _ => False
  end.
Proof.
  unfold streamed, enqueue_execution, lossless_try_push. intros Hs.
  destruct (_ =? _)%nat; cbn; [done|]. by rewrite app_nil_r.
Qed.
Lemma flows_emit_completed t a : flows (emit_completed (S := S) t a).
Proof.
  apply flows_bind; [by apply flows_still|]. intros run seen r [Hp Hs]. unfold mbind, op_bind.
  pose proof (streamed_emit seen r (TaskCompleted run t a) Hs) as He.
  destruct (emit_execution _ r) as [r1 [i|x|p|]]; try done.
  - destruct He as [He Hp1]. pose proof (streamed_enqueue _ _ _ He) as Hq.
    destruct (enqueue_execution i r1) as [r2 [[]|x|p|]]; try done.
    + destruct Hq as [Hq Hp2]. split; [congruence|done].
    + destruct Hq as (-> & Hq & Hp2). split; [done|]. intros b j. congruence.
  - destruct He as (He & Hp1 & Hf). destruct x; try done; (split; [congruence|done]).
Qed.
Lemma flows_complete_task t a : flows (complete_task (S := S) t a).
Proof.
  apply flows_bind; [by apply flows_still|]. intros g. destruct (complete g t) as [candidate x].
  do 3 (apply flows_bind; [apply flows_still; quiet|intros ?]). apply flows_emit_completed.
Qed.
Lemma full_capture tree t expected r e : capture_capability_pins (S := S) tree t expected r = Err e -> full e = false.
Proof.
  unfold capture_capability_pins. intros [He|(pins & _ & He)]%bind_Err.
  - apply foldM_Err in He as (? & ? & He). revert He. unfold capture_pin.
    intros [He|(h & _ & He)]%bind_Err; [unfold ok_or in He; case_match; by simplify_eq|].
    apply bind_Err in He as [He|(? & _ & He)]; [|done]. repeat case_match; by simplify_eq.
  - repeat case_match; by simplify_eq.
Qed.
Lemma flows_begin_attempt tree t o : flows (begin_attempt (S := S) tree t o).
Proof.
  unfold begin_attempt.
  apply flows_bind; [apply flows_still, still_reads; intros r e; apply full_capture|intros pins].
  do 4 (apply flows_bind; [apply flows_still; quiet|intros ?]).
  apply flows_bind; [apply flows_still, still_lift; unfold ok_or; intros e He; case_match; by simplify_eq|intros ?].
  apply flows_bind; [apply flows_still; quiet|intros ?].
  intros seen r [Hp Hs]. unfold mbind, op_bind.
  match goal with |- context [emit_execution ?e r] => pose proof (streamed_emit seen r e Hs) as He;
    destruct (emit_execution e r) as [r1 [i|x|p|]]; try done end.
  - destruct He as [He Hp1]. pose proof (streamed_enqueue _ _ _ He) as Hq. unfold record_started.
    destruct (enqueue_execution i r1) as [r2 [[]|x|p|]]; try done.
    + destruct Hq as [Hq Hp2]. split; [cbn; congruence|done].
    + destruct Hq as (-> & Hq & Hp2). split; [done|]. cbn. intros b j. congruence.
  - destruct He as (He & Hp1 & Hf). destruct x; try done; (split; [congruence|done]).
Qed.
Lemma flows_attempt_or_begin tree t o : flows (attempt_or_begin (S := S) tree t o).
Proof.
  apply flows_bind; [by apply flows_still|]. intros [a|]; [by apply flows_still|apply flows_begin_attempt].
Qed.
Lemma flows_dispatch_effect tree o : flows (dispatch_effect (S := S) tree o).
Proof.
  unfold dispatch_effect. do 2 (apply flows_bind; [apply flows_still; quiet|intros ?]).
  apply flows_bind; [by apply flows_still|intros c]. case_bool_decide; [apply flows_still; quiet|].
  apply flows_bind; [|intros; apply flows_still, still_record_dispatch].
  repeat case_match; try (apply flows_still; quiet; fail); [apply flows_attempt_or_begin|apply flows_begin_attempt].
Qed.
Lemma full_classify (r : Runtime S) o e :
  map_err RuntimeJournal (classify_recovery (workflow r) (journal r) o) = Err e -> full e = false.
Proof. destruct (classify_recovery _ _ _); cbn; intros; by simplify_eq. Qed.
Lemma flows_recover o : flows (recover (S := S) o).
Proof.
  unfold recover. apply flows_bind; [apply flows_still, still_reads; intros r e; apply full_classify|intros x].
  case_bool_decide; [|by apply flows_still].
  do 2 (apply flows_bind; [apply flows_still; quiet|intros ?]).
  apply flows_bind; [apply flows_still, still_lift; unfold expect; by destruct (known_outcome _ _)|intros ?].
  apply flows_bind; [by apply flows_still|intros ?].
  apply flows_bind; [case_match; [by apply flows_still|apply flows_complete_task]|intros ?; by apply flows_still].
Qed.
Lemma flows_step_effect tree t o : flows (step_effect (S := S) tree t o).
Proof.
  unfold step_effect. apply flows_bind; [by apply flows_still|intros j]. destruct (journal_state j o) as [| |[|]|].
  - apply flows_still. quiet.
  - apply flows_bind; [apply flows_attempt_or_begin|intros a; by apply flows_still].
  - apply flows_bind; [apply flows_still, still_lift; unfold expect; by destruct (known_outcome _ _)|intros ?].
    apply flows_bind; [apply flows_complete_task|intros ?; by apply flows_still].
  - by apply flows_still.
  - apply flows_bind; [apply flows_still, still_reads; intros r e; apply full_classify|intros x; by apply flows_still].
Qed.
Lemma flows_step tree : flows (step (S := S) tree).
Proof.
  intros seen r Ht. unfold step. destruct Ht as [Hp Hs]. rewrite Hp. destruct (next_ready r) as [t|]; [|done].
  revert seen r Hp Hs. enough (flows (step_task (S := S) tree t)) as Hf by (intros seen r Hp Hs; by apply Hf).
  unfold step_task. apply flows_bind; [apply flows_still, still_ensure_configured_effect|].
  intros [[o s]|]; [apply flows_step_effect|]. apply flows_bind; [apply flows_attempt_or_begin|intros a].
  apply flows_bind; [apply flows_complete_task|intros ?; by apply flows_still].
Qed.

(** ** The driver keeps what is owed *)
Definition afloat seen d : Prop :=
  match pending_lifecycle d with
  | None => tidy seen (driver_runtime d)
  | Some i => owes seen i (driver_runtime d)
  end.
Definition paid seen d : Prop := pending_lifecycle d = None /\ tidy seen (driver_runtime d).
Lemma paid_afloat seen d : paid seen d -> afloat seen d.
Proof. intros [H ?]. unfold afloat. by rewrite H. Qed.
(** The outcome of a command body whose errors go through [runtime_error]. *)
Definition settles {A} seen (p : RuntimeDriver S * result DriverError A) (Q : RuntimeDriver S -> A -> Prop) : Prop :=
  match p with
  | (d, Ok a) => Q d a
  | (d, Err _) => afloat seen d
  | _ => True
  end.
Lemma settles_then {A B} seen (p : RuntimeDriver S * result DriverError A) (k : RuntimeDriver S -> A -> RuntimeDriver S * result DriverError B) Q Q' :
  settles seen p Q -> (forall d a, Q d a -> settles seen (k d a) Q') -> settles seen (and_then p k) Q'.
Proof. intros Hp Hk. unfold and_then. destruct p as [d [a|e|site|]]; cbn in *; auto. Qed.
Lemma retry_outcome seen d : afloat seen d ->
  match retry_pending_lifecycle d with
  | (d', Ok _) => paid seen d'
  | (d', Err (ExecutionBackpressure i)) => afloat seen (set_lifecycle (Some i) d')
  | (d', Err _) => afloat seen d'
  | _ => True
  end.
Proof.
  unfold afloat at 1, retry_pending_lifecycle. destruct (pending_lifecycle d) as [i|] eqn:Hp; [|by intros Ht].
  intros [Hs Ho]. unfold on_runtime. cbn [set_lifecycle driver_runtime pending_lifecycle]. unfold retry_execution_event.
  destruct (pending_started (driver_runtime d)) as [[a j]|] eqn:Hps.
  - rewrite (Ho a j eq_refl).
    assert (Hs' : streamed seen [i] (set_pending None (driver_runtime d))) by exact Hs.
    apply streamed_enqueue in Hs'. destruct (enqueue_execution i _) as [r [[]|e|p|]]; try done.
    + destruct Hs' as [? ?]. done.
    + destruct Hs' as (-> & ? & ?). split; [done|]. by intros b k [= _ <-].
  - pose proof (streamed_enqueue _ _ _ Hs) as Hq. destruct (enqueue_execution i _) as [r [[]|e|p|]]; try done.
    + destruct Hq as [? ?]. split; [done|]. split; [cbn; congruence|done].
    + destruct Hq as (-> & ? & ?). split; [done|]. cbn. intros b k. congruence.
Qed.
Lemma settles_retry seen d : afloat seen d -> settles seen (rejected (retry_pending_lifecycle d)) (fun d _ => paid seen d).
Proof.
  intros Ha. apply retry_outcome in Ha. destruct (retry_pending_lifecycle d) as [d' [[]|e|p|]]; try done.
  by destruct e.
Qed.
Lemma flows_runtime {A} seen (m : op S A) d : flows m -> paid seen d ->
  match on_runtime m d with
  | (d', Ok _) => paid seen d'
  | (d', Err (ExecutionBackpressure i)) => afloat seen (set_lifecycle (Some i) d')
  | (d', Err _) => afloat seen d'
  | _ => True
  end.
Proof.
  intros Hm [Hp Ht]. specialize (Hm _ _ Ht). unfold on_runtime. destruct (m (driver_runtime d)) as [r [a|e|p|]]; try done.
  destruct e; try done; unfold afloat; cbn; by rewrite ?Hp.
Qed.
Lemma settles_runtime {A} seen (m : op S A) d : flows m -> paid seen d ->
  settles seen (rejected (on_runtime m d)) (fun d _ => paid seen d).
Proof.
  intros Hm Hp. pose proof (flows_runtime seen m d Hm Hp) as H. destruct (on_runtime m d) as [d' [a|e|p|]]; try done.
  by destruct e.
Qed.
Lemma settles_still {A} seen (m : op S A) d : still m -> afloat seen d ->
  settles seen (rejected (on_runtime m d)) (fun d' _ => afloat seen d' /\ pending_lifecycle d' = pending_lifecycle d).
Proof.
  intros Hm Ha. unfold on_runtime. destruct (Hm (driver_runtime d)) as (H1 & H2 & H3).
  destruct (m (driver_runtime d)) as [r x]. cbn in *.
  assert (Hr : afloat seen {| driver_runtime := r; pending_lifecycle := pending_lifecycle d |}).
  { revert Ha. unfold afloat, owes, tidy, streamed. cbn. by rewrite H1, H2. }
  destruct x as [a|e|p|]; try done. specialize (H3 e eq_refl). by destruct e.
Qed.
Lemma settles_prepare seen tree o expected d : afloat seen d ->
  settles seen (prepare_dispatch tree o expected d) (fun d _ => paid seen d).
Proof.
  intros Ha. eapply settles_then; [by apply settles_retry|]. intros d1 ? H1.
  eapply (settles_then _ _ _ (fun d _ => paid seen d)).
  { destruct (journal_intent _ _); [done|by apply paid_afloat|done..]. }
  intros d2 i H2. eapply (settles_then _ _ _ (fun d _ => paid seen d)).
  { destruct (check_lineage _ _ _); [done|by apply paid_afloat|done..]. }
  intros d3 ? H3. eapply settles_then; [apply settles_runtime; [apply flows_dispatch_effect|done]|]. intros d4 a4 H4.
  eapply (settles_then _ _ _ (fun d _ => paid seen d)); [|done].
  destruct (check_lineage _ _ _); [done|by apply paid_afloat|done..].
Qed.
Lemma settles_settle seen q x d : afloat seen d -> settles seen (settle_dispatch q x d) (fun d _ => afloat seen d).
Proof.
  intros Ha. destruct x as [e|x]; [done|]. eapply settles_then; [|by intros d' u Hd; exact Hd].
  pose proof (settles_still seen _ d (still_record_effect_outcome (rq_operation_id q) (rq_attempt_id q) x) Ha) as Hs.
  destruct (rejected _) as [d' [u|e|p|]]; try done. apply Hs.
Qed.
Lemma settles_drive seen tree d : afloat seen d ->
  settles seen (drive_once tree d) (fun d x => afloat seen d).
Proof.
  intros Ha. unfold drive_once. apply retry_outcome in Ha as Hr.
  assert (Hd : forall (d' : RuntimeDriver S) e,
    match e with ExecutionBackpressure i => afloat seen (set_lifecycle (Some i) d') | _ => afloat seen d' end ->
    settles seen (let '(d, x) := drive_runtime_error e d' in (d, inl <$> x) : RuntimeDriver S * result DriverError (DriveResult + EffectDispatchRequest))
      (fun d _ => afloat seen d)) by by intros d' [].
  destruct (retry_pending_lifecycle d) as [d1 [[]|e|p|]]; try done; [|by apply Hd].
  pose proof (flows_runtime seen _ d1 (flows_step tree) Hr) as Hs.
  destruct (on_runtime (step tree) d1) as [d2 [s|e|p|]]; try done; [|by apply Hd].
  destruct s; try (by apply paid_afloat).
  pose proof (settles_prepare seen tree operation_id (Some attempt_id) d2 (paid_afloat _ _ Hs)) as Hq.
  destruct (prepare_dispatch _ _ _ _) as [d3 [q|e|p|]]; try done. by apply paid_afloat.
Qed.
Lemma settles_recover_all seen os d : paid seen d -> settles seen (recover_all os d) (fun d _ => paid seen d).
Proof.
  revert d. induction os as [|o os IH]; intros d Hd; [done|].
  eapply settles_then; [apply settles_runtime; [apply flows_recover|done]|]. intros d' ? Hd'. by apply IH.
Qed.
Lemma settles_shutdown seen d : afloat seen d -> settles seen (shutdown_now d) (fun d _ => paid seen d).
Proof.
  intros Ha. eapply settles_then; [by apply settles_retry|]. intros d1 ? H1.
  eapply settles_then; [apply settles_runtime; [apply flows_still, still_durable_state|done]|]. intros d2 st H2.
  eapply settles_then; [by apply settles_recover_all|]. intros d3 ? H3. destruct H3 as [Hp Ht]. rewrite Hp.
  eapply settles_then; [apply settles_runtime; [apply flows_still, still_durable_state|done]|]. done.
Qed.

(** ** Serving a command *)
Definition handed (x : Reply) : list (StreamItem RuntimeEvent) := match x with inr (OfExecution l) => l | _ => [] end.
Definition emptied seen r : Prop :=
  pending_started r = None /\ ll_items (execution_events (streams r)) = [] /\
  emitted (execution_sequencer (streams r)) seen.
Lemma drains_execution seen d : afloat seen d ->
  exists d' l, drains drain_execution_events d = (d', Ok l) /\ afloat (seen ++ l) d' /\
    pending_lifecycle d' = pending_lifecycle d /\ ll_items (execution_events (streams (driver_runtime d'))) = [].
Proof.
  intros Ha. unfold drains, on_runtime, drain_execution_events.
  destruct (RuntimeCalls.drain_lossless_all (execution_events (streams (driver_runtime d)))) as (b & -> & Hb).
  do 2 eexists. split; [done|]. split_and!; [|done|done].
  revert Ha. unfold afloat, tidy, owes, streamed. cbn. rewrite Hb. by destruct (pending_lifecycle d); rewrite <- ?app_assoc.
Qed.
Definition undisturbed d d' : Prop :=
  execution_sequencer (streams (driver_runtime d')) = execution_sequencer (streams (driver_runtime d)) /\
  execution_events (streams (driver_runtime d')) = execution_events (streams (driver_runtime d)) /\
  pending_started (driver_runtime d') = pending_started (driver_runtime d) /\
  pending_lifecycle d' = pending_lifecycle d.
Lemma afloat_undisturbed seen d d' : undisturbed d d' -> afloat seen d -> afloat seen d'.
Proof. intros (H1 & H2 & H3 & H4). unfold afloat, tidy, owes, streamed. by rewrite H1, H2, H3, H4. Qed.
Lemma drains_progress d : exists d' l, drains drain_progress_events d = (d', Ok l) /\ undisturbed d d'.
Proof.
  unfold drains, on_runtime, drain_progress_events.
  destruct (RuntimeCalls.drain_coalescing_all (progress_events (streams (driver_runtime d)))) as (b & -> & Hb).
  by do 2 eexists.
Qed.
Lemma drains_telemetry d : exists d' l, drains drain_telemetry_events d = (d', Ok l) /\ undisturbed d d'.
Proof.
  unfold drains, on_runtime, drain_telemetry_events.
  destruct (RuntimeCalls.drain_lossy_all (telemetry_events (streams (driver_runtime d)))) as (b & -> & Hb).
  by do 2 eexists.
Qed.
Definition serves seen (x : served S) : Prop :=
  match x with
  | Replies d x => afloat (seen ++ handed x) d
  | Dispatches d _ => afloat seen d
  | Stops d _ es _ _ => emptied (seen ++ es) (driver_runtime d)
  | Panics _ => True
  end.
Lemma serves_settled {A} seen (k : RuntimeDriver S -> A -> served S) p Q :
  settles seen p Q -> (forall d a, Q d a -> serves seen (k d a)) -> serves seen (settled_as k p).
Proof. intros Hp Hk. destruct p as [d [a|e|site|]]; cbn in *; rewrite ?app_nil_r; auto. Qed.
Lemma serve_lossless seen tree q d : afloat seen d -> serves seen (serve tree q d).
Proof.
  intros Ha. destruct q; cbn [serve]; unfold replies.
  - eapply serves_settled; [by apply settles_drive|]. intros d' [x|x] Hd; cbn; rewrite ?app_nil_r; done.
  - eapply serves_settled; [by apply settles_prepare|]. intros d' x Hd. by apply paid_afloat.
  - eapply (serves_settled _ _ _ (fun d _ => afloat seen d)); [|intros; cbn; by rewrite app_nil_r].
    eapply settles_then; [by apply settles_retry|]. intros d' ? Hd.
    pose proof (settles_runtime seen _ d' (flows_recover operation_id) Hd) as Hr.
    destruct (rejected _) as [d2 [x|e|p|]]; try done. by apply paid_afloat.
  - eapply serves_settled; [apply settles_still; [apply still_cancel_task|done]|]. intros d' x [Hd _]. cbn. by rewrite app_nil_r.
  - destruct (drains_execution seen d Ha) as (d' & l & -> & Hd & _). done.
  - destruct (drains_progress d) as (d' & l & -> & Hd). cbn. rewrite app_nil_r. by eapply afloat_undisturbed.
  - destruct (drains_telemetry d) as (d' & l & -> & Hd). cbn. rewrite app_nil_r. by eapply afloat_undisturbed.
  - eapply serves_settled; [by apply settles_shutdown|]. intros d1 status Hd1.
    destruct (drains_execution seen d1 (paid_afloat _ _ Hd1)) as (d2 & es & -> & Hd2 & Hp2 & Hb2). cbn [settled_as].
    destruct (drains_progress d2) as (d3 & ps & -> & Hd3). cbn [settled_as].
    destruct (drains_telemetry d3) as (d4 & ts & -> & Hd4). cbn [settled_as serves].
    destruct Hd1 as [Hp1 _]. rewrite Hp1 in Hp2. unfold afloat in Hd2. rewrite Hp2 in Hd2.
    destruct Hd2 as [Hs1 Hs2], Hd3 as (E1 & E2 & E3 & _), Hd4 as (F1 & F2 & F3 & _).
    unfold streamed in Hs2. rewrite Hb2, !app_nil_r in Hs2.
    split_and!; [congruence..|]. by rewrite F1, E1.
Qed.

(** ** The world *)
Definition observed w : list (StreamItem RuntimeEvent) := concat ((fun a => handed a.2) <$> answers w).
Definition final_items w := shutdown_execution_events (mailbox w).
Definition lossless w : Prop :=
  match owner w with
  | Polling d | Parked d | AwaitingEffect d _ _ => afloat (observed w) d
  | Stopping d _ es _ _ => emptied (observed w ++ es) (driver_runtime d)
  | Refusing d _ _ => emptied (observed w ++ final_items w) (driver_runtime d)
  | DriverExited r _ => emptied (observed w ++ final_items w) r
  | Unwinds _ _ | Drains _ _ | Gone _ => exists q rest, emitted q (observed w ++ rest)
  end.
Lemma observed_answer c x w : observed (answer c x w) = observed w ++ handed x.
Proof. unfold observed. cbn. rewrite fmap_app, concat_app. cbn. by rewrite app_nil_r. Qed.
Lemma afloat_emitted seen d : afloat seen d -> exists q rest, emitted q (seen ++ rest).
Proof. unfold afloat, tidy, owes, streamed. destruct (pending_lifecycle d); intros [? ?]; eauto. Qed.
Lemma lossless_proceed c x w seen : observed w = seen -> (exists q rest, emitted q (seen ++ rest)) ->
  serves seen x -> lossless (proceed c x w).
Proof.
  intros <- He Hx. unfold lossless. destruct x as [d x|d q|d s es ps ts|d]; cbn [proceed with_owner owner];
    rewrite ?observed_answer; cbn [handed] in *; rewrite ?app_nil_r; try done.
  - change (observed (with_owner _ ?w)) with (observed w). by rewrite observed_answer.
  - change (observed (with_owner _ ?w)) with (observed w). rewrite observed_answer. cbn. by rewrite app_nil_r.
Qed.
Lemma lossless_refuse c w0 p0 :
  mailbox_closed (mailbox w0) = true -> owner_dropped (mailbox w0) = closes p0 && lost_owner p0 -> closes p0 = true ->
  lossless (with_owner p0 w0) -> lossless (answer_after_close c (with_owner p0 w0)).
Proof.
  intros Hcl Hd Hp. unfold answer_after_close. cbn [with_owner mailbox].
  destruct (complete_after_close c (mailbox w0)) as [m x] eqn:E.
  unfold lossless at 2. cbn [answer with_mailbox with_owner owner].
  unfold lossless. cbn [with_owner owner]. rewrite observed_answer.
  change (observed (with_mailbox m _)) with (observed w0). change (observed (with_owner p0 w0)) with (observed w0).
  unfold final_items. cbn [answer with_mailbox with_owner mailbox].
  assert (Hfin : lost_owner p0 = false -> handed x ++ shutdown_execution_events m = shutdown_execution_events (mailbox w0)).
  { intros Hl. rewrite Hp, Hl in Hd. cbn in Hd. revert E.
    unfold complete_after_close, final_reply, take_shutdown_execution_events, take_shutdown_progress_events,
      take_shutdown_telemetry_events. rewrite Hd, Hcl.
    destruct (request c); intros [= <- <-]; cbn; by rewrite ?app_nil_r. }
  assert (Hlost : lost_owner p0 = true -> handed x = []).
  { intros Hl. rewrite Hp, Hl in Hd. cbn in Hd. revert E. unfold complete_after_close. rewrite Hd. by intros [= _ <-]. }
  destruct p0; try done; cbn in Hfin, Hlost; rewrite <- ?app_assoc, ?Hfin, ?Hlost, ?app_nil_r by done; done.
Qed.
Lemma act_lossless m w : moored w -> lossless w -> lossless (act m w).
Proof.
  intros M L. pose proof (mo_steady _ M) as [S1 S2 S3 S4 S5].
  destruct m as [q|i|n|i|tree|x| |].
  - revert L. unfold lossless, act, submit, mailbox_submit. cbv zeta. cbn [with_cells mailbox owner late].
    destruct (mailbox_closed (mailbox w)); [done|]. by destruct (owner w); try done; destruct (mailbox_waker (mailbox w)).
  - cbn. destruct (late w !! i) as [c|] eqn:Hi; [|done].
    assert (Hcl : mailbox_closed (mailbox w) = true).
    { apply not_false_iff_true. intros [Hl _]%(mo_order _ M). by rewrite Hl in Hi. }
    apply (lossless_refuse c (with_late (delete i (late w)) w) (owner w)); [done..|congruence|done].
  - done.
  - cbn. by destruct (spent w !! i).
  - assert (Hpoll : forall d, afloat (observed w) d -> lossless (poll_owner tree d w)).
    { intros d Hd. unfold poll_owner. destruct (mailbox_next (mailbox w)) as [m []].
      - eapply lossless_proceed; [done|by eapply afloat_emitted|]. by apply serve_lossless.
      - by eapply afloat_emitted.
      - done. }
    revert L. unfold lossless at 1, act. destruct (owner w) eqn:Ho; intros L; try apply Hpoll; try done;
      unfold lossless; rewrite Ho; done.
  - revert L. unfold lossless at 1, act. destruct (owner w) eqn:Ho; intros L; try (unfold lossless; rewrite Ho; done).
    eapply lossless_proceed; [done|by eapply afloat_emitted|]. eapply serves_settled; [by apply settles_settle|].
    intros d' y Hd. cbn. by rewrite app_nil_r.
  - revert L. unfold lossless at 1, act. destruct (owner w) as [d|d|d c q|d s es ps ts|d s [|c cs]|r s|st [c|]|st [|c cs]|st] eqn:Ho;
      intros L; try (unfold lossless; rewrite Ho; done); try done.
    + apply (lossless_refuse c w (Refusing d s cs)); [by rewrite S1|by rewrite S2|done|done].
    + unfold lossless, abandon. cbn [with_owner owner]. destruct L as (q & rest & L). exists q, rest.
      unfold observed in *. cbn. rewrite fmap_app, concat_app. cbn. by rewrite app_nil_r.
    + unfold owner_guard_drop. by destruct (mailbox_closed (mailbox w)).
    + unfold lossless. cbn [answer with_owner owner]. rewrite observed_answer. cbn. by rewrite app_nil_r.
  - revert L. unfold lossless at 1, act. destruct (owner w) eqn:Ho; intros L; try (unfold lossless; rewrite Ho; done);
      by eapply afloat_emitted.
Qed.
Lemma moves_lossless ms w : moored w -> lossless w -> lossless (moves ms w).
Proof.
  revert w. induction ms as [|m ms IH]; intros w M L; [done|]. apply IH; [by apply act_moored|by apply act_lossless].
Qed.
Lemma lossless_new r : tidy [] r -> lossless (driver_new r).
Proof. done. Qed.
End stream_operations.
