(* ===== verification/DriverEffects.v ===== *)
(** * External effects over the lives of a run

    [advances] is what every operation of a runtime does to its store and its
    journal, whether or not the runtime is coherent with the store: durable
    facts only grow, and the journal forgets nothing.  That is enough to bound
    the calls of the dispatchers over any number of drivers, restarts and
    backend failures. *)
From S2P Require Export DriverMailbox RuntimeStores RuntimeCalls.
#[local] Open Scope string_scope.
#[local] Open Scope nat_scope.
#[local] Open Scope list_scope.

Section effects.
Context {S : Type} {DS : DurableStore S} {SF : StoreFormat} {SL : StoreFormatLaws} {C : StoreContract S}.
Implicit Types (r : Runtime S) (d : RuntimeDriver S) (w : driver_world S).

(** ** Stores only grow *)
Definition grown (o o' : option DurableRunState) : Prop :=
  forall s, o = Some s -> exists s', o' = Some s' /\ DurableStoreFacts.extends s s'.
Definition carried (run : RunId) (st st' : S) : Prop :=
  forall o, holds run st o -> exists o', grown o o' /\ holds run st' o'.
Lemma grown_refl o : grown o o.
Proof. intros s ->. by exists s. Qed.
Lemma grown_trans o1 o2 o3 : grown o1 o2 -> grown o2 o3 -> grown o1 o3.
Proof. intros H1 H2 s Hs. destruct (H1 s Hs) as (s2 & Hs2 & ?). destruct (H2 s2 Hs2) as (s3 & ? & ?). exists s3. split; [done|by etrans]. Qed.
Lemma carried_refl run st : carried run st st.
Proof. intros o Hh. exists o. split; [apply grown_refl|done]. Qed.
Lemma carried_trans run st1 st2 st3 : carried run st1 st2 -> carried run st2 st3 -> carried run st1 st3.
Proof.
  intros H1 H2 o Hh. destruct (H1 o Hh) as (o2 & ? & Hh2). destruct (H2 o2 Hh2) as (o3 & ? & ?).
  exists o3. split; [by eapply grown_trans|done].
Qed.
Lemma carried_meets {A} run o (pure : option DurableRunState * result StoreError A) st' (x : result StoreError A) :
  grown o pure.1 -> meets (holds run) o pure (st', x) -> exists o', grown o o' /\ holds run st' o'.
Proof.
  intros Hg [[_ Hh]|(e & _ & _ & [Hh|Hh])]; cbn in Hh; eauto using grown_refl.
Qed.
Lemma create_carried run st : carried run st (create_run st run).1.
Proof.
  intros o Hh. pose proof (create_meets run st o Hh) as Hm. destruct (create_run st run) as [st' x].
  apply (carried_meets run o (run_create run o) st' x); [|exact Hm]. destruct o; [apply grown_refl|done].
Qed.
Lemma load_carried run st : carried run st (load_run st run).1.
Proof.
  intros o Hh. pose proof (load_meets run st o Hh) as Hm. destruct (load_run st run) as [st' x].
  apply (carried_meets run o (run_load run o) st' x); [apply grown_refl|exact Hm].
Qed.
(** A commit that is accepted has taken effect. *)
Lemma run_commit_grown q s :
  DurableFacts.committed (request_run_id q) s ->
  grown (Some s) (run_commit q (Some s)).1 /\
  (forall res, (run_commit q (Some s)).2 = Ok res -> exists s', (run_commit q (Some s)).1 = Some s' /\
     forall m, m ∈ request_mutations q -> recorded s' m).
Proof.
  intros Hc. unfold run_commit. case_bool_decide; [split; [apply grown_refl|done]|].
  destruct (commit_run s q) as [[[s'|] res]|e|p|] eqn:E; cbn; try (split; [apply grown_refl|done]).
  - split.
    + intros ? [= <-]. exists s'. split; [done|]. by eapply extends_commit.
    + intros _ _. exists s'. split; [done|]. intros m Hm.
      apply commit_run_Some in E as (_ & _ & _ & _ & c & b & Hc' & _ & ->).
      eapply (recorded_apply_all _ _ _ m Hc') in Hm. by destruct m.
  - split; [apply grown_refl|]. intros _ _. exists s. split; [done|]. intros m Hm.
    apply commit_run_None in E as (rev & Hi & _). by eapply ledger_recorded.
Qed.
Lemma commit_carried st q : trim_is_empty (idempotency_key q) = false ->
  carried (request_run_id q) st (commit st q).1 /\
  (forall s res, holds (request_run_id q) st (Some s) -> (commit st q).2 = Ok res -> exists s',
     DurableStoreFacts.extends s s' /\ holds (request_run_id q) (commit st q).1 (Some s') /\
     forall m, m ∈ request_mutations q -> recorded s' m).
Proof.
  intros Hk. split.
  - intros o Hh. pose proof (commit_meets st q o Hh Hk) as Hm. destruct (commit st q) as [st' x].
    apply (carried_meets _ o (run_commit q o) st' x); [|exact Hm]. destruct o as [s|]; [|done].
    apply run_commit_grown. by eapply holds_committed.
  - intros s res Hh Hres. pose proof (commit_meets st q (Some s) Hh Hk) as Hm. unfold meets in Hm.
    destruct (commit st q) as [st' x]. cbn in Hres, Hm |- *. subst x.
    destruct Hm as [[Hx Hh']|(e & He & _)]; [|done].
    destruct (run_commit_grown q s (holds_committed _ _ _ Hh)) as [Hg Hr].
    destruct (Hr res (eq_sym Hx)) as (s' & Hs' & Hrec). destruct (Hg s eq_refl) as (s2 & Hs2 & Hx2).
    rewrite Hs' in Hs2, Hh'. injection Hs2 as <-. by exists s'.
Qed.

(** ** Journals forget nothing *)
Record remembers (j j' : DurableJournal) : Prop := {
  re_intents o i : journal_intents j !! o = Some i -> journal_intents j' !! o = Some i;
  re_dispatches a : is_Some (journal_dispatches j !! a) -> is_Some (journal_dispatches j' !! a);
  re_latest o : is_Some (journal_latest_dispatch j o) -> is_Some (journal_latest_dispatch j' o)
}.
Lemma remembers_refl j : remembers j j.
Proof. by split. Qed.
Lemma remembers_trans j1 j2 j3 : remembers j1 j2 -> remembers j2 j3 -> remembers j1 j3.
Proof. intros [] []. split; auto. Qed.
Lemma latest_is_Some j o :
  is_Some (journal_latest_dispatch j o) <->
  exists l a, operation_attempts j !! o = Some l /\ last l = Some a /\ is_Some (journal_dispatches j !! a).
Proof.
  unfold journal_latest_dispatch. split.
  - intros [x Hx]. apply bind_Some in Hx as (l & Hl & Hx). apply bind_Some in Hx as (a & Ha & Hx).
    exists l, a. split_and!; [done..|]. by exists x.
  - intros (l & a & Hl & Ha & Hx). by rewrite Hl; cbn; rewrite Ha; cbn.
Qed.
Lemma persist_intent_remembers j i j' : persist_intent j i = Ok j' -> remembers j j'.
Proof.
  unfold persist_intent. case_bool_decide as Hn; [done|]. destruct (_ !! intent_task_id i); [done|]. intros [= <-].
  split; cbn; [|done|done]. intros o x Hx. rewrite lookup_insert_ne; [done|]. intros Heq. apply Hn. rewrite Heq. by exists x.
Qed.
Lemma persist_dispatch_remembers j x j' : persist_dispatch j x = Ok j' ->
  remembers j j' /\ journal_intents j' = journal_intents j /\ journal_dispatches j !! dispatch_attempt_id x = None /\
  is_Some (journal_dispatches j' !! dispatch_attempt_id x) /\
  is_Some (journal_latest_dispatch j' (dispatch_operation_id x)).
Proof.
  unfold persist_dispatch. case_bool_decide; cbn; [|done]. case_bool_decide as Hn; [done|]. intros [= <-].
  assert (Hd : forall a, is_Some (journal_dispatches j !! a) -> is_Some (<[dispatch_attempt_id x := x]> (journal_dispatches j) !! a)).
  { intros a [y Hy]. destruct (decide (a = dispatch_attempt_id x)) as [->|]; simplify_map_eq; eauto. }
  assert (Hl : is_Some (journal_latest_dispatch
    {| journal_intents := journal_intents j; journal_task_operations := journal_task_operations j;
       journal_dispatches := <[dispatch_attempt_id x := x]> (journal_dispatches j);
       operation_attempts := <[dispatch_operation_id x := default [] (operation_attempts j !! dispatch_operation_id x)
         ++ [dispatch_attempt_id x]]> (operation_attempts j); journal_outcomes := journal_outcomes j |}
    (dispatch_operation_id x))).
  { apply latest_is_Some. do 2 eexists. cbn. rewrite lookup_insert_eq. split; [done|]. split; [apply last_snoc|].
    rewrite lookup_insert_eq. by eexists. }
  split_and!; [|done|by apply eq_None_not_Some|cbn; rewrite lookup_insert_eq; by eexists|exact Hl].
  split; cbn; [done|exact Hd|]. intros o Ho. destruct (decide (o = dispatch_operation_id x)) as [->|Hne]; [exact Hl|].
  apply latest_is_Some in Ho as (l & a & Hol & Ha & Hx). apply latest_is_Some. exists l, a. cbn.
  rewrite lookup_insert_ne by done. auto.
Qed.
Lemma persist_outcome_remembers j x j' : persist_outcome j x = Ok j' -> remembers j j'.
Proof.
  unfold persist_outcome. repeat case_match; try done; intros [= <-]; [apply remembers_refl|by split].
Qed.

(** ** What every operation does *)
(** The intents of the journal are durable. *)
Definition backed r : Prop := exists s,
  holds (runtime_run_id r) (store r) (Some s) /\
  forall o i, journal_intents (journal r) !! o = Some i -> intents s !! o = Some i.
Record advances r r' : Prop := {
  ad_run : runtime_run_id r' = runtime_run_id r;
  ad_store : carried (runtime_run_id r) (store r) (store r');
  ad_journal : remembers (journal r) (journal r');
  ad_backed : backed r -> backed r'
}.
Lemma advances_refl r : advances r r.
Proof. split; [done|apply carried_refl|apply remembers_refl|done]. Qed.
Lemma advances_trans r1 r2 r3 : advances r1 r2 -> advances r2 r3 -> advances r1 r3.
Proof.
  intros [H1 H2 H3 H4] [K1 K2 K3 K4]. rewrite H1 in K2. split; [congruence|by eapply carried_trans|by eapply remembers_trans|auto].
Qed.
Lemma advances_store st rev r :
  carried (runtime_run_id r) (store r) st -> advances r (set_store st rev r).
Proof.
  intros Hc. split; [done|done|apply remembers_refl|]. intros (s & Hh & Hi).
  destruct (Hc _ Hh) as (o & Hg & Ho). destruct (Hg s eq_refl) as (s' & -> & He). exists s'. split; [exact Ho|].
  intros x i Hx. eapply lookup_weaken; [by apply Hi|apply He].
Qed.
(** A change that neither the store nor the journal sees. *)
Lemma advances_same r r' :
  runtime_run_id r' = runtime_run_id r -> store r' = store r -> journal r' = journal r -> advances r r'.
Proof.
  intros H1 H2 H3. split; rewrite ?H1, ?H2, ?H3; [done|apply carried_refl|apply remembers_refl|].
  unfold backed. by rewrite H1, H2, H3.
Qed.
(** One fact, in the journal once it is in the store. *)
Lemma advances_journal j r :
  remembers (journal r) j ->
  (forall s, holds (runtime_run_id r) (store r) (Some s) -> forall o i, journal_intents j !! o = Some i ->
     journal_intents (journal r) !! o = Some i \/ intents s !! o = Some i) ->
  advances r (set_journal j r).
Proof.
  intros Hj Hi. split; [done|apply carried_refl|done|]. intros (s & Hh & Hs). exists s. split; [done|].
  intros o i Ho. destruct (Hi s Hh o i Ho); auto.
Qed.

Definition moving {A} (m : op S A) : Prop := forall r, advances r (m r).1.
Lemma moving_bind {A B} (m : op S A) (k : A -> op S B) : moving m -> (forall a, moving (k a)) -> moving (m ≫= k).
Proof.
  intros Hm Hk r. unfold mbind, op_bind. specialize (Hm r). destruct (m r) as [r' [a|e|p|]]; cbn in *; try done.
  eapply advances_trans; [exact Hm|apply Hk].
Qed.
Lemma moving_pure {A} (m : op S A) : (forall r, (m r).1 = r) -> moving m.
Proof. intros Hm r. rewrite Hm. apply advances_refl. Qed.
Lemma moving_same {A} (m : op S A) :
  (forall r, runtime_run_id (m r).1 = runtime_run_id r /\ store (m r).1 = store r /\ journal (m r).1 = journal r) -> moving m.
Proof. intros Hm r. destruct (Hm r) as (H1 & H2 & H3). by apply advances_same. Qed.
(** A commit, with what is durable after it. *)
Lemma commit_durable_outcome key ms r r' x :
  commit_durable key ms r = (r', x) ->
  advances r r' /\ journal r' = journal r /\ runtime_run_id r' = runtime_run_id r /\
  forall rev, x = Ok rev -> backed r -> exists s, holds (runtime_run_id r) (store r') (Some s) /\ forall m, m ∈ ms -> recorded s m.
Proof.
  unfold commit_durable, IdempotencyKey_new. unfold mbind, op_bind, lift.
  destruct (trim_is_empty key) eqn:Hk; cbn [map_err].
  { intros [= <- <-]. split_and!; [apply advances_refl|done..]. }
  unfold send_commit. set (q := {| request_run_id := _ |}).
  pose proof (commit_carried (store r) q Hk) as [Hc Hr]. destruct (commit (store r) q) as [st y]. cbn in Hc, Hr.
  assert (Ha : forall rev, advances r (set_store st rev r)) by (intros; by apply advances_store).
  destruct y as [res|e|p|]; intros [= <- <-]; split_and!; try done; try apply Ha.
  intros rev _ (s & Hh & _). destruct (Hr s res Hh eq_refl) as (s' & _ & Hs' & Hm). by exists s'.
Qed.
Lemma moving_commit key ms : moving (commit_durable key ms).
Proof.
  intros r. destruct (commit_durable key ms r) as [r' x] eqn:E. by apply commit_durable_outcome in E as [? _].
Qed.

(** *** Facts that are committed, then remembered *)
Lemma recording_outcome key m (p : DurableJournal -> result JournalError DurableJournal) r :
  (forall j', p (journal r) = Ok j' -> remembers (journal r) j' /\ forall o i, journal_intents j' !! o = Some i ->
     journal_intents (journal r) !! o = Some i \/ forall s, recorded s m -> intents s !! o = Some i) ->
  match (j ← gets journal; candidate ← lift RuntimeJournal (p j); _ ← commit_durable key [m];
         modify (set_journal candidate)) r with
  | (r', Ok _) => advances r r' /\ p (journal r) = Ok (journal r') /\
      (backed r -> exists s, holds (runtime_run_id r) (store r') (Some s) /\ recorded s m)
  | (r', _) => advances r r'
  end.
Proof.
  intros Hp. unfold gets, lift, mbind, op_bind. cbv beta iota. destruct (p (journal r)) as [j|e|site|] eqn:Ej;
    cbn [map_err]; try apply advances_refl.
  destruct (Hp j eq_refl) as [Hj Hi].
  destruct (commit_durable key [m] r) as [r1 x] eqn:E.
  pose proof (commit_durable_outcome _ _ _ _ _ E) as (Ha & Hj1 & Hrun & Hok).
  destruct x as [rev|e|site|]; try exact Ha. unfold modify. split_and!; [|done|].
  - split; [exact Hrun|apply Ha|exact Hj|]. intros Hb. destruct (Hok rev eq_refl Hb) as (s & Hh & Hm).
    destruct (ad_backed _ _ Ha Hb) as (s2 & Hh2 & Hs2). rewrite Hrun in Hh2.
    pose proof (holds_unique _ _ _ _ Hh Hh2) as [= <-]. exists s.
    split; [by cbn; rewrite Hrun|]. intros o i [Ho|Ho]%Hi; [by apply Hs2; rewrite Hj1|].
    apply Ho, Hm. by left.
  - intros Hb. destruct (Hok rev eq_refl Hb) as (s & Hh & Hm). exists s. split; [exact Hh|]. apply Hm. by left.
Qed.
Lemma recorded_old_intents (j j' : DurableJournal) (P : OperationId -> EffectIntent -> Prop) :
  journal_intents j' = journal_intents j ->
  forall o i, journal_intents j' !! o = Some i -> journal_intents j !! o = Some i \/ P o i.
Proof. intros ->. auto. Qed.
Lemma moving_record_effect_intent t o s : moving (record_effect_intent (S := S) t o s).
Proof.
  intros r. unfold record_effect_intent. unfold mbind at 1, op_bind at 1, gets at 1. cbv beta iota.
  destruct (graph_task _ _); [|apply advances_refl]. destruct (WorkflowGraph.is_completed _ _); [apply advances_refl|].
  set (i := {| intent_task_id := t; intent_operation_id := o; semantics := s |}).
  pose proof (recording_outcome ("intent:" +:+ OperationId_display o) (RecordIntent i) (fun j => persist_intent j i) r) as H.
  cbv zeta. destruct ((j ← gets journal; _) r) as [r' [u|e|p|]]; [|apply H..]; [apply H|..];
    intros j' Hj; (split; [by eapply persist_intent_remembers|]); revert Hj; unfold persist_intent;
    case_bool_decide; try done; destruct (_ !! intent_task_id i); try done; intros [= <-] x y; cbn;
    (intros [[<- <-]|[_ Hx]]%lookup_insert_Some; [by right; intros|by left]).
Qed.
Lemma record_dispatch_recording o a r :
  record_dispatch (S := S) o a r =
  (_ ← (j ← gets journal;
        candidate ← lift RuntimeJournal (persist_dispatch j {| dispatch_operation_id := o; dispatch_attempt_id := a |});
        _ ← commit_durable ("dispatch:" +:+ AttemptId_display a)
              [RecordDispatch {| dispatch_operation_id := o; dispatch_attempt_id := a |}];
        modify (set_journal candidate)); mret a) r.
Proof.
  unfold record_dispatch, gets, lift, mbind, op_bind. cbv beta iota zeta.
  destruct (persist_dispatch (journal r) _); cbn [map_err]; try done.
  by destruct (commit_durable _ _ r) as [? [| | |]].
Qed.
Lemma record_dispatch_outcome o a r :
  match record_dispatch (S := S) o a r with
  | (r', Ok b) => b = a /\ advances r r' /\ journal_dispatches (journal r) !! a = None /\
      is_Some (journal_dispatches (journal r') !! a) /\ is_Some (journal_latest_dispatch (journal r') o) /\
      (backed r -> exists s, holds (runtime_run_id r) (store r') (Some s) /\
         recorded s (RecordDispatch {| dispatch_operation_id := o; dispatch_attempt_id := a |}))
  | (r', _) => advances r r'
  end.
Proof.
  set (x := {| dispatch_operation_id := o; dispatch_attempt_id := a |}).
  pose proof (recording_outcome ("dispatch:" +:+ AttemptId_display a) (RecordDispatch x) (fun j => persist_dispatch j x) r) as H.
  rewrite record_dispatch_recording. unfold mbind at 1, op_bind at 1. fold x.
  destruct ((j ← gets journal; _) r) as [r1 [u|e|p|]]; try apply H;
    try (intros j' Hj; pose proof (persist_dispatch_remembers _ _ _ Hj) as (Hr & Hi & _); split; [done|];
         by apply recorded_old_intents).
  cbn. destruct H as (Ha & Hj & Hd).
  { intros j' Hj. pose proof (persist_dispatch_remembers _ _ _ Hj) as (Hr & Hi & _). split; [done|]. by apply recorded_old_intents. }
  apply persist_dispatch_remembers in Hj as (_ & _ & Hn & Hs & Hl). done.
Qed.
Lemma moving_record_dispatch o a : moving (record_dispatch (S := S) o a).
Proof.
  intros r. pose proof (record_dispatch_outcome o a r) as H. destruct (record_dispatch o a r) as [r' [b|e|p|]]; try done.
  apply H.
Qed.
Lemma moving_record_effect_outcome o a x : moving (record_effect_outcome (S := S) o a x).
Proof.
  intros r. set (y := {| outcome_operation_id := o; outcome_attempt_id := a; outcome := x |}).
  pose proof (recording_outcome ("outcome:" +:+ AttemptId_display a) (RecordOutcome y) (fun j => persist_outcome j y) r) as H.
  unfold record_effect_outcome. cbv zeta. fold y.
  destruct ((j ← gets journal; _) r) as [r' [u|e|p|]]; apply H; intros j' Hj;
    (split; [by eapply persist_outcome_remembers|]); apply recorded_old_intents; revert Hj; unfold persist_outcome;
    repeat case_match; try done; by intros [= <-].
Qed.

(** *** The other operations *)
Ltac moves :=
  repeat first
    [ progress intros
    | apply moving_commit | apply moving_record_dispatch | apply moving_record_effect_outcome
    | apply moving_record_effect_intent
    | apply moving_bind
    | apply moving_pure; done
    | apply moving_same; done
    | case_match ].
Lemma moving_emit_execution e : moving (emit_execution (S := S) e).
Proof. apply moving_same. intros r. unfold emit_execution. by destruct (emit _ _). Qed.
Lemma moving_enqueue i : moving (enqueue_execution (S := S) i).
Proof. apply moving_same. intros r. unfold enqueue_execution. by destruct (lossless_try_push _ _). Qed.
Lemma moving_retry i : moving (retry_execution_event (S := S) i).
Proof.
  intros r. unfold retry_execution_event. destruct (pending_started r) as [[a j]|]; [|apply moving_enqueue].
  assert (Hr : advances r (enqueue_execution j (set_pending None r)).1).
  { eapply advances_trans; [|apply moving_enqueue]. by apply advances_same. }
  destruct (enqueue_execution _ _) as [r' [[]|e|p|]]; cbn in *; try done;
    (eapply advances_trans; [exact Hr|by apply advances_same]).
Qed.
Lemma moving_emit_completed t a : moving (emit_completed (S := S) t a).
Proof. unfold emit_completed. apply moving_bind; [by apply moving_pure|intros run]. apply moving_bind; [apply moving_emit_execution|intros i; apply moving_enqueue]. Qed.
Lemma moving_complete_task t a : moving (complete_task (S := S) t a).
Proof.
  unfold complete_task. apply moving_bind; [by apply moving_pure|intros g]. destruct (complete g t) as [g' x].
  do 3 (apply moving_bind; [moves|intros ?]). apply moving_emit_completed.
Qed.
Lemma moving_record_started a i : moving (record_started (S := S) a i).
Proof.
  intros r. unfold record_started. pose proof (moving_enqueue i r) as Hr.
  destruct (enqueue_execution i r) as [r' [u|e|p|]]; cbn in *; try done; [|destruct e; try done];
    (eapply advances_trans; [exact Hr|by apply advances_same]).
Qed.
Lemma moving_begin_attempt tree t o : moving (begin_attempt (S := S) tree t o).
Proof.
  unfold begin_attempt. do 7 (apply moving_bind; [moves|intros ?]).
  apply moving_bind; [apply moving_emit_execution|intros ?; apply moving_record_started].
Qed.
Lemma moving_attempt_or_begin tree t o : moving (attempt_or_begin (S := S) tree t o).
Proof.
  unfold attempt_or_begin. apply moving_bind; [by apply moving_pure|]. intros [a|]; [by apply moving_pure|apply moving_begin_attempt].
Qed.
Lemma moving_cancel_task t : moving (cancel_task (S := S) t).
Proof. unfold cancel_task. moves. Qed.
Lemma moving_durable_state : moving (durable_state (S := S)).
Proof.
  intros r. unfold durable_state, load_of. pose proof (load_carried (runtime_run_id r) (store r)) as Hl.
  destruct (load_run _ _) as [st x]. by apply advances_store.
Qed.
Lemma moving_recover o : moving (recover (S := S) o).
Proof.
  unfold recover. apply moving_bind; [by apply moving_pure|intros x]. case_bool_decide; [|by apply moving_pure].
  do 4 (apply moving_bind; [moves|intros ?]).
  apply moving_bind; [case_match; [by apply moving_pure|apply moving_complete_task]|intros ?; by apply moving_pure].
Qed.
Lemma moving_dispatch_effect tree o : moving (dispatch_effect (S := S) tree o).
Proof.
  unfold dispatch_effect. do 3 (apply moving_bind; [moves|intros ?]). case_bool_decide; [moves|].
  apply moving_bind; [|intros ?; apply moving_record_dispatch].
  repeat case_match; try (by apply moving_pure); [apply moving_attempt_or_begin|apply moving_begin_attempt].
Qed.
Lemma moving_step tree : moving (step (S := S) tree).
Proof.
  intros r. unfold step. destruct (pending_started r) as [[]|]; [apply advances_refl|].
  destruct (next_ready r) as [t|]; [|apply advances_refl]. revert r.
  change (moving (step_task (S := S) tree t)). unfold step_task. apply moving_bind; [unfold ensure_configured_effect; moves|].
  intros [[o s]|].
  - unfold step_effect. apply moving_bind; [by apply moving_pure|intros j]. destruct (journal_state j o) as [| |[|]|].
    + moves.
    + apply moving_bind; [apply moving_attempt_or_begin|intros ?; by apply moving_pure].
    + apply moving_bind; [moves|intros ?]. apply moving_bind; [apply moving_complete_task|intros ?; by apply moving_pure].
    + moves.
    + moves.
  - apply moving_bind; [apply moving_attempt_or_begin|intros ?].
    apply moving_bind; [apply moving_complete_task|intros ?; by apply moving_pure].
Qed.
Lemma moving_run_rounds fuel tree l : moving (run_rounds (S := S) fuel tree l).
Proof.
  revert l. induction fuel as [|fuel IH]; intros l; cbn [run_rounds]; [by apply moving_pure|].
  apply moving_bind; [apply moving_step|]. intros []; try (by apply moving_pure). apply IH.
Qed.
Lemma moving_call c : moving (run_call (S := S) c).
Proof.
  assert (Hf : forall A (m : op S A), moving m -> moving (forget m)) by (intros A m Hm; apply moving_bind; [done|moves]).
  assert (Hd : forall A (m : Runtime S -> Runtime S * result Empty_set A),
    (forall r, exists t l, m r = (set_streams t r, l)) -> moving (drained m)).
  { intros A m Hm r. unfold drained. destruct (Hm r) as (t & l & ->). by apply advances_same. }
  destruct c; cbn [run_call].
  - unfold configure_task, ensure_legacy_mutation_allowed, commit_workflow_identity. moves.
  - apply Hf. unfold apply_workflow_mutation, ensure_legacy_mutation_allowed, commit_workflow_identity. moves.
  - moves.
  - apply Hf, moving_dispatch_effect.
  - moves.
  - apply Hf, moving_recover.
  - apply Hf, moving_cancel_task.
  - apply Hf, moving_step.
  - apply Hf. intros r. apply moving_run_rounds.
  - apply moving_same. intros r. unfold emit_progress. destruct (emit _ _) as [q []]; try done.
    by destruct (coalescing_try_push _ _).
  - apply moving_same. intros r. unfold emit_telemetry. by destruct (emit _ _) as [q []].
  - apply moving_retry.
  - apply Hd. intros r. unfold drain_execution_events. destruct (drain_lossless _) as [b l]. eauto.
  - apply Hd. intros r. unfold drain_progress_events. destruct (drain_coalescing _) as [b l]. eauto.
  - apply Hd. intros r. unfold drain_telemetry_events. destruct (drain_lossy _) as [b l]. eauto.
  - apply Hf, moving_durable_state.
Qed.

(** ** Handing an effect to the dispatcher *)
Record hands_over r r' (o : OperationId) (a : AttemptId) (i : EffectIntent) : Prop := {
  ho_advances : advances r r';
  ho_once : semantics i = NonIdempotent -> journal_latest_dispatch (journal r) o = None;
  ho_fresh : journal_dispatches (journal r) !! a = None;
  ho_attempt : is_Some (journal_dispatches (journal r') !! a);
  ho_latest : is_Some (journal_latest_dispatch (journal r') o);
  ho_durable : backed r -> exists s, holds (runtime_run_id r) (store r') (Some s) /\ intents s !! o = Some i /\
    dispatches s !! a = Some {| dispatch_operation_id := o; dispatch_attempt_id := a |}
}.
Lemma hands_over_later r0 r r' o a i : advances r0 r -> hands_over r r' o a i -> hands_over r0 r' o a i.
Proof.
  intros Ha [H1 H2 H3 H4 H5 H6]. split; try done.
  - by eapply advances_trans.
  - intros Hs. apply eq_None_not_Some. intros Hl%(re_latest _ _ (ad_journal _ _ Ha)). rewrite H2 in Hl by done. by destruct Hl.
  - apply eq_None_not_Some. intros Hl%(re_dispatches _ _ (ad_journal _ _ Ha)). rewrite H3 in Hl. by destruct Hl.
  - intros Hb%(ad_backed _ _ Ha). rewrite <- (ad_run _ _ Ha). auto.
Qed.
Lemma prepared_latest j o : journal_state j o = Prepared -> journal_latest_dispatch j o = None.
Proof. unfold journal_state. repeat case_match; done. Qed.
Lemma advances_fresh r r' a :
  advances r r' -> journal_dispatches (journal r') !! a = None -> journal_dispatches (journal r) !! a = None.
Proof.
  intros Ha Hn. apply eq_None_not_Some. intros Hs%(re_dispatches _ _ (ad_journal _ _ Ha)). rewrite Hn in Hs. by destruct Hs.
Qed.
Lemma record_dispatch_hands_over o a r0 r r' i b :
  advances r0 r -> journal_intents (journal r0) !! o = Some i ->
  (semantics i = NonIdempotent -> journal_latest_dispatch (journal r0) o = None) ->
  record_dispatch (S := S) o a r = (r', Ok b) -> hands_over r0 r' o b i.
Proof.
  intros Ha Hi Hn Hr. pose proof (record_dispatch_outcome o a r) as H. rewrite Hr in H.
  destruct H as (-> & Ha' & Hf & Hs & Hl & Hd). split; try done.
  - by eapply advances_trans.
  - by eapply advances_fresh.
  - intros Hb. pose proof (ad_backed _ _ Ha Hb) as Hb1. destruct (Hd Hb1) as (s & Hh & Hrec).
    rewrite (ad_run _ _ Ha) in Hh. exists s. split; [done|]. split; [|exact Hrec].
    destruct (ad_backed _ _ Ha' Hb1) as (s2 & Hh2 & Hs2). rewrite (ad_run _ _ Ha'), (ad_run _ _ Ha) in Hh2.
    pose proof (holds_unique _ _ _ _ Hh Hh2) as [= <-]. by apply Hs2, Ha', Ha.
Qed.
Lemma dispatch_effect_intent tree o r r' a :
  dispatch_effect (S := S) tree o r = (r', Ok a) ->
  exists i, journal_intent (journal r) o = Ok i /\ hands_over r r' o a i.
Proof.
  unfold dispatch_effect, gets, lift, fail, unreachable, journal_intent. unfold mbind, op_bind. cbv beta iota zeta.
  destruct (journal_intents (journal r) !! o) as [i|] eqn:Ei; cbn [ok_or map_err]; [|done].
  case_bool_decide; [by destruct (journal_state _ _)|].
  destruct (journal_state (journal r) o) eqn:Es; try done.
  - pose proof (moving_attempt_or_begin tree (intent_task_id i) (Some o) r) as Hm.
    destruct (attempt_or_begin _ _ _ r) as [r1 [a1|e|p|]]; try done. intros Hr. exists i. split; [done|].
    eapply record_dispatch_hands_over; [exact Hm|done| |exact Hr]. intros _. by apply prepared_latest.
  - case_bool_decide as Hsem; [done|].
    pose proof (moving_begin_attempt tree (intent_task_id i) (Some o) r) as Hm.
    destruct (begin_attempt _ _ _ r) as [r1 [a1|e|p|]]; try done. intros Hr. exists i. split; [done|].
    by eapply record_dispatch_hands_over.
Qed.

(** ** What every command does *)
Definition drifts {A} (p : RuntimeDriver S * A) d : Prop := advances (driver_runtime d) (driver_runtime p.1).
Lemma drifts_then {A B} (p : RuntimeDriver S * result DriverError A) (k : RuntimeDriver S -> A -> RuntimeDriver S * result DriverError B) d :
  drifts p d -> (forall d' a, drifts (k d' a) d') -> drifts (and_then p k) d.
Proof.
  intros Hp Hk. unfold drifts, and_then in *. destruct p as [d' [a|e|site|]]; cbn in *; try done.
  eapply advances_trans; [exact Hp|apply Hk].
Qed.
Lemma drifts_rejected {A} (p : RuntimeDriver S * result RuntimeError A) d : drifts p d -> drifts (rejected p) d.
Proof. destruct p as [d' [a|e|site|]]; try done. by destruct e. Qed.
Lemma drifts_runtime {A} (m : op S A) d : moving m -> drifts (on_runtime m d) d.
Proof. intros Hm. unfold drifts, on_runtime. specialize (Hm (driver_runtime d)). by destruct (m _) as [r x]. Qed.
Lemma drifts_refl {A} (x : A) d : drifts (d, x) d.
Proof. apply advances_refl. Qed.
Lemma drifts_retry d : drifts (retry_pending_lifecycle d) d.
Proof.
  unfold retry_pending_lifecycle. destruct (pending_lifecycle d) as [i|]; [|apply drifts_refl].
  pose proof (drifts_runtime _ (set_lifecycle None d) (moving_retry i)) as Hd.
  destruct (on_runtime _ _) as [d' [[]|e|site|]]; try done. by destruct e.
Qed.
Lemma drifts_rejected_retry d : drifts (rejected (retry_pending_lifecycle d)) d.
Proof. apply drifts_rejected, drifts_retry. Qed.
Lemma drifts_prepare tree o expected d : drifts (prepare_dispatch tree o expected d) d.
Proof.
  apply drifts_then; [apply drifts_rejected_retry|intros d1 []]. apply drifts_then; [apply drifts_rejected, drifts_refl|intros d2 i].
  apply drifts_then; [apply drifts_refl|intros d3 []].
  apply drifts_then; [apply drifts_rejected, drifts_runtime, moving_dispatch_effect|intros d4 a].
  apply drifts_then; [apply drifts_refl|intros d5 []]. apply drifts_refl.
Qed.
Lemma drifts_settle q x d : drifts (settle_dispatch q x d) d.
Proof.
  destruct x as [e|x]; [apply drifts_refl|].
  apply drifts_then; [apply drifts_rejected, drifts_runtime, moving_record_effect_outcome|intros; apply drifts_refl].
Qed.
Lemma drifts_recover_all os d : drifts (recover_all os d) d.
Proof.
  revert d. induction os as [|o os IH]; intros d; [apply drifts_refl|].
  apply drifts_then; [apply drifts_rejected, drifts_runtime, moving_recover|intros; apply IH].
Qed.
Lemma drifts_shutdown d : drifts (shutdown_now d) d.
Proof.
  apply drifts_then; [apply drifts_rejected_retry|intros d1 []].
  apply drifts_then; [apply drifts_rejected, drifts_runtime, moving_durable_state|intros d2 s].
  apply drifts_then; [apply drifts_recover_all|intros d3 []].
  destruct (pending_lifecycle d3); [apply drifts_rejected, drifts_refl|].
  apply drifts_then; [apply drifts_rejected, drifts_runtime, moving_durable_state|intros; apply drifts_refl].
Qed.
Lemma moving_drains r :
  advances r (drain_execution_events r).1 /\ advances r (drain_progress_events r).1 /\ advances r (drain_telemetry_events r).1.
Proof.
  unfold drain_execution_events, drain_progress_events, drain_telemetry_events.
  destruct (drain_lossless _), (drain_coalescing _), (drain_lossy _). split_and!; by apply advances_same.
Qed.
Lemma drifts_drains {A} (m : Runtime S -> Runtime S * result Empty_set A) d :
  (forall r, advances r (m r).1) -> drifts (drains m d) d.
Proof.
  intros Hm. unfold drifts, drains, on_runtime. specialize (Hm (driver_runtime d)). by destruct (m _) as [r x].
Qed.
(** The request names the intent of its operation. *)
Definition requests r r' (q : EffectDispatchRequest) : Prop := exists i,
  hands_over r r' (rq_operation_id q) (rq_attempt_id q) i /\ rq_run_id q = runtime_run_id r /\
  rq_task_id q = intent_task_id i /\ rq_semantics q = semantics i.
Lemma requests_later r0 r r' q : advances r0 r -> requests r r' q -> requests r0 r' q.
Proof.
  intros Ha (i & Hh & Hr & Ht). exists i. split; [by eapply hands_over_later|]. by rewrite Hr, (ad_run _ _ Ha).
Qed.
Lemma then_Ok {A B} (p : RuntimeDriver S * result DriverError A) (k : RuntimeDriver S -> A -> RuntimeDriver S * result DriverError B) d' b :
  and_then p k = (d', Ok b) -> exists d a, p = (d, Ok a) /\ k d a = (d', Ok b).
Proof. unfold and_then. destruct p as [d [a|e|site|]]; try done. by exists d, a. Qed.
Lemma rejected_Ok {A} (p : RuntimeDriver S * result RuntimeError A) d a : rejected p = (d, Ok a) -> p = (d, Ok a).
Proof. destruct p as [d' [x|e|site|]]; cbn; intros H; by inversion H. Qed.
Lemma prepare_requests tree o expected d d' q :
  prepare_dispatch tree o expected d = (d', Ok q) -> requests (driver_runtime d) (driver_runtime d') q.
Proof.
  unfold prepare_dispatch. intros (d1 & u1 & H1 & H)%then_Ok.
  pose proof (drifts_rejected_retry d) as Hd. unfold drifts in Hd. rewrite H1 in Hd. cbn in Hd.
  apply then_Ok in H as (d2 & i & H2 & H). apply rejected_Ok in H2. injection H2 as <- Hi.
  apply then_Ok in H as (d3 & u3 & H3 & H). injection H3 as <- _.
  apply then_Ok in H as (d4 & a & H4 & H). apply rejected_Ok in H4.
  apply then_Ok in H as (d5 & u5 & H5 & H). injection H5 as <- _. injection H as <- <-.
  eapply requests_later; [exact Hd|]. unfold on_runtime in H4.
  destruct (dispatch_effect tree o (driver_runtime d1)) as [r x] eqn:E. injection H4 as <- ->. cbn.
  pose proof (dispatch_effect_intent tree o _ _ _ E) as [i' [Hi' Hh]].
  rewrite Hi' in Hi. cbn in Hi. injection Hi as ->. exists i. cbn. split; [exact Hh|].
  split; [exact (ad_run _ _ (ho_advances _ _ _ _ _ Hh))|done].
Qed.

(** ** Serving a command *)
Definition served_safely r (x : served S) : Prop :=
  match x with
  | Replies d _ | Stops d _ _ _ _ | Panics d => advances r (driver_runtime d)
  | Dispatches d q => requests r (driver_runtime d) q
  end.
Lemma served_later r0 r x : advances r0 r -> served_safely r x -> served_safely r0 x.
Proof. destruct x; cbn; intros; first [by eapply requests_later|by eapply advances_trans]. Qed.
Lemma safely_settled {A} (k : RuntimeDriver S -> A -> served S) p d :
  drifts p d -> (forall d' a, p = (d', Ok a) -> served_safely (driver_runtime d) (k d' a)) ->
  served_safely (driver_runtime d) (settled_as k p).
Proof. intros Hp Hk. destruct p as [d' [a|e|site|]]; cbn; [by apply Hk|exact Hp..]. Qed.
Lemma safely_replies {A} (f : A -> DriverResponse) p d : drifts p d -> served_safely (driver_runtime d) (replies f p).
Proof. intros Hp. apply safely_settled; [done|]. intros d' a ->. exact Hp. Qed.
Lemma drifts_drive tree d :
  match drive_once tree d with
  | (d', Ok (inr q)) => requests (driver_runtime d) (driver_runtime d') q
  | (d', _) => advances (driver_runtime d) (driver_runtime d')
  end.
Proof.
  unfold drive_once. pose proof (drifts_retry d) as Hr. unfold drifts in Hr.
  assert (He : forall e (d' : RuntimeDriver S), driver_runtime (drive_runtime_error e d').1 = driver_runtime d') by by intros [].
  destruct (retry_pending_lifecycle d) as [d1 [[]|e|site|]]; cbn in Hr; try done.
  2:{ specialize (He e d1). destruct (drive_runtime_error e d1) as [d2 [x|x|site|]]; cbn in *; by rewrite He. }
  pose proof (drifts_runtime _ d1 (moving_step tree)) as Hs. unfold drifts in Hs.
  destruct (on_runtime (step tree) d1) as [d2 [s|e|site|]]; cbn in Hs; try (by eapply advances_trans).
  2:{ specialize (He e d2). destruct (drive_runtime_error e d2) as [d3 [x|x|site|]]; cbn in *; rewrite He; by eapply advances_trans. }
  destruct s; cbn; try (by eapply advances_trans).
  pose proof (drifts_prepare tree operation_id (Some attempt_id) d2) as Hp. unfold drifts in Hp.
  destruct (prepare_dispatch _ _ _ _) as [d3 [q|e|site|]] eqn:E; cbn in *;
    try (do 2 (eapply advances_trans; [eassumption|]); done).
  apply prepare_requests in E. eapply requests_later; [|exact E]. by eapply advances_trans.
Qed.
Lemma serve_safely tree q d : served_safely (driver_runtime d) (serve tree q d).
Proof.
  destruct q; cbn [serve].
  - pose proof (drifts_drive tree d) as Hd. by destruct (drive_once tree d) as [d' [[x|x]|e|site|]].
  - apply safely_settled; [apply drifts_prepare|]. intros d' q. apply prepare_requests.
  - apply safely_replies, drifts_then; [apply drifts_rejected_retry|intros d' []].
    apply drifts_rejected, drifts_runtime, moving_recover.
  - apply safely_replies, drifts_rejected, drifts_runtime, moving_cancel_task.
  - apply safely_replies, drifts_drains. apply moving_drains.
  - apply safely_replies, drifts_drains. apply moving_drains.
  - apply safely_replies, drifts_drains. apply moving_drains.
  - apply safely_settled; [apply drifts_shutdown|]. intros d1 status H1.
    pose proof (drifts_shutdown d) as D1. unfold drifts in D1. rewrite H1 in D1. eapply served_later; [exact D1|]. clear D1 H1.
    assert (E2 : drifts (drains drain_execution_events d1) d1) by apply drifts_drains, moving_drains.
    apply safely_settled; [exact E2|]. intros d2 es H2. unfold drifts in E2. rewrite H2 in E2. eapply served_later; [exact E2|].
    assert (E3 : drifts (drains drain_progress_events d2) d2) by apply drifts_drains, moving_drains.
    apply safely_settled; [exact E3|]. intros d3 ps H3. unfold drifts in E3. rewrite H3 in E3. eapply served_later; [exact E3|].
    assert (E4 : drifts (drains drain_telemetry_events d3) d3) by apply drifts_drains, moving_drains.
    apply safely_settled; [exact E4|]. intros d4 ts H4. unfold drifts in E4. rewrite H4 in E4. exact E4.
Qed.
End effects.
