(* ===== verification/DriverLife.v ===== *)
(** * The hosts of a run, with drivers

    A host starts or restores a runtime, calls it directly, gives it to a
    driver, takes it back from a driver that was shut down, and dies at any
    moment.  Unlike the hosts of [RuntimeCalls] it keeps a runtime whose backend
    failed.  [tracked] is the invariant that bounds the calls of dispatchers. *)
From S2P Require Export DriverEffects.
#[local] Open Scope string_scope.
#[local] Open Scope nat_scope.
#[local] Open Scope list_scope.

Section hosts.
Context {S : Type} {DS : DurableStore S} {SF : StoreFormat} {SL : StoreFormatLaws} {C : StoreContract S}.
Implicit Types (r : Runtime S) (d : RuntimeDriver S) (w : driver_world S).

(** ** Hosts *)
Inductive host_place :=
  | Idle_host (st : S)
  | Holding (r : Runtime S)
  | Driving (w : driver_world S).
(** [made] are the dispatcher calls of the drivers that are gone. *)
Record hosting := { place : host_place; made : list EffectDispatchRequest }.
Inductive host_event :=
  | HostStarts (e : event)
  | HostDirect (c : call)
  | HostDrives
  | HostMoves (m : move)
  | HostTakes
  | HostDies.
Definition runtime_in (p : phase S) : option (Runtime S) :=
  match p with
  | Polling d | Parked d | AwaitingEffect d _ _ | Stopping d _ _ _ _ | Refusing d _ _ => Some (driver_runtime d)
  | DriverExited r _ => Some r
  | Unwinds _ _ | Drains _ _ | Gone _ => None
  end.
Definition store_in (p : phase S) : S :=
  match p with
  | Polling d | Parked d | AwaitingEffect d _ _ | Stopping d _ _ _ _ | Refusing d _ _ => store (driver_runtime d)
  | DriverExited r _ => store r
  | Unwinds st _ | Drains st _ | Gone st => st
  end.
Definition hosts (run : RunId) (e : host_event) (h : hosting) : hosting :=
  match e, place h with
  | HostStarts e, Idle_host st =>
      {| place := match happens run e (Down st) with Up r => Holding r | Down st => Idle_host st end; made := made h |}
  | HostDirect c, Holding r => {| place := Holding (run_call c r).1; made := made h |}
  | HostDrives, Holding r => {| place := Driving (driver_new r); made := made h |}
  | HostMoves m, Driving w => {| place := Driving (act m w); made := made h |}
  | HostTakes, Driving w =>
      match owner w with
      | DriverExited r _ => {| place := Holding r; made := made h ++ dispatched w |}
      | _ => h
      end
  | HostDies, Holding r => {| place := Idle_host (store r); made := made h |}
  | HostDies, Driving w => {| place := Idle_host (store_in (owner w)); made := made h ++ dispatched w |}
  | _, _ => h
  end.
(** The calls of dispatchers since the run exists. *)
Definition total (h : hosting) : list EffectDispatchRequest :=
  made h ++ match place h with Driving w => dispatched w | _ => [] end.

(** Others may use the store for other runs. *)
Definition swap_driver (st : S) d : RuntimeDriver S :=
  {| driver_runtime := set_store st (store_revision (driver_runtime d)) (driver_runtime d);
     pending_lifecycle := pending_lifecycle d |}.
Definition swap_store (st : S) (p : phase S) : phase S :=
  match p with
  | Polling d => Polling (swap_driver st d)
  | Parked d => Parked (swap_driver st d)
  | AwaitingEffect d c q => AwaitingEffect (swap_driver st d) c q
  | Stopping d s es ps ts => Stopping (swap_driver st d) s es ps ts
  | Refusing d s cs => Refusing (swap_driver st d) s cs
  | DriverExited r s => DriverExited (set_store st (store_revision r) r) s
  | Unwinds _ c => Unwinds st c
  | Drains _ cs => Drains st cs
  | Gone _ => Gone st
  end.
Definition swap_place (st : S) (p : host_place) : host_place :=
  match p with
  | Idle_host _ => Idle_host st
  | Holding r => Holding (set_store st (store_revision r) r)
  | Driving w => Driving (with_owner (swap_store st (owner w)) w)
  end.
Definition store_at (p : host_place) : S :=
  match p with Idle_host st => st | Holding r => store r | Driving w => store_in (owner w) end.
Definition runtime_at (p : host_place) : option (Runtime S) :=
  match p with Idle_host _ => None | Holding r => Some r | Driving w => runtime_in (owner w) end.
Inductive host_step (run : RunId) : hosting -> hosting -> Prop :=
  | host_event_step e h : (forall e', e = HostStarts e' -> event_ok e') -> host_step run h (hosts run e h)
  | host_others_step st h : (forall o, holds run (store_at (place h)) o -> holds run st o) ->
      host_step run h {| place := swap_place st (place h); made := made h |}.
Definition hosted (run : RunId) (h : hosting) : Prop :=
  exists st, holds run st None /\ rtc (host_step run) {| place := Idle_host st; made := [] |} h.

(** ** The invariant *)
(** Every call was preceded by a durable dispatch of its attempt. *)
Definition covers (run : RunId) (s : DurableRunState) (q : EffectDispatchRequest) : Prop :=
  rq_run_id q = run /\
  dispatches s !! rq_attempt_id q =
    Some {| dispatch_operation_id := rq_operation_id q; dispatch_attempt_id := rq_attempt_id q |} /\
  exists i, intents s !! rq_operation_id q = Some i /\ rq_task_id q = intent_task_id i /\ rq_semantics q = semantics i.
Definition covered (run : RunId) (l : list EffectDispatchRequest) (o : option DurableRunState) : Prop :=
  forall q, q ∈ l -> exists s, o = Some s /\ covers run s q.
Definition known (l : list EffectDispatchRequest) (j : DurableJournal) : Prop :=
  forall q, q ∈ l -> is_Some (journal_dispatches j !! rq_attempt_id q) /\ is_Some (journal_latest_dispatch j (rq_operation_id q)).
Definition unsafe_for (o : OperationId) (q : EffectDispatchRequest) : Prop :=
  rq_operation_id q = o /\ rq_semantics q = NonIdempotent.
#[export] Instance unsafe_for_dec o q : Decision (unsafe_for o q) := ltac:(unfold unsafe_for; apply _).
Definition single (l : list EffectDispatchRequest) : Prop :=
  NoDup (rq_attempt_id <$> l) /\ forall o, length (filter (unsafe_for o) l) <= 1.
Record tracks (run : RunId) (l : list EffectDispatchRequest) (st : S) (x : option (Runtime S)) : Prop := {
  tr_covered : exists o, holds run st o /\ covered run l o;
  tr_single : single l;
  tr_runtime r : x = Some r -> runtime_run_id r = run /\ store r = st /\ backed r /\ known l (journal r)
}.
Definition tracked (run : RunId) (h : hosting) : Prop :=
  tracks run (total h) (store_at (place h)) (runtime_at (place h)).

Lemma covers_extends run s s' q : DurableStoreFacts.extends s s' -> covers run s q -> covers run s' q.
Proof.
  intros He (Hr & Hd & i & Hi & ?). split; [done|]. split; [eapply lookup_weaken; [done|apply He]|].
  exists i. split; [eapply lookup_weaken; [done|apply He]|done].
Qed.
Lemma covered_grown run l o o' : grown o o' -> covered run l o -> covered run l o'.
Proof.
  intros Hg Hc q Hq. destruct (Hc q Hq) as (s & Hs & Hcov). destruct (Hg s Hs) as (s' & -> & He).
  exists s'. split; [done|]. by eapply covers_extends.
Qed.
Lemma tracks_carried run l st st' x : carried run st st' -> tracks run l st x -> tracks run l st' None.
Proof.
  intros Hc [(o & Hh & Hcov) Hs _]. destruct (Hc o Hh) as (o' & Hg & Hh'). split; [|done|done].
  exists o'. split; [done|]. by eapply covered_grown.
Qed.
Lemma tracks_dies run l st x : tracks run l st x -> tracks run l st None.
Proof. intros []. by split. Qed.
Lemma known_remembers l j j' : remembers j j' -> known l j -> known l j'.
Proof. intros Hj Hk q Hq. destruct (Hk q Hq). split; by apply Hj. Qed.
Lemma tracks_advances run l r r' :
  advances r r' -> tracks run l (store r) (Some r) -> tracks run l (store r') (Some r').
Proof.
  intros Ha T. destruct (tr_runtime _ _ _ _ T r eq_refl) as (Hr & _ & Hb & Hk).
  pose proof (ad_store _ _ Ha) as Hc. rewrite Hr in Hc. destruct (tracks_carried _ _ _ _ _ Hc T) as [Hcov Hs _].
  split; [done|done|]. intros ? [= <-]. split_and!; [by rewrite (ad_run _ _ Ha)|done|by apply Ha|].
  eapply known_remembers; [apply Ha|done].
Qed.
Lemma tracks_requests run l r r' q :
  requests r r' q -> tracks run l (store r) (Some r) -> tracks run (l ++ [q]) (store r') (Some r').
Proof.
  intros (i & Hh & Hrun & Htask & Hsem) T. destruct (tr_runtime _ _ _ _ T r eq_refl) as (Hr & _ & Hb & Hk).
  destruct (tracks_advances _ _ _ _ (ho_advances _ _ _ _ _ Hh) T) as [(o & Ho & Hcov) [Hnd Hone] Hr'].
  destruct (Hr' r' eq_refl) as (Hr2 & _ & Hb2 & Hk2).
  destruct (ho_durable _ _ _ _ _ Hh Hb) as (s & Hs & Hi & Hd). rewrite Hr in Hs.
  pose proof (holds_unique _ _ _ _ Ho Hs) as ->. split; [| |].
  - exists (Some s). split; [done|]. intros q' [Hq|Hq%list_elem_of_singleton]%elem_of_app; [by apply Hcov|subst q'].
    exists s. split; [done|]. split; [by rewrite Hrun|]. split; [done|]. by exists i.
  - split.
    + rewrite fmap_app. apply NoDup_app. split; [done|]. split; [|apply NoDup_singleton].
      intros a (q' & -> & Hq')%list_elem_of_fmap Ha%list_elem_of_singleton.
      destruct (Hk q' Hq') as [[y Hy] _]. pose proof (ho_fresh _ _ _ _ _ Hh) as Hf. rewrite <- Ha, Hy in Hf. done.
    + intros op. rewrite filter_app, length_app, filter_cons, filter_nil. case_decide as Hu; [|cbn; specialize (Hone op); lia].
      destruct Hu as [Hop Hni]. rewrite Hsem in Hni. pose proof (ho_once _ _ _ _ _ Hh Hni) as Hl.
      destruct (filter (unsafe_for op) l) as [|q' l'] eqn:E; [done|]. exfalso.
      assert (Hq' : q' ∈ filter (unsafe_for op) l) by (rewrite E; by left).
      apply list_elem_of_filter in Hq' as [[Hop' _] Hq']. destruct (Hk q' Hq') as [_ Hsome].
      rewrite Hop', <- Hop, Hl in Hsome. by destruct Hsome.
  - intros ? [= <-]. split_and!; [done..|]. intros q' [Hq|Hq%list_elem_of_singleton]%elem_of_app; [by apply Hk2|subst q'].
    split; [exact (ho_attempt _ _ _ _ _ Hh)|exact (ho_latest _ _ _ _ _ Hh)].
Qed.

(** ** Starting and restoring *)
(** The journal is the view of what the store holds. *)
Definition viewing r : Prop := exists s,
  holds (runtime_run_id r) (store r) (Some s) /\ from_durable_state s = Ok (journal r).
Definition begun (run : RunId) (st : S) (p : S * result RuntimeError (Runtime S)) : Prop :=
  carried run st p.1 /\ forall r, p.2 = Ok r -> runtime_run_id r = run /\ store r = p.1 /\ viewing r.
Lemma begun_refused run st (x : result RuntimeError (Runtime S)) : (forall r, x <> Ok r) -> begun run st (st, x).
Proof. intros Hx. split; [apply carried_refl|]. intros r Hr. by destruct (Hx r). Qed.
Lemma begun_carried run st st1 p : carried run st st1 -> begun run st1 p -> begun run st p.
Proof. intros Hc [H1 H2]. split; [by eapply carried_trans|done]. Qed.
Lemma load_of_loaded run st o : holds run st o ->
  carried run st (load_of run st).1 /\ forall s, (load_of run st).2 = Ok s -> holds run (load_of run st).1 (Some s).
Proof.
  intros Hh. pose proof (load_carried run st) as Hc. pose proof (load_meets run st o Hh) as Hm. unfold load_of, meets in *.
  destruct (load_run st run) as [st' x]. cbn in *. split; [done|]. intros s Hs.
  destruct Hm as [[-> Ho]|(e & -> & _)]; [|done]. destruct o; cbn in *; by simplify_eq.
Qed.
Lemma create_or_adopt_new run st o : holds run st o ->
  carried run st (create_or_adopt run st).1 /\
  forall rev, (create_or_adopt run st).2 = Ok rev -> rev = 0%N /\
    holds run (create_or_adopt run st).1 (Some (DurableRunState_new run)).
Proof.
  intros Hh. unfold create_or_adopt. pose proof (create_carried run st) as Hc.
  pose proof (create_meets run st o Hh) as Hm. unfold meets in Hm.
  destruct (create_run st run) as [st1 x]. cbn in Hc, Hm.
  assert (Hok : forall rev, x = Ok rev -> rev = 0%N /\ holds run st1 (Some (DurableRunState_new run))).
  { intros rev ->. destruct Hm as [[Hx Ho]|(e & He & _)]; [|done]. destruct o; cbn in Hx; [done|]. injection Hx as ->. split; [done|exact Ho]. }
  destruct x as [rev|e|site|]; cbn; try (split; [done|by intros ? [=]]); [split; [done|intros rev' [= <-]; by apply Hok]|].
  destruct e; cbn; try (split; [done|by intros ? [=]]).
  destruct (Hc o Hh) as (o1 & _ & Hh1). pose proof (load_of_loaded run st1 o1 Hh1) as [Hc2 Hl]. unfold load_of in *.
  destruct (load_run st1 run) as [st2 y]. cbn in *.
  assert (Hc3 : carried run st st2) by by eapply carried_trans.
  destruct y as [s|e|site|]; cbn; try (split; [done|by intros ? [=]]).
  destruct (is_pristine_bootstrap s) eqn:Hp; [|split; [done|by intros ? [=]]]. split; [done|]. intros rev [= <-]. split; [done|].
  specialize (Hl s eq_refl). by rewrite <- (committed_initial _ _ (holds_committed _ _ _ Hl) (pristine_initial _ Hp)).
Qed.
Lemma identity_commit_view run st i :
  let q := CommitRequest_single run 0%N bootstrap_key (RecordWorkflowReplayIdentity i) in
  holds run st (Some (DurableRunState_new run)) ->
  carried run st (commit st q).1 /\
  forall res, (commit st q).2 = Ok res -> exists s',
    holds run (commit st q).1 (Some s') /\ from_durable_state s' = Ok DurableJournal_new.
Proof.
  intros q Hh. destruct (commit_carried st q eq_refl) as [Hc _]. split; [exact Hc|]. intros res Hres.
  pose proof (commit_meets st q (Some (DurableRunState_new run)) Hh eq_refl) as Hm. unfold meets in Hm.
  change (request_run_id q) with run in Hm. destruct (commit st q) as [st' x]. cbn [fst snd] in Hres, Hm |- *. subst x.
  destruct Hm as [[Hx Ho]|(e & He & _)]; [|done].
  pose proof (run_commit_single (DurableRunState_new run) q _ eq_refl eq_refl) as Hs.
  destruct (run_commit q _) as [o x]. cbn [fst snd] in *. subst x. destruct Hs as (s' & -> & Hs' & _). exists s'. split; [done|].
  inversion Hs' as [c e Hm Hi He Hk Hms Hlt Heq|rev Hi]; subst; [|by cbn in Hi; rewrite lookup_empty in Hi].
  apply apply_mutation_Ok in Hm. by inversion Hm.
Qed.
Lemma start_with_identity_begun run g scope cs i p st o :
  holds run st o -> begun run st (start_with_identity run g scope cs i p st).
Proof.
  intros Hh. unfold start_with_identity, and_then. cbn [fst snd].
  destruct (ensure_unfinished_workflow g); cbn [fst snd]; try (by apply begun_refused).
  pose proof (create_or_adopt_new run st o Hh) as [Hc Hn].
  destruct (create_or_adopt run st) as [st1 [rev|e|site|]]; cbn [fst snd] in *;
    try (eapply begun_carried; [exact Hc|by apply begun_refused]).
  eapply begun_carried; [exact Hc|]. destruct (Hn rev eq_refl) as [-> Hh1].
  change (IdempotencyKey_new "workflow-replay-identity") with (Ok (E := StoreError) bootstrap_key). cbn [map_err fst snd].
  pose proof (identity_commit_view run st1 i Hh1) as [Hc2 Hv]. cbv zeta in *.
  destruct (commit st1 _) as [st2 [res|e|site|]]; cbn [map_err fst snd] in *; try (split; [done|by intros ? [=]]).
  split; [done|]. destruct (Hv res eq_refl) as (s & Hs & Hj).
  destruct (build_Ok run g scope cs DurableJournal_new st2 (result_revision res)) as [t ->]. cbn.
  intros r [= <-]. split_and!; [done..|]. by exists s.
Qed.
Lemma restore_loaded_begun tree run g scope cs st p s :
  holds run st (Some s) -> begun run st (st, restore_loaded tree run g scope cs st p s).
Proof.
  intros Hh. split; [apply carried_refl|]. intros r Hr. cbn [fst snd] in *. unfold restore_loaded in Hr.
  apply bind_Ok in Hr as (g' & _ & Hr). apply bind_Ok in Hr as (j & Hj & Hr).
  assert (Hj' : from_durable_state s = Ok j) by by destruct (from_durable_state s); cbn in Hj; simplify_eq.
  destruct (build_Ok run g' scope cs j st (revision s)) as [t Hb]. rewrite Hb in Hr. cbn [mbind result_bind] in Hr.
  apply bind_Ok in Hr as (r1 & Hr1 & Hr). apply restore_attempts_Ok in Hr1 as (as_ & -> & _).
  injection Hr as <-. cbn. split_and!; [done..|]. by exists s.
Qed.
Lemma restore_run_begun tree run g scope configs st o :
  holds run st o -> begun run st (restore_run tree run g scope configs st).
Proof.
  intros Hh. unfold restore_run, and_then. cbn [fst snd].
  match goal with |- context [mbind ?k ?m] => destruct (mbind k m) as [cs|e|site|] end; cbn [fst snd]; try (by apply begun_refused).
  pose proof (load_of_loaded run st o Hh) as [Hc Hl].
  destruct (load_of run st) as [st1 [s|e|site|]]; cbn [fst snd] in *; try (split; [done|by intros ? [=]]).
  eapply begun_carried; [exact Hc|]. specialize (Hl s eq_refl).
  destruct (map_err RuntimeStore _) as [i|e|site|]; cbn [mbind result_bind]; try (by apply begun_refused).
  case_bool_decide; [by apply begun_refused|]. by apply restore_loaded_begun.
Qed.
Lemma start_run_begun run g scope configs st o :
  holds run st o -> begun run st (start_run_with_store run g scope configs st).
Proof.
  intros Hh. unfold start_run_with_store, and_then. cbn [fst snd].
  destruct (start_inputs g configs) as [[cs i]|e|site|]; cbn [fst snd]; try (by apply begun_refused).
  by eapply start_with_identity_begun.
Qed.
Definition declared_begun (run : RunId) (st : S) (p : host * S * result RuntimeError (Runtime S)) : Prop :=
  begun run st (p.1.2, p.2).
Lemma start_definition_begun bv run x fs n h st o :
  holds run st o -> declared_begun run st (start_from_definition_with_store bv run x fs n h st).
Proof.
  intros Hh. unfold declared_begun, start_from_definition_with_store, and_then. cbn [fst snd].
  destruct (preflight x fs) as [v|e|site|]; cbn [fst snd]; try (by apply begun_refused).
  destruct (reconstruct bv v fs n h) as [h' [[[g cs] scope]|e|site|]]; cbn [fst snd]; try (by apply begun_refused).
  pose proof (start_with_identity_begun run g scope cs (validated_identity v) DeclarativeDefinition st o Hh) as Hb.
  by destruct (start_with_identity _ _ _ _ _ _ _) as [st' y].
Qed.
Lemma restore_definition_begun bv run x fs n h st o :
  holds run st o -> declared_begun run st (restore_from_definition bv run x fs n h st).
Proof.
  intros Hh. unfold declared_begun, restore_from_definition, and_then. cbn [fst snd].
  destruct (preflight x fs) as [v|e|site|]; cbn [fst snd]; try (by apply begun_refused).
  pose proof (load_of_loaded run st o Hh) as [Hc Hl].
  destruct (load_of run st) as [st1 [s|e|site|]]; cbn [fst snd] in *; try (split; [done|by intros ? [=]]).
  eapply begun_carried; [exact Hc|]. specialize (Hl s eq_refl).
  destruct (ensure_restorable_definition_identity _ _) as [[]|e|site|]; cbn [fst snd]; try (by apply begun_refused).
  destruct (reconstruct bv v fs n h) as [h' [[[g cs] scope]|e|site|]]; cbn [fst snd]; try (by apply begun_refused).
  pose proof (restore_loaded_begun (host_tree h') run g scope cs st1 DeclarativeDefinition s Hl) as Hb.
  by destruct (restore_loaded _ _ _ _ _ _ _ _).
Qed.

(** ** Every step keeps the invariant *)
Definition tracks_world (run : RunId) (l : list EffectDispatchRequest) w : Prop :=
  tracks run (l ++ dispatched w) (store_in (owner w)) (runtime_in (owner w)).
Lemma tracks_proceed run l c x w r :
  tracks run (l ++ dispatched w) (store r) (Some r) -> served_safely r x -> tracks_world run l (proceed c x w).
Proof.
  intros T Hx. unfold tracks_world. destruct x as [d x|d q|d s es ps ts|d]; cbn in *.
  - by eapply tracks_advances.
  - rewrite app_assoc. by eapply tracks_requests.
  - by eapply tracks_advances.
  - eapply tracks_dies. by eapply tracks_advances.
Qed.
Lemma act_tracks run l m w : tracks_world run l w -> tracks_world run l (act m w).
Proof.
  intros T. destruct m as [q|i|n|i|tree|x| |].
  - revert T. unfold tracks_world, act, submit, mailbox_submit. cbv zeta. cbn [Driver.with_cells mailbox owner late].
    destruct (mailbox_closed (mailbox w)); [done|]. by destruct (owner w); try done; destruct (mailbox_waker (mailbox w)).
  - unfold act. destruct (late w !! i); [|done]. unfold answer_after_close. by destruct (complete_after_close _ _).
  - done.
  - unfold act. by destruct (spent w !! i).
  - assert (Hpoll : forall d, tracks run (l ++ dispatched w) (store (driver_runtime d)) (Some (driver_runtime d)) ->
      tracks_world run l (poll_owner tree d w)).
    { intros d Hd. unfold poll_owner. destruct (mailbox_next (mailbox w)) as [m []]; [|by eapply tracks_dies|done].
      eapply tracks_proceed; [exact Hd|apply serve_safely]. }
    revert T. unfold tracks_world at 1, act. destruct (owner w) eqn:Ho; intros T; try (by apply Hpoll);
      unfold tracks_world; by rewrite Ho.
  - revert T. unfold tracks_world at 1, act. destruct (owner w) eqn:Ho; intros T; try (unfold tracks_world; by rewrite Ho).
    eapply tracks_proceed; [exact T|]. apply safely_replies, drifts_settle.
  - revert T. unfold tracks_world at 1, act. destruct (owner w) as [d|d|d c q|d s es ps ts|d s [|c cs]|r s|st [c|]|st [|c cs]|st] eqn:Ho;
      intros T; try (unfold tracks_world; by rewrite Ho); try done.
    + unfold answer_after_close. by destruct (complete_after_close _ _).
    + by destruct (owner_guard_drop _).
  - revert T. unfold tracks_world at 1, act. destruct (owner w) eqn:Ho; intros T; try (unfold tracks_world; by rewrite Ho);
      by eapply tracks_dies.
Qed.
Lemma viewing_tracks run l r st :
  runtime_run_id r = run -> viewing r -> tracks run l st None -> carried run st (store r) -> tracks run l (store r) (Some r).
Proof.
  intros Hr (s & Hh & Hj) T Hc. rewrite Hr in Hh.
  destruct (tracks_carried _ _ _ _ _ Hc T) as [(o & Ho & Hcov) Hs _].
  pose proof (holds_unique _ _ _ _ Ho Hh) as ->.
  pose proof (proj1 (committed_inv _ _ (holds_committed _ _ _ Hh))) as L.
  split; [by exists (Some s)|done|]. intros ? [= <-]. split_and!; [done|done| |].
  - exists s. rewrite Hr. split; [done|]. intros o i. by rewrite (view_intents s L _ Hj).
  - intros q Hq. destruct (Hcov q Hq) as (? & [= <-] & _ & Hd & _). split.
    + rewrite (view_dispatches s L _ Hj), Hd. by eexists.
    + rewrite (journal_latest_dispatch_log _ _ (view_log s L _ Hj)), (log_latest_run s).
      unfold latest_dispatch. apply not_eq_None_Some. rewrite last_None. intros Hn.
      rewrite (li_dispatches _ L) in Hd. apply head_filter_Some in Hd as [Hin _].
      assert (Hf : {| dispatch_operation_id := rq_operation_id q; dispatch_attempt_id := rq_attempt_id q |} ∈ dispatches_of s (rq_operation_id q))
        by by apply list_elem_of_filter.
      rewrite Hn in Hf. by apply elem_of_nil in Hf.
Qed.
Lemma begun_tracks run l st p :
  begun run st p -> tracks run l st None ->
  match settle p p.1 with
  | Up r => tracks run l (store r) (Some r)
  | Down st' => tracks run l st' None
  end.
Proof.
  intros [Hc Hr] T. unfold settle. destruct p as [st' [r|e|site|]]; cbn in *; try by eapply tracks_carried.
  destruct (Hr r eq_refl) as (Hrun & Hst & Hv). eapply viewing_tracks; try done. by rewrite Hst.
Qed.
Lemma happens_tracks run l st e : tracks run l st None ->
  match happens run e (Down st) with
  | Up r => tracks run l (store r) (Some r)
  | Down st' => tracks run l st' None
  end.
Proof.
  intros T. destruct (tr_covered _ _ _ _ T) as (o & Hh & _).
  destruct e as [g scope configs|bv x fs n h|tree g scope configs|bv x fs n h|c|]; cbn [happens]; try exact T.
  - apply (begun_tracks run l st); [by eapply start_run_begun|done].
  - pose proof (begun_tracks run l st _ (start_definition_begun bv run x fs n h st o Hh) T) as H.
    by destruct (start_from_definition_with_store _ _ _ _ _ _ _) as [[h' st'] [r|e|site|]].
  - apply (begun_tracks run l st); [by eapply restore_run_begun|done].
  - pose proof (begun_tracks run l st _ (restore_definition_begun bv run x fs n h st o Hh) T) as H.
    by destruct (restore_from_definition _ _ _ _ _ _ _) as [[h' st'] [r|e|site|]].
Qed.
Lemma hosts_tracked run e h : tracked run h -> tracked run (hosts run e h).
Proof.
  intros T. unfold tracked in *. destruct e as [e|c| |m| |], h as [[st|r|w] l]; try exact T; unfold total in *; cbn -[happens] in *.
  - rewrite app_nil_r in T. apply (happens_tracks run l st e) in T.
    destruct (happens run e (Down st)); cbn; by rewrite app_nil_r.
  - rewrite app_nil_r in *. eapply tracks_advances; [apply moving_call|exact T].
  - by apply act_tracks.
  - destruct (owner w) eqn:Ho; cbn; rewrite ?Ho; try exact T. by rewrite app_nil_r.
  - by eapply tracks_dies.
  - rewrite app_nil_r. by eapply tracks_dies.
Qed.
Lemma swap_tracks run l st p :
  (forall o, holds run (store_at p) o -> holds run st o) ->
  tracks run l (store_at p) (runtime_at p) -> tracks run l (store_at (swap_place st p)) (runtime_at (swap_place st p)).
Proof.
  intros Hst [(o & Hh & Hc) Hs Hr].
  assert (Hx : store_at (swap_place st p) = st) by by destruct p as [| |w]; [..|cbn; destruct (owner w)].
  assert (Hy : forall r, runtime_at (swap_place st p) = Some r -> exists r0,
    runtime_at p = Some r0 /\ r = set_store st (store_revision r0) r0).
  { intros r. destruct p as [|r0|w]; cbn; [done|intros [= <-]; eauto|].
    destruct (owner w); cbn; intros; simplify_eq; eauto. }
  rewrite Hx. split; [by eauto|done|]. intros r (r0 & Hr0 & ->)%Hy. destruct (Hr r0 Hr0) as (Hrun & Hst0 & Hb & Hk).
  split_and!; [done..| |done]. destruct Hb as (s & Hbs & Hbi). exists s. split; [|done].
  cbn. rewrite Hrun in *. rewrite Hst0 in Hbs. by apply Hst.
Qed.
Lemma host_step_tracked run h h' : host_step run h h' -> tracked run h -> tracked run h'.
Proof.
  intros [e h0 He|st h0 Hst]; [apply hosts_tracked|]. intros T. unfold tracked in *.
  assert (Ht : total {| place := swap_place st (place h0); made := made h0 |} = total h0).
  { unfold total. by destruct h0 as [[] ]. }
  rewrite Ht. apply swap_tracks; [exact Hst|exact T].
Qed.
Lemma hosted_tracked run h : hosted run h -> tracked run h.
Proof.
  intros (st & Hst & Hh). revert Hh. apply (rtc_invariant (host_step run) (tracked run)).
  - split; [|split; [constructor|intros o; cbn; lia]|done]. exists None. split; [done|]. by intros q ?%elem_of_nil.
  - intros h1 h2 _ T Hs. by eapply host_step_tracked.
Qed.
End hosts.
