(* ===== verification/DriverShutdown.v ===== *)
(** * Shutting a driver down

    A shutdown pays the lifecycle item that is owed, completes the tasks of the
    effects known to have succeeded, and reports what the durable run leaves
    open. *)
From S2P Require Export Driver RuntimeStores RuntimeCalls.
#[local] Open Scope string_scope.
#[local] Open Scope nat_scope.
#[local] Open Scope list_scope.

(** ** The report *)
Definition needs_reconciliation (s : DurableRunState) (o : OperationId) : Prop :=
  exists i, intents s !! o = Some i /\ effect_state s o = OutcomeUnknown /\ semantics i = NonIdempotent.
Definition outcome_pending (s : DurableRunState) (o : OperationId) : Prop := effect_state s o = OutcomeUnknown.
Definition dispatch_pending (s : DurableRunState) (o : OperationId) : Prop :=
  exists i, intents s !! o = Some i /\ effect_state s o = Prepared /\ is_cancelled s (intent_task_id i) = false.
Definition failure_observed (s : DurableRunState) (o : OperationId) : Prop := effect_state s o = OutcomeKnown Failed.
(** The least operation of a kind. *)
Definition first_operation (s : DurableRunState) (P : OperationId -> Prop) `{forall o, Decision (P o)} : option OperationId :=
  head (filter P (set_iter (operation_ids s))).
#[export] Instance needs_reconciliation_dec s o : Decision (needs_reconciliation s o).
Proof.
  unfold needs_reconciliation. destruct (intents s !! o) as [i|]; [|right; by intros (i & ? & _)].
  destruct (decide (effect_state s o = OutcomeUnknown /\ semantics i = NonIdempotent)) as [[? ?]|Hn].
  - left. by exists i.
  - right. intros (i' & [= <-] & ?). auto.
Defined.
#[export] Instance dispatch_pending_dec s o : Decision (dispatch_pending s o).
Proof.
  unfold dispatch_pending. destruct (intents s !! o) as [i|]; [|right; by intros (i & ? & _)].
  destruct (decide (effect_state s o = Prepared /\ is_cancelled s (intent_task_id i) = false)) as [[? ?]|Hn].
  - left. by exists i.
  - right. intros (i' & [= <-] & ?). auto.
Defined.
#[export] Instance outcome_pending_dec s o : Decision (outcome_pending s o) := ltac:(unfold outcome_pending; apply _).
#[export] Instance failure_observed_dec s o : Decision (failure_observed s o) := ltac:(unfold failure_observed; apply _).
Definition shutdown_report (s : DurableRunState) : ShutdownStatus :=
  match first_operation s (needs_reconciliation s), first_operation s (outcome_pending s),
        first_operation s (dispatch_pending s), first_operation s (failure_observed s) with
  | Some o, _, _, _ => PendingReconciliation o
  | None, Some o, _, _ => PendingUnknown o
  | None, None, Some o, _ => PendingDispatch o
  | None, None, None, Some o => ObservedFailure o
  | None, None, None, None => Clean
  end.
Definition first_of (x y : option OperationId) : option OperationId := match x with Some _ => x | None => y end.
Lemma head_filter_cons {A} (P : A -> Prop) `{forall a, Decision (P a)} (a : A) l :
  head (filter P (a :: l)) = if bool_decide (P a) then Some a else head (filter P l).
Proof. rewrite filter_cons. case_bool_decide; by case_decide. Qed.
Lemma classify_operations_report s os pd pu f :
  (forall o, o ∈ os -> is_Some (intents s !! o)) ->
  classify_operations s os pd pu f =
  match head (filter (needs_reconciliation s) os), first_of pu (head (filter (outcome_pending s) os)),
        first_of pd (head (filter (dispatch_pending s) os)), first_of f (head (filter (failure_observed s) os)) with
  | Some o, _, _, _ => PendingReconciliation o
  | None, Some o, _, _ => PendingUnknown o
  | None, None, Some o, _ => PendingDispatch o
  | None, None, None, Some o => ObservedFailure o
  | None, None, None, None => Clean
  end.
Proof.
  revert pd pu f. induction os as [|o os IH]; intros pd pu f Hos.
  { cbn. destruct pd, pu, f; done. }
  destruct (Hos o) as [i Hi]; [by left|]. cbn [classify_operations]. unfold intent. rewrite Hi.
  specialize (fun pd pu f => IH pd pu f ltac:(intros o' Ho'; apply Hos; by right)).
  rewrite !head_filter_cons.
  assert (Hr : bool_decide (needs_reconciliation s o) =
    match effect_state s o with OutcomeUnknown => bool_decide (semantics i = NonIdempotent) | _ => false end).
  { destruct (effect_state s o) eqn:Es; try (apply bool_decide_eq_false; by intros (i' & _ & ? & _); congruence).
    apply bool_decide_ext. split; [by intros (i' & Hi' & _ & ?); congruence|]. intros Hsem. by exists i. }
  assert (Hu : bool_decide (outcome_pending s o) = match effect_state s o with OutcomeUnknown => true | _ => false end).
  { destruct (effect_state s o) eqn:Es;
      first [apply bool_decide_eq_false; unfold outcome_pending; congruence|by apply bool_decide_eq_true]. }
  assert (Hd : bool_decide (dispatch_pending s o) =
    match effect_state s o with Prepared => negb (is_cancelled s (intent_task_id i)) | _ => false end).
  { destruct (effect_state s o) eqn:Es; try (apply bool_decide_eq_false; by intros (i' & _ & ? & _); congruence).
    destruct (is_cancelled s (intent_task_id i)) eqn:Ec.
    - apply bool_decide_eq_false. intros (i' & Hi' & _ & ?). congruence.
    - apply bool_decide_eq_true. by exists i. }
  assert (Hf : bool_decide (failure_observed s o) = match effect_state s o with OutcomeKnown Failed => true | _ => false end).
  { destruct (effect_state s o) as [| |[|]|] eqn:Es;
      first [apply bool_decide_eq_false; unfold failure_observed; congruence|by apply bool_decide_eq_true]. }
  rewrite Hr, Hu, Hd, Hf.
  destruct (effect_state s o) as [| |[|]|]; try apply IH.
  - destruct (is_cancelled s (intent_task_id i)); rewrite IH; [done|]. by destruct pd.
  - rewrite IH. by destruct f.
  - destruct (bool_decide (semantics i = NonIdempotent)); [done|]. rewrite IH. by destruct pu.
Qed.
Lemma classify_shutdown_report s : classify_shutdown s = shutdown_report s.
Proof.
  unfold classify_shutdown, shutdown_report, first_operation. rewrite classify_operations_report; [done|].
  intros o Ho. apply elem_of_set_iter in Ho. by apply (elem_of_dom (intents s)) in Ho.
Qed.

(** ** The run *)
Section shutdown.
Context {S : Type} {DS : DurableStore S} {SF : StoreFormat} {SL : StoreFormatLaws} {C : StoreContract S}.
Implicit Types (r : Runtime S) (d : RuntimeDriver S).

(** A body that a coherent runtime carries through. *)
Definition carries_out {A} (s0 : DurableRunState) (p : RuntimeDriver S * result DriverError A) (Q : RuntimeDriver S -> A -> Prop) : Prop :=
  match p with
  | (d, Ok a) => arrives s0 (driver_runtime d) /\ Q d a
  | (_, Err _) => True
  | _ => False
  end.
Lemma carries_then {A B} s0 (p : RuntimeDriver S * result DriverError A) (k : RuntimeDriver S -> A -> RuntimeDriver S * result DriverError B) Q Q' :
  carries_out s0 p Q -> (forall d a, arrives s0 (driver_runtime d) -> Q d a -> carries_out s0 (k d a) Q') ->
  carries_out s0 (and_then p k) Q'.
Proof. intros Hp Hk. unfold and_then. destruct p as [d [a|e|site|]]; cbn in *; try done. destruct Hp. auto. Qed.
Lemma carries_runtime {A} s0 (m : op S A) d (Q : A -> Runtime S -> Prop) (Q' : RuntimeDriver S -> A -> Prop) :
  wp s0 m (driver_runtime d) Q ->
  (forall a r, Q a r -> arrives s0 r /\ Q' {| driver_runtime := r; pending_lifecycle := pending_lifecycle d |} a) ->
  carries_out s0 (rejected (on_runtime m d)) Q'.
Proof.
  intros Hm HQ. unfold wp, on_runtime in *. destruct (m (driver_runtime d)) as [r [a|e|site|]]; cbn; try done.
  by destruct (HQ a r Hm).
Qed.
Lemma carries_retry s0 d :
  arrives s0 (driver_runtime d) ->
  carries_out s0 (rejected (retry_pending_lifecycle d)) (fun d' _ => pending_lifecycle d' = None).
Proof.
  intros Ha. unfold retry_pending_lifecycle. destruct (pending_lifecycle d) as [i|] eqn:Hp; [|done].
  destruct Ha as [s Hl]. pose proof (wp_retry s0 i (driver_runtime d) s Hl) as Hw. unfold wp, on_runtime in *.
  cbn [set_lifecycle driver_runtime]. destruct (retry_execution_event i _) as [r [[]|e|site|]]; cbn; try done.
  destruct e; done.
Qed.
Definition same_journal r d : Prop :=
  journal (driver_runtime d) = journal r /\ completes (workflow r) (workflow (driver_runtime d)) /\ pending_lifecycle d = None.
Lemma carries_recover_all s0 os d :
  arrives s0 (driver_runtime d) -> pending_lifecycle d = None ->
  carries_out s0 (recover_all os d) (fun d' _ => same_journal (driver_runtime d) d' /\
    forall o, o ∈ os -> settled_effect (journal (driver_runtime d)) (workflow (driver_runtime d')) o).
Proof.
  revert d. induction os as [|o os IH]; intros d Ha Hp.
  { split; [done|]. split; [split_and!; [done|apply completes_refl|done]|]. by intros o ?%elem_of_nil. }
  cbn [recover_all]. eapply carries_then.
  { destruct Ha as [s Hl]. eapply carries_runtime; [by eapply wp_recover|].
    intros x r (Harr & Hj & Hc & Hs). split; [exact Harr|].
    exact (conj Hj (conj Hc (conj Hs Hp)) : (fun (d' : RuntimeDriver S) (_ : RecoveryDecision) =>
      journal (driver_runtime d') = journal (driver_runtime d) /\
      completes (workflow (driver_runtime d)) (workflow (driver_runtime d')) /\
      settled_effect (journal (driver_runtime d)) (workflow (driver_runtime d')) o /\ pending_lifecycle d' = None)
      {| driver_runtime := r; pending_lifecycle := pending_lifecycle d |} x). }
  intros d1 x Ha1 (Hj & Hc & Hs & Hp1). pose proof (IH d1 Ha1 Hp1) as Hi.
  destruct (recover_all os d1) as [d2 [[]|e|site|]]; cbn in *; try done.
  destruct Hi as (Ha2 & (Hj2 & Hc2 & Hp2) & Hs2). split; [done|]. split.
  { split_and!; [congruence|by eapply completes_trans|done]. }
  intros o' [->|Ho']%elem_of_cons; [|rewrite <- Hj; by apply Hs2].
  intros i Hi Hst Ht. apply (cs_completed _ _ Hc2). apply Hs; [done|done|].
  unfold graph_task in *. by rewrite (cs_topology _ _ Hc2) in Ht.
Qed.
Lemma carries_durable_state s0 d :
  arrives s0 (driver_runtime d) ->
  carries_out s0 (rejected (on_runtime durable_state d)) (fun d' s => live s0 (driver_runtime d') s /\
    journal (driver_runtime d') = journal (driver_runtime d) /\ workflow (driver_runtime d') = workflow (driver_runtime d) /\
    pending_lifecycle d' = pending_lifecycle d).
Proof.
  intros [s Hl]. pose proof Hl as [He Hc]. unfold on_runtime, durable_state, load_of.
  pose proof (load_meets (runtime_run_id (driver_runtime d)) (store (driver_runtime d)) (Some s) (co_holds _ _ Hc)) as Hm.
  unfold meets in Hm. destruct (load_run _ _) as [st x]. cbn in Hm. destruct Hm as [[-> Hh]|(e & -> & _)]; [|done].
  cbn. assert (live s0 (set_store st (store_revision (driver_runtime d)) (driver_runtime d)) s) by (split; [done|]; destruct Hc; by split).
  split; [by exists s|done].
Qed.

(** [shutdown_now] returns, and what it reports is what the store holds. *)
Lemma shutdown_outcome s0 d :
  arrives s0 (driver_runtime d) ->
  carries_out s0 (shutdown_now d) (fun d' status => pending_lifecycle d' = None /\ exists s,
    live s0 (driver_runtime d') s /\ status = shutdown_report s /\
    forall o, settled_effect (journal (driver_runtime d')) (workflow (driver_runtime d')) o).
Proof.
  intros Ha. eapply carries_then; [by apply carries_retry|]. intros d1 u Ha1 Hp1.
  eapply carries_then; [by apply carries_durable_state|]. intros d2 s Ha2 (Hl2 & Hj2 & Hw2 & Hp2).
  eapply carries_then; [apply carries_recover_all; [done|congruence]|]. intros d3 u3 Ha3 ((Hj3 & Hc3 & Hp3) & Hs3).
  rewrite Hp3. eapply carries_then; [by apply carries_durable_state|]. intros d4 s4 Ha4 (Hl4 & Hj4 & Hw4 & Hp4).
  split; [done|]. split; [congruence|]. exists s4. split; [done|]. split; [apply classify_shutdown_report|].
  intros o i Hi Hst. rewrite Hj4, Hj3 in Hi, Hst. rewrite Hw4. refine (Hs3 o _ i Hi Hst).
  destruct Hl2 as [_ Hc2]. unfold known_outcomes. apply list_elem_of_filter. rewrite <- (run_state _ _ Hc2), Hst.
  split; [done|]. apply elem_of_set_iter, (elem_of_dom (intents s)). pose proof (run_intent _ _ Hc2 o) as Hji.
  unfold journal_intent in Hji. rewrite Hi in Hji. destruct (intents s !! o); [by eexists|done].
Qed.
End shutdown.
