(* ===== verification/DriverSafety.v ===== *)
(** * What the driver guarantees

    Every command is answered, once and in order; every lifecycle observation is
    handed out, once and in order; an external effect is requested only after
    its dispatch is durable, and one that must not be repeated at most once over
    all the drivers of a run; and a shutdown reports the durable run exactly. *)
From S2P Require Export DriverMailbox DriverStream DriverShutdown DriverLife.
From S2P Require RuntimeSafety.
#[local] Open Scope string_scope.
#[local] Open Scope nat_scope.
#[local] Open Scope list_scope.

(** C5: every command is answered, once and in order.  Whatever handles submit,
    callers poll, dispatchers answer and wherever the owner is lost: each
    command is either waiting or was answered, exactly once; the reply has the
    type the command asks for, is in its cell until the caller has it, says
    that the owner was dropped or is shutting down only when that is so, and no
    caller or owner waits with its wake-up lost.  While the mailbox is open
    commands are answered in the order of their submission, and from every state
    the owner's own moves answer all of them. *)
Theorem commands_answered {S : Type} {DS : DurableStore S} (r : Runtime S) (ms : list move) :
  let w := moves ms (driver_new r) in
  ((reply <$> waiting w) ++ answered (answers w) ≡ₚ seq 0 (length (Driver.cells w))) /\
  (forall c x, (c, x) ∈ answers w -> suits (request c) x = true /\ explained (owner w) x /\
     exists s, Driver.cells w !! reply c = Some s /\ carries x s) /\
  (forall n s, Driver.cells w !! n = Some s -> response_waker s = true -> empty_cell s) /\
  (forall d, owner w = Parked d -> commands (mailbox w) = [] /\ mailbox_waker (mailbox w) = true) /\
  (mailbox_closed (mailbox w) = false ->
     answered (answers w) ++ (reply <$> waiting w) = seq 0 (length (Driver.cells w))) /\
  exists ms', Forall internal ms' /\ waiting (moves ms' w) = [].
Proof.
  intros w. assert (M : moored w) by apply moves_moored, moored_new. split_and!.
  - apply (bd_once _ _ _ _ (mo_board _ M)).
  - intros c x Hin. destruct (mo_replies _ M c x Hin). split_and!; [done..|].
    by apply (bd_answered _ _ _ _ (mo_board _ M)).
  - apply (bd_woken _ _ _ _ (mo_board _ M)).
  - apply (st_parked _ (mo_steady _ M)).
  - intros Hcl. by apply M.
  - by apply internal_answers_all.
Qed.

Section safety.
Context {S : Type} {DS : DurableStore S}.
Implicit Types (r : Runtime S) (d : RuntimeDriver S) (w : driver_world S).

(** The driver while it serves commands. *)
Definition serving (p : phase S) : option (RuntimeDriver S) :=
  match p with Polling d | Parked d | AwaitingEffect d _ _ => Some d | _ => None end.
Lemma fresh_tidy r : streams_new = Ok (streams r) -> pending_started r = None -> DriverStream.tidy [] r.
Proof.
  intros Hs Hp. split; [done|]. unfold streamed.
  revert Hs. generalize (streams r) as t. intros t Hs. vm_compute in Hs. injection Hs as <-. by exists "runtime-events", [].
Qed.

(** C10: the execution stream loses nothing.  Give a driver a runtime that was
    just started or restored.  At any time the observations handed out through
    drains are the first ones emitted, each once and in order; while commands
    are served the rest is in the buffer, and at most one item, rejected by a
    full buffer, is kept by the driver for a retry; and when the driver has
    exited the mailbox holds exactly what is left. *)
Theorem lifecycle_lossless r (ms : list move)
  (Hs : streams_new = Ok (streams r)) (Hp : pending_started r = None) :
  let w := moves ms (driver_new r) in
  exists sid ps, observed w `prefix_of` items_from sid 0 ps /\
  (forall d, serving (owner w) = Some d ->
     observed w ++ ll_items (execution_events (streams (driver_runtime d))) ++ option_list (pending_lifecycle d) =
       items_from sid 0 ps /\
     execution_sequencer (streams (driver_runtime d)) = sequencer_at sid (N.of_nat (length ps))) /\
  (forall r' status, owner w = DriverExited r' status ->
     observed w ++ final_items w = items_from sid 0 ps /\
     execution_sequencer (streams r') = sequencer_at sid (N.of_nat (length ps))).
Proof.
  intros w. assert (L : lossless w) by (apply moves_lossless; [apply moored_new|by apply lossless_new, fresh_tidy]).
  unfold lossless in L.
  assert (Hserve : forall d, afloat (observed w) d -> exists sid ps,
    observed w ++ ll_items (execution_events (streams (driver_runtime d))) ++ option_list (pending_lifecycle d) =
       items_from sid 0 ps /\
     execution_sequencer (streams (driver_runtime d)) = sequencer_at sid (N.of_nat (length ps))).
  { intros d Hd. unfold afloat in Hd. destruct (pending_lifecycle d); [destruct Hd as [Hd _]|destruct Hd as [_ Hd]];
      destruct Hd as (sid & ps & ? & ? & _); by exists sid, ps. }
  destruct (owner w) as [d|d|d c q|d s es p ts|d s cs|r0 s|st c|st cs|st];
    try (destruct (Hserve d L) as (sid & ps & H1 & H2); exists sid, ps; split;
         [by rewrite <- H1; apply prefix_app_r|split; [by intros ? [= <-]|done]]).
  - destruct L as (_ & _ & sid & ps & H1 & _). exists sid, ps. rewrite <- H1. split; [by apply prefix_app_r|done].
  - destruct L as (_ & _ & sid & ps & H1 & _). exists sid, ps. rewrite <- H1. split; [by apply prefix_app_r|done].
  - destruct L as (_ & _ & sid & ps & H1 & H2 & _). exists sid, ps. rewrite <- H1. split; [by apply prefix_app_r|].
    split; [done|]. by intros r' s' [= <- _].
  - destruct L as (q & rest & sid & ps & H1 & _). exists sid, ps. rewrite <- H1. split; [by apply prefix_app_r|done].
  - destruct L as (q & rest & sid & ps & H1 & _). exists sid, ps. rewrite <- H1. split; [by apply prefix_app_r|done].
  - destruct L as (q & rest & sid & ps & H1 & _). exists sid, ps. rewrite <- H1. split; [by apply prefix_app_r|done].
Qed.

Context {SF : StoreFormat} {SL : StoreFormatLaws} {C : StoreContract S}.

(** C4: external effects.  However a run is hosted, with any number of drivers,
    direct calls, deaths, restarts, and backend failures after which the same
    runtime goes on: no attempt is handed to a dispatcher twice, an operation
    that must not be repeated is handed to one at most once, and each request
    was durable before: the store holds the dispatch of its attempt, and the
    intent with its task and semantics. *)
Theorem effects_requested_once (run : RunId) (h : hosting) (Hh : hosted run h) :
  NoDup (rq_attempt_id <$> total h) /\
  (forall o, length (filter (unsafe_for o) (total h)) <= 1) /\
  forall q, q ∈ total h -> exists s, holds run (store_at (place h)) (Some s) /\ covers run s q.
Proof.
  destruct (hosted_tracked run h Hh) as [(o & Ho & Hc) [Hn Hs] _]. split_and!; [done..|].
  intros q Hq. destruct (Hc q Hq) as (s & -> & Hcov). by exists s.
Qed.

(** C11: shutdown is exact.  On a live run it returns; when it succeeds no
    lifecycle item is owed, the tasks of all effects known to have succeeded are
    completed, and the status is the one of the durable run: the least operation
    that needs reconciliation, else the least with an unknown outcome, else the
    least that was never dispatched and not cancelled, else the least that
    failed, else [Clean]. *)
Theorem shutdown_exact (run : RunId) r d (Hh : history run (Up r)) (Hd : driver_runtime d = r) :
  returns (shutdown_now d).2 /\
  forall d' status, shutdown_now d = (d', Ok status) ->
    pending_lifecycle d' = None /\
    exists s, holds run (store (driver_runtime d')) (Some s) /\ status = shutdown_report s /\
      forall o i, intents s !! o = Some i -> effect_state s o = OutcomeKnown Succeeded ->
        is_Some (graph_task (workflow (driver_runtime d')) (intent_task_id i)) ->
        WorkflowGraph.is_completed (workflow (driver_runtime d')) (intent_task_id i) = true.
Proof.
  destruct (history_sound _ _ Hh) as [Hrun [s Hc]].
  assert (Ha : arrives s (driver_runtime d)) by (rewrite Hd; exists s; by apply live_refl).
  pose proof (shutdown_outcome s d Ha) as Ho.
  destruct (shutdown_now d) as [d1 [x|e|site|]]; try done. split; [done|]. intros d' status [= <- <-].
  destruct Ho as (Ha' & Hp & s' & Hl & Hx & Hset). split; [done|]. exists s'.
  pose proof Hl as [He Hc']. split; [|split; [done|]].
  - pose proof (co_holds _ _ Hc') as Hh'. rewrite <- (coherent_run _ _ Hc'), (ex_run _ _ He), (coherent_run _ _ Hc), Hrun in Hh'. done.
  - intros o i Hi Hst Ht. apply is_completed_spec. apply (Hset o i); [|by rewrite (run_state _ _ Hc')|done].
    pose proof (run_intent _ _ Hc' o) as Hj. rewrite Hi in Hj. unfold journal_intent in Hj.
    destruct (journal_intents _ !! o); cbn in Hj; by simplify_eq.
Qed.
End safety.

(** ** A run with a driver: a task without an effect, a call that must not be
    repeated and whose outcome the dispatcher cannot tell, and a shutdown. *)
#[local] Existing Instance sample_format.
#[local] Existing Instance sample_format_laws.
Definition driven_moves : list move :=
  [Submits Wake; OwnerPolled Runtime_start; Polls 0; Submits Wake; Submits DrainExecutionEvents; Submits Shutdown;
   OwnerPolled Runtime_start; EffectReturns (inl (UnknownOutcome "lost")); OwnerPolled Runtime_start;
   OwnerPolled Runtime_start; OwnerContinues; OwnerContinues].
Definition driven_events : list host_event :=
  [HostStarts (StartRun RuntimeSafety.coordinated [0] RuntimeSafety.coordinated_configs); HostDrives] ++
  (HostMoves <$> driven_moves) ++ [HostTakes].
Definition idle_host : hosting (S := InMemoryDurableStore) := {| place := Idle_host InMemoryDurableStore_new; made := [] |}.
Definition driven (n : nat) : hosting (S := InMemoryDurableStore) :=
  foldl (fun h e => hosts "run" e h) idle_host (take n driven_events).
Lemma driven_hosted n : hosted "run" (driven n).
Proof.
  exists InMemoryDurableStore_new. split; [split; [apply rtc_refl|apply lookup_empty]|].
  assert (Hok : Forall (fun e => forall e', e = HostStarts e' -> event_ok e') (take n driven_events)).
  { apply Forall_take. repeat (constructor; [intros ? [= <-]; try apply RuntimeSafety.coordinated_reachable|]). constructor. }
  unfold driven. fold idle_host. revert Hok. generalize idle_host. generalize (take n driven_events).
  intros es. induction es as [|e es IH]; intros h Hes; [reflexivity|].
  apply Forall_cons in Hes as [He Hes]. cbn [foldl]. eapply rtc_l; [by apply host_event_step|by apply IH].
Qed.
Definition holding (h : hosting (S := InMemoryDurableStore)) (P : Runtime InMemoryDurableStore -> Prop) : Prop :=
  match place h with Holding r => P r | _ => False end.

Lemma lifecycle_lossless_witness :
  holding (driven 1) (fun r =>
    let w := moves driven_moves (driver_new r) in
    length (observed w) = 3 /\
    exists r' status sid ps, owner w = DriverExited r' status /\ observed w ++ final_items w = items_from sid 0 ps).
Proof.
  assert (Hup : holding (driven 1) (fun r => streams_new = Ok (streams r) /\ pending_started r = None /\
    length (observed (moves driven_moves (driver_new r))) = 3 /\
    match owner (moves driven_moves (driver_new r)) with DriverExited _ _ => True | _ => False end)).
  { vm_compute. split_and!; reflexivity. }
  unfold holding in *. destruct (place (driven 1)) as [st|r|w]; [destruct Hup| |destruct Hup].
  destruct Hup as (Hs & Hp & Hl & Ho).
  destruct (lifecycle_lossless r driven_moves Hs Hp) as (sid & ps & _ & _ & Hx).
  split; [exact Hl|]. destruct (owner (moves driven_moves (driver_new r))) as [| | | | |r' status| | |] eqn:E; try destruct Ho.
  exists r', status, sid, ps. split; [reflexivity|]. exact (proj1 (Hx r' status eq_refl)).
Defined.

Lemma effects_requested_once_witness :
  length (total (driven 15)) = 1 /\
  length (filter (unsafe_for "op") (total (driven 15))) <= 1 /\
  exists q s, q ∈ total (driven 15) /\ holds "run" (store_at (place (driven 15))) (Some s) /\ covers "run" s q.
Proof.
  destruct (effects_requested_once "run" (driven 15) (driven_hosted 15)) as (_ & Hone & Hcov).
  assert (Hlen : length (total (driven 15)) = 1) by (vm_compute; reflexivity).
  split; [exact Hlen|]. split; [apply Hone|].
  destruct (total (driven 15)) as [|q l]; [discriminate|].
  destruct (Hcov q (list_elem_of_here q l)) as (s & Hs & Hc). exists q, s. split; [apply list_elem_of_here|]. split; assumption.
Defined.

Lemma shutdown_exact_witness :
  RuntimeSafety.up (RuntimeSafety.coordinated_after 3) (fun r => exists d' s,
    shutdown_now {| driver_runtime := r; pending_lifecycle := None |} = (d', Ok (PendingReconciliation "op")) /\
    holds "run" (store (driver_runtime d')) (Some s) /\ shutdown_report s = PendingReconciliation "op").
Proof.
  assert (Hup : RuntimeSafety.up (RuntimeSafety.coordinated_after 3) (fun r =>
    (shutdown_now {| driver_runtime := r; pending_lifecycle := None |}).2 = Ok (PendingReconciliation "op"))).
  { vm_compute. reflexivity. }
  pose proof (RuntimeSafety.coordinated_history 3) as Hh.
  destruct (RuntimeSafety.coordinated_after 3) as [r|st]; [|exact Hup]. cbn [RuntimeSafety.up] in *.
  destruct (shutdown_exact "run" r {| driver_runtime := r; pending_lifecycle := None |} Hh eq_refl) as [_ Hx].
  destruct (shutdown_now _) as [d' x]. cbn [snd] in Hup. subst x.
  destruct (Hx d' _ eq_refl) as (_ & s & Hs & He & _). exists d', s. split; [reflexivity|]. split; [exact Hs|]. symmetry. exact He.
Defined.
