(* ===== verification/Assembly.v ===== *)
(** * Activation and release of a composition:
    [crates/runtime-composition/src/assembly.rs] and the activating half of
    [plan.rs]

    Activation registers the plugins of each module, instantiates and starts
    their fibers and calls the module's hook; cleanup undoes what was acquired,
    in reverse.  Its progress is a ledger that outlives the future of a release.
    Calls on fibers are tasks of the world of [Fiber]; a step below runs from one
    await to the next, or one round of the loop of a sweep. *)
From S2P Require Export Composition Driver.
#[local] Open Scope string_scope.
#[local] Open Scope nat_scope.
#[local] Open Scope list_scope.

(** ** Reports and errors: the rest of [error.rs] *)
Inductive CleanupResource :=
  | DisposeHook
  | OwnedFiber (p : Id)
  | OwnedRegistration (p : Id).
#[export] Instance CleanupResource_eq_dec : EqDecision CleanupResource.
Proof. solve_decision. Defined.
Record RollbackFailure := { failed_module : Id; failed_resource : CleanupResource; failure_reason : string }.
Record RollbackReport := { cleaned : list Id; failures : list RollbackFailure }.
Definition RollbackReport_default : RollbackReport := {| cleaned := []; failures := [] |}.
Definition rollback_is_success (r : RollbackReport) : bool := match failures r with [] => true | _ => false end.
Definition RollbackFailure_display (f : RollbackFailure) : string :=
  match failed_resource f with
  | DisposeHook => "dispose hook failed: " +:+ failure_reason f
  | OwnedFiber p => "fiber " +:+ Id_display p +:+ " disposal failed: " +:+ failure_reason f
  | OwnedRegistration p =>
      "plugin " +:+ Id_display p +:+ " registration unregistration failed: " +:+ failure_reason f
  end.
Inductive ActivationStage :=
  | RegistrationStage (p : Id) (reason : string)
  | InstantiateStage (p : Id) (reason : string)
  | StartStage (p : Id) (reason : string)
  | HookStage (reason : string).
Inductive ConstructionStage := ConstructionStart | ConstructionRestore.
(** The variants of [CompositionError] that [Composition.CompositionError] lacks. *)
Inductive ActivationError :=
  | ConfigurationRejected (e : CompositionError)
  | ActivationFailed (m : Id) (stage : ActivationStage)
  | ReconciliationFailed (reason : string)
  | RollbackFailed (fs : list RollbackFailure)
  | RuntimeConstructionFailed (stage : ConstructionStage) (source : RuntimeError).
Record StartupFailure := { startup_cause : ActivationError; startup_rollback : RollbackReport }.
Record CompositionShutdownFailure := { shutdown_rollback : RollbackReport }.
Definition CompositionShutdownFailure_display (f : CompositionShutdownFailure) : string :=
  "composition shutdown collected " +:+ pretty (length (failures (shutdown_rollback f))) +:+ " cleanup failure(s)".
Inductive OwnerLossReleaseError := OwnerStillRunning | OrderlyShutdownCompleted | LossAlreadyReleased.
Definition OwnerLossReleaseError_display (e : OwnerLossReleaseError) : string :=
  match e with
  | OwnerStillRunning =>
      "the composition's driver still owns and serves the runtime; owner-loss release disposed nothing"
  | OrderlyShutdownCompleted =>
      "the composition's driver completed an orderly shutdown; release through dispose_after_driver with the returned DriverExit"
  | LossAlreadyReleased => "the composition's cleanup flow already completed exactly once; nothing remains to release"
  end.

(** ** The ledger *)
Record ActivatedModule := {
  activated_id : Id;
  activated_plugins : list Id;
  activated_fibers : list (Id * FiberId);
  activated_on_dispose : option LifecycleHook;
  hook_armed : bool
}.
Definition ActivatedModule_new (m : Id) (h : option LifecycleHook) : ActivatedModule :=
  {| activated_id := m; activated_plugins := []; activated_fibers := []; activated_on_dispose := h; hook_armed := false |}.
Inductive CleanupAuthority := RegistryAuthority | OwnerLostAuthority.
(** A parked step: the future of a hook, and whether it panicked; or the task
    that disposes of a fiber, or of the fibers of a runtime that was taken from
    the registry. *)
Inductive InFlight :=
  | HookInFlight (m : Id) (panicked : bool)
  | FiberInFlight (m p : Id) (t : TaskId)
  | RemovalInFlight (m p : Id) (t : TaskId).
Record CleanupLedger := {
  queue : list ActivatedModule;
  current : option Id;
  current_hook : option LifecycleHook;
  current_fibers : list (Id * FiberId);
  current_plugins : list Id;
  current_clean : bool;
  in_flight : option InFlight;
  report : RollbackReport;
  orderly_release_accepted : bool
}.
Definition CleanupLedger_new (activated : list ActivatedModule) : CleanupLedger :=
  {| queue := activated; current := None; current_hook := None; current_fibers := []; current_plugins := [];
     current_clean := true; in_flight := None; report := RollbackReport_default; orderly_release_accepted := false |}.
(** [Vec::pop] *)
Definition pop {A} (l : list A) : option (list A * A) :=
  match reverse l with [] => None | x :: l => Some (reverse l, x) end.
Definition begin_next (l : CleanupLedger) : option CleanupLedger :=
  match pop (queue l) with
  | None => None
  | Some (rest, a) =>
      Some {| queue := rest; current := Some (activated_id a);
              current_hook := if hook_armed a then activated_on_dispose a else None;
              current_fibers := activated_fibers a; current_plugins := activated_plugins a; current_clean := true;
              in_flight := in_flight l; report := report l; orderly_release_accepted := orderly_release_accepted l |}
  end.
Definition record_failure (m : Id) (c : CleanupResource) (reason : string) (l : CleanupLedger) : CleanupLedger :=
  {| queue := queue l; current := current l; current_hook := current_hook l; current_fibers := current_fibers l;
     current_plugins := current_plugins l; current_clean := false; in_flight := in_flight l;
     report := {| cleaned := cleaned (report l);
                  failures := failures (report l) ++
                    [{| failed_module := m; failed_resource := c; failure_reason := reason |}] |};
     orderly_release_accepted := orderly_release_accepted l |}.
Definition finish_current (l : CleanupLedger) : CleanupLedger :=
  match current l with
  | None => l
  | Some m =>
      {| queue := queue l; current := None; current_hook := current_hook l; current_fibers := current_fibers l;
         current_plugins := current_plugins l; current_clean := true; in_flight := in_flight l;
         report := if current_clean l
                   then {| cleaned := cleaned (report l) ++ [m]; failures := failures (report l) |} else report l;
         orderly_release_accepted := orderly_release_accepted l |}
  end.
Definition ledger_is_complete (l : CleanupLedger) : bool :=
  match queue l, current l, in_flight l with [], None, None => true | _, _, _ => false end.
Definition park (x : option InFlight) (h : option LifecycleHook) (fs : list (Id * FiberId)) (ps : list Id)
  (l : CleanupLedger) : CleanupLedger :=
  {| queue := queue l; current := current l; current_hook := h; current_fibers := fs; current_plugins := ps;
     current_clean := current_clean l; in_flight := x; report := report l;
     orderly_release_accepted := orderly_release_accepted l |}.
Definition set_in_flight (x : option InFlight) (l : CleanupLedger) : CleanupLedger :=
  park x (current_hook l) (current_fibers l) (current_plugins l) l.
Definition accept_release (l : CleanupLedger) : CleanupLedger :=
  {| queue := queue l; current := current l; current_hook := current_hook l; current_fibers := current_fibers l;
     current_plugins := current_plugins l; current_clean := current_clean l; in_flight := in_flight l;
     report := report l; orderly_release_accepted := true |}.

(** ** A sweep *)
(** What the host's hook does: its closure or its future may panic. *)
Inductive hook_answer := HookPending | HookResolves (failure : option string) | HookPanics.
Inductive polled_step :=
  | StepPending
  | StepPanics
  | StepResolves (m : Id) (c : CleanupResource) (failure : option string).
(** [dispose_fiber] and [dispose_registration], read off their task; the future
    of a task that is gone has panicked, and panics whenever it is polled. *)
Definition fiber_failure (r : returned) : option string :=
  match r with Refused e => Some (FiberError_display e) | _ => None end.
Definition removal_failure (p : Id) (es : list FiberError) : option string :=
  match swept_result p es with Err e => Some (RegistryError_display e) | _ => None end.
Definition await_parked (w : world) (x : InFlight) (a : hook_answer) : polled_step :=
  match x with
  | HookInFlight m true => StepPanics
  | HookInFlight m false =>
      match a with
      | HookPending => StepPending
      | HookResolves failure => StepResolves m DisposeHook failure
      | HookPanics => StepPanics
      end
  | FiberInFlight m p t =>
      match w_tasks w !! t with
      | None => StepPanics
      | Some (OnFiber _ (Returned r)) => StepResolves m (OwnedFiber p) (fiber_failure r)
      | Some _ => StepPending
      end
  | RemovalInFlight m p t =>
      match w_tasks w !! t with
      | None => StepPanics
      | Some (Swept _ es) => StepResolves m (OwnedRegistration p) (removal_failure p es)
      | Some _ => StepPending
      end
  end.
(** The task of a step; its name is not given to another task if it is gone. *)
Definition parked_task (x : InFlight) : option TaskId :=
  match x with HookInFlight _ _ => None | FiberInFlight _ _ t | RemovalInFlight _ _ t => Some t end.
Definition stays_gone (t : option TaskId) (w w' : world) : Prop :=
  forall u, t = Some u -> w_tasks w !! u = None -> w_tasks w' !! u = None.
Definition poisoned (x : InFlight) : InFlight := match x with HookInFlight m _ => HookInFlight m true | x => x end.

(** The history of a sweep: the steps it began, and what became of them. *)
Inductive cleanup_step :=
  | CallsHook (m : Id) (h : LifecycleHook)
  | DisposesFiber (m p : Id) (f : FiberId)
  | Unregisters (m p : Id).
Definition step_key (s : cleanup_step) : Id * CleanupResource :=
  match s with
  | CallsHook m _ => (m, DisposeHook)
  | DisposesFiber m p _ => (m, OwnedFiber p)
  | Unregisters m p => (m, OwnedRegistration p)
  end.
Inductive cleanup_event :=
  | Begins (s : cleanup_step)
  | Settles (k : Id * CleanupResource) (failure : option string).
Inductive swept_to := Continues | Awaits | Finishes (r : RollbackReport) | Breaks.
Record sweep_round := {
  sr_world : world;
  sr_ledger : CleanupLedger;
  sr_events : list cleanup_event;
  sr_to : swept_to
}.
Definition registry_authority_lost : string :=
  "the capability registry authority was released with the runtime owner, so the registration could not be unregistered".

(** The round that awaits a parked step. *)
Definition sweep_parked (a : hook_answer) (w : world) (x : InFlight) (l : CleanupLedger) : sweep_round :=
  match await_parked w x a with
  | StepPending => {| sr_world := w; sr_ledger := l; sr_events := []; sr_to := Awaits |}
  | StepPanics => {| sr_world := w; sr_ledger := set_in_flight (Some (poisoned x)) l; sr_events := []; sr_to := Breaks |}
  | StepResolves m c failure =>
      let l := set_in_flight None l in
      {| sr_world := w; sr_ledger := match failure with Some reason => record_failure m c reason l | None => l end;
         sr_events := [Settles (m, c) failure]; sr_to := Continues |}
  end.
(** The round that takes up the next step of the module [m]; a future it parks
    is the task [t]. *)
Definition sweep_module (t : TaskId) (a : hook_answer) (authority : CleanupAuthority) (w : world) (m : Id)
  (l : CleanupLedger) : sweep_round :=
  match current_hook l with
  | Some h =>
      match a with
      | HookPanics => {| sr_world := w; sr_ledger := l; sr_events := []; sr_to := Breaks |}
      | _ => {| sr_world := w;
                sr_ledger := park (Some (HookInFlight m false)) None (current_fibers l) (current_plugins l) l;
                sr_events := [Begins (CallsHook m h)]; sr_to := Continues |}
      end
  | None =>
  match pop (current_fibers l) with
  | Some (fs, (p, f)) =>
      {| sr_world := call w t f Dispose; sr_ledger := park (Some (FiberInFlight m p t)) None fs (current_plugins l) l;
         sr_events := [Begins (DisposesFiber m p f)]; sr_to := Continues |}
  | None =>
  match pop (current_plugins l) with
  | Some (ps, p) =>
      match authority with
      | RegistryAuthority =>
          match registry_take w p with
          | (w, Some r) =>
              {| sr_world := dispose_fibers w t (plugin_object r);
                 sr_ledger := park (Some (RemovalInFlight m p t)) None [] ps l;
                 sr_events := [Begins (Unregisters m p)]; sr_to := Continues |}
          | (w, None) =>
              {| sr_world := w; sr_ledger := park None None [] ps l;
                 sr_events := [Begins (Unregisters m p); Settles (m, OwnedRegistration p) None]; sr_to := Continues |}
          end
      | OwnerLostAuthority =>
          {| sr_world := w;
             sr_ledger := record_failure m (OwnedRegistration p) registry_authority_lost (park None None [] ps l);
             sr_events := [Begins (Unregisters m p); Settles (m, OwnedRegistration p) (Some registry_authority_lost)];
             sr_to := Continues |}
      end
  | None => {| sr_world := w; sr_ledger := finish_current l; sr_events := []; sr_to := Continues |}
  end end end.
(** One round of the loop of [run_sweep]. *)
Definition run_sweep (t : TaskId) (a : hook_answer) (authority : CleanupAuthority) (w : world) (l : CleanupLedger) :
  sweep_round :=
  match in_flight l with
  | Some x => sweep_parked a w x l
  | None =>
      match current l with
      | Some m => sweep_module t a authority w m l
      | None =>
          match begin_next l with
          | None => {| sr_world := w; sr_ledger := l; sr_events := []; sr_to := Finishes (report l) |}
          | Some l =>
              match current l with
              | Some m => sweep_module t a authority w m l
              | None => {| sr_world := w; sr_ledger := l; sr_events := []; sr_to := Breaks |}
              end
          end
      end
  end.

(** ** Assemblies and handles *)
Record RuntimeAssembly (S : Type) := {
  assembly_runtime : Runtime S;
  assembly_order : list Id;
  assembly_owned : list ActivatedModule;
  assembly_config : HostConfig
}.
Arguments assembly_runtime {S} _.
Arguments assembly_order {S} _.
Arguments assembly_owned {S} _.
Arguments assembly_config {S} _.
Arguments Build_RuntimeAssembly {S} _ _ _ _.
(** [shutdown], once its sweep has reported. *)
Definition shutdown_outcome (r : RollbackReport) : result CompositionShutdownFailure RollbackReport :=
  if rollback_is_success r then Ok r else Err {| shutdown_rollback := r |}.
(** The identity of a driver, the address of its mailbox. *)
Definition DriverOwner : Set := N.
Record DriverExit (S : Type) := { exit_runtime : Runtime S; exit_status : ShutdownStatus; exit_owner : DriverOwner }.
Arguments exit_runtime {S} _.
Arguments exit_status {S} _.
Arguments exit_owner {S} _.
Arguments Build_DriverExit {S} _ _ _.
Record CompositionHandle := {
  handle_order : list Id;
  handle_ledger : option CleanupLedger;
  driver_owner : DriverOwner
}.
Definition set_ledger (l : option CleanupLedger) (h : CompositionHandle) : CompositionHandle :=
  {| handle_order := handle_order h; handle_ledger := l; driver_owner := driver_owner h |}.
Inductive CompositionReleaseRejection (S : Type) :=
  | ForeignDriverExit (exit : DriverExit S)
  | ExitAlreadyReleased (exit : DriverExit S)
  | OrderlySweepInterrupted.
Arguments ForeignDriverExit {S} _.
Arguments ExitAlreadyReleased {S} _.
Arguments OrderlySweepInterrupted {S}.
Definition into_exit {S} (x : CompositionReleaseRejection S) : option (DriverExit S) :=
  match x with ForeignDriverExit e | ExitAlreadyReleased e => Some e | OrderlySweepInterrupted => None end.
Record CompositionDriverShutdown (S : Type) := {
  released_report : RollbackReport;
  driver_status : ShutdownStatus;
  released_runtime : Runtime S
}.
Arguments released_report {S} _.
Arguments driver_status {S} _.
Arguments released_runtime {S} _.
Arguments Build_CompositionDriverShutdown {S} _ _ _.
Definition CompositionReleaseOutcome (S : Type) : Type := CompositionReleaseRejection S + CompositionDriverShutdown S.
Definition is_released {S} (x : CompositionReleaseOutcome S) : bool := match x with inr _ => true | inl _ => false end.
Definition into_released {S} (x : CompositionReleaseOutcome S) :
  result (CompositionReleaseRejection S) (CompositionDriverShutdown S) :=
  match x with inr shutdown => Ok shutdown | inl rejection => Err rejection end.
(** A release in progress. *)
Inductive release_future (S : Type) :=
  | Rejecting (x : CompositionReleaseRejection S)
  | OrderlySweep (r : Runtime S) (status : ShutdownStatus)
  | LossSweep.
Arguments Rejecting {S} _.
Arguments OrderlySweep {S} _ _.
Arguments LossSweep {S}.

Section handle.
Context {S : Type} `{DS : DurableStore S}.
Implicit Types (h : CompositionHandle) (e : DriverExit S).

Definition into_driver (id : DriverOwner) (a : RuntimeAssembly S) : driver_world S * CompositionHandle :=
  (driver_new (assembly_runtime a),
   {| handle_order := assembly_order a; handle_ledger := Some (CleanupLedger_new (assembly_owned a)); driver_owner := id |}).
(** The decision is taken, and recorded, when the method is called. *)
Definition dispose_after_driver e h : CompositionHandle * release_future S :=
  if bool_decide (driver_owner h <> exit_owner e) then (h, Rejecting (ForeignDriverExit e))
  else match handle_ledger h with
  | None => (h, Rejecting (ExitAlreadyReleased e))
  | Some l =>
      if orderly_release_accepted l then (h, Rejecting OrderlySweepInterrupted)
      else (set_ledger (Some (accept_release l)) h, OrderlySweep (exit_runtime e) (exit_status e))
  end.
(** Up to the sweep; it runs when the future is first polled. *)
Definition release_after_owner_loss (state : DriverOwnerState) h : result OwnerLossReleaseError unit :=
  match handle_ledger h with
  | None => Err LossAlreadyReleased
  | Some l =>
      match state with
      | OwnerIsDropped => Ok tt
      | OwnerRunning => Err OwnerStillRunning
      | OwnerShutdown => if orderly_release_accepted l then Ok tt else Err OrderlyShutdownCompleted
      end
  end.
Definition authority_of (x : release_future S) : CleanupAuthority :=
  match x with OrderlySweep _ _ => RegistryAuthority | _ => OwnerLostAuthority end.

(** ** A composition between its driver and its handle

    [taken]: the driver's task has returned its exit to the host; [exits] are
    those the host holds, its own or of other drivers; [releasing] is the future
    of the release in progress.  The history: the steps [begun], those [settled]
    and what releases have answered. *)
Inductive release_answer :=
  | AnswersRelease (x : CompositionReleaseOutcome S)
  | AnswersLoss (x : OwnerLossReleaseError + RollbackReport).
Record composition := {
  capability_world : world;
  driver : driver_world S;
  taken : bool;
  exits : list (DriverExit S);
  composition_handle : CompositionHandle;
  releasing : option (release_future S);
  begun : list cleanup_step;
  settled : list (Id * CleanupResource * option string);
  release_answers : list release_answer
}.
Definition composition_new (w : world) (id : DriverOwner) (a : RuntimeAssembly S) : composition :=
  let '(d, h) := into_driver id a in
  {| capability_world := w; driver := d; taken := false; exits := []; composition_handle := h; releasing := None;
     begun := []; settled := []; release_answers := [] |}.
Definition set_host (es : list (DriverExit S)) h (x : option (release_future S)) (l : list release_answer)
  (c : composition) : composition :=
  {| capability_world := capability_world c; driver := driver c; taken := taken c; exits := es;
     composition_handle := h; releasing := x; begun := begun c; settled := settled c; release_answers := l |}.
Definition begins (e : cleanup_event) : option cleanup_step := match e with Begins s => Some s | _ => None end.
Definition settles_step (e : cleanup_event) : option (Id * CleanupResource * option string) :=
  match e with Settles k x => Some (k, x) | _ => None end.
(** What a round of the sweep of [x] does to the composition. *)
Definition after_round (x : release_future S) (r : sweep_round) (c : composition) : composition :=
  let h := composition_handle c in
  {| capability_world := sr_world r; driver := driver c; taken := taken c; exits := exits c;
     composition_handle := set_ledger (match sr_to r with Finishes _ => None | _ => Some (sr_ledger r) end) h;
     releasing := match sr_to r with Continues | Awaits => Some x | Finishes _ | Breaks => None end;
     begun := begun c ++ omap begins (sr_events r); settled := settled c ++ omap settles_step (sr_events r);
     release_answers := release_answers c ++
       match sr_to r, x with
       | Finishes report, OrderlySweep r status =>
           [AnswersRelease (inr {| released_report := report; driver_status := status; released_runtime := r |})]
       | Finishes report, _ => [AnswersLoss (inr report)]
       | _, _ => []
       end |}.
Definition poll_release (t : TaskId) (a : hook_answer) (c : composition) : composition :=
  let h := composition_handle c in
  match releasing c with
  | None => c
  | Some (Rejecting x) =>
      set_host (exits c ++ option_list (into_exit x)) h None (release_answers c ++ [AnswersRelease (inl x)]) c
  | Some x =>
      match handle_ledger h with
      | None => c
      | Some l => after_round x (run_sweep t a (authority_of x) (capability_world c) l) c
      end
  end.
Definition call_dispose (i : nat) (c : composition) : composition :=
  match releasing c, exits c !! i with
  | None, Some e =>
      let '(h, x) := dispose_after_driver e (composition_handle c) in
      set_host (delete i (exits c)) h (Some x) (release_answers c) c
  | _, _ => c
  end.
Definition call_owner_loss (c : composition) : composition :=
  match releasing c with
  | Some _ => c
  | None =>
      match release_after_owner_loss (owner_state (mailbox (driver c))) (composition_handle c) with
      | Ok _ => set_host (exits c) (composition_handle c) (Some LossSweep) (release_answers c) c
      | Err e => set_host (exits c) (composition_handle c) None (release_answers c ++ [AnswersLoss (inl e)]) c
      | _ => c
      end
  end.
Definition take_exit (c : composition) : composition :=
  match owner (driver c) with
  | DriverExited r status =>
      if taken c then c else
      {| capability_world := capability_world c; driver := driver c; taken := true;
         exits := exits c ++ [{| exit_runtime := r; exit_status := status; exit_owner := driver_owner (composition_handle c) |}];
         composition_handle := composition_handle c; releasing := releasing c; begun := begun c; settled := settled c;
         release_answers := release_answers c |}
  | _ => c
  end.
Definition with_driver (d : driver_world S) (c : composition) : composition :=
  {| capability_world := capability_world c; driver := d; taken := taken c; exits := exits c;
     composition_handle := composition_handle c; releasing := releasing c; begun := begun c; settled := settled c;
     release_answers := release_answers c |}.
Definition with_world (w : world) (c : composition) : composition :=
  {| capability_world := w; driver := driver c; taken := taken c; exits := exits c;
     composition_handle := composition_handle c; releasing := releasing c; begun := begun c; settled := settled c;
     release_answers := release_answers c |}.

(** What a host does: its driver runs, the driver's task returns, an exit of
    another driver turns up, an exit is presented, an owner loss is claimed, the
    release in progress is polled or dropped. *)
Inductive composition_move :=
  | Drives (m : move)
  | TakesExit
  | ReceivesExit (e : DriverExit S)
  | CallsDispose (i : nat)
  | CallsOwnerLoss
  | PollsRelease (t : TaskId) (a : hook_answer)
  | DropsRelease.
Definition composition_act (m : composition_move) (c : composition) : composition :=
  match m with
  | Drives m => with_driver (act m (driver c)) c
  | TakesExit => take_exit c
  | ReceivesExit e =>
      if bool_decide (exit_owner e = driver_owner (composition_handle c)) then c
      else set_host (exits c ++ [e]) (composition_handle c) (releasing c) (release_answers c) c
  | CallsDispose i => call_dispose i c
  | CallsOwnerLoss => call_owner_loss c
  | PollsRelease t a => if bool_decide (w_tasks (capability_world c) !! t = None) then poll_release t a c else c
  | DropsRelease => set_host (exits c) (composition_handle c) None (release_answers c) c
  end.
(** Others use the world as they like, but register no plugin under an identity
    of the composition [ids]. *)
Inductive composition_step (ids : list Id) : composition -> composition -> Prop :=
  | composition_act_step m c : composition_step ids c (composition_act m c)
  | others_step c es w : fiber_step true (capability_world c) es w ->
      (forall p, p ∈ ids -> w_registry (capability_world c) !! p = None -> w_registry w !! p = None) ->
      stays_gone ((handle_ledger (composition_handle c) ≫= in_flight) ≫= parked_task) (capability_world c) w ->
      composition_step ids c (with_world w c).
End handle.

(** ** Sweeps that own their modules: rollback and [shutdown] *)
Record cleanup_run := {
  run_ledger : CleanupLedger;
  run_begun : list cleanup_step;
  run_settled : list (Id * CleanupResource * option string)
}.
Definition cleanup_modules (activated : list ActivatedModule) : cleanup_run :=
  {| run_ledger := CleanupLedger_new activated; run_begun := []; run_settled := [] |}.
Definition cleanup_round (t : TaskId) (a : hook_answer) (w : world) (x : cleanup_run) : world * cleanup_run * swept_to :=
  let r := run_sweep t a RegistryAuthority w (run_ledger x) in
  (sr_world r,
   {| run_ledger := sr_ledger r; run_begun := run_begun x ++ omap begins (sr_events r);
      run_settled := run_settled x ++ omap settles_step (sr_events r) |}, sr_to r).
Inductive shutdown_state :=
  | ShutsDown (x : cleanup_run)
  | IsShutDown (x : result CompositionShutdownFailure RollbackReport)
  | ShutdownPanics.
(** [RuntimeAssembly::shutdown] *)
Definition assembly_shutdown {S} (a : RuntimeAssembly S) : shutdown_state := ShutsDown (cleanup_modules (assembly_owned a)).
Definition shutdown_round (t : TaskId) (a : hook_answer) (w : world) (s : shutdown_state) : world * shutdown_state :=
  match s with
  | ShutsDown x =>
      match cleanup_round t a w x with
      | (w, _, Finishes r) => (w, IsShutDown (shutdown_outcome r))
      | (w, _, Breaks) => (w, ShutdownPanics)
      | (w, x, _) => (w, ShutsDown x)
      end
  | s => (w, s)
  end.

(** ** Activation *)
Section activation.
Context {S : Type} `{DS : DurableStore S}.

(** The current module has its plugins registered and [rest] of its fibers to
    start; the task [t] starts the fiber of [p]; its hook runs; the coordinator
    [k] reconciles; what was acquired is rolled back. *)
Inductive activation_stage :=
  | BetweenModules
  | StartsFibers (r : ModuleRegistration) (rest : list (Id * FiberId))
  | AwaitsStart (r : ModuleRegistration) (p : Id) (f : FiberId) (t : TaskId) (rest : list (Id * FiberId))
  | AwaitsHook (r : ModuleRegistration)
  | Reconciles (k : coordinator)
  | RollsBack (cause : ActivationError) (x : cleanup_run)
  | Activates
  | ActivationFails (x : StartupFailure)
  | ActivationPanics.
Record activation := {
  av_world : world;
  av_runtime : Runtime S;
  av_rest : list Id;
  activated : list ActivatedModule;
  av_stage : activation_stage
}.
Definition set_reactive (x : ReactiveRuntime) (r : Runtime S) : Runtime S :=
  {| runtime_run_id := runtime_run_id r; workflow := workflow r; capability_runtime := x; journal := journal r;
     store := store r; store_revision := store_revision r; identity_provenance := identity_provenance r;
     task_configs := task_configs r; runtime_attempts := runtime_attempts r; pending_started := pending_started r;
     cancelled := cancelled r; next_attempt_number := next_attempt_number r; streams := streams r |}.

(** *** Construction *)
(** The registry of a new runtime is a new one. *)
Definition constructed (w : world) (h : host) : world :=
  with_registry ∅ (with_shared (set_tree (host_tree h) (w_shared w)) w).
Definition construct `{SF : StoreFormat}
  (build_value : list Id -> CapabilityFactory -> gmap CapabilityId CapabilityEntry -> string + CapabilityValue)
  (stage : ConstructionStage) (run : RunId) (p : CompositionPlan) (n : nat) (w : world) (st : S) :
  world * S * result RuntimeError (Runtime S) :=
  let h := {| host_tree := tree (w_shared w); host_calls := [] |} in
  let '(h, st, x) :=
    match stage with
    | ConstructionStart => start_from_definition_with_store build_value run (plan_definition p) (plan_factories p) n h st
    | ConstructionRestore => restore_from_definition build_value run (plan_definition p) (plan_factories p) n h st
    end in
  (constructed w h, st, x).
Definition nothing_acquired (e : ActivationError) : StartupFailure :=
  {| startup_cause := e; startup_rollback := RollbackReport_default |}.
(** [activate] before the first module: configuration, then construction. *)
Definition activate `{SF : StoreFormat}
  (build_value : list Id -> CapabilityFactory -> gmap CapabilityId CapabilityEntry -> string + CapabilityValue)
  (stage : ConstructionStage) (run : RunId) (p : CompositionPlan) (config : HostConfig) (n : nat) (w : world) (st : S) :
  world * S * result StartupFailure activation :=
  match validate_host_config (plan_modules p) config with
  | Err e => (w, st, Err (nothing_acquired (ConfigurationRejected e)))
  | Panic site => (w, st, Panic site)
  | NoFuel => (w, st, NoFuel)
  | Ok _ =>
      let '(w, st, x) := construct build_value stage run p n w st in
      (w, st, r ← map_err (fun e => nothing_acquired (RuntimeConstructionFailed stage e)) x;
              Ok {| av_world := w; av_runtime := r; av_rest := Composition.plan_order p; activated := [];
                    av_stage := BetweenModules |})
  end.

(** *** One module *)
Fixpoint register_plugins (m : Id) (ps : list PluginContribution) (w : world) (done : list Id) :
  world * list Id * option ActivationError :=
  match ps with
  | [] => (w, done, None)
  | p :: ps =>
      let id := runtime_plugin_id (plugin p) in
      match register_runtime w (plugin p) with
      | Err e => (w, done, Some (ActivationFailed m (RegistrationStage id (RegistryError_display e))))
      | Ok w => register_plugins m ps w (done ++ [id])
      | _ => (w, done, None)
      end
  end.
(** [refusals] are the answers of the validators of configurations. *)
Fixpoint instantiate_plugins (live : gset FiberId) (refusals : list (option string)) (m : Id) (ps : list PluginContribution)
  (x : ReactiveRuntime) (w : world) (done : list (Id * FiberId)) :
  ReactiveRuntime * world * (ActivationError + list (Id * FiberId)) :=
  match ps with
  | [] => (x, w, inr done)
  | p :: ps =>
      let id := runtime_plugin_id (plugin p) in
      match reactive_instantiate live x w id (plugin_config p) (default None (head refusals)) with
      | Ok (x, w, f) => instantiate_plugins live (tail refusals) m ps x w (done ++ [(id, f)])
      | Err e => (x, w, inl (ActivationFailed m (InstantiateStage id (ReactiveRuntimeError_display e))))
      | _ => (x, w, inr done)
      end
  end.
Definition to_stage (s : activation_stage) (v : activation) : activation :=
  {| av_world := av_world v; av_runtime := av_runtime v; av_rest := av_rest v; activated := activated v; av_stage := s |}.
Definition fail_activation (e : ActivationError) (v : activation) : activation :=
  to_stage (RollsBack e (cleanup_modules (activated v))) v.
(** [activated[index]] is the last one. *)
Definition on_last {A} (f : A -> A) (l : list A) : list A :=
  match pop l with Some (l, x) => l ++ [f x] | None => l end.
Definition on_current (f : ActivatedModule -> ActivatedModule) (v : activation) : activation :=
  {| av_world := av_world v; av_runtime := av_runtime v; av_rest := av_rest v; activated := on_last f (activated v);
     av_stage := av_stage v |}.
Definition push_fiber (x : Id * FiberId) (a : ActivatedModule) : ActivatedModule :=
  {| activated_id := activated_id a; activated_plugins := activated_plugins a;
     activated_fibers := activated_fibers a ++ [x]; activated_on_dispose := activated_on_dispose a;
     hook_armed := hook_armed a |}.
Definition arm_hook (a : ActivatedModule) : ActivatedModule :=
  {| activated_id := activated_id a; activated_plugins := activated_plugins a; activated_fibers := activated_fibers a;
     activated_on_dispose := activated_on_dispose a; hook_armed := true |}.
Definition module_active (v : activation) : activation := to_stage BetweenModules (on_current arm_hook v).
Definition begin_module (live : gset FiberId) (refusals : list (option string)) (m : Id) (rest : list Id)
  (r : ModuleRegistration) (v : activation) : activation :=
  let '(w, ids, e) := register_plugins m (plugins r) (av_world v) [] in
  let a := {| activated_id := m; activated_plugins := ids; activated_fibers := []; activated_on_dispose := on_dispose r;
              hook_armed := false |} in
  let v := {| av_world := w; av_runtime := av_runtime v; av_rest := rest; activated := activated v ++ [a];
              av_stage := av_stage v |} in
  match e with
  | Some e => fail_activation e v
  | None =>
      let '(x, w, y) := instantiate_plugins live refusals m (plugins r) (capability_runtime (av_runtime v)) w [] in
      let v := {| av_world := w; av_runtime := set_reactive x (av_runtime v); av_rest := rest;
                  activated := activated v; av_stage := av_stage v |} in
      match y with inl e => fail_activation e v | inr fs => to_stage (StartsFibers r fs) v end
  end.

(** *** Steps *)
(** What the host says when it is asked, and the fibers that someone still
    holds; [says_debug] is the derived [Debug] text of an error. *)
Record host_answers := {
  says_live : gset FiberId;
  says_refusals : list (option string);
  says_hook : hook_answer;
  says_debug : FiberError + list EffectError -> string
}.
(** What a reconciliation that did not succeed is reported as. *)
Definition reconciliation_reason (debug : FiberError + list EffectError -> string) (r : ReconcileReport) : string :=
  match report_errors r, report_cleanup r with
  | e :: _, _ => debug (inl (fiber_error e))
  | [], f :: _ => debug (inr (cleanup_failures f))
  | [], [] => ""
  end.
Definition activate_modules (p : CompositionPlan) (t : TaskId) (a : host_answers) (v : activation) :
  activation :=
  match av_stage v with
  | BetweenModules =>
      match av_rest v with
      | [] => to_stage (Reconciles reconcile) v
      | m :: rest =>
          match plan_modules p !! m with
          | Some r => begin_module (says_live a) (says_refusals a) m rest r v
          | None => to_stage ActivationPanics v
          end
      end
  | StartsFibers r ((q, f) :: rest) =>
      {| av_world := call (av_world v) t f Start; av_runtime := av_runtime v; av_rest := av_rest v;
         activated := activated v; av_stage := AwaitsStart r q f t rest |}
  | StartsFibers r [] =>
      match on_activate r with
      | None => module_active v
      | Some _ => to_stage (match says_hook a with HookPanics => ActivationPanics | _ => AwaitsHook r end) v
      end
  | AwaitsStart r q f u rest =>
      match w_tasks (av_world v) !! u with
      | None => to_stage ActivationPanics v
      | Some (OnFiber _ (Returned (Refused e))) =>
          fail_activation (ActivationFailed (default "" (activated_id <$> last (activated v))) (StartStage q (FiberError_display e))) v
      | Some (OnFiber _ (Returned _)) => to_stage (StartsFibers r rest) (on_current (push_fiber (q, f)) v)
      | Some _ => v
      end
  | AwaitsHook r =>
      match says_hook a with
      | HookPending => v
      | HookPanics => to_stage ActivationPanics v
      | HookResolves None => module_active v
      | HookResolves (Some reason) =>
          fail_activation (ActivationFailed (default "" (activated_id <$> last (activated v))) (HookStage reason)) v
      end
  | Reconciles k =>
      match awaited k ≫= fun u => Some (w_tasks (av_world v) !! u) with
      | Some None => to_stage ActivationPanics v
      | _ =>
          match coordinator_step (says_live a) t (av_world v) (capability_runtime (av_runtime v)) k with
          | None => v
          | Some (w, x, k) =>
              let v := {| av_world := w; av_runtime := set_reactive x (av_runtime v); av_rest := av_rest v;
                          activated := activated v; av_stage := Reconciles k |} in
              match k with
              | Finished (Ok report) =>
                  if is_success report then to_stage Activates v
                  else fail_activation (ReconciliationFailed (reconciliation_reason (says_debug a) report)) v
              | _ => v
              end
          end
      end
  | RollsBack e x =>
      let '(w, x, y) := cleanup_round t (says_hook a) (av_world v) x in
      let v := {| av_world := w; av_runtime := av_runtime v; av_rest := av_rest v; activated := activated v;
                  av_stage := RollsBack e x |} in
      match y with
      | Continues | Awaits => v
      | Finishes report => to_stage (ActivationFails {| startup_cause := e; startup_rollback := report |}) v
      | Breaks => to_stage ActivationPanics v
      end
  | Activates | ActivationFails _ | ActivationPanics => v
  end.
(** The outcome of [start] or [restore]. *)
Definition activated_assembly (p : CompositionPlan) (config : HostConfig) (v : activation) : option (RuntimeAssembly S) :=
  match av_stage v with
  | Activates =>
      Some {| assembly_runtime := av_runtime v; assembly_order := Composition.plan_order p; assembly_owned := activated v;
              assembly_config := config |}
  | _ => None
  end.
Definition awaited_task (s : activation_stage) : option TaskId :=
  match s with
  | AwaitsStart _ _ _ t _ => Some t
  | Reconciles k => awaited k
  | RollsBack _ x => in_flight (run_ledger x) ≫= parked_task
  | _ => None
  end.
(** Others use the world as they like, but leave the registrations of the
    composition alone. *)
Inductive activation_step (p : CompositionPlan) (ids : list Id) : activation -> activation -> Prop :=
  | activate_step t a v : w_tasks (av_world v) !! t = None ->
      activation_step p ids v (activate_modules p t a v)
  | world_step v es w : fiber_step true (av_world v) es w ->
      (forall q, q ∈ ids -> w_registry w !! q = w_registry (av_world v) !! q) ->
      stays_gone (awaited_task (av_stage v)) (av_world v) w ->
      activation_step p ids v
        {| av_world := w; av_runtime := av_runtime v; av_rest := av_rest v; activated := activated v; av_stage := av_stage v |}.
End activation.
