(* ===== verification/AssemblyFacts.v ===== *)
(** * What a sweep accounts for

    The steps of a cleanup are known from the start: the modules in reverse, for
    each its armed hook, its fibers and its registrations in reverse.  [accounts]
    relates a ledger to them at any moment; every round of a sweep keeps it,
    whatever the authority, the host and the rest of the world do. *)
From S2P Require Export Assembly.
#[local] Open Scope string_scope.
#[local] Open Scope nat_scope.
#[local] Open Scope list_scope.

(** ** The plan of a cleanup *)
Definition steps_of (m : Id) (h : option LifecycleHook) (fs : list (Id * FiberId)) (ps : list Id) : list cleanup_step :=
  option_list (CallsHook m <$> h) ++ ((fun x => DisposesFiber m x.1 x.2) <$> reverse fs) ++ (Unregisters m <$> reverse ps).
Definition module_steps (a : ActivatedModule) : list cleanup_step :=
  steps_of (activated_id a) (if hook_armed a then activated_on_dispose a else None) (activated_fibers a) (activated_plugins a).
Definition cleanup_plan (owned : list ActivatedModule) : list cleanup_step := reverse owned ≫= module_steps.
Definition outstanding (l : CleanupLedger) : list cleanup_step :=
  match current l with
  | Some m => steps_of m (current_hook l) (current_fibers l) (current_plugins l)
  | None => []
  end ++ cleanup_plan (queue l).
Definition in_flight_key (x : InFlight) : Id * CleanupResource :=
  match x with
  | HookInFlight m _ => (m, DisposeHook)
  | FiberInFlight m p _ => (m, OwnedFiber p)
  | RemovalInFlight m p _ => (m, OwnedRegistration p)
  end.

(** ** The report that the outcomes of the steps call for *)
Definition failure_of (x : Id * CleanupResource * option string) : option RollbackFailure :=
  match x.2 with
  | Some reason => Some {| failed_module := x.1.1; failed_resource := x.1.2; failure_reason := reason |}
  | None => None
  end.
Definition failures_of (s : list (Id * CleanupResource * option string)) : list RollbackFailure := omap failure_of s.
Definition failed (s : list (Id * CleanupResource * option string)) : list Id := failed_module <$> failures_of s.
Definition report_of (owned : list ActivatedModule) (s : list (Id * CleanupResource * option string)) : RollbackReport :=
  {| cleaned := filter (fun m => m ∉ failed s) (activated_id <$> reverse owned); failures := failures_of s |}.

Record accounts (owned : list ActivatedModule) (l : CleanupLedger) (b : list cleanup_step)
  (s : list (Id * CleanupResource * option string)) : Prop := {
  ac_plan : b ++ outstanding l = cleanup_plan owned;
  ac_settled : (fst <$> s) ++ option_list (in_flight_key <$> in_flight l) = step_key <$> b;
  ac_failures : failures (report l) = failures_of s;
  ac_flight x : in_flight l = Some x -> current l = Some (in_flight_key x).1;
  ac_clean m : current l = Some m -> current_clean l = bool_decide (m ∉ failed s);
  ac_modules : exists done,
    activated_id <$> reverse owned = done ++ option_list (current l) ++ (activated_id <$> reverse (queue l)) /\
    cleaned (report l) = filter (fun m => m ∉ failed s) done /\
    forall x, x ∈ s -> x.1.1 ∈ done ++ option_list (current l)
}.

Lemma filter_agree {A} (P Q : A -> Prop) `{forall x, Decision (P x)} `{forall x, Decision (Q x)} (l : list A) :
  (forall x, x ∈ l -> P x <-> Q x) -> filter P l = filter Q l.
Proof.
  induction l as [|x l IH]; intros Hl; [done|]. rewrite !filter_cons, IH by (intros; apply Hl; by right).
  assert (Hx : P x <-> Q x) by (apply Hl; by left). by repeat case_decide; tauto.
Qed.
Lemma pop_None {A} (l : list A) : pop l = None -> l = [].
Proof. unfold pop. destruct (reverse l) eqn:E; [|done]. intros _. by rewrite <- (reverse_involutive l), E. Qed.
Lemma pop_Some {A} (l r : list A) x : pop l = Some (r, x) -> l = r ++ [x].
Proof.
  unfold pop. destruct (reverse l) as [|y m] eqn:E; [done|]. intros [= <- <-].
  by rewrite <- (reverse_involutive l), E, reverse_cons.
Qed.
Lemma failed_app s x : failed (s ++ [x]) = failed s ++ option_list (failed_module <$> failure_of x).
Proof. unfold failed, failures_of. rewrite omap_app, fmap_app. f_equal. cbn. by destruct (failure_of x). Qed.
Lemma failures_app s x : failures_of (s ++ [x]) = failures_of s ++ option_list (failure_of x).
Proof. unfold failures_of. rewrite omap_app. f_equal. Qed.
Lemma failed_settled s m : m ∈ failed s -> exists x, x ∈ s /\ x.1.1 = m.
Proof.
  intros (f & -> & (x & Hx & Hf)%list_elem_of_omap)%list_elem_of_fmap. exists x. split; [done|].
  unfold failure_of in Hf. destruct (x.2); by simplify_eq.
Qed.
Lemma cleanup_plan_snoc owned a : cleanup_plan (owned ++ [a]) = module_steps a ++ cleanup_plan owned.
Proof. unfold cleanup_plan. by rewrite reverse_snoc, bind_cons. Qed.

(** ** Each kind of round *)
Section accounting.
Context (owned : list ActivatedModule) (Hnd : NoDup (activated_id <$> owned)).
Implicit Types (l : CleanupLedger) (b : list cleanup_step) (s : list (Id * CleanupResource * option string)).

Lemma modules_distinct done (c q : list Id) :
  activated_id <$> reverse owned = done ++ c ++ q -> NoDup (done ++ c ++ q).
Proof. intros <-. by rewrite fmap_reverse, reverse_Permutation. Qed.
Lemma accounts_new : accounts owned (CleanupLedger_new owned) [] [].
Proof.
  split; try done. exists []. split_and!; [by cbn|done|]. by intros x Hx%elem_of_nil.
Qed.
Lemma accounts_accept l b s : accounts owned l b s -> accounts owned (accept_release l) b s.
Proof. by intros []. Qed.
Lemma accounts_begin_next l l' b s :
  accounts owned l b s -> current l = None -> begin_next l = Some l' -> accounts owned l' b s.
Proof.
  intros [H1 H2 H3 H4 H5 (done & H6 & H7 & H8)] Hc Hb. unfold begin_next in Hb.
  destruct (pop (queue l)) as [[q a]|] eqn:Hq; [|done]. apply pop_Some in Hq. injection Hb as <-.
  rewrite Hc in H6, H8. cbn in H6, H8. rewrite app_nil_r in H8. rewrite Hq in H6. rewrite reverse_snoc in H6. cbn in H6.
  split; cbn; [|done|done| | |].
  - rewrite <- H1. unfold outstanding. rewrite Hc, Hq, cleanup_plan_snoc. done.
  - intros x Hx. rewrite (H4 x Hx) in Hc. done.
  - intros m [= <-]. symmetry. apply bool_decide_eq_true. intros (x & Hx & He)%failed_settled.
    apply H8 in Hx. rewrite He in Hx. pose proof (modules_distinct done [activated_id a] _ H6) as Hn.
    apply NoDup_app in Hn as (_ & Hn & _). apply (Hn _ Hx). by left.
  - exists done. split_and!; [done|done|]. intros x Hx. apply elem_of_app. left. by apply H8.
Qed.
Lemma accounts_finish l b s m :
  accounts owned l b s -> current l = Some m -> in_flight l = None -> current_hook l = None ->
  current_fibers l = [] -> current_plugins l = [] -> accounts owned (finish_current l) b s.
Proof.
  intros [H1 H2 H3 H4 H5 (done & H6 & H7 & H8)] Hc Hf Hh Hfs Hps. unfold finish_current. rewrite Hc.
  split; cbn; [|done| | |done|].
  - rewrite <- H1. unfold outstanding. by rewrite Hc, Hh, Hfs, Hps.
  - by destruct (current_clean l).
  - by rewrite Hf.
  - rewrite Hc in H6, H8. exists (done ++ [m]). split_and!; [by rewrite H6, <- app_assoc| |].
    + rewrite (H5 m Hc), filter_app, <- H7, filter_cons, filter_nil. case_bool_decide; cbn.
      * by rewrite decide_True.
      * destruct (decide _) as [Hn|_]; [by destruct Hn|by rewrite app_nil_r].
    + cbn. rewrite app_nil_r. apply H8.
Qed.
Lemma accounts_park l b s c x h fs ps m :
  accounts owned l b s -> in_flight l = None -> current l = Some m -> in_flight_key x = step_key c ->
  (step_key c).1 = m -> outstanding l = c :: steps_of m h fs ps ++ cleanup_plan (queue l) ->
  accounts owned (park (Some x) h fs ps l) (b ++ [c]) s.
Proof.
  intros [H1 H2 H3 H4 H5 H6] Hf Hc Hk Hm Ho. split; cbn; [|..|done|done].
  - rewrite <- app_assoc, <- H1, Ho. unfold outstanding. cbn. by rewrite Hc.
  - rewrite fmap_app, <- H2, Hf, app_nil_r. cbn. by rewrite Hk.
  - done.
  - intros y [= <-]. by rewrite Hk, Hm.
Qed.
Lemma accounts_settle l b s x failure :
  accounts owned l b s -> in_flight l = Some x ->
  let l' := set_in_flight None l in
  accounts owned (match failure with
                  | Some reason => record_failure (in_flight_key x).1 (in_flight_key x).2 reason l'
                  | None => l'
                  end) b (s ++ [(in_flight_key x, failure)]).
Proof.
  intros [H1 H2 H3 H4 H5 (done & H6 & H7 & H8)] Hf l'. pose proof (H4 x Hf) as Hc. set (m := (in_flight_key x).1) in *.
  rewrite Hc in H6, H8. cbn in H6.
  assert (Hm : m ∉ done).
  { pose proof (modules_distinct done [m] _ H6) as Hn. apply NoDup_app in Hn as (_ & Hn & _).
    intros Hin. apply (Hn _ Hin). by left. }
  assert (Hdone : forall y, filter (fun m => m ∉ failed s) done =
                            filter (fun m => m ∉ failed (s ++ [(in_flight_key x, y)])) done).
  { intros y. rewrite failed_app. apply filter_agree. intros n Hn. rewrite elem_of_app.
    split; [|tauto]. intros Hs [Hy|Hy]; [done|]. destruct y; cbn in Hy; [|by apply elem_of_nil in Hy].
    apply list_elem_of_singleton in Hy. subst n. done. }
  assert (Hsets : (fst <$> s ++ [(in_flight_key x, failure)]) ++ [] = step_key <$> b).
  { rewrite app_nil_r, fmap_app, <- H2, Hf. done. }
  assert (Hmods : forall y, y ∈ s ++ [(in_flight_key x, failure)] -> y.1.1 ∈ done ++ [m]).
  { intros y [Hy|Hy%list_elem_of_singleton]%elem_of_app; [by apply H8|]. subst y. apply elem_of_app. right. by left. }
  destruct failure as [reason|]; split; cbn; [done|done| |done| | |done|done| |done| |].
  - rewrite H3, failures_app. done.
  - intros n Hn. rewrite Hc in Hn. injection Hn as <-. symmetry. apply bool_decide_eq_false. intros Hn. apply Hn.
    rewrite failed_app. apply elem_of_app. right. by left.
  - exists done. rewrite Hc. cbn. split_and!; [done| |done]. rewrite H7. apply Hdone.
  - rewrite H3, failures_app. by rewrite app_nil_r.
  - intros n Hn. rewrite (H5 n Hn). rewrite failed_app. cbn. by rewrite app_nil_r.
  - exists done. rewrite Hc. cbn. split_and!; [done| |done]. rewrite H7. apply Hdone.
Qed.

(** ** A round *)
Definition accounted l b s (r : sweep_round) : Prop :=
  accounts owned (sr_ledger r) (b ++ omap begins (sr_events r)) (s ++ omap settles_step (sr_events r)).
Lemma sweep_parked_accounts a w x l b s :
  accounts owned l b s -> in_flight l = Some x -> accounted l b s (sweep_parked a w x l).
Proof.
  intros H Hf. unfold sweep_parked, accounted.
  assert (Hr : forall m c failure, await_parked w x a = StepResolves m c failure -> (m, c) = in_flight_key x).
  { unfold await_parked. intros m c f. repeat case_match; intros; by simplify_eq. }
  destruct (await_parked w x a) as [| |m c failure]; cbn; rewrite ?app_nil_r; [done| |].
  - destruct H as [H1 H2 H3 H4 H5 H6]. split; cbn; [done| |done| |done|done].
    + rewrite <- H2, Hf. by destruct x.
    + intros y [= <-]. rewrite (H4 x Hf). by destruct x.
  - specialize (Hr m c failure eq_refl). pose proof (accounts_settle l b s x failure H Hf) as Hs. cbv zeta in Hs.
    rewrite <- Hr in Hs. exact Hs.
Qed.
Lemma sweep_module_accounts t a au w m l b s :
  accounts owned l b s -> in_flight l = None -> current l = Some m -> accounted l b s (sweep_module t a au w m l).
Proof.
  intros H Hf Hc. unfold sweep_module, accounted.
  assert (Ho : outstanding l = steps_of m (current_hook l) (current_fibers l) (current_plugins l) ++ cleanup_plan (queue l))
    by (unfold outstanding; by rewrite Hc).
  destruct (current_hook l) as [h|] eqn:Hh.
  { destruct a; cbn; rewrite ?app_nil_r; [..|done]; by eapply (accounts_park l b s (CallsHook m h) (HookInFlight m false)). }
  destruct (pop (current_fibers l)) as [[fs [p f]]|] eqn:Hp.
  { apply pop_Some in Hp. cbn. rewrite app_nil_r. eapply (accounts_park l b s (DisposesFiber m p f)); try done.
    rewrite Ho, Hp. unfold steps_of. by rewrite reverse_snoc. }
  apply pop_None in Hp. destruct (pop (current_plugins l)) as [[ps p]|] eqn:Hq.
  - apply pop_Some in Hq.
    assert (Hpark : accounts owned (park (Some (RemovalInFlight m p t)) None [] ps l) (b ++ [Unregisters m p]) s).
    { eapply (accounts_park l b s (Unregisters m p)); try done. rewrite Ho, Hp, Hq. unfold steps_of. by rewrite reverse_snoc. }
    pose proof (fun y => accounts_settle _ _ _ (RemovalInFlight m p t) y Hpark eq_refl) as Hs.
    destruct au; cbn; [|exact (Hs (Some _))].
    destruct (w_registry w !! p); cbn; rewrite ?app_nil_r; [done|exact (Hs None)].
  - apply pop_None in Hq. cbn. rewrite !app_nil_r. by eapply accounts_finish.
Qed.
Lemma begin_next_current l l' : begin_next l = Some l' -> is_Some (current l') /\ in_flight l' = in_flight l.
Proof. unfold begin_next. destruct (pop _) as [[q a]|]; [|done]. intros [= <-]. by split; [eexists|]. Qed.
Lemma begin_next_None l : begin_next l = None -> queue l = [].
Proof. unfold begin_next. destruct (pop (queue l)) as [[q a]|] eqn:E; [done|]. intros _. by apply pop_None. Qed.

(** A round keeps the account, whatever happens. *)
Lemma run_sweep_accounts t a au w l b s : accounts owned l b s -> accounted l b s (run_sweep t a au w l).
Proof.
  intros H. unfold run_sweep. destruct (in_flight l) as [x|] eqn:Hf; [by apply sweep_parked_accounts|].
  destruct (current l) as [m|] eqn:Hc; [by apply sweep_module_accounts|].
  destruct (begin_next l) as [l'|] eqn:Hb; [|unfold accounted; cbn; by rewrite !app_nil_r].
  destruct (begin_next_current _ _ Hb) as [[m Hm] Hf']. rewrite Hm. apply (sweep_module_accounts t a au w m l'); [|congruence|done].
  by eapply accounts_begin_next.
Qed.
(** A sweep that has finished has begun and settled everything, and reports it. *)
Lemma run_sweep_finishes t a au w l b s report :
  accounts owned l b s -> sr_to (run_sweep t a au w l) = Finishes report ->
  b = cleanup_plan owned /\ (fst <$> s) = step_key <$> b /\ report = report_of owned s /\
  sr_events (run_sweep t a au w l) = [] /\ sr_world (run_sweep t a au w l) = w.
Proof.
  intros [H1 H2 H3 H4 H5 (done & H6 & H7 & H8)] Hr. unfold run_sweep in *.
  destruct (in_flight l) as [x|] eqn:Hf.
  { unfold sweep_parked in Hr. by destruct (await_parked w x a). }
  assert (Hmod : forall m l', sr_to (sweep_module t a au w m l') <> Finishes report).
  { intros m l'. unfold sweep_module. by repeat case_match. }
  destruct (current l) as [m|] eqn:Hc; [by destruct (Hmod m l)|].
  destruct (begin_next l) as [l'|] eqn:Hb.
  { destruct (current l') as [m|]; [by destruct (Hmod m l')|done]. }
  injection Hr as <-. apply begin_next_None in Hb. rewrite Hb in *.
  unfold outstanding in H1. rewrite Hc, Hb in H1. cbn in *. rewrite !app_nil_r in *.
  split_and!; [done|done| |done|done]. unfold report_of. rewrite H6. destruct (Assembly.report l). cbn in *. by subst.
Qed.
End accounting.

(** ** Progress *)
#[local] Arguments reverse : simpl never.
#[local] Arguments cleanup_plan : simpl never.
#[local] Arguments steps_of : simpl never.
Lemma length_steps_of m h fs ps : length (steps_of m h fs ps) = length (option_list h) + length fs + length ps.
Proof. unfold steps_of. rewrite !length_app, !length_fmap, !length_reverse. destruct h; cbn; lia. Qed.
(** A round that does not wait comes closer to the end. *)
Definition rounds_left (l : CleanupLedger) : nat :=
  2 * length (outstanding l) + 2 * length (queue l) + length (option_list (current l)) + length (option_list (in_flight l)).
Lemma sweep_module_progress t a au w m l :
  in_flight l = None -> current l = Some m -> sr_to (sweep_module t a au w m l) = Continues ->
  rounds_left (sr_ledger (sweep_module t a au w m l)) < rounds_left l.
Proof.
  intros Hf Hc. unfold sweep_module, rounds_left, outstanding. rewrite Hc, Hf.
  destruct (current_hook l) as [h|] eqn:Hh.
  { intros Hr. destruct a; try done; cbn; rewrite Hc, !length_app, !length_steps_of; cbn; lia. }
  destruct (pop (current_fibers l)) as [[fs [p f]]|] eqn:Hp.
  { apply pop_Some in Hp. intros _. cbn. rewrite Hc, Hp, !length_app, !length_steps_of, !length_app. cbn. lia. }
  apply pop_None in Hp. destruct (pop (current_plugins l)) as [[ps p]|] eqn:Hq.
  - apply pop_Some in Hq. intros _. rewrite Hp, Hq.
    destruct au; cbn; [destruct (w_registry w !! p); cbn|]; rewrite ?Hc; cbn; rewrite !length_app, !length_steps_of, !length_app; cbn; lia.
  - apply pop_None in Hq. intros _. cbn. unfold finish_current. rewrite Hc. cbn. rewrite Hf, !length_app. cbn. lia.
Qed.
Lemma run_sweep_progress t a au w l :
  sr_to (run_sweep t a au w l) = Continues -> rounds_left (sr_ledger (run_sweep t a au w l)) < rounds_left l.
Proof.
  unfold run_sweep. destruct (in_flight l) as [x|] eqn:Hf.
  { unfold sweep_parked, rounds_left. rewrite Hf. destruct (await_parked w x a) as [| |m c []]; try done; intros _; cbn;
      unfold outstanding; cbn; lia. }
  destruct (current l) as [m|] eqn:Hc; [by apply sweep_module_progress|].
  destruct (begin_next l) as [l'|] eqn:Hb; [|done].
  destruct (begin_next_current _ _ Hb) as [[m Hm] Hf']. rewrite Hm. intros Hr.
  eapply Nat.lt_le_trans; [apply sweep_module_progress; [congruence|done|done]|].
  unfold begin_next in Hb. destruct (pop (queue l)) as [[q y]|] eqn:Hq; [|done]. apply pop_Some in Hq. injection Hb as <-.
  unfold rounds_left, outstanding. cbn. rewrite Hc, Hq, Hf, cleanup_plan_snoc. unfold module_steps. cbn.
  rewrite !length_app. cbn. lia.
Qed.
