(* ===== verification/AssemblyHandle.v ===== *)
(** * A handle through all its releases

    [held] is the invariant of a composition between its driver and its handle,
    over drops and panics of a release, refused releases, the loss of the
    driver, exits of other drivers, and all that others do with the world. *)
From S2P Require Export AssemblyFacts DriverMailbox.
#[local] Open Scope string_scope.
#[local] Open Scope nat_scope.
#[local] Open Scope list_scope.

Definition owned_plugins (owned : list ActivatedModule) : list Id := owned ≫= activated_plugins.
Lemma unregisters_owned owned m p : Unregisters m p ∈ cleanup_plan owned -> p ∈ owned_plugins owned.
Proof.
  unfold cleanup_plan, owned_plugins. intros (a & Hp & Ha)%list_elem_of_bind. apply list_elem_of_bind. exists a.
  split; [|by apply elem_of_reverse].
  unfold module_steps, steps_of in Hp. rewrite !elem_of_app in Hp. destruct Hp as [Hp|[Hp|Hp]].
  - destruct (if hook_armed a then _ else _); cbn in Hp; [apply list_elem_of_singleton in Hp|apply elem_of_nil in Hp]; done.
  - by apply list_elem_of_fmap in Hp as (? & ? & _).
  - apply list_elem_of_fmap in Hp as (q & [= _ ->] & Hq). by apply elem_of_reverse.
Qed.

(** ** The registry under a sweep *)
Definition unregistered (b : list cleanup_step) (w : world) : Prop :=
  forall m p, Unregisters m p ∈ b -> w_registry w !! p = None.
Lemma registry_dispose_fibers w t r : w_registry (dispose_fibers w t r) = w_registry w.
Proof. unfold dispose_fibers, sweep_on. by destruct (set_iter _). Qed.
Lemma sweep_unregisters t a w l b :
  unregistered b w ->
  let r := run_sweep t a RegistryAuthority w l in unregistered (b ++ omap begins (sr_events r)) (sr_world r).
Proof.
  intros H r. subst r.
  assert (Hmod : forall m l, let r := sweep_module t a RegistryAuthority w m l in
    unregistered (b ++ omap begins (sr_events r)) (sr_world r)).
  { clear l. intros m l. unfold sweep_module. destruct (current_hook l) as [h|].
    { destruct a; cbn; rewrite ?app_nil_r; [..|done];
        intros m' p [Hp|Hp%list_elem_of_singleton]%elem_of_app; first [by apply (H m')|done]. }
    destruct (pop (current_fibers l)) as [[fs [p f]]|].
    { cbn. intros m' p' [Hp|Hp%list_elem_of_singleton]%elem_of_app; first [by apply (H m')|done]. }
    destruct (pop (current_plugins l)) as [[ps p]|]; [|cbn; by rewrite app_nil_r].
    assert (Hd : unregistered (b ++ [Unregisters m p]) (with_registry (delete p (w_registry w)) w)).
    { intros m' p' [Hp|Hp%list_elem_of_singleton]%elem_of_app; cbn.
      - apply lookup_delete_None. right. by apply (H m').
      - injection Hp as -> ->. apply lookup_delete_eq. }
    cbn. destruct (w_registry w !! p); cbn; [|done].
    intros m' p' Hp. rewrite registry_dispose_fibers. by apply (Hd m'). }
  unfold run_sweep. destruct (in_flight l) as [x|].
  { unfold sweep_parked. destruct (await_parked w x a) as [| |m c failure]; cbn; by rewrite app_nil_r. }
  destruct (current l) as [m|]; [apply Hmod|]. destruct (begin_next l) as [l'|]; [|cbn; by rewrite app_nil_r].
  destruct (current l') as [m|]; [apply Hmod|cbn; by rewrite app_nil_r].
Qed.

(** ** The driver of the composition *)
Section driver.
Context {S : Type} {DS : DurableStore S}.
Lemma act_exited m (w : driver_world S) r s : owner w = DriverExited r s -> owner (act m w) = DriverExited r s.
Proof.
  intros H. destruct m as [q|i|n|i|tree|x| |]; unfold act; rewrite ?H; try done.
  - unfold submit, mailbox_submit. cbv zeta. cbn [with_cells mailbox owner]. destruct (mailbox_closed (mailbox w)); cbn; by rewrite ?H.
  - destruct (late w !! i); [|done]. unfold answer_after_close. by destruct (complete_after_close _ _).
  - by destruct (spent w !! i).
Qed.
Lemma lost_dropped (w : driver_world S) : moored w ->
  owner_dropped (mailbox w) = true <-> exists st, owner w = Gone st \/ exists cs, owner w = Drains st cs.
Proof.
  intros M. rewrite (st_dropped _ (mo_steady _ M)). destruct (owner w); cbn; split; try done; try naive_solver.
Qed.
Lemma act_lost m (w : driver_world S) :
  moored w -> owner_dropped (mailbox w) = true -> owner_dropped (mailbox (act m w)) = true.
Proof.
  intros M H. apply lost_dropped; [by apply act_moored|]. apply lost_dropped in H as (st & H); [|done].
  exists st. destruct m as [q|i|n|i|tree|x| |]; unfold act.
  - unfold submit, mailbox_submit. cbv zeta. cbn [with_cells mailbox owner].
    destruct (mailbox_closed (mailbox w)); cbn; [done|]. by destruct H as [->|[cs ->]]; eauto.
  - destruct (late w !! i); [|done]. unfold answer_after_close. by destruct (complete_after_close _ _).
  - done.
  - by destruct (spent w !! i).
  - destruct H as [Ho|[cs Ho]]; rewrite Ho; eauto.
  - destruct H as [Ho|[cs Ho]]; rewrite Ho; eauto.
  - destruct H as [Ho|[[|c cs] Ho]]; rewrite Ho; cbn; eauto.
  - destruct H as [Ho|[cs Ho]]; rewrite Ho; eauto.
Qed.
End driver.

(** ** The invariant *)
Lemma sweep_accepted t a au w l :
  orderly_release_accepted (sr_ledger (run_sweep t a au w l)) = orderly_release_accepted l.
Proof.
  assert (Hmod : forall m l, orderly_release_accepted (sr_ledger (sweep_module t a au w m l)) = orderly_release_accepted l).
  { clear l. intros m l. unfold sweep_module. destruct (current_hook l); [by destruct a|].
    destruct (pop (current_fibers l)) as [[fs [p f]]|]; [done|]. destruct (pop (current_plugins l)) as [[ps p]|].
    - destruct au; cbn; [by destruct (w_registry w !! p)|done].
    - cbn. unfold finish_current. by destruct (current l). }
  unfold run_sweep. destruct (in_flight l) as [x|].
  { unfold sweep_parked. by destruct (await_parked w x a) as [| |m c []]. }
  destruct (current l) as [m|]; [apply Hmod|]. destruct (begin_next l) as [l'|] eqn:Hb; [|done].
  assert (Hl : orderly_release_accepted l' = orderly_release_accepted l).
  { unfold begin_next in Hb. destruct (pop (queue l)) as [[q y]|]; [|done]. by injection Hb as <-. }
  destruct (current l') as [m|]; [by rewrite Hmod|done].
Qed.

Section handles.
Context {S : Type} {DS : DurableStore S}.
Context (id : DriverOwner) (owned : list ActivatedModule) (Hnd : NoDup (activated_id <$> owned)).
Implicit Types (c : composition (S := S)) (e : DriverExit S).

Definition ledger_of c := handle_ledger (composition_handle c).
Definition exited_with (r : Runtime S) (s : ShutdownStatus) c : Prop := owner (driver c) = DriverExited r s.
Definition own_exit e c : Prop := exit_owner e = id -> exited_with (exit_runtime e) (exit_status e) c.
Definition final_report (x : release_answer (S := S)) : option RollbackReport :=
  match x with
  | AnswersRelease (inr y) => Some (released_report y)
  | AnswersLoss (inr y) => Some y
  | _ => None
  end.
Definition final_reports c : list RollbackReport := omap final_report (release_answers c).
(** What a release in progress rests on. *)
Definition future_ok c (x : release_future S) : Prop :=
  match x with
  | Rejecting x => forall e, into_exit x = Some e -> own_exit e c
  | OrderlySweep r s =>
      exited_with r s c /\ unregistered (begun c) (capability_world c) /\
      exists l, ledger_of c = Some l /\ orderly_release_accepted l = true
  | LossSweep =>
      exists l, ledger_of c = Some l /\ (owner_dropped (mailbox (driver c)) = true \/ orderly_release_accepted l = true)
  end.
Record held c : Prop := {
  hd_moored : moored (driver c);
  hd_owner : driver_owner (composition_handle c) = id;
  hd_open l : ledger_of c = Some l -> accounts owned l (begun c) (settled c);
  hd_closed : ledger_of c = None -> begun c = cleanup_plan owned /\ fst <$> settled c = step_key <$> begun c;
  hd_reports : final_reports c = match ledger_of c with None => [report_of owned (settled c)] | Some _ => [] end;
  hd_untouched l : ledger_of c = Some l -> orderly_release_accepted l = false ->
    owner_dropped (mailbox (driver c)) = false -> begun c = [];
  hd_future x : releasing c = Some x -> future_ok c x;
  hd_exits e : e ∈ exits c -> own_exit e c;
  hd_hand l : ledger_of c = Some l -> orderly_release_accepted l = false -> taken c = true ->
    exists e, e ∈ exits c /\ exit_owner e = id;
  hd_taken : taken c = true -> exists r s, exited_with r s c;
  hd_released x : AnswersRelease (inr x) ∈ release_answers c ->
    exited_with (released_runtime x) (driver_status x) c /\ ledger_of c = None /\
    unregistered (begun c) (capability_world c)
}.
Lemma held_new w (a : RuntimeAssembly S) : assembly_owned a = owned -> held (composition_new w id a).
Proof.
  intros Ha. split; cbn; try done.
  - apply moored_new.
  - intros l [= <-]. rewrite Ha. apply accounts_new.
  - by intros e He%elem_of_nil.
  - by intros x Hx%elem_of_nil.
Qed.

(** *** The driver, and the world *)
Lemma held_driver m c : held c -> held (with_driver (act m (driver c)) c).
Proof.
  intros [H1 H2 H3 H4 H5 H6 H7 H8 H9 H10 H11].
  assert (Hx : forall r s, exited_with r s c -> exited_with r s (with_driver (act m (driver c)) c)) by (intros; by apply act_exited).
  split; try done.
  - by apply act_moored.
  - intros l Hl Ha Hd. apply (H6 l); [done|done|]. apply not_true_iff_false. intros Ht.
    cbn in Hd. rewrite act_lost in Hd; done.
  - intros x Hf. specialize (H7 x Hf). destruct x as [x|r s|]; cbn in *.
    + intros e He Ho. apply Hx. by apply H7.
    + destruct H7 as (? & ? & ?). split_and!; [by apply Hx|done|done].
    + destruct H7 as (l & Hl & Ha). exists l. split; [done|]. destruct Ha; [left; by apply act_lost|by right].
  - intros e He Ho. apply Hx. by apply H8.
  - intros (r & s & Ht)%H10. exists r, s. by apply Hx.
  - intros x (? & ? & ?)%H11. split_and!; [by apply Hx|done|done].
Qed.
Lemma held_world w c : held c ->
  (forall p, p ∈ owned_plugins owned -> w_registry (capability_world c) !! p = None -> w_registry w !! p = None) ->
  held (with_world w c).
Proof.
  intros [H1 H2 H3 H4 H5 H6 H7 H8 H9 H10 H11] Hw.
  assert (Hu : unregistered (begun c) (capability_world c) -> unregistered (begun c) w).
  { intros Hu m p Hp. apply Hw; [|by apply (Hu m)]. eapply unregisters_owned.
    destruct (ledger_of c) as [l|] eqn:Hl.
    - rewrite <- (ac_plan _ _ _ _ (H3 l eq_refl)). apply elem_of_app. by left.
    - destruct (H4 eq_refl) as [<- _]. done. }
  split; try done.
  - intros x Hf. specialize (H7 x Hf). destruct x as [x|r s|]; [done| |done].
    destruct H7 as (? & ? & ?). split_and!; [done|by apply Hu|done].
  - intros x (? & ? & ?)%H11. split_and!; [done|done|by apply Hu].
Qed.

(** *** Calls of the handle *)
Lemma held_take c : held c -> held (take_exit c).
Proof.
  intros H. unfold take_exit. destruct (owner (driver c)) as [d|d|d q r|d s es ps ts|d s cs|r s|st q|st cs|st] eqn:Ho; try done.
  destruct (taken c) eqn:Ht; [done|]. destruct H as [H1 H2 H3 H4 H5 H6 H7 H8 H9 H10 H11].
  split; try done.
  - intros e [He|He%list_elem_of_singleton]%elem_of_app; [by apply H8|]. intros _. by rewrite He.
  - intros l Hl Ha _. eexists. split; [apply elem_of_app; right; by left|done].
  - intros _. by exists r, s.
Qed.
Lemma held_receive e c : held c -> exit_owner e <> id ->
  held (set_host (exits c ++ [e]) (composition_handle c) (releasing c) (release_answers c) c).
Proof.
  intros [H1 H2 H3 H4 H5 H6 H7 H8 H9 H10 H11] He. split; try done.
  - intros e' [He'|He'%list_elem_of_singleton]%elem_of_app; [by apply H8|]. subst e'. by intros ?.
  - intros l Hl Ha Ht. destruct (H9 l Hl Ha Ht) as (e' & ? & ?). exists e'. split; [|done]. apply elem_of_app. by left.
Qed.
Lemma held_drop c : held c -> held (set_host (exits c) (composition_handle c) None (release_answers c) c).
Proof. intros []. by split. Qed.
Lemma held_dispose i c : held c -> held (call_dispose i c).
Proof.
  intros H. unfold call_dispose. destruct (releasing c) as [x|] eqn:Hr; [done|]. destruct (exits c !! i) as [e|] eqn:He; [|done].
  pose proof (list_elem_of_lookup_2 _ _ _ He) as Hin.
  assert (Hsub : forall e', e' ∈ delete i (exits c) -> e' ∈ exits c).
  { intros e'. rewrite delete_take_drop, elem_of_app. intros [Hx|Hx]; [by apply elem_of_take in Hx as (? & ? & _); eapply list_elem_of_lookup_2|].
    apply list_elem_of_lookup in Hx as (k & Hk). rewrite lookup_drop in Hk. by eapply list_elem_of_lookup_2. }
  assert (Hkeep : forall e', e' ∈ exits c -> e' ∈ delete i (exits c) \/ e' = e).
  { intros e'. rewrite <- (take_drop_middle _ _ _ He) at 1. rewrite delete_take_drop, !elem_of_app, elem_of_cons. tauto. }
  destruct H as [H1 H2 H3 H4 H5 H6 H7 H8 H9 H10 H11]. unfold dispose_after_driver.
  case_bool_decide as Hid.
  { split; try done.
    - intros x [= <-] e' [= <-]. by apply H8.
    - intros e' He'. apply H8. by apply Hsub.
    - intros l Hl Ha Ht. destruct (H9 l Hl Ha Ht) as (e' & Hx & Ho). exists e'. split; [|done].
      destruct (Hkeep e' Hx) as [?|Heq]; [done|]. subst e'. exfalso. apply Hid. congruence. }
  unfold ledger_of in *. destruct (handle_ledger (composition_handle c)) as [l|] eqn:Hl.
  - destruct (orderly_release_accepted l) eqn:Ha.
    + split; unfold ledger_of; cbn; rewrite ?Hl; try done.
      * by intros x [= <-] e' [=].
      * intros e' He'. apply H8. by apply Hsub.
      * intros l' [= <-]. congruence.
    + assert (Ho : own_exit e c) by by apply H8.
      assert (Hex : exited_with (exit_runtime e) (exit_status e) c) by (apply Ho; congruence).
      assert (Hb : begun c = []).
      { apply (H6 l); [done|done|]. rewrite (st_dropped _ (mo_steady _ H1)), Hex. done. }
      split; unfold ledger_of; cbn; try done.
      * intros l' [= <-]. by apply accounts_accept, H3.
      * intros x [= <-]. split_and!; [done| |by eexists]. intros m p Hp. cbn in Hp. rewrite Hb in Hp. by apply elem_of_nil in Hp.
      * intros e' He'. apply H8. by apply Hsub.
      * intros l' [= <-] Hacc'. done.
      * intros x Hx. destruct (H11 x Hx) as (_ & Hn & _). done.
  - split; unfold ledger_of; cbn; rewrite ?Hl; try done.
    + intros x [= <-] e' [= <-]. by apply H8.
    + intros e' He'. apply H8. by apply Hsub.
Qed.
Lemma held_loss c : held c -> held (call_owner_loss c).
Proof.
  intros H. unfold call_owner_loss. destruct (releasing c) as [x|] eqn:Hr; [done|].
  assert (Hrefused : forall x, held (set_host (exits c) (composition_handle c) None (release_answers c ++ [AnswersLoss (inl x)]) c)).
  { intros x. destruct H as [H1 H2 H3 H4 H5 H6 H7 H8 H9 H10 H11]. split; try done.
    - unfold final_reports. cbn. rewrite omap_app. cbn. by rewrite app_nil_r.
    - intros y [Hy|Hy%list_elem_of_singleton]%elem_of_app; [by apply H11|done]. }
  assert (Hstart : forall l, ledger_of c = Some l ->
    owner_dropped (mailbox (driver c)) = true \/ orderly_release_accepted l = true ->
    held (set_host (exits c) (composition_handle c) (Some LossSweep) (release_answers c) c)).
  { intros l Hl Ha. destruct H as [H1 H2 H3 H4 H5 H6 H7 H8 H9 H10 H11]. split; try done.
    intros x [= <-]. by exists l. }
  unfold release_after_owner_loss, owner_state in *. unfold ledger_of in *.
  destruct (handle_ledger (composition_handle c)) as [l|]; [|done].
  destruct (owner_dropped (mailbox (driver c))) eqn:Hd; [apply (Hstart l); [done|by left]|].
  destruct (mailbox_closed (mailbox (driver c))); [|done].
  destruct (orderly_release_accepted l) eqn:Ha; [|done]. apply (Hstart l); [done|by right].
Qed.

(** *** A round of a release *)
Definition sweeping (x : release_future S) : Prop := match x with Rejecting _ => False | _ => True end.
Lemma final_reports_round x r c : sweeping x ->
  final_reports (after_round x r c) = final_reports c ++ match sr_to r with Finishes report => [report] | _ => [] end.
Proof.
  intros Hx. unfold final_reports. cbn. rewrite omap_app. f_equal. by destruct (sr_to r), x.
Qed.
Lemma held_round t a x l c :
  held c -> releasing c = Some x -> sweeping x -> ledger_of c = Some l ->
  held (after_round x (run_sweep t a (authority_of x) (capability_world c) l) c).
Proof.
  intros H Hr Hx Hl. set (r := run_sweep t a (authority_of x) (capability_world c) l).
  pose proof (hd_open _ H l Hl) as Ha. pose proof (hd_future _ H x Hr) as Hf.
  pose proof (run_sweep_accounts owned Hnd t a (authority_of x) (capability_world c) l _ _ Ha) as Hacc.
  fold r in Hacc. unfold accounted in Hacc.
  assert (Hflag : orderly_release_accepted (sr_ledger r) = orderly_release_accepted l) by apply sweep_accepted.
  assert (Hstill : forall l', ledger_of (after_round x r c) = Some l' -> l' = sr_ledger r).
  { intros l'. unfold ledger_of. cbn. by destruct (sr_to r); intros [= <-]. }
  assert (Hunreg : forall r0 s0, x = OrderlySweep r0 s0 ->
    unregistered (begun c ++ omap begins (sr_events r)) (sr_world r)).
  { intros r0 s0 ->. apply sweep_unregisters. by apply Hf. }
  pose proof (hd_reports _ H) as Hrep. rewrite Hl in Hrep.
  assert (Hfin : forall report, sr_to r = Finishes report -> begun c = cleanup_plan owned /\
    fst <$> settled c = step_key <$> begun c /\ report = report_of owned (settled c) /\ sr_events r = []).
  { intros report Hto. destruct (run_sweep_finishes owned t a (authority_of x) (capability_world c) l _ _ report Ha Hto) as (? & ? & ? & ? & _). done. }
  split; [apply H|apply H| | | | | | | |apply H|].
  - intros l' Hl'. rewrite (Hstill _ Hl'). done.
  - unfold ledger_of. cbn. destruct (sr_to r) as [| |report|] eqn:Hto; try done. intros _.
    destruct (Hfin report eq_refl) as (Hb & Hs & _ & ->). cbn. by rewrite !app_nil_r.
  - rewrite final_reports_round, Hrep by done. unfold ledger_of. cbn. destruct (sr_to r) as [| |report|] eqn:Hto; try done.
    destruct (Hfin report eq_refl) as (_ & _ & -> & ->). cbn. by rewrite app_nil_r.
  - intros l' Hl' Hacc' Hd. rewrite (Hstill _ Hl'), Hflag in Hacc'. exfalso.
    destruct x as [|r0 s0|]; [done| |]; cbn in Hf.
    + destruct Hf as (_ & _ & l0 & Hl0 & Ht). congruence.
    + destruct Hf as (l0 & Hl0 & [Ht|Ht]); [|congruence]. cbn in Hd. congruence.
  - intros y. cbn. intros Hy. assert (Hyx : y = x /\ ledger_of (after_round x r c) = Some (sr_ledger r)).
    { unfold ledger_of. cbn. by destruct (sr_to r); simplify_eq. }
    destruct Hyx as [-> Hl']. destruct x as [|r0 s0|]; [done| |]; cbn in Hf |- *.
    + destruct Hf as (He & _ & l0 & Hl0 & Ht). split_and!; [done|by eapply Hunreg|]. exists (sr_ledger r).
      split; [done|]. congruence.
    + destruct Hf as (l0 & Hl0 & Ht). exists (sr_ledger r). split; [done|]. cbn. rewrite Hflag. by simplify_eq.
  - intros e He. by apply H.
  - intros l' Hl' Hacc' Ht. rewrite (Hstill _ Hl'), Hflag in Hacc'. by apply (hd_hand _ H l).
  - intros y [Hy|Hy]%elem_of_app.
    + destruct (hd_released _ H y Hy) as (_ & Hn & _). congruence.
    + destruct (sr_to r) as [| |report|] eqn:Hto; [by apply elem_of_nil in Hy..| |by apply elem_of_nil in Hy].
      destruct x as [|r0 s0|]; [done| |by apply list_elem_of_singleton in Hy].
      apply list_elem_of_singleton in Hy. injection Hy as ->. cbn. destruct Hf as (He & _ & _).
      split_and!; [done|unfold ledger_of; cbn; by rewrite Hto|by eapply Hunreg].
Qed.
Lemma held_poll t a c : held c -> held (poll_release t a c).
Proof.
  intros H. unfold poll_release. destruct (releasing c) as [x|] eqn:Hr; [|done].
  pose proof (hd_future _ H x Hr) as Hf.
  destruct x as [x|r s|]; [|destruct (handle_ledger _) as [l|] eqn:Hl; [by apply held_round|done]..].
  destruct H as [H1 H2 H3 H4 H5 H6 H7 H8 H9 H10 H11]. split; try done.
  - unfold final_reports. cbn. rewrite omap_app. cbn. by rewrite app_nil_r.
  - intros e [He|He]%elem_of_app; [by apply H8|]. destruct (into_exit x) as [e'|] eqn:Hx; cbn in He; [|by apply elem_of_nil in He].
    apply list_elem_of_singleton in He. subst e'. by apply Hf.
  - intros l Hl Ha Ht. destruct (H9 l Hl Ha Ht) as (e & ? & ?). exists e. split; [|done]. apply elem_of_app. by left.
  - intros y [Hy|Hy%list_elem_of_singleton]%elem_of_app; [by apply H11|done].
Qed.

Lemma held_act m c : held c -> held (composition_act m c).
Proof.
  intros H. destruct m as [m| |e|i| |t a|]; cbn.
  - by apply held_driver.
  - by apply held_take.
  - case_bool_decide as He; [done|]. apply held_receive; [done|]. by rewrite <- (hd_owner _ H).
  - by apply held_dispose.
  - by apply held_loss.
  - case_bool_decide; [by apply held_poll|done].
  - by apply held_drop.
Qed.
Lemma held_step c c' : composition_step (owned_plugins owned) c c' -> held c -> held c'.
Proof. intros [m c1|c1 es w _ Hw _] H; [by apply held_act|by apply held_world]. Qed.
Lemma held_reachable c c' : rtc (composition_step (owned_plugins owned)) c c' -> held c -> held c'.
Proof. induction 1 as [|c1 c2 c3 Hs _ IH]; [done|]. intros H. by apply IH, (held_step c1). Qed.
End handles.
