(* ===== verification/ActivationFacts.v ===== *)
(** * What an activation has acquired

    [progresses] describes an activation at any moment: the modules activated so
    far, what the current one has acquired, and that exactly their plugins are in
    the registry of the new runtime; a failed activation gives all of it back. *)
From S2P Require Export AssemblyHandle CompositionPlan.
#[local] Open Scope string_scope.
#[local] Open Scope nat_scope.
#[local] Open Scope list_scope.

Lemma NoDup_fmap_eq {A B} (f : A -> B) (l : list A) x y :
  NoDup (f <$> l) -> x ∈ l -> y ∈ l -> f x = f y -> x = y.
Proof.
  intros Hnd (i & Hi)%list_elem_of_lookup (j & Hj)%list_elem_of_lookup Hxy.
  assert (i = j) as ->; [|by simplify_eq].
  eapply (NoDup_lookup _ _ _ (f x)); [done|by rewrite list_lookup_fmap, Hi|by rewrite list_lookup_fmap, Hj, Hxy].
Qed.

Lemma NoDup_bind_item {A B C} (f : B -> C) (g : A -> list B) (l : list A) x :
  NoDup (f <$> (l ≫= g)) -> x ∈ l -> NoDup (f <$> g x).
Proof.
  intros Hnd (l1 & l2 & ->)%list_elem_of_split. rewrite bind_app, bind_cons, !fmap_app in Hnd.
  apply NoDup_app in Hnd as (_ & _ & Hnd). by apply NoDup_app in Hnd as (? & _ & _).
Qed.

(** ** Plugins of a module *)
Definition contribution_key (c : PluginContribution) : Id := runtime_plugin_id (plugin c).
Definition plugin_ids (r : ModuleRegistration) : list Id := contribution_key <$> plugins r.
Lemma reactive_instantiate_returns live x w p cfg refusal : returns (reactive_instantiate live x w p cfg refusal).
Proof.
  unfold reactive_instantiate, instantiate, create_fiber, ok_or, watch, mbind, result_bind, map_err. cbv zeta.
  by repeat (case_match; simplify_eq).
Qed.
Lemma reactive_instantiate_registry live x w p cfg refusal x' w' f :
  reactive_instantiate live x w p cfg refusal = Ok (x', w', f) -> w_registry w' = w_registry w.
Proof.
  unfold reactive_instantiate, instantiate, create_fiber, ok_or, watch, mbind, result_bind, map_err. cbv zeta.
  intros H. by repeat (case_match; simplify_eq; cbn).
Qed.
(** Only a call that a plugin refuses can stop the instantiations. *)
Lemma instantiate_plugins_spec live m ps : forall refusals x w fs,
  let '(x', w', y) := instantiate_plugins live refusals m ps x w fs in
  w_registry w' = w_registry w /\
  match y with
  | inl e => exists p reason, e = ActivationFailed m (InstantiateStage p reason)
  | inr fs' => fs'.*1 = fs.*1 ++ (contribution_key <$> ps)
  end.
Proof.
  induction ps as [|c ps IH]; intros refusals x w fs; cbn; [by rewrite app_nil_r|].
  pose proof (reactive_instantiate_returns live x w (runtime_plugin_id (plugin c)) (plugin_config c) (default None (head refusals))) as Hret.
  destruct (reactive_instantiate _ _ _ _ _ _) as [[[x1 w1] f]|e|site|] eqn:E; try done; [|by split; [|eauto]].
  specialize (IH (tail refusals) x1 w1 (fs ++ [(runtime_plugin_id (plugin c), f)])).
  destruct (instantiate_plugins _ _ _ _ _ _ _) as [[x' w'] y]. destruct IH as [Hw Hy].
  split; [by rewrite Hw, (reactive_instantiate_registry _ _ _ _ _ _ _ _ _ E)|].
  destruct y; [done|]. rewrite Hy, fmap_app. cbn. by rewrite <- app_assoc.
Qed.

Section activation.
Context (plan : CompositionPlan).
#[local] Abbreviation modules := (plan_modules plan).
Context (Hkeys : NoDup (plugin_key <$> items modules plugins)).
Lemma plugin_unique m m' r r' c c' :
  modules !! m = Some r -> modules !! m' = Some r' -> c ∈ plugins r -> c' ∈ plugins r' ->
  contribution_key c = contribution_key c' -> m = m' /\ c = c'.
Proof.
  intros Hr Hr' Hc Hc' Hk.
  assert (Heq : (m, c) = (m', c')); [|by injection Heq].
  apply (NoDup_fmap_eq plugin_key (items modules plugins)); [done|apply elem_of_items; eauto|apply elem_of_items; eauto|done].
Qed.
Lemma plugin_ids_NoDup m r : modules !! m = Some r -> NoDup (plugin_ids r).
Proof.
  intros Hr. apply (NoDup_bind_item plugin_key _ _ (m, r)) in Hkeys; [|by apply elem_of_map_iter].
  cbn beta iota in Hkeys. by rewrite <- list_fmap_compose in Hkeys.
Qed.

(** ** The registry holds the plugins [done], and no other plugin of a module *)
Definition registry_holds (done : list Id) (w : world) : Prop :=
  forall m r c, modules !! m = Some r -> c ∈ plugins r ->
    w_registry w !! contribution_key c = if decide (contribution_key c ∈ done) then Some (plugin c) else None.
Lemma registry_holds_agree done w w' :
  (forall m r c, modules !! m = Some r -> c ∈ plugins r ->
     w_registry w' !! contribution_key c = w_registry w !! contribution_key c) ->
  registry_holds done w -> registry_holds done w'.
Proof. intros Hw H m r c Hr Hc. rewrite (Hw m r c Hr Hc). by apply (H m r c). Qed.
Lemma register_plugins_spec m r before : modules !! m = Some r ->
  (forall c, c ∈ plugins r -> contribution_key c ∉ before) ->
  forall ps pre w, plugins r = pre ++ ps -> registry_holds (before ++ (contribution_key <$> pre)) w ->
  exists w', register_plugins m ps w (contribution_key <$> pre) = (w', plugin_ids r, None) /\
    registry_holds (before ++ plugin_ids r) w'.
Proof.
  intros Hr Hb. induction ps as [|c ps IH]; intros pre w Hps Hw.
  { exists w. rewrite app_nil_r in Hps. unfold plugin_ids. by rewrite Hps. }
  cbn. unfold register_runtime.
  assert (Hc : c ∈ plugins r) by (rewrite Hps; apply elem_of_app; right; by left).
  assert (Hnew : contribution_key c ∉ before ++ (contribution_key <$> pre)).
  { rewrite elem_of_app. intros [Hx|Hx]; [by apply (Hb c)|].
    pose proof (plugin_ids_NoDup m r Hr) as Hn. unfold plugin_ids in Hn. rewrite Hps, fmap_app in Hn.
    apply NoDup_app in Hn as (_ & Hn & _). apply (Hn _ Hx). by left. }
  pose proof (Hw m r c Hr Hc) as Hnone. rewrite decide_False in Hnone by done. unfold contribution_key in Hnone at 1. rewrite Hnone.
  destruct (IH (pre ++ [c]) (with_registry (<[contribution_key c := plugin c]> (w_registry w)) w)) as (w' & Hw' & Hh).
  - by rewrite Hps, <- app_assoc.
  - intros m' r' c' Hr' Hc'. cbn. rewrite fmap_app, app_assoc. destruct (decide (contribution_key c' = contribution_key c)) as [He|He].
    + destruct (plugin_unique m m' r r' c c') as [-> ->]; [done..|]. rewrite lookup_insert_eq, decide_True; [done|].
      apply elem_of_app. right. by left.
    + rewrite lookup_insert_ne by done. rewrite (Hw m' r' c' Hr' Hc').
      assert (Hiff : contribution_key c' ∈ before ++ (contribution_key <$> pre) <->
                     contribution_key c' ∈ (before ++ (contribution_key <$> pre)) ++ (contribution_key <$> [c])).
      { rewrite (elem_of_app (before ++ _)). cbn. rewrite list_elem_of_singleton. tauto. }
      repeat case_decide; tauto.
  - exists w'. split; [|done]. rewrite <- Hw'. unfold contribution_key. by rewrite fmap_app.
Qed.

(** ** Modules, whole and in progress *)
Definition whole (a : ActivatedModule) : Prop := exists r,
  modules !! activated_id a = Some r /\ activated_plugins a = plugin_ids r /\
  (activated_fibers a).*1 = plugin_ids r /\ activated_on_dispose a = on_dispose r /\ hook_armed a = true.
(** The plugins [rest] have no started fiber yet. *)
Definition begun_with (r : ModuleRegistration) (rest : list Id) (a : ActivatedModule) : Prop :=
  modules !! activated_id a = Some r /\ activated_plugins a = plugin_ids r /\
  (activated_fibers a).*1 ++ rest = plugin_ids r /\ activated_on_dispose a = on_dispose r /\ hook_armed a = false.
Definition in_progress (r : ModuleRegistration) (rest : list Id) (acts : list ActivatedModule) : Prop :=
  exists l a, acts = l ++ [a] /\ Forall whole l /\ begun_with r rest a.
Definition acquired (acts : list ActivatedModule) : Prop := Forall whole acts \/ exists r rest, in_progress r rest acts.
Lemma acquired_plugins acts p : acquired acts -> p ∈ owned_plugins acts ->
  exists m r, m ∈ (activated_id <$> acts) /\ modules !! m = Some r /\ p ∈ plugin_ids r.
Proof.
  intros Ha (a & Hp & Hin)%list_elem_of_bind. exists (activated_id a).
  assert (Hr : exists r, modules !! activated_id a = Some r /\ activated_plugins a = plugin_ids r).
  { destruct Ha as [Ha|(r & rest & l & b & -> & Hl & Hb)].
    - rewrite Forall_forall in Ha. destruct (Ha a Hin) as (r & ? & ? & _). by exists r.
    - apply elem_of_app in Hin as [Hin|Hin%list_elem_of_singleton].
      + rewrite Forall_forall in Hl. destruct (Hl a Hin) as (r' & ? & ? & _). by exists r'.
      + subst b. destruct Hb as (? & ? & _). by exists r. }
  destruct Hr as (r & Hr & Hps). exists r. split; [by apply list_elem_of_fmap_2|]. by rewrite <- Hps.
Qed.
Lemma owned_plugins_snoc acts a : owned_plugins (acts ++ [a]) = owned_plugins acts ++ activated_plugins a.
Proof. unfold owned_plugins. by rewrite bind_app, bind_singleton. Qed.
Lemma pop_snoc {A} (l : list A) x : pop (l ++ [x]) = Some (l, x).
Proof. unfold pop. rewrite reverse_snoc. by rewrite reverse_involutive. Qed.
Lemma on_last_snoc {A} (f : A -> A) l x : on_last f (l ++ [x]) = l ++ [f x].
Proof. unfold on_last. by rewrite pop_snoc. Qed.
Lemma in_progress_push r p f rest acts :
  in_progress r (p :: rest) acts -> in_progress r rest (on_last (push_fiber (p, f)) acts) /\
  activated_id <$> on_last (push_fiber (p, f)) acts = activated_id <$> acts /\
  owned_plugins (on_last (push_fiber (p, f)) acts) = owned_plugins acts.
Proof.
  intros (l & a & -> & Hl & H1 & H2 & H3 & H4 & H5). rewrite on_last_snoc, !owned_plugins_snoc, !fmap_app. split; [|done].
  exists l, (push_fiber (p, f) a). split; [done|]. split; [done|]. repeat split; try done. cbn. rewrite fmap_app, <- app_assoc. done.
Qed.
Lemma in_progress_arm r acts :
  in_progress r [] acts -> Forall whole (on_last arm_hook acts) /\
  activated_id <$> on_last arm_hook acts = activated_id <$> acts /\
  owned_plugins (on_last arm_hook acts) = owned_plugins acts.
Proof.
  intros (l & a & -> & Hl & H1 & H2 & H3 & H4 & H5). rewrite on_last_snoc, !owned_plugins_snoc, !fmap_app. split; [|done].
  apply Forall_app. split; [done|]. apply Forall_singleton. exists r. rewrite app_nil_r in H3. done.
Qed.

(** ** The invariant *)
Section progress.
Context {S : Type} (order : list Id) (Hnd : NoDup order).
Implicit Types v : activation (S := S).
(** The causes of a failure after construction. *)
Definition late_cause (e : ActivationError) : Prop :=
  match e with
  | ActivationFailed _ (RegistrationStage _ _) => False
  | ActivationFailed _ _ | ReconciliationFailed _ => True
  | _ => False
  end.
(** The registrations that are not, or no longer, owned. *)
Definition given_back (acts : list ActivatedModule) (b : list cleanup_step) (w : world) : Prop :=
  forall m r c, modules !! m = Some r -> c ∈ plugins r ->
    (exists m', Unregisters m' (contribution_key c) ∈ b) \/ contribution_key c ∉ owned_plugins acts ->
    w_registry w !! contribution_key c = None.
Definition stage_ok v : Prop :=
  let acts := activated v in
  let held := registry_holds (owned_plugins acts) (av_world v) in
  match av_stage v with
  | BetweenModules => Forall whole acts /\ held
  | StartsFibers r rest => in_progress r rest.*1 acts /\ held
  | AwaitsStart r p _ _ rest => in_progress r (p :: rest.*1) acts /\ held
  | AwaitsHook r => in_progress r [] acts /\ held
  | Reconciles _ | Activates => Forall whole acts /\ av_rest v = [] /\ held
  | RollsBack e x =>
      acquired acts /\ late_cause e /\ accounts acts (run_ledger x) (run_begun x) (run_settled x) /\
      given_back acts (run_begun x) (av_world v)
  | ActivationFails f =>
      acquired acts /\ late_cause (startup_cause f) /\
      (exists s, s.*1 = step_key <$> cleanup_plan acts /\ startup_rollback f = report_of acts s) /\
      forall m r c, modules !! m = Some r -> c ∈ plugins r -> w_registry (av_world v) !! contribution_key c = None
  | ActivationPanics => True
  end.
Definition progresses v : Prop := order = (activated_id <$> activated v) ++ av_rest v /\ stage_ok v.
Definition same_plugins (w w' : world) : Prop := forall m r c, modules !! m = Some r -> c ∈ plugins r ->
  w_registry w' !! contribution_key c = w_registry w !! contribution_key c.
Lemma progresses_world w v : same_plugins (av_world v) w -> progresses v ->
  progresses {| av_world := w; av_runtime := av_runtime v; av_rest := av_rest v; activated := activated v; av_stage := av_stage v |}.
Proof.
  intros Hw [Ho Hs]. split; [done|]. unfold stage_ok in *. cbn.
  assert (Hh : forall l, registry_holds l (av_world v) -> registry_holds l w) by (intros l; by apply registry_holds_agree).
  destruct (av_stage v) as [|r rest|r p f t rest|r|k|e x| |f|]; cbn in *; try exact I; try (destruct_and!; split_and!; auto; done).
  - destruct Hs as (? & ? & ? & Hg). split_and!; [done..|]. intros m r c Hr Hc. rewrite (Hw m r c Hr Hc). by apply (Hg m r c).
  - destruct Hs as (? & ? & ? & Hg). split_and!; [done..|]. intros m r c Hr Hc. rewrite (Hw m r c Hr Hc). by apply (Hg m r c).
Qed.
(** A failure owns what was acquired. *)
Lemma progresses_fail e v :
  order = (activated_id <$> activated v) ++ av_rest v -> acquired (activated v) -> late_cause e ->
  registry_holds (owned_plugins (activated v)) (av_world v) -> progresses (fail_activation e v).
Proof.
  intros Ho Ha He Hh. split; [done|]. cbn. split_and!; [done|done|apply accounts_new|].
  intros m r c Hr Hc [[m' Hx%elem_of_nil]|Hn]; [done|]. rewrite (Hh m r c Hr Hc). by rewrite decide_False.
Qed.
Lemma progresses_active v r :
  order = (activated_id <$> activated v) ++ av_rest v -> in_progress r [] (activated v) ->
  registry_holds (owned_plugins (activated v)) (av_world v) -> progresses (module_active v).
Proof.
  intros Ho Hp Hh. destruct (in_progress_arm _ _ Hp) as (Hw & Hi & Hq). split; cbn; [by rewrite Hi|]. split; [done|].
  by rewrite <- Hq in Hh.
Qed.
Lemma progresses_begin live refusals m rest r v :
  order = (activated_id <$> activated v) ++ m :: rest -> modules !! m = Some r -> Forall whole (activated v) ->
  registry_holds (owned_plugins (activated v)) (av_world v) -> progresses (begin_module live refusals m rest r v).
Proof.
  intros Ho Hr Hw Hh. unfold begin_module.
  assert (Hfresh : forall c, c ∈ plugins r -> contribution_key c ∉ owned_plugins (activated v)).
  { intros c Hc (m' & r' & Hm' & Hr' & (c' & Hk & Hc')%list_elem_of_fmap)%acquired_plugins; [|by left].
    destruct (plugin_unique m m' r r' c c') as [-> _]; [done..|].
    rewrite Ho in Hnd. apply NoDup_app in Hnd as (_ & Hn & _). apply (Hn _ Hm'). by left. }
  destruct (register_plugins_spec m r (owned_plugins (activated v)) Hr Hfresh (plugins r) [] (av_world v)) as (w & Hreg & Hh2);
    [done|by rewrite app_nil_r|]. change (contribution_key <$> []) with (@nil Id) in Hreg. rewrite Hreg.
  cbn [av_world av_runtime activated].
  pose proof (instantiate_plugins_spec live m (plugins r) refusals (capability_runtime (av_runtime v)) w []) as Hi.
  destruct (instantiate_plugins _ _ _ _ _ _ _) as [[x w'] y]. destruct Hi as [Hw' Hy].
  set (a := {| activated_id := m; activated_plugins := plugin_ids r; activated_fibers := []; activated_on_dispose := on_dispose r;
               hook_armed := false |}).
  assert (Hord : order = (activated_id <$> activated v ++ [a]) ++ rest) by (rewrite fmap_app, <- app_assoc; done).
  assert (Hh3 : registry_holds (owned_plugins (activated v ++ [a])) w').
  { rewrite owned_plugins_snoc. eapply registry_holds_agree; [|exact Hh2]. intros. by rewrite Hw'. }
  assert (Hprog : in_progress r (plugin_ids r) (activated v ++ [a])) by (exists (activated v), a; split_and!; done).
  destruct y as [e|fs].
  - destruct Hy as (p & reason & ->). apply progresses_fail; [done|right; by exists r, (plugin_ids r)|done|done].
  - split; [done|]. cbn. split; [|done]. by rewrite Hy.
Qed.

Lemma given_back_sweep t a acts w l b :
  given_back acts b w ->
  let r := run_sweep t a RegistryAuthority w l in given_back acts (b ++ omap begins (sr_events r)) (sr_world r).
Proof.
  intros H r m r0 c Hr Hc Hor.
  destruct (decide (w_registry w !! contribution_key c = None)) as [Hn|Hn].
  { destruct (sweep_unregisters t a w l [Unregisters m (contribution_key c)]) with (m := m) (p := contribution_key c);
      [|by apply elem_of_app; left; left|done]. intros m' p [= _ ->]%list_elem_of_singleton. done. }
  destruct Hor as [[m' Hb]|Hno]; [|by destruct Hn; apply (H m r0 c Hr Hc); right].
  apply elem_of_app in Hb as [Hb|Hb]; [by destruct Hn; apply (H m r0 c Hr Hc); left; exists m'|].
  apply (sweep_unregisters t a w l [] ltac:(by intros ?? ?%elem_of_nil) m'). done.
Qed.
Lemma progresses_rollback t a e x v :
  av_stage v = RollsBack e x -> progresses v -> progresses (activate_modules plan t a v).
Proof.
  intros Hst [Ho Hs]. unfold stage_ok in Hs. rewrite Hst in Hs. destruct Hs as (Hacq & He & Hacc & Hg).
  unfold activate_modules. rewrite Hst. unfold cleanup_round.
  assert (Hids : NoDup (activated_id <$> activated v)) by (rewrite Ho in Hnd; by apply NoDup_app in Hnd as (? & _ & _)).
  pose proof (run_sweep_accounts _ Hids t (says_hook a) RegistryAuthority (av_world v) (run_ledger x) _ _ Hacc) as Hacc'.
  pose proof (given_back_sweep t (says_hook a) _ _ (run_ledger x) _ Hg) as Hg'. cbv zeta in Hg'.
  pose proof (fun report => run_sweep_finishes _ t (says_hook a) RegistryAuthority (av_world v) (run_ledger x) _ _ report Hacc) as Hfin.
  destruct (sr_to (run_sweep t (says_hook a) RegistryAuthority (av_world v) (run_ledger x))) as [| |report|] eqn:Hto.
  - by split.
  - by split.
  - destruct (Hfin report eq_refl) as (Hb & Hset & -> & Hev & Hw). split; [done|]. cbn. split_and!; [done|done|exists (run_settled x); split; [by rewrite Hset, Hb|done]|].
    intros m r c Hr Hc. rewrite Hw. apply (Hg m r c Hr Hc).
    destruct (decide (contribution_key c ∈ owned_plugins (activated v))) as [Hin|]; [left|by right].
    rewrite Hb. apply list_elem_of_bind in Hin as (b & Hp & Hin). exists (activated_id b).
    apply list_elem_of_bind. exists b. split; [|by apply elem_of_reverse].
    unfold module_steps, steps_of. rewrite !elem_of_app. right. right. apply list_elem_of_fmap_2. by apply elem_of_reverse.
  - by split.
Qed.
Lemma coordinator_registry live t w x k w' x' k' :
  coordinator_step live t w x k = Some (w', x', k') -> w_registry w' = w_registry w.
Proof.
  unfold coordinator_step. intros H. destruct k as [[|id q] [] r|u id q r|c g|c g|e|e [|id q] r|u id e q r|r];
    try (destruct (outcome_of w u); [cbn in H|done]); repeat (case_match; simplify_option_eq);
    try match goal with H : Some _ = Some _ |- _ => injection H as <- _ _ end; done.
Qed.
Lemma progresses_reconcile t a v k :
  av_stage v = Reconciles k -> order = (activated_id <$> activated v) ++ av_rest v -> Forall whole (activated v) ->
  av_rest v = [] -> registry_holds (owned_plugins (activated v)) (av_world v) ->
  progresses
    match coordinator_step (says_live a) t (av_world v) (capability_runtime (av_runtime v)) k with
    | None => v
    | Some (w, x, k) =>
        let v := {| av_world := w; av_runtime := set_reactive x (av_runtime v); av_rest := av_rest v;
                    activated := activated v; av_stage := Reconciles k |} in
        match k with
        | Finished (Ok report) =>
            if is_success report then to_stage Activates v
        else fail_activation (ReconciliationFailed (reconciliation_reason (says_debug a) report)) v
        | _ => v
        end
    end.
Proof.
  intros Hst Ho Hw Hr Hh.
  destruct (coordinator_step _ _ _ _ _) as [[[w x] k']|] eqn:E; [|by split; [|unfold stage_ok; rewrite Hst]].
  assert (Hh' : registry_holds (owned_plugins (activated v)) w).
  { eapply registry_holds_agree; [|exact Hh]. intros. by rewrite (coordinator_registry _ _ _ _ _ _ _ _ E). }
  cbv zeta. destruct k' as [| | | | | | |[report|e|site|]]; try by split.
  destruct (is_success report); [by split|]. by apply progresses_fail; [|left| |].
Qed.
Lemma progresses_step t a v : progresses v -> progresses (activate_modules plan t a v).
Proof.
  intros H. destruct (av_stage v) as [|r rest|r p f u rest|r|k|e x| |y|] eqn:Hst;
    try (eapply progresses_rollback; done); unfold activate_modules; rewrite Hst; try done;
    destruct H as [Ho Hs]; unfold stage_ok in Hs; rewrite Hst in Hs.
  - destruct Hs as [Hw Hh]. destruct (av_rest v) as [|m rest] eqn:Hrest.
    { split; cbn; [by rewrite Hrest|]. by rewrite Hrest. }
    destruct (modules !! m) as [r|] eqn:Hr; [by eapply progresses_begin|]. split; [|done]. cbn. by rewrite Hrest.
  - destruct Hs as [Hp Hh]. destruct rest as [|[p f] rest]; [|by split; [|split; [done|]]].
    destruct (on_activate r); [|by eapply progresses_active]. by destruct (says_hook a); split.
  - destruct Hs as [Hp Hh].
    assert (Hfail : forall e, late_cause e -> progresses (fail_activation e v)).
    { intros e He. apply progresses_fail; [done|right; by exists r, (p :: rest.*1)|done|done]. }
    destruct (in_progress_push _ _ f _ _ Hp) as (Hp' & Hi & Hq).
    assert (Hpush : progresses (to_stage (StartsFibers r rest) (on_current (push_fiber (p, f)) v))).
    { split; cbn; [by rewrite Hi|]. split; [done|]. by rewrite <- Hq in Hh. }
    assert (Hstay : progresses v) by (split; [done|unfold stage_ok; by rewrite Hst]).
    destruct (w_tasks (av_world v) !! u) as [k|]; [|by split].
    destruct k as [g q|g q|g q]; [|done|done]. destruct q as [| | | | | | | | | | | | | | | | | | |ret]; try done.
    destruct ret; [done|done|by apply Hfail].
  - destruct Hs as [Hp Hh]. destruct (says_hook a) as [|[reason|]|].
    + split; [done|unfold stage_ok; by rewrite Hst].
    + apply progresses_fail; [done|right; by exists r, []|done|done].
    + by eapply progresses_active.
    + by split.
  - destruct Hs as (Hw & Hr & Hh). destruct (awaited k ≫= _) as [[|]|]; [|by split|];
      apply progresses_reconcile; try done; by rewrite Hst.
Qed.
Lemma progresses_reachable v v' :
  rtc (activation_step plan (plugin_key <$> items modules plugins)) v v' -> progresses v -> progresses v'.
Proof.
  induction 1 as [|v1 v2 v3 Hs _ IH]; [done|]. intros H. apply IH. destruct Hs as [t a v1 _|v1 es w _ Hw _].
  - by apply progresses_step.
  - apply progresses_world; [|done]. intros m r c Hr Hc. apply Hw. apply list_elem_of_fmap.
    exists (m, c). split; [done|]. apply elem_of_items. eauto.
Qed.
Lemma progresses_start (v : activation (S := S)) : av_rest v = order -> activated v = [] -> av_stage v = BetweenModules ->
  w_registry (av_world v) = ∅ -> progresses v.
Proof.
  intros Hr Ha Hst Hw. split; [by rewrite Ha, Hr|]. unfold stage_ok. rewrite Hst, Ha. split; [constructor|].
  intros m r c _ _. rewrite Hw, decide_False; [apply lookup_empty|]. apply not_elem_of_nil.
Qed.
End progress.
End activation.
