(* ===== verification/AssemblySafety.v ===== *)
(** * What activation and release guarantee

    An activation acquires every module of the plan or gives everything back;
    every acquired resource is released once, in reverse, through all drops,
    panics and refused attempts; a release rests on the state of its own driver,
    and the remaining work is always reachable. *)
From S2P Require Export ActivationFacts.
#[local] Open Scope string_scope.
#[local] Open Scope nat_scope.
#[local] Open Scope list_scope.

(** ** Releases *)
Section releases.
Context {S : Type} {DS : DurableStore S}.
Implicit Types (c : composition (S := S)).
(** The compositions that an activated assembly can be in, once it has a driver. *)
Definition composed (id : DriverOwner) (a : RuntimeAssembly S) c : Prop :=
  NoDup (activated_id <$> assembly_owned a) /\
  exists w, rtc (composition_step (owned_plugins (assembly_owned a))) (composition_new w id a) c.
Lemma composed_held id a c : composed id a c -> held id (assembly_owned a) c.
Proof. intros [Hnd (w & Hr)]. eapply held_reachable; [done|exact Hr|]. by apply held_new. Qed.

(** C12: cleanup happens once.  Let releases be started, polled, dropped, refused
    and retried in any order, with panicking hooks, a lost driver and anything
    else going on.  The steps begun are the first ones of the plan, the modules
    in reverse, each with its armed hook, its fibers and its registrations, and
    each step is begun once; they settle in that order, one at a time.  When the
    handle is released, all have settled and one report was given, which names
    exactly the failures, in order, and as cleaned exactly the other modules;
    before that none is given. *)
Theorem cleanup_once (id : DriverOwner) (a : RuntimeAssembly S) c (H : composed id a c) :
  begun c `prefix_of` cleanup_plan (assembly_owned a) /\
  (settled c).*1 `prefix_of` (step_key <$> begun c) /\ length (begun c) <= Datatypes.S (length (settled c)) /\
  match ledger_of c with
  | Some l => final_reports c = [] /\ begun c ++ outstanding l = cleanup_plan (assembly_owned a)
  | None => begun c = cleanup_plan (assembly_owned a) /\ (settled c).*1 = step_key <$> begun c /\
      final_reports c = [report_of (assembly_owned a) (settled c)]
  end.
Proof.
  apply composed_held in H. pose proof (hd_reports _ _ _ H) as Hrep. destruct (ledger_of c) as [l|] eqn:Hl.
  - destruct (hd_open _ _ _ H l Hl) as [Hp Hs _ _ _ _].
    assert (Hlen : length (step_key <$> begun c) = length (settled c) + length (option_list (in_flight_key <$> in_flight l))).
    { rewrite <- Hs, length_app, length_fmap. done. }
    rewrite length_fmap in Hlen. split_and!; [by exists (outstanding l)|by eexists|by rewrite Hlen; destruct (in_flight l); cbn; lia|done|done].
  - destruct (hd_closed _ _ _ H Hl) as [Hb Hs]. split_and!; [by rewrite Hb|by rewrite Hs| |done|done|done].
    assert (Hlen : length (settled c).*1 = length (begun c)) by (by rewrite Hs, length_fmap). rewrite length_fmap in Hlen. lia.
Qed.

(** C14: a release rests on its own driver.  A sweep with the registry runs only
    after that driver has exited, with the runtime of this exit; a sweep without
    it only when the owner was lost, or after an accepted release was given up.
    A completed orderly release returns the runtime and the status of that exit,
    its report is exact, and none of the composition's plugins is registered any
    more. *)
Theorem release_authorized (id : DriverOwner) (a : RuntimeAssembly S) c (H : composed id a c) :
  (forall r status, releasing c = Some (OrderlySweep r status) -> owner (driver c) = DriverExited r status) /\
  (releasing c = Some LossSweep -> exists l, ledger_of c = Some l /\
     (owner_state (mailbox (driver c)) = OwnerIsDropped \/ orderly_release_accepted l = true)) /\
  (forall x, AnswersRelease (inr x) ∈ release_answers c ->
     owner (driver c) = DriverExited (released_runtime x) (driver_status x) /\
     released_report x = report_of (assembly_owned a) (settled c) /\
     forall p, p ∈ owned_plugins (assembly_owned a) -> w_registry (capability_world c) !! p = None).
Proof.
  apply composed_held in H. split_and!.
  - intros r status Hr. by apply (hd_future _ _ _ H _ Hr).
  - intros Hr. destruct (hd_future _ _ _ H _ Hr) as (l & Hl & Ha). exists l. split; [done|]. unfold owner_state.
    destruct Ha as [->|Ha]; [by left|by right].
  - intros x Hx. destruct (hd_released _ _ _ H x Hx) as (He & Hl & Hu). destruct (hd_closed _ _ _ H Hl) as [Hb _].
    pose proof (hd_reports _ _ _ H) as Hrep. rewrite Hl in Hrep.
    assert (Hin : released_report x ∈ final_reports c) by (apply list_elem_of_omap; by eexists).
    rewrite Hrep in Hin. apply list_elem_of_singleton in Hin. split_and!; [done|done|].
    intros p (b & Hp & Hin')%list_elem_of_bind. apply (Hu (activated_id b)). rewrite Hb.
    apply list_elem_of_bind. exists b. split; [|by apply elem_of_reverse].
    unfold module_steps, steps_of. rewrite !elem_of_app. right. right. apply list_elem_of_fmap_2. by apply elem_of_reverse.
Qed.

(** *** Progress *)
Definition polls (l : list (TaskId * hook_answer)) c : composition := foldl (fun c x => poll_release x.1 x.2 c) c l.
Lemma polls_end l : forall c x k, releasing c = Some x -> sweeping x -> ledger_of c = Some k -> rounds_left k < length l ->
  exists i t a y k', l !! i = Some (t, a) /\ releasing (polls (take i l) c) = Some y /\
    ledger_of (polls (take i l) c) = Some k' /\
    sr_to (run_sweep t a (authority_of y) (capability_world (polls (take i l) c)) k') <> Continues.
Proof.
  induction l as [|[t a] l IH]; intros c x k Hr Hx Hl Hk; [cbn in Hk; lia|].
  assert (Hto : let z := sr_to (run_sweep t a (authority_of x) (capability_world c) k) in z = Continues \/ z <> Continues)
    by (cbv zeta; destruct (sr_to _); first [by left|by right]).
  destruct Hto as [Hto|Hto]; [|exists 0, t, a, x, k; by split_and!].
  assert (Hp : poll_release t a c = after_round x (run_sweep t a (authority_of x) (capability_world c) k) c).
  { unfold poll_release, ledger_of in *. rewrite Hr, Hl. by destruct x. }
  destruct (IH (poll_release t a c) x (sr_ledger (run_sweep t a (authority_of x) (capability_world c) k)))
    as (i & t' & a' & y & k' & H1 & H2 & H3 & H4).
  - rewrite Hp. cbn. by rewrite Hto.
  - done.
  - rewrite Hp. unfold ledger_of. cbn. by rewrite Hto.
  - pose proof (run_sweep_progress _ _ _ _ _ Hto). cbn [length] in Hk. lia.
  - by exists (Datatypes.S i), t', a', y, k'.
Qed.
Definition composition_acts (ms : list (composition_move (S := S))) c : composition := foldl (fun c m => composition_act m c) c ms.
Lemma refusing_exits cs : forall c d s, owner (driver c) = Refusing d s cs ->
  exists ms, ms = replicate (Datatypes.S (length cs)) (Drives OwnerContinues) /\
    owner (driver (composition_acts ms c)) = DriverExited (driver_runtime d) s /\
    composition_handle (composition_acts ms c) = composition_handle c /\ taken (composition_acts ms c) = taken c /\
    releasing (composition_acts ms c) = releasing c.
Proof.
  induction cs as [|x cs IH]; intros c d s Ho; eexists; (split; [done|]).
  - cbn. by rewrite Ho.
  - assert (Ho' : owner (driver (composition_act (Drives OwnerContinues) c)) = Refusing d s cs).
    { cbn. rewrite Ho. cbn. unfold answer_after_close. by destruct (complete_after_close _ _). }
    destruct (IH _ d s Ho') as (ms & -> & H1 & H2 & H3 & H4). by split_and!.
Qed.

(** C15: the remaining cleanup is always within reach, and a sweep ends.  Once
    the driver no longer runs, a handle with work left and no release in progress
    has a legal release: the host's next calls, and what the driver's task has
    left to do, start one.  Polling a sweep again and again waits only for a step
    in progress: among any polls longer than the work left is one that finds the
    sweep finished, panicked, or waiting for a hook or a fiber. *)
Theorem release_reachable (id : DriverOwner) (a : RuntimeAssembly S) c (H : composed id a c) l (Hl : ledger_of c = Some l) :
  (releasing c = None -> owner_state (mailbox (driver c)) <> OwnerRunning ->
     exists ms x, Forall (fun m => match m with Drives OwnerContinues | TakesExit | CallsDispose _ | CallsOwnerLoss => True | _ => False end) ms /\
       releasing (composition_acts ms c) = Some x /\ sweeping x) /\
  (forall x ps, releasing c = Some x -> sweeping x -> rounds_left l < length ps ->
     exists i t a y k, ps !! i = Some (t, a) /\ releasing (polls (take i ps) c) = Some y /\
       ledger_of (polls (take i ps) c) = Some k /\
       sr_to (run_sweep t a (authority_of y) (capability_world (polls (take i ps) c)) k) <> Continues).
Proof.
  split; [|by intros; eapply polls_end]. apply composed_held in H. intros Hr Hs.
  destruct (decide (owner_dropped (mailbox (driver c)) = true \/ orderly_release_accepted l = true)) as [Hor|Hnot].
  { exists [CallsOwnerLoss], LossSweep. split; [by repeat constructor|]. split; [|done]. cbn. unfold call_owner_loss, ledger_of in *.
    rewrite Hr. unfold release_after_owner_loss, owner_state in *. rewrite Hl.
    destruct (owner_dropped (mailbox (driver c))); [done|]. destruct Hor as [|Ha]; [done|]. rewrite Ha.
    by destruct (mailbox_closed (mailbox (driver c))). }
  assert (Hd : owner_dropped (mailbox (driver c)) = false) by (apply not_true_iff_false; tauto).
  assert (Hacc : orderly_release_accepted l = false) by (apply not_true_iff_false; tauto).
  pose proof (hd_moored _ _ _ H) as M. pose proof (st_closed _ (mo_steady _ M)) as Hc. pose proof (st_dropped _ (mo_steady _ M)) as Hd'.
  unfold owner_state in Hs. rewrite Hd in Hs, Hd'. destruct (mailbox_closed (mailbox (driver c))) eqn:Hcl; [|done].
  (* from an exited driver *)
  assert (Hexit : forall c' r s, owner (driver c') = DriverExited r s -> ledger_of c' = Some l -> releasing c' = None ->
    driver_owner (composition_handle c') = id -> (taken c' = true -> exists e, e ∈ exits c' /\ exit_owner e = id) ->
    exists i x, releasing (composition_acts [TakesExit; CallsDispose i] c') = Some x /\ sweeping x).
  { intros c' r s Ho Hl' Hr' Hid Hhand.
    assert (He : exists i e, exits (take_exit c') !! i = Some e /\ exit_owner e = id).
    { unfold take_exit. rewrite Ho. destruct (taken c'); [destruct (Hhand eq_refl) as (e & (i & Hi)%list_elem_of_lookup & ?); eauto|].
      exists (length (exits c')). eexists. cbn. split; [by apply list_lookup_middle|done]. }
    destruct He as (i & e & Hi & He). exists i, (OrderlySweep (exit_runtime e) (exit_status e)). split; [|done].
    assert (Htake : composition_handle (take_exit c') = composition_handle c' /\ releasing (take_exit c') = releasing c')
      by (unfold take_exit; rewrite Ho; by destruct (taken c')).
    destruct Htake as [Hh Hrel]. cbn. unfold call_dispose. rewrite Hrel, Hr', Hi. unfold dispose_after_driver.
    rewrite Hh, bool_decide_false by (rewrite Hid, He; tauto). unfold ledger_of in Hl'. by rewrite Hl', Hacc. }
  destruct (owner (driver c)) as [d|d|d q0 q|d s es ps ts|d s cs|r s|st q|st cs|st] eqn:Ho; try done.
  - destruct (refusing_exits cs c d s Ho) as (ms & -> & H1 & H2 & H3 & H4).
    destruct (Hexit (composition_acts (replicate (Datatypes.S (length cs)) (Drives OwnerContinues)) c) _ _ H1) as (i & x & Hx & Hw).
    + unfold ledger_of in *. by rewrite H2.
    + by rewrite H4.
    + rewrite H2. apply H.
    + rewrite H3. intros Ht. destruct (hd_taken _ _ _ H Ht) as (r' & s' & He). unfold exited_with in He. congruence.
    + exists (replicate (Datatypes.S (length cs)) (Drives OwnerContinues) ++ [TakesExit; CallsDispose i]), x.
      split; [apply Forall_app; split; [by apply Forall_replicate|by repeat constructor]|]. split; [|done].
      unfold composition_acts in *. by rewrite foldl_app.
  - destruct (Hexit c r s Ho Hl Hr) as (i & x & Hx & Hw); [apply H|intros Ht; by eapply hd_hand|].
    exists [TakesExit; CallsDispose i], x. split; [by repeat constructor|done].
Qed.
End releases.

(** ** Activation *)
Section activations.
Context {S : Type} {DS : DurableStore S} `{SF : StoreFormat}.
Context (build_value : list Id -> CapabilityFactory -> gmap CapabilityId CapabilityEntry -> string + CapabilityValue).
(** What the activation of the plan [p] can come to. *)
Definition activating (p : CompositionPlan) (config : HostConfig) (v : activation (S := S)) : Prop :=
  exists stage run n w st w' st' v0, activate build_value stage run p config n w st = (w', st', Ok v0) /\
    rtc (activation_step p (plugin_key <$> items (plan_modules p) plugins)) v0 v.
Lemma activating_progresses modules p config v :
  Composition.build {| builder_modules := modules |} = Ok p -> activating p config v ->
  NoDup (Composition.plan_order p) /\ progresses p (Composition.plan_order p) v.
Proof.
  intros Hb (stage & run & n & w & st & w' & st' & v0 & Hact & Hr).
  destruct (build_cases modules) as [(p' & Hb' & Hok & Hp)|(e & He & _)]; [|congruence].
  rewrite Hb in Hb'. injection Hb' as <-.
  assert (Hnd : NoDup (Composition.plan_order p)) by (eapply least_first_NoDup, (ph_order _ _ Hp)).
  destruct (ok_plugins _ Hok) as (_ & Hkeys & _). rewrite <- (ph_modules _ _ Hp) in Hkeys.
  split; [done|]. eapply progresses_reachable; [done..|exact Hr|].
  unfold activate in Hact. destruct (validate_host_config _ _); try done.
  unfold construct in Hact. destruct (match stage with ConstructionStart => _ | ConstructionRestore => _ end) as [[h st1] x].
  destruct x as [r|e|site|]; cbn in Hact; try done. injection Hact as <- <- <-. by apply progresses_start.
Qed.

(** C13: activation acquires everything or nothing.  Start or restore the plan of
    an accepted composition, with any answers of plugins, hooks and coordinator,
    and anything else going on.  When it succeeds, every module of the plan is
    owned, in the order of the plan: all its plugins are registered, each has a
    started fiber, and its disposal hook is armed.  When it fails after the
    construction, it is never for a plugin that was already registered; every
    step of the cleanup of what was acquired has settled, the report names the
    failures among them, and no plugin of the composition is registered. *)
Theorem activation_exact modules p config v :
  Composition.build {| builder_modules := modules |} = Ok p -> activating p config v ->
  (forall a, activated_assembly p config v = Some a ->
     activated_id <$> assembly_owned a = Composition.plan_order p /\ Forall (whole p) (assembly_owned a) /\
     forall m r c, plan_modules p !! m = Some r -> c ∈ plugins r ->
       w_registry (av_world v) !! contribution_key c = Some (plugin c)) /\
  (forall f, av_stage v = ActivationFails f ->
     (activated_id <$> activated v) `prefix_of` Composition.plan_order p /\ acquired p (activated v) /\
     late_cause (startup_cause f) /\
     (exists s, s.*1 = step_key <$> cleanup_plan (activated v) /\ startup_rollback f = report_of (activated v) s) /\
     forall m r c, plan_modules p !! m = Some r -> c ∈ plugins r ->
       w_registry (av_world v) !! contribution_key c = None).
Proof.
  intros Hb Hact. destruct (activating_progresses modules p config v Hb Hact) as [Hnd [Ho Hs]].
  destruct (build_cases modules) as [(p' & Hb' & Hok & Hp)|(e & He & _)]; [|congruence].
  rewrite Hb in Hb'. injection Hb' as <-. unfold stage_ok in Hs. split.
  - intros a Ha. unfold activated_assembly in Ha. destruct (av_stage v); try done. injection Ha as <-. cbn.
    destruct Hs as (Hw & Hr & Hh). rewrite Hr, app_nil_r in Ho. split_and!; [done|done|].
    intros m r c Hm Hc. rewrite (Hh m r c Hm Hc), decide_True; [done|].
    assert (Hin : m ∈ activated_id <$> activated v).
    { rewrite <- Ho. apply (ph_order _ _ Hp). rewrite <- (ph_modules _ _ Hp). by eexists. }
    apply list_elem_of_fmap in Hin as (b & -> & Hin). apply list_elem_of_bind. exists b. split; [|done].
    rewrite Forall_forall in Hw. destruct (Hw b Hin) as (r' & Hr' & -> & _). assert (r' = r) as -> by congruence.
    unfold plugin_ids. by apply list_elem_of_fmap_2.
  - intros f Hf. rewrite Hf in Hs. destruct Hs as (Hacq & He & Hrep & Hreg). split_and!; [|done..].
    rewrite Ho. by apply prefix_app_r.
Qed.
End activations.

(** ** A composition from its plan to its release *)
#[local] Existing Instance sample_format.
Definition sample_build (calls : list Id) (f : CapabilityFactory) (entries : gmap CapabilityId CapabilityEntry) :
  string + CapabilityValue := inr 5%N.
Definition sample_config : HostConfig := config_provide HostConfig_new "url" "memory:".
Definition sample_activation : option (activation (S := InMemoryDurableStore)) :=
  match activate sample_build ConstructionStart "run" sample_plan sample_config 1 world_start InMemoryDurableStore_new with
  | (_, _, Ok v) => Some v
  | _ => None
  end.
Definition agreeable (p : pc) : Fiber.answer :=
  match p with
  | Called _ => Validated None
  | Running _ _ => Produced (inr 7%N)
  | _ => Disposal None
  end.
Definition fresh_task (w : world) : TaskId := N.of_nat (size (w_tasks w)).
(** A step of the fiber that is being started, else of the activation. *)
Definition next_activation (refusals : list (option string)) (v : activation (S := InMemoryDurableStore)) :
  activation (S := InMemoryDurableStore) :=
  let moved :=
    match awaited_task (av_stage v) with
    | Some u =>
        match w_tasks (av_world v) !! u with
        | Some (OnFiber f p) => fst <$> advance (av_world v) u (agreeable p)
        | _ => None
        end
    | None => None
    end in
  match moved with
  | Some w => {| av_world := w; av_runtime := av_runtime v; av_rest := av_rest v; activated := activated v;
                 av_stage := av_stage v |}
  | None =>
      let t := fresh_task (av_world v) in
      if bool_decide (w_tasks (av_world v) !! t = None)
      then activate_modules sample_plan t {| says_live := dom (w_fibers (av_world v)); says_refusals := refusals;
                                             says_hook := HookResolves None; says_debug := fun _ => "failed" |} v
      else v
  end.
Definition activation_run (refusals : list (option string)) (n : nat) (v : activation (S := InMemoryDurableStore)) :=
  Nat.iter n (next_activation refusals) v.
Lemma advance_registry w t a w' d u : advance w t a = Some (w', d) ->
  w_registry w' = w_registry w /\ stays_gone u w w'.
Proof.
  unfold advance. destruct (w_tasks w !! t) as [k|] eqn:Ht; [|done]. cbn. destruct (task_at k) as [x|]; [|done]. cbn.
  destruct (w_fibers w !! x.1) as [f|]; [|done]. cbn. destruct (step_pc _ _ _ _ _) as [[[s f'] p]|]; [|done]. intros [= <- _].
  split; [done|]. intros v _ Hv. cbn. destruct (decide (v = t)) as [->|]; [|by rewrite lookup_insert_ne]. congruence.
Qed.
Lemma next_activation_step refusals v :
  rtc (activation_step sample_plan (plugin_key <$> items (plan_modules sample_plan) plugins)) v (next_activation refusals v).
Proof.
  unfold next_activation.
  assert (Hstep : forall b t a, b = bool_decide (w_tasks (av_world v) !! t = None) ->
    rtc (activation_step sample_plan (plugin_key <$> items (plan_modules sample_plan) plugins)) v
      (if b then activate_modules sample_plan t a v else v)).
  { intros b t a ->. case_bool_decide; [|done]. by apply rtc_once, activate_step. }
  destruct (awaited_task (av_stage v)) as [t|] eqn:Hst; [|by apply Hstep].
  destruct (w_tasks (av_world v) !! t) as [[f0 p0|? ? ? ? ?|? ?]|] eqn:Ht; try (by apply Hstep).
  destruct (advance (av_world v) t (agreeable p0)) as [[w d]|] eqn:Ha; [|by apply Hstep].
  apply rtc_once. cbn. eapply world_step.
  - eapply step_advance; [exact Ht|done|exact Ha].
  - intros q _. by rewrite (proj1 (advance_registry _ _ _ _ _ None Ha)).
  - by apply (advance_registry _ _ _ _ _ _ Ha).
Qed.
Lemma activation_run_activating refusals n v : sample_activation = Some v ->
  activating sample_build sample_plan sample_config (activation_run refusals n v).
Proof.
  assert (H : forall x, activate sample_build ConstructionStart "run" sample_plan sample_config 1 world_start InMemoryDurableStore_new = x ->
    match x with (_, _, Ok v) => Some v | _ => None end = Some v -> activating sample_build sample_plan sample_config (activation_run refusals n v));
    [|exact (H _ eq_refl)].
  intros [[w' st'] [v0|e|site|]] E Hv; [|discriminate Hv..]. injection Hv as <-.
  exists ConstructionStart, "run", 1, world_start, InMemoryDurableStore_new, w', st', v0. split; [exact E|].
  clear E. induction n as [|n IH]; [done|]. etrans; [exact IH|]. apply next_activation_step.
Qed.
Lemma activation_exact_witness :
  exists v, sample_activation = Some v /\
    (exists a, activated_assembly sample_plan sample_config (activation_run [] 26 v) = Some a /\
       activated_id <$> assembly_owned a = ["store"; "feed"; "app"] /\ Forall (whole sample_plan) (assembly_owned a)) /\
    (exists f, av_stage (activation_run [Some "no"] 8 v) = ActivationFails f /\ late_cause (startup_cause f) /\
       exists s, s.*1 = step_key <$> cleanup_plan (activated (activation_run [Some "no"] 8 v)) /\
         startup_rollback f = report_of (activated (activation_run [Some "no"] 8 v)) s).
Proof.
  assert (Hc : match sample_activation with
    | Some v =>
        match activated_assembly sample_plan sample_config (activation_run [] 26 v), av_stage (activation_run [Some "no"] 8 v) with
        | Some _, ActivationFails _ => true
        | _, _ => false
        end
    | None => false
    end = true) by (vm_compute; reflexivity).
  pose proof (fun v rs n => activation_run_activating rs n v) as Hrun.
  destruct sample_activation as [v|]; [|discriminate]. exists v. split; [reflexivity|].
  destruct (activation_exact sample_build sample_modules sample_plan sample_config _ sample_builds (Hrun v [] 26 eq_refl)) as [H1 _].
  destruct (activation_exact sample_build sample_modules sample_plan sample_config _ sample_builds (Hrun v [Some "no"] 8 eq_refl)) as [_ H2].
  destruct (activated_assembly sample_plan sample_config (activation_run [] 26 v)) as [a|]; [|discriminate].
  destruct (av_stage (activation_run [Some "no"] 8 v)) as [| | | | | | |f|]; try discriminate. split.
  - exists a. destruct (H1 a eq_refl) as (Ho & Hw & _). split; [reflexivity|]. split; [|exact Hw]. rewrite Ho. vm_compute. reflexivity.
  - exists f. destruct (H2 f eq_refl) as (_ & _ & He & Hs & _). split; [reflexivity|]. split; [exact He|exact Hs].
Defined.

(** The activated composition gets a driver; the driver is shut down, its exit is
    presented, the release is dropped before it has begun, and the rest of the
    cleanup runs without the registry. *)
Definition sample_composition : option (composition (S := InMemoryDurableStore)) :=
  match sample_activation with
  | Some v =>
      let v := activation_run [] 26 v in
      match activated_assembly sample_plan sample_config v with
      | Some a => Some (composition_new (av_world v) 1%N a)
      | None => None
      end
  | None => None
  end.
Definition shut_down : list (composition_move (S := InMemoryDurableStore)) :=
  [Drives (Submits Shutdown); Drives (OwnerPolled Runtime_start); Drives OwnerContinues; Drives OwnerContinues;
   TakesExit; CallsDispose 0].
(** A step of the fiber whose disposal is awaited, else a poll of the release. *)
Definition next_release (c : composition (S := InMemoryDurableStore)) : composition (S := InMemoryDurableStore) :=
  let w := capability_world c in
  let moved :=
    match ledger_of c ≫= in_flight with
    | Some (FiberInFlight _ _ u) =>
        match w_tasks w !! u with
        | Some (OnFiber f p) => fst <$> advance w u (agreeable p)
        | _ => None
        end
    | _ => None
    end in
  match moved with
  | Some w => with_world w c
  | None => composition_act (PollsRelease (fresh_task w) (HookResolves None)) c
  end.
Lemma next_release_step ids c : rtc (composition_step ids) c (next_release c).
Proof.
  unfold next_release.
  assert (Hstep : forall m, rtc (composition_step ids) c (composition_act m c)) by (intros m; apply rtc_once, composition_act_step).
  destruct (ledger_of c ≫= in_flight) as [[m b|m p u|m p u]|]; try apply Hstep.
  destruct (w_tasks (capability_world c) !! u) as [[f p0|? ? ? ? ?|? ?]|] eqn:Ht; try apply Hstep.
  destruct (advance (capability_world c) u (agreeable p0)) as [[w d]|] eqn:Ha; [|apply Hstep].
  apply rtc_once. cbn. eapply others_step.
  - eapply step_advance; [exact Ht|done|exact Ha].
  - intros q _. by rewrite (proj1 (advance_registry _ _ _ _ _ None Ha)).
  - by apply (advance_registry _ _ _ _ _ _ Ha).
Qed.
Lemma acts_steps ids ms (c : composition (S := InMemoryDurableStore)) : rtc (composition_step ids) c (composition_acts ms c).
Proof.
  revert c. induction ms as [|m ms IH]; intros c; [done|]. eapply rtc_l; [apply composition_act_step|apply IH].
Qed.
Definition distinct_owners (a : RuntimeAssembly InMemoryDurableStore) : bool :=
  bool_decide (NoDup (activated_id <$> assembly_owned a)).
Definition sample_assembly : option (RuntimeAssembly InMemoryDurableStore) :=
  v ← sample_activation; activated_assembly sample_plan sample_config (activation_run [] 26 v).
Lemma sample_composed ms n :
  match sample_assembly, sample_composition with
  | Some a, Some c =>
      distinct_owners a = true -> composed 1%N a (Nat.iter n next_release (composition_acts ms c))
  | _, _ => True
  end.
Proof.
  unfold sample_assembly, sample_composition. destruct sample_activation as [v|]; [|exact I]. cbn [mbind option_bind].
  destruct (activated_assembly sample_plan sample_config (activation_run [] 26 v)) as [a|]; [|exact I]. intros Hnd.
  split; [by apply bool_decide_eq_true in Hnd|]. exists (av_world (activation_run [] 26 v)).
  etrans; [apply (acts_steps _ ms)|]. generalize (composition_acts ms (composition_new (av_world (activation_run [] 26 v)) 1%N a)).
  intros c. induction n as [|n IH]; [done|]. etrans; [exact IH|]. apply next_release_step.
Qed.
(** The facts that the witnesses read off a run. *)
Definition sampled (P : RuntimeAssembly InMemoryDurableStore -> composition (S := InMemoryDurableStore) -> bool) : bool :=
  match sample_assembly, sample_composition with Some a, Some c => distinct_owners a && P a c | _, _ => false end.
Lemma cleanup_once_witness :
  exists a (c : composition (S := InMemoryDurableStore)), composed 1%N a c /\ length (cleanup_plan (assembly_owned a)) = 2 /\
    begun c = cleanup_plan (assembly_owned a) /\ (settled c).*1 = step_key <$> begun c.
Proof.
  pose (ms := shut_down ++ [DropsRelease; CallsDispose 0; CallsOwnerLoss]).
  assert (Hc : sampled (fun a c => bool_decide (length (cleanup_plan (assembly_owned a)) = 2) &&
    match ledger_of (Nat.iter 30 next_release (composition_acts ms c)) with None => true | Some _ => false end) = true)
    by (vm_compute; reflexivity).
  pose proof (sample_composed ms 30) as Hs. unfold sampled in Hc.
  destruct sample_assembly as [a|]; [|discriminate]. destruct sample_composition as [c|]; [|discriminate].
  apply andb_true_iff in Hc as [Hnd Hc]. apply andb_true_iff in Hc as [Hlen%bool_decide_eq_true Hl].
  specialize (Hs Hnd). revert Hs Hl. generalize (Nat.iter 30 next_release (composition_acts ms c)). intros c' Hs Hl.
  destruct (cleanup_once 1%N a c' Hs) as (_ & _ & _ & H). destruct (ledger_of c'); [discriminate|].
  exists a, c'. split; [exact Hs|]. split; [exact Hlen|]. split; apply H.
Defined.
Lemma release_authorized_witness :
  exists a (c : composition (S := InMemoryDurableStore)) x, composed 1%N a c /\ AnswersRelease (inr x) ∈ release_answers c /\
    owned_plugins (assembly_owned a) = ["feeder"] /\ w_registry (capability_world c) !! ("feeder" : Id) = None.
Proof.
  assert (Hc : sampled (fun a c => bool_decide (owned_plugins (assembly_owned a) = ["feeder"]) &&
    match release_answers (Nat.iter 30 next_release (composition_acts shut_down c)) with
    | [AnswersRelease (inr _)] => true | _ => false end) = true) by (vm_compute; reflexivity).
  pose proof (sample_composed shut_down 30) as Hs. unfold sampled in Hc.
  destruct sample_assembly as [a|]; [|discriminate]. destruct sample_composition as [c|]; [|discriminate].
  apply andb_true_iff in Hc as [Hnd Hc]. apply andb_true_iff in Hc as [Hp%bool_decide_eq_true Hl].
  specialize (Hs Hnd). revert Hs Hl. generalize (Nat.iter 30 next_release (composition_acts shut_down c)). intros c' Hs Hl.
  destruct (release_answers c') as [|[[y|x]|y] [|z l]] eqn:E; try discriminate.
  assert (Hin : AnswersRelease (inr x) ∈ release_answers c') by (rewrite E; apply list_elem_of_here).
  destruct (release_authorized 1%N a c' Hs) as (_ & _ & H). destruct (H x Hin) as (_ & _ & Hr).
  exists a, c', x. split; [exact Hs|]. split; [exact Hin|]. split; [exact Hp|]. apply Hr. rewrite Hp. apply list_elem_of_here.
Defined.
Lemma release_reachable_witness :
  exists a (c : composition (S := InMemoryDurableStore)) ms x, composed 1%N a c /\ releasing c = None /\
    releasing (composition_acts ms c) = Some x /\ sweeping x.
Proof.
  pose (ms := take 4 shut_down).
  assert (Hc : sampled (fun _ c => let c := Nat.iter 0 next_release (composition_acts ms c) in
    match ledger_of c, releasing c, owner_state (mailbox (driver c)) with Some _, None, OwnerShutdown => true | _, _, _ => false end) = true)
    by (vm_compute; reflexivity).
  pose proof (sample_composed ms 0) as Hs. unfold sampled in Hc.
  destruct sample_assembly as [a|]; [|discriminate]. destruct sample_composition as [c|]; [|discriminate].
  apply andb_true_iff in Hc as [Hnd Hl]. specialize (Hs Hnd). cbv zeta in Hl. revert Hs Hl.
  generalize (Nat.iter 0 next_release (composition_acts ms c)). intros c' Hs Hl.
  destruct (ledger_of c') as [l|] eqn:E; [|discriminate]. destruct (releasing c') eqn:Er; [discriminate|].
  destruct (release_reachable 1%N a c' Hs l E) as [H _].
  destruct (H Er) as (ms' & x & _ & Hx & Hw); [intros He; rewrite He in Hl; discriminate|].
  exists a, c', ms', x. split; [exact Hs|]. split; [exact Er|]. split; [exact Hx|exact Hw].
Defined.
