(* ===== verification/ErrorTexts.v ===== *)
(** * Texts of the errors of a host: [crates/runtime-composition/src/error.rs],
    [crates/runtime-loader/src/error.rs], [crates/execution-stream/src/lib.rs]

    What [Display] writes for the errors of the composition, the loader and the
    stream; those of the other crates stand with their errors.  Derived [Debug]
    output is a parameter. *)
From S2P Require Export LoaderFacts Assembly.
#[local] Open Scope string_scope.
#[local] Open Scope nat_scope.
#[local] Open Scope list_scope.

(** ** Streams *)
Definition StreamError_display (e : StreamError) : string :=
  match e with
  | StreamMismatch expected actual =>
      "sequence tracker expected stream " +:+ Id_display expected +:+ ", got " +:+ Id_display actual
  end.
Definition BufferError_display (e : BufferError) : string :=
  match e with ZeroCapacity => "bounded stream capacity must be greater than zero" end.

(** ** The loader *)
Section texts.
(** Rust's quoted form of a string, and of a list of identifiers. *)
Context (string_debug : string -> string) (ids_debug : list Id -> string).

Definition IncompatibleEntryReason_display (r : IncompatibleEntryReason) : string :=
  match r with
  | ProducedIdentityMismatch actual =>
      "the produced module definition carries identity " +:+ Id_display actual
      +:+ ", which differs from the catalog reference"
  | DeclaredDependenciesDisagree declared produced =>
      "the catalog declares dependencies " +:+ ids_debug declared
      +:+ " but the produced module definition depends on " +:+ ids_debug produced
  end.
Definition format_path (path : list ModuleReference) : string :=
  String.concat " -> " (ModuleReference_display <$> path).
Definition LoaderError_display (e : LoaderError) : string :=
  match e with
  | InvalidReference value reason =>
      "invalid module reference " +:+ string_debug value +:+ ": " +:+ InvalidReferenceReason_display reason
  | DuplicateCatalogEntry r => "catalog entry " +:+ ModuleReference_display r +:+ " is registered twice"
  | DuplicateRootReference r => "root reference " +:+ ModuleReference_display r +:+ " is requested twice"
  | MissingReference requested required_by path =>
      "reference " +:+ ModuleReference_display requested +:+ " is not in the catalog"
      +:+ match required_by with
          | Some r => ", required by " +:+ ModuleReference_display r
          | None => ", requested as a root"
          end
      +:+ "; reference path: " +:+ format_path path
  | Loader.DependencyCycle path => "reference dependency cycle: " +:+ format_path path
  | IncompatibleEntry r reason =>
      "catalog entry " +:+ ModuleReference_display r +:+ " is incompatible: " +:+ IncompatibleEntryReason_display reason
  | RegistrationConstructionFailed r source =>
      "registration construction failed for reference " +:+ ModuleReference_display r +:+ ": " +:+ source
  end.

(** ** The composition *)
Definition CapabilityConflictReason_display (r : CapabilityConflictReason) : string :=
  match r with
  | UnownedRequirement => "required capability has no owner"
  | RequiredOnReactiveSlot m => "required capability is reactively owned by " +:+ Id_display m
  | RequirementIdentityMismatch required declared =>
      "required definition identity " +:+ required +:+ " differs from declared " +:+ declared
  end.
Definition FactoryConflictReason_display (r : FactoryConflictReason) : string :=
  match r with
  | UndeclaredSlot => "factory targets an undeclared capability slot"
  | FactoryOnReactiveSlot m => "factory targets a slot reactively owned by " +:+ Id_display m
  | FactoryIdentityMismatch declared => "factory identity differs from the declared slot " +:+ declared
  | DuplicateFactory m previous =>
      "factory is provided by both " +:+ Id_display previous +:+ " and " +:+ Id_display m
  | MissingSlotFactory => "declaratively owned slot has no factory contribution"
  | InvalidFactoryIdentity => "factory definition identity is empty"
  end.
Definition PluginConflictReason_display (r : PluginConflictReason) : string :=
  match r with
  | DuplicateRegistration m previous =>
      "plugin is registered by both " +:+ Id_display previous +:+ " and " +:+ Id_display m
  | SlotAlreadyClaimed m previous =>
      "reactive slot is claimed by plugins of both " +:+ Id_display previous +:+ " and " +:+ Id_display m
  | UnownedPublication => "plugin publishes an unowned capability"
  | StaticSlotCollision m => "plugin publishes a capability declaratively owned by " +:+ Id_display m
  | Composition.DefinitionMismatch detail => "plugin capability differs from the reactive slot: " +:+ detail
  end.
(** [CompositionError], the variants of planning. *)
Definition CompositionError_display (e : CompositionError) : string :=
  match e with
  | DuplicateModule m => "module " +:+ Id_display m +:+ " is registered twice"
  | MissingModuleDependency m d => "module " +:+ Id_display m +:+ " depends on unregistered " +:+ Id_display d
  | ModuleDependencyCycle cycle => "module dependency cycle: " +:+ join_ids cycle
  | DuplicateTaskContribution t m previous =>
      "task " +:+ Id_display t +:+ " is contributed by both " +:+ Id_display previous +:+ " and " +:+ Id_display m
  | DuplicateCapabilityOwnership c m previous =>
      "capability " +:+ Id_display c +:+ " is owned by both " +:+ Id_display previous +:+ " and " +:+ Id_display m
  | CapabilityDefinitionConflict c reason =>
      "capability " +:+ Id_display c +:+ " conflicts: " +:+ CapabilityConflictReason_display reason
  | MissingCapabilityPlugin c m =>
      "reactive capability " +:+ Id_display c +:+ " owned by " +:+ Id_display m +:+ " has no plugin"
  | CapabilityPluginConflict p reason => "plugin " +:+ Id_display p +:+ " conflicts: " +:+ PluginConflictReason_display reason
  | ConfigurationConflict key m previous =>
      "configuration key " +:+ Id_display key +:+ " is required inconsistently by " +:+ Id_display previous
      +:+ " and " +:+ Id_display m
  | MissingConfiguration m key =>
      "host is missing required configuration " +:+ Id_display key +:+ " for module " +:+ Id_display m
  | FactoryConflict c i reason =>
      "factory for " +:+ Id_display c +:+ "@" +:+ i +:+ " conflicts: " +:+ FactoryConflictReason_display reason
  | InvalidMergedDefinition source => "merged RunDefinition is invalid: " +:+ DefinitionError_display source
  end.
Definition ActivationStage_display (s : ActivationStage) : string :=
  match s with
  | RegistrationStage p reason => "plugin " +:+ Id_display p +:+ " registration failed: " +:+ reason
  | InstantiateStage p reason => "fiber instantiation for " +:+ Id_display p +:+ " failed: " +:+ reason
  | StartStage p reason => "fiber start for " +:+ Id_display p +:+ " failed: " +:+ reason
  | HookStage reason => "activate hook failed: " +:+ reason
  end.
(** [{stage:?}]: the name of the variant. *)
Definition ConstructionStage_debug (s : ConstructionStage) : string :=
  match s with ConstructionStart => "Start" | ConstructionRestore => "Restore" end.
Definition rollback_display (fs : list RollbackFailure) : string :=
  "rollback collected " +:+ pretty (length fs) +:+ " cleanup failure(s): "
  +:+ String.concat "; " ((fun f => Id_display (failed_module f) +:+ ": " +:+ RollbackFailure_display f) <$> fs).
(** [CompositionError], the variants of activation. *)
Definition ActivationError_display `{StoreFormat} (e : ActivationError) : string :=
  match e with
  | ConfigurationRejected e => CompositionError_display e
  | ActivationFailed m stage => "activation of module " +:+ Id_display m +:+ " failed: " +:+ ActivationStage_display stage
  | ReconciliationFailed reason => "reactive reconciliation failed to stabilize: " +:+ reason
  | RollbackFailed fs => rollback_display fs
  | RuntimeConstructionFailed stage source =>
      "runtime " +:+ ConstructionStage_debug stage +:+ " construction failed: " +:+ RuntimeError_display string_debug source
  end.
Definition StartupFailure_display `{StoreFormat} (f : StartupFailure) : string :=
  ActivationError_display (startup_cause f)
  +:+ match failures (startup_rollback f) with
      | [] => ""
      | fs => "; rollback: " +:+ ActivationError_display (RollbackFailed fs)
      end.
End texts.

(** A reference that is not in the catalog is reported with the way to it, and a
    failed activation with what its rollback could not clean up. *)
Example missing_reference_text :
  LoaderError_display (fun s => s) (fun _ => "[]")
    (MissingReference ("store", "2") (Some ("app", "1")) [("app", "1"); ("store", "2")])
  = "reference store@2 is not in the catalog, required by app@1; reference path: app@1 -> store@2".
Proof. reflexivity. Qed.
Example startup_failure_text `{StoreFormat} :
  StartupFailure_display (fun s => s)
    {| startup_cause := ActivationFailed "app" (HookStage "no");
       startup_rollback := {| cleaned := ["app"]; failures :=
         [{| failed_module := "store"; failed_resource := OwnedFiber "db"; failure_reason := "busy" |}] |} |}
  = "activation of module app failed: activate hook failed: no; rollback: rollback collected 1 cleanup failure(s): store: fiber db disposal failed: busy".
Proof. reflexivity. Qed.
